(* ===== verification/_CoqProject ===== *)
-Q . S2P
Prelude.v
GoTime.v
GoString.v
Window.v
Bucket.v
BucketConc.v
MultiBucket.v
Heap.v
Scheduler.v
SchedulerRun.v
SchedulerIface.v
Store.v
StoreProofs.v
StoreSystem.v
StoreConc.v
StoreConcProofs.v
StoreConcSim.v
SHA256.v
Security.v
Float64.v
Fairness.v
AuditLog.v
Metrics.v
GoParse.v
Config.v
GoJSON.v
GoHTTP.v
Server.v
ServerProofs.v
Listener.v
Main.v
Boot.v
Simulator.v
