(* ===== verification/Prelude.v ===== *)
(** * Sentinel: a verification development for the rate-limiting service

    Sentinel answers "may this client make a request now?" over HTTP, from
    token buckets kept per client and tier, per source address and globally.
    This library models the Go program under [src/] and proves what it
    promises; where the code does something else than it says, the theorems
    state what it does.

    ** The program and its model

    A request goes from the connection-limited listener
    ([internal/server/middleware.go]: [Listener], [Boot]) through the handler
    of the client API ([client_server.go], [identity.go]: [Server]) to
    [BucketStore.Allow] ([internal/store]: [Store]), which asks the global
    bucket, the bucket of the source address and the bucket of the client's
    tier ([internal/multibucket]: [MultiBucket]; [internal/bucket]: [Bucket]),
    each of which may add a sliding window ([internal/window]: [Window]).  The
    answer is counted ([internal/metrics]: [Metrics]), logged
    ([internal/audit]: [AuditLog]) and accounted ([internal/fairness]:
    [Fairness]).  A second server changes configurations and blocks clients
    ([admin_server.go]: [Server]).  Beside them a scheduler
    ([internal/scheduler]: [Heap], [Scheduler], [SchedulerRun]) calls the store
    back when a bucket is due for a refill.  [Main] and [Boot] are
    [cmd/sentinel]: the configuration file ([internal/config]: [Config])
    becomes the running program, and a signal ends it.  [Simulator] is
    [cmd/simulator].

    Files, in dependency order:
    - [Prelude]: automation, int64 arithmetic, the state-and-panic monad [M]
      with its rules [wp] (total correctness), [may_panic] (what a panic
      leaves behind) and [preserves] (framing), slices, map iteration, lists;
    - [GoTime], [GoString], [GoParse], [Float64], [SHA256], [GoJSON], [GoHTTP]:
      the parts of Go's standard library the source uses;
    - [Window]; [Bucket] (one goroutine), [BucketConc] (its atomic operations
      interleaved); [MultiBucket];
    - [Heap] (the entry heap and container/heap), [Scheduler] (its methods),
      [SchedulerRun] (the run loop with its timer, wake-up channel and callers),
      [SchedulerIface] (the class through which the store sees a scheduler:
      operations and laws, with [Scheduler] as the instance);
    - [Store] (every method, for any scheduler of the class), [StoreProofs]
      (the store's invariant and the specification of each method),
      [StoreSystem] (the store with the real scheduler, histories of
      operations as the servers run them: a panic of a request is recovered);
    - [StoreConc] (the store's methods as lock sections over shared objects),
      [StoreConcProofs] (rely-guarantee), [StoreConcSim] (a thread that runs
      alone is the sequential store);
    - [Security], [Fairness], [AuditLog], [Metrics], [Config];
    - [Server] (middleware, handlers, routes), [ServerProofs], [Listener],
      [Main], [Boot], [Simulator].

    Definitions carry the names of the source: [Bucket.Allow] is
    the method [Allow] of [Bucket], [Store.evictLRULocked] is
    the method [evictLRULocked] of [BucketStore].  A method is a computation [M S A] on
    the fields of its object; a nil dereference, an index out of range or an
    explicit panic is the outcome [Panic], and so is the [make] of a sliding
    window's buffer that is larger than the address space ([Window.make_int64s],
    [allocatable]): no validation bounds the buffer, so theorems about code that
    makes buckets say what happens then.  Integers are [Z] with the
    wrap-around of int64 written out ([+!], [-!], [*!], [/!]); instants are
    nanoseconds since the epoch and [UnixNano] wraps.  Maps are stdpp's [gmap];
    a Go [range] over one visits it in the order of an arbitrary [MapRange],
    so every theorem holds for every order.  Readings of the clock, random
    draws and answers of the host are arguments.

    ** What the theorems show

    - Buckets: [Bucket] proves the exact decision, retry delay and state of
      [Allow] on every branch for configurations on which nothing overflows
      ([safe]), that a rejected caller who waits the announced delay is served,
      that scheduled refills never change an answer, and that a panic inside
      rejects.  [BucketConc] proves, for every interleaving of the individual
      atomic loads, stores and compare-and-swaps, that no interval is credited
      twice, that balances stay between zero and the capacity, that the number
      of grants obeys the configured rate, and that a call that runs alone
      computes what the sequential model computes; and that the refund after a
      window rejection can exceed the capacity.
    - Windows: the ring buffer refines a queue of timestamps, and the queue
      never accepts more than the limit in any half-open window [(t - W, t]];
      the closed window of the design document can hold more.
    - Scheduler: the heap with its index map is a finite map of due times; a
      pass fires exactly the due entries in order; the run loop never sleeps
      past an entry and is never stuck.
    - Store: [Allow] returns what the specification [Spec_Allow] says and
      leaves the gates it did not reach alone; after any history exactly the
      buckets that need refills are scheduled, the tables stay within their
      capacities, eviction takes the least recently used client, and a blocked
      client is refused until it is unblocked, reconfigured or evicted.  Under
      concurrency no interleaving of lock sections panics (with windows that can
      be allocated), exceeds a capacity or replaces an object in use, and a
      request that runs alone is [Store.Allow]; three racing first requests show
      what the two lock sections of [ensureTier] allow.
      The servers accept the client key __ip__, whose ids the store takes for
      those of addresses.  The store's theorems hold in two modes
      ([StoreProofs.Mode]): in [AnyKey] clients may have this key, and the exact
      schedule is promised for the ids without the prefix; in [Strict] none has
      it, and the schedule is exact for every id.
    - Servers: the complete effect of a client request, of authentication and
      of a configuration update; after any history of requests, firings and
      samples the program has answered each request with a documented status (301
      included: the mux redirects unclean paths), or with 500 where a configured
      window cannot be allocated, and runs on ([Main]); the admin listener's authentication, the audit trail
      and the shutdown protocol ([Boot]); the connection limit ([Listener]).
    - Configuration: parsing the rendering of a document gives the document;
      what a validated configuration still allows (an overflowing bucket, a
      window that panics).
    - The rest: sanitised log text, the latency histogram, the simulator's
      report.

    ** Fuel and bounds

    Loops that are not structural take fuel, and the bound is proved enough
    where the loop is used: one retry for a compare-and-swap loop that runs
    alone ([retries]); the number of timestamps for the window's compaction;
    the heap's length for sifting and for draining due entries; the length of
    the input for the configuration parser and the JSON decoder.  The
    concurrent models have no fuel: a retry is a step.  int64 bounds are
    [int64_min] and [int64_max] below.

    ** Granularity

    [BucketConc] interleaves single atomic operations (the window's method is
    one step: it holds the window's mutex).  [StoreConc] interleaves lock
    sections, with each bucket operation one block.  The scheduler's methods
    hold its mutex and are one step each in [SchedulerRun].  Go's memory model
    is taken to be sequentially consistent for the atomics and mutexes the code
    uses.

    ** Not modelled

    The bytes of HTTP, TLS, JSON output and log lines (a response is its
    status, headers and the value handed to the encoder), the [Location] header
    and the short texts of the mux's own answers, and what [http.Server] answers
    without calling a handler (malformed requests, the server-wide OPTIONS);
    timeouts of
    [http.Server] and the draining time of [Shutdown]; the text of the metrics
    exposition below its lines; flag parsing and the HTTP client of the
    simulator; memory exhaustion (a buffer that fits the address space is
    taken to be allocated); tests, scripts and deployment files. *)

From stdpp Require Import base tactics gmap strings list fin_maps numbers.
From Stdlib Require Import ZArith Lia.

Local Open Scope Z_scope.

(** ** Automation *)

(** The hint database of the development: bounds and wrap-around facts. *)
Create HintDb sentinel.
Create Rewrite HintDb zlen.

(** [zlia] is [lia] extended with the defining equations of Euclidean and
    truncated division and remainder. *)
Ltac zlia := Z.to_euclidean_division_equations; lia.

(** [bcase] splits on the integer tests of the goal, innermost first. *)
Ltac no_if t :=
  lazymatch t with context [if _ then _ else _] => fail | _ => idtac end.
Ltac bcase :=
  repeat match goal with
  | |- context [?a <=? ?b] => no_if a; no_if b; destruct (Z.leb_spec a b); cbv match
  | |- context [?a <? ?b] => no_if a; no_if b; destruct (Z.ltb_spec a b); cbv match
  | |- context [?a =? ?b] => no_if a; no_if b; destruct (Z.eqb_spec a b); cbv match
  end.

(** [zcompute] decides closed integer facts by evaluation. *)
Ltac zcompute :=
  vm_compute;
  repeat match goal with |- _ /\ _ => split | |- _ -> _ => intro end;
  first [exact I | reflexivity | discriminate].

(** ** Machine integers: Go's [int64] (and [int] on 64-bit platforms) *)

Definition int64_min : Z := - 2 ^ 63.
Definition int64_max : Z := 2 ^ 63 - 1.

(** Membership in the representable range. *)
Definition in64 (z : Z) : Prop := int64_min <= z <= int64_max.

(** Two's complement wrap-around of a mathematical integer. *)
Definition wrap64 (z : Z) : Z := (z + 2 ^ 63) mod 2 ^ 64 - 2 ^ 63.

Arguments wrap64 : simpl never.

Declare Scope go_scope.
Delimit Scope go_scope with go.
Notation "a +! b" := (wrap64 (a + b)) (at level 50, left associativity) : go_scope.
Notation "a -! b" := (wrap64 (a - b)) (at level 50, left associativity) : go_scope.
Notation "a *! b" := (wrap64 (a * b)) (at level 40, left associativity) : go_scope.
(** Go's integer division truncates towards zero; the only overflowing
    quotient is [int64_min / -1], which wraps.  The divisor is nonzero where
    this is used: Go panics otherwise. *)
Notation "a /! b" := (wrap64 (Z.quot a b)) (at level 40, left associativity) : go_scope.
Notation "a %! b" := (Z.rem a b) (at level 40, no associativity) : go_scope.

Lemma wrap64_in64 z : in64 (wrap64 z).
Proof.
  unfold in64, wrap64, int64_min, int64_max.
  pose proof (Z.mod_pos_bound (z + 2 ^ 63) (2 ^ 64) ltac:(lia)). lia.
Qed.

Lemma wrap64_id z : in64 z -> wrap64 z = z.
Proof.
  unfold in64, wrap64, int64_min, int64_max. intros H.
  rewrite Z.mod_small; lia.
Qed.

Lemma in64_intro z : - 2 ^ 63 <= z -> z < 2 ^ 63 -> in64 z.
Proof. unfold in64, int64_min, int64_max. lia. Qed.

#[export] Hint Resolve wrap64_in64 : sentinel.
(** [lia64]: linear arithmetic over machine integers whose ranges are in the
    context. *)
Ltac lia64 := unfold in64, int64_min, int64_max in *; lia.

(** [unwrap64] removes the wrap-arounds of the goal, innermost first, whose
    arguments are provably in range. *)
Ltac no_wrap t := lazymatch t with context [wrap64 _] => fail | _ => idtac end.
Ltac unwrap64 :=
  repeat match goal with
  | |- context [wrap64 ?a] => no_wrap a; rewrite (wrap64_id a) by lia64
  end.

(** ** Effects: a state monad with Go's panics

    A Go function that mutates an object of type [S] and returns an [A] is a
    computation [M S A].  The state reached at the point of a panic is kept:
    Go does not roll back. [OutOfFuel] is not a Go behaviour: it marks a loop
    cut off by its fuel, and the theorems show it unreachable. *)

Inductive outcome (A : Type) : Type :=
| Ok (a : A)
| Panic
| OutOfFuel.
Arguments Ok {A} a.
Arguments Panic {A}.
Arguments OutOfFuel {A}.

Definition M (S A : Type) : Type := S -> outcome A * S.

Definition ret {S A} (a : A) : M S A := fun s => (Ok a, s).
Definition panic {S A} : M S A := fun s => (Panic, s).
Definition no_fuel {S A} : M S A := fun s => (OutOfFuel, s).
Definition bind {S A B} (c : M S A) (f : A -> M S B) : M S B :=
  fun s => match c s with
           | (Ok a, s') => f a s'
           | (Panic, s') => (Panic, s')
           | (OutOfFuel, s') => (OutOfFuel, s')
           end.
Definition gets {S A} (f : S -> A) : M S A := fun s => (Ok (f s), s).
Definition modify {S} (f : S -> S) : M S unit := fun s => (Ok tt, f s).

Declare Scope go_monad_scope.
Delimit Scope go_monad_scope with go_monad.
Notation "'let!' x := c 'in' k" := (bind c (fun x => k))
  (at level 10, x name, c at level 100, k at level 200)
  : go_monad_scope.
Notation "'let!' ' p := c 'in' k" := (bind c (fun x => match x with p => k end))
  (at level 10, p pattern, c at level 100, k at level 200)
  : go_monad_scope.
Notation "c ;;; k" := (bind c (fun _ => k))
  (at level 60, right associativity) : go_monad_scope.

(** [defer func() { if recover() != nil { ... } }()]: a panic becomes the
    value [v], the state stays as the panic left it. *)
Definition recover_with {S A} (v : A) (c : M S A) : M S A :=
  fun s => match c s with
           | (Panic, s') => (Ok v, s')
           | r => r
           end.

(** Running a computation on a component of the state (a field of an object
    reached through a pointer that only this object holds). *)
Definition zoom {S T A} (get : S -> T) (set : T -> S -> S) (c : M T A) : M S A :=
  fun s => let '(r, t) := c (get s) in (r, set t s).

(** [for _, x := range xs { f(x) }] *)
Fixpoint for_each {S A} (xs : list A) (f : A -> M S unit) : M S unit :=
  match xs with
  | [] => ret tt
  | x :: xs => bind (f x) (fun _ => for_each xs f)
  end.

(** Total correctness: [c] run from [s] returns normally (no panic, enough
    fuel) with a value and a state in [Q]. *)
Definition wp {S A} (c : M S A) (s : S) (Q : A -> S -> Prop) : Prop :=
  match c s with
  | (Ok a, s') => Q a s'
  | _ => False
  end.

Section WP.
Context {S A B : Type}.
Implicit Types (c : M S A) (s : S).

Lemma wp_ret (a : A) s Q : Q a s -> wp (ret a) s Q.
Proof. done. Qed.

Lemma wp_gets (f : S -> A) s Q : Q (f s) s -> wp (gets f) s Q.
Proof. done. Qed.

Lemma wp_bind c (f : A -> M S B) s Q :
  wp c s (fun a s' => wp (f a) s' Q) -> wp (bind c f) s Q.
Proof. unfold wp, bind. destruct (c s) as [[] ?]; done. Qed.

Lemma wp_mono c s (P Q : A -> S -> Prop) :
  wp c s P -> (forall a s', P a s' -> Q a s') -> wp c s Q.
Proof. unfold wp. destruct (c s) as [[] ?]; auto. Qed.

Lemma wp_value c s Q :
  wp c s Q <-> exists a s', c s = (Ok a, s') /\ Q a s'.
Proof.
  unfold wp. destruct (c s) as [[a| |] s'] eqn:E; split.
  - eauto.
  - intros (? & ? & H & ?). by simplify_eq.
  - done.
  - intros (? & ? & H & ?). done.
  - done.
  - intros (? & ? & H & ?). done.
Qed.

Lemma wp_final c s (P : S -> Prop) : wp c s (fun _ s' => P s') -> P (snd (c s)).
Proof. unfold wp. by destruct (c s) as [[] ?]. Qed.

Lemma wp_recover_with (v : A) c s Q : wp c s Q -> wp (recover_with v c) s Q.
Proof. unfold wp, recover_with. destruct (c s) as [[] ?]; done. Qed.
End WP.

Lemma wp_modify {S} (f : S -> S) s (Q : unit -> S -> Prop) :
  Q tt (f s) -> wp (modify f) s Q.
Proof. done. Qed.

Lemma wp_zoom {S T A} (get : S -> T) set (c : M T A) s (Q : A -> S -> Prop) :
  wp c (get s) (fun a t => Q a (set t s)) -> wp (zoom get set c) s Q.
Proof. unfold wp, zoom. destruct (c (get s)) as [[] ?]; done. Qed.

(** A loop whose body keeps an invariant. *)
Lemma wp_for_each_inv {S A} (I : S -> Prop) (f : A -> M S unit) l s :
  I s -> (forall a s, a ∈ l -> I s -> wp (f a) s (fun _ => I)) -> wp (for_each l f) s (fun _ => I).
Proof.
  revert s. induction l as [|a l IH]; intros s Hs Hf; cbn [for_each]; [done|].
  apply wp_bind. eapply wp_mono; [apply Hf; [apply list_elem_of_here|done]|].
  intros u s' Hs'. apply IH; [exact Hs'|]. intros b t Hb. apply Hf. by apply list_elem_of_further.
Qed.

(** [wp_step] applies the rule for the head of the computation. *)
Ltac wp_step :=
  lazymatch goal with
  | |- wp (bind _ _) _ _ => apply wp_bind
  | |- wp (ret _) _ _ => apply wp_ret
  | |- wp (gets _) _ _ => apply wp_gets
  | |- wp (modify _) _ _ => apply wp_modify
  | |- wp (zoom _ _ _) _ _ => apply wp_zoom
  end.
Ltac wp_steps := repeat (wp_step; cbn beta).

(** [wp_use lem]: the head of the computation is specified by [lem]; its
    preconditions come first, then what it established. *)
Tactic Notation "wp_use" uconstr(lem) :=
  eapply wp_mono; [eapply lem|cbn beta].

(** ** Framing: what a computation does to the state on every path

    [preserves R c]: whatever the outcome of [c] (a value, a panic, no fuel),
    the state it leaves is related to the state it started from. *)

Definition preserves {S A} (R : S -> S -> Prop) (c : M S A) : Prop :=
  forall s, R s (snd (c s)).

Section Preserves.
Context {S : Type} (R : S -> S -> Prop) `{!PreOrder R}.
Implicit Types s : S.

Lemma preserves_ret {A} (a : A) : preserves R (ret a).
Proof. intros s. cbn. reflexivity. Qed.

Lemma preserves_panic {A} : preserves R (@panic S A).
Proof. intros s. cbn. reflexivity. Qed.

Lemma preserves_no_fuel {A} : preserves R (@no_fuel S A).
Proof. intros s. cbn. reflexivity. Qed.

Lemma preserves_gets {A} (f : S -> A) : preserves R (gets f).
Proof. intros s. cbn. reflexivity. Qed.

Lemma preserves_modify (f : S -> S) : (forall s, R s (f s)) -> preserves R (modify f).
Proof. intros H s. cbn. auto. Qed.

Lemma preserves_bind {A B} (c : M S A) (f : A -> M S B) :
  preserves R c -> (forall a, preserves R (f a)) -> preserves R (bind c f).
Proof.
  intros Hc Hf s. specialize (Hc s). unfold bind. destruct (c s) as [[a| |] s']; [|done..].
  etrans; [exact Hc|apply Hf].
Qed.

Lemma preserves_recover_with {A} (v : A) (c : M S A) :
  preserves R c -> preserves R (recover_with v c).
Proof. intros Hc s. specialize (Hc s). unfold recover_with. by destruct (c s) as [[] ?]. Qed.

Lemma preserves_for_each {A} (l : list A) (f : A -> M S unit) :
  (forall a, preserves R (f a)) -> preserves R (for_each l f).
Proof.
  intros Hf. induction l as [|a l IH]; [apply preserves_ret|].
  apply preserves_bind; [apply Hf|]. intros _. exact IH.
Qed.

Lemma preserves_zoom {T A} (RT : T -> T -> Prop) get set (c : M T A) :
  preserves RT c -> (forall s t, RT (get s) t -> R s (set t s)) ->
  preserves R (zoom get set c).
Proof.
  intros Hc Hs s. specialize (Hc (get s)). unfold zoom.
  destruct (c (get s)) as [r t]. cbn in *. auto.
Qed.
End Preserves.

(** [frame]: decomposes a [preserves] goal; what is left are the side
    conditions of the assignments and the calls it has no rule for. *)
Ltac frame_step :=
  lazymatch goal with
  | |- preserves _ (bind _ _) => apply preserves_bind; [typeclasses eauto| |intro]
  | |- preserves _ (ret _) => apply preserves_ret; typeclasses eauto
  | |- preserves _ (gets _) => apply preserves_gets; typeclasses eauto
  | |- preserves _ panic => apply preserves_panic; typeclasses eauto
  | |- preserves _ no_fuel => apply preserves_no_fuel; typeclasses eauto
  | |- preserves _ (modify _) => apply preserves_modify; intro
  | |- preserves _ (recover_with _ _) => apply preserves_recover_with
  | |- preserves _ (for_each _ _) => apply preserves_for_each; [typeclasses eauto|intro]
  | |- preserves _ (if ?b then _ else _) => destruct b
  | |- preserves _ (match ?x with _ => _ end) => destruct x
  | |- preserves _ (let _ := _ in _) => cbv zeta
  end.
Ltac frame := repeat (frame_step; auto with frame).
Create HintDb frame.

(** ** Computations that may panic

    [may_panic P c s Q]: [c] run from [s] returns with a value and a state in
    [Q], or panics and leaves a state in [P] (Go does not roll back, and the
    servers recover from the panic of a handler and go on). *)
Definition may_panic {S A} (P : S -> Prop) (c : M S A) (s : S) (Q : A -> S -> Prop) : Prop :=
  match c s with
  | (Ok a, s') => Q a s'
  | (Panic, s') => P s'
  | (OutOfFuel, _) => False
  end.

Section MayPanic.
Context {S : Type} (P : S -> Prop).
Implicit Types s : S.

Lemma mp_wp {A} (c : M S A) s Q : wp c s Q -> may_panic P c s Q.
Proof. unfold wp, may_panic. by destruct (c s) as [[] ?]. Qed.

Lemma mp_bind {A B} (c : M S A) (f : A -> M S B) s Q :
  may_panic P c s (fun a s' => may_panic P (f a) s' Q) -> may_panic P (bind c f) s Q.
Proof. unfold may_panic, bind. by destruct (c s) as [[] ?]. Qed.

(** The head of the computation does not panic. *)
Lemma mp_bind_wp {A B} (c : M S A) (f : A -> M S B) s Q :
  wp c s (fun a s' => may_panic P (f a) s' Q) -> may_panic P (bind c f) s Q.
Proof. intros Hc. by apply mp_bind, mp_wp. Qed.

Lemma mp_mono {A} (P' : S -> Prop) (c : M S A) s (Q Q' : A -> S -> Prop) :
  may_panic P' c s Q' -> (forall s', P' s' -> P s') -> (forall a s', Q' a s' -> Q a s') ->
  may_panic P c s Q.
Proof. unfold may_panic. destruct (c s) as [[] ?]; auto. Qed.

Lemma mp_value {A} (c : M S A) s Q :
  may_panic P c s Q ->
  (exists a s', c s = (Ok a, s') /\ Q a s') \/ (exists s', c s = (Panic, s') /\ P s').
Proof. unfold may_panic. destruct (c s) as [[a| |] s']; [left|right|done]; eauto. Qed.

Lemma mp_total {A} (c : M S A) s Q :
  may_panic P c s Q -> (forall s', ~ P s') -> wp c s Q.
Proof. unfold may_panic, wp. destruct (c s) as [[a| |] s']; [done| |done]. intros HP Hno. by destruct (Hno _ HP). Qed.

Lemma mp_ret {A} (a : A) s (Q : A -> S -> Prop) : Q a s -> may_panic P (ret a) s Q.
Proof. done. Qed.
End MayPanic.

Lemma mp_zoom {S T A} (P : S -> Prop) (get : S -> T) set (c : M T A) s (Q : A -> S -> Prop) :
  may_panic (fun t => P (set t s)) c (get s) (fun a t => Q a (set t s)) ->
  may_panic P (zoom get set c) s Q.
Proof. unfold may_panic, zoom. by destruct (c (get s)) as [[] ?]. Qed.

(** [mp_use lem]: like [wp_use]; after the preconditions come what the panic
    leaves and what the return establishes. *)
Tactic Notation "mp_use" uconstr(lem) :=
  eapply mp_mono; [eapply lem|cbn beta|cbn beta].

(** ** Slices indexed by Go [int]s *)

(** [zlookup l i] is [l[i]]: [None] where Go panics with an index out of
    range. *)
Definition zlookup {A} (l : list A) (i : Z) : option A :=
  if i <? 0 then None else l !! Z.to_nat i.

(** [zinsert i x l] is [l[i] = x]; used only after a bounds check. *)
Definition zinsert {A} (i : Z) (x : A) (l : list A) : list A :=
  <[Z.to_nat i := x]> l.

Definition zlen {A} (l : list A) : Z := Z.of_nat (length l).

(** Reading and writing a slice held in the state, with Go's panic. *)
Definition index {S A} (l : list A) (i : Z) : M S A :=
  match zlookup l i with
  | Some x => ret x
  | None => panic
  end.

Section ZList.
Context {A : Type}.
Implicit Types (l : list A) (i j : Z).

Lemma zlookup_Some l i x :
  zlookup l i = Some x -> 0 <= i < zlen l.
Proof.
  unfold zlookup, zlen. bcase; [done|]. intros H'%lookup_lt_Some. lia.
Qed.

Lemma zlookup_is_Some l i : 0 <= i < zlen l -> is_Some (zlookup l i).
Proof.
  unfold zlookup, zlen. intros. bcase; [lia|]. apply lookup_lt_is_Some. lia.
Qed.

Lemma zlookup_None l i : i < 0 \/ zlen l <= i -> zlookup l i = None.
Proof.
  unfold zlookup, zlen. intros. bcase; [done|]. apply lookup_ge_None. lia.
Qed.

Lemma zlookup_nonneg l i : 0 <= i -> zlookup l i = l !! Z.to_nat i.
Proof. unfold zlookup. intros. bcase; [lia|done]. Qed.

Lemma zlen_zinsert l i x : zlen (zinsert i x l) = zlen l.
Proof. unfold zlen, zinsert. by rewrite length_insert. Qed.

Lemma zlookup_zinsert l i j x :
  0 <= i < zlen l -> 0 <= j ->
  zlookup (zinsert i x l) j = if j =? i then Some x else zlookup l j.
Proof.
  unfold zlen. intros Hi Hj. rewrite !zlookup_nonneg by lia. unfold zinsert.
  bcase; subst.
  - apply list_lookup_insert_eq. lia.
  - apply list_lookup_insert_ne. lia.
Qed.

Lemma zlen_nonneg l : 0 <= zlen l.
Proof. unfold zlen. lia. Qed.

Lemma zlen_app l k : zlen (l ++ k) = zlen l + zlen k.
Proof. unfold zlen. rewrite length_app. lia. Qed.

Lemma zlen_nil : zlen (@nil A) = 0.
Proof. done. Qed.

Lemma zlen_cons x l : zlen (x :: l) = zlen l + 1.
Proof. unfold zlen. cbn. lia. Qed.
End ZList.

#[export] Hint Resolve zlen_nonneg : sentinel.
#[export] Hint Rewrite @zlen_zinsert @zlen_app @zlen_nil @zlen_cons : zlen.

(** ** Iteration over Go maps

    [for k, v := range m] visits the entries of a map in an unspecified
    order.  A [MapRange] is one choice of that order; the theorems hold for
    every choice. *)
Class MapRange := {
  range : forall {V : Type}, gmap string V -> list (string * V);
  range_perm : forall {V : Type} (m : gmap string V),
    Permutation (range m) (map_to_list m)
}.

(** The order used by the concrete examples. *)
Definition map_to_list_range : MapRange :=
  {| range := fun V m => map_to_list m; range_perm := fun V m => reflexivity _ |}.

Section Range.
Context `{MapRange} {V : Type}.
Implicit Types m : gmap string V.

Lemma elem_of_range m k v : (k, v) ∈ range m <-> m !! k = Some v.
Proof. rewrite range_perm. apply elem_of_map_to_list. Qed.

Lemma NoDup_range_keys m : NoDup (range m).*1.
Proof. rewrite range_perm. apply NoDup_fst_map_to_list. Qed.

Lemma range_nil_inv m : range m = [] -> m = ∅.
Proof.
  intros E. apply map_empty. intros k. destruct (m !! k) eqn:Hk; [|done].
  apply elem_of_range in Hk. rewrite E in Hk. set_solver.
Qed.

Lemma length_range m : length (range m) = size m.
Proof. rewrite range_perm. apply length_map_to_list. Qed.
End Range.

(** ** Filtering lists *)

Section Filter.
Context {A : Type} (P Q : A -> Prop).
Context `{forall x, Decision (P x)} `{forall x, Decision (Q x)}.
Implicit Types l : list A.

Lemma filter_ext_Forall l :
  Forall (fun x => P x <-> Q x) l -> filter P l = filter Q l.
Proof.
  induction 1 as [|x l Hx _ IH]; [done|].
  rewrite !filter_cons, IH. do 2 case_decide; (done || (exfalso; tauto)).
Qed.

Lemma filter_all l : Forall P l -> filter P l = l.
Proof.
  induction 1 as [|x l Hx _ IH]; [done|]. by rewrite filter_cons_True, IH.
Qed.

Lemma filter_none l : Forall (fun x => ~ P x) l -> filter P l = [].
Proof.
  induction 1 as [|x l Hx _ IH]; [done|]. by rewrite filter_cons_False.
Qed.

Lemma filter_length_mono l :
  Forall (fun x => P x -> Q x) l -> zlen (filter P l) <= zlen (filter Q l).
Proof.
  unfold zlen. induction 1 as [|x l Hx _ IH]; [done|].
  rewrite !filter_cons. do 2 case_decide; cbn; (lia || (exfalso; tauto)).
Qed.
End Filter.
