(* ===== verification/GoTime.v ===== *)
(** * Go's [time] package, as far as Sentinel uses it

    A [Time] is an instant, in nanoseconds since the Unix epoch; a [Duration]
    is an [int64] number of nanoseconds.  [time.Now()] also carries a
    monotonic reading, which never takes part here: every subtraction and
    comparison in the program has an operand made by [time.Unix], which has
    none, so Go uses the wall clock. *)

From stdpp Require Import base tactics.
From Stdlib Require Import ZArith Lia.
From S2P Require Import Prelude.

Local Open Scope Z_scope.
Local Open Scope go_scope.

Abbreviation Time := Z (only parsing).
Abbreviation Duration := Z (only parsing).

Definition Nanosecond : Duration := 1.
Definition Microsecond : Duration := 1000.
Definition Millisecond : Duration := 1000000.
Definition Second : Duration := 1000000000.
Definition Minute : Duration := 60 * Second.
Definition Hour : Duration := 60 * Minute.

(** The zero [time.Time]: January 1, year 1, 00:00:00 UTC. *)
Definition zeroTime : Time := -62135596800 * Second.

Module Time.
(** [t.UnixNano()]: the count of nanoseconds modulo 2^64. *)
Definition UnixNano (t : Time) : Z := wrap64 t.

(** [time.Unix(0, n)]. *)
Definition Unix0 (n : Z) : Time := n.

Definition Add (t : Time) (d : Duration) : Time := t + d.

(** [t.Sub(u)] saturates at the ends of the [Duration] range. *)
Definition Sub (t u : Time) : Duration :=
  Z.max int64_min (Z.min int64_max (t - u)).

Definition After (t u : Time) : bool := u <? t.
Definition Before (t u : Time) : bool := t <? u.
Definition IsZero (t : Time) : bool := t =? zeroTime.

Lemma Sub_in64 t u : in64 (Sub t u).
Proof. unfold Sub. lia64. Qed.

Lemma Sub_exact t u : in64 (t - u) -> Sub t u = t - u.
Proof. unfold Sub. lia64. Qed.

Lemma Sub_nonpos t u : t <= u -> Sub t u <= 0.
Proof. unfold Sub. lia64. Qed.

Lemma UnixNano_id t : in64 t -> UnixNano t = t.
Proof. apply wrap64_id. Qed.
End Time.

(** [d.Milliseconds()] *)
Definition Milliseconds (d : Duration) : Z := d /! Millisecond.

(** [d.Microseconds()] *)
Definition Microseconds (d : Duration) : Z := d /! Microsecond.

(** [d.Round(m)]: to the nearest multiple, halves away from zero; the largest
    or smallest [Duration] where that overflows. *)
Definition lessThanHalf (x y : Duration) : bool := (2 * x) mod 2 ^ 64 <? y mod 2 ^ 64.

Definition Round (d m : Duration) : Duration :=
  if m <=? 0 then d
  else
    let r := Z.rem d m in
    if d <? 0 then
      let r := wrap64 (- r) in
      if lessThanHalf r m then d +! r
      else
        let d1 := d -! m +! r in
        if d1 <? d then d1 else int64_min
    else if lessThanHalf r m then d -! r
    else
      let d1 := d +! m -! r in
      if d <? d1 then d1 else int64_max.

Lemma Round_nearest d m :
  0 < m <= Hour -> 0 <= d <= int64_max - m -> Z.rem (Round d m) m = 0 /\ 2 * Z.abs (Round d m - d) <= m.
Proof.
  intros [Hm HmH] [Hd Hmax]. assert (Hour = 3600000000000) by done. unfold Round.
  destruct (Z.leb_spec m 0); [lia|]. destruct (Z.ltb_spec d 0); [lia|]. cbv zeta.
  pose proof (Z.rem_bound_pos d m Hd Hm). pose proof (Z.quot_rem' d m) as Hq.
  set (r := Z.rem d m) in *. set (q := Z.quot d m) in *.
  assert (Hq0 : 0 <= q) by (by apply Z.quot_pos; lia).
  unfold lessThanHalf. rewrite !Z.mod_small by lia64.
  assert (Hmul : forall k, Z.rem (m * k) m = 0) by (intros k; rewrite Z.mul_comm; apply Z.rem_mul; lia).
  destruct (Z.ltb_spec (2 * r) m).
  - rewrite wrap64_id by lia64. replace (d - r) with (m * q) by lia. split; [apply Hmul|lia].
  - rewrite (wrap64_id (d + m)) by lia64. rewrite wrap64_id by lia64.
    destruct (Z.ltb_spec d (d + m - r)); [|lia].
    replace (d + m - r) with (m * (q + 1)) by lia. split; [apply Hmul|lia].
Qed.

Example ex_round :
  map (fun d => Round d Microsecond) [499; 500; 1499; -499; -500; int64_max; int64_min]
  = [0; 1000; 1000; 0; -1000; int64_max; int64_min].
Proof. vm_compute. done. Qed.

#[export] Hint Resolve Time.Sub_in64 : sentinel.
