(* ===== verification/GoString.v ===== *)
(** * Go strings

    A Go string is a sequence of bytes, here Rocq's [string].  The functions of
    Go's [strings] package the program calls, and the lemmas about them. *)

From stdpp Require Import base tactics strings list numbers.
From Stdlib Require Import ZArith Lia Ascii String.
From S2P Require Import Prelude.

Local Open Scope string_scope.

Create Rewrite HintDb gostr.

(** [strings.HasPrefix(s, p)] *)
Definition HasPrefix (s p : string) : bool := String.prefix p s.

Fixpoint str_drop (n : nat) (s : string) : string :=
  match n, s with
  | O, _ => s
  | S n, String _ s => str_drop n s
  | S _, EmptyString => ""
  end.

Fixpoint str_take (n : nat) (s : string) : string :=
  match n, s with
  | S n, String c s => String c (str_take n s)
  | _, _ => ""
  end.

(** [strings.TrimPrefix(s, p)] *)
Definition TrimPrefix (s p : string) : string :=
  if HasPrefix s p then str_drop (String.length p) s else s.

(** [strings.Cut(s, sep)] for a one-byte separator. *)
Fixpoint Cut (s : string) (sep : ascii) : string * string * bool :=
  match s with
  | EmptyString => ("", "", false)
  | String c s' =>
      if Ascii.eqb c sep then ("", s', true)
      else let '(a, b, found) := Cut s' sep in (String c a, b, found)
  end.

(** The bytes of a string, and membership of a byte. *)
Fixpoint contains (s : string) (b : ascii) : bool :=
  match s with
  | EmptyString => false
  | String c s => Ascii.eqb c b || contains s b
  end.

Fixpoint str_forall (f : ascii -> bool) (s : string) : bool :=
  match s with
  | EmptyString => true
  | String c s => f c && str_forall f s
  end.

(** [strings.Split(s, sep)] for a one-byte separator. *)
Fixpoint Split (s : string) (sep : ascii) : list string :=
  match s with
  | EmptyString => [""]
  | String c s' =>
      if Ascii.eqb c sep then "" :: Split s' sep
      else match Split s' sep with
           | w :: ws => String c w :: ws
           | [] => [String c ""]
           end
  end.

(** The UTF-8 encodings of the runes [unicode.IsSpace] accepts. *)
Definition bytes_string (l : list nat) : string :=
  string_of_list_ascii (map ascii_of_nat l).

Definition space_encodings : list string :=
  map bytes_string
    ([[9]; [10]; [11]; [12]; [13]; [32]; [194; 133]; [194; 160]; [225; 154; 128]] ++
     map (fun k => [226; 128; 128 + k])%nat (seq 0 11) ++
     [[226; 128; 168]; [226; 128; 169]; [226; 128; 175]; [226; 129; 159]; [227; 128; 128]])%nat%list.

(** [strings.TrimSpace]: white space is removed from both ends.  Matching the
    encodings is what decoding the first and last runes amounts to. *)
Fixpoint str_rev_app (s acc : string) : string :=
  match s with
  | EmptyString => acc
  | String c s => str_rev_app s (String c acc)
  end.
Definition str_rev (s : string) : string := str_rev_app s "".

Fixpoint strip (encs : list string) (fuel : nat) (s : string) : string :=
  match fuel with
  | O => s
  | S fuel =>
      match list_find (fun e => HasPrefix s e = true) encs with
      | Some (_, e) => strip encs fuel (str_drop (String.length e) s)
      | None => s
      end
  end.

Definition TrimSpace (s : string) : string :=
  let l := strip space_encodings (String.length s) s in
  str_rev (strip (map str_rev space_encodings) (String.length l) (str_rev l)).

(** ** Lemmas *)

Lemma append_cons c a b : String c a ++ b = String c (a ++ b).
Proof. reflexivity. Qed.

Lemma append_nil b : "" ++ b = b.
Proof. reflexivity. Qed.

#[export] Hint Rewrite append_cons append_nil : gostr.

Lemma HasPrefix_append p s : HasPrefix (p ++ s) p = true.
Proof.
  unfold HasPrefix. induction p as [|c p IH]; [by destruct s|].
  rewrite append_cons. cbn.
  destruct (ascii_dec c c); [exact IH|congruence].
Qed.

Lemma HasPrefix_inv s p : HasPrefix s p = true -> exists r, s = p ++ r.
Proof.
  unfold HasPrefix. revert s. induction p as [|c p IH]; intros s; [by exists s|].
  destruct s as [|d s]; cbn; [done|]. destruct (ascii_dec c d) as [<-|]; [|done].
  intros [r ->]%IH. by exists r.
Qed.

Lemma str_drop_append p s : str_drop (String.length p) (p ++ s) = s.
Proof. induction p; [by destruct s|]. by rewrite append_cons. Qed.

Lemma TrimPrefix_append p s : TrimPrefix (p ++ s) p = s.
Proof. unfold TrimPrefix. by rewrite HasPrefix_append, str_drop_append. Qed.

Lemma Cut_append a b sep :
  contains a sep = false -> Cut (a ++ String sep b) sep = (a, b, true).
Proof.
  induction a as [|c a IH]; [rewrite append_nil; cbn; by rewrite Ascii.eqb_refl|].
  rewrite append_cons. cbn.
  intros [Hc Ha]%orb_false_iff. by rewrite Hc, IH.
Qed.

Lemma Cut_found s sep a b :
  Cut s sep = (a, b, true) -> s = a ++ String sep b /\ contains a sep = false.
Proof.
  revert a. induction s as [|c s IH]; intros a; cbn; [done|].
  destruct (Ascii.eqb_spec c sep) as [->|Hne]; [by intros [= <- <-]|].
  destruct (Cut s sep) as [[a' b'] f] eqn:E. intros [= <- <- ->].
  destruct (IH a' eq_refl) as [-> Hc]. cbn. rewrite Hc, orb_false_r. split; [done|].
  by apply Ascii.eqb_neq.
Qed.

Lemma contains_append a b c : contains (a ++ b) c = contains a c || contains b c.
Proof.
  induction a as [|d a IH]; [done|]. rewrite append_cons. cbn. by rewrite IH, orb_assoc.
Qed.

Lemma Split_nonempty s sep : Split s sep <> [].
Proof. destruct s; cbn; [done|]. destruct (Ascii.eqb _ _); [done|]. by destruct (Split _ _). Qed.

Lemma append_assoc (a b c : string) : (a ++ b) ++ c = a ++ (b ++ c).
Proof. induction a as [|x a IH]; [done|]. by rewrite !append_cons, IH. Qed.
