(* ===== verification/Window.v ===== *)
(** * internal/window: the sliding-window counter

    [SlidingWindow] is the ring buffer of timestamps of
    internal/window/window.go; [New], [Allow], [Cleanup], [Count],
    [compactLocked] and [pushLocked] are its functions.  The mutex makes each
    exported method atomic, so a method is one computation on the record.

    The abstract specification ([Spec]) is a plain queue of timestamps; the
    refinement theorems show that the ring buffer implements it, and the
    trace theorems that the queue enforces the limit. *)

From stdpp Require Import base tactics list sorting.
From Stdlib Require Import ZArith Lia.
From S2P Require Import Prelude GoTime.

Local Open Scope Z_scope.
Local Open Scope go_scope.
Local Open Scope go_monad_scope.

(** ** The data *)

Record Config := {
  Enabled : bool;
  WindowDuration : Duration;
  MaxRequests : Z;
  BufferSize : Z
}.

Record SlidingWindow := {
  windowSize : Duration;
  maxRequests : Z;
  timestamps : list Z;
  head : Z;
  count : Z
}.

Definition set_timestamps (ts : list Z) (w : SlidingWindow) : SlidingWindow :=
  {| windowSize := windowSize w; maxRequests := maxRequests w;
     timestamps := ts; head := head w; count := count w |}.
Definition set_head (h : Z) (w : SlidingWindow) : SlidingWindow :=
  {| windowSize := windowSize w; maxRequests := maxRequests w;
     timestamps := timestamps w; head := h; count := count w |}.
Definition set_count (c : Z) (w : SlidingWindow) : SlidingWindow :=
  {| windowSize := windowSize w; maxRequests := maxRequests w;
     timestamps := timestamps w; head := head w; count := c |}.

(** ** The operations *)

(** The size of the buffer: at least [MaxRequests + 1] timestamps. *)
Definition buffer_size (cfg : Config) : Z :=
  let minSize := MaxRequests cfg +! 1 in
  let bufSize := BufferSize cfg in
  let bufSize := if bufSize <? minSize then minSize else bufSize in
  if bufSize <? 1 then 1 else bufSize.

(** [make([]int64, n)] panics when the slice is longer than the address space
    ([maxAlloc] bytes on 64-bit platforms); a slice the address space has room
    for is taken to be allocated. *)
Definition maxAlloc : Z := 2 ^ 48.

Definition make_int64s {S} (n : Z) : M S (list Z) :=
  if (n <? 0) || (maxAlloc <? n * 8) then panic else ret (replicate (Z.to_nat n) 0).

Definition New {S} (cfg : Config) : M S SlidingWindow :=
  let! buf := make_int64s (buffer_size cfg) in
  ret {| windowSize := WindowDuration cfg;
         maxRequests := MaxRequests cfg;
         timestamps := buf;
         head := 0;
         count := 0 |}.

(** The loop of [compactLocked]; [n] is the length of the buffer. *)
Fixpoint compact_loop (fuel : nat) (n cutoff start : Z) : M SlidingWindow unit :=
  let! c := gets count in
  if 0 <? c then
    let! ts := gets timestamps in
    let! t := index ts start in
    if t <=? cutoff then
      match fuel with
      | O => no_fuel
      | S fuel =>
          modify (set_count (c -! 1)) ;;;
          compact_loop fuel n cutoff ((start +! 1) %! n)
      end
    else ret tt
  else ret tt.

Definition compactLocked (cutoff : Z) : M SlidingWindow unit :=
  let! ts := gets timestamps in
  let! c := gets count in
  let! h := gets head in
  let n := zlen ts in
  if (n =? 0) || (c =? 0) then ret tt
  else compact_loop (Z.to_nat c) n cutoff ((h -! c +! n) %! n).

(** [pushLocked]: the write panics when [head] is outside the buffer. *)
Definition pushLocked (ts : Z) : M SlidingWindow unit :=
  let! buf := gets timestamps in
  let! h := gets head in
  let n := zlen buf in
  index buf h ;;;
  modify (set_timestamps (zinsert h ts buf)) ;;;
  modify (set_head ((h +! 1) %! n)) ;;;
  let! c := gets count in
  if c <? n then modify (set_count (c +! 1)) else ret tt.

Definition Allow (now : Time) : M SlidingWindow bool :=
  let nowNano := Time.UnixNano now in
  let! size := gets windowSize in
  compactLocked (nowNano -! size) ;;;
  let! c := gets count in
  let! max := gets maxRequests in
  if max <=? c then ret false
  else pushLocked nowNano ;;; ret true.

Definition Cleanup (now : Time) : M SlidingWindow unit :=
  let! size := gets windowSize in
  compactLocked (Time.UnixNano now -! size).

Definition Count : M SlidingWindow Z := gets count.

(** ** Abstract specification: a queue of timestamps, oldest first *)

Module Spec.
(** Dropping the expired prefix. *)
Fixpoint drop_expired (cutoff : Z) (q : list Z) : list Z :=
  match q with
  | [] => []
  | t :: q' => if t <=? cutoff then drop_expired cutoff q' else q
  end.

Definition allow (W : Duration) (max : Z) (now : Z) (q : list Z) : bool * list Z :=
  let q' := drop_expired (now - W) q in
  if max <=? zlen q' then (false, q') else (true, q' ++ [now]).
End Spec.

(** ** The queue held by a ring buffer *)

(** The slot of the (unbounded) position [i]. *)
Definition slot (ts : list Z) (i : Z) : Z := default 0 (zlookup ts (i mod zlen ts)).

Fixpoint ring (ts : list Z) (start : Z) (len : nat) : list Z :=
  match len with
  | O => []
  | S len => slot ts start :: ring ts (start + 1) len
  end.

Definition contents (w : SlidingWindow) : list Z :=
  ring (timestamps w) (head w - count w) (Z.to_nat (count w)).

(** Well-formed windows: the indices are inside the buffer, the buffer has a
    free slot beyond the limit, and sizes are far from overflow. *)
Record wf (w : SlidingWindow) : Prop := {
  wf_len : 0 < zlen (timestamps w) < 2 ^ 62;
  wf_head : 0 <= head w < zlen (timestamps w);
  wf_count : 0 <= count w <= Z.max 0 (maxRequests w);
  wf_max : maxRequests w < zlen (timestamps w)
}.

Ltac wf_facts H :=
  pose proof (wf_len _ H); pose proof (wf_head _ H);
  pose proof (wf_count _ H); pose proof (wf_max _ H).

Lemma length_ring ts s k : length (ring ts s k) = k.
Proof. revert s. induction k; intros; cbn; auto. Qed.

Lemma zlen_contents w : 0 <= count w -> zlen (contents w) = count w.
Proof. intros. unfold zlen, contents. rewrite length_ring. lia. Qed.

Lemma slot_lookup ts i :
  0 < zlen ts -> zlookup ts (i mod zlen ts) = Some (slot ts i).
Proof.
  intros Hn. unfold slot.
  destruct (zlookup_is_Some ts (i mod zlen ts)) as [x ->]; [|done].
  apply Z.mod_pos_bound. lia.
Qed.

Lemma slot_congr ts i j : i mod zlen ts = j mod zlen ts -> slot ts i = slot ts j.
Proof. unfold slot. by intros ->. Qed.

Lemma ring_congr ts i j k : i mod zlen ts = j mod zlen ts -> ring ts i k = ring ts j k.
Proof.
  revert i j. induction k as [|k IH]; intros i j E; cbn; [done|].
  f_equal; [by apply slot_congr|]. apply IH.
  rewrite <- Zplus_mod_idemp_l, E. apply Zplus_mod_idemp_l.
Qed.

Lemma ring_snoc ts s k : ring ts s (S k) = ring ts s k ++ [slot ts (s + Z.of_nat k)].
Proof.
  revert s. induction k as [|k IH]; intros s.
  - cbn. do 2 f_equal. lia.
  - change (ring ts s (S (S k))) with (slot ts s :: ring ts (s + 1) (S k)).
    rewrite IH. cbn. do 4 f_equal. lia.
Qed.

(** Writing the slot just behind a run of fewer than [n] slots. *)
Lemma ring_zinsert ts s k h x :
  0 <= h < zlen ts -> (s + Z.of_nat k) mod zlen ts = h -> Z.of_nat k < zlen ts ->
  ring (zinsert h x ts) s k = ring ts s k.
Proof.
  revert s. induction k as [|k IH]; intros s Hh Hend Hk; cbn; [done|].
  f_equal.
  - unfold slot. rewrite zlen_zinsert, zlookup_zinsert
      by (auto; apply Z.mod_pos_bound; lia).
    destruct (Z.eqb_spec (s mod zlen ts) h) as [E|]; [|done]. exfalso.
    assert ((Z.of_nat (S k)) mod zlen ts = 0) as Hz.
    { replace (Z.of_nat (S k)) with ((s + Z.of_nat (S k)) - s) by lia.
      rewrite Zminus_mod, Hend, E, Z.sub_diag. apply Z.mod_0_l. lia. }
    rewrite Z.mod_small in Hz by lia. lia.
  - apply IH; [done| |lia]. rewrite <- Hend. f_equal. lia.
Qed.

Lemma drop_expired_length cutoff q : zlen (Spec.drop_expired cutoff q) <= zlen q.
Proof.
  induction q as [|t q IH]; cbn; [lia|]. bcase; autorewrite with zlen; lia.
Qed.

(** Go's truncated remainder on the non-negative operands that occur here. *)
Lemma rem_index a n : 0 <= a -> 0 < n -> Z.rem a n = a mod n.
Proof. intros. apply Z.rem_mod_nonneg; lia. Qed.

(** ** The operations implement the queue *)

Lemma set_count_self w : set_count (count w) w = w.
Proof. by destruct w. Qed.

Lemma compact_loop_spec k fuel cutoff start w :
  wf w -> Z.to_nat (count w) = k -> (k <= fuel)%nat ->
  start = (head w - count w) mod zlen (timestamps w) ->
  wp (compact_loop fuel (zlen (timestamps w)) cutoff start) w (fun _ w' =>
    contents w' = Spec.drop_expired cutoff (contents w) /\
    exists c', w' = set_count c' w /\ 0 <= c' <= count w).
Proof.
  revert fuel start w. induction k as [|k IH]; intros fuel start w Hwf Hk Hf Hs;
    wf_facts Hwf.
  - assert (count w = 0) as E by lia. unfold contents.
    destruct fuel; cbn; wp_steps; (bcase; [lia|]); wp_steps;
      (split; [by rewrite E|]); exists (count w); rewrite set_count_self; auto with lia.
  - destruct fuel as [|fuel]; [lia|]. cbn [compact_loop]. wp_steps.
    bcase; [|lia]. wp_steps. unfold index.
    assert (contents w = slot (timestamps w) (head w - count w) ::
            ring (timestamps w) (head w - count w + 1) k) as Hc.
    { unfold contents. by rewrite Hk. }
    rewrite Hs, slot_lookup by lia. wp_steps. rewrite Hc. cbn.
    bcase.
    + wp_steps. cbn [count set_count]. rewrite (wrap64_id (count w - 1)) by lia64.
      set (w1 := set_count (count w - 1) w).
      eapply wp_mono.
      { change (zlen (timestamps w)) with (zlen (timestamps w1)).
        apply IH; [|cbn; lia|lia|].
        - destruct Hwf; split; cbn; auto; lia.
        - cbn. pose proof (Z.mod_pos_bound (head w - count w) (zlen (timestamps w)) ltac:(lia)).
          rewrite wrap64_id by lia64. rewrite rem_index by lia.
          rewrite Zplus_mod_idemp_l. f_equal. lia. }
      intros _ w' [Hc' (c' & -> & Hle)]. split.
      * rewrite Hc'. f_equal. unfold contents. cbn.
        replace (Z.to_nat (count w - 1)) with k by lia. f_equal. lia.
      * exists c'. cbn in Hle. split; [done|lia].
    + wp_steps. split; [by rewrite Hc|]. exists (count w). split; [by destruct w|lia].
Qed.

Lemma set_count_wf c w : wf w -> 0 <= c <= count w -> wf (set_count c w).
Proof. intros [? ? ? ?] ?. split; cbn; auto; lia. Qed.

Lemma compactLocked_spec cutoff w :
  wf w ->
  wp (compactLocked cutoff) w (fun _ w' =>
    contents w' = Spec.drop_expired cutoff (contents w) /\
    exists c', w' = set_count c' w /\ 0 <= c' <= count w).
Proof.
  intros Hwf. wf_facts Hwf.
  unfold compactLocked. wp_steps.
  destruct (Z.eqb_spec (zlen (timestamps w)) 0); [lia|].
  destruct (Z.eqb_spec (count w) 0) as [E|]; cbn.
  - wp_steps. unfold contents. rewrite E. cbn. split; [done|].
    exists (count w). rewrite set_count_self. auto with lia.
  - eapply compact_loop_spec; eauto.
    rewrite (wrap64_id (head w - count w)) by lia64.
    rewrite wrap64_id by lia64. rewrite rem_index by lia.
    rewrite <- Z.add_mod_idemp_r, Z.mod_same, Z.add_0_r by lia. done.
Qed.

Lemma pushLocked_spec ts w :
  wf w -> count w < maxRequests w ->
  wp (pushLocked ts) w (fun _ w' =>
    contents w' = contents w ++ [ts] /\ wf w' /\
    windowSize w' = windowSize w /\ maxRequests w' = maxRequests w).
Proof.
  intros Hwf Hlt. wf_facts Hwf.
  unfold pushLocked. wp_steps. unfold index.
  destruct (zlookup_is_Some (timestamps w) (head w)) as [old ->]; [lia|].
  wp_steps. cbn. bcase; [|lia]. wp_steps. cbn.
  rewrite (wrap64_id (head w + 1)), (wrap64_id (count w + 1)) by lia64.
  rewrite rem_index by lia.
  set (n := zlen (timestamps w)) in *.
  pose proof (Z.mod_pos_bound (head w + 1) n ltac:(lia)).
  split; [|split; [split; cbn; rewrite ?zlen_zinsert; fold n; lia|done]].
  unfold contents. cbn.
  replace (Z.to_nat (count w + 1)) with (S (Z.to_nat (count w))) by lia.
  rewrite (ring_congr _ _ (head w - count w)); last first.
  { rewrite zlen_zinsert. fold n. rewrite Zminus_mod_idemp_l. f_equal. lia. }
  rewrite ring_snoc. f_equal.
  - apply ring_zinsert; fold n; [lia| |lia].
    replace (head w - count w + _) with (head w) by lia. apply Z.mod_small. lia.
  - f_equal. unfold slot. rewrite zlen_zinsert. fold n.
    replace (head w - count w + _) with (head w) by lia.
    rewrite Z.mod_small, zlookup_zinsert by (fold n; lia). by rewrite Z.eqb_refl.
Qed.

(** *** Allocation *)

(** [make] has room for the buffer of this configuration. *)
Definition allocatable (cfg : Config) : bool := buffer_size cfg * 8 <=? maxAlloc.

(** What [New] returns when it does not panic. *)
Definition fresh (cfg : Config) : SlidingWindow :=
  {| windowSize := WindowDuration cfg; maxRequests := MaxRequests cfg;
     timestamps := replicate (Z.to_nat (buffer_size cfg)) 0; head := 0; count := 0 |}.

Lemma buffer_size_pos cfg : 1 <= buffer_size cfg.
Proof. unfold buffer_size. cbv zeta. bcase; lia. Qed.

Lemma window_New_run {S} cfg (s : S) :
  New cfg s = if allocatable cfg then (Ok (fresh cfg), s) else (Panic, s).
Proof.
  unfold New, make_int64s, allocatable, fresh. pose proof (buffer_size_pos cfg).
  unfold bind. bcase; cbn; (done || lia).
Qed.

(** An allocatable buffer is the one the invariant asks for, unless
    [MaxRequests + 1] wraps. *)
Lemma window_fresh_wf cfg :
  allocatable cfg = true -> int64_min <= MaxRequests cfg < int64_max -> wf (fresh cfg).
Proof.
  unfold allocatable, maxAlloc. intros Ha Hm. apply Z.leb_le in Ha.
  pose proof (buffer_size_pos cfg) as Hp.
  assert (MaxRequests cfg < buffer_size cfg).
  { unfold buffer_size. cbv zeta. rewrite wrap64_id by lia64. bcase; lia. }
  split; cbn; unfold zlen; rewrite ?length_replicate; lia.
Qed.

(** [W] and [now] far enough from the ends of the [int64] range for
    [nowNano - windowSize] not to wrap. *)
Definition time_ok (w : SlidingWindow) (now : Time) : Prop :=
  in64 now /\ in64 (now - windowSize w).

(** C-window: [Allow] on a well-formed ring buffer takes exactly the step of
    the abstract queue, never panics, terminates, and keeps the window
    well-formed. *)
Lemma Allow_refines w now :
  wf w -> time_ok w now ->
  wp (Allow now) w (fun r w' =>
    Spec.allow (windowSize w) (maxRequests w) now (contents w) = (r, contents w') /\
    wf w' /\ windowSize w' = windowSize w /\ maxRequests w' = maxRequests w).
Proof.
  intros Hwf [Hn Hd]. unfold Allow. cbv zeta. wp_steps.
  rewrite (Time.UnixNano_id now), wrap64_id by done.
  eapply wp_mono; [by apply compactLocked_spec|].
  intros _ w1 [Hc (c' & -> & Hle)]. cbn beta. wp_steps.
  pose proof (set_count_wf c' w Hwf Hle) as Hwf1.
  unfold Spec.allow. rewrite <- Hc, zlen_contents by apply Hwf1.
  cbn [count set_count maxRequests windowSize]. bcase; wp_steps.
  - done.
  - eapply wp_mono; [apply pushLocked_spec; [done|cbn; lia]|].
    intros _ w2 (Hc2 & Hwf2 & HW & HM). cbn beta. wp_steps. by rewrite Hc2.
Qed.

Lemma Cleanup_spec w now :
  wf w -> time_ok w now ->
  wp (Cleanup now) w (fun _ w' =>
    contents w' = Spec.drop_expired (now - windowSize w) (contents w) /\ wf w').
Proof.
  intros Hwf [Hn Hd]. unfold Cleanup. wp_steps.
  rewrite (Time.UnixNano_id now), wrap64_id by done.
  eapply wp_mono; [by apply compactLocked_spec|].
  intros _ w1 [Hc (c' & -> & Hle)]. split; [done|]. by apply set_count_wf.
Qed.

(** The loop of [compactLocked] terminates within its fuel in every state,
    well-formed or not. *)
Lemma compact_loop_fuel fuel n cutoff start w :
  in64 (count w) -> (Z.to_nat (count w) <= fuel)%nat ->
  fst (compact_loop fuel n cutoff start w) <> OutOfFuel.
Proof.
  revert start w. induction fuel as [|fuel IH]; intros start w Hc Hf;
    cbn [compact_loop]; unfold bind, gets; bcase; try done;
    unfold index; (destruct (zlookup _ _); [|done]); cbn; bcase; try done; try lia.
  apply IH; cbn; rewrite wrap64_id by lia64; [lia64|lia].
Qed.

Lemma Allow_no_fuel now w :
  in64 (count w) -> fst (Allow now w) <> OutOfFuel.
Proof.
  intros Hc. unfold Allow, bind, gets. cbv zeta.
  destruct (compactLocked _ w) as [o w1] eqn:E.
  assert (o <> OutOfFuel) as Ho.
  { replace o with (fst (compactLocked (Time.UnixNano now -! windowSize w) w)) by (by rewrite E).
    unfold compactLocked, bind, gets. case_match; [done|]. by apply compact_loop_fuel. }
  destruct o; [|done..]. bcase; [done|].
  unfold pushLocked, index, bind, gets. destruct (zlookup _ _); [|done]. cbn.
  by destruct (_ <? _).
Qed.

(** The counter stays an [int] on every path. *)
Definition count_typed (w w' : SlidingWindow) : Prop := in64 (count w) -> in64 (count w').

#[export] Instance count_typed_preorder : PreOrder count_typed.
Proof. split; unfold count_typed; [by intros ?|intros w1 w2 w3 H1 H2 ?; auto]. Qed.

Lemma compact_loop_typed fuel n cutoff start : preserves count_typed (compact_loop fuel n cutoff start).
Proof.
  revert start. induction fuel as [|fuel IH]; intros start; cbn [compact_loop]; unfold index;
    frame; try apply IH; intros _; cbn; apply wrap64_in64.
Qed.

Lemma Allow_typed now : preserves count_typed (Allow now).
Proof.
  unfold Allow, compactLocked, pushLocked, index. frame; try apply compact_loop_typed;
    intros Hc; cbn in *; auto with sentinel.
Qed.

(** ** Sequences of requests

    [run] sends requests at the given instants to one window; [log_run] is
    the textbook sliding-window log: request [t] is accepted iff fewer than
    [max] earlier accepted requests lie in [(t - W, t]]. *)

Fixpoint run (nows : list Time) : M SlidingWindow (list bool) :=
  match nows with
  | [] => ret []
  | t :: nows =>
      let! r := Allow t in
      let! rs := run nows in
      ret (r :: rs)
  end.

Definition in_window (W : Duration) (t : Time) (h : list Time) : list Time :=
  filter (fun x => t - W < x <= t) h.

Fixpoint log_run (W : Duration) (max : Z) (h : list Time) (nows : list Time) : list bool :=
  match nows with
  | [] => []
  | t :: nows =>
      let r := zlen (in_window W t h) <? max in
      r :: log_run W max (if r then h ++ [t] else h) nows
  end.

(** The instants of the accepted requests. *)
Fixpoint accepted (nows : list Time) (rs : list bool) : list Time :=
  match nows, rs with
  | t :: nows, r :: rs => if r then t :: accepted nows rs else accepted nows rs
  | _, _ => []
  end.

(** In a sorted queue, dropping the expired prefix is filtering. *)
Lemma drop_expired_filter c cutoff h :
  StronglySorted Z.le h -> c <= cutoff ->
  Spec.drop_expired cutoff (filter (fun x => c < x) h) = filter (fun x => cutoff < x) h.
Proof.
  intros Hs Hc. induction Hs as [|x h Hs IH Hx]; [done|].
  destruct (decide (c < x)) as [Hcx|Hcx].
  - rewrite filter_cons_True by done. cbn [Spec.drop_expired]. bcase.
    + rewrite IH, filter_cons_False by lia. done.
    + rewrite filter_cons_True by lia. f_equal.
      rewrite !filter_all; [done| |]; eapply Forall_impl; eauto; cbn; intros; lia.
  - rewrite !filter_cons_False by lia. done.
Qed.

Lemma in_window_recent W t h :
  Forall (fun x => x <= t) h -> in_window W t h = filter (fun x => t - W < x) h.
Proof.
  intros Hle. apply filter_ext_Forall. eapply Forall_impl; [done|]. cbn. lia.
Qed.

(** The state of a window that has seen requests up to instant [now]: it holds
    the accepted requests that are later than some cutoff not after [now - W]. *)
Definition tracks (w : SlidingWindow) (h : list Time) (now : Time) : Prop :=
  wf w /\ 0 < windowSize w /\ StronglySorted Z.le h /\ Forall (fun x => x <= now) h /\
  exists c, c <= now - windowSize w /\ contents w = filter (fun x => c < x) h.

Lemma tracks_later w h t t' : t <= t' -> tracks w h t -> tracks w h t'.
Proof.
  intros Ht (Hwf & HW & Hs & Hle & c & Hc & E). split_and!; [done..| |exists c; auto with lia].
  eapply Forall_impl; [done|]. cbn. lia.
Qed.

Lemma tracks_new cfg t :
  wf (fresh cfg) -> 0 < WindowDuration cfg -> tracks (fresh cfg) [] t.
Proof.
  intros Hwf HW. split_and!; [done..|constructor|constructor|].
  exists (t - WindowDuration cfg). cbn. auto with lia.
Qed.

Lemma Allow_tracks w h now :
  tracks w h now -> time_ok w now ->
  wp (Allow now) w (fun r w' =>
    r = (zlen (in_window (windowSize w) now h) <? maxRequests w) /\
  tracks w' (if r then h ++ [now] else h) now /\
  windowSize w' = windowSize w /\ maxRequests w' = maxRequests w).
Proof.
  intros (Hwf & HW & Hs & Hle & c & Hc & E) Hok.
  wp_use Allow_refines; [done..|].
  intros r w' (Hspec & Hwf' & HW' & HM). unfold Spec.allow in Hspec.
  rewrite in_window_recent by done.
  rewrite E, drop_expired_filter in Hspec by (done || lia).
  rewrite Z.ltb_antisym.
  destruct (maxRequests w <=? _) eqn:Em in Hspec; injection Hspec as <- Hq;
    (split; [by rewrite Em|split; [|done]]);
    (split_and!; [done|by rewrite HW'|..|exists (now - windowSize w); rewrite HW']); try done.
  - apply StronglySorted_app. split_and!; [|done|repeat constructor].
    intros x y Hx ->%list_elem_of_singleton. rewrite Forall_forall in Hle. by apply Hle.
  - apply Forall_app. auto with lia.
  - split; [lia|]. rewrite filter_app, <- Hq. f_equal.
    rewrite filter_cons_True, filter_nil by lia. done.
Qed.

(** C-window-log: requests in order of time get exactly the answers of the
    sliding-window log. *)
Lemma run_tracks nows w h now :
  tracks w h now -> StronglySorted Z.le (now :: nows) ->
  Forall (time_ok w) nows ->
  wp (run nows) w (fun rs _ => rs = log_run (windowSize w) (maxRequests w) h nows).
Proof.
  revert w h now. induction nows as [|t nows IH]; intros w h now Ht Hs Hok; [done|].
  apply StronglySorted_cons in Hs as [Hnow Hs].
  apply Forall_cons in Hnow as [Hle _]. apply Forall_cons in Hok as [Hokt Hok].
  cbn [run log_run]. cbv zeta. wp_step.
  wp_use (Allow_tracks w h); [by eapply tracks_later|done|].
  intros r w' (Hr & Htr & HW & HM). wp_step.
  wp_use (IH w' (if r then h ++ [t] else h)); [done|done| |].
  { unfold time_ok in *. by rewrite HW. }
  intros rs w'' ->. wp_steps. by rewrite HW, HM, Hr.
Qed.

(** The limit, on the log: no half-open interval of length [W] holds more
    than [max] accepted requests. *)
Lemma log_run_limit W max nows h :
  0 < W -> 0 <= max -> StronglySorted Z.le nows ->
  Forall (fun x => Forall (fun t => x <= t) nows) h ->
  (forall t, zlen (in_window W t h) <= max) ->
  forall t, zlen (in_window W t (h ++ accepted nows (log_run W max h nows))) <= max.
Proof.
  intros HW Hmax Hs. revert h. induction Hs as [|t nows Hs IH Ht]; intros h Hle Hlim u;
    cbn [log_run accepted]; [by rewrite app_nil_r|].
  set (r := zlen (in_window W t h) <? max).
  assert (Forall (fun x => x <= t) h) as Hht.
  { eapply Forall_impl; [exact Hle|]. by intros x [? ?]%Forall_cons. }
  assert (Forall (fun x => Forall (fun t => x <= t) nows) h) as Hle'.
  { eapply Forall_impl; [exact Hle|]. by intros x [? ?]%Forall_cons. }
  destruct r eqn:Er; cbn [accepted]; [|by apply IH].
  rewrite (cons_middle t h), app_assoc. apply IH.
  - apply Forall_app. auto.
  - intros u'. specialize (Hlim u'). unfold r in Er. clear r.
    assert (zlen (in_window W u' h) <= zlen (in_window W t h) \/ u' < t) as Hmono.
    { destruct (decide (u' < t)); [by right|left].
      apply filter_length_mono. eapply Forall_impl; [exact Hht|]. cbn. lia. }
    unfold in_window in *. rewrite filter_app, filter_cons, filter_nil.
    case_decide; autorewrite with zlen; lia.
Qed.

(** ** Properties *)

(** C9: the sliding window enforces its limit.  For a configuration whose
    buffer [New] can allocate, any sequence of requests sent in order of time
    to the new window is answered without a panic, with exactly the answers of
    the sliding-window log, and no half-open interval [(t - W, t]] contains more
    than [MaxRequests] accepted requests.  (The design document speaks of the
    closed interval [[t - W, t]]; that one can hold more:
    [closed_interval_exceeds].) *)
Theorem window_enforces_limit (cfg : Config) (w : SlidingWindow) (nows : list Time)
  (Hnew : New cfg tt = (Ok w, tt))
  (Hmax : 0 <= MaxRequests cfg < int64_max) (HW : 0 < WindowDuration cfg)
  (Hsorted : StronglySorted Z.le nows)
  (Hrange : Forall (time_ok w) nows) :
  wp (run nows) w (fun rs _ =>
    rs = log_run (WindowDuration cfg) (MaxRequests cfg) [] nows /\
    forall t, zlen (in_window (WindowDuration cfg) t (accepted nows rs)) <= MaxRequests cfg).
Proof.
  rewrite window_New_run in Hnew. destruct (allocatable cfg) eqn:Ha; [|done]. injection Hnew as <-.
  pose proof (window_fresh_wf cfg Ha ltac:(lia64)) as Hwf.
  set (t0 := match nows with [] => 0 | t :: _ => t end).
  wp_use (run_tracks nows _ [] t0); [by apply tracks_new| |done|].
  - apply StronglySorted_cons. split; [|done]. destruct nows as [|t nows]; [constructor|].
    apply StronglySorted_cons in Hsorted as [? _]. by constructor.
  - intros rs _ ->. split; [done|]. intros t.
    apply (log_run_limit _ _ nows []); [done|cbn; lia|done|constructor|].
    intros u. unfold in_window. rewrite filter_nil, zlen_nil. cbn. lia.
Qed.

(** C26: one call of [Allow] on any well-formed window (whatever the clock did
    before) is one step of the abstract queue: drop the expired prefix, then
    accept iff fewer than [maxRequests] timestamps remain.  A timestamp has
    expired when it is not later than [now - W]: the window is the half-open
    interval [(now - W, now]], where the design document includes both ends.
    The call cannot panic or loop forever, and well-formedness is preserved. *)
Theorem window_refines_queue (w : SlidingWindow) (now : Time)
  (Hwf : wf w) (Hok : time_ok w now) :
  wp (Allow now) w (fun r w' =>
    Spec.allow (windowSize w) (maxRequests w) now (contents w) = (r, contents w') /\
    wf w' /\ windowSize w' = windowSize w /\ maxRequests w' = maxRequests w).
Proof. by apply Allow_refines. Qed.

(** ** Witnesses *)

Definition ex_cfg : Config :=
  {| Enabled := true; WindowDuration := 10; MaxRequests := 2; BufferSize := 0 |}.

Example ex_run : fst (run [0; 1; 5; 10; 11; 12] (fresh ex_cfg)) =
  Ok [true; true; false; true; true; false].
Proof. vm_compute. reflexivity. Qed.

(** The request at instant 10 = W is accepted while those at 0 and 1 are
    counted: the closed interval [[0, 10]] holds three accepted requests, one
    more than the limit. *)
Example closed_interval_exceeds :
  exists rs w', run [0; 1; 10] (fresh ex_cfg) = (Ok rs, w') /\
    zlen (filter (fun x => 10 - WindowDuration ex_cfg <= x <= 10) (accepted [0; 1; 10] rs)) = 3 /\
    MaxRequests ex_cfg = 2.
Proof. eexists _, _. split; [vm_compute; reflexivity|]. vm_compute. split; reflexivity. Qed.

(** Neither [MaxRequests] nor [BufferSize] is bounded by the configuration's
    validation, and [make] panics on a buffer that is too long. *)
Example ex_too_long :
  New (S := unit) {| Enabled := true; WindowDuration := 10; MaxRequests := 2; BufferSize := 2 ^ 46 |} tt
  = (Panic, tt).
Proof. vm_compute. reflexivity. Qed.

Lemma ex_times_ok : Forall (time_ok (fresh ex_cfg)) [0; 1; 5; 10; 11; 12].
Proof. repeat constructor; cbn; lia64. Qed.

Lemma window_enforces_limit_witness :
  wp (run [0; 1; 5; 10; 11; 12]) (fresh ex_cfg) (fun rs _ =>
    rs = log_run 10 2 [] [0; 1; 5; 10; 11; 12] /\
    forall t, zlen (in_window 10 t (accepted [0; 1; 5; 10; 11; 12] rs)) <= 2).
Proof.
  apply (window_enforces_limit ex_cfg (fresh ex_cfg) [0; 1; 5; 10; 11; 12]); [reflexivity|cbn; lia64|cbn; lia|..].
  - repeat constructor; lia.
  - exact ex_times_ok.
Defined.

Lemma ex_window_wf : wf (fresh ex_cfg).
Proof. apply window_fresh_wf; [reflexivity|cbn; lia64]. Qed.

Lemma window_refines_queue_witness :
  wp (Allow 7) (fresh ex_cfg) (fun r w' =>
    Spec.allow 10 2 7 [] = (r, contents w') /\
    wf w' /\ windowSize w' = 10 /\ maxRequests w' = 2).
Proof. apply (window_refines_queue (fresh ex_cfg) 7 ex_window_wf). split; cbn; lia64. Defined.
