(* ===== verification/Bucket.v ===== *)
(** * internal/bucket: the token bucket, executed by one goroutine

    [Bucket] is the struct of internal/bucket/bucket.go, every atomic field a
    field of the record.  Each function is a computation on the record; the
    compare-and-swap loops are written as loops ([fuel] bounds the retries).
    Run alone, a CAS never fails, so one iteration is enough; file
    [BucketConc] runs the same steps interleaved with other goroutines. *)

From stdpp Require Import base tactics list.
From Stdlib Require Import ZArith Lia.
From S2P Require Import Prelude GoTime Window.

Local Open Scope Z_scope.
Local Open Scope go_scope.
Local Open Scope go_monad_scope.

(** ** The data *)

Record Config := {
  MaxTokens : Z;
  RefillRate : Z;
  RefillInterval : Duration;
  TokensPerRequest : Z;
  CfgWindow : option Window.Config  (** the field [SlidingWindow] *)
}.

(** [configPtr] and [windowPtr] are nil-able pointers; the window object is
    reachable only through [windowPtr]. *)
Record Bucket := {
  configPtr : option Config;
  tokens : Z;
  lastRefillTime : Z;
  blocked : bool;
  lastAccessTime : Z;
  createdAt : Time;
  windowPtr : option Window.SlidingWindow
}.

Definition set_configPtr v b : Bucket :=
  {| configPtr := v; tokens := tokens b; lastRefillTime := lastRefillTime b;
     blocked := blocked b; lastAccessTime := lastAccessTime b;
     createdAt := createdAt b; windowPtr := windowPtr b |}.
Definition set_tokens v b : Bucket :=
  {| configPtr := configPtr b; tokens := v; lastRefillTime := lastRefillTime b;
     blocked := blocked b; lastAccessTime := lastAccessTime b;
     createdAt := createdAt b; windowPtr := windowPtr b |}.
Definition set_lastRefillTime v b : Bucket :=
  {| configPtr := configPtr b; tokens := tokens b; lastRefillTime := v;
     blocked := blocked b; lastAccessTime := lastAccessTime b;
     createdAt := createdAt b; windowPtr := windowPtr b |}.
Definition set_blocked v b : Bucket :=
  {| configPtr := configPtr b; tokens := tokens b; lastRefillTime := lastRefillTime b;
     blocked := v; lastAccessTime := lastAccessTime b;
     createdAt := createdAt b; windowPtr := windowPtr b |}.
Definition set_lastAccessTime v b : Bucket :=
  {| configPtr := configPtr b; tokens := tokens b; lastRefillTime := lastRefillTime b;
     blocked := blocked b; lastAccessTime := v;
     createdAt := createdAt b; windowPtr := windowPtr b |}.
Definition set_windowPtr v b : Bucket :=
  {| configPtr := configPtr b; tokens := tokens b; lastRefillTime := lastRefillTime b;
     blocked := blocked b; lastAccessTime := lastAccessTime b;
     createdAt := createdAt b; windowPtr := v |}.

(** ** The operations *)

Definition normalize (cfg : Config) : Config :=
  if TokensPerRequest cfg <=? 0 then
    {| MaxTokens := MaxTokens cfg; RefillRate := RefillRate cfg;
       RefillInterval := RefillInterval cfg; TokensPerRequest := 1;
       CfgWindow := CfgWindow cfg |}
  else cfg.

(** [if sw != nil && sw.Enabled { window.New(sw) }], shared by [New] and
    [UpdateConfig]. *)
Definition open_window {S} (cfg : Config) : M S (option Window.SlidingWindow) :=
  match CfgWindow cfg with
  | Some sw => if Window.Enabled sw then let! w := Window.New sw in ret (Some w) else ret None
  | None => ret None
  end.

(** The new object is not shared yet: a panic leaves no trace. *)
Definition New {S} (cfg : Config) (now : Time) : M S Bucket :=
  let normalized := normalize cfg in
  let! w := open_window normalized in
  ret {| configPtr := Some normalized;
         tokens := MaxTokens normalized;
         lastRefillTime := Time.UnixNano now;
         blocked := false;
         lastAccessTime := Time.UnixNano now;
         createdAt := now;
         windowPtr := w |}.

(** Dereferencing a nil [*Config] panics. *)
Definition load_config : M Bucket Config :=
  let! p := gets configPtr in
  match p with
  | Some cfg => ret cfg
  | None => panic
  end.

(** [CompareAndSwap] on the two atomic integers of the hot path. *)
Definition cas_tokens (old new : Z) : M Bucket bool :=
  let! cur := gets tokens in
  if cur =? old then modify (set_tokens new) ;;; ret true else ret false.

Definition cas_lastRefillTime (old new : Z) : M Bucket bool :=
  let! cur := gets lastRefillTime in
  if cur =? old then modify (set_lastRefillTime new) ;;; ret true else ret false.

(** The inner loop of [lazyRefill]. *)
Fixpoint add_tokens_loop (fuel : nat) (cfg : Config) (tokensToAdd : Z) : M Bucket unit :=
  match fuel with
  | O => no_fuel
  | S fuel =>
      let! current := gets tokens in
      let updated := current +! tokensToAdd in
      let updated := if MaxTokens cfg <? updated then MaxTokens cfg else updated in
      let! ok := cas_tokens current updated in
      if ok then ret tt else add_tokens_loop fuel cfg tokensToAdd
  end.

(** [lazyRefill]; both callers have checked [0 < cfg.RefillInterval], so the
    division does not panic. *)
Fixpoint lazyRefill (fuel : nat) (now : Time) (cfg : Config) : M Bucket unit :=
  match fuel with
  | O => no_fuel
  | S fuel =>
      let! lastNano := gets lastRefillTime in
      let last := Time.Unix0 lastNano in
      let elapsed := Time.Sub now last in
      let intervals := elapsed /! RefillInterval cfg in
      if intervals <=? 0 then ret tt
      else
        let newLastNano :=
          Time.UnixNano (Time.Add last (intervals *! RefillInterval cfg)) in
        let! ok := cas_lastRefillTime lastNano newLastNano in
        if negb ok then lazyRefill fuel now cfg
        else add_tokens_loop (S fuel) cfg (intervals *! RefillRate cfg)
  end.

(** [w.Allow(now)] on the window behind [windowPtr]; [true] when there is
    none. *)
Definition window_allows (now : Time) : M Bucket bool :=
  fun b =>
    match windowPtr b with
    | None => (Ok true, b)
    | Some w =>
        let '(r, w') := Window.Allow now w in (r, set_windowPtr (Some w') b)
    end.

(** The retry loop at the end of [Allow]. *)
Fixpoint consume_loop (fuel : nat) (now : Time) (cfg : Config) (n : Z)
  : M Bucket (bool * Duration) :=
  match fuel with
  | O => no_fuel
  | S fuel =>
      let! current := gets tokens in
      if current <? n then
        if (RefillRate cfg <=? 0) || (RefillInterval cfg <=? 0) then ret (false, Second)
        else
          let deficit := n -! current in
          let intervals := (deficit +! RefillRate cfg -! 1) /! RefillRate cfg in
          ret (false, intervals *! RefillInterval cfg)
      else
        let! ok := cas_tokens current (current -! n) in
        if ok then
          let! w_ok := window_allows now in
          if negb w_ok then
            let! t := gets tokens in
            modify (set_tokens (t +! n)) ;;;
            ret (false, RefillInterval cfg)
          else ret (true, 0)
        else consume_loop fuel now cfg n
  end.

(** The body of [Allow], under the deferred [recover]. *)
Definition allow_body (fuel : nat) (now : Time) : M Bucket (bool * Duration) :=
  let! bl := gets blocked in
  if (bl : bool) then ret (false, 0)
  else
    let! cfg := load_config in
    let n := TokensPerRequest cfg in
    let n := if n <=? 0 then 1 else n in
    (if 0 <? RefillInterval cfg then lazyRefill fuel now cfg else ret tt) ;;;
    modify (set_lastAccessTime (Time.UnixNano now)) ;;;
    consume_loop fuel now cfg n.

(** One retry is enough when no other goroutine interferes. *)
Definition retries : nat := 1.

Definition Allow (now : Time) : M Bucket (bool * Duration) :=
  recover_with (false, Second) (allow_body retries now).

Definition ScheduledRefill (now : Time) : M Bucket unit :=
  let! cfg := load_config in
  if RefillInterval cfg <=? 0 then ret tt else lazyRefill retries now cfg.

Definition UpdateConfig (cfg : Config) : M Bucket unit :=
  let normalized := normalize cfg in
  modify (set_configPtr (Some normalized)) ;;;
  let! current := gets tokens in
  (if MaxTokens normalized <? current
   then modify (set_tokens (MaxTokens normalized)) else ret tt) ;;;
  let! w := open_window normalized in
  modify (set_windowPtr w).

Definition Block : M Bucket unit := modify (set_blocked true).
Definition Unblock : M Bucket unit := modify (set_blocked false).
Definition IsBlocked : M Bucket bool := gets blocked.
Definition GetConfig : M Bucket Config := load_config.
Definition TokensRemaining (b : Bucket) : Z := tokens b.
Definition LastAccess (b : Bucket) : Time := Time.Unix0 (lastAccessTime b).
Definition CreatedAt (b : Bucket) : Time := createdAt b.

Definition NextRefillTime : M Bucket Time :=
  let! cfg := load_config in
  if RefillInterval cfg <=? 0 then ret zeroTime
  else
    let! last := gets lastRefillTime in
    ret (Time.Add (Time.Unix0 last) (RefillInterval cfg)).

(** [normalize] only touches [TokensPerRequest]. *)
Lemma normalize_fields cfg :
  MaxTokens (normalize cfg) = MaxTokens cfg /\
  RefillRate (normalize cfg) = RefillRate cfg /\
  RefillInterval (normalize cfg) = RefillInterval cfg /\
  CfgWindow (normalize cfg) = CfgWindow cfg.
Proof. unfold normalize. by case_match. Qed.

(** *** Allocation *)

(** [make] has room for the window of this configuration, if it has one. *)
Definition allocatable (cfg : Config) : bool :=
  match CfgWindow cfg with
  | Some sw => negb (Window.Enabled sw) || Window.allocatable sw
  | None => true
  end.

(** The window [open_window] opens when it does not panic. *)
Definition fresh_window (cfg : Config) : option Window.SlidingWindow :=
  match CfgWindow cfg with
  | Some sw => if Window.Enabled sw then Some (Window.fresh sw) else None
  | None => None
  end.

(** What [New] returns when it does not panic. *)
Definition fresh (cfg : Config) (now : Time) : Bucket :=
  {| configPtr := Some (normalize cfg);
     tokens := MaxTokens (normalize cfg);
     lastRefillTime := Time.UnixNano now;
     blocked := false;
     lastAccessTime := Time.UnixNano now;
     createdAt := now;
     windowPtr := fresh_window (normalize cfg) |}.

Lemma normalize_allocatable cfg : allocatable (normalize cfg) = allocatable cfg.
Proof. unfold allocatable. by rewrite (proj2 (proj2 (proj2 (normalize_fields cfg)))). Qed.

Lemma open_window_run {S} cfg (s : S) :
  open_window cfg s = if allocatable cfg then (Ok (fresh_window cfg), s) else (Panic, s).
Proof.
  unfold open_window, allocatable, fresh_window. destruct (CfgWindow cfg) as [sw|]; [|done].
  destruct (Window.Enabled sw); [|done]. unfold bind. rewrite window_New_run. cbn.
  by destruct (Window.allocatable sw).
Qed.

Lemma New_run {S} cfg now (s : S) :
  New cfg now s = if allocatable cfg then (Ok (fresh cfg now), s) else (Panic, s).
Proof.
  unfold New, bind. rewrite open_window_run, normalize_allocatable. by destruct (allocatable cfg).
Qed.

Lemma New_fresh cfg now b : New cfg now tt = (Ok b, tt) -> b = fresh cfg now.
Proof. rewrite New_run. by destruct (allocatable cfg); intros [= <-]. Qed.

Lemma wp_New {S} cfg now (s : S) (Q : Bucket -> S -> Prop) :
  allocatable cfg = true -> Q (fresh cfg now) s -> wp (New cfg now) s Q.
Proof. intros Ha HQ. unfold wp. by rewrite New_run, Ha. Qed.

Lemma mp_New {S} (P : S -> Prop) cfg now (s : S) (Q : Bucket -> S -> Prop) :
  (allocatable cfg = false -> P s) -> (allocatable cfg = true -> Q (fresh cfg now) s) ->
  may_panic P (New cfg now) s Q.
Proof. intros HP HQ. unfold may_panic. rewrite New_run. destruct (allocatable cfg); auto. Qed.

(** ** Running alone: the retry loops take their first exit *)

Lemma cas_tokens_alone b v : cas_tokens (tokens b) v b = (Ok true, set_tokens v b).
Proof. unfold cas_tokens, bind, gets. by rewrite Z.eqb_refl. Qed.

Lemma cas_lastRefillTime_alone b v :
  cas_lastRefillTime (lastRefillTime b) v b = (Ok true, set_lastRefillTime v b).
Proof. unfold cas_lastRefillTime, bind, gets. by rewrite Z.eqb_refl. Qed.

(** The number of whole intervals [lazyRefill] computes, as the code does. *)
Definition intervals64 (cfg : Config) (now last : Z) : Z :=
  Time.Sub now (Time.Unix0 last) /! RefillInterval cfg.

(** What one successful [lazyRefill] leaves, in machine arithmetic. *)
Definition refill64 (cfg : Config) (now : Time) (b : Bucket) : Bucket :=
  let k := intervals64 cfg now (lastRefillTime b) in
  if k <=? 0 then b
  else
    let t := tokens b +! k *! RefillRate cfg in
    set_tokens (if MaxTokens cfg <? t then MaxTokens cfg else t)
      (set_lastRefillTime
         (Time.UnixNano (lastRefillTime b + (k *! RefillInterval cfg))) b).

Lemma lazyRefill_alone fuel now cfg b :
  lazyRefill (S fuel) now cfg b = (Ok tt, refill64 cfg now b).
Proof.
  cbn [lazyRefill]. unfold bind at 1, gets at 1. cbv zeta.
  unfold refill64, intervals64. cbv zeta. case_match; [done|].
  unfold bind at 1. rewrite cas_lastRefillTime_alone. cbn [negb add_tokens_loop].
  unfold bind at 1, gets at 1. cbv zeta. unfold bind at 1.
  rewrite cas_tokens_alone. done.
Qed.

Lemma window_allows_windowed now b :
  exists r w', window_allows now b = (r, set_windowPtr w' b).
Proof.
  unfold window_allows. destruct (windowPtr b) as [w|] eqn:E.
  - destruct (Window.Allow now w) as [r w']. eauto.
  - exists (Ok true), None. destruct b; cbn in *. by subst.
Qed.

(** *** Totality: no run of [Allow] lets a panic escape or loops forever *)

(** The window's counter is an [int]. *)
Definition typed (b : Bucket) : Prop :=
  forall w, windowPtr b = Some w -> in64 (Window.count w).

Lemma window_allows_no_fuel now b :
  typed b -> fst (window_allows now b) <> OutOfFuel.
Proof.
  intros Ht. unfold window_allows. destruct (windowPtr b) as [w|] eqn:E; [|done].
  pose proof (Window.Allow_no_fuel now w (Ht _ E)).
  by destruct (Window.Allow now w).
Qed.

Lemma consume_loop_alone fuel now cfg n b :
  consume_loop (S fuel) now cfg n b = consume_loop 1 now cfg n b.
Proof.
  cbn [consume_loop]. unfold bind, gets. case_match; [done|].
  rewrite cas_tokens_alone. done.
Qed.

Lemma consume_no_fuel fuel now cfg n b :
  typed b -> fst (consume_loop (S fuel) now cfg n b) <> OutOfFuel.
Proof.
  intros Ht. cbn [consume_loop]. unfold bind, gets.
  case_match; [by case_match|]. rewrite cas_tokens_alone.
  pose proof (window_allows_no_fuel now (set_tokens (tokens b -! n) b) Ht).
  destruct (window_allows _ _) as [[w_ok| |] b'] eqn:E; cbn in *; try done.
  by destruct w_ok.
Qed.

Lemma refill64_windowPtr cfg now b : windowPtr (refill64 cfg now b) = windowPtr b.
Proof. unfold refill64. cbv zeta. by case_match. Qed.

Lemma allow_body_no_fuel fuel now b :
  typed b -> fst (allow_body (S fuel) now b) <> OutOfFuel.
Proof.
  intros Ht. unfold allow_body, bind, gets. destruct (blocked b); [done|].
  unfold load_config, bind, gets. destruct (configPtr b) as [cfg|]; [|done].
  cbv zeta. cbn [ret]. destruct (0 <? RefillInterval cfg); rewrite ?lazyRefill_alone;
    apply consume_no_fuel; unfold typed; cbn; by rewrite ?refill64_windowPtr.
Qed.

(** *** What no request or refill changes *)

Definition request_frame (b b' : Bucket) : Prop :=
  configPtr b' = configPtr b /\ blocked b' = blocked b /\ createdAt b' = createdAt b /\
  (typed b -> typed b').

#[export] Instance request_frame_preorder : PreOrder request_frame.
Proof.
  split; unfold request_frame.
  - intros b. auto.
  - intros b1 b2 b3 (? & ? & ? & ?) (? & ? & ? & ?). split_and!; try congruence. auto.
Qed.

Lemma lazyRefill_frame fuel now cfg : preserves request_frame (lazyRefill fuel now cfg).
Proof.
  assert (Hadd : forall fuel k, preserves request_frame (add_tokens_loop fuel cfg k)).
  { induction fuel0 as [|fuel0 IH]; intros k; cbn [add_tokens_loop]; unfold cas_tokens; frame; done. }
  induction fuel as [|fuel IH]; cbn [lazyRefill]; unfold cas_lastRefillTime; frame; done.
Qed.

Lemma window_allows_frame now : preserves request_frame (window_allows now).
Proof.
  intros b. unfold window_allows. destruct (windowPtr b) as [w|] eqn:E; [|done].
  pose proof (Window.Allow_typed now w) as Hw. destruct (Window.Allow now w) as [r w'].
  split_and!; [done..|]. intros Ht v [= <-]. apply Hw. by apply Ht.
Qed.

Lemma Allow_frame now : preserves request_frame (Allow now).
Proof.
  unfold Allow, allow_body, retries. cbn [consume_loop]. unfold cas_tokens, load_config.
  frame; first [apply lazyRefill_frame|apply window_allows_frame|done].
Qed.

Lemma ScheduledRefill_frame now : preserves request_frame (ScheduledRefill now).
Proof. unfold ScheduledRefill, load_config. frame. apply lazyRefill_frame. Qed.

(** A bucket as [New] returns it: configured, with a window that could be
    allocated, whose counter is an [int]. *)
Definition usable (b : Bucket) : Prop :=
  (exists cfg, configPtr b = Some cfg /\ allocatable cfg = true) /\ typed b.

Lemma usable_frame b b' : request_frame b b' -> usable b -> usable b'.
Proof. intros (Hc & _ & _ & Ht) [? ?]. split; [by rewrite Hc|auto]. Qed.

Lemma fresh_usable cfg now : allocatable cfg = true -> usable (fresh cfg now).
Proof.
  intros Ha. split; [eexists; split; [done|by rewrite normalize_allocatable]|].
  intros w. cbn. unfold fresh_window.
  destruct (CfgWindow _) as [sw|]; [|done]. destruct (Window.Enabled sw); [|done].
  intros [= <-]. cbn. lia64.
Qed.

Lemma Allow_total now b : usable b ->
  wp (Allow now) b (fun _ b' => request_frame b b' /\ usable b').
Proof.
  intros Hu. pose proof (allow_body_no_fuel 0 now b (proj2 Hu)) as Hf.
  pose proof (Allow_frame now b) as HF. revert HF. unfold wp, Allow, recover_with, retries.
  destruct (allow_body 1 now b) as [[r| |] b'] eqn:E; cbn in *; [| |done];
    intros HF; (split; [done|]); by eapply usable_frame.
Qed.

Lemma refill64_frame cfg now b : request_frame b (refill64 cfg now b).
Proof. unfold refill64. cbv zeta. by case_match. Qed.

Lemma ScheduledRefill_total now b : usable b ->
  wp (ScheduledRefill now) b (fun _ b' => request_frame b b' /\ usable b').
Proof.
  intros Hu. pose proof Hu as [(cfg & Hc & _) _]. unfold ScheduledRefill, load_config. wp_steps.
  rewrite Hc. wp_steps. destruct (RefillInterval cfg <=? 0); [by wp_steps|].
  unfold wp, retries. rewrite lazyRefill_alone. pose proof (refill64_frame cfg now b).
  split; [done|]. by eapply usable_frame.
Qed.

(** The time at which the scheduler should visit the bucket. *)
Definition next_refill (cfg : Config) (b : Bucket) : Time :=
  if RefillInterval cfg <=? 0 then zeroTime
  else Time.Add (Time.Unix0 (lastRefillTime b)) (RefillInterval cfg).

Lemma NextRefillTime_run cfg b :
  configPtr b = Some cfg -> NextRefillTime b = (Ok (next_refill cfg b), b).
Proof.
  intros Hc. unfold NextRefillTime, load_config, bind, gets, next_refill. rewrite Hc. cbn.
  by destruct (_ <=? 0).
Qed.

(** ** Ideal arithmetic

    The specification of the bucket over unbounded integers.  Under [wf], the
    machine arithmetic of the code computes exactly this. *)

Module Spec.
(** Whole refill intervals elapsed since [last]. *)
Definition intervals (cfg : Config) (now last : Z) : Z :=
  Z.max 0 ((now - last) / RefillInterval cfg).

Definition refill (cfg : Config) (now : Time) (b : Bucket) : Bucket :=
  if RefillInterval cfg <=? 0 then b
  else
    let k := intervals cfg now (lastRefillTime b) in
    set_tokens (Z.min (MaxTokens cfg) (tokens b + k * RefillRate cfg))
      (set_lastRefillTime (lastRefillTime b + k * RefillInterval cfg) b).

Definition cdiv (a b : Z) : Z := (a + b - 1) / b.

Definition retry_after (cfg : Config) (t : Z) : Duration :=
  if (RefillRate cfg <=? 0) || (RefillInterval cfg <=? 0) then Second
  else cdiv (TokensPerRequest cfg - t) (RefillRate cfg) * RefillInterval cfg.

(** The decision of an unblocked bucket that has been refilled. *)
Definition decide_request (cfg : Config) (now : Time) (b : Bucket)
  : (bool * Duration) * Bucket :=
  if tokens b <? TokensPerRequest cfg then ((false, retry_after cfg (tokens b)), b)
  else
    match windowPtr b with
    | None => ((true, 0), set_tokens (tokens b - TokensPerRequest cfg) b)
    | Some w =>
        let '(r, w') := Window.Allow now w in
        let b := set_windowPtr (Some w') b in
        match r with
        | Ok true => ((true, 0), set_tokens (tokens b - TokensPerRequest cfg) b)
        | _ => ((false, RefillInterval cfg), b)
        end
    end.

Definition allow (cfg : Config) (now : Time) (b : Bucket) : (bool * Duration) * Bucket :=
  if blocked b then ((false, 0), b)
  else decide_request cfg now (set_lastAccessTime now (refill cfg now b)).
End Spec.

(** Configurations on which no arithmetic overflows: every configuration that
    passes [security.ValidateBucketConfig] is one (file [Security]). *)
Record safe (cfg : Config) : Prop := {
  safe_max : 0 <= MaxTokens cfg <= int64_max;
  safe_rate : 0 <= RefillRate cfg <= int64_max;
  safe_interval : in64 (RefillInterval cfg);
  safe_request : 1 <= TokensPerRequest cfg;
  safe_refill : 0 < RefillInterval cfg ->
    MaxTokens cfg + (int64_max / RefillInterval cfg) * RefillRate cfg <= int64_max;
  safe_retry : 0 < RefillInterval cfg ->
    (TokensPerRequest cfg + RefillRate cfg) * RefillInterval cfg <= int64_max
}.

(** Well-formed buckets under the published configuration [cfg]. *)
Record wf (cfg : Config) (b : Bucket) : Prop := {
  wf_config : configPtr b = Some cfg;
  wf_safe : safe cfg;
  wf_tokens : 0 <= tokens b <= MaxTokens cfg;
  wf_last : 0 <= lastRefillTime b <= int64_max;
  wf_window : forall w, windowPtr b = Some w -> Window.wf w
}.

(** Instants at which requests arrive: between 1970 and 2262, and not so close
    to the ends that the window's cutoff wraps. *)
Definition now_ok (b : Bucket) (now : Time) : Prop :=
  0 <= now <= int64_max /\
  forall w, windowPtr b = Some w -> Window.time_ok w now.

(** ** The machine arithmetic is the ideal one *)

Lemma quot_in64 d i : in64 d -> 0 < i -> in64 (Z.quot d i).
Proof.
  intros Hd Hi. destruct (Z.le_ge_cases 0 d).
  - rewrite Z.quot_div_nonneg by lia.
    pose proof (Z.div_pos d i ltac:(lia) Hi).
    pose proof (Z.div_le_upper_bound d i d Hi ltac:(nia)). lia64.
  - replace d with (- (- d)) by lia. rewrite Z.quot_opp_l by lia.
    rewrite Z.quot_div_nonneg by lia.
    pose proof (Z.div_pos (- d) i ltac:(lia) Hi).
    pose proof (Z.div_le_upper_bound (- d) i (- d) Hi ltac:(nia)). lia64.
Qed.

Lemma quot_max d i : 0 < i -> Z.max 0 (Z.quot d i) = Z.max 0 (d / i).
Proof.
  intros Hi. destruct (Z.le_ge_cases 0 d).
  - by rewrite Z.quot_div_nonneg by lia.
  - replace d with (- (- d)) at 1 by lia. rewrite Z.quot_opp_l by lia.
    rewrite Z.quot_div_nonneg by lia.
    pose proof (Z.div_pos (- d) i ltac:(lia) Hi).
    pose proof (Z.div_le_upper_bound d i 0 Hi ltac:(lia)). lia.
Qed.

Lemma intervals64_ideal cfg now last :
  0 < RefillInterval cfg -> 0 <= now <= int64_max -> 0 <= last <= int64_max ->
  Z.max 0 (intervals64 cfg now last) = Spec.intervals cfg now last.
Proof.
  intros Hi Hn Hl. unfold intervals64, Time.Unix0, Spec.intervals.
  rewrite Time.Sub_exact by lia64.
  rewrite wrap64_id by (apply quot_in64; lia64). by apply quot_max.
Qed.

(** The elapsed intervals stay below [now] and below the bound in [safe]. *)
Lemma intervals_bounds cfg now last :
  0 < RefillInterval cfg -> 0 <= now <= int64_max -> 0 <= last ->
  0 <= Spec.intervals cfg now last <= int64_max / RefillInterval cfg /\
  (last <= now -> last + Spec.intervals cfg now last * RefillInterval cfg <= now) /\
  now < last + (Spec.intervals cfg now last + 1) * RefillInterval cfg.
Proof.
  intros Hi Hn Hl. unfold Spec.intervals. set (i := RefillInterval cfg) in *.
  pose proof (Z.mul_div_le (now - last) i Hi).
  pose proof (Z.mul_succ_div_gt (now - last) i Hi).
  pose proof (Z.div_le_mono (now - last) int64_max i Hi ltac:(lia)).
  pose proof (Z.div_pos int64_max i ltac:(unfold int64_max; lia) Hi).
  set (q := (now - last) / i) in *. clearbody q i.
  destruct (Z.max_spec 0 q) as [[? ->]|[? ->]]; (split_and!; [lia..|nia|nia]).
Qed.

Lemma set_same b : set_tokens (tokens b) (set_lastRefillTime (lastRefillTime b) b) = b.
Proof. by destruct b. Qed.

Lemma refill64_ideal cfg now b :
  wf cfg b -> 0 < RefillInterval cfg -> 0 <= now <= int64_max ->
  refill64 cfg now b = Spec.refill cfg now b.
Proof.
  intros [_ Hsafe Ht Hl _] Hi Hn. unfold refill64, Spec.refill. cbv zeta.
  pose proof (intervals64_ideal cfg now _ Hi Hn Hl) as Hk.
  pose proof (intervals_bounds cfg now _ Hi Hn (proj1 Hl)) as (Hk1 & Hk2 & _).
  set (k := Spec.intervals cfg now (lastRefillTime b)) in *.
  destruct (Z.leb_spec (RefillInterval cfg) 0); [lia|].
  destruct (Z.leb_spec (intervals64 cfg now (lastRefillTime b)) 0).
  - replace k with 0 by lia. rewrite Z.min_r, !Z.add_0_r by lia. by rewrite set_same.
  - replace (intervals64 cfg now (lastRefillTime b)) with k by lia.
    assert (lastRefillTime b <= now) as Hle.
    { destruct (Z.le_gt_cases (lastRefillTime b) now); [done|]. exfalso.
      unfold k, Spec.intervals in *.
      pose proof (Z.div_le_upper_bound (now - lastRefillTime b) (RefillInterval cfg) 0 Hi ltac:(lia)).
      lia. }
    specialize (Hk2 Hle). pose proof (safe_refill _ Hsafe Hi). pose proof (safe_rate _ Hsafe).
    assert (k * RefillRate cfg <= int64_max / RefillInterval cfg * RefillRate cfg) by nia.
    assert (0 <= k * RefillRate cfg) by nia. assert (0 <= k * RefillInterval cfg) by nia.
    unfold Time.UnixNano. unwrap64.
    f_equal. bcase; lia.
Qed.

Lemma refill_wf cfg now b :
  wf cfg b -> 0 <= now <= int64_max -> wf cfg (Spec.refill cfg now b).
Proof.
  intros [Hc Hsafe Ht Hl Hw] Hn. unfold Spec.refill.
  destruct (Z.leb_spec (RefillInterval cfg) 0) as [|Hi]; [done|].
  pose proof (intervals_bounds cfg now _ Hi Hn (proj1 Hl)) as (Hk1 & Hk2 & _).
  pose proof (safe_rate _ Hsafe). cbv zeta.
  set (k := Spec.intervals cfg now (lastRefillTime b)) in *.
  split; cbn; try done.
  - nia.
  - split; [nia|]. destruct (Z.le_gt_cases (lastRefillTime b) now); [lia|].
    assert (k = 0) as ->; [|lia]. unfold k, Spec.intervals.
    pose proof (Z.div_le_upper_bound (now - lastRefillTime b) (RefillInterval cfg) 0 Hi ltac:(lia)).
    lia.
Qed.

Definition lift {A} (p : A * Bucket) : outcome A * Bucket := (Ok (fst p), snd p).

Lemma refill_windowPtr cfg now b : windowPtr (Spec.refill cfg now b) = windowPtr b.
Proof. unfold Spec.refill. by case_match. Qed.

Lemma refill_blocked cfg now b : blocked (Spec.refill cfg now b) = blocked b.
Proof. unfold Spec.refill. by case_match. Qed.

Lemma refill_access cfg now t b :
  tokens (Spec.refill cfg now (set_lastAccessTime t b)) = tokens (Spec.refill cfg now b).
Proof. unfold Spec.refill. by case_match. Qed.

Lemma retry_after_ideal cfg t :
  safe cfg -> 0 <= t < TokensPerRequest cfg -> 0 < RefillRate cfg -> 0 < RefillInterval cfg ->
  (((TokensPerRequest cfg -! t) +! RefillRate cfg -! 1) /! RefillRate cfg) *! RefillInterval cfg
  = Spec.cdiv (TokensPerRequest cfg - t) (RefillRate cfg) * RefillInterval cfg.
Proof.
  intros Hsafe Ht Hr Hi. pose proof (safe_retry _ Hsafe Hi). unfold Spec.cdiv.
  set (n := TokensPerRequest cfg) in *. set (r := RefillRate cfg) in *.
  set (i := RefillInterval cfg) in *.
  assert (n + r <= int64_max) by nia.
  unwrap64. rewrite Z.quot_div_nonneg by lia.
  pose proof (Z.div_pos (n - t + r - 1) r ltac:(lia) Hr).
  pose proof (Z.div_le_upper_bound (n - t + r - 1) r (n + r) Hr ltac:(nia)).
  rewrite (wrap64_id (_ / _)) by lia64. apply wrap64_id. split; [|nia].
  unfold int64_min. nia.
Qed.

Lemma consume_ideal cfg now b :
  wf cfg b -> now_ok b now ->
  consume_loop 1 now cfg (TokensPerRequest cfg) b = lift (Spec.decide_request cfg now b).
Proof.
  intros [_ Hsafe Ht _ Hw] [_ Hok]. cbn [consume_loop]. unfold bind, gets.
  unfold Spec.decide_request, Spec.retry_after.
  pose proof (safe_request _ Hsafe). pose proof (safe_max _ Hsafe).
  destruct (Z.ltb_spec (tokens b) (TokensPerRequest cfg)).
  - destruct (Z.leb_spec (RefillRate cfg) 0); [done|].
    destruct (Z.leb_spec (RefillInterval cfg) 0); [done|]. cbn [orb]. cbv zeta.
    rewrite retry_after_ideal by (done || lia). done.
  - rewrite (wrap64_id (tokens b - _)) by lia64. rewrite cas_tokens_alone.
    unfold window_allows. cbn [windowPtr set_tokens].
    destruct (windowPtr b) as [w|] eqn:E; [|done].
    pose proof (Window.Allow_refines w now (Hw _ eq_refl) (Hok _ eq_refl)) as (r & w' & -> & _)%wp_value.
    destruct r; cbn [negb]; [done|]. cbn [modify].
    rewrite wrap64_id by (cbn; lia64). unfold lift. cbn. do 2 f_equal. destruct b; cbn.
    unfold set_tokens, set_windowPtr. cbn. f_equal. lia.
Qed.

Lemma Allow_ideal cfg now b :
  wf cfg b -> now_ok b now -> Allow now b = lift (Spec.allow cfg now b).
Proof.
  intros Hwf Hok. unfold Allow, recover_with, allow_body, bind, gets, Spec.allow.
  destruct (blocked b); [done|].
  unfold load_config, bind, gets. rewrite (wf_config _ _ Hwf). cbn [ret]. cbv zeta.
  pose proof (safe_request _ (wf_safe _ _ Hwf)).
  destruct (Z.leb_spec (TokensPerRequest cfg) 0); [lia|].
  assert ((if 0 <? RefillInterval cfg then lazyRefill retries now cfg else ret tt) b
          = (Ok tt, Spec.refill cfg now b)) as ->.
  { destruct (Z.ltb_spec 0 (RefillInterval cfg)).
    - unfold retries. rewrite lazyRefill_alone, refill64_ideal; auto. apply Hok.
    - unfold Spec.refill. destruct (Z.leb_spec (RefillInterval cfg) 0); [done|lia]. }
  cbn [modify]. rewrite Time.UnixNano_id by (destruct Hok; lia64).
  rewrite consume_ideal; [by destruct (Spec.decide_request _ _ _)|..].
  - destruct (refill_wf cfg now b Hwf (proj1 Hok)). by split.
  - destruct Hok as [Hn Hw]. split; [done|]. cbn. by rewrite refill_windowPtr.
Qed.

(** ** Invariant *)

Lemma fresh_wf cfg now :
  safe (normalize cfg) -> 0 <= now <= int64_max ->
  (forall sw, CfgWindow cfg = Some sw -> Window.Enabled sw = true -> Window.wf (Window.fresh sw)) ->
  wf (normalize cfg) (fresh cfg now).
Proof.
  intros Hsafe Hn Hw. split; cbn; try done.
  - pose proof (safe_max _ Hsafe). lia.
  - by rewrite Time.UnixNano_id by lia64.
  - unfold fresh_window, normalize. intros w.
    destruct (TokensPerRequest cfg <=? 0); cbn; destruct (CfgWindow cfg) as [sw|] eqn:E; try done;
      destruct (Window.Enabled sw) eqn:En; intros [= <-]; auto.
Qed.

Lemma decide_wf cfg now b :
  wf cfg b -> now_ok b now -> wf cfg (snd (Spec.decide_request cfg now b)).
Proof.
  intros Hwf [Hn Hok]. destruct Hwf as [Hc Hsafe Ht Hl Hw].
  pose proof (safe_request _ Hsafe).
  unfold Spec.decide_request. destruct (Z.ltb_spec (tokens b) (TokensPerRequest cfg)); [done|].
  destruct (windowPtr b) as [w|] eqn:E.
  - pose proof (Window.Allow_refines w now (Hw _ eq_refl) (Hok _ eq_refl))
      as (r & w' & -> & _ & Hw' & _)%wp_value.
    destruct r; split; cbn; try done; try lia; congruence.
  - split; cbn; try done; try lia. by rewrite E.
Qed.

Lemma allow_wf cfg now b :
  wf cfg b -> now_ok b now -> wf cfg (snd (Spec.allow cfg now b)).
Proof.
  intros Hwf Hok. unfold Spec.allow. destruct (blocked b); [done|].
  pose proof (refill_wf cfg now b Hwf (proj1 Hok)) as [? ? ? ? Hw].
  apply decide_wf; [by split|]. split; [apply Hok|]. cbn. rewrite refill_windowPtr. apply Hok.
Qed.

(** ** Refilling twice is refilling once *)

Lemma intervals_split cfg t1 t2 last :
  0 < RefillInterval cfg -> t1 <= t2 ->
  Spec.intervals cfg t2 (last + Spec.intervals cfg t1 last * RefillInterval cfg)
  = Spec.intervals cfg t2 last - Spec.intervals cfg t1 last.
Proof.
  intros Hi Ht. unfold Spec.intervals. set (i := RefillInterval cfg) in *.
  set (k1 := Z.max 0 ((t1 - last) / i)).
  replace (t2 - (last + k1 * i)) with (t2 - last + (- k1) * i) by lia.
  rewrite Z.div_add by lia.
  pose proof (Z.div_le_mono (t1 - last) (t2 - last) i Hi ltac:(lia)). lia.
Qed.

Lemma refill_refill cfg t1 t2 b :
  wf cfg b -> t1 <= t2 -> Spec.refill cfg t2 (Spec.refill cfg t1 b) = Spec.refill cfg t2 b.
Proof.
  intros [_ Hsafe Ht _ _] Hle. unfold Spec.refill.
  destruct (Z.leb_spec (RefillInterval cfg) 0) as [|Hi]; [done|]. cbv zeta. cbn.
  rewrite intervals_split by done.
  assert (0 <= Spec.intervals cfg t1 (lastRefillTime b) <= Spec.intervals cfg t2 (lastRefillTime b)).
  { unfold Spec.intervals.
    pose proof (Z.div_le_mono (t1 - lastRefillTime b) (t2 - lastRefillTime b)
                  (RefillInterval cfg) Hi ltac:(lia)). lia. }
  pose proof (safe_rate _ Hsafe).
  unfold set_tokens, set_lastRefillTime. cbn. f_equal; nia.
Qed.

Lemma ScheduledRefill_ideal cfg now b :
  wf cfg b -> 0 <= now <= int64_max ->
  ScheduledRefill now b = (Ok tt, Spec.refill cfg now b).
Proof.
  intros Hwf Hn. unfold ScheduledRefill, load_config, bind, gets.
  rewrite (wf_config _ _ Hwf). cbn [ret].
  destruct (Z.leb_spec (RefillInterval cfg) 0).
  - unfold Spec.refill. destruct (Z.leb_spec (RefillInterval cfg) 0); [done|lia].
  - unfold retries. by rewrite lazyRefill_alone, refill64_ideal.
Qed.

Lemma NextRefillTime_ideal cfg b :
  wf cfg b ->
  NextRefillTime b =
    (Ok (if RefillInterval cfg <=? 0 then zeroTime else lastRefillTime b + RefillInterval cfg), b).
Proof.
  intros Hwf. unfold NextRefillTime, load_config, bind, gets.
  rewrite (wf_config _ _ Hwf). cbn [ret]. by case_match.
Qed.

(** After a refill at [now], the next one is due strictly later. *)
Lemma next_refill_later cfg now b :
  wf cfg b -> 0 <= now <= int64_max -> 0 < RefillInterval cfg ->
  now < lastRefillTime (Spec.refill cfg now b) + RefillInterval cfg.
Proof.
  intros Hwf Hn Hi. unfold Spec.refill. destruct (Z.leb_spec (RefillInterval cfg) 0); [lia|].
  cbv zeta. cbn.
  pose proof (intervals_bounds cfg now _ Hi Hn (proj1 (wf_last _ _ Hwf))) as (_ & _ & H'). lia.
Qed.

(** ** Waiting [retryAfter] is enough *)

Lemma cdiv_ge a b : 0 < b -> a <= Spec.cdiv a b * b.
Proof. intros Hb. unfold Spec.cdiv. pose proof (Z.mul_succ_div_gt (a + b - 1) b Hb). lia. Qed.

(** A rejection for lack of tokens leaves a bucket that [d] later holds enough
    of them. *)
Lemma retry_enough cfg now b :
  wf cfg b -> 0 <= now <= int64_max -> lastRefillTime b <= now ->
  TokensPerRequest cfg <= MaxTokens cfg -> 0 < RefillRate cfg -> 0 < RefillInterval cfg ->
  let b1 := Spec.refill cfg now b in
  TokensPerRequest cfg <=
    tokens (Spec.refill cfg (now + Spec.retry_after cfg (tokens b1)) b1).
Proof.
  intros Hwf Hn Hl Hmax Hr Hi b1.
  assert (lastRefillTime b1 <= now) as Hl1.
  { unfold b1, Spec.refill. destruct (Z.leb_spec (RefillInterval cfg) 0); [lia|]. cbn.
    pose proof (intervals_bounds cfg now _ Hi Hn (proj1 (wf_last _ _ Hwf))) as (_ & Hk & _). lia. }
  clearbody b1. unfold Spec.retry_after, Spec.refill, Spec.intervals.
  destruct (Z.leb_spec (RefillRate cfg) 0); [lia|].
  destruct (Z.leb_spec (RefillInterval cfg) 0); [lia|]. cbv zeta. cbn.
  pose proof (cdiv_ge (TokensPerRequest cfg - tokens b1) (RefillRate cfg) Hr) as Hc.
  set (c := Spec.cdiv _ _) in *.
  pose proof (Z.div_le_lower_bound (now + c * RefillInterval cfg - lastRefillTime b1)
                (RefillInterval cfg) c Hi ltac:(lia)) as Hk.
  set (k := _ / _) in Hk |- *. clearbody k c. nia.
Qed.

(** ** Properties *)

(** C3: functional correctness of [Allow].  On every well-formed bucket the
    code returns (no panic, no endless retry) exactly the decision, the
    retry-after estimate and the state of the ideal token bucket: blocked
    buckets reject untouched; otherwise whole elapsed intervals are credited
    up to [MaxTokens], the request is granted iff enough tokens and window
    room are there, and a window rejection costs no tokens.  The invariant
    [0 <= tokens <= MaxTokens] is kept. *)
Theorem bucket_allow_correct (cfg : Config) (now : Time) (b : Bucket)
  (Hwf : wf cfg b) (Hok : now_ok b now) :
  Allow now b = lift (Spec.allow cfg now b) /\ wf cfg (snd (Spec.allow cfg now b)).
Proof. split; [by apply Allow_ideal|by apply allow_wf]. Qed.

(** C25: the scheduler is only an optimisation.  A [ScheduledRefill] at any
    earlier instant changes neither the answer of the next [Allow] nor the
    state it leaves (an unblocked bucket; a blocked one rejects either way). *)
Theorem scheduled_refill_transparent (cfg : Config) (t1 t2 : Time) (b : Bucket)
  (Hwf : wf cfg b) (Hok : now_ok b t2) (Ht : 0 <= t1 <= t2) :
  exists b1, ScheduledRefill t1 b = (Ok tt, b1) /\
    fst (Allow t2 b1) = fst (Allow t2 b) /\
    (blocked b = false -> Allow t2 b1 = Allow t2 b).
Proof.
  assert (0 <= t1 <= int64_max) as Ht1 by (destruct Hok; lia).
  exists (Spec.refill cfg t1 b). split; [by apply ScheduledRefill_ideal|].
  rewrite !(Allow_ideal cfg); try done.
  2: by apply refill_wf.
  2: { destruct Hok. split; [done|]. by rewrite refill_windowPtr. }
  unfold Spec.allow. rewrite refill_blocked. destruct (blocked b); [done|].
  by rewrite refill_refill by (done || lia).
Qed.

(** C28: [retryAfter] is honest.  When an unblocked bucket without a sliding
    window rejects a request, a request made [retryAfter] later (and nothing
    in between) is granted, provided one request fits the capacity, refills
    are on, and the clock has not gone backwards. *)
Theorem retry_after_sufficient (cfg : Config) (now : Time) (b b1 : Bucket) (d : Duration)
  (Hwf : wf cfg b) (Hnow : 0 <= now <= int64_max) (Hlast : lastRefillTime b <= now)
  (Hfits : TokensPerRequest cfg <= MaxTokens cfg)
  (Hrate : 0 < RefillRate cfg) (Hint : 0 < RefillInterval cfg)
  (Hblocked : blocked b = false) (Hwin : windowPtr b = None)
  (Hrej : Allow now b = (Ok (false, d), b1)) (Hrange : 0 <= now + d <= int64_max) :
  fst (Allow (now + d) b1) = Ok (true, 0).
Proof.
  assert (now_ok b now) as Hok by (split; [done|by rewrite Hwin]).
  pose proof (allow_wf cfg now b Hwf Hok) as Hwf1.
  pose proof (retry_enough cfg now b Hwf Hnow Hlast Hfits Hrate Hint) as Henough.
  rewrite (Allow_ideal cfg) in Hrej by done.
  unfold Spec.allow, Spec.decide_request, lift in Hrej, Hwf1. rewrite Hblocked in Hrej, Hwf1.
  cbn [windowPtr set_lastAccessTime] in Hrej, Hwf1. rewrite refill_windowPtr, Hwin in Hrej, Hwf1.
  case_match; [|done]. cbn in Hrej, Hwf1. injection Hrej as <- <-.
  rewrite (Allow_ideal cfg); [|done|split; [done|]]; last first.
  { cbn. by rewrite refill_windowPtr, Hwin. }
  unfold Spec.allow, Spec.decide_request.
  cbn [tokens blocked windowPtr set_lastAccessTime].
  rewrite !refill_windowPtr, refill_access, refill_blocked. cbn [blocked windowPtr set_lastAccessTime].
  rewrite ?refill_blocked, ?refill_windowPtr, Hblocked, Hwin.
  cbv zeta in Henough. apply Z.ltb_ge in Henough. by rewrite Henough.
Qed.

(** C29: fail closed.  From every state whatsoever (even a bucket without a
    configuration or with a corrupted window), [Allow] returns: no panic
    escapes, no loop diverges, and a panic inside becomes a rejection. *)
Theorem bucket_fail_closed (now : Time) (b : Bucket) (Htyped : typed b) :
  exists r b', Allow now b = (Ok r, b') /\
    (fst (allow_body retries now b) = Panic -> r = (false, Second)).
Proof.
  pose proof (allow_body_no_fuel 0 now b Htyped) as Hf. unfold Allow, recover_with, retries.
  destruct (allow_body 1 now b) as [[r| |] b'] eqn:E; [| |done].
  - exists r, b'. split; [done|]. done.
  - exists (false, Second), b'. done.
Qed.

(** [UpdateConfig] publishes the normalized configuration, keeps the
    balance clamped to the new capacity, keeps the block flag and the refill
    clock, and leaves a well-formed bucket; if the window cannot be allocated
    it panics with the configuration and the balance already changed. *)
Theorem update_config_correct (old cfg : Config) (b : Bucket)
  (Hwf : wf old b) (Hsafe : safe (normalize cfg))
  (Hwin : forall w, fresh_window (normalize cfg) = Some w -> Window.wf w) :
  exists b', UpdateConfig cfg b = ((if allocatable cfg then Ok tt else Panic), b') /\
    configPtr b' = Some (normalize cfg) /\
    tokens b' = Z.min (tokens b) (MaxTokens (normalize cfg)) /\
    blocked b' = blocked b /\ lastRefillTime b' = lastRefillTime b /\
    if allocatable cfg then wf (normalize cfg) b' /\ windowPtr b' = fresh_window (normalize cfg)
    else windowPtr b' = windowPtr b.
Proof.
  destruct Hwf as [_ _ Ht Hl _]. pose proof (safe_max _ Hsafe).
  assert (E : exists b0, configPtr b0 = Some (normalize cfg) /\
    tokens b0 = Z.min (tokens b) (MaxTokens (normalize cfg)) /\ blocked b0 = blocked b /\
    lastRefillTime b0 = lastRefillTime b /\ windowPtr b0 = windowPtr b /\
    UpdateConfig cfg b = (let! w := open_window (normalize cfg) in modify (set_windowPtr w)) b0).
  { unfold UpdateConfig. unfold bind at 1 2 3, gets, modify at 1 2. cbv zeta. cbn [tokens set_configPtr].
    destruct (Z.ltb_spec (MaxTokens (normalize cfg)) (tokens b)); eexists;
      (split_and!; [..|reflexivity]); cbn; (done || lia). }
  destruct E as (b0 & E1 & E2 & E3 & E4 & E5 & ->). unfold bind, modify.
  rewrite open_window_run, normalize_allocatable. destruct (allocatable cfg); eexists;
    (split; [reflexivity|]); cbn; split_and!; try done.
  split; cbn; rewrite ?E2, ?E4; try done; lia.
Qed.

(** ** Witnesses *)

Definition ex_cfg : Config :=
  {| MaxTokens := 3; RefillRate := 1; RefillInterval := Minute; TokensPerRequest := 1;
     CfgWindow := None |}.
Definition ex_now : Time := 1700000000 * Second.
Definition ex_bucket : Bucket := fresh ex_cfg ex_now.
Definition ex_empty : Bucket := set_tokens 0 ex_bucket.

Lemma ex_safe : safe ex_cfg.
Proof. split; zcompute. Qed.

Lemma ex_bucket_wf : wf ex_cfg ex_bucket.
Proof. split; [done|exact ex_safe|zcompute|zcompute|done]. Qed.

Lemma ex_empty_wf : wf ex_cfg ex_empty.
Proof. split; [done|exact ex_safe|zcompute|zcompute|done]. Qed.

Lemma ex_now_ok t : 0 <= t <= int64_max -> now_ok ex_bucket t.
Proof. intros Ht. split; done. Qed.

Example ex_allow_three_then_reject :
  fst ((let! r1 := Allow ex_now in let! r2 := Allow ex_now in
        let! r3 := Allow ex_now in let! r4 := Allow ex_now in
        let! r5 := Allow (ex_now + 2 * Minute) in
        ret (fst r1, fst r2, fst r3, r4, fst r5)) ex_bucket)
  = Ok (true, true, true, (false, Minute), true).
Proof. vm_compute. reflexivity. Qed.

Lemma bucket_allow_correct_witness :
  Allow ex_now ex_bucket = lift (Spec.allow ex_cfg ex_now ex_bucket) /\
  wf ex_cfg (snd (Spec.allow ex_cfg ex_now ex_bucket)).
Proof.
  apply (bucket_allow_correct ex_cfg ex_now ex_bucket ex_bucket_wf).
  apply ex_now_ok. zcompute.
Defined.

Lemma scheduled_refill_transparent_witness :
  exists b1, ScheduledRefill (ex_now + Minute) ex_bucket = (Ok tt, b1) /\
    fst (Allow (ex_now + 2 * Minute) b1) = fst (Allow (ex_now + 2 * Minute) ex_bucket) /\
    (blocked ex_bucket = false ->
     Allow (ex_now + 2 * Minute) b1 = Allow (ex_now + 2 * Minute) ex_bucket).
Proof.
  apply (scheduled_refill_transparent ex_cfg (ex_now + Minute) (ex_now + 2 * Minute) ex_bucket ex_bucket_wf).
  - apply ex_now_ok. zcompute.
  - zcompute.
Defined.

Lemma retry_after_sufficient_witness :
  fst (Allow (ex_now + Minute) (snd (Allow ex_now ex_empty))) = Ok (true, 0).
Proof.
  apply (retry_after_sufficient ex_cfg ex_now ex_empty (snd (Allow ex_now ex_empty)) Minute ex_empty_wf);
    try (zcompute || reflexivity).
Defined.

(** A bucket whose configuration pointer was never stored. *)
Definition ex_nil : Bucket :=
  {| configPtr := None; tokens := 5; lastRefillTime := 0; blocked := false;
     lastAccessTime := 0; createdAt := 0; windowPtr := None |}.

Lemma bucket_fail_closed_witness :
  exists r b', Allow ex_now ex_nil = (Ok r, b') /\
    (fst (allow_body retries ex_now ex_nil) = Panic -> r = (false, Second)).
Proof. apply (bucket_fail_closed ex_now ex_nil). intros w. discriminate. Defined.

Example ex_nil_rejects : Allow ex_now ex_nil = (Ok (false, Second), ex_nil).
Proof. reflexivity. Qed.

Definition ex_smaller : Config :=
  {| MaxTokens := 2; RefillRate := 1; RefillInterval := Minute; TokensPerRequest := 0;
     CfgWindow := None |}.

Lemma update_config_correct_witness :
  exists b', UpdateConfig ex_smaller ex_bucket = (Ok tt, b') /\
    configPtr b' = Some (normalize ex_smaller) /\ tokens b' = 2 /\
    blocked b' = false /\ lastRefillTime b' = ex_now /\
    wf (normalize ex_smaller) b' /\ windowPtr b' = None.
Proof.
  apply (update_config_correct ex_cfg ex_smaller ex_bucket ex_bucket_wf).
  - split; zcompute.
  - intros w. discriminate.
Defined.
