(* ===== verification/BucketConc.v ===== *)
(** * internal/bucket under concurrency

    The hot path of a bucket takes no lock: any number of goroutines run
    [Allow], [ScheduledRefill], [Block] and [Unblock] on one bucket, and every
    access to an atomic field is one indivisible step.  [tstep] is the program
    of one goroutine, one atomic access per step; [step] interleaves any
    number of them in any order.  Calls are never removed from the pool, so
    the pool is also the history of the answers given.

    Two simplifications, both harmless here: the load of [windowPtr] and the
    locked [w.Allow] behind it are one step (nothing in this machine stores
    [windowPtr]), and [UpdateConfig] is left out (nothing in the program calls
    it on a shared bucket: the store installs a fresh bucket instead). *)

From stdpp Require Import base tactics list.
From Stdlib Require Import ZArith Lia.
From S2P Require Import Prelude GoTime Window Bucket.

Local Open Scope Z_scope.
Local Open Scope go_scope.

(** ** One goroutine *)

(** Who called [lazyRefill]. *)
Inductive caller := FromAllow | FromSchedule.

(** Program points, each with the local variables live there. *)
Inductive pc :=
| A_blocked (now : Time)                            (* b.blocked.Load() *)
| A_config (now : Time)                             (* b.configPtr.Load() *)
| R_last (now : Time) (cfg : Config) (k : caller)   (* b.lastRefillTime.Load() *)
| R_cas_last (now : Time) (cfg : Config) (k : caller) (lastNano : Z)
| R_tokens (now : Time) (cfg : Config) (k : caller) (tokensToAdd : Z)
| R_cas_tokens (now : Time) (cfg : Config) (k : caller) (tokensToAdd current : Z)
| A_touch (now : Time) (cfg : Config)               (* b.lastAccessTime.Store *)
| A_tokens (now : Time) (cfg : Config)              (* b.tokens.Load() *)
| A_cas (now : Time) (cfg : Config) (current : Z)
| A_window (now : Time) (cfg : Config)              (* b.windowPtr.Load(), w.Allow *)
| A_refund (cfg : Config)                           (* b.tokens.Add(n) *)
| A_done (allowed : bool) (retryAfter : Duration)
| S_config (now : Time)
| S_done
| S_crashed                                         (* nil configPtr, no recover *)
| B_store (v : bool)
| B_done.

#[export] Instance caller_eq_dec : EqDecision caller.
Proof. solve_decision. Defined.

Definition request_size (cfg : Config) : Z :=
  if TokensPerRequest cfg <=? 0 then 1 else TokensPerRequest cfg.

Definition resume (k : caller) (now : Time) (cfg : Config) : pc :=
  match k with FromAllow => A_touch now cfg | FromSchedule => S_done end.

(** The rejection for lack of tokens. *)
Definition rejection (cfg : Config) (current : Z) : pc :=
  if (RefillRate cfg <=? 0) || (RefillInterval cfg <=? 0) then A_done false Second
  else
    let deficit := request_size cfg -! current in
    let intervals := (deficit +! RefillRate cfg -! 1) /! RefillRate cfg in
    A_done false (intervals *! RefillInterval cfg).

(** One atomic access; [None] when the call has returned. *)
Definition tstep (b : Bucket) (p : pc) : option (Bucket * pc) :=
  match p with
  | A_blocked now =>
      Some (b, if blocked b then A_done false 0 else A_config now)
  | A_config now =>
      Some (b, match configPtr b with
               | None => A_done false Second
               | Some cfg =>
                   if 0 <? RefillInterval cfg then R_last now cfg FromAllow
                   else A_touch now cfg
               end)
  | R_last now cfg k =>
      let lastNano := lastRefillTime b in
      Some (b, if intervals64 cfg now lastNano <=? 0 then resume k now cfg
               else R_cas_last now cfg k lastNano)
  | R_cas_last now cfg k lastNano =>
      let intervals := intervals64 cfg now lastNano in
      if lastRefillTime b =? lastNano then
        Some (set_lastRefillTime
                (Time.UnixNano (Time.Add lastNano (intervals *! RefillInterval cfg))) b,
              R_tokens now cfg k (intervals *! RefillRate cfg))
      else Some (b, R_last now cfg k)
  | R_tokens now cfg k add => Some (b, R_cas_tokens now cfg k add (tokens b))
  | R_cas_tokens now cfg k add current =>
      let updated := current +! add in
      let updated := if MaxTokens cfg <? updated then MaxTokens cfg else updated in
      if tokens b =? current then Some (set_tokens updated b, resume k now cfg)
      else Some (b, R_tokens now cfg k add)
  | A_touch now cfg =>
      Some (set_lastAccessTime (Time.UnixNano now) b, A_tokens now cfg)
  | A_tokens now cfg =>
      Some (b, if tokens b <? request_size cfg then rejection cfg (tokens b)
               else A_cas now cfg (tokens b))
  | A_cas now cfg current =>
      if tokens b =? current then
        Some (set_tokens (current -! request_size cfg) b, A_window now cfg)
      else Some (b, A_tokens now cfg)
  | A_window now cfg =>
      match windowPtr b with
      | None => Some (b, A_done true 0)
      | Some w =>
          let '(r, w') := Window.Allow now w in
          Some (set_windowPtr (Some w') b,
                match r with
                | Ok true => A_done true 0
                | Ok false => A_refund cfg
                | _ => A_done false Second
                end)
      end
  | A_refund cfg =>
      Some (set_tokens (tokens b +! request_size cfg) b, A_done false (RefillInterval cfg))
  | S_config now =>
      Some (b, match configPtr b with
               | None => S_crashed
               | Some cfg =>
                   if RefillInterval cfg <=? 0 then S_done else R_last now cfg FromSchedule
               end)
  | B_store v => Some (set_blocked v b, B_done)
  | A_done _ _ | S_done | S_crashed | B_done => None
  end.

(** A goroutine running alone. *)
Fixpoint solo (fuel : nat) (b : Bucket) (p : pc) : Bucket * pc :=
  match fuel with
  | O => (b, p)
  | S fuel =>
      match tstep b p with
      | Some (b', p') => solo fuel b' p'
      | None => (b, p)
      end
  end.

Definition returned (p : pc) : bool :=
  match p with A_done _ _ | S_done | S_crashed | B_done => true | _ => false end.

(** ** Any number of goroutines *)

(** The entry points of calls. *)
Definition call (tmax : Time) (p : pc) : Prop :=
  match p with
  | A_blocked now | S_config now => 0 <= now <= tmax
  | B_store _ => True
  | _ => False
  end.

Definition sys : Type := Bucket * list pc.

(** [tmax] bounds the clock readings of the calls made so far. *)
Inductive step (tmax : Time) : sys -> sys -> Prop :=
| step_call b pool p :
    call tmax p -> step tmax (b, pool) (b, pool ++ [p])
| step_run b pool i p b' p' :
    pool !! i = Some p -> tstep b p = Some (b', p') ->
    step tmax (b, pool) (b', <[i := p']> pool).

Inductive reachable (tmax : Time) (s0 : sys) : sys -> Prop :=
| reach_refl : reachable tmax s0 s0
| reach_step s s' : reachable tmax s0 s -> step tmax s s' -> reachable tmax s0 s'.

(** The number of granted requests. *)
Definition is_grant (p : pc) : Z := match p with A_done true _ => 1 | _ => 0 end.
Fixpoint total (f : pc -> Z) (pool : list pc) : Z :=
  match pool with
  | [] => 0
  | p :: pool => f p + total f pool
  end.
Definition grants (pool : list pc) : Z := total is_grant pool.

(** ** Sums over the pool *)

Lemma total_app f pool p : total f (pool ++ [p]) = total f pool + f p.
Proof. induction pool as [|q pool IH]; cbn in *; lia. Qed.

Lemma total_insert f pool i p p' :
  pool !! i = Some p -> total f (<[i := p']> pool) = total f pool - f p + f p'.
Proof.
  revert i. induction pool as [|q pool IH]; intros [|i] Hi; simpl in *; simplify_eq; [lia|].
  rewrite (IH _ Hi). lia.
Qed.

Lemma total_nonneg f pool : Forall (fun p => 0 <= f p) pool -> 0 <= total f pool.
Proof. induction 1; cbn; lia. Qed.

Lemma total_ge f pool i p :
  Forall (fun p => 0 <= f p) pool -> pool !! i = Some p -> f p <= total f pool.
Proof.
  intros Hall. revert i.
  induction Hall as [|q pool Hq Hall IH]; intros [|i] Hi; cbn in *; simplify_eq.
  - pose proof (total_nonneg f pool Hall). lia.
  - specialize (IH _ Hi). lia.
Qed.

Lemma total_le f g pool :
  Forall (fun p => f p <= g p) pool -> total f pool <= total g pool.
Proof. induction 1; cbn; lia. Qed.

Lemma total_mul c f pool : total (fun p => c * f p) pool = c * total f pool.
Proof. induction pool as [|p pool IH]; cbn in *; lia. Qed.

(** ** The token ledger

    Fix a configuration, the creation instant [t0] and a bound [tmax] on the
    clock.  [charge p] is what the call [p] has taken out of the balance and
    not given back (a granted or still pending consumption), or has won from
    the refill clock and not yet credited. *)

Section Ledger.
Context (cfg : Config) (t0 tmax : Time).
Hypothesis Hsafe : safe cfg.
Hypothesis Ht0 : 0 <= t0 <= tmax.
Hypothesis Htmax : tmax <= int64_max.

Definition charge (p : pc) : Z :=
  match p with
  | R_tokens _ _ _ add | R_cas_tokens _ _ _ add _ => add
  | A_window _ _ | A_refund _ | A_done true _ => TokensPerRequest cfg
  | _ => 0
  end.

(** What is known at each program point. *)
Definition pc_ok (p : pc) : Prop :=
  match p with
  | A_blocked now | A_config now | S_config now => 0 <= now <= tmax
  | R_last now c _ => c = cfg /\ 0 <= now <= tmax /\ 0 < RefillInterval cfg
  | R_cas_last now c _ lastNano =>
      c = cfg /\ 0 <= now <= tmax /\ 0 < RefillInterval cfg /\
      0 < intervals64 cfg now lastNano
  | R_tokens now c _ add | R_cas_tokens now c _ add _ =>
      c = cfg /\ 0 <= now <= tmax /\ 0 < RefillInterval cfg /\ 0 <= add
  | A_touch now c | A_tokens now c | A_window now c => c = cfg /\ 0 <= now <= tmax
  | A_cas now c current => c = cfg /\ 0 <= now <= tmax /\ TokensPerRequest cfg <= current
  | A_refund c => c = cfg
  | _ => True
  end.

(** The balance [x] is charged to the calls, after [K] intervals have been
    credited. *)
Definition ledger (b : Bucket) (x : Z) : Prop :=
  exists K, 0 <= K /\ (0 < K -> 0 < RefillInterval cfg) /\
    lastRefillTime b = t0 + K * RefillInterval cfg /\
    lastRefillTime b <= tmax /\
    0 <= tokens b /\
    tokens b + x <= MaxTokens cfg + K * RefillRate cfg.

Definition inv (s : sys) : Prop :=
  configPtr (fst s) = Some cfg /\ Forall pc_ok (snd s) /\
  ledger (fst s) (total charge (snd s)).

Lemma request_size_safe : request_size cfg = TokensPerRequest cfg.
Proof. unfold request_size. pose proof (safe_request _ Hsafe). bcase; lia. Qed.

Lemma charge_nonneg p : pc_ok p -> 0 <= charge p.
Proof.
  pose proof (safe_request _ Hsafe).
  destruct p as [| | | | | | | | | | |[]| | | | |]; cbn; intros; lia.
Qed.

(** The credits never overflow. *)
Lemma credit_bound K last :
  0 <= K -> (0 < K -> 0 < RefillInterval cfg) ->
  last = t0 + K * RefillInterval cfg -> last <= tmax ->
  MaxTokens cfg + K * RefillRate cfg <= int64_max.
Proof.
  intros HK Hpos -> Hle. pose proof (safe_max _ Hsafe). pose proof (safe_rate _ Hsafe).
  destruct (Z.eq_dec K 0) as [->|]; [lia|].
  pose proof (safe_refill _ Hsafe (Hpos ltac:(lia))).
  pose proof (Z.div_le_lower_bound int64_max (RefillInterval cfg) K
                (Hpos ltac:(lia)) ltac:(lia)). nia.
Qed.

Lemma resume_ok k now : 0 <= now <= tmax -> pc_ok (resume k now cfg) /\ charge (resume k now cfg) = 0.
Proof. by destruct k. Qed.

Lemma rejection_ok c t : pc_ok (rejection c t) /\ charge (rejection c t) = 0.
Proof. unfold rejection. by case_match. Qed.

(** Winning the CAS on [lastRefillTime]: the intervals move from the clock
    to the pending credit, once. *)
Lemma ledger_cas_last b now x :
  ledger b x -> 0 <= now <= tmax -> 0 < RefillInterval cfg ->
  0 < intervals64 cfg now (lastRefillTime b) ->
  let k := intervals64 cfg now (lastRefillTime b) in
  ledger (set_lastRefillTime
            (Time.UnixNano (lastRefillTime b + (k *! RefillInterval cfg))) b)
    ((k *! RefillRate cfg) + x) /\ 0 <= k *! RefillRate cfg.
Proof.
  intros (K & HK & Hpos & Hlast & Hle & Ht & Hsum) Hnow Hi Hk k.
  assert (0 <= lastRefillTime b) as Hl0 by nia.
  pose proof (intervals64_ideal cfg now (lastRefillTime b) Hi ltac:(lia) ltac:(lia)) as Hideal.
  pose proof (intervals_bounds cfg now (lastRefillTime b) Hi ltac:(lia) Hl0) as (Hb1 & Hb2 & _).
  rewrite <- Hideal in Hb1, Hb2. fold k in Hideal, Hb1, Hb2, Hk. rewrite Z.max_r in * by lia.
  pose proof (safe_refill _ Hsafe Hi). pose proof (safe_max _ Hsafe). pose proof (safe_rate _ Hsafe).
  assert (lastRefillTime b <= now) as Hbn.
  { destruct (Z.le_gt_cases (lastRefillTime b) now); [done|]. exfalso.
    unfold Spec.intervals in Hideal.
    pose proof (Z.div_le_upper_bound (now - lastRefillTime b) (RefillInterval cfg) 0 Hi ltac:(lia)).
    lia. }
  specialize (Hb2 Hbn).
  assert (0 <= k * RefillRate cfg <= int64_max) by nia.
  assert (0 <= k * RefillInterval cfg <= int64_max) by nia.
  unfold Time.UnixNano. unwrap64. split; [|lia].
  exists (K + k). cbn. split_and!; nia.
Qed.

(** Crediting and clamping. *)
Lemma ledger_cas_tokens b add x :
  ledger b (add + x) -> 0 <= add -> 0 <= x ->
  ledger (set_tokens (if MaxTokens cfg <? tokens b +! add then MaxTokens cfg
                      else tokens b +! add) b) x.
Proof.
  intros (K & HK & Hpos & Hlast & Hle & Ht & Hsum) Hadd Hx.
  pose proof (credit_bound K _ HK Hpos Hlast Hle). pose proof (safe_max _ Hsafe).
  unwrap64. exists K. cbn. split_and!; try done; bcase; lia.
Qed.

Lemma ledger_consume b x :
  ledger b x -> TokensPerRequest cfg <= tokens b -> 0 <= x ->
  ledger (set_tokens (tokens b -! request_size cfg) b) (TokensPerRequest cfg + x).
Proof.
  intros (K & HK & Hpos & Hlast & Hle & Ht & Hsum) Hn Hx. rewrite request_size_safe.
  pose proof (credit_bound K _ HK Hpos Hlast Hle). pose proof (safe_request _ Hsafe).
  unwrap64. exists K. cbn. split_and!; try done; lia.
Qed.

Lemma ledger_refund b x :
  ledger b (TokensPerRequest cfg + x) -> 0 <= x ->
  ledger (set_tokens (tokens b +! request_size cfg) b) x.
Proof.
  intros (K & HK & Hpos & Hlast & Hle & Ht & Hsum) Hx. rewrite request_size_safe.
  pose proof (credit_bound K _ HK Hpos Hlast Hle). pose proof (safe_request _ Hsafe).
  unwrap64. exists K. cbn. split_and!; try done; lia.
Qed.

Lemma ledger_mono b b' x x' :
  lastRefillTime b' = lastRefillTime b -> tokens b' = tokens b -> x' <= x ->
  ledger b x -> ledger b' x'.
Proof.
  intros E1 E2 Hx (K & HK & Hpos & Hlast & Hle & Ht & Hsum). exists K.
  rewrite E1, E2. split_and!; try done; lia.
Qed.

Local Ltac fin := cbn [pc_ok charge configPtr]; split_and!; first [assumption | tauto | lia | done].

Lemma tstep_inv b p b' p' x :
  configPtr b = Some cfg -> pc_ok p -> ledger b (charge p + x) -> 0 <= x ->
  tstep b p = Some (b', p') ->
  configPtr b' = Some cfg /\ pc_ok p' /\ ledger b' (charge p' + x).
Proof.
  intros Hc Hp Hl Hx Hs.
  destruct p as [now|now|now c k|now c k l|now c k add|now c k add cur|now c|now c|now c cur
                |now c|c|a d|now| | |v|]; cbn [tstep pc_ok charge] in *; try done;
    rewrite ?request_size_safe in Hs.
  - injection Hs as <- <-. by destruct (blocked b); fin.
  - injection Hs as <- <-. rewrite Hc. destruct (Z.ltb_spec 0 (RefillInterval cfg)); by fin.
  - injection Hs as <- <-. destruct Hp as (-> & Hn & Hi).
    destruct (Z.leb_spec (intervals64 cfg now (lastRefillTime b)) 0); [|by fin].
    pose proof (resume_ok k now Hn) as [? ->]. by fin.
  - destruct Hp as (-> & Hn & Hi & Hk). destruct (Z.eqb_spec (lastRefillTime b) l) as [<-|];
      injection Hs as <- <-; [|by fin].
    destruct (ledger_cas_last b now x Hl Hn Hi Hk). by fin.
  - injection Hs as <- <-. by fin.
  - destruct Hp as (-> & Hn & Hi & Hadd). pose proof (resume_ok k now Hn) as [Hok Hch].
    destruct (Z.eqb_spec (tokens b) cur) as [<-|]; injection Hs as <- <-; [|by fin].
    rewrite Hch. split_and!; [done|done|]. by apply ledger_cas_tokens.
  - injection Hs as <- <-. split_and!; [done|done|]. by eapply ledger_mono; [| | |exact Hl].
  - injection Hs as <- <-. destruct Hp as (-> & Hn). rewrite request_size_safe.
    destruct (Z.ltb_spec (tokens b) (TokensPerRequest cfg)); [|by fin].
    pose proof (rejection_ok cfg (tokens b)) as [? ->]. by fin.
  - destruct Hp as (-> & Hn & Hcur). destruct (Z.eqb_spec (tokens b) cur) as [<-|];
      injection Hs as <- <-; [|by fin].
    split_and!; [done|done|]. by apply ledger_consume.
  - destruct Hp as (-> & Hn). pose proof (safe_request _ Hsafe).
    destruct (windowPtr b) as [w|].
    + destruct (Window.Allow now w) as [[[]| |] w']; injection Hs as <- <-;
        (split_and!; [done|done|]); cbn; eapply ledger_mono; try exact Hl; done || lia.
    + injection Hs as <- <-. by fin.
  - injection Hs as <- <-. subst c. split_and!; [done|done|]. by apply ledger_refund.
  - injection Hs as <- <-. rewrite Hc. destruct (Z.leb_spec (RefillInterval cfg) 0); by fin.
  - injection Hs as <- <-. by fin.
Qed.

Lemma call_ok p : call tmax p -> pc_ok p /\ charge p = 0.
Proof. destruct p; cbn; try done; auto. Qed.

Lemma step_inv s s' : inv s -> step tmax s s' -> inv s'.
Proof.
  intros (Hc & Hp & Hl) Hs. destruct Hs as [b pool p Hcall|b pool i p b' p' Hi Hs]; cbn in *.
  - destruct (call_ok p Hcall) as [Hok Hch]. split_and!; [done|by apply Forall_app; auto|].
    cbn. rewrite total_app, Hch, Z.add_0_r. done.
  - assert (Forall (fun p => 0 <= charge p) pool) as Hnn.
    { eapply Forall_impl; [exact Hp|]. apply charge_nonneg. }
    pose proof (total_ge _ _ _ _ Hnn Hi) as Hge.
    pose proof (proj1 (Forall_lookup _ _) Hp _ _ Hi) as Hpi.
    destruct (tstep_inv b p b' p' (total charge pool - charge p)) as (Hc' & Hok' & Hl'); try done.
    { by replace (charge p + _) with (total charge pool) by lia. }
    { lia. }
    split_and!; cbn; [done|by apply Forall_insert|].
    rewrite (total_insert _ _ _ _ p' Hi).
    by replace (total charge pool - charge p + charge p') with
      (charge p' + (total charge pool - charge p)) by lia.
Qed.

Lemma reachable_inv s0 s : inv s0 -> reachable tmax s0 s -> inv s.
Proof. induction 2; eauto using step_inv. Qed.

Lemma inv_grants s : inv s -> TokensPerRequest cfg * grants (snd s) <= total charge (snd s).
Proof.
  intros (_ & Hp & _). unfold grants. rewrite <- total_mul. apply total_le.
  eapply Forall_impl; [exact Hp|]. intros p Hok. pose proof (charge_nonneg p Hok).
  destruct p as [| | | | | | | | | | |[]| | | | |]; cbn in *; lia.
Qed.
End Ledger.

Lemma inv_init cfg now tmax :
  safe (normalize cfg) -> 0 <= now <= tmax -> tmax <= int64_max ->
  inv (normalize cfg) now tmax (fresh cfg now, []).
Proof.
  intros Hsafe Hn Ht. pose proof (safe_max _ Hsafe).
  split_and!; [done|constructor|]. exists 0. cbn. unfold Time.UnixNano. unwrap64.
  split_and!; lia.
Qed.

(** ** Without a sliding window the balance never exceeds the capacity *)

Section Capacity.
Context (cfg : Config).
Hypothesis Hsafe : safe cfg.

Definition no_refund (p : pc) : Prop :=
  match p with
  | A_refund _ => False
  | R_last _ c _ | R_cas_last _ c _ _ | R_tokens _ c _ _ | R_cas_tokens _ c _ _ _
  | A_touch _ c | A_tokens _ c | A_window _ c => c = cfg
  | A_cas _ c current => c = cfg /\ TokensPerRequest cfg <= current
  | _ => True
  end.

Definition within (b : Bucket) : Prop :=
  configPtr b = Some cfg /\ windowPtr b = None /\ in64 (tokens b) /\
  tokens b <= MaxTokens cfg.

Lemma tstep_within b p b' p' :
  within b -> no_refund p -> tstep b p = Some (b', p') -> within b' /\ no_refund p'.
Proof.
  intros (Hc & Hw & H64 & Ht) Hp Hs.
  pose proof (safe_max _ Hsafe). pose proof (safe_request _ Hsafe).
  destruct p as [now|now|now c k|now c k l|now c k add|now c k add cur|now c|now c|now c cur
                |now c|c|a d|now| | |v|]; cbn [tstep no_refund] in *; try done;
    rewrite ?(request_size_safe cfg Hsafe) in Hs.
  - injection Hs as <- <-. by destruct (blocked b).
  - injection Hs as <- <-. rewrite Hc. by case_match.
  - injection Hs as <- <-. subst c. case_match; [|done]. by destruct k.
  - subst c. by case_match; injection Hs as <- <-.
  - by injection Hs as <- <-.
  - subst c. case_match; injection Hs as <- <-; [|done]. split; [|by destruct k].
    split_and!; cbn; [done..| |]; case_match; try lia64.
    + apply wrap64_in64.
  - by injection Hs as <- <-.
  - injection Hs as <- <-. subst c. rewrite (request_size_safe cfg Hsafe).
    destruct (Z.ltb_spec (tokens b) (TokensPerRequest cfg)); [|done].
    split; [done|]. unfold rejection. by case_match.
  - destruct Hp as [-> Hcur]. destruct (Z.eqb_spec (tokens b) cur) as [<-|];
      injection Hs as <- <-; [|done].
    split; [|done]. split_and!; cbn; [done..| |]; rewrite (request_size_safe cfg Hsafe);
      rewrite wrap64_id by lia64; lia64.
  - rewrite Hw in Hs. by injection Hs as <- <-.
  - injection Hs as <- <-. rewrite Hc. by case_match.
  - by injection Hs as <- <-.
Qed.

Lemma reachable_within tmax s0 s :
  reachable tmax s0 s -> within (fst s0) -> Forall no_refund (snd s0) ->
  within (fst s) /\ Forall no_refund (snd s).
Proof.
  induction 1 as [|s s' _ IH Hs]; [done|]. intros Hb Hp. destruct (IH Hb Hp) as [Hb' Hp'].
  destruct Hs as [b pool p Hcall|b pool i p b' p' Hi Hs]; cbn in *.
  - split; [done|]. apply Forall_app. split; [done|]. repeat constructor. by destruct p.
  - destruct (tstep_within b p b' p') as [? ?]; try done.
    { exact (proj1 (Forall_lookup _ _) Hp' _ _ Hi). }
    split; [done|]. by apply Forall_insert.
Qed.
End Capacity.

(** ** A goroutine running alone *)

(** How many steps are left when nobody interferes: a CAS that lost its race
    costs one more round. *)
Definition rank (b : Bucket) (p : pc) : nat :=
  match p with
  | A_blocked _ => 11
  | A_config _ | S_config _ => 10
  | R_last _ _ _ => 9
  | R_cas_last _ _ _ lastNano => if lastRefillTime b =? lastNano then 8 else 10
  | R_tokens _ _ _ _ => 7
  | R_cas_tokens _ _ _ _ current => if tokens b =? current then 6 else 8
  | A_touch _ _ => 5
  | A_tokens _ _ => 4
  | A_cas _ _ current => if tokens b =? current then 3 else 5
  | A_window _ _ => 2
  | A_refund _ | B_store _ => 1
  | A_done _ _ | S_done | S_crashed | B_done => 0
  end.

Lemma rejection_rank b cfg t : rank b (rejection cfg t) = 0%nat.
Proof. unfold rejection. by case_match. Qed.

Lemma tstep_rank b p b' p' : tstep b p = Some (b', p') -> (rank b' p' < rank b p)%nat.
Proof.
  intros Hs.
  destruct p as [now|now|now c k|now c k l|now c k add|now c k add cur|now c|now c|now c cur
                |now c|c|a d|now| | |v|]; cbn [tstep] in Hs; try discriminate.
  - injection Hs as <- <-. destruct (blocked b); cbn; lia.
  - injection Hs as <- <-. repeat case_match; cbn; lia.
  - injection Hs as <- <-. case_match; [destruct k; cbn; lia|].
    cbn. rewrite Z.eqb_refl. lia.
  - cbn [rank]. case_match; injection Hs as <- <-; cbn; lia.
  - injection Hs as <- <-. cbn. rewrite Z.eqb_refl. lia.
  - cbn [rank]. case_match; injection Hs as <- <-; [destruct k|]; cbn; lia.
  - injection Hs as <- <-. cbn. lia.
  - injection Hs as <- <-. case_match; [rewrite rejection_rank; cbn; lia|].
    cbn. rewrite Z.eqb_refl. lia.
  - cbn [rank]. case_match; injection Hs as <- <-; cbn; lia.
  - destruct (windowPtr b) as [w|]; [|injection Hs as <- <-; cbn; lia].
    destruct (Window.Allow now w) as [[[]| |] w']; injection Hs as <- <-; cbn; lia.
  - injection Hs as <- <-. cbn. lia.
  - injection Hs as <- <-. repeat case_match; cbn; lia.
  - injection Hs as <- <-. cbn. lia.
Qed.

Lemma tstep_None b p : tstep b p = None -> returned p = true.
Proof.
  destruct p; cbn; try done; intros; repeat case_match; done.
Qed.

Lemma solo_rank fuel b p :
  (rank b p <= fuel)%nat -> returned (snd (solo fuel b p)) = true.
Proof.
  revert b p. induction fuel as [|fuel IH]; intros b p Hr; cbn [solo].
  - destruct (tstep b p) as [[b' p']|] eqn:E; [|by eapply tstep_None].
    apply tstep_rank in E. lia.
  - destruct (tstep b p) as [[b' p']|] eqn:E; [|by eapply tstep_None].
    apply tstep_rank in E. apply IH. lia.
Qed.

(** [runs b p b' p']: alone, [p] at [b] comes to [p'] at [b']. *)
Definition runs (b : Bucket) (p : pc) (b' : Bucket) (p' : pc) : Prop :=
  exists n, forall fuel, solo (n + fuel) b p = solo fuel b' p'.

Lemma runs_refl b p : runs b p b p.
Proof. by exists 0%nat. Qed.

Lemma runs_step b p b1 p1 b' p' :
  tstep b p = Some (b1, p1) -> runs b1 p1 b' p' -> runs b p b' p'.
Proof.
  intros Hs [n Hn]. exists (S n). intros fuel. cbn [solo Nat.add]. by rewrite Hs.
Qed.

Lemma runs_trans b p b1 p1 b' p' :
  runs b p b1 p1 -> runs b1 p1 b' p' -> runs b p b' p'.
Proof.
  intros [n Hn] [m Hm]. exists (n + m)%nat. intros fuel.
  by rewrite <- Nat.add_assoc, Hn, Hm.
Qed.

Lemma solo_returned fuel b p : returned p = true -> solo fuel b p = (b, p).
Proof. destruct fuel, p; done. Qed.

(** A run that has returned is what any sufficient number of steps gives. *)
Lemma runs_solo fuel b p b' p' :
  runs b p b' p' -> returned p' = true -> (rank b p <= fuel)%nat ->
  solo fuel b p = (b', p').
Proof.
  intros [n Hn] Hret Hr. specialize (Hn fuel). rewrite (solo_returned _ _ _ Hret) in Hn.
  rewrite <- Hn. clear Hn Hret b' p'.
  rewrite Nat.add_comm. revert b p Hr. induction fuel as [|fuel IH]; intros b p Hr.
  - symmetry. apply solo_returned. destruct (tstep b p) as [[b1 p1]|] eqn:E.
    + apply tstep_rank in E. lia.
    + by eapply tstep_None.
  - cbn [solo Nat.add]. destruct (tstep b p) as [[b1 p1]|] eqn:E; [|done].
    apply IH. apply tstep_rank in E. lia.
Qed.

Ltac run_step := eapply runs_step; [cbn [tstep]; reflexivity|].

Lemma runs_refill now cfg k b :
  runs b (R_last now cfg k) (refill64 cfg now b) (resume k now cfg).
Proof.
  run_step. unfold refill64. cbv zeta. case_match; [apply runs_refl|].
  eapply runs_step; [cbn [tstep]; by rewrite Z.eqb_refl|]. run_step.
  eapply runs_step; [cbn [tstep]; by rewrite Z.eqb_refl|]. apply runs_refl.
Qed.

(** What the deferred [recover] makes of an outcome. *)
Definition recovered (o : outcome (bool * Duration)) : bool * Duration :=
  match o with Ok r => r | _ => (false, Second) end.

Lemma runs_consume now cfg b o b' :
  consume_loop 1 now cfg (request_size cfg) b = (o, b') ->
  runs b (A_tokens now cfg) b' (A_done (fst (recovered o)) (snd (recovered o))).
Proof.
  cbn [consume_loop]. unfold bind, gets. intros E. run_step.
  destruct (tokens b <? request_size cfg).
  - unfold rejection. cbv zeta in E |- *.
    case_match; unfold ret in E; injection E as <- <-; cbn [recovered fst snd]; apply runs_refl.
  - rewrite cas_tokens_alone in E.
    eapply runs_step; [cbn [tstep]; by rewrite Z.eqb_refl|].
    unfold window_allows in E. set (b1 := set_tokens (tokens b -! request_size cfg) b) in *.
    destruct (windowPtr b1) as [w|] eqn:Ew.
    2: { injection E as <- <-. eapply runs_step; [cbn [tstep]; by rewrite Ew|]. apply runs_refl. }
    destruct (Window.Allow now w) as [[[]| |] w'] eqn:Ea; injection E as <- <-;
      (eapply runs_step; [cbn [tstep]; rewrite Ew, Ea; reflexivity|]); try apply runs_refl.
    run_step. apply runs_refl.
Qed.

Lemma runs_allow now b r b' :
  Allow now b = (Ok r, b') -> typed b ->
  runs b (A_blocked now) b' (A_done (fst r) (snd r)).
Proof.
  unfold Allow, recover_with. intros E Ht.
  assert (exists o, allow_body retries now b = (o, b') /\ r = recovered o) as (o & Eo & ->).
  { destruct (allow_body retries now b) as [[]?]; try discriminate; injection E as <- <-; eauto. }
  clear E. revert Eo. unfold allow_body, bind, gets. intros E. run_step.
  destruct (blocked b); [injection E as <- <-; apply runs_refl|].
  run_step. unfold load_config, bind, gets in E.
  destruct (configPtr b) as [cfg|]; [|injection E as <- <-; apply runs_refl].
  cbn [ret] in E. cbv zeta in E. fold (request_size cfg) in E.
  destruct (0 <? RefillInterval cfg).
  - unfold retries in E at 1. rewrite lazyRefill_alone in E. cbn [modify] in E.
    eapply runs_trans; [apply runs_refill|]. run_step. by eapply runs_consume.
  - cbn [ret modify] in E. run_step. by eapply runs_consume.
Qed.

(** ** Properties *)

(** C1: the rate guarantee holds under every interleaving.  However many
    goroutines use a fresh bucket concurrently, and however their atomic
    accesses interleave, for a configuration on which no arithmetic overflows
    ([safe]) the balance never goes negative and the granted
    requests never cost more than the capacity plus the refills of the time
    elapsed: no overdraft (D1) and no inflation. *)
Theorem conc_rate_guarantee (cfg : Config) (t0 tmax : Time) (b0 b : Bucket) (pool : list pc)
  (Hnew : New cfg t0 tt = (Ok b0, tt))
  (Hsafe : safe (normalize cfg)) (Ht0 : 0 <= t0 <= tmax) (Htmax : tmax <= int64_max)
  (Hint : 0 < RefillInterval cfg)
  (Hreach : reachable tmax (b0, []) (b, pool)) :
  0 <= tokens b /\
  TokensPerRequest (normalize cfg) * grants pool <=
    MaxTokens cfg + (tmax - t0) / RefillInterval cfg * RefillRate cfg.
Proof.
  apply New_fresh in Hnew as ->. pose proof (reachable_inv _ _ _ Hsafe Ht0 Htmax _ _ (inv_init _ _ _ Hsafe Ht0 Htmax) Hreach) as Hinv.
  pose proof (inv_grants _ _ _ Hsafe _ Hinv) as Hg.
  destruct Hinv as (_ & _ & K & HK & _ & Hlast & Hle & Ht & Hsum). cbn [fst snd] in *.
  split; [done|].
  destruct (normalize_fields cfg) as (E1 & E2 & E3 & _).
  rewrite E1, E2, E3 in *. pose proof (safe_rate _ Hsafe) as Hr. rewrite E2 in Hr.
  pose proof (Z.div_le_lower_bound (tmax - t0) (RefillInterval cfg) K Hint ltac:(lia)). nia.
Qed.

(** C2: no interval is refilled twice (D11).  In every reachable state the
    refill clock has advanced by a whole number [K] of intervals and is not
    ahead of the clock, and the balance together with everything granted is
    covered by the capacity plus exactly those [K] refills. *)
Theorem conc_no_double_refill (cfg : Config) (t0 tmax : Time) (b0 b : Bucket) (pool : list pc)
  (Hnew : New cfg t0 tt = (Ok b0, tt))
  (Hsafe : safe (normalize cfg)) (Ht0 : 0 <= t0 <= tmax) (Htmax : tmax <= int64_max)
  (Hreach : reachable tmax (b0, []) (b, pool)) :
  exists K, 0 <= K /\ lastRefillTime b = t0 + K * RefillInterval cfg /\
    lastRefillTime b <= tmax /\
    tokens b + TokensPerRequest (normalize cfg) * grants pool <=
      MaxTokens cfg + K * RefillRate cfg.
Proof.
  apply New_fresh in Hnew as ->. pose proof (reachable_inv _ _ _ Hsafe Ht0 Htmax _ _ (inv_init _ _ _ Hsafe Ht0 Htmax) Hreach) as Hinv.
  pose proof (inv_grants _ _ _ Hsafe _ Hinv) as Hg.
  destruct Hinv as (_ & _ & K & HK & _ & Hlast & Hle & Ht & Hsum). cbn [fst snd] in *.
  destruct (normalize_fields cfg) as (E1 & E2 & E3 & _).
  rewrite E1, E2, E3 in *. exists K. split_and!; [done..|lia].
Qed.

(** C30: without a sliding window the balance stays within the capacity under
    every interleaving. *)
Theorem conc_capacity (cfg : Config) (t0 tmax : Time) (b0 b : Bucket) (pool : list pc)
  (Hnew : New cfg t0 tt = (Ok b0, tt))
  (Hsafe : safe (normalize cfg)) (Hwin : CfgWindow cfg = None)
  (Hreach : reachable tmax (b0, []) (b, pool)) :
  tokens b <= MaxTokens cfg.
Proof.
  apply New_fresh in Hnew as ->. destruct (normalize_fields cfg) as (E & _ & _ & Ew). rewrite <- E. pose proof (safe_max _ Hsafe).
  destruct (reachable_within _ Hsafe _ _ _ Hreach) as [(_ & _ & _ & ?) _]; [|constructor|done].
  split_and!; cbn; [done| |lia64|lia].
  unfold fresh_window. by rewrite Ew, Hwin.
Qed.

(** Obstruction freedom.  From any state whatsoever, a call that runs
    without interference returns within 11 atomic steps, wherever the others
    have left it. *)
Theorem conc_obstruction_free (b : Bucket) (p : pc) : returned (snd (solo 11 b p)) = true.
Proof.
  apply solo_rank. destruct p; cbn; repeat case_match; lia.
Qed.

(** C27: the interleaved program refines the sequential model.  A call of
    [Allow] that runs alone takes the bucket to the state, and gives the
    answer, of the function of file [Bucket]. *)
Theorem conc_solo_is_sequential (now : Time) (b b' : Bucket) (r : bool * Duration)
  (Htyped : typed b) (Hseq : Allow now b = (Ok r, b')) :
  solo 11 b (A_blocked now) = (b', A_done (fst r) (snd r)).
Proof. apply runs_solo; [by apply runs_allow|done|cbn; lia]. Qed.

(** ** Executing a given interleaving *)

Inductive event := Call (p : pc) | Run (i : nat).

Definition exec_event (s : sys) (e : event) : option sys :=
  match e with
  | Call p => Some (fst s, snd s ++ [p])
  | Run i =>
      match snd s !! i with
      | Some p =>
          match tstep (fst s) p with
          | Some (b', p') => Some (b', <[i := p']> (snd s))
          | None => None
          end
      | None => None
      end
  end.

Fixpoint exec (s : sys) (es : list event) : option sys :=
  match es with
  | [] => Some s
  | e :: es => match exec_event s e with Some s' => exec s' es | None => None end
  end.

Definition event_ok (tmax : Time) (e : event) : Prop :=
  match e with Call p => call tmax p | Run _ => True end.

Lemma exec_reachable tmax s0 s es s' :
  reachable tmax s0 s -> Forall (event_ok tmax) es -> exec s es = Some s' ->
  reachable tmax s0 s'.
Proof.
  intros Hr Hes. revert s Hr. induction Hes as [|e es He _ IH]; intros s Hr E; cbn [exec] in E.
  - by injection E as <-.
  - destruct (exec_event s e) as [s1|] eqn:E1; [|done]. apply (IH s1); [|done].
    eapply reach_step; [exact Hr|]. destruct s as [b pool]. destruct e as [p|i]; cbn in *.
    + injection E1 as <-. by constructor.
    + destruct (pool !! i) as [p|] eqn:Ei; [|done].
      destruct (tstep b p) as [[b' p']|] eqn:Et; [|done]. injection E1 as <-.
      by eapply step_run.
Qed.

(** Running call [i] for [n] steps. *)
Definition run_for (i n : nat) : list event := replicate n (Run i).

Lemma run_for_ok tmax i n : Forall (event_ok tmax) (run_for i n).
Proof. unfold run_for. by apply Forall_replicate. Qed.

Ltac events_ok :=
  repeat first
    [apply run_for_ok | apply Forall_app_2 | apply Forall_cons_2 | apply Forall_nil_2];
  zcompute.

Definition win_cfg : Config :=
  {| MaxTokens := 1; RefillRate := 1; RefillInterval := 10 * Second; TokensPerRequest := 1;
     CfgWindow := Some {| Window.Enabled := true; Window.WindowDuration := Second;
                          Window.MaxRequests := 0; Window.BufferSize := 0 |} |}.

(** An [Allow] stopped just before its refund, a scheduled refill, then the
    refund. *)
Definition overshoot : list event :=
  [Call (A_blocked (ex_now + 10 * Second))] ++ run_for 0 10 ++
  [Call (S_config (ex_now + 20 * Second))] ++ run_for 1 5 ++ run_for 0 1.

(** C31: the refund of a request rejected by the sliding window is a plain
    addition, not clamped: when a refill to full capacity comes between the
    consumption and the refund, the balance exceeds [MaxTokens].  (A run by a
    single goroutine cannot do this, see C3.) *)
Theorem refund_exceeds_capacity :
  exists b0 b pool, New win_cfg ex_now tt = (Ok b0, tt) /\
    reachable (ex_now + 20 * Second) (b0, []) (b, pool) /\
    MaxTokens win_cfg < tokens b.
Proof.
  destruct (exec (fresh win_cfg ex_now, []) overshoot) as [[b pool]|] eqn:E; [|vm_compute in E; done].
  exists (fresh win_cfg ex_now), b, pool. split_and!; [reflexivity|..].
  - eapply exec_reachable; [apply reach_refl| |exact E].
    unfold overshoot. events_ok.
  - vm_compute in E. injection E as <- <-. zcompute.
Qed.

(** ** Witnesses *)

Definition race : list event :=
  [Call (A_blocked (ex_now + 2 * Minute)); Call (A_blocked (ex_now + 2 * Minute));
   Run 0; Run 1; Run 0; Run 1; Run 0; Run 1; Run 0; Run 1] ++ run_for 1 5 ++ run_for 0 6.

(** The bucket and the pool after [race]: the two calls raced on the refill
    clock, one lost and retried, both were granted. *)
Definition race_end : sys := default (fresh ex_cfg ex_now, []) (exec (fresh ex_cfg ex_now, []) race).

Lemma race_reachable :
  reachable (ex_now + 2 * Minute) (fresh ex_cfg ex_now, []) (fst race_end, snd race_end).
Proof.
  eapply (exec_reachable _ _ (fresh ex_cfg ex_now, []) race); [apply reach_refl| |vm_compute; reflexivity].
  unfold race. events_ok.
Qed.

Example race_grants : grants (snd race_end) = 2 /\ tokens (fst race_end) = 2.
Proof. vm_compute. done. Qed.

Lemma conc_rate_guarantee_witness :
  0 <= tokens (fst race_end) /\
  TokensPerRequest (normalize ex_cfg) * grants (snd race_end) <=
    MaxTokens ex_cfg + (ex_now + 2 * Minute - ex_now) / RefillInterval ex_cfg * RefillRate ex_cfg.
Proof.
  apply (conc_rate_guarantee ex_cfg ex_now (ex_now + 2 * Minute) (fresh ex_cfg ex_now));
    [reflexivity|exact ex_safe|zcompute|zcompute|zcompute|exact race_reachable].
Defined.

Lemma conc_no_double_refill_witness :
  exists K, 0 <= K /\ lastRefillTime (fst race_end) = ex_now + K * RefillInterval ex_cfg /\
    lastRefillTime (fst race_end) <= ex_now + 2 * Minute /\
    tokens (fst race_end) + TokensPerRequest (normalize ex_cfg) * grants (snd race_end) <=
      MaxTokens ex_cfg + K * RefillRate ex_cfg.
Proof.
  apply (conc_no_double_refill ex_cfg ex_now (ex_now + 2 * Minute) (fresh ex_cfg ex_now));
    [reflexivity|exact ex_safe|zcompute|zcompute|exact race_reachable].
Defined.

Lemma conc_capacity_witness : tokens (fst race_end) <= MaxTokens ex_cfg.
Proof.
  apply (conc_capacity ex_cfg ex_now (ex_now + 2 * Minute) (fresh ex_cfg ex_now) _ (snd race_end));
    [reflexivity|exact ex_safe|reflexivity|exact race_reachable].
Defined.

Lemma conc_solo_is_sequential_witness :
  solo 11 ex_bucket (A_blocked ex_now) =
    (snd (Allow ex_now ex_bucket), A_done true 0).
Proof.
  apply (conc_solo_is_sequential ex_now ex_bucket (snd (Allow ex_now ex_bucket)) (true, 0));
    [intros w; discriminate|vm_compute; reflexivity].
Defined.
