(* ===== verification/MultiBucket.v ===== *)
(** * internal/multibucket: the tiers of one client

    [ClientBuckets] maps tier names to buckets; the buckets belong to it
    alone, so a bucket pointer obtained from the map is modelled by running
    the bucket's computation on that entry ([at_tier]). *)

From stdpp Require Import base tactics gmap strings list.
From Stdlib Require Import ZArith Lia.
From S2P Require Import Prelude GoTime Window Bucket.

Local Open Scope Z_scope.
Local Open Scope go_monad_scope.

Definition DefaultTier : string := "default".

Record ClientBuckets := {
  clientKey : string;
  buckets : gmap string Bucket
}.

Definition set_buckets v cb : ClientBuckets :=
  {| clientKey := clientKey cb; buckets := v |}.

Definition New (clientKey : string) : ClientBuckets :=
  {| clientKey := clientKey; buckets := ∅ |}.

Definition Key (cb : ClientBuckets) : string := clientKey cb.

(** [if tier == "" { tier = DefaultTier }] *)
Definition norm_tier (tier : string) : string :=
  if bool_decide (tier = "") then DefaultTier else tier.

Definition Configure (tier : string) (cfg : Bucket.Config) (now : Time)
  : M ClientBuckets unit :=
  let tier := norm_tier tier in
  let! b := Bucket.New cfg now in
  modify (fun cb => set_buckets (<[tier := b]> (buckets cb)) cb).

(** The method [Bucket]. *)
Definition lookup_bucket (tier : string) (cb : ClientBuckets) : option Bucket :=
  buckets cb !! norm_tier tier.

(** A method call on the bucket stored under [tier]; calling through a missing
    entry is Go's nil dereference. *)
Definition at_tier {A} (tier : string) (c : M Bucket A) : M ClientBuckets A :=
  fun cb =>
    match buckets cb !! tier with
    | Some b => let '(r, b') := c b in (r, set_buckets (<[tier := b']> (buckets cb)) cb)
    | None => (Panic, cb)
    end.

Definition Allow (tier : string) (now : Time) : M ClientBuckets (bool * Duration) :=
  let tier := norm_tier tier in
  let! bs := gets buckets in
  match bs !! tier with
  | Some _ => at_tier tier (Bucket.Allow now)
  | None =>
      match bs !! DefaultTier with
      | Some _ => at_tier DefaultTier (Bucket.Allow now)
      | None => ret (false, Second)
      end
  end.

Section Ranges.
Context `{MapRange}.

Definition BlockAll : M ClientBuckets unit :=
  let! bs := gets buckets in
  for_each (range bs) (fun kb => at_tier (fst kb) Bucket.Block).

Definition UnblockAll : M ClientBuckets unit :=
  let! bs := gets buckets in
  for_each (range bs) (fun kb => at_tier (fst kb) Bucket.Unblock).

Definition Tiers (cb : ClientBuckets) : list string := (range (buckets cb)).*1.

(** Returns at the first blocked bucket it meets. *)
Definition IsBlocked (cb : ClientBuckets) : bool :=
  existsb (fun kb => blocked (snd kb)) (range (buckets cb)).

Definition LastAccess (cb : ClientBuckets) : Time :=
  foldl (fun latest kb =>
           let t := Bucket.LastAccess (snd kb) in
           if Time.After t latest then t else latest)
        zeroTime (range (buckets cb)).
End Ranges.

(** ** Lemmas *)

(** The bucket a request for [tier] is charged to. *)
Definition effective_tier (cb : ClientBuckets) (tier : string) : string :=
  if decide (is_Some (buckets cb !! norm_tier tier)) then norm_tier tier else DefaultTier.

Lemma Allow_effective tier now cb :
  Allow tier now cb =
    match buckets cb !! effective_tier cb tier with
    | Some b =>
        let '(r, b') := Bucket.Allow now b in
        (r, set_buckets (<[effective_tier cb tier := b']> (buckets cb)) cb)
    | None => (Ok (false, Second), cb)
    end.
Proof.
  unfold Allow, bind, gets, effective_tier. cbv zeta.
  destruct (buckets cb !! norm_tier tier) as [b|] eqn:E.
  - rewrite decide_True by eauto. unfold at_tier. by rewrite E.
  - rewrite decide_False by (intros [? ?]; congruence).
    destruct (buckets cb !! DefaultTier) as [b|] eqn:Ed; [|done].
    unfold at_tier. by rewrite Ed.
Qed.

(** A loop that sets the block flag of the listed entries. *)
Lemma for_each_set_blocked v (l : list (string * Bucket)) cb :
  Forall (fun kb => is_Some (buckets cb !! fst kb)) l ->
  exists bs, for_each l (fun kb => at_tier (fst kb) (modify (set_blocked v))) cb
             = (Ok tt, set_buckets bs cb) /\
    forall k, bs !! k = if decide (k ∈ l.*1) then set_blocked v <$> buckets cb !! k
                        else buckets cb !! k.
Proof.
  revert cb. induction l as [|[k b] l IH]; intros cb Hall; cbn [for_each].
  - exists (buckets cb). split; [by destruct cb|]. intros. by rewrite decide_False by set_solver.
  - apply Forall_cons in Hall as [[b0 Hb0] Hall]. cbn [fst] in *.
    unfold bind. unfold at_tier at 1. rewrite Hb0. cbn [modify].
    set (cb1 := set_buckets (<[k:=set_blocked v b0]> (buckets cb)) cb).
    destruct (IH cb1) as (bs & E & Hbs).
    { eapply Forall_impl; [exact Hall|]. intros [k' b'] [b1 Hb1]. cbn in *.
      rewrite lookup_insert. case_decide; eauto. }
    exists bs. rewrite E. split; [done|]. intros k'. rewrite Hbs. cbn.
    rewrite lookup_insert. destruct (decide (k = k')) as [<-|Hne].
    + rewrite (decide_True (P := k ∈ k :: _)) by (apply elem_of_cons; auto).
      rewrite Hb0. cbn. case_decide; [|done]. by destruct b0.
    + do 2 case_decide; try done; exfalso; rewrite elem_of_cons in *; intuition congruence.
Qed.

Section RangeLemmas.
Context `{MapRange}.

Lemma range_entries (cb : ClientBuckets) :
  Forall (fun kb => is_Some (buckets cb !! fst kb)) (range (buckets cb)).
Proof.
  apply Forall_forall. intros [k b] Hin%elem_of_range. cbn. eauto.
Qed.

Lemma range_keys {V} (m : gmap string V) k : k ∈ (range m).*1 <-> is_Some (m !! k).
Proof.
  rewrite list_elem_of_fmap. split.
  - intros ([k' v] & -> & Hin%elem_of_range). eauto.
  - intros [v Hv]. exists (k, v). split; [done|]. by apply elem_of_range.
Qed.

Lemma set_all_run v cb :
  (let! bs := gets buckets in
   for_each (range bs) (fun kb => at_tier (fst kb) (modify (set_blocked v)))) cb
  = (Ok tt, set_buckets (set_blocked v <$> buckets cb) cb).
Proof.
  unfold bind at 1, gets at 1.
  destruct (for_each_set_blocked v (range (buckets cb)) cb (range_entries cb)) as (bs & -> & Hbs).
  do 2 f_equal. apply map_eq. intros k. rewrite Hbs, lookup_fmap.
  case_decide as Hk; [done|]. rewrite range_keys in Hk.
  destruct (buckets cb !! k) eqn:E; [|done]. exfalso. apply Hk. eauto.
Qed.

Lemma BlockAll_run cb :
  BlockAll cb = (Ok tt, set_buckets (set_blocked true <$> buckets cb) cb).
Proof. apply set_all_run. Qed.

Lemma UnblockAll_run cb :
  UnblockAll cb = (Ok tt, set_buckets (set_blocked false <$> buckets cb) cb).
Proof. apply set_all_run. Qed.

Lemma IsBlocked_iff cb :
  IsBlocked cb = true <-> exists k b, buckets cb !! k = Some b /\ blocked b = true.
Proof.
  unfold IsBlocked. rewrite existsb_exists. split.
  - intros ([k b] & Hin & Hb). exists k, b. split; [|done].
    by apply elem_of_range, list_elem_of_In.
  - intros (k & b & Hk & Hb). exists (k, b). split; [|done].
    by apply list_elem_of_In, elem_of_range.
Qed.

Lemma foldl_latest l t0 :
  let L := foldl (fun latest (kb : string * Bucket) =>
             let t := Bucket.LastAccess (snd kb) in
             if Time.After t latest then t else latest) t0 l in
  t0 <= L /\ Forall (fun kb => Bucket.LastAccess (snd kb) <= L) l /\
  (L = t0 \/ exists kb, kb ∈ l /\ Bucket.LastAccess (snd kb) = L).
Proof.
  revert t0. induction l as [|kb l IH]; intros t0; cbn [foldl]; cbv zeta.
  - split; [lia|]. split; [constructor|by left].
  - destruct (IH (if Time.After (Bucket.LastAccess kb.2) t0
                  then Bucket.LastAccess kb.2 else t0)) as (H1 & H2 & H3).
    revert H1 H2 H3. unfold Time.After. case_match eqn:E; intros H1 H2 H3.
    + split; [lia|]. split; [by constructor|]. right.
      destruct H3 as [->|(kb' & ? & ?)]; [exists kb|exists kb']; rewrite elem_of_cons; auto.
    + split; [done|]. split; [constructor; [lia|done]|].
      destruct H3 as [->|(kb' & ? & ?)]; [by left|right; exists kb'; rewrite elem_of_cons; auto].
Qed.
End RangeLemmas.

(** ** Configuring a tier *)

Lemma wp_Configure tier cfg now cb (Q : unit -> ClientBuckets -> Prop) :
  allocatable cfg = true ->
  Q tt (set_buckets (<[norm_tier tier := fresh cfg now]> (buckets cb)) cb) ->
  wp (Configure tier cfg now) cb Q.
Proof. intros Ha HQ. unfold Configure. apply wp_bind, wp_New; [done|]. exact HQ. Qed.

Lemma mp_Configure P tier cfg now cb (Q : unit -> ClientBuckets -> Prop) :
  (allocatable cfg = false -> P cb) ->
  (allocatable cfg = true ->
   Q tt (set_buckets (<[norm_tier tier := fresh cfg now]> (buckets cb)) cb)) ->
  may_panic P (Configure tier cfg now) cb Q.
Proof. intros HP HQ. unfold Configure. by apply mp_bind, mp_New. Qed.

(** ** The invariant of a client *)

(** Every bucket is usable, the default tier exists, and no bucket is stored
    under the empty tier name. *)
Definition client_ok (cb : ClientBuckets) : Prop :=
  is_Some (buckets cb !! DefaultTier) /\ buckets cb !! "" = None /\
  map_Forall (fun _ b => usable b) (buckets cb).

(** The refill interval of the bucket stored under a tier. *)
Definition bucket_interval (b : Bucket) : option Duration := RefillInterval <$> configPtr b.
Definition tier_interval (cb : ClientBuckets) (t : string) : option Duration :=
  buckets cb !! t ≫= bucket_interval.

Lemma norm_tier_nonempty t : norm_tier t <> "".
Proof. unfold norm_tier. by case_bool_decide. Qed.

Lemma norm_tier_id t : t <> "" -> norm_tier t = t.
Proof. unfold norm_tier. by case_bool_decide. Qed.

Lemma norm_tier_idemp t : norm_tier (norm_tier t) = norm_tier t.
Proof. apply norm_tier_id, norm_tier_nonempty. Qed.

Lemma wp_at_tier {A} t (c : M Bucket A) cb b (Q : A -> ClientBuckets -> Prop) :
  buckets cb !! t = Some b ->
  wp c b (fun a b' => Q a (set_buckets (<[t := b']> (buckets cb)) cb)) ->
  wp (at_tier t c) cb Q.
Proof. unfold wp, at_tier. intros ->. by destruct (c b) as [[] ?]. Qed.

Lemma client_ok_insert cb t b :
  client_ok cb -> t <> "" -> usable b -> client_ok (set_buckets (<[t := b]> (buckets cb)) cb).
Proof.
  intros (Hd & He & Hf) Ht Hb. split_and!; cbn.
  - rewrite lookup_insert_is_Some. destruct (decide (t = DefaultTier)); auto.
  - by rewrite lookup_insert_ne.
  - by apply map_Forall_insert_2.
Qed.

Lemma tier_interval_insert cb t b t' :
  tier_interval (set_buckets (<[t := b]> (buckets cb)) cb) t' =
    if decide (t = t') then bucket_interval b else tier_interval cb t'.
Proof. unfold tier_interval. cbn. rewrite lookup_insert. by case_decide. Qed.

(** Replacing a bucket by one with the same configuration. *)
Lemma tier_interval_same cb t b b' t' :
  buckets cb !! t = Some b -> configPtr b' = configPtr b ->
  tier_interval (set_buckets (<[t := b']> (buckets cb)) cb) t' = tier_interval cb t'.
Proof.
  intros Hb Hc. rewrite tier_interval_insert. case_decide; [subst|done].
  unfold tier_interval, bucket_interval. rewrite Hb. cbn. by rewrite Hc.
Qed.

Lemma client_ok_effective cb t : client_ok cb -> is_Some (buckets cb !! effective_tier cb t).
Proof. intros (Hd & _). unfold effective_tier. by case_decide. Qed.

Lemma effective_nonempty cb t : effective_tier cb t <> "".
Proof. unfold effective_tier. case_decide; [apply norm_tier_nonempty|done]. Qed.

(** [Allow] on a well-formed client: the charged bucket answers. *)
Lemma client_Allow_spec tier now cb b :
  client_ok cb -> buckets cb !! effective_tier cb tier = Some b ->
  wp (Allow tier now) cb (fun r cb' => exists b',
    Bucket.Allow now b = (Ok r, b') /\ request_frame b b' /\ client_ok cb' /\
    cb' = set_buckets (<[effective_tier cb tier := b']> (buckets cb)) cb).
Proof.
  intros Hok Hb. unfold wp. rewrite Allow_effective, Hb.
  assert (Hu : usable b) by (by eapply (proj2 (proj2 Hok)); exact Hb).
  pose proof (Allow_total now b Hu) as (r & b' & E & HF & Hu')%wp_value. rewrite E.
  exists b'. split_and!; [done|done| |done]. apply client_ok_insert; [done|apply effective_nonempty|done].
Qed.

(** ** Properties *)

(** [Allow] charges exactly one tier.  The request goes to the named tier
    if it is configured and to the default tier otherwise; that bucket answers
    and changes as [Bucket.Allow] does, every other tier is untouched; a
    client without a usable bucket is denied (fail closed). *)
Theorem client_allow_correct (tier : string) (now : Time) (cb : ClientBuckets) :
  (exists b r b',
    buckets cb !! effective_tier cb tier = Some b /\
    Bucket.Allow now b = (r, b') /\
    Allow tier now cb =
      (r, set_buckets (<[effective_tier cb tier := b']> (buckets cb)) cb) /\
    forall t, t <> effective_tier cb tier ->
      buckets (snd (Allow tier now cb)) !! t = buckets cb !! t) \/
  (buckets cb !! norm_tier tier = None /\ buckets cb !! DefaultTier = None /\
   Allow tier now cb = (Ok (false, Second), cb)).
Proof.
  rewrite Allow_effective. destruct (buckets cb !! effective_tier cb tier) as [b|] eqn:E.
  - left. destruct (Bucket.Allow now b) as [r b'] eqn:Eb. exists b, r, b'.
    split_and!; [done..|]. intros t Hne. cbn. by rewrite lookup_insert_ne by congruence.
  - right. unfold effective_tier in E. case_decide as Hd; [destruct Hd; congruence|].
    split_and!; [|done|done]. by apply eq_None_not_Some.
Qed.

(** An administrative block covers every tier, whatever order the map is
    visited in.  After [BlockAll] the client reports blocked, and a request
    for any tier is rejected and changes nothing; [UnblockAll] undoes it,
    keeping the balances. *)
Theorem block_all_correct `{MapRange} (cb : ClientBuckets) :
  exists cb1, BlockAll cb = (Ok tt, cb1) /\
    IsBlocked cb1 = negb (bool_decide (buckets cb = ∅)) /\
    (forall tier now, exists d, Allow tier now cb1 = (Ok (false, d), cb1)) /\
    exists cb2, UnblockAll cb1 = (Ok tt, cb2) /\ IsBlocked cb2 = false /\
      forall t, tokens <$> (buckets cb2 !! t) = tokens <$> (buckets cb !! t).
Proof.
  rewrite BlockAll_run. eexists. split; [reflexivity|]. split_and!.
  - destruct (bool_decide_reflect (buckets cb = ∅)) as [E|E]; cbn [negb].
    + apply not_true_iff_false. intros (k & b & Hk & _)%IsBlocked_iff.
      cbn in Hk. rewrite E, lookup_fmap, lookup_empty in Hk. done.
    + apply IsBlocked_iff. apply map_choose in E as (k & b & Hk).
      exists k, (set_blocked true b). cbn. by rewrite lookup_fmap, Hk.
  - intros tier now. rewrite Allow_effective. cbn [buckets set_buckets].
    match goal with |- context [effective_tier ?c tier] => set (t := effective_tier c tier) end.
    rewrite lookup_fmap. destruct (buckets cb !! t) as [b|] eqn:E; cbn [fmap option_fmap option_map].
    + exists 0.
      assert (Bucket.Allow now (set_blocked true b) = (Ok (false, 0), set_blocked true b)) as -> by done.
      by rewrite insert_id by (by rewrite lookup_fmap, E).
    + by exists Second.
  - rewrite UnblockAll_run. eexists. split; [reflexivity|]. split.
    + apply not_true_iff_false. intros (k & b & Hk & Hb)%IsBlocked_iff.
      cbn in Hk. rewrite !lookup_fmap in Hk. destruct (buckets cb !! k); [|done].
      by injection Hk as <-.
    + intros t. cbn. rewrite !lookup_fmap. by destruct (buckets cb !! t).
Qed.

(** [LastAccess], which drives the LRU eviction, is the latest access of
    any tier (or the zero time when no tier was ever accessed after it),
    whatever order the map is visited in. *)
Theorem client_last_access `{MapRange} (cb : ClientBuckets) :
  (forall t b, buckets cb !! t = Some b -> Bucket.LastAccess b <= LastAccess cb) /\
  zeroTime <= LastAccess cb /\
  (LastAccess cb = zeroTime \/
   exists t b, buckets cb !! t = Some b /\ Bucket.LastAccess b = LastAccess cb).
Proof.
  destruct (foldl_latest (range (buckets cb)) zeroTime) as (H1 & H2 & H3).
  split_and!; [|done|].
  - intros t b Hb. rewrite Forall_forall in H2. apply (H2 (t, b)). by apply elem_of_range.
  - destruct H3 as [|([t b] & Hin & E)]; [by left|right].
    exists t, b. split; [by apply elem_of_range|done].
Qed.
