(* ===== verification/Heap.v ===== *)
(** * internal/scheduler/heap.go and container/heap: the indexed min-heap

    [refillHeap] is a slice of pointers to [refillEntry]; the entries live in a
    store [mem], because the same entry is reachable from the heap, from the
    scheduler's [entries] map and from the list of due entries.  The functions
    of the standard library's [container/heap] are transcribed on top of the
    interface methods [Len], [Less], [Swap], [Push] and [Pop]. *)

From stdpp Require Import base tactics gmap strings list.
From Stdlib Require Import ZArith Lia.
From S2P Require Import Prelude GoTime.

Local Open Scope Z_scope.
Local Open Scope go_monad_scope.

Definition ptr := positive.

Record refillEntry := {
  id : string;
  nextRefillTime : Time;
  heapIndex : Z
}.

Definition set_nextRefillTime v e : refillEntry :=
  {| id := id e; nextRefillTime := v; heapIndex := heapIndex e |}.
Definition set_heapIndex v e : refillEntry :=
  {| id := id e; nextRefillTime := nextRefillTime e; heapIndex := v |}.

Record refillHeap := { h : list ptr; mem : gmap ptr refillEntry }.

Definition set_h v s : refillHeap := {| h := v; mem := mem s |}.
Definition set_mem v s : refillHeap := {| h := h s; mem := v |}.

(** Reading and updating the entry a pointer refers to; a dangling pointer is Go's nil dereference. *)
Definition deref (p : ptr) : M refillHeap refillEntry :=
  let! m := gets mem in
  match m !! p with Some e => ret e | None => panic end.
Definition update (p : ptr) (f : refillEntry -> refillEntry) : M refillHeap unit :=
  let! e := deref p in
  modify (fun s => set_mem (<[p := f e]> (mem s)) s).

(** [h[i]] *)
Definition at_ (i : Z) : M refillHeap ptr :=
  let! l := gets h in index l i.

(** ** The heap.Interface methods *)

Definition Len (s : refillHeap) : Z := zlen (h s).

Definition Less (i j : Z) : M refillHeap bool :=
  let! pi := at_ i in
  let! ei := deref pi in
  let! pj := at_ j in
  let! ej := deref pj in
  ret (Time.Before (nextRefillTime ei) (nextRefillTime ej)).

Definition Swap (i j : Z) : M refillHeap unit :=
  let! pj := at_ j in
  let! pi := at_ i in
  modify (fun s => set_h (zinsert i pj (h s)) s) ;;;
  modify (fun s => set_h (zinsert j pi (h s)) s) ;;;
  let! p := at_ i in
  update p (set_heapIndex i) ;;;
  let! q := at_ j in
  update q (set_heapIndex j).

(** The method [Push] of the interface ([h.Push]). *)
Definition push_back (entry : ptr) : M refillHeap unit :=
  let! n := gets Len in
  update entry (set_heapIndex n) ;;;
  modify (fun s => set_h (h s ++ [entry]) s).

(** The method [Pop] of the interface ([h.Pop]). *)
Definition pop_back : M refillHeap ptr :=
  let! n := gets Len in
  let! entry := at_ (n - 1) in
  update entry (set_heapIndex (-1)) ;;;
  modify (fun s => set_h (take (Z.to_nat (n - 1)) (h s)) s) ;;;
  ret entry.

(** ** container/heap *)

(** The index of a slice element's parent: [(j - 1) / 2], truncated. *)
Definition parent (j : Z) : Z := Z.quot (j - 1) 2.

Fixpoint up_loop (fuel : nat) (j : Z) : M refillHeap unit :=
  match fuel with
  | O => no_fuel
  | S fuel =>
      let i := parent j in
      if i =? j then ret tt
      else
        let! less := Less j i in
        if negb less then ret tt
        else Swap i j ;;; up_loop fuel i
  end.

Definition up (j : Z) : M refillHeap unit := up_loop (S (Z.to_nat j)) j.

Fixpoint down_loop (fuel : nat) (i n : Z) : M refillHeap Z :=
  match fuel with
  | O => no_fuel
  | S fuel =>
      let j1 := 2 * i + 1 in
      if (n <=? j1) || (j1 <? 0) then ret i
      else
        let j2 := j1 + 1 in
        let! right := (if j2 <? n then Less j2 j1 else ret false) in
        let j := if right : bool then j2 else j1 in
        let! less := Less j i in
        if negb less then ret i
        else Swap i j ;;; down_loop fuel j n
  end.

Definition down (i0 n : Z) : M refillHeap bool :=
  let! i := down_loop (S (Z.to_nat (n - i0))) i0 n in
  ret (i0 <? i).

Definition Push (x : ptr) : M refillHeap unit :=
  push_back x ;;;
  let! n := gets Len in
  up (n - 1).

Definition Pop : M refillHeap ptr :=
  let! len := gets Len in
  let n := len - 1 in
  Swap 0 n ;;;
  let! _b := down 0 n in
  pop_back.

Definition Remove (i : Z) : M refillHeap ptr :=
  let! len := gets Len in
  let n := len - 1 in
  (if n =? i then ret tt
   else
     Swap i n ;;;
     let! moved := down i n in
     if moved : bool then ret tt else up i) ;;;
  pop_back.

Definition Fix (i : Z) : M refillHeap unit :=
  let! len := gets Len in
  let! moved := down i len in
  if moved : bool then ret tt else up i.

(** ** Invariants *)

(** Every pointer of the heap is live and its entry records its position
    (so no pointer occurs twice). *)
Definition linked (s : refillHeap) : Prop :=
  forall i p, zlookup (h s) i = Some p ->
    exists e, mem s !! p = Some e /\ heapIndex e = i.

(** What an entry says apart from its position. *)
Definition data (e : refillEntry) : string * Time := (id e, nextRefillTime e).

Definition time_of (s : refillHeap) (i : Z) : option Time :=
  match zlookup (h s) i with
  | Some p => nextRefillTime <$> mem s !! p
  | None => None
  end.

(** The time at position [i] (positions outside of the heap are not used). *)
Definition key (s : refillHeap) (i : Z) : Z := default 0 (time_of s i).

(** The first [n] positions satisfy the heap order. *)
Definition heap_ordered (n : Z) (s : refillHeap) : Prop :=
  forall c, 0 < c < n -> key s (parent c) <= key s c.

(** Rearranging: the same pointers, in another order, on unchanged data; every
    entry outside of the heap is untouched. *)
Definition rearranged (s s' : refillHeap) : Prop :=
  h s' ≡ₚ h s /\ data <$> mem s' = data <$> mem s /\
  forall p, p ∉ h s -> mem s' !! p = mem s !! p.

(** ** Lemmas *)

Lemma wp_index {S A} (l : list A) i x (s : S) (Q : A -> S -> Prop) :
  zlookup l i = Some x -> Q x s -> wp (index l i) s Q.
Proof. unfold index. by intros ->. Qed.

Lemma wp_at s i p (Q : ptr -> refillHeap -> Prop) :
  zlookup (h s) i = Some p -> Q p s -> wp (at_ i) s Q.
Proof. intros. unfold at_. wp_steps. by eapply wp_index. Qed.

Lemma wp_deref s p e (Q : refillEntry -> refillHeap -> Prop) :
  mem s !! p = Some e -> Q e s -> wp (deref p) s Q.
Proof. intros E H. unfold deref. wp_steps. by rewrite E. Qed.

Lemma wp_update s p e f (Q : unit -> refillHeap -> Prop) :
  mem s !! p = Some e -> Q tt (set_mem (<[p := f e]> (mem s)) s) -> wp (update p f) s Q.
Proof. intros E H. unfold update. wp_steps. eapply wp_deref; [done|]. by wp_steps. Qed.

Lemma linked_inj s i j p :
  linked s -> zlookup (h s) i = Some p -> zlookup (h s) j = Some p -> i = j.
Proof. intros L Hi%L Hj%L. destruct Hi as (? & ? & ?), Hj as (? & ? & ?). by simplify_eq. Qed.

Lemma zlookup_elem {A} (l : list A) x : x ∈ l <-> exists i, zlookup l i = Some x.
Proof.
  rewrite list_elem_of_lookup. split; intros [i E].
  - exists (Z.of_nat i). rewrite zlookup_nonneg by lia. by rewrite Nat2Z.id.
  - pose proof (zlookup_Some _ _ _ E). rewrite zlookup_nonneg in E by lia. eauto.
Qed.

Lemma linked_NoDup s : linked s -> NoDup (h s).
Proof.
  intros L. apply NoDup_alt. intros i j p Hi Hj.
  pose proof (linked_inj s (Z.of_nat i) (Z.of_nat j) p L) as Hinj.
  rewrite !zlookup_nonneg, !Nat2Z.id in Hinj by lia. specialize (Hinj Hi Hj). lia.
Qed.

Lemma rearranged_refl s : rearranged s s.
Proof. done. Qed.

Lemma rearranged_trans s1 s2 s3 : rearranged s1 s2 -> rearranged s2 s3 -> rearranged s1 s3.
Proof.
  intros (P1 & D1 & F1) (P2 & D2 & F2). split_and!; [by etrans|by etrans|].
  intros p Hp. rewrite F2; [auto|]. by rewrite P1.
Qed.

Lemma rearranged_len s s' : rearranged s s' -> zlen (h s') = zlen (h s).
Proof. intros (P & _). unfold zlen. by rewrite P. Qed.

Lemma rearranged_data s s' p :
  rearranged s s' -> data <$> mem s' !! p = data <$> mem s !! p.
Proof. intros (_ & D & _). by rewrite <- !lookup_fmap, D. Qed.

Lemma data_insert (m : gmap ptr refillEntry) p e' e :
  m !! p = Some e -> data e' = data e -> data <$> <[p := e']> m = data <$> m.
Proof.
  intros E D. apply map_eq. intros q. rewrite !lookup_fmap, lookup_insert.
  case_decide; [|done]. subst. rewrite E. cbn. by rewrite D.
Qed.

(** The position permutation of an exchange. *)
Definition exchange (i j k : Z) : Z := if k =? i then j else if k =? j then i else k.

Lemma wp_Less s i j (Q : bool -> refillHeap -> Prop) :
  linked s -> 0 <= i < zlen (h s) -> 0 <= j < zlen (h s) ->
  Q (key s i <? key s j) s ->
  wp (Less i j) s Q.
Proof.
  intros L Hi Hj HQ.
  destruct (zlookup_is_Some (h s) i Hi) as [p Hp], (zlookup_is_Some (h s) j Hj) as [q Hq].
  destruct (L _ _ Hp) as (e & He & _), (L _ _ Hq) as (f & Hf & _).
  unfold Less. wp_steps. eapply wp_at; [done|].
  wp_steps. eapply wp_deref; [done|]. wp_steps. eapply wp_at; [done|].
  wp_steps. eapply wp_deref; [done|]. wp_steps.
  revert HQ. unfold key, time_of. by rewrite Hp, Hq, He, Hf.
Qed.

Lemma zlookup_swap {A} (l : list A) i j k pi pj :
  zlookup l i = Some pi -> zlookup l j = Some pj ->
  zlookup (zinsert j pi (zinsert i pj l)) k = zlookup l (exchange i j k).
Proof.
  intros Hi Hj. pose proof (zlookup_Some _ _ _ Hi). pose proof (zlookup_Some _ _ _ Hj).
  unfold exchange. destruct (Z.ltb_spec k 0).
  { rewrite zlookup_None by lia. bcase; try lia. by rewrite zlookup_None by lia. }
  rewrite !zlookup_zinsert by (autorewrite with zlen; lia). bcase; by subst.
Qed.

Lemma exchange_perm s s' i j :
  linked s -> linked s' ->
  (forall k, zlookup (h s') k = zlookup (h s) (exchange i j k)) -> h s' ≡ₚ h s.
Proof.
  intros L L' Hl. apply NoDup_Permutation; [by apply linked_NoDup..|].
  intros r. rewrite !zlookup_elem. split; intros [k Hk].
  - rewrite Hl in Hk. eauto.
  - exists (exchange i j k). rewrite Hl, <- Hk. f_equal. unfold exchange. bcase; congruence.
Qed.

Lemma time_of_data s s' k k' :
  data <$> mem s' = data <$> mem s -> zlookup (h s') k' = zlookup (h s) k ->
  time_of s' k' = time_of s k.
Proof.
  intros D E. unfold time_of. rewrite E. destruct (zlookup (h s) k) as [r|]; [|done].
  assert (Hr : snd <$> (data <$> mem s' !! r) = snd <$> (data <$> mem s !! r))
    by (by rewrite <- !lookup_fmap, D).
  by rewrite <- !option_fmap_compose in Hr.
Qed.

Lemma Swap_spec s i j :
  linked s -> 0 <= i < zlen (h s) -> 0 <= j < zlen (h s) ->
  wp (Swap i j) s (fun _ s' =>
    linked s' /\ rearranged s s' /\
    (forall k, key s' k = key s (exchange i j k)) /\
    forall k, zlookup (h s') k = zlookup (h s) (exchange i j k)).
Proof.
  intros L Hi Hj.
  destruct (zlookup_is_Some (h s) i Hi) as [p Hp], (zlookup_is_Some (h s) j Hj) as [q Hq].
  destruct (L _ _ Hp) as (e & He & Ei), (L _ _ Hq) as (f & Hf & Fj).
  pose proof (fun k => zlookup_swap (h s) i j k p q Hp Hq) as Hl.
  unfold Swap. wp_steps. eapply wp_at; [done|]. wp_steps. eapply wp_at; [done|]. wp_steps.
  set (l := zinsert j p (zinsert i q (h s))) in *.
  apply wp_at with (p := q); cbn [h set_h].
  { fold l. rewrite Hl. unfold exchange. by rewrite Z.eqb_refl. }
  wp_steps. eapply wp_update; [done|]. wp_steps. apply wp_at with (p := p); cbn [h set_h set_mem].
  { fold l. rewrite Hl. unfold exchange. rewrite Z.eqb_refl. bcase; congruence. }
  cbn [mem set_h set_mem].
  assert (exists e', <[q := set_heapIndex i f]> (mem s) !! p = Some e' /\ data e' = data e) as (e' & He' & De').
  { rewrite lookup_insert. case_decide; [|eauto]. subst. eexists. split; [done|]. by simplify_eq. }
  eapply wp_update; [cbn; done|]. cbn [h mem set_h set_mem]. fold l.
  set (m' := <[p := set_heapIndex j e']> (<[q := set_heapIndex i f]> (mem s))).
  assert (data <$> m' = data <$> mem s) as Hd.
  { unfold m'. rewrite (data_insert _ _ _ e'), (data_insert _ _ _ f) by done. done. }
  assert (linked (set_mem m' (set_h l (set_mem (<[q := set_heapIndex i f]> (mem s)) s)))) as L'.
  { intros k r Hr. cbn in *. rewrite Hl in Hr. unfold m'. unfold exchange in Hr.
    destruct (Z.eqb_spec k i) as [->|]; [|destruct (Z.eqb_spec k j) as [->|]].
    - assert (r = q) as -> by congruence. destruct (decide (p = q)) as [->|].
      + rewrite lookup_insert_eq. eexists; split; [done|]. cbn. eauto using linked_inj.
      + rewrite lookup_insert_ne, lookup_insert_eq by done. eauto.
    - assert (r = p) as -> by congruence. rewrite lookup_insert_eq. eauto.
    - destruct (L _ _ Hr) as (g & Hg & Eg).
      assert (r <> p) by (intros ->; eapply n; eauto using linked_inj).
      assert (r <> q) by (intros ->; eapply n0; eauto using linked_inj).
      rewrite !lookup_insert_ne by done. eauto. }
  split_and!; [done|split_and!; [|done|]| |done].
  - eapply exchange_perm; [done..|]. intros k. apply Hl.
  - intros r Hr. cbn. unfold m'. rewrite !lookup_insert_ne; [done| |];
      intros <-; apply Hr, zlookup_elem; eauto.
  - intros k. unfold key. f_equal. eapply time_of_data; cbn; [done|]. apply Hl.
Qed.

(** ** Restoring the heap order *)

Lemma parent_0 : parent 0 = 0.
Proof. reflexivity. Qed.

Lemma parent_child c i : 0 < c -> parent c = i <-> c = 2 * i + 1 \/ c = 2 * i + 2.
Proof. unfold parent. intros. zlia. Qed.

Lemma parent_bounds c : 0 < c -> 0 <= parent c < c.
Proof. unfold parent. intros. zlia. Qed.

(** What an exchange leaves: [s'] holds the pointers of [s], rearranged and
    still linked, with the keys exchanged. *)
Definition kept (s s' : refillHeap) : Prop := linked s' /\ rearranged s s'.

Lemma kept_trans s1 s2 s3 : kept s1 s2 -> kept s2 s3 -> kept s1 s3.
Proof. intros [_ ?] [? ?]. split; [done|]. by eapply rearranged_trans. Qed.

Lemma kept_refl s : linked s -> kept s s.
Proof. by split. Qed.

Lemma kept_len s s' : kept s s' -> zlen (h s') = zlen (h s).
Proof. intros [_ ?]. by apply rearranged_len. Qed.

(** The order holds in [0, n) except that the element at [j] may be smaller
    than its parent; its children are fine with its parent. *)
Definition up_inv (n : Z) (s : refillHeap) (j : Z) : Prop :=
  (forall c, 0 < c < n -> c <> j -> key s (parent c) <= key s c) /\
  (forall c, 0 < c < n -> parent c = j -> 0 < j -> key s (parent j) <= key s c).

(** The order holds in [0, n) except that the element at [i] may be larger
    than its children or smaller than its parent; its children are fine with
    its parent. *)
Definition down_inv (n : Z) (s : refillHeap) (i : Z) : Prop :=
  (forall c, 0 < c < n -> c <> i -> parent c <> i -> key s (parent c) <= key s c) /\
  (forall c, 0 < c < n -> parent c = i -> 0 < i -> key s (parent i) <= key s c).

Lemma up_inv_swap n s s' j :
  0 < j < n -> up_inv n s j -> key s j < key s (parent j) ->
  (forall k, key s' k = key s (exchange (parent j) j k)) -> up_inv n s' (parent j).
Proof.
  intros Hj [H1 H2] Hlt Hk. pose proof (parent_bounds j ltac:(lia)) as Hp.
  split.
  - intros c Hc Hne. pose proof (parent_bounds c ltac:(lia)). rewrite !Hk. unfold exchange.
    specialize (H1 c Hc). specialize (H2 c Hc).
    bcase; try (subst c; lia); try (rewrite e in *); lia.
  - intros c Hc Hpc Hpos. pose proof (parent_bounds (parent j) ltac:(lia)). rewrite !Hk. unfold exchange.
    pose proof (H1 (parent j) ltac:(lia) ltac:(lia)). pose proof (H1 c Hc).
    pose proof (parent_bounds c ltac:(lia)).
    rewrite Hpc in *. bcase; try lia.
Qed.

Lemma up_inv_ordered n s j :
  up_inv n s j -> (0 < j < n -> key s (parent j) <= key s j) -> heap_ordered n s.
Proof. intros [H1 _] Hj c Hc. destruct (decide (c = j)) as [->|]; auto. Qed.

Lemma wp_Swap s i j (Q : unit -> refillHeap -> Prop) :
  linked s -> 0 <= i < zlen (h s) -> 0 <= j < zlen (h s) ->
  (forall s', kept s s' -> (forall k, key s' k = key s (exchange i j k)) ->
     (forall k, k <> i -> k <> j -> zlookup (h s') k = zlookup (h s) k) ->
     zlookup (h s') j = zlookup (h s) i -> Q tt s') ->
  wp (Swap i j) s Q.
Proof.
  intros L Hi Hj HQ. wp_use Swap_spec; [done..|].
  intros [] s' (L' & R & Hk & Hz). apply HQ; [by split|done| |].
  - intros k ? ?. rewrite Hz. unfold exchange. bcase; congruence.
  - rewrite Hz. unfold exchange. rewrite Z.eqb_refl. bcase; congruence.
Qed.

Lemma up_loop_spec n fuel : forall j s,
  linked s -> 0 <= j < n -> n <= zlen (h s) -> j < Z.of_nat fuel -> up_inv n s j ->
  wp (up_loop fuel j) s (fun _ s' => kept s s' /\ heap_ordered n s' /\
    forall k, j < k -> zlookup (h s') k = zlookup (h s) k).
Proof.
  induction fuel as [|fuel IH]; intros j s L Hj Hn Hf Hinv; [lia|]. cbn [up_loop].
  destruct (Z.eqb_spec (parent j) j) as [E|E].
  { wp_steps. split_and!; [by apply kept_refl| |done].
    eapply up_inv_ordered; [done|]. pose proof (parent_bounds j). lia. }
  assert (0 < j) as Hpos by (destruct (decide (j = 0)) as [->|]; [done|lia]).
  pose proof (parent_bounds j Hpos).
  wp_steps. apply wp_Less; [done|lia..|].
  destruct (Z.ltb_spec (key s j) (key s (parent j))); cbn [negb].
  - wp_steps. apply wp_Swap; [done|lia..|]. intros s1 K Hk Hz Hz'.
    wp_use IH; [apply K|lia|by rewrite (kept_len _ _ K)|lia|eapply up_inv_swap; [lia|done..]|].
    intros [] s' (K' & Ho & Hz2). split_and!; [by eapply kept_trans|done|].
    intros k Hlt. rewrite Hz2, Hz by lia. done.
  - wp_steps. split_and!; [by apply kept_refl| |done]. eapply up_inv_ordered; [done|auto].
Qed.

Lemma down_inv_swap n s s' i j :
  0 <= i -> j < n -> parent j = i -> 0 < j -> down_inv n s i -> key s j < key s i ->
  (forall c, 0 < c < n -> parent c = i -> key s j <= key s c) ->
  (forall k, key s' k = key s (exchange i j k)) ->
  down_inv n s' j /\ key s' (parent j) <= key s' j.
Proof.
  intros Hi Hj Hp Hpos [H1 H2] Hlt Hmin Hk.
  pose proof (parent_bounds j ltac:(lia)) as Hb. split; [split|].
  - intros c Hc Hne Hnp. pose proof (parent_bounds c ltac:(lia)). rewrite !Hk. unfold exchange.
    specialize (H1 c Hc). specialize (Hmin c Hc). pose proof (H2 j ltac:(lia) Hp).
    bcase; try (subst c; lia); try (rewrite e in *); lia.
  - intros c Hc Hpc _. rewrite !Hk, Hp. unfold exchange.
    pose proof (parent_bounds c ltac:(lia)). pose proof (H1 c Hc). rewrite Hpc in *. bcase; lia.
  - rewrite !Hk, Hp. unfold exchange. bcase; lia.
Qed.

Lemma down_inv_stop n s i :
  down_inv n s i -> (forall c, 0 < c < n -> parent c = i -> key s i <= key s c) -> up_inv n s i.
Proof.
  intros [H1 H2] Hc. split; [|done].
  intros c ? ?. destruct (decide (parent c = i)) as [E|]; [rewrite E|]; auto.
Qed.

(** The comparison that selects the smaller child. *)
Lemma wp_right s j2 n j1 (Q : bool -> refillHeap -> Prop) :
  linked s -> 0 <= j1 -> j2 = j1 + 1 -> j1 < n -> n <= zlen (h s) ->
  Q ((j2 <? n) && (key s j2 <? key s j1)) s ->
  wp (if j2 <? n then Less j2 j1 else ret false) s Q.
Proof.
  intros L H1 -> H2 Hn HQ. destruct (Z.ltb_spec (j1 + 1) n); [|by wp_steps].
  apply wp_Less; [done|lia|lia|done].
Qed.

Lemma down_loop_spec n fuel : forall i s,
  linked s -> 0 <= i -> n <= zlen (h s) -> n - i < Z.of_nat fuel -> (0 < fuel)%nat ->
  down_inv n s i ->
  wp (down_loop fuel i n) s (fun r s' => kept s s' /\
    ((r = i /\ s' = s /\ up_inv n s i) \/ (i < r /\ heap_ordered n s')) /\
    forall k, n <= k -> zlookup (h s') k = zlookup (h s) k).
Proof.
  induction fuel as [|fuel IH]; intros i s L Hi Hn Hf Hf0 Hinv; [lia|]. cbn [down_loop].
  assert (Hstop : (forall c, 0 < c < n -> parent c = i -> key s i <= key s c) ->
    kept s s /\ ((i = i /\ s = s /\ up_inv n s i) \/ (i < i /\ heap_ordered n s)) /\
    forall k, n <= k -> zlookup (h s) k = zlookup (h s) k).
  { intros Hc. split_and!; [by apply kept_refl| |done]. left. eauto using down_inv_stop. }
  destruct (Z.leb_spec n (2 * i + 1)); cbn [orb].
  { wp_steps. apply Hstop. intros c Hc Hp%parent_child; lia. }
  rewrite (proj2 (Z.ltb_ge _ 0)) by lia. wp_steps. apply wp_right; [done|lia..|].
  set (right := _ && _). set (j := if right then _ else _).
  assert (Hj : (j = 2 * i + 1 \/ j = 2 * i + 2) /\ j < n /\
    forall c, 0 < c < n -> parent c = i -> key s j <= key s c).
  { subst j right. replace (2 * i + 1 + 1) with (2 * i + 2) by lia.
    destruct (Z.ltb_spec (2 * i + 2) n), (Z.ltb_spec (key s (2 * i + 2)) (key s (2 * i + 1)));
      cbn [andb]; (split_and!; [lia..|]; intros c Hc Hp%parent_child; [destruct Hp; subst c; lia|lia]). }
  destruct Hj as (Hj & Hjn & Hmin). assert (parent j = i) as Hpj by (apply parent_child; lia).
  wp_steps. apply wp_Less; [done|lia..|].
  destruct (Z.ltb_spec (key s j) (key s i)); cbn [negb].
  - wp_steps. apply wp_Swap; [done|lia..|]. intros s1 K Hk Hz _.
    destruct (down_inv_swap n s s1 i j) as [Hinv1 Hok]; [lia|done|done|lia|done..|].
    wp_use IH; [apply K|lia|by rewrite (kept_len _ _ K)|lia|lia|done|].
    intros r s' (K' & Hcase & Hz2). split_and!; [by eapply kept_trans| |].
    + right. destruct Hcase as [(-> & -> & Hup)|[? ?]]; (split; [lia|]); [|done].
      by eapply up_inv_ordered.
    + intros k Hlt. rewrite Hz2, Hz by lia. done.
  - wp_steps. apply Hstop. intros c Hc Hp. specialize (Hmin c Hc Hp). lia.
Qed.

(** The sift of [Fix] and [Remove]: down, and up if nothing moved. *)
Lemma sift_spec n i s :
  linked s -> 0 <= i < n -> n <= zlen (h s) -> down_inv n s i ->
  wp (let! moved := down i n in if moved : bool then ret tt else up i) s
     (fun _ s' => kept s s' /\ heap_ordered n s' /\
        forall k, n <= k -> zlookup (h s') k = zlookup (h s) k).
Proof.
  intros L Hi Hn Hinv. unfold down. wp_steps. wp_use (down_loop_spec n); [done|lia..|done|].
  intros r s' (K & [(-> & -> & Hup)|[Hr Ho]] & Hz).
  - wp_steps. rewrite Z.ltb_irrefl. unfold up. wp_use (up_loop_spec n); [done|lia..|done|].
    intros [] s' (K' & ? & Hz'). split_and!; [done..|]. intros k ?. apply Hz'. lia.
  - wp_steps. rewrite (proj2 (Z.ltb_lt _ _)) by done. by wp_steps.
Qed.

(** ** The operations *)

(** A heap in order with its positions recorded. *)
Definition heap_ok (s : refillHeap) : Prop := linked s /\ heap_ordered (zlen (h s)) s.

(** The entries a scheduler sees through its heap: their data, by pointer. *)
Definition entry_at (s : refillHeap) (p : ptr) : option (string * Time) := data <$> mem s !! p.

Lemma ordered_down_inv n s i : heap_ordered n s -> 0 <= i -> down_inv n s i.
Proof.
  intros Ho Hi. split; [auto|]. intros c Hc Hp Hpos.
  pose proof (parent_bounds i Hpos). pose proof (parent_bounds c ltac:(lia)).
  pose proof (Ho c Hc). pose proof (Ho i ltac:(lia)). rewrite Hp in *. lia.
Qed.

(** The root carries the least time. *)
Lemma heap_min n s i : heap_ordered n s -> 0 <= i < n -> key s 0 <= key s i.
Proof.
  intros Ho. remember (Z.to_nat i) as m eqn:Hm. revert i Hm.
  induction m as [m IH] using lt_wf_ind. intros i -> Hi.
  destruct (decide (i = 0)) as [->|]; [lia|].
  pose proof (parent_bounds i ltac:(lia)). pose proof (Ho i ltac:(lia)).
  specialize (IH (Z.to_nat (parent i)) ltac:(lia) (parent i) eq_refl ltac:(lia)). lia.
Qed.

(** What an operation preserves of the store: the data of every entry. *)
Definition same_data (s s' : refillHeap) : Prop := data <$> mem s' = data <$> mem s.

Lemma kept_same_data s s' : kept s s' -> same_data s s'.
Proof. by intros [_ (_ & ? & _)]. Qed.

Lemma kept_perm s s' : kept s s' -> h s' ≡ₚ h s.
Proof. by intros [_ (? & _ & _)]. Qed.

Lemma key_same_data s s' k k' :
  same_data s s' -> zlookup (h s') k' = zlookup (h s) k -> key s' k' = key s k.
Proof. intros. unfold key. f_equal. by eapply time_of_data. Qed.

(** Updating the index of an entry outside of the heap. *)
Lemma linked_update_other s p v l :
  linked s -> (forall i q, zlookup l i = Some q -> zlookup (h s) i = Some q /\ q <> p) ->
  forall e, linked (set_h l (set_mem (<[p := set_heapIndex v e]> (mem s)) s)).
Proof.
  intros L Hl e i q Hq. cbn in *. destruct (Hl _ _ Hq) as [Hs Hne].
  rewrite lookup_insert_ne by done. by apply L.
Qed.

Lemma zlookup_take {A} (l : list A) n i :
  0 <= i < n -> zlookup (take (Z.to_nat n) l) i = zlookup l i.
Proof. intros. rewrite !zlookup_nonneg by lia. apply lookup_take_lt. lia. Qed.

Lemma zlen_take {A} (l : list A) n : 0 <= n <= zlen l -> zlen (take (Z.to_nat n) l) = n.
Proof. unfold zlen. intros. rewrite length_take. lia. Qed.

Lemma take_last_perm {A} (l : list A) x :
  zlookup l (zlen l - 1) = Some x -> l ≡ₚ x :: take (Z.to_nat (zlen l - 1)) l.
Proof.
  intros E. pose proof (zlookup_Some _ _ _ E). rewrite zlookup_nonneg in E by lia.
  rewrite <- (take_drop_middle _ _ _ E) at 1.
  rewrite drop_ge by (unfold zlen in *; lia). by rewrite <- Permutation_cons_append.
Qed.

Lemma pop_back_spec s p :
  linked s -> zlookup (h s) (zlen (h s) - 1) = Some p ->
  heap_ordered (zlen (h s) - 1) s ->
  wp pop_back s (fun r s' => r = p /\ heap_ok s' /\ h s ≡ₚ p :: h s' /\ same_data s s').
Proof.
  intros L Hp Ho. pose proof (zlookup_Some _ _ _ Hp).
  destruct (L _ _ Hp) as (e & He & Ee).
  unfold pop_back. wp_steps. unfold Len. eapply wp_at; [done|]. wp_steps.
  eapply wp_update; [done|]. wp_steps. cbn [h set_mem].
  set (l := take _ _). set (s' := set_h l _).
  assert (Hl : forall i q, zlookup l i = Some q -> zlookup (h s) i = Some q /\ q <> p).
  { intros i q Hq. pose proof (zlookup_Some _ _ _ Hq) as Hi. subst l.
    rewrite zlen_take in Hi by lia. rewrite zlookup_take in Hq by lia. split; [done|].
    intros ->. pose proof (linked_inj _ _ _ _ L Hp Hq). lia. }
  assert (D : same_data s s') by (by eapply data_insert).
  split_and!; [done|split|by apply take_last_perm|done].
  - by apply linked_update_other.
  - intros c. cbn [h s' set_h]. subst l. rewrite zlen_take by lia. intros Hc.
    pose proof (parent_bounds c ltac:(lia)).
    rewrite !(key_same_data s s') with (k := parent c) by (done || by apply zlookup_take; lia).
    rewrite !(key_same_data s s') with (k := c) by (done || by apply zlookup_take; lia).
    apply Ho. lia.
Qed.

Lemma same_data_trans s1 s2 s3 : same_data s1 s2 -> same_data s2 s3 -> same_data s1 s3.
Proof. unfold same_data. congruence. Qed.

Lemma heap_nonempty s : h s <> [] -> 0 < zlen (h s).
Proof. unfold zlen. destruct (h s); cbn; [done|lia]. Qed.

(** The time recorded for a pointer. *)
Definition ptr_time (s : refillHeap) (p : ptr) : Time := default 0 (nextRefillTime <$> mem s !! p).

Lemma key_ptr_time s i p : zlookup (h s) i = Some p -> key s i = ptr_time s p.
Proof. unfold key, time_of. by intros ->. Qed.

Lemma ptr_time_same_data s s' p : same_data s s' -> ptr_time s' p = ptr_time s p.
Proof.
  intros D. unfold ptr_time.
  assert (Hp : snd <$> (data <$> mem s' !! p) = snd <$> (data <$> mem s !! p))
    by (rewrite <- !lookup_fmap; by rewrite D).
  rewrite <- !option_fmap_compose in Hp. unfold compose, data in Hp. cbn in Hp.
  change (nextRefillTime <$> mem s' !! p = nextRefillTime <$> mem s !! p) in Hp. by rewrite Hp.
Qed.

Lemma Pop_spec s :
  heap_ok s -> h s <> [] ->
  wp Pop s (fun p s' => heap_ok s' /\ h s ≡ₚ p :: h s' /\ same_data s s' /\
    zlookup (h s) 0 = Some p /\ forall q, q ∈ h s -> ptr_time s p <= ptr_time s q).
Proof.
  intros [L Ho] Hne%heap_nonempty. destruct (zlookup_is_Some (h s) 0) as [p Hp]; [lia|].
  unfold Pop. wp_steps. unfold Len. apply wp_Swap; [done|lia..|]. intros s1 K Hk Hz Hlast.
  unfold down. wp_steps.
  wp_use (down_loop_spec (zlen (h s) - 1)); [apply K|lia|rewrite (kept_len _ _ K); lia|lia|lia| |].
  { split; [|lia]. intros c Hc Hc0 Hpc. pose proof (parent_bounds c ltac:(lia)). rewrite !Hk.
    unfold exchange. bcase; try lia. apply Ho. lia. }
  intros r s2 (K2 & Hcase & Hz2). wp_steps. pose proof (kept_len _ _ K) as Hn1.
  pose proof (kept_len _ _ K2) as Hn2.
  wp_use (pop_back_spec s2 p); [apply K2| | |].
  - rewrite Hn2, Hn1, Hz2 by lia. by rewrite Hlast.
  - rewrite Hn2, Hn1. destruct Hcase as [(-> & -> & Hup)|[? ?]]; [|done].
    eapply up_inv_ordered; [done|lia].
  - intros r' s' (-> & Hok & HP & D). split_and!; [done| | |done|].
    + by rewrite <- HP, (kept_perm _ _ K2), (kept_perm _ _ K).
    + eapply same_data_trans; [|done]. eapply same_data_trans; by apply kept_same_data.
    + intros q [i Hi]%zlookup_elem. pose proof (zlookup_Some _ _ _ Hi).
      rewrite <- !(key_ptr_time _ _ _ Hp), <- (key_ptr_time _ _ _ Hi).
      eapply heap_min; [done|lia].
Qed.

Lemma heap_Remove_spec s i p :
  heap_ok s -> zlookup (h s) i = Some p ->
  wp (Remove i) s (fun q s' => q = p /\ heap_ok s' /\ h s ≡ₚ p :: h s' /\ same_data s s').
Proof.
  intros [L Ho] Hp. pose proof (zlookup_Some _ _ _ Hp) as Hi.
  unfold Remove. wp_steps. unfold Len. destruct (Z.eqb_spec (zlen (h s) - 1) i) as [E|E].
  { wp_steps. apply pop_back_spec; [done|by rewrite E|]. intros c ?. apply Ho. lia. }
  wp_steps. apply wp_Swap; [done|lia..|]. intros s1 K Hk Hz Hlast.
  pose proof (kept_len _ _ K) as Hn1.
  wp_use (sift_spec (zlen (h s) - 1)); [apply K|lia..| |].
  { pose proof (ordered_down_inv _ _ i Ho ltac:(lia)) as [H1 H2]. split.
    - intros c Hc Hc0 Hpc. pose proof (parent_bounds c ltac:(lia)). rewrite !Hk.
      unfold exchange. bcase; try lia. apply Ho. lia.
    - intros c Hc Hpc Hpos. pose proof (parent_bounds i ltac:(lia)).
      pose proof (parent_bounds c ltac:(lia)). rewrite !Hk. unfold exchange.
      bcase; try lia. apply H2; lia. }
  intros [] s2 (K2 & Ho2 & Hz2). pose proof (kept_len _ _ K2) as Hn2.
  wp_use (pop_back_spec s2 p); [apply K2| |by rewrite Hn2, Hn1|].
  - rewrite Hn2, Hn1, Hz2 by lia. by rewrite Hlast.
  - intros r' s' (-> & Hok & HP & D). split_and!; [done|done| |].
    + by rewrite <- HP, (kept_perm _ _ K2), (kept_perm _ _ K).
    + eapply same_data_trans; [|done]. eapply same_data_trans; by apply kept_same_data.
Qed.

(** [Fix] after the time of one entry was changed. *)
Lemma Fix_spec s i :
  linked s -> 0 <= i < zlen (h s) -> down_inv (zlen (h s)) s i ->
  wp (Fix i) s (fun _ s' => heap_ok s' /\ h s' ≡ₚ h s /\ same_data s s').
Proof.
  intros L Hi Hinv. unfold Fix. apply wp_bind, wp_gets. unfold Len.
  wp_use (sift_spec (zlen (h s))); [done|lia..|done|].
  intros [] s' (K & Ho & _). split_and!; [|by apply kept_perm|by apply kept_same_data].
  split; [apply K|]. by rewrite (kept_len _ _ K).
Qed.

Lemma down_inv_update s i p e t :
  heap_ok s -> zlookup (h s) i = Some p -> mem s !! p = Some e ->
  let s' := set_mem (<[p := set_nextRefillTime t e]> (mem s)) s in
  linked s' /\ down_inv (zlen (h s)) s' i.
Proof.
  intros [L Ho] Hp He s'. pose proof (zlookup_Some _ _ _ Hp).
  assert (Hkey : forall k, k <> i -> key s' k = key s k).
  { intros k Hk. unfold key, time_of. cbn. destruct (zlookup (h s) k) as [q|] eqn:Hq; [|done].
    rewrite lookup_insert_ne; [done|]. intros <-. apply Hk. by eapply linked_inj. }
  split.
  - intros k q Hq. cbn in *. destruct (L _ _ Hq) as (f & Hf & Ef).
    rewrite lookup_insert. case_decide; [|eauto]. subst. simplify_eq. eauto.
  - pose proof (ordered_down_inv _ _ i Ho ltac:(lia)) as [H1 H2]. split.
    + intros c Hc Hne Hpc. rewrite !Hkey by done. auto.
    + intros c Hc Hpc Hpos. pose proof (parent_bounds i ltac:(lia)).
      pose proof (parent_bounds c ltac:(lia)). rewrite !Hkey by lia. auto.
Qed.

(** The state after [push_back]. *)
Lemma push_back_spec s p e (Q : unit -> refillHeap -> Prop) :
  linked s -> p ∉ h s -> mem s !! p = Some e ->
  (forall s', linked s' -> h s' = h s ++ [p] -> same_data s s' ->
     (forall k, 0 <= k < zlen (h s) -> key s' k = key s k) -> Q tt s') ->
  wp (push_back p) s Q.
Proof.
  intros L Hni He HQ. unfold push_back. wp_steps. unfold Len.
  eapply wp_update; [done|]. wp_steps. cbn [h set_mem set_h mem].
  pose proof (zlen_nonneg (h s)).
  assert (Hl : forall i q, 0 <= i < zlen (h s) -> zlookup (h s ++ [p]) i = Some q ->
    zlookup (h s) i = Some q /\ q <> p).
  { intros i q Hi Hq. assert (zlookup (h s) i = Some q) as E.
    { rewrite zlookup_nonneg in * by lia. unfold zlen in *. by rewrite lookup_app_l in Hq by lia. }
    split; [done|]. intros ->. apply Hni, zlookup_elem. eauto. }
  assert (D : same_data s (set_h (h s ++ [p]) (set_mem (<[p := set_heapIndex (zlen (h s)) e]> (mem s)) s)))
    by (by eapply data_insert).
  apply HQ; [|done|done|].
  - intros i q Hq. cbn in *. pose proof (zlookup_Some _ _ _ Hq) as Hi. rewrite zlen_app in Hi.
    change (zlen [p]) with 1 in Hi. destruct (decide (i = zlen (h s))) as [->|].
    + rewrite zlookup_nonneg in Hq by lia. unfold zlen in Hq. rewrite Nat2Z.id in Hq.
      rewrite list_lookup_middle in Hq by done. simplify_eq. rewrite lookup_insert_eq. eauto.
    + destruct (Hl i q ltac:(lia) Hq). rewrite lookup_insert_ne by done. by apply L.
  - intros k Hk. apply key_same_data; [done|]. cbn.
    rewrite !zlookup_nonneg by lia. unfold zlen in *. apply lookup_app_l. lia.
Qed.

Lemma Push_spec s p e :
  heap_ok s -> p ∉ h s -> mem s !! p = Some e ->
  wp (Push p) s (fun _ s' => heap_ok s' /\ h s' ≡ₚ p :: h s /\ same_data s s').
Proof.
  intros [L Ho] Hni He. unfold Push. apply wp_bind.
  eapply push_back_spec; [done..|]. intros s1 L1 E1 D1 Hk. wp_steps. unfold Len, up.
  pose proof (zlen_nonneg (h s)). assert (zlen (h s1) = zlen (h s) + 1) as En
    by (by rewrite E1, zlen_app).
  wp_use (up_loop_spec (zlen (h s1))); [done|lia..| |].
  - split; intros c Hc Hne; pose proof (parent_bounds c ltac:(lia)); [|lia].
    rewrite !Hk by lia. apply Ho. lia.
  - intros [] s' (K & Ho' & _). split_and!.
    + split; [apply K|]. by rewrite (kept_len _ _ K).
    + by rewrite (kept_perm _ _ K), E1, <- Permutation_cons_append.
    + eapply same_data_trans; [done|]. by apply kept_same_data.
Qed.
