(* ===== verification/Scheduler.v ===== *)
(** * internal/scheduler: the event-driven refill scheduler

    The scheduler's promise is a finite map from ids to due times
    ([schedule]); its implementation is the indexed heap of [Heap] plus a map
    from ids to entries.  [Schedule] and [Remove] hold the mutex for their
    whole bodies, so each is one atomic step; [processDue] is split as the code
    splits it (popping under the lock, callbacks outside). *)

From stdpp Require Import base tactics gmap strings list sorting.
From Stdlib Require Import ZArith Lia.
From S2P Require Import Prelude GoTime Heap.

Local Open Scope Z_scope.
Local Open Scope go_scope.
Local Open Scope go_monad_scope.

Record Scheduler := {
  heap : refillHeap;
  entries : gmap string ptr;
  wakeup : bool;       (* the buffered channel holds a signal *)
  refillsTotal : Z
}.

Definition set_heap v s : Scheduler :=
  {| heap := v; entries := entries s; wakeup := wakeup s; refillsTotal := refillsTotal s |}.
Definition set_entries v s : Scheduler :=
  {| heap := heap s; entries := v; wakeup := wakeup s; refillsTotal := refillsTotal s |}.
Definition set_wakeup v s : Scheduler :=
  {| heap := heap s; entries := entries s; wakeup := v; refillsTotal := refillsTotal s |}.
Definition set_refillsTotal v s : Scheduler :=
  {| heap := heap s; entries := entries s; wakeup := wakeup s; refillsTotal := v |}.

(** [heap.Init] of an empty slice does nothing. *)
Definition New : Scheduler :=
  {| heap := {| h := []; mem := ∅ |}; entries := ∅; wakeup := false; refillsTotal := 0 |}.

(** An operation on the heap and the entries it points to. *)
Definition on_heap {A} (c : M refillHeap A) : M Scheduler A := zoom heap set_heap c.

(** [&refillEntry{id: id, nextRefillTime: next}] *)
Definition alloc (e : refillEntry) : M refillHeap ptr :=
  let! m := gets mem in
  let p := fresh (dom m : gset ptr) in
  modify (set_mem (<[p := e]> m)) ;;;
  ret p.

Definition signal : M Scheduler unit := modify (set_wakeup true).

Definition Schedule (id : string) (next : Time) : M Scheduler unit :=
  let! es := gets entries in
  match es !! id with
  | Some e =>
      on_heap (update e (set_nextRefillTime next)) ;;;
      let! v := on_heap (deref e) in
      on_heap (Fix (heapIndex v))
  | None =>
      let! e := on_heap (alloc {| Heap.id := id; nextRefillTime := next; heapIndex := 0 |}) in
      on_heap (Push e) ;;;
      modify (fun s => set_entries (<[id := e]> (entries s)) s)
  end ;;;
  signal.
Arguments Schedule : simpl never.

Definition Remove (id : string) : M Scheduler unit :=
  let! es := gets entries in
  match es !! id with
  | None => ret tt
  | Some e =>
      let! v := on_heap (deref e) in
      let! _p := on_heap (Heap.Remove (heapIndex v)) in
      modify (fun s => set_entries (delete id (entries s)) s)
  end.

(** [time.Until(h[0].nextRefillTime)] with [now] the clock reading of
    [time.Until]. *)
Definition nextWait (now : Time) : M Scheduler Duration :=
  let! n := on_heap (gets Len) in
  if n =? 0 then ret Hour
  else
    let! p := on_heap (at_ 0) in
    let! e := on_heap (deref p) in
    let wait := Time.Sub (nextRefillTime e) now in
    if wait <? 0 then ret 0 else ret wait.

(** The locked loop of [processDue]. *)
Fixpoint pop_due (fuel : nat) (now : Time) : M Scheduler (list ptr) :=
  match fuel with
  | O => no_fuel
  | S fuel =>
      let! n := on_heap (gets Len) in
      if negb (0 <? n) then ret []
      else
        let! p := on_heap (at_ 0) in
        let! v := on_heap (deref p) in
        if Time.After (nextRefillTime v) now then ret []
        else
          let! e := on_heap Pop in
          let! ev := on_heap (deref e) in
          modify (fun s => set_entries (delete (id ev) (entries s)) s) ;;;
          let! due := pop_due fuel now in
          ret (e :: due)
  end.

Definition pop_all_due (now : Time) : M Scheduler (list ptr) :=
  let! n := on_heap (gets Len) in
  pop_due (S (Z.to_nat n)) now.

Definition HeapSize : M Scheduler Z := on_heap (gets Len).

Definition RefillsTotal (s : Scheduler) : Z := refillsTotal s.

Section ProcessDue.
(** The callback, with the state [E] of the component it belongs to. *)
Context {E : Type} (onDue : string -> Time -> M E (Time * bool)).

Definition on_sched {A} (c : M Scheduler A) : M (Scheduler * E) A :=
  zoom fst (fun s se => (s, snd se)) c.
Definition on_env {A} (c : M E A) : M (Scheduler * E) A :=
  zoom snd (fun e se => (fst se, e)) c.

(** One iteration of the callback loop of [processDue]. *)
Definition fire (now : Time) (e : ptr) : M (Scheduler * E) unit :=
  let! v := on_sched (on_heap (deref e)) in
  let! ' (next, ok) := on_env (onDue (id v) now) in
  on_sched (modify (fun s => set_refillsTotal (refillsTotal s +! 1) s)) ;;;
  if ok : bool then on_sched (Schedule (id v) next) else ret tt.

Definition processDue (now : Time) : M (Scheduler * E) unit :=
  let! due := on_sched (pop_all_due now) in
  for_each due (fire now).
End ProcessDue.

(** ** The abstract schedule and the representation invariant *)

(** When each id is due. *)
Definition schedule (s : Scheduler) : gmap string Time :=
  omap (fun p => snd <$> entry_at (heap s) p) (entries s).

(** The heap is in order, and the map [entries] holds exactly the entries of
    the heap, under their ids. *)
Definition wf (s : Scheduler) : Prop :=
  heap_ok (heap s) /\
  forall i p, entries s !! i = Some p <->
              p ∈ h (heap s) /\ exists t, entry_at (heap s) p = Some (i, t).

(** ** Lemmas *)

Lemma set_heap_id s : set_heap (heap s) s = s.
Proof. by destruct s. Qed.

(** The id an entry carries never changes, even after it left the heap. *)
Definition ids_kept (s s' : Scheduler) : Prop :=
  forall p i, fst <$> entry_at (heap s) p = Some i -> fst <$> entry_at (heap s') p = Some i.

Lemma entry_at_same hp hp' p : same_data hp hp' -> entry_at hp' p = entry_at hp p.
Proof. intros D. unfold entry_at. rewrite <- !lookup_fmap. by rewrite D. Qed.

Lemma entry_at_Some hp p i t :
  entry_at hp p = Some (i, t) <-> exists e, mem hp !! p = Some e /\ id e = i /\ nextRefillTime e = t.
Proof.
  unfold entry_at, data. destruct (mem hp !! p) as [e|]; cbn.
  - split; [intros [= <- <-]; eauto|]. by intros (e' & [= <-] & <- & <-).
  - split; [done|]. by intros (e' & ? & _).
Qed.

Lemma entry_at_ptr_time hp p i t : entry_at hp p = Some (i, t) -> ptr_time hp p = t.
Proof. intros (e & He & _ & <-)%entry_at_Some. unfold ptr_time. by rewrite He. Qed.

Lemma heap_entry hp p : heap_ok hp -> p ∈ h hp -> exists i t, entry_at hp p = Some (i, t).
Proof.
  intros [L _] [k Hk]%zlookup_elem. destruct (L _ _ Hk) as (e & He & _).
  exists (id e), (nextRefillTime e). apply entry_at_Some. eauto.
Qed.

Lemma heap_deref hp p (Q : refillEntry -> refillHeap -> Prop) i t :
  entry_at hp p = Some (i, t) ->
  (forall e, mem hp !! p = Some e -> id e = i -> nextRefillTime e = t -> Q e hp) ->
  wp (deref p) hp Q.
Proof. intros (e & He & ? & ?)%entry_at_Some HQ. eapply wp_deref; eauto. Qed.

Lemma schedule_Some s i t :
  wf s -> schedule s !! i = Some t <->
          exists p, p ∈ h (heap s) /\ entry_at (heap s) p = Some (i, t).
Proof.
  intros [_ We]. unfold schedule. rewrite lookup_omap. split.
  - intros H. destruct (entries s !! i) as [p|] eqn:E; [|done]. cbn in H.
    apply We in E as (Hp & t' & Et). rewrite Et in H. injection H as <-. eauto.
  - intros (p & Hp & Et). assert (entries s !! i = Some p) as -> by (apply We; eauto).
    cbn. by rewrite Et.
Qed.

Lemma schedule_None s i : wf s -> entries s !! i = None -> schedule s !! i = None.
Proof. intros _ E. unfold schedule. by rewrite lookup_omap, E. Qed.

(** Inserting or changing the entry of one id re-establishes the invariant. *)
Lemma wf_upsert s s' p i t :
  wf s -> heap_ok (heap s') ->
  (forall q, q ∈ h (heap s') <-> q = p \/ q ∈ h (heap s)) ->
  (forall q, entry_at (heap s') q = if decide (q = p) then Some (i, t) else entry_at (heap s) q) ->
  entries s' = <[i := p]> (entries s) ->
  entries s !! i = Some p \/ (entries s !! i = None /\ p ∉ h (heap s)) ->
  wf s' /\ schedule s' = <[i := t]> (schedule s).
Proof.
  intros [_ We] Hok Hh He Ee Hold.
  assert (Hne : forall j q, j <> i -> entries s !! j = Some q -> q <> p).
  { intros j q Hj Hq ->. pose proof (proj1 (We _ _) Hq) as (Hp & t1 & Et1).
    destruct Hold as [Hi|[_ ?]]; [|done]. apply We in Hi as (_ & t2 & Et2). congruence. }
  split; [split; [done|]|].
  - intros j q. rewrite Ee, Hh, He, lookup_insert_Some. split.
    + intros [[<- <-]|[Hj Hq]]; [rewrite decide_True by done; eauto|].
      rewrite decide_False by eauto. apply We in Hq as (? & ?). eauto.
    + intros [Hq [t' Ht']]. case_decide as Hqp; [left; by simplify_eq|right].
      destruct Hq as [|Hq]; [done|]. assert (entries s !! j = Some q) by (apply We; eauto).
      split; [|done]. intros <-. destruct Hold as [?|[? ?]]; congruence.
  - apply map_eq. intros j. unfold schedule. rewrite lookup_omap, Ee, !lookup_insert.
    case_decide as Hij; [cbn; by rewrite He, decide_True|].
    rewrite lookup_omap. destruct (entries s !! j) as [q|] eqn:Hq; [|done]. cbn.
    rewrite He, decide_False by eauto. done.
Qed.

(** Dropping the entry of one id re-establishes the invariant. *)
Lemma wf_drop s s' p i :
  wf s -> heap_ok (heap s') -> entries s !! i = Some p ->
  h (heap s) ≡ₚ p :: h (heap s') -> same_data (heap s) (heap s') ->
  entries s' = delete i (entries s) ->
  wf s' /\ schedule s' = delete i (schedule s).
Proof.
  intros [[L _] We] Hok Hi HP D Ee. pose proof (linked_NoDup _ L) as ND. rewrite HP in ND.
  apply NoDup_cons in ND as [Hnp _].
  split; [split; [done|]|].
  - intros j q. rewrite Ee, (entry_at_same _ _ _ D), lookup_delete_Some, We, HP, elem_of_cons.
    pose proof (proj1 (We _ _) Hi) as (_ & t1 & Et1). split.
    + intros (Hj & [->|Hq] & t & Et); [congruence|eauto].
    + intros (Hq & t & Et). split; [|eauto]. intros <-.
      assert (entries s !! i = Some q) by (apply We; rewrite HP, elem_of_cons; eauto).
      congruence.
  - apply map_eq. intros j. unfold schedule. rewrite lookup_omap, Ee, !lookup_delete.
    case_decide; [done|]. rewrite lookup_omap. destruct (entries s !! j); [|done].
    cbn. by rewrite (entry_at_same _ _ _ D).
Qed.

Lemma fresh_not_live hp (p := fresh (dom (D := gset ptr) (mem hp))) e :
  heap_ok hp ->
  (mem hp !! p = None) /\ (p ∉ h hp) /\ heap_ok (set_mem (<[p := e]> (mem hp)) hp).
Proof.
  intros [L Ho].
  assert (Hnone : mem hp !! p = None) by (apply not_elem_of_dom; apply is_fresh).
  assert (Hne : forall k q, zlookup (h hp) k = Some q -> p <> q).
  { intros k q Hk <-. destruct (L _ _ Hk) as (? & ? & _). congruence. }
  split_and!; [done|intros [k Hk]%zlookup_elem; by eapply Hne|split].
  - intros k q Hk. cbn in *. rewrite lookup_insert_ne by eauto. by apply L.
  - intros c Hc. cbn in *. pose proof (parent_bounds c ltac:(lia)).
    assert (Hkey : forall k, key (set_mem (<[p := e]> (mem hp)) hp) k = key hp k).
    { intros k. unfold key, time_of. cbn. destruct (zlookup (h hp) k) eqn:Hk; [|done].
      by rewrite lookup_insert_ne by eauto. }
    rewrite !Hkey. apply Ho. lia.
Qed.

(** What [Schedule] promises. *)
Definition Schedule_post (i : string) (t : Time) (s : Scheduler) (_u : unit) (s' : Scheduler) : Prop :=
  wf s' /\ schedule s' = <[i := t]> (schedule s) /\ wakeup s' = true /\
  refillsTotal s' = refillsTotal s /\ ids_kept s s'.

Lemma ids_kept_upsert s s' p i t :
  (forall q, entry_at (heap s') q = if decide (q = p) then Some (i, t) else entry_at (heap s) q) ->
  (forall j, fst <$> entry_at (heap s) p = Some j -> j = i) -> ids_kept s s'.
Proof. intros He Hp q j Hq. rewrite He. case_decide; [subst; cbn; f_equal; symmetry; auto|done]. Qed.

Lemma Schedule_existing s i t p :
  wf s -> entries s !! i = Some p -> wp (Schedule i t) s (Schedule_post i t s).
Proof.
  intros W Ep. pose proof W as [Hok We].
  destruct (proj1 (We i p) Ep) as (Hp & t0 & Et0). pose proof Et0 as (e & He & Hid & _)%entry_at_Some.
  pose proof Hp as [k Hk]%zlookup_elem. pose proof Hok as [L _].
  destruct (L _ _ Hk) as (e1 & He1 & <-). assert (e1 = e) as -> by congruence.
  destruct (down_inv_update (heap s) (heapIndex e) p e t Hok Hk He) as [L' Hinv].
  unfold Schedule. wp_steps. rewrite Ep. unfold on_heap. wp_steps.
  eapply wp_update; [done|]. wp_steps. cbn [heap set_heap].
  eapply wp_deref; [apply lookup_insert_eq|]. wp_steps. cbn [heap set_heap heapIndex set_nextRefillTime].
  wp_use Fix_spec; [done|by apply zlookup_Some in Hk|exact Hinv|].
  intros [] h2 (Hok2 & HP & D). unfold signal. wp_steps.
  set (s' := set_wakeup true _).
  assert (E1 : forall q, entry_at (heap s') q = if decide (q = p) then Some (i, t) else entry_at (heap s) q).
  { intros q. rewrite (entry_at_same _ _ _ D). unfold entry_at. cbn. rewrite lookup_insert, <- Hid.
    do 2 case_decide; by subst. }
  destruct (wf_upsert s s' p i t) as [W' ES]; [done|done| |done|by rewrite insert_id|by left|].
  { intros q. cbn. rewrite HP. cbn. split; [by right|]. by intros [->|?]. }
  split_and!; [done|done|done|done|]. eapply ids_kept_upsert; [done|].
  intros j Hj. rewrite Et0 in Hj. by injection Hj.
Qed.

Lemma Schedule_fresh s i t :
  wf s -> entries s !! i = None -> wp (Schedule i t) s (Schedule_post i t s).
Proof.
  intros W Ep. pose proof W as [Hok We].
  destruct (fresh_not_live (heap s) {| Heap.id := i; nextRefillTime := t; heapIndex := 0 |} Hok)
    as (Hnone & Hni & Hok1).
  unfold Schedule. wp_steps. rewrite Ep. unfold on_heap, alloc. wp_steps. cbn [heap set_heap].
  set (p := fresh _) in *.
  wp_use (Push_spec _ p); [done|done|apply lookup_insert_eq|].
  intros [] h2 (Hok2 & HP & D). unfold signal. wp_steps.
  set (s' := set_wakeup true _).
  assert (E1 : forall q, entry_at (heap s') q = if decide (q = p) then Some (i, t) else entry_at (heap s) q).
  { intros q. rewrite (entry_at_same _ _ _ D). unfold entry_at. cbn. rewrite lookup_insert.
    do 2 case_decide; by subst. }
  destruct (wf_upsert s s' p i t) as [W' ES]; [done|done| |done|done|by right|].
  { intros q. cbn. rewrite HP, elem_of_cons. done. }
  split_and!; [done|done|done|done|]. eapply ids_kept_upsert; [done|].
  intros j Hj. unfold entry_at in Hj. by rewrite Hnone in Hj.
Qed.

Lemma Schedule_spec s i t : wf s -> wp (Schedule i t) s (Schedule_post i t s).
Proof.
  intros W. destruct (entries s !! i) eqn:E; eauto using Schedule_existing, Schedule_fresh.
Qed.

(** What [Remove] promises. *)
Definition Remove_post (i : string) (s : Scheduler) (_u : unit) (s' : Scheduler) : Prop :=
  wf s' /\ schedule s' = delete i (schedule s) /\ wakeup s' = wakeup s /\
  refillsTotal s' = refillsTotal s /\ ids_kept s s'.

Lemma ids_kept_same s s' : same_data (heap s) (heap s') -> ids_kept s s'.
Proof. intros D p i. by rewrite (entry_at_same _ _ _ D). Qed.

Lemma Remove_spec s i : wf s -> wp (Remove i) s (Remove_post i s).
Proof.
  intros W. unfold Remove. wp_steps. destruct (entries s !! i) as [p|] eqn:Ep.
  - pose proof W as [Hok We]. destruct (proj1 (We i p) Ep) as (Hp & t0 & Et0).
    pose proof Et0 as (e & He & Hid & _)%entry_at_Some.
    apply zlookup_elem in Hp as [k Hk]. pose proof Hok as [L _].
    destruct (L _ _ Hk) as (e1 & He1 & <-). assert (e1 = e) as -> by congruence.
    unfold on_heap. wp_steps. eapply wp_deref; [done|]. wp_steps. cbn [heap set_heap].
    wp_use heap_Remove_spec; [done|done|]. intros q h2 (-> & Hok2 & HP & D). wp_steps.
    match goal with |- Remove_post _ _ _ ?x => set (s' := x) end.
    destruct (wf_drop s s' p i) as [W' ES]; [done..|].
    split_and!; [done|done|done|done|]. by apply ids_kept_same.
  - wp_steps. split_and!; [done| |done|done|by intros ? ?].
    by rewrite delete_id by (by apply schedule_None).
Qed.

Lemma heap_empty_schedule s : wf s -> h (heap s) = [] -> schedule s = ∅.
Proof.
  intros W E. apply map_eq. intros i. rewrite lookup_empty.
  destruct (schedule s !! i) eqn:Hi; [|done].
  apply schedule_Some in Hi as (p & Hp & _); [|done]. rewrite E in Hp. set_solver.
Qed.

(** The root of the heap is an entry of the schedule with the least time. *)
Lemma root_entry s :
  wf s -> h (heap s) <> [] ->
  exists p i t, zlookup (h (heap s)) 0 = Some p /\ entries s !! i = Some p /\
    entry_at (heap s) p = Some (i, t) /\ schedule s !! i = Some t /\
    forall j u, schedule s !! j = Some u -> t <= u.
Proof.
  intros W Hne%heap_nonempty. pose proof W as [[L Ho] We].
  destruct (zlookup_is_Some (h (heap s)) 0) as [p Hp]; [lia|].
  assert (Hin : p ∈ h (heap s)) by (apply zlookup_elem; eauto).
  destruct (heap_entry (heap s) p (conj L Ho) Hin) as (i & t & Et).
  exists p, i, t. split_and!; [done|apply We; eauto|done|apply schedule_Some; eauto|].
  intros j u Hj. apply schedule_Some in Hj as (q & Hq & Eq); [|done].
  apply zlookup_elem in Hq as [k Hk]. pose proof (zlookup_Some _ _ _ Hk).
  rewrite <- (entry_at_ptr_time _ _ _ _ Et), <- (entry_at_ptr_time _ _ _ _ Eq).
  rewrite <- (key_ptr_time _ _ _ Hp), <- (key_ptr_time _ _ _ Hk). eapply heap_min; [done|lia].
Qed.

(** The entries of a schedule that are due, and those that are not. *)
Definition due_part (now : Time) (m : gmap string Time) : gmap string Time :=
  filter (fun kv => snd kv <= now) m.
Definition later_part (now : Time) (m : gmap string Time) : gmap string Time :=
  filter (fun kv => now < snd kv) m.

Lemma no_due_parts now m :
  (forall i t, m !! i = Some t -> now < t) -> due_part now m = ∅ /\ later_part now m = m.
Proof.
  intros Hm. split.
  - apply map_empty. intros i. apply map_lookup_filter_None. right. intros t Ht%Hm. cbn. lia.
  - apply map_filter_id. intros i t Ht%Hm. done.
Qed.

Lemma pop_parts now m i t :
  m !! i = Some t -> t <= now ->
  map_to_list (due_part now m) ≡ₚ (i, t) :: map_to_list (due_part now (delete i m)) /\
  later_part now (delete i m) = later_part now m.
Proof.
  intros Hi Ht. rewrite <- (insert_delete_id m i t Hi) at 1. unfold due_part, later_part.
  split.
  - rewrite map_filter_insert_True by done. rewrite map_to_list_insert; [done|].
    apply map_lookup_filter_None. left. apply lookup_delete_eq.
  - rewrite <- (insert_delete_id m i t Hi) at 2. rewrite map_filter_insert_False by (cbn; lia).
    by rewrite delete_delete_eq.
Qed.

(** What popping the due entries establishes: [l] is the list of popped
    pointers, [xs] what they say. *)
Definition pop_post (now : Time) (s : Scheduler) (l : list ptr) (s' : Scheduler) : Prop :=
  wf s' /\ schedule s' = later_part now (schedule s) /\
  wakeup s' = wakeup s /\ refillsTotal s' = refillsTotal s /\ same_data (heap s) (heap s') /\
  exists xs, Forall2 (fun p x => entry_at (heap s) p = Some x) l xs /\
    xs ≡ₚ map_to_list (due_part now (schedule s)) /\
    StronglySorted (fun x y : string * Time => snd x <= snd y) xs.

Lemma pop_post_none now s :
  wf s -> (forall i t, schedule s !! i = Some t -> now < t) -> pop_post now s [] s.
Proof.
  intros W Hm. destruct (no_due_parts now (schedule s) Hm) as [E1 E2].
  split_and!; [done|by rewrite E2|done..|]. exists []. rewrite E1, map_to_list_empty.
  split_and!; constructor.
Qed.

Lemma pop_post_cons now s s1 p i t l s' :
  entry_at (heap s) p = Some (i, t) -> schedule s !! i = Some t -> t <= now ->
  (forall j u, schedule s !! j = Some u -> t <= u) ->
  schedule s1 = delete i (schedule s) -> same_data (heap s) (heap s1) ->
  wakeup s1 = wakeup s -> refillsTotal s1 = refillsTotal s ->
  pop_post now s1 l s' -> pop_post now s (p :: l) s'.
Proof.
  intros Ep Hi Ht Hmin ES D Ew Er (W' & ES' & Ew' & Er' & D' & xs & Hxs & HP & Hs).
  destruct (pop_parts now (schedule s) i t Hi Ht) as [HP1 HL].
  split_and!; [done|by rewrite ES', ES, HL|congruence|congruence|by eapply same_data_trans|].
  exists ((i, t) :: xs). split_and!.
  - constructor; [done|]. eapply Forall2_impl; [exact Hxs|]. intros q x Hq.
    by rewrite <- Hq, (entry_at_same _ _ _ D).
  - by rewrite HP1, HP, ES.
  - constructor; [done|]. rewrite Forall_forall. intros [j u] Hin. rewrite HP in Hin.
    apply elem_of_map_to_list, map_lookup_filter_Some in Hin as [Hj _].
    rewrite ES in Hj. apply lookup_delete_Some in Hj as [_ Hj]. eauto.
Qed.

Lemma pop_due_spec now fuel : forall s,
  wf s -> zlen (h (heap s)) < Z.of_nat fuel -> wp (pop_due fuel now) s (pop_post now s).
Proof.
  induction fuel as [|fuel IH]; intros s W Hf.
  { pose proof (zlen_nonneg (h (heap s))). lia. }
  cbn [pop_due]. unfold on_heap. wp_steps. change (Len (heap s)) with (zlen (h (heap s))).
  rewrite !set_heap_id. destruct (Z.ltb_spec 0 (zlen (h (heap s)))); cbn [negb].
  2:{ wp_steps. apply pop_post_none; [done|]. intros i t Hi.
      rewrite heap_empty_schedule, lookup_empty in Hi; [done|done|].
      unfold zlen in *. destruct (h (heap s)); cbn in *; [done|lia]. }
  assert (Hne : h (heap s) <> []) by (intros E; rewrite E in *; by cbn in *).
  destruct (root_entry s W Hne) as (p & i & t & Hp & Hie & Et & Hi & Hmin).
  wp_steps. eapply wp_at; [done|]. wp_steps. rewrite !set_heap_id.
  eapply heap_deref; [done|]. intros e He Hid Htm. rewrite !set_heap_id.
  unfold Time.After. destruct (Z.ltb_spec now (nextRefillTime e)) as [Hlt|Hge].
  { wp_steps. apply pop_post_none; [done|]. intros j u Hj%Hmin. lia. }
  pose proof W as [Hok _]. wp_steps. rewrite ?set_heap_id. wp_use Pop_spec; [done|done|].
  intros q h2 (Hok2 & HP & D & Hq0 & _). rewrite Hq0 in Hp. injection Hp as ->.
  wp_steps. cbn [heap set_heap]. eapply heap_deref; [by rewrite (entry_at_same _ _ _ D)|].
  intros e2 He2 Hid2 _. wp_steps. cbn [heap entries set_heap set_entries].
  set (s1 := set_entries (delete (id e2) (entries s)) _).
  destruct (wf_drop s s1 p i) as [W1 ES1]; [done..|by cbn; rewrite Hid2|].
  wp_use IH; [done| |].
  - cbn. unfold zlen in *. apply Permutation_length in HP. cbn in HP. lia.
  - intros l s' Hpost. wp_steps. eapply pop_post_cons; [done|done|lia|done..].
Qed.

Lemma pop_all_due_spec now s : wf s -> wp (pop_all_due now) s (pop_post now s).
Proof.
  intros W. unfold pop_all_due, on_heap. wp_steps. rewrite set_heap_id. apply pop_due_spec; [done|].
  change (Len (heap s)) with (zlen (h (heap s))). cbn [heap set_heap].
  pose proof (zlen_nonneg (h (heap s))). lia.
Qed.

Lemma dom_schedule s : wf s -> dom (schedule s) = dom (entries s).
Proof.
  intros [_ We]. apply set_eq. intros i. rewrite !elem_of_dom. unfold schedule.
  rewrite lookup_omap. destruct (entries s !! i) as [p|] eqn:Hi; cbn; [|done].
  apply We in Hi as (_ & t & Et). rewrite Et. cbn. split; eauto.
Qed.

Lemma entries_values s : wf s -> (map_to_list (entries s)).*2 ≡ₚ h (heap s).
Proof.
  intros [[L Ho] We]. apply NoDup_Permutation.
  - apply NoDup_fmap_2_strong, NoDup_map_to_list.
    intros [i p] [j q] Hi%elem_of_map_to_list Hj%elem_of_map_to_list Heq. cbn in Heq. subst q.
    apply We in Hi as (_ & t & Et). apply We in Hj as (_ & u & Eu). congruence.
  - by apply linked_NoDup.
  - intros p. rewrite list_elem_of_fmap. split.
    + intros ([i q] & -> & Hin%elem_of_map_to_list). cbn. by apply We in Hin as [? _].
    + intros Hp. destruct (heap_entry (heap s) p (conj L Ho) Hp) as (i & t & Et).
      exists (i, p). split; [done|]. apply elem_of_map_to_list, We. eauto.
Qed.

Lemma heap_size s : wf s -> zlen (h (heap s)) = Z.of_nat (size (schedule s)).
Proof.
  intros W. rewrite <- size_dom, dom_schedule, size_dom by done. unfold zlen.
  rewrite <- (entries_values s W), length_fmap, length_map_to_list. done.
Qed.

(** What [nextWait] returns: never longer than the time left to any entry. *)
Definition wait_ok (m : gmap string Time) (now : Time) (w : Duration) : Prop :=
  0 <= w /\ forall i t, m !! i = Some t -> w <= Z.max 0 (t - now).

Lemma nextWait_spec s now : wf s ->
  wp (nextWait now) s (fun w s' => s' = s /\ wait_ok (schedule s) now w).
Proof.
  intros W. unfold nextWait, on_heap. wp_steps. change (Len (heap s)) with (zlen (h (heap s))).
  rewrite !set_heap_id. destruct (Z.eqb_spec (zlen (h (heap s))) 0) as [E|E].
  - wp_steps. split; [done|]. split; [done|]. intros i t Hi.
    rewrite heap_empty_schedule, lookup_empty in Hi; [done|done|].
    unfold zlen in *. by destruct (h (heap s)).
  - assert (Hne : h (heap s) <> []) by (intros Hh; rewrite Hh in *; by cbn in *).
    destruct (root_entry s W Hne) as (p & i & t & Hp & _ & Et & Hi & Hmin).
    wp_steps. eapply wp_at; [done|]. wp_steps. rewrite ?set_heap_id.
    eapply heap_deref; [done|]. intros e _ _ ->. rewrite ?set_heap_id.
    assert (Hsub : Time.Sub t now <= Z.max 0 (t - now)).
    { unfold Time.Sub. bcase; lia64. }
    destruct (Z.ltb_spec (Time.Sub t now) 0); wp_steps; (split; [done|]; split; [lia|]);
      intros j u Hj%Hmin; lia.
Qed.

Lemma scheduler_New_wf : wf New /\ schedule New = ∅.
Proof.
  split; [split; [split|]|done].
  - intros i p. cbn. unfold zlookup. by bcase.
  - intros c. cbn. change (zlen []) with 0. lia.
  - intros i p. cbn. rewrite lookup_empty. split; [done|]. intros [Hp _]. set_solver.
Qed.

(** ** The callback phase *)

Section ProcessSpec.
Context {E : Type} (onDue : string -> Time -> M E (Time * bool)).

(** One callback on the abstract schedule: an id that reports [ok] is put
    back at the time it asks for. *)
Definition fire_spec (now : Time) (i : string) : M (gmap string Time * E) unit :=
  fun me =>
    match onDue i now (snd me) with
    | (Ok (next, ok), e) => (Ok tt, (if ok : bool then <[i := next]> (fst me) else fst me, e))
    | (Panic, e) => (Panic, (fst me, e))
    | (OutOfFuel, e) => (OutOfFuel, (fst me, e))
    end.

Lemma fire_sim now p i s e :
  wf s -> fst <$> entry_at (heap s) p = Some i ->
  exists r s' e', fire onDue now p (s, e) = (r, (s', e')) /\
    fire_spec now i (schedule s, e) = (r, (schedule s', e')) /\ wf s' /\ ids_kept s s'.
Proof.
  intros W Hp. destruct (entry_at (heap s) p) as [[j t]|] eqn:Et; [|done]. cbn in Hp.
  injection Hp as ->. apply entry_at_Some in Et as (v & Hv & Hid & _).
  unfold fire, fire_spec, on_sched, on_env, on_heap, zoom, bind, deref, gets, ret. cbn.
  rewrite Hv. cbn. rewrite Hid, set_heap_id.
  assert (Hself : ids_kept s s) by by intros ? ?.
  destruct (onDue i now e) as [[[next ok]| |] e']; [|by eexists _, _, _..].
  cbn. set (s1 := set_refillsTotal _ s).
  assert (W1 : wf s1) by done. destruct ok.
  - pose proof (Schedule_spec s1 i next W1) as Hw. apply wp_value in Hw as (u & s' & Hs & Hpost).
    change (Schedule i next s1 = (Ok u, s')) in Hs. cbn [fst snd]. rewrite Hs.
    destruct u, Hpost as (W' & ES & _ & _ & K). eexists _, _, _. split_and!; [done| |done|done].
    by rewrite ES.
  - by eexists _, s1, e'.
Qed.

Lemma fire_all_sim now l xs : forall s e,
  wf s -> Forall2 (fun p i => fst <$> entry_at (heap s) p = Some i) l xs ->
  exists r s' e', for_each l (fire onDue now) (s, e) = (r, (s', e')) /\
    for_each xs (fire_spec now) (schedule s, e) = (r, (schedule s', e')) /\ wf s'.
Proof.
  revert xs. induction l as [|p l IH]; intros xs s e W Hl.
  - apply Forall2_nil_inv_l in Hl as ->. by eexists _, _, _.
  - apply Forall2_cons_inv_l in Hl as (i & xs' & Hp & Hl & ->). cbn [for_each].
    destruct (fire_sim now p i s e W Hp) as (r & s1 & e1 & E1 & E2 & W1 & K).
    unfold bind. rewrite E1, E2. destruct r; [|by eexists _, _, _..].
    apply IH; [done|]. eapply Forall2_impl; [exact Hl|]. intros q j. apply K.
Qed.
End ProcessSpec.

(** [processDue] as pops followed by callbacks on the abstract schedule. *)
Lemma processDue_sim {E : Type} (onDue : string -> Time -> M E (Time * bool))
  (now : Time) (s : Scheduler) (e : E) :
  wf s -> exists xs r s' e',
    xs ≡ₚ map_to_list (due_part now (schedule s)) /\
    StronglySorted (fun x y => snd x <= snd y) xs /\
    processDue onDue now (s, e) = (r, (s', e')) /\
    for_each xs.*1 (fire_spec onDue now) (later_part now (schedule s), e)
      = (r, (schedule s', e')) /\
    wf s'.
Proof.
  intros W.
  pose proof (pop_all_due_spec now s W) as (l & s1 & E1 & Hpost)%wp_value.
  destruct Hpost as (W1 & ES & _ & _ & D & xs & Hxs & HP & Hs).
  destruct (fire_all_sim onDue now l xs.*1 s1 e W1) as (r & s' & e' & E2 & E3 & W').
  { rewrite Forall2_fmap_r. eapply Forall2_impl; [exact Hxs|]. intros p x Hp.
    by rewrite (entry_at_same _ _ _ D), Hp. }
  exists xs, r, s', e'. split_and!; [done|done| |by rewrite <- ES|done].
  unfold processDue, on_sched at 1, zoom, bind at 1. cbn [fst snd]. by rewrite E1.
Qed.

(** ** Properties *)

(** A schedule built by the operations themselves, for the examples. *)
Definition ex_onDue (i : string) (now : Time) : M nat (Time * bool) :=
  fun calls => (Ok (now + Second, negb (bool_decide (i = "gone"))), S calls).
Definition ex_sched : Scheduler :=
  snd ((Schedule "b" 30 ;;; Schedule "a" 10 ;;; Schedule "c" 20 ;;; Schedule "b" 5 ;;;
        Schedule "gone" 7) New).

Lemma ex_sched_wf : wf ex_sched.
Proof.
  unfold ex_sched. refine (wp_final _ _ wf _). do 4 (apply wp_bind; wp_use Schedule_spec;
    [first [exact (proj1 scheduler_New_wf)|done]|intros ? ? (? & _)]).
  wp_use Schedule_spec; [done|]. by intros ? ? (? & _).
Qed.

(** C13: the scheduler implements a finite map from ids to due times: whatever
    the heap looks like, [Schedule] inserts or moves exactly its id and wakes
    the run loop, [Remove] deletes exactly its id, [HeapSize] counts the ids,
    none of them panics, and the heap order with its recorded positions is
    re-established. *)
Theorem scheduler_refines_map (s : Scheduler) (i : string) (t : Time) (W : wf s) :
  (exists s', Schedule i t s = (Ok tt, s') /\ wf s' /\
     schedule s' = <[i := t]> (schedule s) /\ wakeup s' = true) /\
  (exists s', Remove i s = (Ok tt, s') /\ wf s' /\
     schedule s' = delete i (schedule s) /\ wakeup s' = wakeup s) /\
  HeapSize s = (Ok (Z.of_nat (size (schedule s))), s).
Proof.
  split_and!.
  - pose proof (Schedule_spec s i t W) as ([] & s' & -> & (W' & ES & Ew & _))%wp_value. eauto.
  - pose proof (Remove_spec s i W) as ([] & s' & -> & (W' & ES & Ew & _))%wp_value. eauto.
  - unfold HeapSize, on_heap, zoom, gets. rewrite set_heap_id. by rewrite <- heap_size.
Qed.

Lemma scheduler_refines_map_witness :
  (exists s', Schedule "d" 1 ex_sched = (Ok tt, s') /\ wf s' /\
     schedule s' = <["d" := 1]> (schedule ex_sched) /\ wakeup s' = true) /\
  (exists s', Remove "d" ex_sched = (Ok tt, s') /\ wf s' /\
     schedule s' = delete "d" (schedule ex_sched) /\ wakeup s' = wakeup ex_sched) /\
  HeapSize ex_sched = (Ok (Z.of_nat (size (schedule ex_sched))), ex_sched).
Proof. apply scheduler_refines_map. apply ex_sched_wf. Defined.

(** C14: [processDue] fires exactly the entries whose time has come, each
    once, in order of their times, and leaves the others scheduled; every
    callback that reports [ok] puts its id back at the time it returned.  The
    callbacks run on the abstract schedule left by the pops ([fire_spec]); a
    panicking callback stops both sides at the same point. *)
Theorem process_due_fires_exactly_due {E : Type} (onDue : string -> Time -> M E (Time * bool))
  (now : Time) (s : Scheduler) (e : E) (W : wf s) :
  exists xs r s' e',
    xs ≡ₚ map_to_list (due_part now (schedule s)) /\
    StronglySorted (fun x y => snd x <= snd y) xs /\
    processDue onDue now (s, e) = (r, (s', e')) /\
    for_each xs.*1 (fire_spec onDue now) (later_part now (schedule s), e)
      = (r, (schedule s', e')) /\
    wf s'.
Proof. by apply processDue_sim. Qed.

Lemma process_due_fires_exactly_due_witness :
  exists xs r s' e',
    xs ≡ₚ map_to_list (due_part 10 (schedule ex_sched)) /\
    StronglySorted (fun x y => snd x <= snd y) xs /\
    processDue ex_onDue 10 (ex_sched, O) = (r, (s', e')) /\
    for_each xs.*1 (fire_spec ex_onDue 10) (later_part 10 (schedule ex_sched), O)
      = (r, (schedule s', e')) /\
    wf s'.
Proof. apply process_due_fires_exactly_due. apply ex_sched_wf. Defined.

(** [processDue] on the example: "b", "gone" and "a" fire, "gone" is dropped. *)
Example ex_process_due :
  let '(r, (s', e')) := processDue ex_onDue 10 (ex_sched, O) in
  r = Ok tt /\ e' = 3%nat /\ refillsTotal s' = 3 /\
  schedule s' = <["a" := 10 + Second]> (<["b" := 10 + Second]> {["c" := 20]}).
Proof. vm_compute. auto. Qed.
