(* ===== verification/SchedulerRun.v ===== *)
(** * internal/scheduler: the run loop among concurrent callers

    [Run] as a transition system: one transition per critical section of the
    loop ([nextWait], the locked pops of [processDue], each callback, each
    [Schedule]) and per timer operation, interleaved with the steps of the
    other goroutines ([Schedule], [Remove], changes of the callback's state),
    of the clock and of the runtime timer. *)

From stdpp Require Import base tactics gmap strings list sorting.
From Stdlib Require Import ZArith Lia.
From S2P Require Import Prelude GoTime Heap Scheduler.

Local Open Scope Z_scope.
Local Open Scope go_scope.

(** Where [Run] is. [Waited w tr]: [nextWait] read the clock at [tr] and
    returned [w].  [Selecting tr ts]: blocked in the second [select], the timer
    was reset at [ts].  The two times are not in the code: they are kept to
    state what the loop waits for. *)
Inductive phase :=
| Top
| Waited (w : Duration) (tr : Time)
| Selecting (tr ts : Time)
| Popping (now : Time)
| Firing (now : Time) (due : list ptr)
| Requeue (now : Time) (i : string) (next : Time) (due : list ptr)
| Done.

Section Run.
Context {E : Type} (onDue : string -> Time -> M E (Time * bool)).

Record sys := {
  sch : Scheduler;
  env : E;                    (* the state the callback works on *)
  clock : Time;
  deadline : option Time;     (* of [timer], while it runs *)
  fired : bool;               (* [timer.C] holds a value *)
  at_phase : phase
}.

Definition goto (ph : phase) (x : sys) : sys :=
  {| sch := sch x; env := env x; clock := clock x; deadline := deadline x;
     fired := fired x; at_phase := ph |}.
Definition with_sch (s : Scheduler) (x : sys) : sys :=
  {| sch := s; env := env x; clock := clock x; deadline := deadline x;
     fired := fired x; at_phase := at_phase x |}.
Definition with_env (e : E) (x : sys) : sys :=
  {| sch := sch x; env := e; clock := clock x; deadline := deadline x;
     fired := fired x; at_phase := at_phase x |}.
Definition with_clock (t : Time) (x : sys) : sys :=
  {| sch := sch x; env := env x; clock := t; deadline := deadline x;
     fired := fired x; at_phase := at_phase x |}.
Definition with_timer (d : option Time) (f : bool) (x : sys) : sys :=
  {| sch := sch x; env := env x; clock := clock x; deadline := d;
     fired := f; at_phase := at_phase x |}.

(** The steps of [Run]. *)
Inductive run_step (x : sys) : sys -> Prop :=
| R_wait w s' :
    at_phase x = Top -> nextWait (clock x) (sch x) = (Ok w, s') ->
    run_step x (goto (Waited w (clock x)) (with_sch s' x))
| R_reset w tr :
    (* timer.Stop, draining timer.C if it had fired, timer.Reset(wait) *)
    at_phase x = Waited w tr ->
    run_step x (goto (Selecting tr (clock x)) (with_timer (Some (clock x + w)) false x))
| R_timer tr ts :
    (* case <-timer.C: processDue reads the clock *)
    at_phase x = Selecting tr ts -> fired x = true ->
    run_step x (goto (Popping (clock x)) (with_timer (deadline x) false x))
| R_wakeup tr ts :
    (* case <-s.wakeup *)
    at_phase x = Selecting tr ts -> wakeup (sch x) = true ->
    run_step x (goto Top (with_sch (set_wakeup false (sch x)) x))
| R_cancel tr ts :
    (* case <-ctx.Done() *)
    at_phase x = Selecting tr ts -> run_step x (goto Done x)
| R_pop now due s' :
    at_phase x = Popping now -> pop_all_due now (sch x) = (Ok due, s') ->
    run_step x (goto (Firing now due) (with_sch s' x))
| R_call now p due v next ok e' :
    at_phase x = Firing now (p :: due) -> mem (heap (sch x)) !! p = Some v ->
    onDue (id v) now (env x) = (Ok (next, ok), e') ->
    run_step x (goto (if ok : bool then Requeue now (id v) next due else Firing now due)
      (with_env e' (with_sch (set_refillsTotal (refillsTotal (sch x) +! 1) (sch x)) x)))
| R_requeue now i next due s' :
    at_phase x = Requeue now i next due -> Schedule i next (sch x) = (Ok tt, s') ->
    run_step x (goto (Firing now due) (with_sch s' x))
| R_processed now :
    at_phase x = Firing now [] -> run_step x (goto Top x).

(** The steps of everything else. *)
Inductive env_step (x : sys) : sys -> Prop :=
| E_schedule i t s' : Schedule i t (sch x) = (Ok tt, s') -> env_step x (with_sch s' x)
| E_remove i s' : Remove i (sch x) = (Ok tt, s') -> env_step x (with_sch s' x)
| E_state e' : env_step x (with_env e' x)
| E_clock t : clock x <= t -> env_step x (with_clock t x)
| E_expire d : deadline x = Some d -> d <= clock x -> env_step x (with_timer None true x).

Definition sys_step (x y : sys) : Prop := run_step x y \/ env_step x y.

(** [New], then [Run] with its hour-long initial timer. *)
Definition start (e : E) (t0 : Time) : sys :=
  {| sch := New; env := e; clock := t0; deadline := Some (t0 + Hour);
     fired := false; at_phase := Top |}.

Inductive reachable : sys -> Prop :=
| reach_start e t0 : reachable (start e t0)
| reach_step x y : reachable x -> sys_step x y -> reachable y.

(** ** The invariant *)

Definition live (s : Scheduler) (p : ptr) : Prop := exists i t, entry_at (heap s) p = Some (i, t).

(** When the timer expires at [d], no entry of [m] has been due for longer
    than the loop took between reading the clock and resetting the timer. *)
Definition timer_ok (m : gmap string Time) (tr ts d : Time) : Prop :=
  forall i t, m !! i = Some t -> d <= ts + Z.max 0 (t - tr).

Definition phase_ok (x : sys) : Prop :=
  match at_phase x with
  | Waited w tr => wakeup (sch x) = true \/ wait_ok (schedule (sch x)) tr w
  | Selecting tr ts =>
      wakeup (sch x) = true \/ fired x = true \/
      exists d, deadline x = Some d /\ timer_ok (schedule (sch x)) tr ts d
  | Firing _ due => Forall (live (sch x)) due
  | Requeue _ _ _ due => Forall (live (sch x)) due
  | _ => True
  end.

Definition inv (x : sys) : Prop := wf (sch x) /\ phase_ok x.

Lemma live_kept s s' due : ids_kept s s' -> Forall (live s) due -> Forall (live s') due.
Proof.
  intros K Hd. eapply Forall_impl; [exact Hd|]. intros p (i & t & Et).
  specialize (K p i). rewrite Et in K. specialize (K eq_refl).
  destruct (entry_at (heap s') p) as [[j u]|] eqn:E2; [|done]. by exists j, u.
Qed.

Lemma wait_ok_mono m m' tr w :
  (forall i t, m' !! i = Some t -> m !! i = Some t) -> wait_ok m tr w -> wait_ok m' tr w.
Proof. intros Hm [? Hw]. split; [done|]. intros i t Hi%Hm. eauto. Qed.

(** Steps of other goroutines on the scheduler: either the run loop is woken,
    or the schedule only shrinks. *)
Lemma phase_ok_with_sch x s' :
  ids_kept (sch x) s' ->
  (wakeup s' = true \/
   (wakeup s' = wakeup (sch x) /\
    forall i t, schedule s' !! i = Some t -> schedule (sch x) !! i = Some t)) ->
  phase_ok x -> phase_ok (with_sch s' x).
Proof.
  intros K Hs. unfold phase_ok. cbn. destruct (at_phase x); try done.
  - intros [Hw|Hw]; destruct Hs as [?|[Ew Hm]]; auto; [left; congruence|].
    right. by eapply wait_ok_mono.
  - intros [Hw|[Hw|(d & Hd & Ht)]]; destruct Hs as [?|[Ew Hm]]; auto; [left; congruence|].
    right; right. exists d. split; [done|]. intros i u Hi%Hm. eauto.
  - by apply live_kept.
  - by apply live_kept.
Qed.

Lemma inv_env x y : env_step x y -> inv x -> inv y.
Proof.
  intros [i t s' Es|i s' Es|e'|t Ht|d Hd Hle] [W P].
  - pose proof (Schedule_spec (sch x) i t W) as Hw. unfold wp in Hw. rewrite Es in Hw.
    destruct Hw as (W' & _ & Ew & _ & K). split; [done|]. apply phase_ok_with_sch; auto.
  - pose proof (Remove_spec (sch x) i W) as Hw. unfold wp in Hw. rewrite Es in Hw.
    destruct Hw as (W' & ES & Ew & _ & K). split; [done|]. apply phase_ok_with_sch; [done| |done].
    right. split; [done|]. intros j u. rewrite ES. intros [_ ?]%lookup_delete_Some. done.
  - by split.
  - by split.
  - split; [done|]. revert P. unfold phase_ok. cbn. destruct (at_phase x); auto.
Qed.

Lemma inv_run x y : run_step x y -> inv x -> inv y.
Proof.
  intros Hstep [W P]. unfold inv, phase_ok in *. destruct Hstep as
    [w s' Hp Es|w tr Hp|tr ts Hp _|tr ts Hp _|tr ts Hp|now due s' Hp Es
    |now p due v next ok e' Hp _ _|now i next due s' Hp Es|now Hp]; rewrite Hp in P; cbn.
  - pose proof (nextWait_spec (sch x) (clock x) W) as Hw. unfold wp in Hw. rewrite Es in Hw.
    destruct Hw as [-> Hw]. auto.
  - split; [done|]. destruct P as [?|[Hw0 Hw]]; [auto|right; right].
    exists (clock x + w). split; [done|]. intros i t Hi%Hw. lia.
  - done.
  - done.
  - done.
  - pose proof (pop_all_due_spec now (sch x) W) as Hw. unfold wp in Hw. rewrite Es in Hw.
    destruct Hw as (W' & _ & _ & _ & D & xs & Hxs & _). split; [done|].
    apply Forall_forall. intros p Hin. apply list_elem_of_lookup in Hin as [k Hk].
    destruct (Forall2_lookup_l _ _ _ _ _ Hxs Hk) as ([i t] & _ & Ht).
    exists i, t. by rewrite (entry_at_same _ _ _ D).
  - apply Forall_cons in P as [_ P]. split; [done|]. by destruct ok.
  - pose proof (Schedule_spec (sch x) i next W) as Hw. unfold wp in Hw. rewrite Es in Hw.
    destruct Hw as (W' & _ & _ & _ & K). split; [done|]. by eapply live_kept.
  - done.
Qed.

Lemma run_reachable_inv x : reachable x -> inv x.
Proof.
  induction 1 as [e t0|x y _ IH [Hs|Hs]]; [|by eapply inv_run|by eapply inv_env].
  split; [apply scheduler_New_wf|done].
Qed.

(** ** Properties *)

(** C15: the run loop never sleeps through a due entry.  In every reachable
    state in which it is blocked, for every scheduled entry: a wake-up is
    pending, or the timer has fired, or the timer expires no later than the
    entry's due time plus the time that passed between the clock reading of
    [nextWait] and the timer reset.  So once that moment has come the loop can
    proceed, whatever [Schedule] and [Remove] calls were interleaved. *)
Theorem run_no_lost_wakeup (x : sys) (tr ts : Time) (i : string) (t : Time)
  (Hr : reachable x) (Hp : at_phase x = Selecting tr ts)
  (Hi : schedule (sch x) !! i = Some t) :
  wakeup (sch x) = true \/ fired x = true \/
  exists d, deadline x = Some d /\ d <= Z.max t tr + (ts - tr).
Proof.
  apply run_reachable_inv in Hr as [_ P]. unfold phase_ok in P. rewrite Hp in P.
  destruct P as [?|[?|(d & Hd & Ht)]]; [auto..|right; right].
  exists d. split; [done|]. specialize (Ht i t Hi). lia.
Qed.

(** C16: the run loop never panics or gets stuck.  In every reachable state, as
    long as the callback itself returns, [Run] has a next step (other than
    being cancelled), or was cancelled, or is blocked with a running timer and
    nothing to do: no pop, heap access, entry lookup or reschedule fails,
    however the other goroutines interfere. *)
Theorem run_never_stuck (x : sys) (Hr : reachable x)
  (Hcb : forall i now e, exists next ok e', onDue i now e = (Ok (next, ok), e')) :
  (exists y, run_step x y /\ at_phase y <> Done) \/ at_phase x = Done \/
  (exists tr ts d, at_phase x = Selecting tr ts /\ deadline x = Some d /\
     wakeup (sch x) = false /\ fired x = false).
Proof.
  apply run_reachable_inv in Hr as [W P]. unfold phase_ok in P.
  destruct (at_phase x) eqn:Hp; [left|left| |left..|auto].
  - pose proof (nextWait_spec (sch x) (clock x) W) as (w & s' & Es & _)%wp_value.
    eexists. split; [by eapply R_wait|done].
  - eexists. split; [by eapply R_reset|done].
  - destruct (wakeup (sch x)) eqn:Ew; [left; eexists; split; [by eapply R_wakeup|done]|].
    destruct (fired x) eqn:Ef; [left; eexists; split; [by eapply R_timer|done]|].
    destruct P as [?|[?|(d & Hd & _)]]; [done..|]. right; right. by exists tr, ts, d.
  - pose proof (pop_all_due_spec now (sch x) W) as (l & s' & Es & _)%wp_value.
    eexists. split; [by eapply R_pop|done].
  - destruct due as [|p due]; [eexists; split; [by eapply R_processed|done]|].
    apply Forall_cons in P as [(i & t & Et) _].
    apply entry_at_Some in Et as (v & Hv & _). destruct (Hcb (id v) now (env x)) as (n & ok & e' & Ee).
    eexists. split; [by eapply R_call|]. by destruct ok.
  - pose proof (Schedule_spec (sch x) i next W) as ([] & s' & Es & _)%wp_value.
    eexists. split; [by eapply R_requeue|done].
Qed.
End Run.

(** ** Examples *)

(** A loop that was woken once and sleeps until the entry "a" is due. *)
Definition ex_sys (s : Scheduler) (c d : Time) (ph : phase) : @sys nat :=
  {| sch := s; env := O; clock := c; deadline := Some d; fired := false; at_phase := ph |}.
Definition ex_set : Scheduler := snd (Schedule "a" 10 New).
Definition ex_heard : Scheduler := set_wakeup false ex_set.
Definition ex_woken : sys := ex_sys ex_heard 4 11 (Selecting 3 4).

Lemma reach_to {E} (onDue : string -> Time -> M E (Time * bool)) (x y z : sys) :
  reachable onDue x -> sys_step onDue x y -> y = z -> reachable onDue z.
Proof. intros Hx Hs <-. by eapply reach_step. Qed.

Lemma ex_woken_reachable : reachable ex_onDue ex_woken.
Proof.
  pose proof (reach_start ex_onDue O 0) as H.
  assert (H1 : reachable ex_onDue (ex_sys ex_set 0 Hour Top)).
  { eapply reach_to; [exact H|right; apply (E_schedule _ "a" 10 ex_set); reflexivity|reflexivity]. }
  assert (H2 : reachable ex_onDue (ex_sys ex_set 0 Hour (Waited 10 0))).
  { eapply reach_to; [exact H1|left; apply (R_wait _ _ 10 ex_set); reflexivity|reflexivity]. }
  assert (H3 : reachable ex_onDue (ex_sys ex_set 0 10 (Selecting 0 0))).
  { eapply reach_to; [exact H2|left; apply (R_reset _ _ 10 0); reflexivity|reflexivity]. }
  assert (H4 : reachable ex_onDue (ex_sys ex_heard 0 10 Top)).
  { eapply reach_to; [exact H3|left; apply (R_wakeup _ _ 0 0); reflexivity|reflexivity]. }
  assert (H5 : reachable ex_onDue (ex_sys ex_heard 3 10 Top)).
  { eapply reach_to; [exact H4|right; apply (E_clock _ 3); by cbn|reflexivity]. }
  assert (H6 : reachable ex_onDue (ex_sys ex_heard 3 10 (Waited 7 3))).
  { eapply reach_to; [exact H5|left; apply (R_wait _ _ 7 ex_heard); reflexivity|reflexivity]. }
  assert (H7 : reachable ex_onDue (ex_sys ex_heard 4 10 (Waited 7 3))).
  { eapply reach_to; [exact H6|right; apply (E_clock _ 4); by cbn|reflexivity]. }
  eapply reach_to; [exact H7|left; apply (R_reset _ _ 7 3); reflexivity|reflexivity].
Qed.

Lemma run_no_lost_wakeup_witness :
  wakeup (sch ex_woken) = true \/ fired ex_woken = true \/
  exists d, deadline ex_woken = Some d /\ d <= Z.max 10 3 + (4 - 3).
Proof.
  apply (run_no_lost_wakeup ex_onDue ex_woken 3 4 "a" 10);
    [apply ex_woken_reachable|reflexivity|reflexivity].
Defined.

Lemma run_never_stuck_witness :
  (exists y, run_step ex_onDue ex_woken y /\ at_phase y <> Done) \/ at_phase ex_woken = Done \/
  (exists tr ts d, at_phase ex_woken = Selecting tr ts /\ deadline ex_woken = Some d /\
     wakeup (sch ex_woken) = false /\ fired ex_woken = false).
Proof.
  apply (run_never_stuck ex_onDue); [apply ex_woken_reachable|].
  intros i now e. exists (now + Second), (negb (bool_decide (i = "gone"%string))), (S e).
  reflexivity.
Defined.
