(* ===== verification/SchedulerIface.v ===== *)
(** * The scheduler as the store sees it

    internal/store declares its own two-method [Scheduler] interface.  Here the
    interface is a class of operations together with the promise the store
    relies on: the implementation behaves like a finite map from ids to due
    times.  internal/scheduler's scheduler is an instance. *)

From stdpp Require Import base tactics gmap strings list.
From Stdlib Require Import ZArith Lia.
From S2P Require Import Prelude GoTime Heap Scheduler.

Local Open Scope Z_scope.

Class SchedulerOps (S : Type) := {
  do_Schedule : string -> Time -> M S unit;
  do_Remove : string -> M S unit
}.

Class SchedulerLaws (S : Type) `{SchedulerOps S} := {
  sched_ok : S -> Prop;
  sched_due : S -> gmap string Time;
  schedule_law : forall i t s, sched_ok s ->
    wp (do_Schedule i t) s (fun _ s' => sched_ok s' /\ sched_due s' = <[i := t]> (sched_due s));
  remove_law : forall i s, sched_ok s ->
    wp (do_Remove i) s (fun _ s' => sched_ok s' /\ sched_due s' = delete i (sched_due s))
}.

#[export] Instance heap_scheduler_ops : SchedulerOps Scheduler :=
  {| do_Schedule := Scheduler.Schedule; do_Remove := Scheduler.Remove |}.

#[export] Program Instance heap_scheduler_laws : SchedulerLaws Scheduler :=
  {| sched_ok := Scheduler.wf; sched_due := Scheduler.schedule |}.
Next Obligation.
  intros i t s W. cbn. wp_use Schedule_spec; [done|]. by intros _ s' (? & ? & _).
Qed.
Next Obligation.
  intros i s W. cbn. wp_use Remove_spec; [done|]. by intros _ s' (? & ? & _).
Qed.
