(* ===== verification/Store.v ===== *)
(** * internal/store: the registry of all rate-limiting state

    [Registry] is the store without its scheduler; [BucketStore] adds the
    scheduler attached at startup, seen through [SchedulerOps].  Clients and
    per-IP buckets are owned by their map entries, so a pointer obtained from
    a map is modelled by running the computation on that entry.  Each exported
    method is one atomic step here; the interleaving of bucket operations is
    the subject of [BucketConc]. *)

From stdpp Require Import base tactics gmap strings list.
From Stdlib Require Import ZArith Lia Ascii.
From S2P Require Import Prelude GoTime GoString Window Bucket MultiBucket SchedulerIface.

Local Open Scope Z_scope.
Local Open Scope go_scope.
Local Open Scope go_monad_scope.

Definition globalBucketID : string := "__global__".
Definition ipIDPrefix : string := "__ip__|".

Definition bar : ascii := "|"%char.

Definition encodeID (clientKey tier : string) : string := clientKey +:+ String bar tier.

Definition decodeID (id : string) : string * string * bool :=
  let '(key, tier, found) := Cut id bar in
  if found then (key, tier, true) else ("", "", false).

Record AllowRequest := {
  ClientKey : string;
  SourceIP : string;
  Tier : string;
  Now : Time
}.

Record AllowResult := {
  Allowed : bool;
  RemainingTokens : Z;
  RetryAfter : Duration;
  Reason : string
}.

Definition rejected (reason : string) (retryAfter : Duration) : AllowResult :=
  {| Allowed := false; RemainingTokens := 0; RetryAfter := retryAfter; Reason := reason |}.

Record TierStatus := {
  st_TokensRemaining : Z;
  st_MaxTokens : Z;
  st_RefillRate : Z;
  st_RefillIntervalMs : Z
}.

Record ClientStatus := {
  st_ClientKey : string;
  st_Blocked : bool;
  st_Tiers : gmap string TierStatus
}.

Record Options := {
  MaxClients : Z;
  TierDefaults : gmap string Config
}.

Record Registry := {
  clients : gmap string ClientBuckets;
  maxClients : Z;
  tierDefaults : gmap string Config;
  globalBucket : option Bucket;
  evictions : Z;
  ipBuckets : gmap string Bucket;
  ipBucketCap : Z;
  ipLimitEnabled : bool;
  ipConfigPtr : option Config
}.

Definition set_clients v r : Registry :=
  {| clients := v; maxClients := maxClients r; tierDefaults := tierDefaults r;
     globalBucket := globalBucket r; evictions := evictions r; ipBuckets := ipBuckets r;
     ipBucketCap := ipBucketCap r; ipLimitEnabled := ipLimitEnabled r; ipConfigPtr := ipConfigPtr r |}.
Definition set_globalBucket v r : Registry :=
  {| clients := clients r; maxClients := maxClients r; tierDefaults := tierDefaults r;
     globalBucket := v; evictions := evictions r; ipBuckets := ipBuckets r;
     ipBucketCap := ipBucketCap r; ipLimitEnabled := ipLimitEnabled r; ipConfigPtr := ipConfigPtr r |}.
Definition set_evictions v r : Registry :=
  {| clients := clients r; maxClients := maxClients r; tierDefaults := tierDefaults r;
     globalBucket := globalBucket r; evictions := v; ipBuckets := ipBuckets r;
     ipBucketCap := ipBucketCap r; ipLimitEnabled := ipLimitEnabled r; ipConfigPtr := ipConfigPtr r |}.
Definition set_ipBuckets v r : Registry :=
  {| clients := clients r; maxClients := maxClients r; tierDefaults := tierDefaults r;
     globalBucket := globalBucket r; evictions := evictions r; ipBuckets := v;
     ipBucketCap := ipBucketCap r; ipLimitEnabled := ipLimitEnabled r; ipConfigPtr := ipConfigPtr r |}.
Definition set_ipLimit enabled cfg r : Registry :=
  {| clients := clients r; maxClients := maxClients r; tierDefaults := tierDefaults r;
     globalBucket := globalBucket r; evictions := evictions r; ipBuckets := ipBuckets r;
     ipBucketCap := ipBucketCap r; ipLimitEnabled := enabled; ipConfigPtr := Some cfg |}.

(** The zero value of [bucket.Config], which Go returns for a missing key. *)
Definition zero_Config : Config :=
  {| MaxTokens := 0; RefillRate := 0; RefillInterval := 0; TokensPerRequest := 0;
     CfgWindow := None |}.

Definition default_tier_cfg (td : gmap string Config) : Config :=
  default zero_Config (td !! DefaultTier).

(** The built-in default tier. *)
Definition builtin_Config : Config :=
  {| MaxTokens := 100; RefillRate := 10; RefillInterval := Second; TokensPerRequest := 1;
     CfgWindow := None |}.

Definition fallback_ip_Config : Config :=
  {| MaxTokens := 1000; RefillRate := 1000; RefillInterval := Second; TokensPerRequest := 0;
     CfgWindow := None |}.

(** Running a computation on a value that is not in the state yet. *)
Definition run_fresh {S T} (c : M T unit) (t : T) : M S T :=
  fun s => match c t with
           | (Ok _, t') => (Ok t', s)
           | (Panic, _) => (Panic, s)
           | (OutOfFuel, _) => (OutOfFuel, s)
           end.

(** Method calls through a map entry of the registry. *)
Definition on_client {A} (key : string) (c : M ClientBuckets A) : M Registry A :=
  fun r => match clients r !! key with
           | Some cb => let '(res, cb') := c cb in
                        (res, set_clients (<[key := cb']> (clients r)) r)
           | None => (Panic, r)
           end.

Definition on_ip {A} (ip : string) (c : M Bucket A) : M Registry A :=
  fun r => match ipBuckets r !! ip with
           | Some b => let '(res, b') := c b in
                       (res, set_ipBuckets (<[ip := b']> (ipBuckets r)) r)
           | None => (Panic, r)
           end.

Definition on_global {A} (c : M Bucket A) : M Registry A :=
  fun r => match globalBucket r with
           | Some b => let '(res, b') := c b in (res, set_globalBucket (Some b') r)
           | None => (Panic, r)
           end.

(** [if b, ok := cb.Bucket(tier); ok { ... b.c() ... }] *)
Definition on_bucket {A} (tier : string) (c : M Bucket A) : M ClientBuckets (option A) :=
  fun cb => match lookup_bucket tier cb with
            | Some _ => (let! a := at_tier (norm_tier tier) c in ret (Some a)) cb
            | None => (Ok None, cb)
            end.

Definition New (opts : Options) : Registry :=
  let td := match TierDefaults opts !! DefaultTier with
            | Some _ => TierDefaults opts
            | None => <[DefaultTier := builtin_Config]> (TierDefaults opts)
            end in
  let ipCap := MaxClients opts *! 4 in
  let ipCap := if ipCap <=? 0 then 200000 else ipCap in
  {| clients := ∅; maxClients := MaxClients opts; tierDefaults := td; globalBucket := None;
     evictions := 0; ipBuckets := ∅; ipBucketCap := ipCap; ipLimitEnabled := false;
     ipConfigPtr := None |}.

(** ** The scheduler callback *)

(** [b.ScheduledRefill(now); return b.NextRefillTime(), true] *)
Definition refill_and_next (now : Time) : M Bucket (Time * bool) :=
  Bucket.ScheduledRefill now ;;;
  let! next := Bucket.NextRefillTime in
  ret (next, true).

Definition OnDue (id : string) (now : Time) : M Registry (Time * bool) :=
  let gone := ret (zeroTime, false) in
  if bool_decide (id = globalBucketID) then
    let! gb := gets globalBucket in
    match gb with
    | None => gone
    | Some _ => on_global (refill_and_next now)
    end
  else if HasPrefix id ipIDPrefix then
    let ip := TrimPrefix id ipIDPrefix in
    let! bs := gets ipBuckets in
    match bs !! ip with
    | None => gone
    | Some _ => on_ip ip (refill_and_next now)
    end
  else
    let '(key, tier, ok) := decodeID id in
    if negb ok then gone
    else
      let! cs := gets clients in
      match cs !! key with
      | None => gone
      | Some _ =>
          let! r := on_client key (on_bucket tier (refill_and_next now)) in
          ret (default (zeroTime, false) r)
      end.

(** ** The store with its scheduler *)

Record BucketStore {S : Type} := {
  reg : Registry;
  scheduler : option S
}.
Arguments BucketStore S : clear implicits.

Definition set_reg {S} v (st : BucketStore S) : BucketStore S :=
  {| reg := v; scheduler := scheduler st |}.
Definition set_scheduler {S} v (st : BucketStore S) : BucketStore S :=
  {| reg := reg st; scheduler := v |}.

Definition on_reg {S A} (c : M Registry A) : M (BucketStore S) A := zoom reg set_reg c.

Section Operations.
Context {S : Type} `{SchedulerOps S} `{MapRange}.
Implicit Types (key tier ip : string) (now : Time).

(** [if s.scheduler != nil { s.scheduler.c() }] *)
Definition with_scheduler (c : M S unit) : M (BucketStore S) unit :=
  fun st => match scheduler st with
            | None => (Ok tt, st)
            | Some sc => let '(r, sc') := c sc in (r, set_scheduler (Some sc') st)
            end.

Definition AttachScheduler (sched : S) : M (BucketStore S) unit :=
  modify (set_scheduler (Some sched)).

(** [if s.scheduler != nil && interval > 0 { if b, ok := cb.Bucket(tier); ok {
    s.scheduler.Schedule(encodeID(key, tier), b.NextRefillTime()) } }] *)
Definition schedule_tier key tier (interval : Duration) : M (BucketStore S) unit :=
  if 0 <? interval then
    let! next := on_reg (on_client key (on_bucket tier Bucket.NextRefillTime)) in
    match next with
    | Some t => with_scheduler (do_Schedule (encodeID key tier) t)
    | None => ret tt
    end
  else ret tt.

(** The scan shared by both evictions: the first entry in visiting order
    whose last access is before that of every earlier one. *)
Definition older_step {V} (last : V -> Time) (acc : string * Time * bool) (kv : string * V)
  : string * Time * bool :=
  let '(oldestKey, oldestTime, first) := acc in
  let '(k, v) := kv in
  let la := last v in
  if first || Time.Before la oldestTime then (k, la, false) else (oldestKey, oldestTime, first).

Definition oldest {V} (last : V -> Time) (l : list (string * V)) : string * Time * bool :=
  foldl (older_step last) ("", zeroTime, true) l.

Definition evictLRULocked : M (BucketStore S) unit :=
  let! cs := on_reg (gets clients) in
  if bool_decide (size cs = O) then ret tt
  else
    let '(oldestKey, _, _) := oldest MultiBucket.LastAccess (range cs) in
    if bool_decide (oldestKey = "") then ret tt
    else
      match cs !! oldestKey with
      | None => panic                    (* cb.Tiers() on a nil pointer *)
      | Some cb =>
          on_reg (modify (fun r => set_clients (delete oldestKey (clients r)) r)) ;;;
          on_reg (modify (fun r => set_evictions (evictions r +! 1) r)) ;;;
          for_each (MultiBucket.Tiers cb)
            (fun tier => with_scheduler (do_Remove (encodeID oldestKey tier)))
      end.

Definition getOrCreateClient key now : M (BucketStore S) bool :=
  let! cs := on_reg (gets clients) in
  match cs !! key with
  | Some _ => ret false
  | None =>
      let! max := on_reg (gets maxClients) in
      (if (0 <? max) && (max <=? Z.of_nat (size cs)) then evictLRULocked else ret tt) ;;;
      let! td := on_reg (gets tierDefaults) in
      let defaultCfg := default_tier_cfg td in
      let! cb := run_fresh (MultiBucket.Configure DefaultTier defaultCfg now) (MultiBucket.New key) in
      on_reg (modify (fun r => set_clients (<[key := cb]> (clients r)) r)) ;;;
      schedule_tier key DefaultTier (RefillInterval defaultCfg) ;;;
      ret true
  end.

(** [ensureTier] on the client stored under [key]. *)
Definition ensureTier key tier now : M (BucketStore S) unit :=
  if bool_decide (tier = "" \/ tier = DefaultTier) then ret tt
  else
    let! b := on_reg (on_client key (gets (lookup_bucket tier))) in
    match b with
    | Some _ => ret tt
    | None =>
        let! td := on_reg (gets tierDefaults) in
        match td !! tier with
        | None => ret tt
        | Some cfg =>
            on_reg (on_client key (MultiBucket.Configure tier cfg now)) ;;;
            let! k := on_reg (on_client key (gets MultiBucket.Key)) in
            if 0 <? RefillInterval cfg then
              let! next := on_reg (on_client key (on_bucket tier Bucket.NextRefillTime)) in
              match next with
              | Some t => with_scheduler (do_Schedule (encodeID k tier) t)
              | None => ret tt
              end
            else ret tt
        end
    end.

Definition evictOldestIPLocked : M (BucketStore S) unit :=
  let! bs := on_reg (gets ipBuckets) in
  if bool_decide (size bs = O) then ret tt
  else
    let '(oldestIP, _, _) := oldest Bucket.LastAccess (range bs) in
    if bool_decide (oldestIP = "") then ret tt
    else
      on_reg (modify (fun r => set_ipBuckets (delete oldestIP (ipBuckets r)) r)) ;;;
      with_scheduler (do_Remove (ipIDPrefix +:+ oldestIP)).

Definition getOrCreateIPBucket ip now : M (BucketStore S) unit :=
  let! bs := on_reg (gets ipBuckets) in
  match bs !! ip with
  | Some _ => ret tt
  | None =>
      let! ptr := on_reg (gets ipConfigPtr) in
      let cfg := default fallback_ip_Config ptr in
      let! cap := on_reg (gets ipBucketCap) in
      (if cap <=? Z.of_nat (size bs) then evictOldestIPLocked else ret tt) ;;;
      let! b := Bucket.New cfg now in
      on_reg (modify (fun r => set_ipBuckets (<[ip := b]> (ipBuckets r)) r)) ;;;
      if 0 <? RefillInterval cfg then
        let! next := on_reg (on_ip ip Bucket.NextRefillTime) in
        with_scheduler (do_Schedule (ipIDPrefix +:+ ip) next)
      else ret tt
  end.

(** ** The decision

    The three gates of [Allow]; [Some res] is the early return of a
    rejection. *)

Definition global_gate now : M (BucketStore S) (option AllowResult) :=
  let! gb := on_reg (gets globalBucket) in
  match gb with
  | None => ret None
  | Some _ =>
      let! ' (allowed, retryAfter) := on_reg (on_global (Bucket.Allow now)) in
      ret (if allowed : bool then None else Some (rejected "global_limit" retryAfter))
  end.

Definition ip_gate ip now : M (BucketStore S) (option AllowResult) :=
  let! enabled := on_reg (gets ipLimitEnabled) in
  if enabled && negb (bool_decide (ip = "")) then
    getOrCreateIPBucket ip now ;;;
    let! ' (allowed, retryAfter) := on_reg (on_ip ip (Bucket.Allow now)) in
    ret (if allowed : bool then None else Some (rejected "ip_limit" retryAfter))
  else ret None.

(** [TokensRemaining] of the requested tier, else of the default tier. *)
Definition remaining tier (cb : ClientBuckets) : Z :=
  match lookup_bucket tier cb with
  | Some b => Bucket.TokensRemaining b
  | None => match lookup_bucket DefaultTier cb with
            | Some b => Bucket.TokensRemaining b
            | None => 0
            end
  end.

Definition client_gate key tier now : M (BucketStore S) AllowResult :=
  let! _created := getOrCreateClient key now in
  let! isBlocked := on_reg (on_client key (gets MultiBucket.IsBlocked)) in
  if isBlocked : bool then ret (rejected "blocked" Second)
  else
    ensureTier key tier now ;;;
    let! ' (allowed, retryAfter) := on_reg (on_client key (MultiBucket.Allow tier now)) in
    if negb allowed then ret (rejected "client_limit" retryAfter)
    else
      let! n := on_reg (on_client key (gets (remaining tier))) in
      ret {| Allowed := true; RemainingTokens := n; RetryAfter := 0; Reason := "ok" |}.

(** [wall] is what [time.Now()] returns for a request without a time. *)
Definition Allow (req : AllowRequest) (wall : Time) : M (BucketStore S) AllowResult :=
  let now := if Time.IsZero (Now req) then wall else Now req in
  let! g := global_gate now in
  match g with
  | Some res => ret res
  | None =>
      let! i := ip_gate (SourceIP req) now in
      match i with
      | Some res => ret res
      | None => client_gate (ClientKey req) (Tier req) now
      end
  end.

(** ** Administration *)

Definition EnsureClient key now : M (BucketStore S) unit :=
  let! _created := getOrCreateClient key now in ret tt.

Definition UpdateClientConfig key tier (cfg : Config) now : M (BucketStore S) unit :=
  let tier := norm_tier tier in
  EnsureClient key now ;;;
  on_reg (on_client key (MultiBucket.Configure tier cfg now)) ;;;
  with_scheduler (do_Remove (encodeID key tier)) ;;;
  schedule_tier key tier (RefillInterval cfg).

Definition TierConfig key tier (r : Registry) : outcome Config :=
  let tier := norm_tier tier in
  match clients r !! key ≫= lookup_bucket tier with
  | Some b => fst (Bucket.GetConfig b)
  | None => Ok (default (default_tier_cfg (tierDefaults r)) (tierDefaults r !! tier))
  end.

Definition Block key now : M (BucketStore S) unit :=
  EnsureClient key now ;;;
  on_reg (on_client key MultiBucket.BlockAll).

Definition Unblock key : M (BucketStore S) unit :=
  let! cs := on_reg (gets clients) in
  match cs !! key with
  | None => ret tt
  | Some _ => on_reg (on_client key MultiBucket.UnblockAll)
  end.

Definition tier_status (b : Bucket) : option TierStatus :=
  match fst (Bucket.GetConfig b) with
  | Ok cfg => Some {| st_TokensRemaining := Bucket.TokensRemaining b;
                      st_MaxTokens := MaxTokens cfg;
                      st_RefillRate := RefillRate cfg;
                      st_RefillIntervalMs := Milliseconds (RefillInterval cfg) |}
  | _ => None
  end.

Definition buildStatus key (cb : ClientBuckets) : ClientStatus :=
  {| st_ClientKey := key;
     st_Blocked := MultiBucket.IsBlocked cb;
     st_Tiers := foldl (fun tiers t =>
                   match lookup_bucket t cb ≫= tier_status with
                   | Some ts => <[t := ts]> tiers
                   | None => tiers
                   end) ∅ (MultiBucket.Tiers cb) |}.

Definition Status key (r : Registry) : option ClientStatus :=
  buildStatus key <$> clients r !! key.

Definition ListClients (r : Registry) : list ClientStatus :=
  map (fun '(k, cb) => buildStatus k cb) (range (clients r)).

Definition ActiveClients (r : Registry) : Z := Z.of_nat (size (clients r)).

Definition Evictions (r : Registry) : Z := evictions r.

Definition SetGlobalConfig (cfg : Config) now : M (BucketStore S) unit :=
  let! gb := Bucket.New cfg now in
  on_reg (modify (set_globalBucket (Some gb))) ;;;
  with_scheduler (do_Remove globalBucketID) ;;;
  if 0 <? RefillInterval cfg then
    let! next := on_reg (on_global Bucket.NextRefillTime) in
    with_scheduler (do_Schedule globalBucketID next)
  else ret tt.

Definition DisableGlobal : M (BucketStore S) unit :=
  on_reg (modify (set_globalBucket None)) ;;;
  with_scheduler (do_Remove globalBucketID).

Definition SetIPLimit (enabled : bool) (cfg : Config) : M (BucketStore S) unit :=
  on_reg (modify (set_ipLimit enabled cfg)) ;;;
  if enabled then ret tt
  else
    let! bs := on_reg (gets ipBuckets) in
    for_each (range bs).*1 (fun ip =>
      with_scheduler (do_Remove (ipIDPrefix +:+ ip)) ;;;
      on_reg (modify (fun r => set_ipBuckets (delete ip (ipBuckets r)) r))).
End Operations.
