(* ===== verification/StoreProofs.v ===== *)
(** * internal/store: invariant and theorems

    The invariant of the store ([inv]): every client is well formed and valid,
    the tables respect their capacities, and the scheduler's ids are exactly
    the buckets with a positive refill interval.  The theorems are proved for
    any scheduler that satisfies [SchedulerLaws] and any map iteration order. *)

From stdpp Require Import base tactics gmap strings list.
From Stdlib Require Import ZArith Lia Ascii.
From S2P Require Import Prelude GoTime GoString Window Bucket MultiBucket Heap Scheduler SchedulerIface Store.

Local Open Scope Z_scope.
Local Open Scope go_monad_scope.

(** ** Scheduler ids *)

(** The servers accept the client key "__ip__", whose ids carry the prefix of
    the per-IP ids.  In mode [AnyKey] clients may have this key, and what the
    scheduler does with ids that carry the prefix is left open; in mode
    [Strict] no client has it, and every id is accounted for. *)
Class Mode := strict : bool.
Definition Strict : Mode := true.
Definition AnyKey : Mode := false.

(** The client keys the servers let through: not empty, and without the
    separator of the ids. *)
Definition valid_key `{Mode} (key : string) : Prop :=
  key <> "" /\ contains key bar = false /\ (strict = true -> key <> "__ip__").

(** The ids the invariant accounts for. *)
Definition tracked `{Mode} (id : string) : bool := strict || negb (HasPrefix id ipIDPrefix).

#[export] Instance valid_key_dec `{Mode} key : Decision (valid_key key).
Proof. unfold valid_key. apply _. Defined.

Lemma strict_valid `{Mode} key : @valid_key Strict key -> valid_key key.
Proof. intros (? & ? & ?). split_and!; auto. Qed.

Lemma tracked_plain `{Mode} id : HasPrefix id ipIDPrefix = false -> tracked id = true.
Proof. unfold tracked. intros ->. apply orb_true_r. Qed.

(** The refill interval of the bucket an id stands for, decoded as [OnDue]
    does. *)
Definition id_interval (r : Registry) (id : string) : option Duration :=
  if bool_decide (id = globalBucketID) then globalBucket r ≫= bucket_interval
  else if HasPrefix id ipIDPrefix then ipBuckets r !! TrimPrefix id ipIDPrefix ≫= bucket_interval
  else match decodeID id with
       | (key, tier, true) => clients r !! key ≫= (fun cb => tier_interval cb tier)
       | _ => None
       end.

(** The ids the scheduler should hold. *)
Definition live_id (r : Registry) (id : string) : Prop :=
  exists i, id_interval r id = Some i /\ 0 < i.

Lemma encodeID_inj k1 t1 k2 t2 :
  contains k1 bar = false -> contains k2 bar = false ->
  encodeID k1 t1 = encodeID k2 t2 -> k1 = k2 /\ t1 = t2.
Proof.
  unfold encodeID. intros H1 H2 E. pose proof (Cut_append k1 t1 bar H1) as C1.
  change (k1 +:+ String bar t1) with (String.append k1 (String bar t1)) in E.
  rewrite E in C1. rewrite (Cut_append k2 t2 bar H2) in C1. by simplify_eq.
Qed.

Lemma decode_encode key tier : contains key bar = false -> decodeID (encodeID key tier) = (key, tier, true).
Proof. intros H. unfold decodeID, encodeID. by rewrite Cut_append. Qed.

Lemma encode_not_global key tier : encodeID key tier <> globalBucketID.
Proof.
  intros E. assert (H : contains (encodeID key tier) bar = true).
  { unfold encodeID. rewrite contains_append. cbn. by rewrite orb_true_r. }
  by rewrite E in H.
Qed.

Lemma encode_not_ip `{Mode} key tier :
  valid_key key -> tracked (encodeID key tier) = true -> HasPrefix (encodeID key tier) ipIDPrefix = false.
Proof.
  intros (_ & Hb & Hne) [Hs|Hp%negb_true_iff]%orb_true_iff; [|done].
  apply not_true_iff_false. intros [r E]%HasPrefix_inv. apply (Hne Hs).
  change (ipIDPrefix ++ r)%string with (encodeID "__ip__" r) in E.
  by apply encodeID_inj in E as [-> _].
Qed.

Lemma ip_not_global ip : ipIDPrefix +:+ ip <> globalBucketID.
Proof. intros E. by apply (f_equal (fun s => HasPrefix s ipIDPrefix)) in E; rewrite HasPrefix_append in E. Qed.

Lemma id_interval_client `{Mode} r key tier :
  valid_key key -> tracked (encodeID key tier) = true ->
  id_interval r (encodeID key tier) = clients r !! key ≫= (fun cb => tier_interval cb tier).
Proof.
  intros Hk Ht. unfold id_interval. rewrite bool_decide_false by apply encode_not_global.
  rewrite encode_not_ip, decode_encode by (done || apply Hk). done.
Qed.

Lemma id_interval_ip r ip :
  id_interval r (ipIDPrefix +:+ ip) = ipBuckets r !! ip ≫= bucket_interval.
Proof.
  unfold id_interval. rewrite bool_decide_false by apply ip_not_global.
  by rewrite HasPrefix_append, TrimPrefix_append.
Qed.

(** Every id is the global one, a per-IP one, or the id of a client tier (or
    stands for nothing). *)
Lemma id_cases id :
  id = globalBucketID \/ (exists ip, id = ipIDPrefix +:+ ip) \/
  (HasPrefix id ipIDPrefix = false /\ id <> globalBucketID /\
   exists k t ok, decodeID id = (k, t, ok) /\
     (ok = true -> id = encodeID k t /\ contains k bar = false /\ k <> "__ip__")).
Proof.
  destruct (decide (id = globalBucketID)) as [|Hg]; [auto|right].
  destruct (HasPrefix id ipIDPrefix) eqn:Hp.
  { left. apply HasPrefix_inv in Hp as [ip ->]. by exists ip. }
  right. split_and!; [done|done|]. destruct (decodeID id) as [[k t] ok] eqn:E.
  exists k, t, ok. split; [done|]. intros ->. unfold decodeID in E.
  destruct (Cut id bar) as [[a b] []] eqn:C; simplify_eq.
  apply Cut_found in C as [-> Hc]. split_and!; [done|done|]. intros ->.
  exact (eq_true_false_abs _ (HasPrefix_append ipIDPrefix t) Hp).
Qed.

(** ** The invariant *)

Definition bounded (n cap : Z) : Prop := 0 < cap -> n <= cap.

Record reg_ok `{Mode} (r : Registry) : Prop := {
  reg_clients : forall k cb, clients r !! k = Some cb ->
    valid_key k /\ clientKey cb = k /\ client_ok cb;
  reg_ips : forall ip b, ipBuckets r !! ip = Some b -> ip <> "" /\ usable b;
  reg_global : forall b, globalBucket r = Some b -> usable b;
  reg_capacity : bounded (Z.of_nat (size (clients r))) (maxClients r);
  reg_ip_capacity : bounded (Z.of_nat (size (ipBuckets r))) (ipBucketCap r);
  reg_default : is_Some (tierDefaults r !! DefaultTier)
}.

(** The windows of the buckets the store makes from its own configurations can
    be allocated. *)
Definition fits (r : Registry) : Prop :=
  (forall t cfg, tierDefaults r !! t = Some cfg -> allocatable cfg = true) /\
  (forall cfg, ipConfigPtr r = Some cfg -> allocatable cfg = true).

Lemma fits_default r : fits r -> allocatable (default_tier_cfg (tierDefaults r)) = true.
Proof.
  intros [Ht _]. unfold default_tier_cfg. destruct (tierDefaults r !! DefaultTier) eqn:E; [eauto|done].
Qed.

Lemma fits_ip r : fits r -> allocatable (default fallback_ip_Config (ipConfigPtr r)) = true.
Proof. intros [_ Hip]. destruct (ipConfigPtr r); [by apply Hip|done]. Qed.

(** The configurations [fits] is about. *)
Definition same_defaults (r r' : Registry) : Prop :=
  tierDefaults r' = tierDefaults r /\ ipConfigPtr r' = ipConfigPtr r.

#[export] Instance same_defaults_preorder : PreOrder same_defaults.
Proof. split; unfold same_defaults; [done|]. intros r1 r2 r3 [-> ->] [-> ->]. done. Qed.

Lemma fits_same r r' : same_defaults r r' -> fits r' <-> fits r.
Proof. unfold fits. by intros [-> ->]. Qed.

(** *** How the live ids change with the tables *)

(** An id that is not one of client [k] does not see a change of [k]. *)
Lemma id_interval_other_client r k m id :
  (forall t, id <> encodeID k t) ->
  (forall k', k' <> k -> m !! k' = clients r !! k') ->
  id_interval (set_clients m r) id = id_interval r id.
Proof.
  intros Hid Hm. unfold id_interval. cbn. case_bool_decide; [done|].
  destruct (HasPrefix id ipIDPrefix) eqn:Hp; [done|].
  destruct (id_cases id) as [?|[[ip ->]|(_ & _ & k1 & t1 & ok & -> & Hok)]]; [done| |].
  - by rewrite HasPrefix_append in Hp.
  - destruct ok; [|done]. destruct (Hok eq_refl) as (-> & _ & _).
    rewrite Hm; [done|]. intros ->. by eapply Hid.
Qed.

(** Whether an id belongs to client [k]. *)
Lemma encode_cases id k : (exists t, id = encodeID k t) \/ (forall t, id <> encodeID k t).
Proof.
  destruct (HasPrefix id (k +:+ String bar "")) eqn:E.
  - left. apply HasPrefix_inv in E as [t ->]. exists t. unfold encodeID.
    by rewrite append_assoc.
  - right. intros t ->. unfold encodeID in E. revert E. apply eq_true_false_abs.
    rewrite <- (HasPrefix_append (k +:+ String bar "") t). by rewrite append_assoc.
Qed.

(** One tier of client [k] is set (and the client created if need be). *)
Lemma live_set_tier `{Mode} r k t0 cb' id :
  valid_key k -> tracked id = true ->
  (forall t, t <> t0 -> tier_interval cb' t = clients r !! k ≫= (fun cb => tier_interval cb t)) ->
  live_id (set_clients (<[k := cb']> (clients r)) r) id <->
    (id = encodeID k t0 /\ exists i, tier_interval cb' t0 = Some i /\ 0 < i) \/
    (id <> encodeID k t0 /\ live_id r id).
Proof.
  intros Hk Hz Ht. pose proof Hk as (_ & Hbar & _). unfold live_id.
  destruct (encode_cases id k) as [[t ->]|Hid].
  - rewrite !id_interval_client by done. cbn. rewrite lookup_insert_eq. cbn.
    destruct (decide (t = t0)) as [->|Hne].
    + split; [auto|]. intros [[_ ?]|[? _]]; [done|congruence].
    + rewrite Ht by done. split; [|by intros [[[_ ?]%encodeID_inj _]|[_ ?]]].
      intros Hi. right. split; [|done]. intros [_ ?]%encodeID_inj; done.
  - rewrite (id_interval_other_client r k) by (done || (intros; by apply lookup_insert_ne)).
    split; [auto|]. intros [[-> _]|[_ ?]]; [by exfalso; eapply Hid|done].
Qed.

(** Client [k] is deleted. *)
Lemma live_delete_client `{Mode} r k cb id :
  valid_key k -> tracked id = true -> clients r !! k = Some cb ->
  live_id (set_clients (delete k (clients r)) r) id <->
    (forall t, is_Some (buckets cb !! t) -> id <> encodeID k t) /\ live_id r id.
Proof.
  intros Hk Hz Hcb. pose proof Hk as (_ & Hbar & _). unfold live_id.
  destruct (encode_cases id k) as [[t ->]|Hid].
  - rewrite !id_interval_client by done. cbn. rewrite lookup_delete_eq, Hcb. cbn. split.
    + by intros (? & ? & _).
    + intros [Hno (i & Hi & _)]. unfold tier_interval in Hi.
      destruct (buckets cb !! t) eqn:E; [|done]. by destruct (Hno t (ltac:(eauto)) eq_refl).
  - rewrite (id_interval_other_client r k) by (done || (intros; by apply lookup_delete_ne)).
    split; [|tauto]. intros ?. split; [|done]. auto.
Qed.

Lemma id_interval_other_ip r ip m id :
  id <> ipIDPrefix +:+ ip -> (forall ip', ip' <> ip -> m !! ip' = ipBuckets r !! ip') ->
  id_interval (set_ipBuckets m r) id = id_interval r id.
Proof.
  intros Hid Hm. unfold id_interval. cbn. case_bool_decide; [done|].
  destruct (HasPrefix id ipIDPrefix) eqn:Hp; [|done]. apply HasPrefix_inv in Hp as [ip' ->].
  rewrite TrimPrefix_append, Hm; [done|]. by intros ->.
Qed.

Lemma live_set_ip r ip b id :
  live_id (set_ipBuckets (<[ip := b]> (ipBuckets r)) r) id <->
    (id = ipIDPrefix +:+ ip /\ exists i, bucket_interval b = Some i /\ 0 < i) \/
    (id <> ipIDPrefix +:+ ip /\ live_id r id).
Proof.
  unfold live_id. destruct (decide (id = ipIDPrefix +:+ ip)) as [->|Hid].
  - rewrite id_interval_ip. cbn. rewrite lookup_insert_eq. cbn. tauto.
  - rewrite (id_interval_other_ip r ip) by (done || (intros; by apply lookup_insert_ne)). tauto.
Qed.

Lemma live_delete_ip r ip id :
  live_id (set_ipBuckets (delete ip (ipBuckets r)) r) id <->
    id <> ipIDPrefix +:+ ip /\ live_id r id.
Proof.
  unfold live_id. destruct (decide (id = ipIDPrefix +:+ ip)) as [->|Hid].
  - rewrite id_interval_ip. cbn. rewrite lookup_delete_eq. cbn. split; [|tauto].
    by intros (? & ? & _).
  - rewrite (id_interval_other_ip r ip) by (done || (intros; by apply lookup_delete_ne)). tauto.
Qed.

Lemma live_set_global r gb id :
  live_id (set_globalBucket gb r) id <->
    (id = globalBucketID /\ exists i, gb ≫= bucket_interval = Some i /\ 0 < i) \/
    (id <> globalBucketID /\ live_id r id).
Proof.
  unfold live_id, id_interval. cbn. case_bool_decide; [tauto|]. split; [auto|].
  intros [[? _]|[_ ?]]; done.
Qed.

Section Invariant.
Context {S : Type} `{SchedulerLaws S} `{MapRange} `{Mode}.
Implicit Types (st : BucketStore S) (D : string -> Prop).

(** Of the ids the invariant accounts for, the attached scheduler holds exactly
    those in [D]. *)
Definition tracks D st : Prop :=
  match scheduler st with
  | None => True
  | Some sc => sched_ok sc /\ forall id, tracked id = true -> (is_Some (sched_due sc !! id) <-> D id)
  end.

Definition inv st : Prop := reg_ok (reg st) /\ tracks (live_id (reg st)) st.

Lemma tracks_iff D D' st :
  (forall id, tracked id = true -> D id <-> D' id) -> tracks D st -> tracks D' st.
Proof.
  unfold tracks. destruct (scheduler st) as [sc|]; [|done]. intros HD [? Hd]. split; [done|].
  intros id Hz. by rewrite Hd, HD.
Qed.

Lemma tracks_set_reg D st r : tracks D st -> tracks D (set_reg r st).
Proof. done. Qed.

Lemma wp_schedule D st i t (Q : unit -> BucketStore S -> Prop) :
  tracks D st ->
  (forall st', reg st' = reg st -> tracks (fun id => id = i \/ D id) st' -> Q tt st') ->
  wp (with_scheduler (do_Schedule i t)) st Q.
Proof.
  unfold wp, with_scheduler, tracks. intros Ht HQ. destruct (scheduler st) as [sc|] eqn:E.
  - destruct Ht as [Hok Hd].
    pose proof (schedule_law i t sc Hok) as ([] & sc' & -> & Hok' & Ed)%wp_value.
    apply HQ; [done|]. cbn. split; [done|]. intros id Hz. rewrite Ed, lookup_insert_is_Some, (Hd _ Hz).
    destruct (decide (i = id)) as [->|]; intuition congruence.
  - apply HQ; [done|]. by rewrite E.
Qed.

Lemma wp_remove D st i (Q : unit -> BucketStore S -> Prop) :
  tracks D st ->
  (forall st', reg st' = reg st -> tracks (fun id => id <> i /\ D id) st' -> Q tt st') ->
  wp (with_scheduler (do_Remove i)) st Q.
Proof.
  unfold wp, with_scheduler, tracks. intros Ht HQ. destruct (scheduler st) as [sc|] eqn:E.
  - destruct Ht as [Hok Hd].
    pose proof (remove_law i sc Hok) as ([] & sc' & -> & Hok' & Ed)%wp_value.
    apply HQ; [done|]. cbn. split; [done|]. intros id Hz. rewrite Ed, lookup_delete_is_Some, (Hd _ Hz).
    intuition congruence.
  - apply HQ; [done|]. by rewrite E.
Qed.

Lemma wp_remove_all D (f : string -> string) l st (Q : unit -> BucketStore S -> Prop) :
  tracks D st ->
  (forall st', reg st' = reg st ->
     tracks (fun id => (forall x, x ∈ l -> id <> f x) /\ D id) st' -> Q tt st') ->
  wp (for_each l (fun x => with_scheduler (do_Remove (f x)))) st Q.
Proof.
  revert D st. induction l as [|x l IH]; intros D st Ht HQ; cbn [for_each].
  - wp_steps. apply HQ; [done|]. eapply tracks_iff; [|exact Ht]. intros id _. split; [|tauto].
    intros ?. split; [|done]. intros ? []%not_elem_of_nil.
  - wp_steps. eapply wp_remove; [exact Ht|]. intros st1 E1 T1. eapply IH; [exact T1|].
    intros st2 E2 T2. apply HQ; [congruence|]. eapply tracks_iff; [|exact T2].
    intros id _. cbn. split.
    + intros (Hl & Hx & Hd). split; [|done]. intros y [->|Hy]%elem_of_cons; auto.
    + intros (Hl & Hd). split_and!; [|apply Hl, list_elem_of_here|done].
      intros y Hy. by apply Hl, list_elem_of_further.
Qed.

(** *** Rules for the table accesses *)

Definition with_client k cb st : BucketStore S :=
  set_reg (set_clients (<[k := cb]> (clients (reg st))) (reg st)) st.

Lemma with_client_id k cb st : clients (reg st) !! k = Some cb -> with_client k cb st = st.
Proof. intros E. unfold with_client. rewrite insert_id by done. by destruct st as [[] ?]. Qed.

Lemma wp_on_client {A} st k cb (c : M ClientBuckets A) (Q : A -> BucketStore S -> Prop) :
  clients (reg st) !! k = Some cb ->
  wp c cb (fun a cb' => Q a (with_client k cb' st)) -> wp (on_reg (on_client k c)) st Q.
Proof.
  intros E. unfold on_reg. intros Hc. apply wp_zoom. unfold wp, on_client in *. rewrite E.
  by destruct (c cb) as [[] ?].
Qed.

Lemma mp_on_client {A} P st k cb (c : M ClientBuckets A) (Q : A -> BucketStore S -> Prop) :
  clients (reg st) !! k = Some cb ->
  may_panic (fun cb' => P (with_client k cb' st)) c cb (fun a cb' => Q a (with_client k cb' st)) ->
  may_panic P (on_reg (on_client k c)) st Q.
Proof.
  intros E. unfold on_reg. intros Hc. apply mp_zoom. unfold may_panic, on_client in *. rewrite E.
  by destruct (c cb) as [[] ?].
Qed.

Lemma mp_run_fresh {T} P (c : M T unit) (t : T) st (Q : T -> BucketStore S -> Prop) :
  may_panic (fun _ => P st) c t (fun _ t' => Q t' st) -> may_panic P (run_fresh c t) st Q.
Proof. unfold may_panic, run_fresh. by destruct (c t) as [[] ?]. Qed.

Lemma wp_read_client {A} st k cb (f : ClientBuckets -> A) (Q : A -> BucketStore S -> Prop) :
  clients (reg st) !! k = Some cb -> Q (f cb) st -> wp (on_reg (on_client k (gets f))) st Q.
Proof.
  intros E HQ. eapply wp_on_client; [done|]. wp_steps. by rewrite with_client_id.
Qed.

Lemma wp_read_reg {A} st (f : Registry -> A) (Q : A -> BucketStore S -> Prop) :
  Q (f (reg st)) st -> wp (on_reg (gets f)) st Q.
Proof. intros HQ. unfold on_reg. wp_steps. by destruct st. Qed.

Lemma wp_write_reg st (f : Registry -> Registry) (Q : unit -> BucketStore S -> Prop) :
  Q tt (set_reg (f (reg st)) st) -> wp (on_reg (modify f)) st Q.
Proof. intros HQ. unfold on_reg. by wp_steps. Qed.

Lemma on_bucket_next cb t b cfg :
  buckets cb !! norm_tier t = Some b -> configPtr b = Some cfg ->
  on_bucket t Bucket.NextRefillTime cb = (Ok (Some (next_refill cfg b)), cb).
Proof.
  intros Hb Hc. unfold on_bucket, lookup_bucket, bind, at_tier. rewrite Hb.
  rewrite (NextRefillTime_run cfg b Hc). rewrite insert_id by done. by destruct cb.
Qed.

Lemma wp_schedule_tier D st k cb t i (Q : unit -> BucketStore S -> Prop) :
  tracks D st -> clients (reg st) !! k = Some cb -> client_ok cb ->
  is_Some (buckets cb !! norm_tier t) ->
  (forall st', reg st' = reg st ->
     tracks (fun id => (0 < i /\ id = encodeID k t) \/ D id) st' -> Q tt st') ->
  wp (schedule_tier k t i) st Q.
Proof.
  intros Ht Hk Hok [b Hb] HQ. unfold schedule_tier. destruct (Z.ltb_spec 0 i) as [Hi|Hi].
  - destruct (proj2 (proj2 Hok) _ _ Hb) as [(cfg & Hc & _) _].
    wp_steps. eapply wp_on_client; [done|].
    unfold wp. rewrite (on_bucket_next cb t b cfg) by done. rewrite with_client_id by done.
    eapply wp_schedule; [exact Ht|]. intros st' E T. apply HQ; [done|].
    eapply tracks_iff; [|exact T]. intros id _. cbn. tauto.
  - wp_steps. apply HQ; [done|]. eapply tracks_iff; [|exact Ht]. intros id _. cbn.
    split; [auto|]. intros [[? _]|?]; [lia|done].
Qed.

Lemma reg_ok_set_client r k cb :
  reg_ok r -> valid_key k -> clientKey cb = k -> client_ok cb ->
  bounded (Z.of_nat (size (<[k := cb]> (clients r)))) (maxClients r) ->
  reg_ok (set_clients (<[k := cb]> (clients r)) r).
Proof.
  intros [Rc Ri Rg Rs Rp Rd] Hk Hc Hok Hs. split; cbn; try done.
  intros k' cb'. rewrite lookup_insert_Some. intros [[<- <-]|[_ ?]]; auto.
Qed.

Lemma size_insert_present {V} (m : gmap string V) k (v w : V) :
  m !! k = Some v -> size (<[k := w]> m) = size m.
Proof. intros E. by rewrite map_size_insert, E. Qed.

(** Changing a client's buckets without changing any refill interval. *)
Lemma inv_same_client st k cb cb' :
  inv st -> clients (reg st) !! k = Some cb -> client_ok cb' -> clientKey cb' = clientKey cb ->
  (forall t, tier_interval cb' t = tier_interval cb t) -> inv (with_client k cb' st).
Proof.
  intros [Rok T] Hk Hok Hck Ht. destruct (reg_clients _ Rok _ _ Hk) as (Hv & Hcb & _).
  split.
  - apply reg_ok_set_client; [done|done|congruence|done|].
    rewrite (size_insert_present _ _ cb) by done. apply Rok.
  - eapply tracks_iff; [|exact T]. intros id Hz. cbn. unfold live_id.
    destruct (encode_cases id k) as [[t ->]|Hid].
    + rewrite !id_interval_client by done. cbn. rewrite lookup_insert_eq, Hk. cbn. by rewrite Ht.
    + by rewrite (id_interval_other_client _ k) by (done || (intros; by apply lookup_insert_ne)).
Qed.

(** *** Eviction *)

(** The scan after the entries [seen], of which [k] is the oldest. *)
Lemma oldest_from {V} (last : V -> Time) (l : list (string * V)) : forall seen k v,
  (k, v) ∈ seen -> Forall (fun kv => last v <= last (snd kv)) seen ->
  exists k1 v1, foldl (older_step last) (k, last v, false) l = (k1, last v1, false) /\
    (k1, v1) ∈ seen ++ l /\ Forall (fun kv => last v1 <= last (snd kv)) (seen ++ l).
Proof.
  induction l as [|[k2 v2] l IH]; intros seen k v Hin Hmin; cbn [foldl].
  - exists k, v. rewrite app_nil_r. auto.
  - cbn [older_step orb]. unfold Time.Before. cbv zeta.
    rewrite (cons_middle (k2, v2)), app_assoc.
    destruct (Z.ltb_spec (last v2) (last v)); (apply IH; [set_solver|]);
      (apply Forall_app; split; [|repeat constructor; cbn; lia]); [|done].
    eapply Forall_impl; [exact Hmin|]. cbn. lia.
Qed.

Lemma oldest_spec {V} (last : V -> Time) (l : list (string * V)) :
  l <> [] -> exists k v, oldest last l = (k, last v, false) /\ (k, v) ∈ l /\
    Forall (fun kv => last v <= last (snd kv)) l.
Proof.
  destruct l as [|[k0 v0] l]; [done|]. intros _.
  apply (oldest_from last l [(k0, v0)]); [set_solver|repeat constructor; cbn; lia].
Qed.

Lemma range_nonempty {V} (m : gmap string V) : size m <> O -> range m <> [].
Proof. intros Hs E%range_nil_inv. subst. by rewrite map_size_empty in Hs. Qed.

(** What the eviction of client [v] leaves of the registry. *)
Definition evicted v (r : Registry) : Registry :=
  set_evictions (wrap64 (evictions r + 1)) (set_clients (delete v (clients r)) r).

Lemma evictLRU_spec st :
  inv st -> size (clients (reg st)) <> O ->
  wp evictLRULocked st (fun _ st' => inv st' /\ exists v cb,
    clients (reg st) !! v = Some cb /\ reg st' = evicted v (reg st) /\
    forall k cb', clients (reg st) !! k = Some cb' -> MultiBucket.LastAccess cb <= MultiBucket.LastAccess cb').
Proof.
  intros [Rok T] Hsz. unfold evictLRULocked. apply wp_bind, wp_read_reg.
  rewrite bool_decide_false by done.
  destruct (oldest_spec MultiBucket.LastAccess _ (range_nonempty _ Hsz)) as (v & cb & -> & Hin & Hmin).
  apply elem_of_range in Hin. destruct (reg_clients _ Rok _ _ Hin) as (Hv & Hcb & Hok).
  rewrite bool_decide_false by apply Hv. rewrite Hin.
  apply wp_bind, wp_write_reg, wp_bind, wp_write_reg.
  eapply (wp_remove_all (live_id (reg st))); [exact T|]. intros st' E' T'. cbn in E'.
  assert (Hreg : reg st' = evicted v (reg st)) by done.
  split; [split|].
  - rewrite Hreg. destruct Rok as [Rc Ri Rg Rs Rp Rd]. split; cbn; try done.
    + intros k cb' [_ Hk]%lookup_delete_Some. auto.
    + intros Hpos. rewrite map_size_delete, Hin. cbn. specialize (Rs Hpos). lia.
  - eapply tracks_iff; [|exact T']. intros id Hz. rewrite Hreg.
    change (live_id (evicted v (reg st)) id) with
      (live_id (set_clients (delete v (clients (reg st))) (reg st)) id).
    rewrite live_delete_client by done. unfold MultiBucket.Tiers. setoid_rewrite range_keys. done.
  - exists v, cb. split_and!; [done|done|]. intros k cb' Hk.
    rewrite Forall_forall in Hmin. apply (Hmin (k, cb')). by apply elem_of_range.
Qed.

(** *** Clients *)

(** The gates and limits, which no client operation touches. *)
Definition same_gates (r r' : Registry) : Prop :=
  globalBucket r' = globalBucket r /\ ipBuckets r' = ipBuckets r /\
  ipBucketCap r' = ipBucketCap r /\ ipLimitEnabled r' = ipLimitEnabled r /\
  ipConfigPtr r' = ipConfigPtr r /\ tierDefaults r' = tierDefaults r /\
  maxClients r' = maxClients r.

Lemma same_gates_defaults r r' : same_gates r r' -> same_defaults r r'.
Proof. intros (_ & _ & _ & _ & ? & ? & _). by split. Qed.

(** Clients may only disappear. *)
Definition clients_shrink (r r' : Registry) : Prop :=
  forall k cb, clients r' !! k = Some cb -> clients r !! k = Some cb.

Definition fresh_client (r : Registry) k now : ClientBuckets :=
  set_buckets {[DefaultTier := Bucket.fresh (default_tier_cfg (tierDefaults r)) now]} (MultiBucket.New k).

Definition the_client (r : Registry) k now : ClientBuckets :=
  default (fresh_client r k now) (clients r !! k).

Lemma make_room st :
  inv st ->
  wp (if (0 <? maxClients (reg st)) && (maxClients (reg st) <=? Z.of_nat (size (clients (reg st))))
      then evictLRULocked else ret tt) st
     (fun _ st' => inv st' /\ same_gates (reg st) (reg st') /\ clients_shrink (reg st) (reg st') /\
        (0 < maxClients (reg st) -> Z.of_nat (size (clients (reg st'))) < maxClients (reg st))).
Proof.
  intros HI. pose proof (reg_capacity _ (proj1 HI)) as Hcap. unfold bounded in Hcap.
  destruct (Z.ltb_spec 0 (maxClients (reg st))) as [Hpos|Hpos]; cbn [andb].
  2:{ wp_steps. split_and!; [done|done|by intros ? ?|lia]. }
  destruct (Z.leb_spec (maxClients (reg st)) (Z.of_nat (size (clients (reg st))))).
  2:{ wp_steps. split_and!; [done|done|by intros ? ?|lia]. }
  wp_use evictLRU_spec; [done|lia|]. intros _ st' (HI' & v & cb & Hv & E & _).
  split_and!; [done|by rewrite E|..]; rewrite E; cbn.
  - intros k cb'. cbn. by intros [_ ?]%lookup_delete_Some.
  - intros _. rewrite map_size_delete, Hv. cbn. specialize (Hcap Hpos). lia.
Qed.

Lemma fresh_client_ok r k now :
  allocatable (default_tier_cfg (tierDefaults r)) = true -> client_ok (fresh_client r k now).
Proof.
  intros Ha. unfold client_ok, fresh_client. cbn [buckets set_buckets]. split_and!.
  - rewrite lookup_singleton_eq. eauto.
  - by rewrite lookup_singleton_ne.
  - by apply map_Forall_singleton, fresh_usable.
Qed.

Lemma fresh_interval cfg now : bucket_interval (Bucket.fresh cfg now) = Some (RefillInterval cfg).
Proof.
  unfold bucket_interval, Bucket.fresh, normalize. cbn. by destruct (TokensPerRequest cfg <=? 0).
Qed.

(** Inserting a client whose bucket for tier [t] is new, then scheduling it. *)
Lemma wp_install st k cb t (Q : unit -> BucketStore S -> Prop) i D :
  reg_ok (reg st) -> tracks D st -> valid_key k -> clientKey cb = k -> client_ok cb ->
  t <> "" -> tier_interval cb t = Some i ->
  bounded (Z.of_nat (size (<[k := cb]> (clients (reg st))))) (maxClients (reg st)) ->
  (forall t', t' <> t -> tier_interval cb t' = clients (reg st) !! k ≫= (fun cb => tier_interval cb t')) ->
  (forall id, tracked id = true ->
     D id \/ id = encodeID k t <-> live_id (reg st) id \/ id = encodeID k t) ->
  (0 < i \/ (tracked (encodeID k t) = true -> ~ D (encodeID k t))) ->
  (forall st', inv st' -> reg st' = reg (with_client k cb st) -> Q tt st') ->
  wp (schedule_tier k t i) (with_client k cb st) Q.
Proof.
  intros Rok T Hk Hck Hok Ht Hi Hs Hold HD Hnew HQ.
  eapply (wp_schedule_tier D); [exact T|by apply lookup_insert_eq|done| |].
  { rewrite norm_tier_id by done. unfold tier_interval in Hi.
    destruct (buckets cb !! t); [eauto|done]. }
  intros st' E T'. apply HQ; [|done]. split; rewrite E.
  - by apply reg_ok_set_client.
  - eapply tracks_iff; [|exact T']. intros id Hz. cbn. rewrite (live_set_tier _ _ t) by done.
    rewrite Hi. destruct (decide (id = encodeID k t)) as [->|Hne].
    + split; [intros [[? _]|?]|intros [[_ (? & [= <-] & ?)]|[? _]]]; try done; eauto.
      destruct Hnew as [?|Hn]; [eauto|by destruct (Hn Hz)].
    + specialize (HD id Hz). intuition congruence.
Qed.

(** What is left when a window could not be allocated: the invariant. *)
Definition stuck st : BucketStore S -> Prop := fun st' => inv st' /\ ~ fits (reg st).

Lemma stuck_later st st1 st' :
  same_defaults (reg st) (reg st1) -> stuck st1 st' -> stuck st st'.
Proof. intros E [HI Hn]. split; [done|]. by rewrite <- (fits_same _ _ E). Qed.

Lemma getOrCreateClient_spec st k now :
  inv st -> valid_key k ->
  may_panic (fun st' => stuck st st' /\ clients (reg st) !! k = None)
    (getOrCreateClient k now) st (fun _ st' =>
    inv st' /\ clients (reg st') !! k = Some (the_client (reg st) k now) /\
    same_gates (reg st) (reg st') /\
    (forall k' cb, k' <> k -> clients (reg st') !! k' = Some cb -> clients (reg st) !! k' = Some cb)).
Proof.
  intros HI Hk. unfold getOrCreateClient, the_client. apply mp_bind_wp, wp_read_reg.
  destruct (clients (reg st) !! k) as [cb|] eqn:E; [by apply mp_ret|].
  apply mp_bind_wp, wp_read_reg, mp_bind_wp. wp_use make_room; [done|].
  intros _ st1 ([Rok1 T1] & Hg & Hsub & Hsz). apply mp_bind_wp, wp_read_reg, mp_bind.
  assert (Htd : tierDefaults (reg st1) = tierDefaults (reg st)) by apply Hg. rewrite Htd.
  set (cfg := default_tier_cfg _).
  assert (Hfresh : fresh_client (reg st) k now =
    set_buckets (<[DefaultTier := Bucket.fresh cfg now]> ∅) (MultiBucket.New k)) by done.
  apply mp_run_fresh, mp_Configure; intros Ha.
  { split; [split; [done|]|done]. intros Hf%fits_default. fold cfg in Hf. congruence. }
  change (set_buckets _ _) with (fresh_client (reg st) k now). apply mp_wp.
  assert (Hk1 : clients (reg st1) !! k = None).
  { destruct (clients (reg st1) !! k) eqn:E1; [|done]. apply Hsub in E1. congruence. }
  apply wp_bind, wp_write_reg, wp_bind.
  assert (Hdead : tracked (encodeID k DefaultTier) = true -> ~ live_id (reg st1) (encodeID k DefaultTier)).
  { intros Hz (i & Hi & _). rewrite id_interval_client, Hk1 in Hi by done. done. }
  eapply (wp_install st1 k (fresh_client (reg st) k now) DefaultTier _ _ (live_id (reg st1)));
    [done..|by apply fresh_client_ok|done| | | |done|by right|].
  - unfold tier_interval, fresh_client. cbn [buckets set_buckets].
    rewrite lookup_singleton_eq. apply fresh_interval.
  - intros Hpos. rewrite map_size_insert, Hk1. cbn.
    assert (Em : maxClients (reg st1) = maxClients (reg st)) by apply Hg. rewrite Em in *.
    specialize (Hsz Hpos). lia.
  - intros t Ht. rewrite Hk1. unfold tier_interval, fresh_client. cbn [buckets set_buckets].
    by rewrite lookup_singleton_ne.
  - intros st' HI' E'. wp_steps. rewrite E'. cbn. split_and!; [done|by rewrite lookup_insert_eq|done|].
    intros k' cb Hne. rewrite lookup_insert_ne by done. apply Hsub.
Qed.

(** *** Tiers *)

(** The client after [ensureTier]. *)
Definition ensured (r : Registry) (cb : ClientBuckets) tier now : ClientBuckets :=
  if bool_decide (tier = "" \/ tier = DefaultTier) then cb
  else match buckets cb !! tier, tierDefaults r !! tier with
       | None, Some cfg => set_buckets (<[tier := Bucket.fresh cfg now]> (buckets cb)) cb
       | _, _ => cb
       end.

Lemma ensureTier_spec st k cb tier now :
  inv st -> clients (reg st) !! k = Some cb ->
  may_panic (stuck st) (ensureTier k tier now) st (fun _ st' =>
    inv st' /\ reg st' = reg (with_client k (ensured (reg st) cb tier now) st)).
Proof.
  intros HI Hk. pose proof HI as [Rok T]. destruct (reg_clients _ Rok _ _ Hk) as (Hv & Hck & Hok).
  unfold ensureTier, ensured. case_bool_decide as Hd.
  { apply mp_ret. by rewrite with_client_id. }
  apply mp_bind_wp. eapply wp_read_client; [done|]. unfold lookup_bucket.
  rewrite norm_tier_id by tauto. destruct (buckets cb !! tier) as [b|] eqn:Hb.
  { apply mp_ret. by rewrite with_client_id. }
  apply mp_bind_wp, wp_read_reg. destruct (tierDefaults (reg st) !! tier) as [cfg|] eqn:Htd.
  2:{ apply mp_ret. by rewrite with_client_id. }
  apply mp_bind. eapply mp_on_client; [done|]. apply mp_Configure; intros Ha.
  { rewrite with_client_id by done. split; [done|]. intros [Hf _]. specialize (Hf _ _ Htd). congruence. }
  rewrite norm_tier_id by tauto. apply mp_wp.
  set (cb' := set_buckets _ cb). apply wp_bind.
  eapply wp_read_client; [apply lookup_insert_eq|]. change (MultiBucket.Key cb') with (clientKey cb).
  rewrite Hck. assert (Hok' : client_ok cb') by (apply client_ok_insert; [done|tauto|by apply fresh_usable]).
  assert (Hint : forall t, tier_interval cb' t =
            if decide (tier = t) then Some (RefillInterval cfg) else tier_interval cb t).
  { intros t. unfold cb'. rewrite tier_interval_insert. by rewrite fresh_interval. }
  eapply (wp_install st k cb' tier _ (RefillInterval cfg) (live_id (reg st)));
    [done..|tauto| | | |done| |].
  - rewrite Hint. by rewrite decide_True.
  - rewrite (size_insert_present _ _ cb) by done. apply Rok.
  - intros t Hne. rewrite Hint, decide_False, Hk by congruence. done.
  - right. intros Hz (i & Hi & _). rewrite id_interval_client, Hk in Hi by done. cbn in Hi.
    unfold tier_interval in Hi. by rewrite Hb in Hi.
  - intros st' HI' E. done.
Qed.

(** *** Per-IP buckets and the global bucket *)

Definition with_ip ip b st : BucketStore S :=
  set_reg (set_ipBuckets (<[ip := b]> (ipBuckets (reg st))) (reg st)) st.

Lemma wp_on_ip {A} st ip b (c : M Bucket A) (Q : A -> BucketStore S -> Prop) :
  ipBuckets (reg st) !! ip = Some b ->
  wp c b (fun a b' => Q a (with_ip ip b' st)) -> wp (on_reg (on_ip ip c)) st Q.
Proof.
  intros E. unfold on_reg. intros Hc. apply wp_zoom. unfold wp, on_ip in *. rewrite E.
  by destruct (c b) as [[] ?].
Qed.

Definition with_global b st : BucketStore S := set_reg (set_globalBucket (Some b) (reg st)) st.

Lemma wp_on_global {A} st b (c : M Bucket A) (Q : A -> BucketStore S -> Prop) :
  globalBucket (reg st) = Some b ->
  wp c b (fun a b' => Q a (with_global b' st)) -> wp (on_reg (on_global c)) st Q.
Proof.
  intros E. unfold on_reg. intros Hc. apply wp_zoom. unfold wp, on_global in *. rewrite E.
  by destruct (c b) as [[] ?].
Qed.

Lemma wp_next_refill b cfg (Q : Time -> Bucket -> Prop) :
  configPtr b = Some cfg -> Q (next_refill cfg b) b -> wp Bucket.NextRefillTime b Q.
Proof. intros Hc HQ. unfold wp. by rewrite (NextRefillTime_run cfg). Qed.

Lemma reg_ok_set_ip r ip b :
  reg_ok r -> ip <> "" -> usable b ->
  bounded (Z.of_nat (size (<[ip := b]> (ipBuckets r)))) (ipBucketCap r) ->
  reg_ok (set_ipBuckets (<[ip := b]> (ipBuckets r)) r).
Proof.
  intros [Rc Ri Rg Rs Rp Rd] Hip Hb Hs. split; cbn; try done.
  intros ip' b'. rewrite lookup_insert_Some. intros [[<- <-]|[_ ?]]; auto.
Qed.

Lemma inv_same_ip st ip b b' :
  inv st -> ipBuckets (reg st) !! ip = Some b -> usable b' -> configPtr b' = configPtr b ->
  inv (with_ip ip b' st).
Proof.
  intros [Rok T] Hb Hu Hc. split.
  - apply reg_ok_set_ip; [done|by eapply (reg_ips _ Rok)|done|].
    rewrite (size_insert_present _ _ b) by done. apply Rok.
  - eapply tracks_iff; [|exact T]. intros id _. cbn. rewrite live_set_ip.
    destruct (decide (id = ipIDPrefix +:+ ip)) as [->|]; [|tauto].
    unfold live_id. rewrite id_interval_ip, Hb. cbn. unfold bucket_interval. rewrite Hc. tauto.
Qed.

Lemma inv_same_global st b b' :
  inv st -> globalBucket (reg st) = Some b -> usable b' -> configPtr b' = configPtr b ->
  inv (with_global b' st).
Proof.
  intros [Rok T] Hb Hu Hc. split.
  - destruct Rok as [Rc Ri Rg Rs Rp Rd]. split; cbn; try done. by intros ? [= <-].
  - eapply tracks_iff; [|exact T]. intros id _. cbn. rewrite live_set_global.
    destruct (decide (id = globalBucketID)) as [->|]; [|tauto].
    unfold live_id, id_interval. rewrite bool_decide_true, Hb by done. cbn.
    unfold bucket_interval. rewrite Hc. tauto.
Qed.

(** What the per-IP operations leave alone. *)
Definition same_but_ips (r r' : Registry) : Prop :=
  clients r' = clients r /\ globalBucket r' = globalBucket r /\ ipBucketCap r' = ipBucketCap r /\
  ipLimitEnabled r' = ipLimitEnabled r /\ ipConfigPtr r' = ipConfigPtr r /\
  tierDefaults r' = tierDefaults r /\ maxClients r' = maxClients r /\ evictions r' = evictions r.

Lemma make_ip_room st :
  inv st ->
  wp (if ipBucketCap (reg st) <=? Z.of_nat (size (ipBuckets (reg st)))
      then evictOldestIPLocked else ret tt) st
     (fun _ st' => inv st' /\ same_but_ips (reg st) (reg st') /\
        (forall ip b, ipBuckets (reg st') !! ip = Some b -> ipBuckets (reg st) !! ip = Some b) /\
        bounded (Z.of_nat (size (ipBuckets (reg st'))) + 1) (ipBucketCap (reg st))).
Proof.
  intros HI. pose proof HI as [Rok T]. pose proof (reg_ip_capacity _ Rok) as Hcap.
  unfold bounded in *. destruct (Z.leb_spec (ipBucketCap (reg st)) (Z.of_nat (size (ipBuckets (reg st))))).
  2:{ wp_steps. split_and!; [done|done|done|lia]. }
  unfold evictOldestIPLocked. apply wp_bind, wp_read_reg. case_bool_decide as Hsz.
  { wp_steps. split_and!; [done|done|done|lia]. }
  destruct (oldest_spec Bucket.LastAccess _ (range_nonempty _ Hsz)) as (ip & b & -> & Hin & _).
  apply elem_of_range in Hin. rewrite bool_decide_false by by eapply (reg_ips _ Rok).
  apply wp_bind, wp_write_reg. eapply (wp_remove (live_id (reg st))); [exact T|].
  intros st' E T'. split_and!; rewrite ?E; cbn.
  - split; rewrite E.
    + destruct Rok as [Rc Ri Rg Rs Rp Rd]. split; cbn; try done.
      * intros ip' b' [_ Hb]%lookup_delete_Some. by apply Ri.
      * unfold bounded. rewrite map_size_delete, Hin. cbn. lia.
    + eapply tracks_iff; [|exact T']. intros id _. cbn. by rewrite live_delete_ip.
  - done.
  - by intros ip' b' [_ Hb]%lookup_delete_Some.
  - rewrite map_size_delete, Hin. cbn. lia.
Qed.

Definition the_ip_bucket (r : Registry) ip now : Bucket :=
  default (Bucket.fresh (default fallback_ip_Config (ipConfigPtr r)) now) (ipBuckets r !! ip).

Lemma getOrCreateIPBucket_spec st ip now :
  inv st -> ip <> "" ->
  may_panic (stuck st) (getOrCreateIPBucket ip now) st (fun _ st' =>
    inv st' /\ ipBuckets (reg st') !! ip = Some (the_ip_bucket (reg st) ip now) /\
    same_but_ips (reg st) (reg st')).
Proof.
  intros HI Hip. unfold getOrCreateIPBucket, the_ip_bucket. apply mp_bind_wp, wp_read_reg.
  destruct (ipBuckets (reg st) !! ip) as [b|] eqn:E; [by apply mp_ret|].
  apply mp_bind_wp, wp_read_reg. set (cfg := default _ _). apply mp_bind_wp, wp_read_reg, mp_bind_wp.
  wp_use make_ip_room; [done|]. intros _ st1 ([Rok1 T1] & Hs & Hsub & Hcap).
  apply mp_bind, mp_New; intros Ha.
  { split; [done|]. intros Hf%fits_ip. fold cfg in Hf. congruence. }
  apply mp_wp, wp_bind, wp_write_reg. cbn [default from_option]. set (b := Bucket.fresh cfg now).
  assert (E1 : ipBuckets (reg st1) !! ip = None).
  { destruct (ipBuckets (reg st1) !! ip) eqn:E1; [|done]. apply Hsub in E1. congruence. }
  change (set_reg _ st1) with (with_ip ip b st1).
  assert (Hint : bucket_interval b = Some (RefillInterval cfg)) by apply fresh_interval.
  assert (Hcfg : exists c, configPtr b = Some c) by by eexists. destruct Hcfg as [c Hc].
  assert (Rok2 : reg_ok (reg (with_ip ip b st1))).
  { apply reg_ok_set_ip; [done|done|by apply fresh_usable|]. rewrite map_size_insert, E1. cbn.
    assert (ipBucketCap (reg st1) = ipBucketCap (reg st)) as -> by apply Hs.
    intros Hpos. specialize (Hcap Hpos). lia. }
  assert (Hdead : ~ live_id (reg st1) (ipIDPrefix +:+ ip)).
  { intros (i & Hi & _). by rewrite id_interval_ip, E1 in Hi. }
  destruct (Z.ltb_spec 0 (RefillInterval cfg)) as [Hi|Hi].
  - apply wp_bind. eapply wp_on_ip; [apply lookup_insert_eq|]. eapply wp_next_refill; [done|].
    eapply (wp_schedule (live_id (reg st1))); [exact T1|]. intros st' E' T'.
    assert (Er : reg st' = reg (with_ip ip b st1)).
    { rewrite E'. unfold with_ip. cbn. by rewrite insert_insert_eq. }
    rewrite Er. split_and!; [split; rewrite Er; [done|]|cbn; by rewrite lookup_insert_eq|done].
    eapply tracks_iff; [|exact T']. intros id _. cbn. rewrite live_set_ip, Hint.
    destruct (decide (id = ipIDPrefix +:+ ip)) as [->|]; [|tauto]. split; [|auto]. eauto.
  - wp_step. cbn. split_and!; [split; [done|]|by rewrite lookup_insert_eq|done].
    eapply tracks_iff; [|exact T1]. intros id _. cbn. rewrite live_set_ip, Hint.
    destruct (decide (id = ipIDPrefix +:+ ip)) as [->|]; [|tauto].
    split; [done|]. intros [[_ (? & [= <-] & ?)]|[? _]]; [lia|done].
Qed.

(** ** The decision *)

(** Whether a bucket denies a request, and for how long. *)
Definition denial now (b : Bucket) : option Duration :=
  match Bucket.Allow now b with
  | (Ok (true, _), _) => None
  | (Ok (false, d), _) => Some d
  | _ => Some Second
  end.

(** The bucket of the client that a request is charged to. *)
Definition charged (r : Registry) key tier now : Bucket :=
  let cb := ensured r (the_client r key now) tier now in
  default (Bucket.fresh zero_Config now) (buckets cb !! effective_tier cb tier).

(** The decision as a function of the buckets: global, then per-IP, then the
    client's block flag, then the charged tier. *)
Definition Spec_Allow (r : Registry) (req : AllowRequest) now : AllowResult :=
  match globalBucket r ≫= denial now with
  | Some d => rejected "global_limit" d
  | None =>
      match (if ipLimitEnabled r && negb (bool_decide (SourceIP req = ""))
             then denial now (the_ip_bucket r (SourceIP req) now) else None) with
      | Some d => rejected "ip_limit" d
      | None =>
          if MultiBucket.IsBlocked (the_client r (ClientKey req) now) then rejected "blocked" Second
          else
            let b := charged r (ClientKey req) (Tier req) now in
            match denial now b with
            | Some d => rejected "client_limit" d
            | None => {| Allowed := true; RemainingTokens := tokens (snd (Bucket.Allow now b));
                         RetryAfter := 0; Reason := "ok" |}
            end
      end
  end.

Lemma denial_spec now b :
  usable b -> exists ok d b', Bucket.Allow now b = (Ok (ok, d), b') /\
    denial now b = (if ok : bool then None else Some d) /\ usable b' /\ configPtr b' = configPtr b.
Proof.
  intros Hu. pose proof (Allow_total now b Hu) as ([ok d] & b' & E & (Hc & _) & Hu')%wp_value.
  exists ok, d, b'. unfold denial. rewrite E. split_and!; [done|by destruct ok|done|done].
Qed.

Definition same_but_global (r r' : Registry) : Prop :=
  clients r' = clients r /\ ipBuckets r' = ipBuckets r /\ ipBucketCap r' = ipBucketCap r /\
  ipLimitEnabled r' = ipLimitEnabled r /\ ipConfigPtr r' = ipConfigPtr r /\
  tierDefaults r' = tierDefaults r /\ maxClients r' = maxClients r /\ evictions r' = evictions r.

Lemma global_gate_spec st now :
  inv st ->
  wp (global_gate now) st (fun g st' => inv st' /\ same_but_global (reg st) (reg st') /\
    g = rejected "global_limit" <$> (globalBucket (reg st) ≫= denial now)).
Proof.
  intros HI. unfold global_gate. apply wp_bind, wp_read_reg.
  destruct (globalBucket (reg st)) as [b|] eqn:E; [|by wp_step].
  destruct (denial_spec now b) as (ok & d & b' & Ea & Ed & Hu & Hc); [by apply (reg_global _ (proj1 HI))|].
  apply wp_bind. eapply wp_on_global; [done|]. unfold wp. rewrite Ea. cbn.
  split_and!; [by eapply inv_same_global|done|]. rewrite Ed. by destruct ok.
Qed.

Lemma ip_gate_spec st ip now :
  inv st ->
  may_panic (stuck st) (ip_gate ip now) st (fun g st' => inv st' /\ same_but_ips (reg st) (reg st') /\
    g = rejected "ip_limit" <$>
      (if ipLimitEnabled (reg st) && negb (bool_decide (ip = ""))
       then denial now (the_ip_bucket (reg st) ip now) else None)).
Proof.
  intros HI. unfold ip_gate. apply mp_bind_wp, wp_read_reg.
  destruct (ipLimitEnabled (reg st)); cbn [andb]; [|by apply mp_ret].
  case_bool_decide as Hip; cbn [negb]; [by apply mp_ret|]. apply mp_bind.
  mp_use getOrCreateIPBucket_spec; [done|done|done|].
  intros _ st1 (HI1 & Hb & Hs). apply mp_wp.
  destruct (denial_spec now (the_ip_bucket (reg st) ip now)) as (ok & d & b' & Ea & Ed & Hu & Hc).
  { by eapply (reg_ips _ (proj1 HI1)). }
  apply wp_bind. eapply wp_on_ip; [done|]. unfold wp. rewrite Ea. cbn.
  split_and!; [by eapply inv_same_ip|done|]. rewrite Ed. by destruct ok.
Qed.

(** The requesting client after a decision of the client gate. *)
Definition charged_client (r : Registry) key tier now : ClientBuckets :=
  let cb := ensured r (the_client r key now) tier now in
  set_buckets (<[effective_tier cb tier := snd (Bucket.Allow now (charged r key tier now))]>
    (buckets cb)) cb.

Lemma remaining_effective tier cb b :
  buckets cb !! effective_tier cb tier = Some b -> remaining tier cb = tokens b.
Proof.
  unfold remaining, effective_tier, lookup_bucket. case_decide as Hd; [by intros ->|].
  destruct (buckets cb !! norm_tier tier) eqn:E; [destruct Hd; eauto|].
  rewrite (norm_tier_id DefaultTier) by done. by intros ->.
Qed.

Lemma effective_insert cb tier b :
  effective_tier (set_buckets (<[effective_tier cb tier := b]> (buckets cb)) cb) tier
    = effective_tier cb tier.
Proof.
  assert (Heff : forall cb', effective_tier cb' tier =
    if decide (is_Some (buckets cb' !! norm_tier tier)) then norm_tier tier else DefaultTier) by done.
  rewrite (Heff cb). case_decide as Hs; rewrite Heff; cbn; rewrite lookup_insert.
  - rewrite (decide_True (P := norm_tier tier = norm_tier tier)) by done. by rewrite decide_True.
  - destruct (decide (DefaultTier = norm_tier tier)) as [<-|]; [by rewrite decide_True|].
    by rewrite decide_False.
Qed.

Lemma client_gate_spec st key tier now :
  inv st -> valid_key key ->
  may_panic (stuck st) (client_gate key tier now) st (fun res st' => inv st' /\ same_gates (reg st) (reg st') /\
    (if MultiBucket.IsBlocked (the_client (reg st) key now)
     then res = rejected "blocked" Second /\
          clients (reg st') !! key = Some (the_client (reg st) key now)
     else clients (reg st') !! key = Some (charged_client (reg st) key tier now) /\
          res = match denial now (charged (reg st) key tier now) with
                | Some d => rejected "client_limit" d
                | None => {| Allowed := true; RemainingTokens :=
                               tokens (snd (Bucket.Allow now (charged (reg st) key tier now)));
                             RetryAfter := 0; Reason := "ok" |}
                end)).
Proof.
  intros HI Hk. unfold client_gate. apply mp_bind. mp_use getOrCreateClient_spec; [done|done|by intros st' [? _]|].
  intros _ st1 (HI1 & Hcb & Hg & _). set (cb := the_client (reg st) key now) in *.
  apply mp_bind_wp. eapply wp_read_client; [done|]. destruct (MultiBucket.IsBlocked cb); [by apply mp_ret|].
  apply mp_bind. mp_use ensureTier_spec; [done|done|intros st'; by apply stuck_later, same_gates_defaults|].
  intros _ st2 (HI2 & E2). apply mp_wp.
  assert (Een : ensured (reg st1) cb tier now = ensured (reg st) cb tier now).
  { unfold ensured. assert (tierDefaults (reg st1) = tierDefaults (reg st)) as -> by apply Hg. done. }
  rewrite Een in E2. set (cb2 := ensured (reg st) cb tier now) in *.
  assert (Hc2 : clients (reg st2) !! key = Some cb2) by (rewrite E2; apply lookup_insert_eq).
  destruct (reg_clients _ (proj1 HI2) _ _ Hc2) as (_ & Hck & Hok).
  destruct (client_ok_effective cb2 tier Hok) as [b Hb].
  assert (Ech : charged (reg st) key tier now = b).
  { unfold charged. fold cb. fold cb2. cbv zeta. by rewrite Hb. }
  apply wp_bind. eapply wp_on_client; [done|]. wp_use client_Allow_spec; [done|done|].
  intros [ok d] cb' (b' & Ea & HF & Hok' & ->). cbv match.
  assert (Ed : denial now b = if ok : bool then None else Some d).
  { unfold denial. rewrite Ea. by destruct ok. }
  assert (HI3 : inv (with_client key (set_buckets (<[effective_tier cb2 tier := b']> (buckets cb2)) cb2) st2)).
  { eapply inv_same_client; [done|done|done|done|]. intros t.
    eapply tier_interval_same; [done|apply HF]. }
  assert (Hg2 : same_gates (reg st) (reg st2)) by (rewrite E2; exact Hg).
  assert (Ecc : charged_client (reg st) key tier now =
    set_buckets (<[effective_tier cb2 tier := b']> (buckets cb2)) cb2).
  { unfold charged_client. rewrite Ech, Ea. done. }
  rewrite Ech, Ed, Ea, Ecc. destruct ok; cbn [negb].
  - apply wp_bind. eapply wp_read_client; [apply lookup_insert_eq|].
    rewrite (remaining_effective _ _ b') by (rewrite effective_insert; apply lookup_insert_eq).
    wp_step. split_and!; [done|done| |done]. cbn. apply lookup_insert_eq.
  - wp_step. split_and!; [done|done| |done]. cbn. apply lookup_insert_eq.
Qed.

(** The registry facts the later gates depend on. *)
Lemma later_gates r r' req now :
  same_but_global r r' ->
  the_ip_bucket r' (SourceIP req) now = the_ip_bucket r (SourceIP req) now /\
  ipLimitEnabled r' = ipLimitEnabled r.
Proof. intros (_ & E1 & _ & E2 & E3 & _). unfold the_ip_bucket. by rewrite E1, E2, E3. Qed.

Lemma same_client r r' key tier now :
  clients r' = clients r -> tierDefaults r' = tierDefaults r ->
  the_client r' key now = the_client r key now /\
  charged r' key tier now = charged r key tier now /\
  charged_client r' key tier now = charged_client r key tier now.
Proof.
  intros E1 E2. unfold charged_client, charged, ensured, the_client, fresh_client.
  by rewrite E1, E2.
Qed.

(** [Allow] on every path: the result is [Spec_Allow]; a gate that was not
    reached leaves its tables alone. *)
Lemma Allow_spec st req wall :
  inv st -> valid_key (ClientKey req) ->
  let now := if Time.IsZero (Now req) then wall else Now req in
  may_panic (stuck st) (Store.Allow req wall) st (fun res st' => inv st' /\ same_defaults (reg st) (reg st') /\ res = Spec_Allow (reg st) req now /\
    (Reason res = "global_limit" -> same_but_global (reg st) (reg st')) /\
    (Reason res = "ip_limit" -> clients (reg st') = clients (reg st)) /\
    (Reason res = "blocked" ->
       clients (reg st') !! ClientKey req = Some (the_client (reg st) (ClientKey req) now)) /\
    (Reason res = "client_limit" \/ Reason res = "ok" ->
       clients (reg st') !! ClientKey req =
         Some (charged_client (reg st) (ClientKey req) (Tier req) now))).
Proof.
  intros HI Hk now. unfold Store.Allow, Spec_Allow. fold now.
  apply mp_bind_wp. wp_use global_gate_spec; [done|]. intros g st1 (HI1 & Hs1 & ->).
  assert (Hd1 : same_defaults (reg st) (reg st1)) by (split; apply Hs1).
  destruct (globalBucket (reg st) ≫= denial now) as [d|]; cbn [fmap option_fmap option_map].
  { apply mp_ret. split_and!; [done|done|done|done|done..| |]; intros; intuition discriminate. }
  apply mp_bind. mp_use ip_gate_spec; [done|intros st'; by apply stuck_later|].
  intros g st2 (HI2 & Hs2 & ->).
  destruct (later_gates _ _ req now Hs1) as [-> ->].
  assert (Ecl : clients (reg st2) = clients (reg st)).
  { destruct Hs1 as [E1 _], Hs2 as [E2 _]. congruence. }
  assert (Hd2 : same_defaults (reg st) (reg st2)).
  { etrans; [exact Hd1|]. split; apply Hs2. }
  destruct (if _ && _ then _ else None) as [d|]; cbn [fmap option_fmap option_map].
  { apply mp_ret. split_and!; [done|done|done|done|done|..]; intros; intuition discriminate. }
  mp_use client_gate_spec; [done|done|intros st'; by apply stuck_later|]. intros res st3 (HI3 & Hg3 & Hres).
  assert (Hd3 : same_defaults (reg st) (reg st3)).
  { etrans; [exact Hd2|]. by apply same_gates_defaults. }
  destruct (same_client _ _ (ClientKey req) (Tier req) now Ecl (proj1 Hd2)) as (E1 & E2 & E3).
  rewrite E1, E2, E3 in Hres. destruct (MultiBucket.IsBlocked _).
  - destruct Hres as [-> Hc]. split_and!; [done|done|done|..]; intros; intuition discriminate.
  - destruct Hres as [Hc ->]. split_and!; [done|done|done|..]; destruct (denial _ _); cbn;
      intros; (done || intuition discriminate).
Qed.

(** ** Administration *)

Lemma EnsureClient_spec st k now :
  inv st -> valid_key k ->
  may_panic (fun st' => stuck st st' /\ clients (reg st) !! k = None) (EnsureClient k now) st (fun _ st' =>
    inv st' /\ clients (reg st') !! k = Some (the_client (reg st) k now) /\
    same_gates (reg st) (reg st')).
Proof.
  intros HI Hk. unfold EnsureClient. apply mp_bind. mp_use getOrCreateClient_spec; [done|done|done|].
  intros _ st1 (HI1 & Hcb & Hg & _). by apply mp_ret.
Qed.

Lemma UpdateClientConfig_spec st k tier cfg now :
  inv st -> valid_key k ->
  may_panic (fun st' => inv st' /\
      ((~ fits (reg st) /\ clients (reg st) !! k = None) \/ allocatable cfg = false))
    (UpdateClientConfig k tier cfg now) st (fun _ st' => inv st' /\ same_defaults (reg st) (reg st') /\
    clients (reg st') !! k =
      Some (set_buckets (<[norm_tier tier := Bucket.fresh cfg now]>
              (buckets (the_client (reg st) k now))) (the_client (reg st) k now))).
Proof.
  intros HI Hk. unfold UpdateClientConfig. cbv zeta. apply mp_bind.
  mp_use EnsureClient_spec; [done|done|intros st' [[? ?] ?]; auto|]. intros _ st1 (HI1 & Hcb & Hg1%same_gates_defaults).
  pose proof HI1 as [Rok1 T1].
  set (cb := the_client (reg st) k now) in *. destruct (reg_clients _ Rok1 _ _ Hcb) as (_ & Hck & Hok).
  set (t := norm_tier tier). assert (Ht : norm_tier t = t) by apply norm_tier_idemp.
  apply mp_bind. eapply mp_on_client; [done|]. apply mp_Configure; intros Ha; rewrite ?Ht.
  { rewrite with_client_id by done. auto. }
  set (cb' := set_buckets _ cb). apply mp_wp.
  apply wp_bind. eapply (wp_remove (live_id (reg st1))); [exact T1|]. intros st2 E2 T2.
  assert (Est2 : st2 = with_client k cb' (set_reg (reg st1) st2)).
  { destruct st2 as [r2 s2]. cbn in E2. subst r2. done. }
  rewrite Est2.
  assert (Hint : forall t', tier_interval cb' t' =
            if decide (t = t') then Some (RefillInterval cfg) else tier_interval cb t').
  { intros t'. unfold cb'. rewrite tier_interval_insert. by rewrite fresh_interval. }
  eapply (wp_install _ k cb' t _ (RefillInterval cfg)
    (fun id => id <> encodeID k t /\ live_id (reg st1) id)).
  - done.
  - exact T2.
  - done.
  - done.
  - apply client_ok_insert; [done|apply norm_tier_nonempty|by apply fresh_usable].
  - apply norm_tier_nonempty.
  - rewrite Hint. by rewrite decide_True.
  - cbn. rewrite (size_insert_present _ _ cb) by done. apply Rok1.
  - intros t' Hne. cbn. rewrite Hint, decide_False, Hcb by congruence. done.
  - intros id _. cbn. destruct (decide (id = encodeID k t)); tauto.
  - right. by intros _ [? _].
  - intros st3 HI3 E3. split; [done|]. rewrite E3. split; [exact Hg1|]. apply lookup_insert_eq.
Qed.

Lemma set_blocked_ok v cb : client_ok cb -> client_ok (set_buckets (set_blocked v <$> buckets cb) cb).
Proof.
  intros (Hd & He & Hf). split_and!; cbn.
  - rewrite lookup_fmap. destruct Hd as [b ->]. by eexists.
  - by rewrite lookup_fmap, He.
  - intros t b. rewrite lookup_fmap. destruct (buckets cb !! t) as [b0|] eqn:E; [|done].
    intros [= <-]. exact (Hf _ _ E).
Qed.

Lemma set_blocked_interval v cb t :
  tier_interval (set_buckets (set_blocked v <$> buckets cb) cb) t = tier_interval cb t.
Proof. unfold tier_interval. cbn. rewrite lookup_fmap. by destruct (buckets cb !! t). Qed.

Lemma inv_set_blocked st k cb v :
  inv st -> clients (reg st) !! k = Some cb ->
  inv (with_client k (set_buckets (set_blocked v <$> buckets cb) cb) st).
Proof.
  intros HI Hk. destruct (reg_clients _ (proj1 HI) _ _ Hk) as (_ & _ & Hok).
  eapply inv_same_client; [done|done|by apply set_blocked_ok|done|]. intros. apply set_blocked_interval.
Qed.

Lemma Block_spec st k now :
  inv st -> valid_key k ->
  may_panic (fun st' => stuck st st' /\ clients (reg st) !! k = None) (Store.Block k now) st (fun _ st' => inv st' /\ same_defaults (reg st) (reg st') /\
    clients (reg st') !! k = Some (set_buckets
      (set_blocked true <$> buckets (the_client (reg st) k now)) (the_client (reg st) k now))).
Proof.
  intros HI Hk. unfold Store.Block. apply mp_bind. mp_use EnsureClient_spec; [done|done|done|].
  intros _ st1 (HI1 & Hcb & Hg1%same_gates_defaults). apply mp_wp. eapply wp_on_client; [done|].
  unfold wp. rewrite BlockAll_run. split; [by apply inv_set_blocked|]. split; [exact Hg1|]. cbn. apply lookup_insert_eq.
Qed.

Lemma Unblock_spec st k :
  inv st ->
  wp (Store.Unblock k) st (fun _ st' => inv st' /\ same_defaults (reg st) (reg st') /\
    clients (reg st') !! k = (fun cb => set_buckets (set_blocked false <$> buckets cb) cb) <$>
                               clients (reg st) !! k).
Proof.
  intros HI. unfold Store.Unblock. apply wp_bind, wp_read_reg.
  destruct (clients (reg st) !! k) as [cb|] eqn:E; [|by wp_step].
  eapply wp_on_client; [done|]. unfold wp. rewrite UnblockAll_run.
  split; [by apply inv_set_blocked|]. split; [done|]. cbn. apply lookup_insert_eq.
Qed.

Lemma reg_ok_set_global r gb :
  reg_ok r -> (forall b, gb = Some b -> usable b) -> reg_ok (set_globalBucket gb r).
Proof. intros [Rc Ri Rg Rs Rp Rd] Hgb. by split. Qed.

Lemma SetGlobalConfig_spec st cfg now :
  inv st ->
  may_panic (fun st' => st' = st /\ allocatable cfg = false)
    (SetGlobalConfig cfg now) st (fun _ st' => inv st' /\
    reg st' = set_globalBucket (Some (Bucket.fresh cfg now)) (reg st)).
Proof.
  intros [Rok T]. unfold SetGlobalConfig. apply mp_bind, mp_New; intros Ha; [done|]. apply mp_wp.
  set (b := Bucket.fresh cfg now).
  assert (Rok' : reg_ok (set_globalBucket (Some b) (reg st))).
  { apply reg_ok_set_global; [done|]. intros ? [= <-]. by apply fresh_usable. }
  assert (Hint : bucket_interval b = Some (RefillInterval cfg)) by apply fresh_interval.
  assert (Hc : exists c, configPtr b = Some c) by by eexists. destruct Hc as [c Hc].
  apply wp_bind, wp_write_reg, wp_bind.
  eapply (wp_remove (live_id (reg st))); [exact T|]. intros st2 E2 T2. cbn in E2.
  destruct (Z.ltb_spec 0 (RefillInterval cfg)) as [Hi|Hi].
  - apply wp_bind. eapply wp_on_global; [by rewrite E2|]. eapply wp_next_refill; [done|].
    eapply wp_schedule; [exact T2|]. intros st3 E3 T3.
    assert (E : reg st3 = set_globalBucket (Some b) (reg st)) by (rewrite E3; cbn; by rewrite E2).
    split; [split; rewrite E|]; [done| |done]. eapply tracks_iff; [|exact T3].
    intros id _. cbn beta. rewrite live_set_global.
    change (Some b ≫= bucket_interval) with (bucket_interval b). rewrite Hint.
    destruct (decide (id = globalBucketID)) as [->|]; [|tauto]. split; [|auto]. eauto.
  - wp_step. split; [split; rewrite E2|]; [done| |done].
    eapply tracks_iff; [|exact T2].
    intros id _. cbn beta. rewrite live_set_global.
    change (Some b ≫= bucket_interval) with (bucket_interval b). rewrite Hint.
    split; [tauto|]. intros [[_ (? & [= <-] & ?)]|?]; [lia|done].
Qed.

Lemma DisableGlobal_spec st :
  inv st ->
  wp DisableGlobal st (fun _ st' => inv st' /\ reg st' = set_globalBucket None (reg st)).
Proof.
  intros [Rok T]. unfold DisableGlobal. apply wp_bind, wp_write_reg.
  eapply (wp_remove (live_id (reg st))); [exact T|]. intros st2 E2 T2. cbn in E2.
  split; [split; rewrite E2|]; [by apply reg_ok_set_global| |done].
  eapply tracks_iff; [|exact T2]. intros id _. cbn. rewrite live_set_global. cbn.
  split; [tauto|]. intros [[_ (? & ? & _)]|?]; done.
Qed.

Lemma SetIPLimit_spec st enabled cfg :
  inv st ->
  wp (SetIPLimit enabled cfg) st (fun _ st' => inv st' /\ clients (reg st') = clients (reg st) /\
    tierDefaults (reg st') = tierDefaults (reg st) /\
    ipLimitEnabled (reg st') = enabled /\ ipConfigPtr (reg st') = Some cfg).
Proof.
  intros [Rok T]. unfold SetIPLimit. apply wp_bind, wp_write_reg.
  set (st1 := set_reg _ st).
  assert (HI1 : inv st1).
  { split; [|exact T]. destruct Rok. by split. }
  destruct enabled; [by wp_step|]. apply wp_bind, wp_read_reg.
  apply (wp_for_each_inv (fun st' => inv st' /\ clients (reg st') = clients (reg st) /\
    tierDefaults (reg st') = tierDefaults (reg st) /\ ipLimitEnabled (reg st') = false /\ ipConfigPtr (reg st') = Some cfg)); [done|].
  intros ip st2 _ ([Rok2 T2] & E0 & E1 & E2 & E3). apply wp_bind.
  eapply (wp_remove (live_id (reg st2))); [exact T2|]. intros st3 E T3. apply wp_write_reg.
  rewrite E. split_and!; [split|done..]; cbn.
  - destruct Rok2 as [Rc Ri Rg Rs Rp Rd]. split; cbn; try done.
    + intros ip' b [_ Hb]%lookup_delete_Some. by apply Ri.
    + intros Hpos. specialize (Rp Hpos). rewrite map_size_delete.
      destruct (ipBuckets (reg st2) !! ip); cbn; lia.
  - eapply tracks_iff; [|exact T3]. intros id _. cbn. by rewrite live_delete_ip.
Qed.
End Invariant.
