(* ===== verification/StoreSystem.v ===== *)
(** * The store and its scheduler together

    The composition of internal/store and internal/scheduler as main.go wires
    them: [OnDue] is the scheduler's callback, and the store calls the
    scheduler through its interface.  An [op] is one call of the store's API or
    one firing of the scheduler; the theorems hold after every sequence of
    operations. *)

From stdpp Require Import base tactics gmap strings list sorting.
From Stdlib Require Import ZArith Lia Ascii.
From S2P Require Import Prelude GoTime GoString Window Bucket MultiBucket Heap Scheduler SchedulerIface Store StoreProofs.

Local Open Scope Z_scope.
Local Open Scope go_monad_scope.

(** ** The callback *)

(** The bucket an id stands for. *)
Definition id_bucket (r : Registry) (id : string) : option Bucket :=
  if bool_decide (id = globalBucketID) then globalBucket r
  else if HasPrefix id ipIDPrefix then ipBuckets r !! TrimPrefix id ipIDPrefix
  else match decodeID id with
       | (key, tier, true) => clients r !! key ≫= (fun cb => buckets cb !! tier)
       | _ => None
       end.

Lemma id_interval_bucket r id : id_interval r id = id_bucket r id ≫= bucket_interval.
Proof.
  unfold id_interval, id_bucket. case_bool_decide; [done|]. destruct (HasPrefix _ _); [done|].
  destruct (decodeID id) as [[k t] []]; [|done]. by destruct (clients r !! k).
Qed.

(** The registry with the bucket of [id] replaced. *)
Definition set_id_bucket (id : string) (b : Bucket) (r : Registry) : Registry :=
  if bool_decide (id = globalBucketID) then set_globalBucket (Some b) r
  else if HasPrefix id ipIDPrefix then
    set_ipBuckets (<[TrimPrefix id ipIDPrefix := b]> (ipBuckets r)) r
  else let '(key, tier, _) := decodeID id in
       match clients r !! key with
       | Some cb => set_clients (<[key := set_buckets (<[tier := b]> (buckets cb)) cb]> (clients r)) r
       | None => r
       end.

(** No id of a client tier ends with an empty tier name. *)
Definition tier_named (id : string) : Prop :=
  HasPrefix id ipIDPrefix = false -> forall k, decodeID id <> (k, "", true).

Lemma refill_and_next_spec now b :
  usable b ->
  wp (refill_and_next now) b (fun r b' => request_frame b b' /\ usable b' /\
    Bucket.ScheduledRefill now b = (Ok tt, b') /\
    exists cfg, configPtr b = Some cfg /\ r = (next_refill cfg b', true)).
Proof.
  intros Hu. unfold refill_and_next. apply wp_bind.
  pose proof (ScheduledRefill_total now b Hu) as ([] & b' & E & HF & Hu')%wp_value.
  unfold wp at 1. rewrite E. destruct (proj1 Hu) as (cfg & Hc & _).
  apply wp_bind. eapply wp_next_refill; [by rewrite (proj1 HF)|]. wp_step. eauto 6.
Qed.

Lemma OnDue_gone r id now :
  tier_named id -> id_bucket r id = None -> OnDue id now r = (Ok (zeroTime, false), r).
Proof.
  intros Hn Hb. unfold id_bucket in Hb. unfold OnDue. revert Hb.
  case_bool_decide; [unfold bind, gets; by intros ->|].
  destruct (HasPrefix _ _) eqn:Hp; [unfold bind, gets; by intros ->|].
  destruct (decodeID id) as [[k t] ok] eqn:Ed; destruct ok; cbn [negb]; [|done].
  unfold bind at 1, gets at 1. destruct (clients r !! k) as [cb|] eqn:Hk; [|done]. cbn. intros Hb.
  unfold bind, on_client, on_bucket, lookup_bucket.
  rewrite Hk, norm_tier_id by (intros ->; by apply (Hn Hp k)).
  rewrite Hb. cbn. rewrite insert_id by done. by destruct r.
Qed.

Lemma OnDue_live r id now b :
  tier_named id -> id_bucket r id = Some b -> usable b ->
  exists b' cfg, Bucket.ScheduledRefill now b = (Ok tt, b') /\ request_frame b b' /\ usable b' /\
    configPtr b = Some cfg /\
    OnDue id now r = (Ok (next_refill cfg b', true), set_id_bucket id b' r).
Proof.
  intros Hn Hb Hu.
  pose proof (refill_and_next_spec now b Hu) as (res & b' & E & HF & Hu' & Es & cfg & Hc & ->)%wp_value.
  exists b', cfg. split_and!; [done..|]. revert Hb. unfold OnDue, id_bucket, set_id_bucket.
  case_bool_decide.
  { unfold bind, gets, on_global. intros Hb. by rewrite Hb, Hb, E. }
  destruct (HasPrefix _ _) eqn:Hp.
  { unfold bind, gets, on_ip. intros Hb. by rewrite Hb, Hb, E. }
  destruct (decodeID id) as [[k t] ok] eqn:Ed; destruct ok; cbn [negb]; [|done].
  unfold bind at 1, gets at 1. destruct (clients r !! k) as [cb|] eqn:Hk; [|done]. cbn. intros Hb.
  unfold bind at 1, on_client, on_bucket, lookup_bucket, bind, at_tier. rewrite Hk.
  rewrite norm_tier_id by (intros ->; by apply (Hn Hp k)). by rewrite Hb, E.
Qed.

Lemma id_interval_same_client `{Mode} r k cb cb' id :
  reg_ok r -> clients r !! k = Some cb -> (forall t, tier_interval cb' t = tier_interval cb t) ->
  id_interval (set_clients (<[k := cb']> (clients r)) r) id = id_interval r id.
Proof.
  intros Rok Hk Ht. destruct (reg_clients _ Rok _ _ Hk) as (Hv & _).
  destruct (HasPrefix id ipIDPrefix) eqn:Hp.
  { unfold id_interval. cbn. case_bool_decide; [done|]. by rewrite Hp. }
  apply tracked_plain in Hp. destruct (encode_cases id k) as [[t ->]|Hid].
  - rewrite !id_interval_client by done. cbn. rewrite lookup_insert_eq, Hk. cbn. by rewrite Ht.
  - apply (id_interval_other_client _ k); [done|]. intros. by apply lookup_insert_ne.
Qed.

(** Replacing the bucket of an id by one with the same configuration keeps the
    registry well formed and every refill interval. *)
Lemma set_id_bucket_ok `{Mode} r id b b' :
  reg_ok r -> tier_named id -> id_bucket r id = Some b -> usable b' -> configPtr b' = configPtr b ->
  reg_ok (set_id_bucket id b' r) /\
  forall id', id_interval (set_id_bucket id b' r) id' = id_interval r id'.
Proof.
  intros Rok Hn Hb Hu Hc. assert (Hint : bucket_interval b' = bucket_interval b).
  { unfold bucket_interval. by rewrite Hc. }
  unfold id_bucket, set_id_bucket in *. case_bool_decide as Hg.
  { split; [apply reg_ok_set_global; [done|by intros ? [= <-]]|]. intros id'.
    unfold id_interval. cbn. case_bool_decide; [|done]. rewrite Hb. exact Hint. }
  destruct (HasPrefix id ipIDPrefix) eqn:Hp.
  { split.
    - apply reg_ok_set_ip; [done|by eapply (reg_ips _ Rok)|done|].
      rewrite (size_insert_present _ _ b) by done. apply Rok.
    - intros id'. apply HasPrefix_inv in Hp as [ip ->]. rewrite TrimPrefix_append in *.
      destruct (decide (id' = ipIDPrefix +:+ ip)) as [->|].
      + rewrite !id_interval_ip. cbn. rewrite lookup_insert_eq, Hb. exact Hint.
      + apply (id_interval_other_ip _ ip); [done|]. intros. by apply lookup_insert_ne. }
  destruct (decodeID id) as [[k t] []] eqn:Ed; [|done].
  destruct (clients r !! k) as [cb|] eqn:Hk; [|done]. cbn in Hb.
  destruct (reg_clients _ Rok _ _ Hk) as (Hv & Hck & Hok). split.
  - apply reg_ok_set_client; [done|done|done| |].
    + apply client_ok_insert; [done| |done]. intros ->. by apply (Hn Hp k).
    + rewrite (size_insert_present _ _ cb) by done. apply Rok.
  - intros id'. apply (id_interval_same_client _ _ cb); [done|done|].
    intros t'. by eapply tier_interval_same.
Qed.

(** The block flags of a client's tiers. *)
Definition flags (cb : ClientBuckets) : gmap string bool := blocked <$> buckets cb.

(** The same clients, with the same flags. *)
Definition same_flags (r r' : Registry) : Prop :=
  forall k : string, flags <$> (clients r' !! k) = flags <$> (clients r !! k).

#[export] Instance same_flags_preorder : PreOrder same_flags.
Proof. split; unfold same_flags; [by intros ? ?|]. intros r1 r2 r3 E1 E2 k. by rewrite E2, E1. Qed.

Lemma IsBlocked_flags `{MapRange} cb cb' :
  flags cb = flags cb' -> MultiBucket.IsBlocked cb = MultiBucket.IsBlocked cb'.
Proof.
  assert (Hone : forall cb cb', flags cb = flags cb' ->
    MultiBucket.IsBlocked cb = true -> MultiBucket.IsBlocked cb' = true).
  { intros c c' E. rewrite !IsBlocked_iff. intros (t & b & Hb & Hblk).
    assert (Hf : flags c !! t = Some true) by (unfold flags; by rewrite lookup_fmap, Hb, <- Hblk).
    rewrite E in Hf. unfold flags in Hf. rewrite lookup_fmap in Hf.
    destruct (buckets c' !! t) as [b'|] eqn:Hb'; [|done]. injection Hf as Hf. eauto. }
  intros E. apply eq_true_iff_eq. split; apply Hone; congruence.
Qed.

Lemma set_id_bucket_flags r id b b' :
  id_bucket r id = Some b -> blocked b' = blocked b -> same_flags r (set_id_bucket id b' r).
Proof.
  unfold id_bucket, set_id_bucket. intros Hb E. repeat (case_bool_decide || case_match; try done).
  subst. cbn in Hb. intros k. cbn. destruct (decide (k = s)) as [->|Hne].
  - rewrite lookup_insert_eq. destruct (clients r !! s) as [cb|] eqn:Hk; [|done]. simplify_eq.
    cbn in *. f_equal. unfold flags. cbn. rewrite fmap_insert, E. apply insert_id.
    by rewrite lookup_fmap, Hb.
  - by rewrite lookup_insert_ne.
Qed.

Lemma id_bucket_usable `{Mode} r id b : reg_ok r -> id_bucket r id = Some b -> usable b.
Proof.
  intros Rok. unfold id_bucket. case_bool_decide; [apply (reg_global _ Rok)|].
  destruct (HasPrefix _ _); [intros Hb; by eapply (reg_ips _ Rok)|].
  destruct (decodeID id) as [[k t] []]; [|done]. destruct (clients r !! k) as [cb|] eqn:Hk; [|done].
  cbn. apply (reg_clients _ Rok _ _ Hk).
Qed.

Lemma live_bucket `{Mode} r id :
  reg_ok r -> live_id r id -> exists b, id_bucket r id = Some b /\ usable b.
Proof.
  intros Rok (i & Hi & _). rewrite id_interval_bucket in Hi.
  destruct (id_bucket r id) as [b|] eqn:Hb; [|done]. eauto using id_bucket_usable.
Qed.

Lemma live_named `{Mode} r id : reg_ok r -> live_id r id -> tier_named id.
Proof.
  intros Rok Hl Hp k Ed. destruct (live_bucket r id Rok Hl) as (b & Hb & _). unfold id_bucket in Hb.
  revert Hb. case_bool_decide as Hg; [by rewrite Hg in Ed|]. rewrite Hp, Ed.
  destruct (clients r !! k) as [cb|] eqn:Hk; [|done]. cbn. intros Hb.
  destruct (reg_clients _ Rok _ _ Hk) as (_ & _ & _ & He & _). congruence.
Qed.

(** ** Firing the scheduler *)

Section Fire.
Context `{Mode} (now : Time).

(** A due id the invariant accounts for is put back; any other one is put back
    or dropped. *)
Lemma fire_one m r id :
  reg_ok r -> (tracked id = true -> live_id r id) ->
  exists m' r', fire_spec OnDue now id (m, r) = (Ok tt, (m', r')) /\ reg_ok r' /\ same_defaults r r' /\
    same_flags r r' /\
    (forall id', id_interval r' id' = id_interval r id') /\
    (forall id', tracked id' = true -> is_Some (m' !! id') <-> is_Some (m !! id') \/ id' = id).
Proof.
  intros Rok Hl. unfold fire_spec. cbn [fst snd].
  assert (Hn : tier_named id).
  { intros Hp. by apply (live_named r id Rok (Hl (tracked_plain _ Hp)) Hp). }
  destruct (id_bucket r id) as [b|] eqn:Hb.
  - destruct (OnDue_live r id now b Hn Hb (id_bucket_usable r id b Rok Hb))
      as (b' & cfg & _ & HF & Hu' & _ & E).
    destruct (set_id_bucket_ok r id b b' Rok Hn Hb Hu' (proj1 HF)) as [Rok' Hint].
    rewrite E. eexists _, _. split_and!; [reflexivity|done| | |done|].
    { unfold set_id_bucket. repeat case_match; done. }
    { eapply set_id_bucket_flags; [done|apply HF]. }
    intros id' _.
    rewrite lookup_insert_is_Some. destruct (decide (id = id')) as [->|]; [tauto|].
    intuition congruence.
  - rewrite (OnDue_gone r id now Hn Hb). eexists _, _. split_and!; [reflexivity|done|done|by intros ?|done|].
    intros id' Hz'. split; [auto|]. intros [? | ->]; [done|].
    destruct (live_bucket r id Rok (Hl Hz')) as (b & Hb' & _). congruence.
Qed.

Lemma fire_all ids : forall m r,
  reg_ok r -> (forall id, id ∈ ids -> tracked id = true -> live_id r id) ->
  exists m' r', for_each ids (fire_spec OnDue now) (m, r) = (Ok tt, (m', r')) /\ reg_ok r' /\
    same_defaults r r' /\ same_flags r r' /\
    (forall id', id_interval r' id' = id_interval r id') /\
    (forall id, tracked id = true -> is_Some (m' !! id) <-> is_Some (m !! id) \/ id ∈ ids).
Proof.
  induction ids as [|id ids IH]; intros m r Rok Hl; cbn [for_each].
  { exists m, r. split_and!; [done|done|done|by intros ?|done|]. intros id _. split; [auto|]. by intros [?|[]%not_elem_of_nil]. }
  destruct (fire_one m r id Rok) as (m1 & r1 & E & Rok1 & Hd1 & Hfl1 & Hint1 & Hm1); [apply Hl; by left|].
  destruct (IH m1 r1 Rok1) as (m' & r' & E' & Rok' & Hd' & Hfl' & Hint' & Hm).
  { intros id' Hin Hz. unfold live_id. rewrite Hint1. apply Hl; [by right|done]. }
  exists m', r'. unfold bind. rewrite E, E'. split_and!; [done|done|by etrans|by etrans|congruence|].
  intros id' Hz. rewrite (Hm _ Hz), (Hm1 _ Hz), elem_of_cons. tauto.
Qed.
End Fire.

(** One [processDue] of the attached scheduler. *)
Definition tick (now : Time) : M (BucketStore Scheduler) unit :=
  fun st => match scheduler st with
            | None => (Ok tt, st)
            | Some sc =>
                let '(r, (sc', rg')) := processDue OnDue now (sc, reg st) in
                (r, {| reg := rg'; scheduler := Some sc' |})
            end.

Section System.
Context `{MapRange} `{Mode}.
Implicit Types st : BucketStore Scheduler.

Lemma tick_spec st now :
  inv st ->
  wp (tick now) st (fun _ st' => inv st' /\ same_defaults (reg st) (reg st') /\
    same_flags (reg st) (reg st') /\
    forall id, id_interval (reg st') id = id_interval (reg st) id).
Proof.
  intros [Rok T]. unfold wp, tick. destruct (scheduler st) as [sc|] eqn:Esc; [|split_and!; [by split|done|by intros ?|done]].
  unfold tracks in T. rewrite Esc in T. destruct T as [W Hdue]. cbn in W, Hdue.
  destruct (processDue_sim OnDue now sc (reg st) W) as (xs & r & s' & e' & HP & _ & E & Ef & W').
  assert (Hids : forall id, id ∈ xs.*1 <-> exists t, schedule sc !! id = Some t /\ t <= now).
  { intros id. rewrite HP. rewrite list_elem_of_fmap. split.
    - intros ([i t] & -> & Hin%elem_of_map_to_list). apply map_lookup_filter_Some in Hin. eauto.
    - intros (t & Ht & Hle). exists (id, t). split; [done|]. apply elem_of_map_to_list.
      by apply map_lookup_filter_Some. }
  destruct (fire_all now xs.*1 (later_part now (schedule sc)) (reg st) Rok)
    as (m' & r' & Ef' & Rok' & Hd & Hfl & Hint & Hm).
  { intros id (t & Ht & _)%Hids Hz. apply (Hdue _ Hz). eauto. }
  rewrite Ef in Ef'. simplify_eq. rewrite E. split; [split|split_and!]; [done| |done|done|done].
  unfold tracks. cbn. split; [done|]. intros id Hz. rewrite (Hm _ Hz), Hids. unfold live_id. rewrite Hint.
  fold (live_id (reg st) id). rewrite <- (Hdue _ Hz). unfold later_part. split.
  - intros [[t [Ht _]%map_lookup_filter_Some]|(t & Ht & _)]; eauto.
  - intros [t Ht]. destruct (Z.ltb_spec now t); [left|right; eauto].
    exists t. by apply map_lookup_filter_Some.
Qed.

(** ** Sequences of operations *)

Inductive op :=
| OpAllow (req : AllowRequest) (wall : Time)
| OpUpdateClientConfig (key tier : string) (cfg : Config) (now : Time)
| OpBlock (key : string) (now : Time)
| OpUnblock (key : string)
| OpSetGlobalConfig (cfg : Config) (now : Time)
| OpDisableGlobal
| OpSetIPLimit (enabled : bool) (cfg : Config)
| OpDue (now : Time).

(** The client keys of an operation are ones the servers let through (in mode
    [Strict], and are not "__ip__"). *)
Definition op_valid (o : op) : Prop :=
  match o with
  | OpAllow req _ => valid_key (ClientKey req)
  | OpUpdateClientConfig key _ _ _ | OpBlock key _ => valid_key key
  | _ => True
  end.

Definition exec (o : op) : M (BucketStore Scheduler) unit :=
  match o with
  | OpAllow req wall => let! _r := Store.Allow req wall in ret tt
  | OpUpdateClientConfig key tier cfg now => UpdateClientConfig key tier cfg now
  | OpBlock key now => Store.Block key now
  | OpUnblock key => Store.Unblock key
  | OpSetGlobalConfig cfg now => SetGlobalConfig cfg now
  | OpDisableGlobal => DisableGlobal
  | OpSetIPLimit enabled cfg => SetIPLimit enabled cfg
  | OpDue now => tick now
  end.

(** A window of this size can be allocated. *)
Definition op_fits (o : op) : Prop :=
  match o with
  | OpUpdateClientConfig _ _ cfg _ | OpSetGlobalConfig cfg _ | OpSetIPLimit _ cfg =>
      allocatable cfg = true
  | _ => True
  end.

(** The servers recover from the panic of a request, the goroutine of the
    scheduler does not. *)
Definition serve (o : op) : M (BucketStore Scheduler) unit :=
  match o with
  | OpDue now => tick now
  | _ => recover_with tt (exec o)
  end.

(** The store as main.go starts it. *)
Definition start (opts : Options) : BucketStore Scheduler :=
  snd (AttachScheduler Scheduler.New {| reg := Store.New opts; scheduler := None |}).

Lemma start_inv opts : inv (start opts).
Proof.
  split.
  - split; cbn; try done.
    + intros Hpos. rewrite map_size_empty. cbn. lia.
    + intros Hpos. rewrite map_size_empty. cbn in *. lia.
    + destruct (TierDefaults opts !! DefaultTier) eqn:E; [by eexists|].
      rewrite lookup_insert_eq. by eexists.
  - split; [apply scheduler_New_wf|]. intros id. split.
    + intros [t Ht]. change (schedule Scheduler.New !! id = Some t) in Ht.
      by rewrite (proj2 scheduler_New_wf), lookup_empty in Ht.
    + intros (i & Hi & _). rewrite id_interval_bucket in Hi. unfold id_bucket in Hi. cbn in Hi.
      case_bool_decide; [done|]. destruct (HasPrefix _ _); [by rewrite lookup_empty in Hi|].
      destruct (decodeID id) as [[k t] []]; [by rewrite lookup_empty in Hi|done].
Qed.

(** Operations keep the invariant, also when they panic, which they do only for
    a window that cannot be allocated. *)
Lemma exec_spec o st : op_valid o -> inv st ->
  may_panic (fun st' => inv st' /\ ~ (fits (reg st) /\ op_fits o)) (exec o) st
    (fun _ st' => inv st' /\ (fits (reg st) /\ op_fits o -> fits (reg st'))).
Proof.
  assert (Hkeep : forall r r', same_defaults r r' -> fits r /\ op_fits o -> fits r').
  { intros r r' E [? _]. by rewrite (fits_same _ _ E). }
  intros Hv HI. destruct o; cbn [exec].
  - apply mp_bind. mp_use Allow_spec; [done|done|intros st' [? ?]; split; [done|tauto]|].
    intros r st' (? & Hd & _). apply mp_ret. eauto.
  - mp_use UpdateClientConfig_spec; [done|done| |intros _ st' (? & Hd & _); eauto].
    intros st' [? Hn]. split; [done|]. cbn. intros [? ?]. destruct Hn as [[? _]|?]; [done|congruence].
  - mp_use Block_spec; [done|done|intros st' [[? ?] _]; split; [done|tauto]|].
    intros _ st' (? & Hd & _); eauto.
  - apply mp_wp. wp_use Unblock_spec; [done|]. intros _ st' (? & Hd & _); eauto.
  - mp_use SetGlobalConfig_spec; [done| |].
    + intros st' [-> Ha]. split; [done|]. cbn. intros [_ ?]. congruence.
    + intros _ st' (? & E). split; [done|]. rewrite E. by intros [? _].
  - apply mp_wp. wp_use DisableGlobal_spec; [done|]. intros _ st' (? & E). split; [done|].
    rewrite E. by intros [? _].
  - apply mp_wp. wp_use SetIPLimit_spec; [done|]. intros _ st' (? & _ & Et & _ & Ei). split; [done|].
    intros [[Hf _] Ha]. split; [by rewrite Et|]. rewrite Ei. by intros ? [= <-].
  - apply mp_wp. wp_use tick_spec; [done|]. intros _ st' (? & Hd & _). eauto.
Qed.

Lemma serve_spec o st : op_valid o -> inv st ->
  wp (serve o) st (fun _ st' => inv st' /\
    (fits (reg st) /\ op_fits o -> exec o st = (Ok tt, st') /\ fits (reg st'))).
Proof.
  intros Hv HI. pose proof (exec_spec o st Hv HI) as He.
  assert (Hr : wp (recover_with tt (exec o)) st (fun _ st' => inv st' /\
    (fits (reg st) /\ op_fits o -> exec o st = (Ok tt, st') /\ fits (reg st')))).
  { apply mp_value in He as [([] & st' & E & ? & ?)|(st' & E & ? & Hn)];
      unfold wp, recover_with; rewrite E; [by eauto|]. by split. }
  destruct o; try exact Hr. cbn [serve].
  apply wp_value in Hr as ([] & st' & E & HI' & Hx).
  pose proof (tick_spec st now HI) as ([] & st2 & E2 & _)%wp_value.
  unfold wp. rewrite E2. unfold recover_with in E. cbn [exec] in E. rewrite E2 in E.
  injection E as ->. cbn [exec] in *. auto.
Qed.

(** The scheduler is attached once and for all. *)
Definition sched_kept {S} (st st' : BucketStore S) : Prop :=
  is_Some (scheduler st) -> is_Some (scheduler st').

#[export] Instance sched_kept_preorder {S} : PreOrder (@sched_kept S).
Proof. split; unfold sched_kept; [by intros ?|intros ? ? ?; auto]. Qed.

Lemma with_scheduler_kept {S} `{SchedulerOps S} (c : M S unit) : preserves sched_kept (with_scheduler c).
Proof.
  intros st. unfold with_scheduler. destruct (scheduler st) as [sc|] eqn:E; [|done].
  destruct (c sc). intros _. by eexists.
Qed.

Lemma on_reg_kept {S A} (c : M Registry A) : preserves (@sched_kept S) (on_reg c).
Proof. intros st. unfold on_reg, zoom. destruct (c (reg st)). by intros ?. Qed.

Lemma run_fresh_kept {S T} (c : M T unit) (t : T) : preserves (@sched_kept S) (run_fresh c t).
Proof. intros st. unfold run_fresh. destruct (c t) as [[] ?]; by intros ?. Qed.

Lemma New_kept {S} cfg now : preserves (@sched_kept S) (Bucket.New cfg now).
Proof. intros st. rewrite New_run. by destruct (allocatable cfg); intros ?. Qed.

Lemma tick_kept now : preserves sched_kept (tick now).
Proof.
  intros st. unfold tick. destruct (scheduler st) as [sc|]; [|done].
  destruct (processDue OnDue now (sc, reg st)) as [r [sc' rg']]. by eexists.
Qed.

Lemma exec_kept o : preserves sched_kept (exec o).
Proof.
  destruct o; cbn [exec]; unfold Store.Allow, global_gate, ip_gate, client_gate, Store.Block,
    UpdateClientConfig, EnsureClient, getOrCreateClient, ensureTier, getOrCreateIPBucket,
    evictOldestIPLocked, evictLRULocked, Store.Unblock, SetGlobalConfig, DisableGlobal,
    SetIPLimit, schedule_tier;
    frame; first [apply on_reg_kept|apply with_scheduler_kept|apply run_fresh_kept|apply tick_kept|apply New_kept].
Qed.

Lemma serve_kept o : preserves sched_kept (serve o).
Proof.
  destruct o; cbn [serve]; try (apply preserves_recover_with, exec_kept). apply tick_kept.
Qed.

Lemma run_inv opts ops :
  Forall op_valid ops ->
  exists st, for_each ops serve (start opts) = (Ok tt, st) /\ inv st /\ is_Some (scheduler st).
Proof.
  intros Hv. assert (Hw : wp (for_each ops serve) (start opts) (fun _ => inv)).
  { apply wp_for_each_inv; [apply start_inv|]. intros o st Ho HI.
    rewrite Forall_forall in Hv. wp_use serve_spec; [by apply Hv|done|]. by intros _ st' [? _]. }
  apply wp_value in Hw as ([] & st & E & ?). exists st. split_and!; [done|done|].
  assert (Hp : preserves sched_kept (for_each ops serve)).
  { apply preserves_for_each; [apply _|]. intros. apply serve_kept. }
  specialize (Hp (start opts)). rewrite E in Hp. apply Hp. by eexists.
Qed.

(** When every window can be allocated, there is nothing to recover from. *)
Lemma run_fits ops : forall st,
  inv st -> fits (reg st) -> Forall op_valid ops -> Forall op_fits ops ->
  for_each ops exec st = for_each ops serve st.
Proof.
  induction ops as [|o ops IH]; intros st HI Hf Hv Ho; [done|].
  apply Forall_cons in Hv as [Hv Hvs]. apply Forall_cons in Ho as [Ho Hos].
  pose proof (serve_spec o st Hv HI) as ([] & st' & E & HI' & He)%wp_value.
  destruct (He (conj Hf Ho)) as [Ee Hf']. cbn [for_each]. unfold bind. rewrite E, Ee. auto.
Qed.
End System.

(** ** Blocked clients

    What one operation can do to a blocked client that it does not unblock or
    reconfigure: the client stays blocked, or it is evicted. *)

Section Blocked.
Context {S : Type} `{SchedulerOps S} `{MapRange} (k : string).

(** Client [k] is as before, or gone. *)
Definition spares (r r' : Registry) : Prop :=
  forall cb, clients r' !! k = Some cb -> clients r !! k = Some cb.
Definition spared (st st' : BucketStore S) : Prop := spares (reg st) (reg st').

#[export] Instance spares_preorder : PreOrder spares.
Proof. split; unfold spares; [by intros ?|]. intros r1 r2 r3 H1 H2 cb ?. auto. Qed.
#[export] Instance spared_preorder : PreOrder spared.
Proof. split; unfold spared; [by intros ? ?|]. intros ? ? ?. apply transitivity. Qed.

Lemma on_reg_spared {A} (c : M Registry A) : preserves spares c -> preserves spared (on_reg c).
Proof. intros Hc st. specialize (Hc (reg st)). unfold on_reg, zoom. by destruct (c (reg st)). Qed.

Lemma with_scheduler_spared (c : M S unit) : preserves spared (with_scheduler c).
Proof. intros st cb. unfold with_scheduler. destruct (scheduler st); [|done]. by destruct (c _). Qed.

Lemma run_fresh_spared {T} (c : M T unit) (t : T) : preserves spared (run_fresh c t).
Proof. intros st cb. unfold run_fresh. by destruct (c t) as [[] ?]. Qed.

Lemma New_spared cfg now : preserves spared (Bucket.New cfg now).
Proof. intros st cb. rewrite New_run. by destruct (allocatable cfg). Qed.

Lemma on_client_spared {A} j (c : M ClientBuckets A) : j <> k -> preserves spares (on_client j c).
Proof.
  intros Hj r cb2. unfold on_client. destruct (clients r !! j) as [cb|]; [|done].
  destruct (c cb) as [o cb']. cbn. by rewrite lookup_insert_ne.
Qed.

Lemma on_ip_spared {A} ip (c : M Bucket A) : preserves spares (on_ip ip c).
Proof. intros r cb. unfold on_ip. destruct (ipBuckets r !! ip); [|done]. by destruct (c _). Qed.

Lemma on_global_spared {A} (c : M Bucket A) : preserves spares (on_global c).
Proof. intros r cb. unfold on_global. destruct (globalBucket r); [|done]. by destruct (c _). Qed.

Lemma modify_spared f : (forall r, spares r (f r)) -> preserves spares (modify f).
Proof. intros Hf r. apply Hf. Qed.

Hint Resolve with_scheduler_spared run_fresh_spared New_spared : frame.

Ltac spare :=
  frame;
  try (apply on_reg_spared;
       first [apply on_client_spared; done | apply on_ip_spared | apply on_global_spared
             | apply modify_spared; intros r cb; cbn;
               rewrite ?lookup_delete_Some, ?lookup_insert_ne by done; tauto
             | frame]).

Lemma schedule_tier_spared j tier i : j <> k -> preserves spared (schedule_tier j tier i).
Proof. intros Hj. unfold schedule_tier. spare. Qed.

Lemma getOrCreateClient_spared j now : j <> k -> preserves spared (getOrCreateClient j now).
Proof.
  intros Hj. unfold getOrCreateClient, evictLRULocked. spare. by apply schedule_tier_spared.
Qed.

Lemma global_gate_spared now : preserves spared (global_gate now).
Proof. unfold global_gate. spare. Qed.

Lemma ip_gate_spared ip now : preserves spared (ip_gate ip now).
Proof. unfold ip_gate, getOrCreateIPBucket, evictOldestIPLocked. spare. Qed.

Lemma client_gate_spared j tier now : j <> k -> preserves spared (client_gate j tier now).
Proof.
  intros Hj. unfold client_gate, ensureTier. spare. by apply getOrCreateClient_spared.
Qed.

Lemma Allow_spared req wall : ClientKey req <> k -> preserves spared (Store.Allow req wall).
Proof.
  intros Hj. unfold Store.Allow. spare;
    first [apply global_gate_spared|apply ip_gate_spared|by apply client_gate_spared].
Qed.

Lemma UpdateClientConfig_spared j tier cfg now :
  j <> k -> preserves spared (UpdateClientConfig j tier cfg now).
Proof.
  intros Hj. unfold UpdateClientConfig, EnsureClient. spare;
    first [by apply getOrCreateClient_spared|by apply schedule_tier_spared].
Qed.

Lemma Block_spared j now : j <> k -> preserves spared (Store.Block j now).
Proof. intros Hj. unfold Store.Block, EnsureClient. spare. by apply getOrCreateClient_spared. Qed.

Lemma Unblock_spared j : j <> k -> preserves spared (Store.Unblock j).
Proof. intros Hj. unfold Store.Unblock. spare. Qed.
End Blocked.

Section Block.
Context {S : Type} `{SchedulerLaws S} `{MapRange} `{Mode}.
Implicit Types st : BucketStore S.

(** A panic and a framing lemma together. *)
Lemma mp_preserves {S' A} (R : S' -> S' -> Prop) (P : S' -> Prop) (c : M S' A) s Q :
  may_panic P c s Q -> preserves R c -> may_panic (fun s' => P s' /\ R s s') c s Q.
Proof. intros Hc HR. specialize (HR s). unfold may_panic in *. by destruct (c s) as [[] ?]. Qed.

Lemma client_gate_blocked st key tier now cb :
  clients (reg st) !! key = Some cb -> MultiBucket.IsBlocked cb = true ->
  wp (client_gate key tier now) st (fun res st' => res = rejected "blocked" Second /\ st' = st).
Proof.
  intros Hk Hb. unfold client_gate, getOrCreateClient. apply wp_bind, wp_bind, wp_read_reg.
  rewrite Hk. apply wp_ret, wp_bind. eapply wp_read_client; [done|]. rewrite Hb. by wp_step.
Qed.

(** A request of a blocked client. *)
Lemma Allow_blocked st req wall cb :
  inv st -> clients (reg st) !! ClientKey req = Some cb -> MultiBucket.IsBlocked cb = true ->
  may_panic (fun st' => stuck st st' /\ spares (ClientKey req) (reg st) (reg st'))
    (Store.Allow req wall) st
    (fun res st' => inv st' /\ Allowed res = false /\ clients (reg st') = clients (reg st)).
Proof.
  intros HI Hk Hb. unfold Store.Allow. set (now := if _ : bool then _ else _).
  apply mp_bind_wp. wp_use global_gate_spec; [done|]. intros g st1 (HI1 & Hs1 & ->).
  assert (Hd1 : same_defaults (reg st) (reg st1)) by (split; apply Hs1).
  destruct (globalBucket (reg st) ≫= denial now) as [d|]; cbn [fmap option_fmap option_map].
  { apply mp_ret. split_and!; [done|done|apply Hs1]. }
  apply mp_bind. eapply mp_mono; [apply (mp_preserves (spared (ClientKey req))); [by apply ip_gate_spec|apply ip_gate_spared]|..].
  { intros st2 [Hst Hsp]. split; [by eapply stuck_later|]. intros cb2 Hcb2. apply Hsp in Hcb2.
    by rewrite (proj1 Hs1) in Hcb2. }
  intros g st2 (HI2 & Hs2 & ->).
  assert (Ecl : clients (reg st2) = clients (reg st)) by (rewrite (proj1 Hs2); apply Hs1).
  destruct (if _ && _ then _ else None) as [d|]; cbn [fmap option_fmap option_map].
  { by apply mp_ret. }
  apply mp_wp. wp_use client_gate_blocked; [by rewrite Ecl|done|]. by intros res st3 [-> ->].
Qed.
End Block.

Section BlockedRun.
Context `{MapRange} `{Mode} (k : string).
Implicit Types st : BucketStore Scheduler.

(** The state after a sequence of operations. *)
Definition after (ops : list op) st : BucketStore Scheduler := foldl (fun st o => snd (serve o st)) st ops.

(** The operations that do not concern the block of client [k]. *)
Definition keeps_block (o : op) : Prop :=
  match o with
  | OpUnblock key | OpUpdateClientConfig key _ _ _ => key <> k
  | _ => True
  end.

Definition blocked_at st : Prop :=
  exists cb, clients (reg st) !! k = Some cb /\ MultiBucket.IsBlocked cb = true.

Lemma spared_blocked st st' :
  spares k (reg st) (reg st') -> blocked_at st -> is_Some (clients (reg st') !! k) -> blocked_at st'.
Proof.
  intros Hs (cb & Hk & Hb) [cb' Hk']. exists cb'. split; [done|].
  apply Hs in Hk'. by replace cb' with cb by congruence.
Qed.

Lemma same_clients_blocked st st' :
  clients (reg st') = clients (reg st) -> blocked_at st -> blocked_at st'.
Proof. unfold blocked_at. by intros ->. Qed.

Lemma Block_blocked st now :
  inv st -> valid_key k ->
  may_panic (fun _ => clients (reg st) !! k = None) (Store.Block k now) st (fun _ st' => inv st' /\ blocked_at st').
Proof.
  intros HI Hk. mp_use Block_spec; [done|done|by intros st' [_ ?]|].
  intros _ st' (HI' & _ & Hc). split; [done|]. exists (set_buckets
      (set_blocked true <$> buckets (the_client (reg st) k now)) (the_client (reg st) k now)).
  split; [exact Hc|]. apply IsBlocked_iff.
  destruct (reg_clients _ (proj1 HI') _ _ Hc) as (_ & _ & [b Hb] & _). cbn in Hb.
  exists DefaultTier, b. split; [exact Hb|].
  rewrite lookup_fmap in Hb. destruct (buckets (the_client (reg st) k now) !! DefaultTier); [|done]. by injection Hb as <-.
Qed.

(** What a recovered operation leaves, read off a framing lemma. *)
Lemma recovered_blocked o st :
  preserves (spared k) (exec o) -> blocked_at st ->
  is_Some (clients (reg (snd (recover_with tt (exec o) st))) !! k) ->
  blocked_at (snd (recover_with tt (exec o) st)).
Proof.
  intros Hp Hb Hs. eapply spared_blocked; [|exact Hb|exact Hs]. specialize (Hp st). unfold recover_with.
  by destruct (exec o st) as [[] ?].
Qed.

Lemma serve_blocked o st :
  op_valid o -> keeps_block o -> inv st -> blocked_at st ->
  is_Some (clients (reg (snd (serve o st))) !! k) -> blocked_at (snd (serve o st)).
Proof.
  intros Hv Hkb HI Hb. destruct o; cbn [serve] in *.
  - destruct (decide (ClientKey req = k)) as [E|Hne].
    + intros Hs. destruct Hb as (cb & Hk & Hcb). rewrite <- E in Hk.
      pose proof (Allow_blocked st req wall cb HI Hk Hcb) as Ha. rewrite E in Hk.
      assert (Hb : blocked_at st) by by exists cb. revert Hs.
      apply mp_value in Ha as [(res & st' & Ea & _ & _ & Ecl)|(st' & Ea & _ & Hsp)];
        unfold recover_with; cbn [exec]; unfold bind; rewrite Ea; cbn; intros Hs.
      * by eapply same_clients_blocked.
      * eapply spared_blocked; [|done|done]. by rewrite E in Hsp.
    + apply recovered_blocked; [|done]. cbn [exec].
      apply preserves_bind; [apply _|by apply Allow_spared|]. intros _ st0 cb0. done.
  - apply recovered_blocked; [|done]. by apply UpdateClientConfig_spared.
  - destruct (decide (key = k)) as [->|Hne].
    + intros _. destruct Hb as (cb & Hk & Hcb).
      destruct (mp_value _ _ _ _ (Block_blocked st now HI Hv)) as [([] & st' & E & _ & Hb')|(st' & _ & Hn)];
        [|congruence]. unfold recover_with. cbn [exec]. by rewrite E.
    + apply recovered_blocked; [|done]. by apply Block_spared.
  - apply recovered_blocked; [|done]. by apply Unblock_spared.
  - intros _. unfold recover_with. cbn [exec].
    destruct (mp_value _ _ _ _ (SetGlobalConfig_spec st cfg now HI)) as [([] & st' & -> & _ & E)|(st' & -> & -> & _)];
      [|done]. eapply same_clients_blocked; [|exact Hb]. cbn. by rewrite E.
  - intros _. unfold recover_with. cbn [exec].
    pose proof (DisableGlobal_spec st HI) as ([] & st' & -> & _ & E)%wp_value.
    eapply same_clients_blocked; [|exact Hb]. cbn. by rewrite E.
  - intros _. unfold recover_with. cbn [exec].
    pose proof (SetIPLimit_spec st enabled cfg HI) as ([] & st' & -> & _ & E & _)%wp_value.
    by eapply same_clients_blocked.
  - intros _. pose proof (tick_spec st now HI) as ([] & st' & -> & _ & _ & Hfl & _)%wp_value.
    destruct Hb as (cb & Hk & Hcb). specialize (Hfl k). rewrite Hk in Hfl.
    unfold blocked_at. cbn [snd]. destruct (clients (reg st') !! k) as [cb'|]; [|done].
    injection Hfl as Hfl. exists cb'. split; [done|]. by rewrite (IsBlocked_flags cb' cb).
Qed.

Lemma after_blocked ops : forall st,
  Forall op_valid ops -> Forall keeps_block ops -> inv st -> blocked_at st ->
  (forall n, is_Some (clients (reg (after (take n ops) st)) !! k)) ->
  inv (after ops st) /\ blocked_at (after ops st).
Proof.
  induction ops as [|o ops IH]; intros st Hv Hkb HI Hb Hs; [done|].
  apply Forall_cons in Hv as [Hv Hvs]. apply Forall_cons in Hkb as [Hk Hkbs].
  pose proof (serve_spec o st Hv HI) as ([] & st' & E & HI' & _)%wp_value.
  assert (Hb' : blocked_at (snd (serve o st))) by (apply serve_blocked; [done..|exact (Hs 1%nat)]).
  cbn. apply IH; [done|done|by rewrite E|done|]. intros n. exact (Hs (Datatypes.S n)).
Qed.
End BlockedRun.

(** ** Properties *)

(** C5: the decision.  From every state of the store, [Allow] returns the
    result the three gates dictate ([Spec_Allow]): a denial of the global
    bucket, else of the source's per-IP bucket, else the client's block, else
    the verdict of the one tier the request is charged to, with its remaining
    tokens.  A gate that was not reached keeps its buckets: a request turned
    away globally touches no per-IP or client state, one turned away per IP
    touches no client, a blocked client is not charged, and otherwise exactly
    the charged tier changes.  The one exception: it panics when it has to make
    a bucket whose configured window cannot be allocated, and leaves the store
    well formed. *)
Theorem store_allow_correct {S : Type} `{SchedulerLaws S} `{MapRange} `{Mode}
  (st : BucketStore S) (req : AllowRequest) (wall : Time)
  (HI : inv st) (Hk : valid_key (ClientKey req)) :
  let now := if Time.IsZero (Now req) then wall else Now req in
  (exists res st', Store.Allow req wall st = (Ok res, st') /\ inv st' /\
    res = Spec_Allow (reg st) req now /\
    (Reason res = "global_limit" -> same_but_global (reg st) (reg st')) /\
    (Reason res = "ip_limit" -> clients (reg st') = clients (reg st)) /\
    (Reason res = "blocked" ->
       clients (reg st') !! ClientKey req = Some (the_client (reg st) (ClientKey req) now)) /\
    (Reason res = "client_limit" \/ Reason res = "ok" ->
       clients (reg st') !! ClientKey req =
         Some (charged_client (reg st) (ClientKey req) (Tier req) now))) \/
  (~ fits (reg st) /\ exists st', Store.Allow req wall st = (Panic, st') /\ inv st').
Proof.
  intros now. destruct (mp_value _ _ _ _ (Allow_spec st req wall HI Hk))
    as [(res & st' & E & HI' & _ & Hres)|(st' & E & HI' & Hn)]; [left|right]; eauto.
Qed.

(** C17: bounded memory.  After any sequence of operations from startup (their
    keys not empty and without the separator "|", as the servers check), with
    any scheduler firings in between, at most [MaxClients] clients are tracked
    (when the limit is positive) and at most [ipBucketCap] per-IP buckets
    exist, when the cap is positive; and unless some configured window cannot
    be allocated, no operation has panicked. *)
Theorem store_bounded `{MapRange} (opts : Options) (ops : list op)
  (Hv : Forall (@op_valid AnyKey) ops) :
  exists st, for_each ops serve (start opts) = (Ok tt, st) /\
    (0 < maxClients (reg st) -> ActiveClients (reg st) <= maxClients (reg st)) /\
    (0 < ipBucketCap (reg st) -> Z.of_nat (size (ipBuckets (reg st))) <= ipBucketCap (reg st)) /\
    (fits (Store.New opts) -> Forall op_fits ops -> for_each ops exec (start opts) = (Ok tt, st)).
Proof.
  destruct (run_inv opts ops Hv) as (st & E & HI & _). exists st.
  split_and!; [done|apply (reg_capacity _ (proj1 HI))|apply (reg_ip_capacity _ (proj1 HI))|].
  intros Hf Ho. rewrite <- E. apply (@run_fits _ AnyKey); [apply start_inv|done|exact Hv|done].
Qed.

(** C8: the scheduler tracks the buckets.  After any sequence of operations
    the servers let through, an id is scheduled if and only if it names an
    existing bucket with a positive refill interval: evictions,
    reconfigurations, disabled limits and requests that panic leave no stale id
    behind, every refilling bucket is scheduled, and a firing puts every id it
    pops back.  This holds for the global bucket and all ids of client tiers
    that do not carry the prefix of the per-IP ids; and for every id when no
    operation names the client "__ip__", whose ids carry that prefix. *)
Theorem schedule_exact `{MapRange} (opts : Options) (ops : list op)
  (Hv : Forall (@op_valid AnyKey) ops) :
  exists st sc, for_each ops serve (start opts) = (Ok tt, st) /\ scheduler st = Some sc /\
    Scheduler.wf sc /\
    let exact id := is_Some (schedule sc !! id) <->
      exists b i, id_bucket (reg st) id = Some b /\ bucket_interval b = Some i /\ 0 < i in
    (forall id, HasPrefix id ipIDPrefix = false -> exact id) /\
    (Forall (@op_valid Strict) ops -> forall id, exact id).
Proof.
  destruct (run_inv opts ops Hv) as (st & E & [Rok T] & [sc Esc]).
  unfold tracks in T. rewrite Esc in T. exists st, sc. destruct T as [W Hd].
  split_and!; [done..|]. intros exact.
  assert (Hex : forall id, (is_Some (schedule sc !! id) <-> live_id (reg st) id) -> exact id).
  { intros id. unfold exact. intros ->. unfold live_id. setoid_rewrite id_interval_bucket. split.
    - intros (i & Hi & Hpos). destruct (id_bucket (reg st) id) as [b|]; [|done]. eauto.
    - intros (b & i & -> & Hi & Hpos). eauto. }
  split.
  - intros id Hp. apply Hex, Hd. by apply tracked_plain.
  - intros Hs id. apply Hex.
    destruct (run_inv opts ops Hs) as (st' & E' & [_ T] & _). rewrite E in E'. injection E' as <-.
    unfold tracks in T. rewrite Esc in T. by apply T.
Qed.

(** C19: LRU eviction.  [evictLRULocked] removes exactly one client, and no
    client was accessed longer ago than the removed one; the eviction counter
    advances, every other client keeps its buckets, and the schedule forgets
    the victim's ids. *)
Theorem evict_lru {S : Type} `{SchedulerLaws S} `{MapRange} `{Mode} (st : BucketStore S)
  (HI : inv st) (Hne : clients (reg st) <> ∅) :
  exists st' v cb, evictLRULocked st = (Ok tt, st') /\ inv st' /\
    clients (reg st) !! v = Some cb /\ clients (reg st') = delete v (clients (reg st)) /\
    (forall k cb', clients (reg st) !! k = Some cb' ->
       MultiBucket.LastAccess cb <= MultiBucket.LastAccess cb') /\
    evictions (reg st') = wrap64 (evictions (reg st) + 1) /\
    (forall sc t, scheduler st' = Some sc -> tracked (encodeID v t) = true ->
       sched_due sc !! encodeID v t = None).
Proof.
  assert (Hsz : size (clients (reg st)) <> O) by (by apply map_size_non_empty_iff).
  pose proof (evictLRU_spec st HI Hsz) as ([] & st' & E & HI' & v & cb & Hv & Er & Hmin)%wp_value.
  exists st', v, cb. rewrite Er. split_and!; [done|done|done|done|done|done|].
  intros sc t Hsc Hz. destruct HI' as [_ T]. unfold tracks in T. rewrite Hsc in T.
  apply eq_None_not_Some. intros (i & Hi & _)%(proj2 T _ Hz). rewrite Er in Hi.
  destruct (reg_clients _ (proj1 HI) _ _ Hv) as (Hval & _).
  rewrite id_interval_client in Hi by done. cbn in Hi. by rewrite lookup_delete_eq in Hi.
Qed.

(** C20: administrative block.  After [Block], whatever operations and
    scheduler firings follow that neither unblock nor reconfigure the client,
    and as long as the client is not evicted from the table, every request of
    the client is refused, whatever its tier, source and time, and not charged
    to the client (it panics only if it needs a per-IP bucket whose window
    cannot be allocated).  After [Unblock] no tier of the client is blocked. *)
Theorem block_rejects `{MapRange} `{Mode} (st st1 : BucketStore Scheduler) (k : string) (now : Time)
  (HI : inv st) (Hk : valid_key k) (Hblock : Store.Block k now st = (Ok tt, st1)) :
  (forall ops, Forall op_valid ops -> Forall (keeps_block k) ops ->
     (forall n, is_Some (clients (reg (after (take n ops) st1)) !! k)) ->
     let st2 := after ops st1 in
     forall req wall, ClientKey req = k ->
       match Store.Allow req wall st2 with
       | (Ok res, st3) => Allowed res = false /\ clients (reg st3) = clients (reg st2)
       | (Panic, _) => ~ fits (reg st2)
       | (OutOfFuel, _) => False
       end) /\
  exists st3, Store.Unblock k st1 = (Ok tt, st3) /\
    forall cb, clients (reg st3) !! k = Some cb -> MultiBucket.IsBlocked cb = false.
Proof.
  pose proof (Block_blocked k st now HI Hk) as Hb. unfold may_panic in Hb. rewrite Hblock in Hb.
  destruct Hb as [HI1 Hb1]. split.
  - intros ops Hv Hkb Hs st2 req wall Hreq.
    destruct (after_blocked k ops st1 Hv Hkb HI1 Hb1 Hs) as [HI2 (cb & Hc & Hcb)]. rewrite <- Hreq in Hc.
    pose proof (Allow_blocked (after ops st1) req wall cb HI2 Hc Hcb) as Ha. unfold may_panic in Ha.
    fold st2 in Ha. destruct (Store.Allow req wall st2) as [[res| |] st3]; [by destruct Ha as (_ & ? & ?)| |done].
    apply Ha.
  - pose proof (Unblock_spec st1 k HI1) as ([] & st3 & E3 & _ & _ & Hc3)%wp_value.
    exists st3. split; [done|]. intros cb. rewrite Hc3. intros (cb0 & _ & ->)%fmap_Some.
    apply not_true_iff_false. intros (t & b & Hb & Hbb)%IsBlocked_iff. cbn in Hb.
    rewrite lookup_fmap in Hb. destruct (buckets cb0 !! t); [|done]. by injection Hb as <-.
Qed.

(** C32: a configuration update lifts a block.  [UpdateClientConfig] replaces
    the tier's bucket with a new one instead of calling [Bucket.UpdateConfig],
    so the block flag is lost with the balance: after the update of a tier of
    an existing client, the client counts as blocked exactly when one of its
    other tiers is.  A client that uses one tier only, blocked by an
    administrator, is unblocked by the next update of that tier. *)
Theorem config_update_lifts_block {S : Type} `{SchedulerLaws S} `{MapRange} `{Mode} (st : BucketStore S)
  (k tier : string) (cfg : Config) (now : Time) (cb : ClientBuckets)
  (HI : inv st) (Hk : valid_key k) (Ha : allocatable cfg = true)
  (Hcb : clients (reg st) !! k = Some cb) :
  exists st' cb', UpdateClientConfig k tier cfg now st = (Ok tt, st') /\
    clients (reg st') !! k = Some cb' /\
    (MultiBucket.IsBlocked cb' = true <->
     exists t b, t <> norm_tier tier /\ buckets cb !! t = Some b /\ blocked b = true).
Proof.
  destruct (mp_value _ _ _ _ (UpdateClientConfig_spec st k tier cfg now HI Hk))
    as [([] & st' & E & _ & _ & Hc)|(st' & _ & _ & [[_ ?]|?])]; [|congruence..].
  eexists st', _. split; [done|]. split; [exact Hc|]. rewrite IsBlocked_iff.
  unfold the_client. rewrite Hcb. cbn [buckets set_buckets default from_option Datatypes.id]. split.
  - intros (t & b & Hb & Hblk). apply lookup_insert_Some in Hb as [[<- <-]|[Hne Hb]]; [done|eauto].
  - intros (t & b & Hne & Hb & Hblk). exists t, b. split; [|done]. by rewrite lookup_insert_ne.
Qed.

(** Dispatch of the scheduler callback.  [OnDue] refills exactly the bucket
    its id names (global, per-IP or client tier) and asks to be called again at
    that bucket's next refill time; an id that names nothing (its client was
    evicted, its limit disabled) changes nothing and is not rescheduled. *)
Theorem on_due_dispatch `{Mode} (r : Registry) (id : string) (now : Time)
  (Hr : reg_ok r) (Hid : tier_named id) :
  match id_bucket r id with
  | Some b => exists b' cfg, Bucket.ScheduledRefill now b = (Ok tt, b') /\
      configPtr b = Some cfg /\
      OnDue id now r = (Ok (next_refill cfg b', true), set_id_bucket id b' r)
  | None => OnDue id now r = (Ok (zeroTime, false), r)
  end.
Proof.
  destruct (id_bucket r id) as [b|] eqn:Hb; [|by apply OnDue_gone].
  destruct (OnDue_live r id now b Hid Hb (id_bucket_usable r id b Hr Hb)) as (b' & cfg & ? & _ & _ & ? & ?).
  eauto.
Qed.

(** Scheduler ids.  For the keys the program should accept (not "__ip__"), the id of a
    (client, tier) pair decodes to that pair and is never mistaken for the
    global or a per-IP id; so distinct buckets have distinct ids. *)
Theorem id_roundtrip (key tier : string) (Hk : @valid_key Strict key) :
  decodeID (encodeID key tier) = (key, tier, true) /\
  encodeID key tier <> globalBucketID /\ HasPrefix (encodeID key tier) ipIDPrefix = false /\
  forall key' tier', @valid_key Strict key' -> encodeID key tier = encodeID key' tier' ->
    key = key' /\ tier = tier'.
Proof.
  split_and!; [apply decode_encode, Hk|apply encode_not_global|by apply (@encode_not_ip Strict)|].
  intros key' tier' Hk'. apply encodeID_inj; [apply Hk|apply Hk'].
Qed.

(** The key "__ip__" is let through by the servers, but the ids of its tiers carry the
    prefix of the per-IP ids, so [OnDue] looks them up among the per-IP buckets
    and drops the schedule of a client tier that exists. *)
Theorem ip_key_collision (r : Registry) (tier : string) (now : Time) :
  id_bucket r (encodeID "__ip__" tier) = ipBuckets r !! tier /\
  (ipBuckets r !! tier = None -> OnDue (encodeID "__ip__" tier) now r = (Ok (zeroTime, false), r)).
Proof.
  assert (E : encodeID "__ip__" tier = ipIDPrefix +:+ tier) by done.
  unfold id_bucket, OnDue. rewrite E, bool_decide_false by apply ip_not_global.
  rewrite HasPrefix_append, TrimPrefix_append. split; [done|].
  unfold bind, gets. by intros ->.
Qed.

(** ** Examples *)

Definition ex_opts : Options := {| MaxClients := 2; TierDefaults := {["premium" := ex_cfg]} |}.

Definition ex_req (key tier : string) (t : Time) : AllowRequest :=
  {| ClientKey := key; SourceIP := "10.0.0.1"; Tier := tier; Now := ex_now + t |}.

(** Three clients on two slots, a per-IP limit, a global limit and a firing. *)
Definition ex_ops : list op :=
  [OpSetGlobalConfig builtin_Config ex_now; OpSetIPLimit true ex_cfg;
   OpAllow (ex_req "a" "premium" 1) ex_now; OpAllow (ex_req "b" "" 2) ex_now;
   OpDue (ex_now + Minute); OpAllow (ex_req "c" "" Minute) ex_now; OpDisableGlobal].

(** The client "__ip__" among others. *)
Definition ex_any_ops : list op := ex_ops ++ [OpAllow (ex_req "__ip__" "" Minute) ex_now].

Lemma ex_ops_valid : Forall (@op_valid Strict) ex_ops.
Proof.
  repeat (apply Forall_cons; split); try apply Forall_nil;
    first [exact I|apply (bool_decide_unpack (@valid_key Strict _)); reflexivity].
Qed.

Lemma ex_any_ops_valid : Forall (@op_valid AnyKey) ex_any_ops.
Proof.
  repeat (apply Forall_cons; split); try apply Forall_nil;
    first [exact I|apply (bool_decide_unpack (@valid_key AnyKey _)); reflexivity].
Qed.

#[local] Existing Instance map_to_list_range.

Definition ex_store : BucketStore Scheduler := snd (for_each ex_ops serve (start ex_opts)).

Lemma ex_store_inv : @inv _ _ _ Strict ex_store.
Proof.
  unfold ex_store. destruct (run_inv ex_opts ex_ops ex_ops_valid) as (st & -> & HI & _). exact HI.
Qed.

(** "a" was evicted for "c"; the schedule holds the two clients and the source. *)
Example ex_store_state :
  dom (clients (reg ex_store)) = ({["b"; "c"]} : gset string) /\
  option_map (fun sc => size (schedule sc)) (scheduler ex_store) = Some 3%nat.
Proof. vm_compute. split; reflexivity. Qed.

Lemma ex_valid_key : @valid_key Strict "c".
Proof. apply (bool_decide_unpack (@valid_key Strict _)). reflexivity. Qed.

(** The first firing after the request of the client "__ip__" drops the
    schedule of its bucket. *)
Example ip_key_unscheduled :
  let ids st := option_map (fun sc => dom (schedule sc)) (scheduler st) in
  let st := snd (for_each [OpAllow (ex_req "__ip__" "" 0) ex_now] serve (start ex_opts)) in
  ids st = Some ({["__ip__|default"]} : gset string) /\
  ids (snd (serve (OpDue (ex_now + Hour)) st)) = Some ∅ /\
  is_Some (clients (reg (snd (serve (OpDue (ex_now + Hour)) st))) !! "__ip__").
Proof. vm_compute. split_and!; [reflexivity|reflexivity|by eexists]. Qed.

Lemma store_allow_correct_witness :
  let now := if Time.IsZero (ex_now + Minute) then ex_now else ex_now + Minute in
  (exists res st', Store.Allow (ex_req "c" "" Minute) ex_now ex_store = (Ok res, st') /\
    @inv _ _ _ Strict st' /\
    res = Spec_Allow (reg ex_store) (ex_req "c" "" Minute) now /\
    (Reason res = "global_limit" -> same_but_global (reg ex_store) (reg st')) /\
    (Reason res = "ip_limit" -> clients (reg st') = clients (reg ex_store)) /\
    (Reason res = "blocked" ->
       clients (reg st') !! "c" = Some (the_client (reg ex_store) "c" now)) /\
    (Reason res = "client_limit" \/ Reason res = "ok" ->
       clients (reg st') !! "c" = Some (charged_client (reg ex_store) "c" "" now))) \/
  (~ fits (reg ex_store) /\
   exists st', Store.Allow (ex_req "c" "" Minute) ex_now ex_store = (Panic, st') /\ @inv _ _ _ Strict st').
Proof.
  exact (store_allow_correct ex_store (ex_req "c" "" Minute) ex_now ex_store_inv ex_valid_key).
Defined.

Lemma store_bounded_witness :
  exists st, for_each ex_any_ops serve (start ex_opts) = (Ok tt, st) /\
    (0 < maxClients (reg st) -> ActiveClients (reg st) <= maxClients (reg st)) /\
    (0 < ipBucketCap (reg st) -> Z.of_nat (size (ipBuckets (reg st))) <= ipBucketCap (reg st)) /\
    (fits (Store.New ex_opts) -> Forall op_fits ex_any_ops ->
     for_each ex_any_ops exec (start ex_opts) = (Ok tt, st)).
Proof. exact (store_bounded ex_opts ex_any_ops ex_any_ops_valid). Defined.

Lemma schedule_exact_witness :
  exists st sc, for_each ex_any_ops serve (start ex_opts) = (Ok tt, st) /\ scheduler st = Some sc /\
    Scheduler.wf sc /\
    let exact id := is_Some (schedule sc !! id) <->
      exists b i, id_bucket (reg st) id = Some b /\ bucket_interval b = Some i /\ 0 < i in
    (forall id, HasPrefix id ipIDPrefix = false -> exact id) /\
    (Forall (@op_valid Strict) ex_any_ops -> forall id, exact id).
Proof. exact (schedule_exact ex_opts ex_any_ops ex_any_ops_valid). Defined.

Lemma ex_clients_nonempty : clients (reg ex_store) <> ∅.
Proof.
  intros E. apply (f_equal (fun m => size m)) in E. vm_compute in E. discriminate E.
Qed.

Lemma evict_lru_witness :
  exists st' v cb, evictLRULocked ex_store = (Ok tt, st') /\ @inv _ _ _ Strict st' /\
    clients (reg ex_store) !! v = Some cb /\ clients (reg st') = delete v (clients (reg ex_store)) /\
    (forall k cb', clients (reg ex_store) !! k = Some cb' ->
       MultiBucket.LastAccess cb <= MultiBucket.LastAccess cb') /\
    evictions (reg st') = wrap64 (evictions (reg ex_store) + 1) /\
    (forall sc t, scheduler st' = Some sc -> @tracked Strict (encodeID v t) = true ->
       sched_due sc !! encodeID v t = None).
Proof. exact (evict_lru ex_store ex_store_inv ex_clients_nonempty). Defined.

Definition ex_blocked : BucketStore Scheduler := snd (Store.Block "c" ex_now ex_store).

(** Another client, a firing and an update of the other client follow; "c" stays
    in the table. *)
Definition ex_after_block : list op :=
  [OpAllow (ex_req "b" "" Minute) ex_now; OpDue (ex_now + Hour);
   OpUpdateClientConfig "b" "" ex_cfg ex_now].

Lemma ex_blocked_present n : is_Some (clients (reg (after (take n ex_after_block) ex_blocked)) !! "c").
Proof. do 4 (destruct n as [|n]; [vm_compute; by eexists|]). vm_compute. by eexists. Qed.

Lemma ex_after_block_ok : Forall (@op_valid Strict) ex_after_block /\ Forall (keeps_block "c") ex_after_block.
Proof.
  split; repeat (apply Forall_cons; split); try apply Forall_nil;
    first [exact I|apply (bool_decide_unpack (@valid_key Strict _)); reflexivity|vm_compute; discriminate].
Qed.

Lemma block_rejects_witness :
  (exists res st3, Store.Allow (ex_req "c" "" Hour) ex_now (after ex_after_block ex_blocked) = (Ok res, st3) /\
     Allowed res = false) /\
  exists st3, Store.Unblock "c" ex_blocked = (Ok tt, st3) /\
    forall cb, clients (reg st3) !! "c" = Some cb -> MultiBucket.IsBlocked cb = false.
Proof.
  assert (Hb : Store.Block "c" ex_now ex_store = (Ok tt, ex_blocked)) by (vm_compute; reflexivity).
  destruct (block_rejects ex_store ex_blocked "c" ex_now ex_store_inv ex_valid_key Hb) as [Hr Hu].
  split; [|exact Hu].
  specialize (Hr ex_after_block (proj1 ex_after_block_ok) (proj2 ex_after_block_ok) ex_blocked_present
    (ex_req "c" "" Hour) ex_now eq_refl). revert Hr.
  destruct (Store.Allow _ _ _) as [[res| |] st3] eqn:E.
  - intros [Ha _]. exists res, st3. split; [reflexivity|exact Ha].
  - intros _. vm_compute in E. discriminate E.
  - intros [].
Defined.

Lemma config_update_lifts_block_witness :
  exists st' cb', UpdateClientConfig "c" "" ex_cfg ex_now ex_blocked = (Ok tt, st') /\
    clients (reg st') !! "c" = Some cb' /\
    (MultiBucket.IsBlocked cb' = true <->
     exists t b, t <> norm_tier "" /\
       buckets (default (MultiBucket.New "") (clients (reg ex_blocked) !! "c")) !! t = Some b /\
       blocked b = true).
Proof.
  assert (Hb : @inv _ _ _ Strict ex_blocked).
  { pose proof (Block_blocked "c" ex_store ex_now ex_store_inv ex_valid_key) as Hb.
    unfold may_panic in Hb. unfold ex_blocked.
    destruct (Store.Block "c" ex_now ex_store) as [[[]| |] st1] eqn:E; [apply Hb| |destruct Hb].
    vm_compute in E. discriminate E. }
  refine (config_update_lifts_block ex_blocked "c" "" ex_cfg ex_now _ Hb ex_valid_key eq_refl _).
  vm_compute. reflexivity.
Defined.

Lemma ex_tier_named : tier_named "c|default".
Proof. intros _ k. vm_compute. discriminate. Qed.

Lemma on_due_dispatch_witness :
  match id_bucket (reg ex_store) "c|default" with
  | Some b => exists b' cfg, Bucket.ScheduledRefill (ex_now + Hour) b = (Ok tt, b') /\
      configPtr b = Some cfg /\
      OnDue "c|default" (ex_now + Hour) (reg ex_store) =
        (Ok (next_refill cfg b', true), set_id_bucket "c|default" b' (reg ex_store))
  | None => OnDue "c|default" (ex_now + Hour) (reg ex_store) = (Ok (zeroTime, false), reg ex_store)
  end.
Proof.
  exact (@on_due_dispatch Strict (reg ex_store) "c|default" (ex_now + Hour) (proj1 ex_store_inv)
    ex_tier_named).
Defined.

Lemma id_roundtrip_witness :
  decodeID (encodeID "c" "a|b") = ("c", "a|b", true) /\
  encodeID "c" "a|b" <> globalBucketID /\ HasPrefix (encodeID "c" "a|b") ipIDPrefix = false /\
  forall key' tier', @valid_key Strict key' -> encodeID "c" "a|b" = encodeID key' tier' ->
    "c" = key' /\ "a|b" = tier'.
Proof. apply id_roundtrip. apply ex_valid_key. Defined.
