(* ===== verification/StoreConc.v ===== *)
(** * internal/store under concurrency: lock sections interleave

    The methods of [BucketStore] again, now as sequences of atomic blocks: a
    critical section of [s.mu] or [s.ipMu], a method of [ClientBuckets] (which
    holds the client's own lock), a load or store of an atomic field, an
    operation of one bucket, a call of the scheduler.  Clients and buckets are
    objects of a shared heap: a request keeps the pointer it looked up while
    other requests replace, evict or re-create what the maps refer to.  A
    [prog] is the rest of a request; [step] lets one thread run its next block,
    so an interleaving is a list of [action]s.

    Left to [BucketConc]: the interleaving inside one bucket operation. *)

From stdpp Require Import base tactics gmap strings list.
From Stdlib Require Import ZArith Lia.
From S2P Require Import Prelude GoTime GoString Window Bucket MultiBucket SchedulerIface Store StoreProofs.

Local Open Scope Z_scope.
Local Open Scope go_scope.
Local Open Scope go_monad_scope.

(** ** Threads *)

Inductive prog (S A : Type) : Type :=
| Done (a : A)
| Atomic {B : Type} (c : M S B) (k : B -> prog S A).
Arguments Done {S A} a.
Arguments Atomic {S A B} c k.

Fixpoint andThen {S A B} (p : prog S A) (f : A -> prog S B) : prog S B :=
  match p with
  | Done a => f a
  | Atomic c k => Atomic c (fun b => andThen (k b) f)
  end.

Definition atomic {S A} (c : M S A) : prog S A := Atomic c Done.

Declare Scope thread_scope.
Notation "'let*' x := p 'in' q" := (andThen p (fun x => q))
  (at level 10, x name, p at level 100, q at level 200) : thread_scope.
Notation "'let*' ' x := p 'in' q" := (andThen p (fun y => match y with x => q end))
  (at level 10, x pattern, p at level 100, q at level 200) : thread_scope.
Notation "p ;> q" := (andThen p (fun _ => q)) (at level 60, right associativity) : thread_scope.
Local Open Scope thread_scope.

(** The whole of a thread, uninterrupted. *)
Fixpoint solo {S A} (p : prog S A) : M S A :=
  match p with
  | Done a => ret a
  | Atomic c k => let! b := c in solo (k b)
  end.

(** ** The shared state *)

(** A [ClientBuckets] object: its tiers are pointers to buckets. *)
Record client := {
  c_key : string;
  c_buckets : gmap string nat
}.

Record shared {S : Type} := {
  cheap : list client;              (* every client object ever allocated *)
  bheap : list Bucket;              (* every bucket ever allocated *)
  cmap : gmap string nat;           (* s.clients *)
  ipmap : gmap string nat;          (* s.ipBuckets *)
  gptr : option nat;                (* s.globalBucket *)
  evicts : Z;
  ipEnabled : bool;
  ipConfig : option Config;
  sched : S
}.
Arguments shared S : clear implicits.

Definition set_cheap {S} v (s : shared S) : shared S :=
  {| cheap := v; bheap := bheap s; cmap := cmap s; ipmap := ipmap s; gptr := gptr s;
     evicts := evicts s; ipEnabled := ipEnabled s; ipConfig := ipConfig s; sched := sched s |}.
Definition set_bheap {S} v (s : shared S) : shared S :=
  {| cheap := cheap s; bheap := v; cmap := cmap s; ipmap := ipmap s; gptr := gptr s;
     evicts := evicts s; ipEnabled := ipEnabled s; ipConfig := ipConfig s; sched := sched s |}.
Definition set_cmap {S} v (s : shared S) : shared S :=
  {| cheap := cheap s; bheap := bheap s; cmap := v; ipmap := ipmap s; gptr := gptr s;
     evicts := evicts s; ipEnabled := ipEnabled s; ipConfig := ipConfig s; sched := sched s |}.
Definition set_ipmap {S} v (s : shared S) : shared S :=
  {| cheap := cheap s; bheap := bheap s; cmap := cmap s; ipmap := v; gptr := gptr s;
     evicts := evicts s; ipEnabled := ipEnabled s; ipConfig := ipConfig s; sched := sched s |}.
Definition set_gptr {S} v (s : shared S) : shared S :=
  {| cheap := cheap s; bheap := bheap s; cmap := cmap s; ipmap := ipmap s; gptr := v;
     evicts := evicts s; ipEnabled := ipEnabled s; ipConfig := ipConfig s; sched := sched s |}.
Definition set_evicts {S} v (s : shared S) : shared S :=
  {| cheap := cheap s; bheap := bheap s; cmap := cmap s; ipmap := ipmap s; gptr := gptr s;
     evicts := v; ipEnabled := ipEnabled s; ipConfig := ipConfig s; sched := sched s |}.
Definition set_ipEnabled {S} v (s : shared S) : shared S :=
  {| cheap := cheap s; bheap := bheap s; cmap := cmap s; ipmap := ipmap s; gptr := gptr s;
     evicts := evicts s; ipEnabled := v; ipConfig := ipConfig s; sched := sched s |}.
Definition set_ipConfig {S} v (s : shared S) : shared S :=
  {| cheap := cheap s; bheap := bheap s; cmap := cmap s; ipmap := ipmap s; gptr := gptr s;
     evicts := evicts s; ipEnabled := ipEnabled s; ipConfig := v; sched := sched s |}.
Definition set_sched {S} v (s : shared S) : shared S :=
  {| cheap := cheap s; bheap := bheap s; cmap := cmap s; ipmap := ipmap s; gptr := gptr s;
     evicts := evicts s; ipEnabled := ipEnabled s; ipConfig := ipConfig s; sched := v |}.

(** The client a pointer refers to, with its buckets. *)
Definition resolve {S} (s : shared S) (p : nat) : option ClientBuckets :=
  (fun o => {| clientKey := c_key o; buckets := omap (fun b => bheap s !! b) (c_buckets o) |})
  <$> cheap s !! p.

Section Operations.
Context {S : Type} `{SchedulerOps S} `{MapRange} (opts : Options).
Implicit Types (key tier ip id : string) (now : Time) (p b : nat).

(** The fields [New] fixes. *)
Definition limits : Registry := Store.New opts.

(** ** Atomic blocks *)

(** An operation of the bucket at [b]. *)
Definition on_b {A} b (c : M Bucket A) : M (shared S) A :=
  fun s => match bheap s !! b with
           | Some v => let '(r, v') := c v in (r, set_bheap (<[b := v']> (bheap s)) s)
           | None => (Panic, s)
           end.

(** The client object at [p]. *)
Definition at_c p : M (shared S) client :=
  fun s => match cheap s !! p with Some o => (Ok o, s) | None => (Panic, s) end.

Definition on_sched {A} (c : M S A) : M (shared S) A := zoom sched set_sched c.

Definition new_bucket (cfg : Config) now : M (shared S) nat :=
  let! v := Bucket.New cfg now in
  let! h := gets bheap in
  modify (set_bheap (h ++ [v])) ;;;
  ret (List.length h).

(** [Configure]: the new bucket and the locked store into [cb.buckets]. *)
Definition c_Configure p tier (cfg : Config) now : M (shared S) unit :=
  let! o := at_c p in
  let! b := new_bucket cfg now in
  modify (fun s => set_cheap (<[p := {| c_key := c_key o;
                                        c_buckets := <[norm_tier tier := b]> (c_buckets o) |}]> (cheap s)) s).

Definition c_Bucket p tier : M (shared S) (option nat) :=
  let! o := at_c p in ret (c_buckets o !! norm_tier tier).

(** The locked part of [ClientBuckets.Allow]. *)
Definition c_effective p tier : M (shared S) (option nat) :=
  let! o := at_c p in
  ret (match c_buckets o !! norm_tier tier with
       | Some b => Some b
       | None => c_buckets o !! DefaultTier
       end).

Definition c_IsBlocked p : M (shared S) bool :=
  fun s => match resolve s p with
           | Some cb => (Ok (MultiBucket.IsBlocked cb), s)
           | None => (Panic, s)
           end.

Definition c_set_blocked (v : bool) p : M (shared S) unit :=
  let! o := at_c p in
  for_each (range (c_buckets o)) (fun kb => on_b (snd kb) (modify (set_blocked v))).

(** [b.NextRefillTime()] and [s.scheduler.Schedule(id, next)] on a bucket that
    the calling lock section has just made. *)
Definition schedule_new id b : M (shared S) unit :=
  let! next := on_b b Bucket.NextRefillTime in
  on_sched (do_Schedule id next).

(** The tables with their pointers followed. *)
Definition clients_view (s : shared S) : gmap string ClientBuckets := omap (resolve s) (cmap s).
Definition ips_view (s : shared S) : gmap string Bucket := omap (fun b => bheap s !! b) (ipmap s).

Definition evictLRULocked : M (shared S) unit :=
  fun s =>
    (if bool_decide (size (cmap s) = O) then ret tt
     else
       let '(oldestKey, _, _) := oldest MultiBucket.LastAccess (range (clients_view s)) in
       if bool_decide (oldestKey = "") then ret tt
       else
         match clients_view s !! oldestKey with
         | None => panic
         | Some cb =>
             modify (fun s => set_cmap (delete oldestKey (cmap s)) s) ;;;
             modify (fun s => set_evicts (evicts s +! 1) s) ;;;
             for_each (MultiBucket.Tiers cb)
               (fun tier => on_sched (do_Remove (encodeID oldestKey tier)))
         end) s.

(** [cb = multibucket.New(key); cb.Configure(DefaultTier, cfg, now)] *)
Definition new_client key (cfg : Config) now : M (shared S) nat :=
  let! p := gets (fun s => List.length (cheap s)) in
  modify (fun s => set_cheap (cheap s ++ [{| c_key := key; c_buckets := ∅ |}]) s) ;;;
  c_Configure p DefaultTier cfg now ;;;
  ret p.

(** The critical section of [getOrCreateClient]. *)
Definition createLocked key now : M (shared S) nat :=
  let! cs := gets cmap in
  match cs !! key with
  | Some p => ret p
  | None =>
      (if (0 <? maxClients limits) && (maxClients limits <=? Z.of_nat (size cs))
       then evictLRULocked else ret tt) ;;;
      let defaultCfg := default_tier_cfg (tierDefaults limits) in
      let! p := new_client key defaultCfg now in
      modify (fun s => set_cmap (<[key := p]> (cmap s)) s) ;;;
      (if 0 <? RefillInterval defaultCfg then
         let! b := c_Bucket p DefaultTier in
         match b with
         | Some b => schedule_new (encodeID key DefaultTier) b
         | None => ret tt
         end
       else ret tt) ;;;
      ret p
  end.

Definition evictOldestIPLocked : M (shared S) unit :=
  fun s =>
    (if bool_decide (size (ipmap s) = O) then ret tt
     else
       let '(oldestIP, _, _) := oldest Bucket.LastAccess (range (ips_view s)) in
       if bool_decide (oldestIP = "") then ret tt
       else
         modify (fun s => set_ipmap (delete oldestIP (ipmap s)) s) ;;;
         on_sched (do_Remove (ipIDPrefix +:+ oldestIP))) s.

(** The critical section of [getOrCreateIPBucket]. *)
Definition createIPLocked ip now : M (shared S) nat :=
  let! bs := gets ipmap in
  match bs !! ip with
  | Some b => ret b
  | None =>
      let! ptr := gets ipConfig in
      let cfg := default fallback_ip_Config ptr in
      (if ipBucketCap limits <=? Z.of_nat (size bs) then evictOldestIPLocked else ret tt) ;;;
      let! b := new_bucket cfg now in
      modify (fun s => set_ipmap (<[ip := b]> (ipmap s)) s) ;;;
      (if 0 <? RefillInterval cfg then schedule_new (ipIDPrefix +:+ ip) b else ret tt) ;;;
      ret b
  end.

(** ** The methods *)

Definition getOrCreateClient key now : prog (shared S) nat :=
  let* cb := atomic (gets (fun s => cmap s !! key)) in
  match cb with
  | Some p => Done p
  | None => atomic (createLocked key now)
  end.

Definition getOrCreateIPBucket ip now : prog (shared S) nat :=
  let* b := atomic (gets (fun s => ipmap s !! ip)) in
  match b with
  | Some b => Done b
  | None => atomic (createIPLocked ip now)
  end.

(** [if interval > 0 { if b, ok := cb.Bucket(tier); ok {
    s.scheduler.Schedule(id, b.NextRefillTime()) } }] *)
Definition schedule_tier p tier id (interval : Duration) : prog (shared S) unit :=
  if 0 <? interval then
    let* b := atomic (c_Bucket p tier) in
    match b with
    | None => Done tt
    | Some b =>
        let* next := atomic (on_b b Bucket.NextRefillTime) in
        atomic (on_sched (do_Schedule id next))
    end
  else Done tt.

(** The tier defaults are never written after [New], so reading them is not a
    block of its own. *)
Definition ensureTier p tier now : prog (shared S) unit :=
  if bool_decide (tier = "" \/ tier = DefaultTier) then Done tt
  else
    let* b := atomic (c_Bucket p tier) in
    match b, tierDefaults limits !! tier with
    | None, Some cfg =>
        atomic (c_Configure p tier cfg now) ;>
        let* o := atomic (at_c p) in
        schedule_tier p tier (encodeID (c_key o) tier) (RefillInterval cfg)
    | _, _ => Done tt
    end.

(** [ClientBuckets.Allow] *)
Definition c_Allow p tier now : prog (shared S) (bool * Duration) :=
  let* b := atomic (c_effective p tier) in
  match b with
  | None => Done (false, Second)
  | Some b => atomic (on_b b (Bucket.Allow now))
  end.

Definition remaining p tier : prog (shared S) Z :=
  let* b := atomic (c_Bucket p tier) in
  match b with
  | Some b => atomic (on_b b (gets Bucket.TokensRemaining))
  | None =>
      let* b := atomic (c_Bucket p DefaultTier) in
      match b with
      | Some b => atomic (on_b b (gets Bucket.TokensRemaining))
      | None => Done 0
      end
  end.

Definition global_gate now : prog (shared S) (option AllowResult) :=
  let* gb := atomic (gets gptr) in
  match gb with
  | None => Done None
  | Some b =>
      let* ' (allowed, retryAfter) := atomic (on_b b (Bucket.Allow now)) in
      Done (if allowed : bool then None else Some (rejected "global_limit" retryAfter))
  end.

Definition ip_gate ip now : prog (shared S) (option AllowResult) :=
  let* enabled := atomic (gets ipEnabled) in
  if enabled && negb (bool_decide (ip = "")) then
    let* b := getOrCreateIPBucket ip now in
    let* ' (allowed, retryAfter) := atomic (on_b b (Bucket.Allow now)) in
    Done (if allowed : bool then None else Some (rejected "ip_limit" retryAfter))
  else Done None.

Definition client_gate key tier now : prog (shared S) AllowResult :=
  let* p := getOrCreateClient key now in
  let* isBlocked := atomic (c_IsBlocked p) in
  if isBlocked : bool then Done (rejected "blocked" Second)
  else
    ensureTier p tier now ;>
    let* ' (allowed, retryAfter) := c_Allow p tier now in
    if negb allowed then Done (rejected "client_limit" retryAfter)
    else
      let* n := remaining p tier in
      Done {| Allowed := true; RemainingTokens := n; RetryAfter := 0; Reason := "ok" |}.

Definition Allow (req : AllowRequest) (wall : Time) : prog (shared S) AllowResult :=
  let now := if Time.IsZero (Now req) then wall else Now req in
  let* g := global_gate now in
  match g with
  | Some res => Done res
  | None =>
      let* i := ip_gate (SourceIP req) now in
      match i with
      | Some res => Done res
      | None => client_gate (ClientKey req) (Tier req) now
      end
  end.

Definition UpdateClientConfig key tier (cfg : Config) now : prog (shared S) unit :=
  let tier := norm_tier tier in
  let* p := getOrCreateClient key now in
  atomic (c_Configure p tier cfg now) ;>
  atomic (on_sched (do_Remove (encodeID key tier))) ;>
  schedule_tier p tier (encodeID key tier) (RefillInterval cfg).

Definition Block key now : prog (shared S) unit :=
  let* p := getOrCreateClient key now in
  atomic (c_set_blocked true p).

Definition Unblock key : prog (shared S) unit :=
  let* cb := atomic (gets (fun s => cmap s !! key)) in
  match cb with
  | None => Done tt
  | Some p => atomic (c_set_blocked false p)
  end.

Definition SetGlobalConfig (cfg : Config) now : prog (shared S) unit :=
  let* gb := atomic (let! b := new_bucket cfg now in
                     modify (set_gptr (Some b)) ;;; ret b) in
  atomic (on_sched (do_Remove globalBucketID)) ;>
  if 0 <? RefillInterval cfg then
    let* next := atomic (on_b gb Bucket.NextRefillTime) in
    atomic (on_sched (do_Schedule globalBucketID next))
  else Done tt.

Definition DisableGlobal : prog (shared S) unit :=
  atomic (modify (set_gptr None)) ;>
  atomic (on_sched (do_Remove globalBucketID)).

Definition clearIPsLocked : M (shared S) unit :=
  let! bs := gets ips_view in
  for_each (range bs).*1 (fun ip =>
    on_sched (do_Remove (ipIDPrefix +:+ ip)) ;;;
    modify (fun s => set_ipmap (delete ip (ipmap s)) s)).

Definition SetIPLimit (enabled : bool) (cfg : Config) : prog (shared S) unit :=
  atomic (modify (set_ipEnabled enabled)) ;>
  atomic (modify (set_ipConfig (Some cfg))) ;>
  if enabled then Done tt else atomic clearIPsLocked.

(** [b.ScheduledRefill(now); return b.NextRefillTime(), true] *)
Definition refill_and_next b now : prog (shared S) (Time * bool) :=
  atomic (on_b b (Bucket.ScheduledRefill now)) ;>
  let* next := atomic (on_b b Bucket.NextRefillTime) in
  Done (next, true).

Definition OnDue id now : prog (shared S) (Time * bool) :=
  let gone := Done (zeroTime, false) in
  if bool_decide (id = globalBucketID) then
    let* gb := atomic (gets gptr) in
    match gb with
    | None => gone
    | Some b => refill_and_next b now
    end
  else if HasPrefix id ipIDPrefix then
    let* b := atomic (gets (fun s => ipmap s !! TrimPrefix id ipIDPrefix)) in
    match b with
    | None => gone
    | Some b => refill_and_next b now
    end
  else
    let '(key, tier, ok) := decodeID id in
    if negb ok then gone
    else
      let* cb := atomic (gets (fun s => cmap s !! key)) in
      match cb with
      | None => gone
      | Some p =>
          let* b := atomic (c_Bucket p tier) in
          match b with
          | None => gone
          | Some b => refill_and_next b now
          end
      end.

(** What the scheduler's loop does with one due id: it takes the entry off its
    heap, calls back, and puts the entry back under the time it is given. *)
Definition fire id now : prog (shared S) unit :=
  atomic (on_sched (do_Remove id)) ;>
  let* ' (next, ok) := OnDue id now in
  if ok : bool then atomic (on_sched (do_Schedule id next)) else Done tt.

(** ** Interleavings *)

Inductive call :=
| CAllow (req : AllowRequest) (wall : Time)
| CUpdateClientConfig key tier (cfg : Config) now
| CBlock key now
| CUnblock key
| CSetGlobalConfig (cfg : Config) now
| CDisableGlobal
| CSetIPLimit (enabled : bool) (cfg : Config)
| CFire id now.

Definition thread : Type := prog (shared S) (option AllowResult).

Definition quiet (p : prog (shared S) unit) : thread := p ;> Done None.

Definition thread_of (c : call) : thread :=
  match c with
  | CAllow req wall => let* r := Allow req wall in Done (Some r)
  | CUpdateClientConfig key tier cfg now => quiet (UpdateClientConfig key tier cfg now)
  | CBlock key now => quiet (Block key now)
  | CUnblock key => quiet (Unblock key)
  | CSetGlobalConfig cfg now => quiet (SetGlobalConfig cfg now)
  | CDisableGlobal => quiet DisableGlobal
  | CSetIPLimit enabled cfg => quiet (SetIPLimit enabled cfg)
  | CFire id now => quiet (fire id now)
  end.

Inductive action :=
| Spawn (c : call)   (* a request arrives *)
| Run (i : nat).     (* thread [i] executes its next block *)

(** [None]: the block panicked. *)
Definition step (x : shared S * list thread) (a : action) : option (shared S * list thread) :=
  let '(s, ts) := x in
  match a with
  | Spawn c => Some (s, ts ++ [thread_of c])
  | Run i =>
      match ts !! i with
      | Some (Atomic c k) =>
          match c s with
          | (Ok b, s') => Some (s', <[i := k b]> ts)
          | _ => None
          end
      | _ => Some (s, ts)
      end
  end.

Definition run (acts : list action) (x : shared S * list thread) : option (shared S * list thread) :=
  foldl (fun x a => x ≫= fun x => step x a) (Some x) acts.

Definition start (sc : S) : shared S :=
  {| cheap := []; bheap := []; cmap := ∅; ipmap := ∅; gptr := None; evicts := 0;
     ipEnabled := false; ipConfig := None; sched := sc |}.
End Operations.
Arguments limits opts : simpl never.
Arguments step {S _ _} opts x a.
Arguments run {S _ _} opts acts x.
