(* ===== verification/StoreConcProofs.v ===== *)
(** * internal/store under concurrency: proofs

    Rely-guarantee reasoning over the blocks of [StoreConc]: [ok] is the
    invariant between blocks, [guarantee] what a block may do to the tables
    the other threads hold pointers into, and [safe] says that the rest of a
    thread can run to its end with everything else interfering.  From it: no
    interleaving panics or exceeds the capacities, no request replaces an
    object another one made for the same key.  The windows of the
    configurations are taken to be ones that can be allocated ([ok_fits]):
    [bucket.New] panics on others, and [StoreProofs] says what such a panic
    leaves.  The last part runs races of the code to their end. *)

From stdpp Require Import base tactics gmap strings list.
From Stdlib Require Import ZArith Lia.
From S2P Require Import Prelude GoTime GoString Window Bucket MultiBucket Scheduler SchedulerIface Store StoreProofs StoreConc.

Local Open Scope Z_scope.
Local Open Scope go_scope.
Local Open Scope go_monad_scope.
Local Open Scope thread_scope.

(** ** Rely and guarantee *)

Section Proofs.
Context {S : Type} `{SchedulerLaws S} `{MapRange} (opts : Options).
Implicit Types (s : shared S) (key tier ip id k : string) (now : Time) (p b : nat).

#[local] Abbreviation max := (maxClients (limits opts)).
#[local] Abbreviation cap := (ipBucketCap (limits opts)).

(** What holds between two blocks, whatever threads are running. *)
Record ok s : Prop := {
  ok_clients : forall k p, cmap s !! k = Some p ->
    k <> "" /\ exists o, cheap s !! p = Some o /\ c_key o = k;
  ok_tiers : forall p o, cheap s !! p = Some o ->
    is_Some (c_buckets o !! DefaultTier) /\
    forall t b, c_buckets o !! t = Some b -> (b < List.length (bheap s))%nat;
  ok_ips : forall ip b, ipmap s !! ip = Some b -> ip <> "" /\ (b < List.length (bheap s))%nat;
  ok_global : forall b, gptr s = Some b -> (b < List.length (bheap s))%nat;
  ok_buckets : Forall usable (bheap s);
  ok_capacity : bounded (Z.of_nat (size (cmap s))) max;
  ok_ip_capacity : bounded (Z.of_nat (size (ipmap s))) cap;
  ok_sched : sched_ok (sched s);
  ok_fits : fits (limits opts) /\ (forall cfg, ipConfig s = Some cfg -> allocatable cfg = true)
}.

(** Objects stay where they are and keep what they have. *)
Definition grows s s' : Prop :=
  (List.length (bheap s) <= List.length (bheap s'))%nat /\
  forall p o, cheap s !! p = Some o ->
    exists o', cheap s' !! p = Some o' /\ c_key o' = c_key o /\ dom (c_buckets o) ⊆ dom (c_buckets o').

(** No block replaces the object a key stands for: it may only remove it, or
    put one where there is none. *)
Definition kept (m m' : gmap string nat) : Prop :=
  forall k p, m' !! k = Some p -> m !! k = Some p \/ m !! k = None.

Definition guarantee s s' : Prop :=
  grows s s' /\ kept (cmap s) (cmap s') /\ kept (ipmap s) (ipmap s').

#[export] Instance grows_preorder : PreOrder grows.
Proof.
  split.
  - intros s. split; [done|]. eauto.
  - intros s1 s2 s3 [B1 C1] [B2 C2]. split; [lia|]. intros p o Hp.
    destruct (C1 _ _ Hp) as (o2 & H2 & E2 & D2). destruct (C2 _ _ H2) as (o3 & H3 & E3 & D3).
    exists o3. split_and!; [done|congruence|set_solver].
Qed.

Lemma kept_same m : kept m m.
Proof. intros k p. by left. Qed.
#[local] Hint Resolve kept_same : core.

Lemma guarantee_refl s : guarantee s s.
Proof. by split_and!. Qed.
#[local] Hint Resolve guarantee_refl : core.

(** The rest of a thread can run from [s] with every other thread
    interfering: each block, from any well-formed state later than [s],
    returns, and keeps the invariant and the guarantee. *)
Fixpoint safe {A} (Q : A -> shared S -> Prop) (t : prog (shared S) A) s : Prop :=
  match t with
  | Done a => forall s', grows s s' -> Q a s'
  | Atomic c k => forall s1, grows s s1 -> ok s1 ->
      wp c s1 (fun (r : _) s2 => ok s2 /\ guarantee s1 s2 /\ safe Q (k r) s2)
  end.

Lemma safe_later {A} (Q : A -> shared S -> Prop) t s s' : grows s s' -> safe Q t s -> safe Q t s'.
Proof.
  intros Hg. destruct t; cbn; intros Ht.
  - intros s2 Hs2. apply Ht. by etrans.
  - intros s1 Hs1. apply Ht. by etrans.
Qed.

Lemma safe_call {A B} (P : A -> shared S -> Prop) (Q : B -> shared S -> Prop)
  (t : prog (shared S) A) (f : A -> prog (shared S) B) : forall s,
  safe P t s -> (forall a s2, grows s s2 -> P a s2 -> safe Q (f a) s2) ->
  safe Q (let* a := t in f a) s.
Proof.
  induction t as [a|T c k IH]; intros s Ht Hf; cbn.
  - apply Hf; [done|]. by apply Ht.
  - intros s1 Hs1 Hok. wp_use Ht; [done|done|]. intros r s2 (? & G2 & ?).
    split_and!; [done|done|]. apply IH; [done|]. intros a s3 G3. apply Hf.
    etrans; [exact Hs1|]. etrans; [apply G2|done].
Qed.

(** [Stable Q]: what other threads do cannot falsify [Q]. *)
Definition stable (Q : shared S -> Prop) : Prop := forall s s', grows s s' -> Q s -> Q s'.

Lemma safe_atomic {A} (Q : A -> shared S -> Prop) (c : M (shared S) A) s :
  (forall a, stable (Q a)) ->
  (forall s1, grows s s1 -> ok s1 -> wp c s1 (fun a s2 => ok s2 /\ guarantee s1 s2 /\ Q a s2)) ->
  safe Q (atomic c) s.
Proof.
  intros HQ Hc s1 Hs1 Hok. wp_use Hc; [done|done|]. intros a s2 (? & ? & ?).
  split_and!; [done|done|]. intros s3 Hs3. by eapply HQ.
Qed.

(** *** Blocks *)

(** What a thread knows about a pointer it holds. *)
Definition bucket_at b s : Prop := (b < List.length (bheap s))%nat.
Definition client_at p s : Prop := is_Some (cheap s !! p).

Lemma bucket_at_stable b : stable (bucket_at b).
Proof. intros s s' G. unfold bucket_at. pose proof (proj1 G). lia. Qed.

Lemma client_at_stable p : stable (client_at p).
Proof. intros s s' G [o Ho]. destruct (proj2 G _ _ Ho) as (o' & ? & _). by exists o'. Qed.

(** States with the same client and bucket tables, up to the contents of the
    buckets. *)
Definition same_tables s s' : Prop :=
  cheap s' = cheap s /\ List.length (bheap s') = List.length (bheap s) /\
  cmap s' = cmap s /\ ipmap s' = ipmap s /\ gptr s' = gptr s /\ ipConfig s' = ipConfig s.

Lemma same_tables_guarantee s s' : same_tables s s' -> guarantee s s'.
Proof.
  intros (Ec & Eb & Em & Ei & _). split_and!; [|by rewrite Em|by rewrite Ei].
  split; [lia|]. rewrite Ec. eauto.
Qed.

Lemma guarantee_then s s1 s' : guarantee s s1 -> same_tables s1 s' -> guarantee s s'.
Proof.
  intros (G & Kc & Ki) Hs'. destruct (same_tables_guarantee _ _ Hs') as [G' _].
  destruct Hs' as (_ & _ & Ec & Ei & _). split_and!; [by etrans|by rewrite Ec|by rewrite Ei].
Qed.

Lemma same_tables_ok s s' :
  same_tables s s' -> Forall usable (bheap s') -> sched_ok (sched s') -> ok s -> ok s'.
Proof.
  intros (Ec & Eb & Em & Ei & Eg & Ep) Hu Hs [Hc Ht Hi Hg _ Hcap Hicap _ Hfit].
  split; rewrite ?Ec, ?Eb, ?Em, ?Ei, ?Eg, ?Ep; done.
Qed.

Lemma wp_on_b {A} b (c : M Bucket A) s (Q : A -> shared S -> Prop) :
  ok s -> bucket_at b s -> (forall v, usable v -> wp c v (fun _ => usable)) ->
  (forall a s', same_tables s s' -> ok s' -> Q a s') -> wp (on_b b c) s Q.
Proof.
  intros Hok Hb Hc HQ. unfold on_b, wp.
  destruct (lookup_lt_is_Some_2 _ _ Hb) as [v Hv]. rewrite Hv.
  pose proof (Forall_lookup_1 _ _ _ _ (ok_buckets _ Hok) Hv) as Hu.
  specialize (Hc v Hu). unfold wp in Hc. destruct (c v) as [[a| |] v']; [|done..].
  assert (same_tables s (set_bheap (<[b:=v']> (bheap s)) s)).
  { unfold same_tables. cbn. by rewrite length_insert. }
  apply HQ; [done|]. eapply same_tables_ok; [done| |apply Hok|done].
  cbn. apply Forall_insert; [apply Hok|done].
Qed.

Lemma wp_on_sched (c : M S unit) s (Q : unit -> shared S -> Prop) :
  (forall sc, sched_ok sc -> wp c sc (fun _ => sched_ok)) -> ok s ->
  (forall s', same_tables s s' -> ok s' -> Q tt s') -> wp (on_sched c) s Q.
Proof.
  intros Hc Hok HQ. unfold on_sched. wp_step. wp_use Hc; [apply Hok|].
  intros [] sc' Hs'. apply HQ; [done|]. eapply (same_tables_ok s); [done|apply Hok|exact Hs'|done].
Qed.

Lemma wp_Schedule i t s (Q : unit -> shared S -> Prop) :
  ok s -> (forall s', same_tables s s' -> ok s' -> Q tt s') -> wp (on_sched (do_Schedule i t)) s Q.
Proof. apply wp_on_sched. intros sc Hs. wp_use schedule_law; [done|]. by intros _ ? [? _]. Qed.

Lemma wp_Remove i s (Q : unit -> shared S -> Prop) :
  ok s -> (forall s', same_tables s s' -> ok s' -> Q tt s') -> wp (on_sched (do_Remove i)) s Q.
Proof. apply wp_on_sched. intros sc Hs. wp_use remove_law; [done|]. by intros _ ? [? _]. Qed.

#[export] Instance same_tables_preorder : PreOrder same_tables.
Proof.
  split; [done|]. intros s1 s2 s3 (?&?&?&?&?&?) (?&?&?&?&?&?). unfold same_tables. split_and!; congruence.
Qed.

Lemma wp_Remove_all (f : string -> string) l s :
  ok s -> wp (for_each l (fun i => on_sched (do_Remove (f i)))) s
    (fun _ s' => ok s' /\ same_tables s s').
Proof.
  intros Hok. eapply (wp_for_each_inv (fun s' => ok s' /\ same_tables s s')); [done|].
  intros i s1 _ [Hok1 Hs1]. apply wp_Remove; [done|]. intros s2 Hs2 Hok2. split; [done|by etrans].
Qed.

(** Operations on the bucket that keep it usable. *)
Lemma usable_Allow now v : usable v -> wp (Bucket.Allow now) v (fun _ => usable).
Proof. intros Hu. wp_use Allow_total; [done|]. by intros _ v' [_ ?]. Qed.

Lemma usable_ScheduledRefill now v : usable v -> wp (Bucket.ScheduledRefill now) v (fun _ => usable).
Proof. intros Hu. wp_use ScheduledRefill_total; [done|]. by intros _ v' [_ ?]. Qed.

Lemma usable_NextRefillTime v : usable v -> wp Bucket.NextRefillTime v (fun _ => usable).
Proof.
  intros Hu. pose proof Hu as [(cfg & Hc & _) _]. unfold Bucket.NextRefillTime, load_config. wp_steps.
  rewrite Hc. wp_steps. by case_match; wp_steps.
Qed.

Lemma usable_gets {A} (f : Bucket -> A) v : usable v -> wp (gets f) v (fun _ => usable).
Proof. by intros. Qed.

Lemma usable_set_blocked x v : usable v -> wp (modify (set_blocked x)) v (fun _ => usable).
Proof. intros [? ?]. by split. Qed.

(** Blocks that allocate. *)
Lemma ok_new_bucket s v : usable v -> ok s ->
  ok (set_bheap (bheap s ++ [v]) s) /\ guarantee s (set_bheap (bheap s ++ [v]) s).
Proof.
  intros Hu [Hc Ht Hi Hg Hb Hcap Hicap Hs Hfit]. split.
  - split; cbn; rewrite ?length_app; cbn; try done.
    + intros p o Hp. destruct (Ht _ _ Hp) as [? Hlt]. split; [done|].
      intros t b Hb'. specialize (Hlt _ _ Hb'). lia.
    + intros ip b Hb'. destruct (Hi ip b Hb'). split; [done|lia].
    + intros b Hb'. specialize (Hg b Hb'). lia.
    + apply Forall_app. split; [done|]. by apply Forall_singleton.
  - split_and!; [|done|done]. split; cbn; [rewrite length_app; lia|eauto].
Qed.

Lemma ok_set_client s p o k t b :
  cheap s !! p = Some o -> c_key o = k -> bucket_at b s -> ok s ->
  let s' := set_cheap (<[p := {| c_key := k; c_buckets := <[t := b]> (c_buckets o) |}]> (cheap s)) s in
  ok s' /\ guarantee s s'.
Proof.
  intros Hp <- Hbt [Hc Ht Hi Hg Hb Hcap Hicap Hs Hfit] s'. pose proof (lookup_lt_Some _ _ _ Hp) as Hlt.
  split.
  - split; try done.
    + intros k q Hq. destruct (Hc _ _ Hq) as (Hne & o' & Ho' & E). split; [done|]. cbn.
      destruct (decide (p = q)) as [<-|Hpq].
      * rewrite list_lookup_insert_eq by done. eexists. split; [done|]. cbn. congruence.
      * rewrite list_lookup_insert_ne by done. eauto.
    + intros q o' Hq. cbn in *. apply list_lookup_insert_Some in Hq as [(<- & <- & _)|[_ Hq]]; [|eauto].
      destruct (Ht _ _ Hp) as [Hd Hlt']. cbn. split.
      * rewrite lookup_insert. case_decide; eauto.
      * intros t' b' [[_ <-]|[_ ?]]%lookup_insert_Some; eauto.
  - split_and!; [|done|done]. split; [done|]. intros q o' Hq. cbn.
    destruct (decide (p = q)) as [<-|Hpq].
    + rewrite list_lookup_insert_eq by done. eexists. split; [done|].
      assert (o' = o) as -> by congruence. split; [done|]. apply dom_insert_subseteq.
    + rewrite list_lookup_insert_ne by done. eauto.
Qed.

(** The tables that a block leaves alone. *)
Definition same_maps s s' : Prop :=
  cmap s' = cmap s /\ ipmap s' = ipmap s /\ gptr s' = gptr s.

Lemma guarantee_maps s s' : grows s s' -> same_maps s s' -> guarantee s s'.
Proof. intros G (Ec & Ei & _). split_and!; [done|by rewrite Ec|by rewrite Ei]. Qed.

Lemma new_bucket_spec cfg now s : ok s -> allocatable cfg = true ->
  wp (new_bucket cfg now) s (fun b s' => ok s' /\ grows s s' /\ same_maps s s' /\ bucket_at b s' /\
    cheap s' = cheap s).
Proof.
  intros Hok Ha. unfold new_bucket. apply wp_bind, wp_New; [done|]. wp_steps.
  destruct (ok_new_bucket s (Bucket.fresh cfg now) (fresh_usable cfg now Ha) Hok) as [? [? _]].
  split_and!; [done|done|done| |done]. unfold bucket_at. cbn. rewrite length_app. cbn. lia.
Qed.

Lemma wp_at_c p s (Q : client -> shared S -> Prop) :
  ok s -> client_at p s ->
  (forall o, cheap s !! p = Some o -> Q o s) -> wp (at_c p) s Q.
Proof. intros Hok [o Ho] HQ. unfold at_c, wp. rewrite Ho. auto. Qed.

Lemma Configure_spec p tier cfg now s : ok s -> client_at p s -> allocatable cfg = true ->
  wp (c_Configure p tier cfg now) s (fun _ s' => ok s' /\ grows s s' /\ same_maps s s' /\ client_at p s').
Proof.
  intros Hok Hp Ha. unfold c_Configure. apply wp_bind, wp_at_c; [done|done|]. intros o Ho.
  wp_step. wp_use new_bucket_spec; [done|done|]. intros b s1 (Hok1 & G1 & Hm1 & Hb & Ec). wp_step.
  rewrite <- Ec in Ho.
  destruct (ok_set_client s1 p o (c_key o) (norm_tier tier) b Ho eq_refl Hb Hok1) as [Hok2 [G2 _]].
  split_and!; [done|by etrans|done|]. unfold client_at. cbn.
  rewrite list_lookup_insert_eq by (by eapply lookup_lt_Some). eauto.
Qed.

Lemma new_client_spec k cfg now s : ok s -> allocatable cfg = true ->
  wp (new_client k cfg now) s (fun p s' => ok s' /\ grows s s' /\ same_maps s s' /\
    exists o, cheap s' !! p = Some o /\ c_key o = k).
Proof.
  intros Hok Ha. unfold new_client, c_Configure. repeat (wp_step; cbn beta). unfold at_c at 1.
  unfold wp at 1. cbn. rewrite lookup_app_r, Nat.sub_diag by done. cbn.
  unfold new_bucket. apply wp_bind, wp_bind, wp_New; [done|]. repeat (wp_step; cbn beta). cbn.
  rewrite insert_app_r_alt, Nat.sub_diag by done. cbn.
  destruct (ok_new_bucket s (Bucket.fresh cfg now) (fresh_usable cfg now Ha) Hok) as [Hok1 [G1 _]].
  destruct Hok1 as [Hc Ht Hi Hg Hb Hcap Hicap Hs Hfit]. cbn in *.
  assert (Hg2 : forall p o, cheap s !! p = Some o ->
    (cheap s ++ [{| c_key := k; c_buckets := <[DefaultTier := List.length (bheap s)]> ∅ |}]) !! p = Some o).
  { intros. by apply lookup_app_l_Some. }
  split_and!; [split; cbn; try done|split|done|].
  - intros k' p Hp. destruct (Hc _ _ Hp) as (? & o & ? & ?). eauto 10.
  - intros p o [Hp|[_ Hp]]%lookup_app_Some; [by eapply Ht|].
    apply list_lookup_singleton_Some in Hp as [_ <-]. cbn. split.
    + rewrite lookup_insert_eq. eauto.
    + intros t b [[_ <-]|[_ Hf]]%lookup_insert_Some; [|by rewrite lookup_empty in Hf]. rewrite length_app. cbn. lia.
  - cbn. rewrite length_app. lia.
  - cbn. eauto 10.
  - cbn. rewrite lookup_app_r, Nat.sub_diag by done. cbn. by eexists.
Qed.

(** *** Critical sections *)

(** Removing an entry of a table. *)
Lemma ok_delete_client s k e : ok s -> ok (set_evicts e (set_cmap (delete k (cmap s)) s)).
Proof.
  intros [Hc Ht Hi Hg Hb Hcap Hicap Hs Hfit]. split; cbn; try done.
  - intros k' p [_ ?]%lookup_delete_Some. eauto.
  - intros Hpos. specialize (Hcap Hpos). rewrite map_size_delete. case_match; cbn; lia.
Qed.

Lemma ok_delete_ip s ip : ok s -> ok (set_ipmap (delete ip (ipmap s)) s).
Proof.
  intros [Hc Ht Hi Hg Hb Hcap Hicap Hs Hfit]. split; cbn; try done.
  - intros ip' b [_ ?]%lookup_delete_Some. eauto.
  - intros Hpos. specialize (Hicap Hpos). rewrite map_size_delete. case_match; cbn; lia.
Qed.

Lemma size_delete_present {V} (m : gmap string V) k :
  is_Some (m !! k) -> (size (delete k m) < size m)%nat.
Proof.
  intros [v Hv]. rewrite map_size_delete, Hv.
  assert (size m <> O) by (rewrite map_size_non_empty_iff; intros ->; by rewrite lookup_empty in Hv).
  lia.
Qed.

(** Both evictions pick an entry of the table. *)
Lemma oldest_entry {V W} (last : W -> Time) (f : V -> option W) (m : gmap string V) :
  size m <> O -> (forall k v, m !! k = Some v -> is_Some (f v)) ->
  exists k v w t, oldest last (range (omap f m)) = (k, t, false) /\ m !! k = Some v /\
    omap f m !! k = Some w.
Proof.
  intros Hsz Hf. destruct (oldest_spec last (range (omap f m))) as (k & w & E & Hin & _).
  { apply range_nonempty, map_size_non_empty_iff. intros E.
    destruct (map_choose m) as (k & v & Hk); [by apply map_size_non_empty_iff|].
    destruct (Hf _ _ Hk) as [w Hw]. pose proof (lookup_omap f m k) as Hl.
    rewrite E, Hk, lookup_empty in Hl. cbn in Hl. congruence. }
  apply elem_of_range in Hin. pose proof Hin as Hin'. rewrite lookup_omap in Hin'.
  destruct (m !! k) as [v|] eqn:Hk; [|done]. eauto 10.
Qed.

Lemma evictLRULocked_spec s : ok s -> size (cmap s) <> O ->
  wp evictLRULocked s (fun _ s' => ok s' /\ grows s s' /\ ipmap s' = ipmap s /\
    exists k, is_Some (cmap s !! k) /\ cmap s' = delete k (cmap s)).
Proof.
  intros Hok Hsz. unfold evictLRULocked, wp at 1. rewrite bool_decide_false by done.
  destruct (oldest_entry MultiBucket.LastAccess (resolve s) _ Hsz) as (k & p & cb & t & E & Hk & Hcb).
  { intros k p Hk. destruct (ok_clients _ Hok _ _ Hk) as (_ & o & Ho & _). unfold resolve. rewrite Ho. by eexists. }
  unfold clients_view. rewrite E.
  destruct (ok_clients _ Hok _ _ Hk) as (Hne & _).
  rewrite bool_decide_false by done. rewrite Hcb.
  match goal with |- match ?c s with _ => _ end =>
    change (wp c s (fun _ s' => ok s' /\ grows s s' /\ ipmap s' = ipmap s /\
      exists k, is_Some (cmap s !! k) /\ cmap s' = delete k (cmap s))) end.
  wp_steps. wp_use wp_Remove_all; [by apply ok_delete_client|].
  intros _ s' [Hok' Hs']. pose proof (same_tables_guarantee _ _ Hs') as [G _].
  destruct Hs' as (_ & _ & Ec & Ei & _). cbn in Ec, Ei.
  split_and!; [done|exact G|done|]. exists k. by rewrite Hk.
Qed.

Lemma kept_insert (m m' : gmap string nat) k p :
  m !! k = None -> m' ⊆ m -> kept m (<[k := p]> m').
Proof.
  intros Hk Hsub k' p' [[<- <-]|[_ Hp]]%lookup_insert_Some; [by right|left].
  by eapply lookup_weaken.
Qed.

Lemma make_room_spec s : ok s ->
  wp (if (0 <? max) && (max <=? Z.of_nat (size (cmap s))) then evictLRULocked else ret tt) s
    (fun _ s' => ok s' /\ grows s s' /\ ipmap s' = ipmap s /\ cmap s' ⊆ cmap s /\
       bounded (Z.of_nat (size (cmap s')) + 1) max).
Proof.
  intros Hok. pose proof (ok_capacity _ Hok) as Hcap. unfold bounded in *.
  destruct (Z.ltb_spec 0 max) as [Hpos|Hpos]; cbn [andb].
  2:{ wp_steps. split_and!; [done|done|done|done|lia]. }
  destruct (Z.leb_spec max (Z.of_nat (size (cmap s)))).
  2:{ wp_steps. split_and!; [done|done|done|done|lia]. }
  wp_use evictLRULocked_spec; [done|lia|]. intros _ s' (Hok' & G & Ei & k & Hk & E).
  rewrite E. split_and!; [done..|apply delete_subseteq|]. intros _.
  pose proof (size_delete_present _ _ Hk). specialize (Hcap Hpos). lia.
Qed.

Lemma ok_insert_client s k p :
  k <> "" -> (exists o, cheap s !! p = Some o /\ c_key o = k) ->
  bounded (Z.of_nat (size (cmap s)) + 1) max -> ok s -> ok (set_cmap (<[k := p]> (cmap s)) s).
Proof.
  intros Hk Hp Hb [Hc Ht Hi Hg Hbk Hcap Hicap Hs Hfit]. split; cbn; try done.
  - intros k' p' [[<- <-]|[_ ?]]%lookup_insert_Some; eauto.
  - intros Hpos. specialize (Hb Hpos). specialize (Hcap Hpos). rewrite map_size_insert. case_match; cbn; lia.
Qed.

Lemma schedule_new_spec id b s : ok s -> bucket_at b s ->
  wp (schedule_new id b) s (fun _ s' => ok s' /\ same_tables s s').
Proof.
  intros Hok Hb. unfold schedule_new.
  apply wp_bind, wp_on_b; [done|done|exact usable_NextRefillTime|].
  intros t s1 Hs1 Hok1. apply wp_Schedule; [done|]. intros s2 Hs2 Hok2. split; [done|by etrans].
Qed.

Lemma createLocked_spec k now s : ok s -> k <> "" ->
  wp (createLocked opts k now) s (fun p s' => ok s' /\ guarantee s s' /\ client_at p s').
Proof.
  intros Hok Hne. unfold createLocked. wp_steps. destruct (cmap s !! k) as [p|] eqn:Hk.
  { wp_steps. split_and!; [done|done|]. destruct (ok_clients _ Hok _ _ Hk) as (_ & o & ? & _).
    by exists o. }
  wp_step. wp_use make_room_spec; [done|]. intros _ s1 (Hok1 & G1 & Ei1 & Hsub & Hroom).
  wp_step. wp_use new_client_spec; [done|by apply fits_default, (ok_fits _ Hok)|]. intros p s2 (Hok2 & G2 & (Ec2 & Ei2 & _) & Hp).
  wp_steps. assert (Hok3 : ok (set_cmap (<[k := p]> (cmap s2)) s2)).
  { apply ok_insert_client; [done|done|by rewrite Ec2|done]. }
  assert (HG : guarantee s (set_cmap (<[k := p]> (cmap s2)) s2)).
  { split_and!; [|cbn; rewrite Ec2; by apply kept_insert|cbn; by rewrite Ei2, Ei1].
    etrans; [exact G1|]. exact G2. }
  assert (Hcl : client_at p (set_cmap (<[k := p]> (cmap s2)) s2)).
  { destruct Hp as (o & ? & _). by exists o. }
  set (s3 := set_cmap _ s2) in *.
  assert (Hlast : forall s', same_tables s3 s' -> ok s' ->
    wp (ret p) s' (fun p s' => ok s' /\ guarantee s s' /\ client_at p s')).
  { intros s' Hs' Hok'. wp_steps. split_and!; [done|by eapply guarantee_then|].
    eapply client_at_stable; [apply (same_tables_guarantee _ _ Hs')|done]. }
  destruct (0 <? _); [|wp_steps; by apply Hlast].
  wp_step. unfold c_Bucket. apply wp_bind, wp_at_c; [done|done|]. intros o Ho. wp_step.
  destruct (c_buckets o !! norm_tier DefaultTier) as [b|] eqn:Hb; [|wp_steps; by apply Hlast].
  wp_use schedule_new_spec; [done|by eapply ok_tiers|]. intros _ s4 [Hok4 Hs4]. by apply Hlast.
Qed.

Lemma evictOldestIPLocked_spec s : ok s -> size (ipmap s) <> O ->
  wp evictOldestIPLocked s (fun _ s' => ok s' /\ grows s s' /\ cmap s' = cmap s /\
    exists ip, is_Some (ipmap s !! ip) /\ ipmap s' = delete ip (ipmap s)).
Proof.
  intros Hok Hsz. unfold evictOldestIPLocked, wp at 1. rewrite bool_decide_false by done. cbv zeta.
  destruct (oldest_entry Bucket.LastAccess (fun b => bheap s !! b) _ Hsz)
    as (ip & b & w & t & E & Hip & _).
  { intros ip b Hip. apply lookup_lt_is_Some_2. by apply (ok_ips _ Hok ip). }
  unfold ips_view. rewrite E.
  destruct (ok_ips _ Hok _ _ Hip) as [Hne _]. rewrite bool_decide_false by done.
  match goal with |- match ?c s with _ => _ end =>
    change (wp c s (fun _ s' => ok s' /\ grows s s' /\ cmap s' = cmap s /\
      exists ip, is_Some (ipmap s !! ip) /\ ipmap s' = delete ip (ipmap s))) end.
  wp_steps. apply wp_Remove; [by apply ok_delete_ip|]. intros s' Hs' Hok'.
  pose proof (same_tables_guarantee _ _ Hs') as [G _]. destruct Hs' as (_ & _ & Ec & Ei & _).
  split_and!; [done|exact G|done|]. exists ip. by rewrite Hip.
Qed.

Lemma make_ip_room_spec s : ok s ->
  wp (if cap <=? Z.of_nat (size (ipmap s)) then evictOldestIPLocked else ret tt) s
    (fun _ s' => ok s' /\ grows s s' /\ cmap s' = cmap s /\ ipmap s' ⊆ ipmap s /\
       bounded (Z.of_nat (size (ipmap s')) + 1) cap).
Proof.
  intros Hok. pose proof (ok_ip_capacity _ Hok) as Hcap. unfold bounded in *.
  destruct (Z.leb_spec cap (Z.of_nat (size (ipmap s)))) as [Hle|].
  2:{ wp_steps. split_and!; [done|done|done|done|lia]. }
  destruct (decide (size (ipmap s) = O)) as [E0|Hsz].
  - unfold evictOldestIPLocked, wp. rewrite bool_decide_true by done. cbn.
    split_and!; [done|done|done|done|]. lia.
  - wp_use evictOldestIPLocked_spec; [done|done|]. intros _ s' (Hok' & G & Ec & ip & Hip & E).
    rewrite E. split_and!; [done..|apply delete_subseteq|]. intros Hpos.
    pose proof (size_delete_present _ _ Hip). specialize (Hcap Hpos). lia.
Qed.

Lemma ok_insert_ip s ip b :
  ip <> "" -> bucket_at b s -> bounded (Z.of_nat (size (ipmap s)) + 1) cap -> ok s ->
  ok (set_ipmap (<[ip := b]> (ipmap s)) s).
Proof.
  intros Hip Hp Hb [Hc Ht Hi Hg Hbk Hcap Hicap Hs Hfit]. split; cbn; try done.
  - intros ip' b' [[<- <-]|[_ ?]]%lookup_insert_Some; eauto.
  - intros Hpos. specialize (Hb Hpos). specialize (Hicap Hpos). rewrite map_size_insert. case_match; cbn; lia.
Qed.

Lemma ip_window_fits s : ok s -> allocatable (default fallback_ip_Config (ipConfig s)) = true.
Proof. intros Hok. destruct (ipConfig s) eqn:E; [|done]. by apply (ok_fits _ Hok). Qed.

Lemma createIPLocked_spec ip now s : ok s -> ip <> "" ->
  wp (createIPLocked opts ip now) s (fun b s' => ok s' /\ guarantee s s' /\ bucket_at b s').
Proof.
  intros Hok Hne. unfold createIPLocked. wp_steps. destruct (ipmap s !! ip) as [b|] eqn:Hk.
  { wp_steps. split_and!; [done|done|]. by apply (ok_ips _ Hok ip). }
  wp_steps. wp_use make_ip_room_spec; [done|]. intros _ s1 (Hok1 & G1 & Ec1 & Hsub & Hroom).
  wp_step. wp_use new_bucket_spec; [done|by apply ip_window_fits|]. intros b s2 (Hok2 & G2 & (Ec2 & Ei2 & _) & Hb & _).
  wp_steps. assert (Hok3 : ok (set_ipmap (<[ip := b]> (ipmap s2)) s2)).
  { apply ok_insert_ip; [done|done|by rewrite Ei2|done]. }
  assert (HG : guarantee s (set_ipmap (<[ip := b]> (ipmap s2)) s2)).
  { split_and!; [|cbn; by rewrite Ec2, Ec1|cbn; rewrite Ei2; by apply kept_insert].
    etrans; [exact G1|]. exact G2. }
  destruct (0 <? _); [|by wp_steps].
  wp_use schedule_new_spec; [done|done|]. intros _ s4 [Hok4 Hs4]. wp_steps.
  split_and!; [done|by eapply guarantee_then|].
  eapply bucket_at_stable; [apply (same_tables_guarantee _ _ Hs4)|done].
Qed.

Lemma clearIPsLocked_spec s : ok s ->
  wp clearIPsLocked s (fun _ s' => ok s' /\ guarantee s s').
Proof.
  intros Hok. unfold clearIPsLocked. wp_steps.
  wp_use (wp_for_each_inv (fun s' => ok s' /\ grows s s' /\ cmap s' = cmap s /\ ipmap s' ⊆ ipmap s)); [done| |].
  - intros ip s1 _ (Hok1 & G1 & Ec1 & Hsub). wp_step. apply wp_Remove; [done|]. intros s2 Hs2 Hok2. wp_steps.
    pose proof (same_tables_guarantee _ _ Hs2) as [G2 _]. destruct Hs2 as (_ & _ & Ec2 & Ei2 & _).
    split_and!; [by apply ok_delete_ip|by etrans; [exact G1|exact G2]|by rewrite <- Ec1|].
    cbn. etrans; [apply delete_subseteq|]. by rewrite Ei2.
  - intros _ s' (Hok' & G & Ec & Hsub). split; [done|]. split_and!; [done|by rewrite Ec|].
    intros k p Hk. left. by eapply lookup_weaken.
Qed.

Lemma c_set_blocked_spec v p s : ok s -> client_at p s ->
  wp (c_set_blocked v p) s (fun _ s' => ok s' /\ guarantee s s').
Proof.
  intros Hok Hp. unfold c_set_blocked. apply wp_bind, wp_at_c; [done|done|]. intros o Ho.
  wp_use (wp_for_each_inv (fun s' => ok s' /\ same_tables s s')); [done| |].
  - intros [t b] s1 Hin%elem_of_range [Hok1 Hs1]. cbn.
    apply wp_on_b; [done| |exact (usable_set_blocked v)|].
    + unfold bucket_at. destruct Hs1 as (_ & -> & _). by eapply ok_tiers.
    + intros _ s2 Hs2 Hok2. split; [done|by etrans].
  - intros _ s' [Hok' Hs']. split; [done|by apply same_tables_guarantee].
Qed.

(** *** Requests *)

Lemma safe_step {A B} (P : A -> shared S -> Prop) (Q : B -> shared S -> Prop)
  (c : M (shared S) A) (f : A -> prog (shared S) B) s :
  (forall s1, grows s s1 -> ok s1 -> wp c s1 (fun a s2 => ok s2 /\ guarantee s1 s2 /\ P a s2)) ->
  (forall a s2, grows s s2 -> P a s2 -> safe Q (f a) s2) ->
  safe Q (let* a := atomic c in f a) s.
Proof.
  intros Hc Hf s1 G1 Hok. wp_use Hc; [done|done|]. intros a s2 (? & G2 & ?).
  split_and!; [done|done|]. apply Hf; [by etrans; [exact G1|apply G2]|done].
Qed.

(** A thread that gives no result away. *)
Abbreviation quietly := (safe (fun _ _ => True)).

Lemma safe_read {A B} (P : A -> shared S -> Prop) (Q : B -> shared S -> Prop)
  (g : shared S -> A) (f : A -> prog (shared S) B) s :
  (forall s1, grows s s1 -> ok s1 -> P (g s1) s1) ->
  (forall a s2, grows s s2 -> P a s2 -> safe Q (f a) s2) ->
  safe Q (let* a := atomic (gets g) in f a) s.
Proof. intros Hg. apply safe_step. intros s1 G1 Hok. wp_steps. split_and!; [done|done|auto]. Qed.

Lemma safe_on_b {A B} (Q : B -> shared S -> Prop) b (c : M Bucket A) (f : A -> prog (shared S) B) s :
  bucket_at b s -> (forall v, usable v -> wp c v (fun _ => usable)) ->
  (forall a s2, grows s s2 -> safe Q (f a) s2) ->
  safe Q (let* a := atomic (on_b b c) in f a) s.
Proof.
  intros Hb Hc Hf. apply (safe_step (fun _ _ => True)); [|auto]. intros s1 G1 Hok.
  apply wp_on_b; [done|by eapply bucket_at_stable|done|]. intros a s2 Hs2 Hok2.
  split_and!; [done|by apply same_tables_guarantee|done].
Qed.

Lemma safe_sched {B} (Q : B -> shared S -> Prop) (c : M S unit) (f : unit -> prog (shared S) B) s :
  (forall sc, sched_ok sc -> wp c sc (fun _ => sched_ok)) ->
  (forall s2, grows s s2 -> safe Q (f tt) s2) ->
  safe Q (let* a := atomic (on_sched c) in f a) s.
Proof.
  intros Hc Hf. apply (safe_step (fun _ _ => True)); [|by intros []; auto]. intros s1 G1 Hok.
  apply wp_on_sched; [done|done|]. intros s2 Hs2 Hok2.
  split_and!; [done|by apply same_tables_guarantee|done].
Qed.

Lemma Schedule_ok i t sc : sched_ok sc -> wp (do_Schedule i t) sc (fun _ => sched_ok).
Proof. intros Hs. wp_use schedule_law; [done|]. by intros _ ? [? _]. Qed.

Lemma Remove_ok i sc : sched_ok sc -> wp (do_Remove i) sc (fun _ => sched_ok).
Proof. intros Hs. wp_use remove_law; [done|]. by intros _ ? [? _]. Qed.

(** Bucket pointers read from a client. *)
Definition maybe_bucket (b : option nat) s : Prop := from_option bucket_at (fun _ => True) b s.

Lemma wp_c_read {A} (g : client -> A) p s (Q : A -> shared S -> Prop) :
  ok s -> client_at p s -> (forall o, cheap s !! p = Some o -> Q (g o) s) ->
  wp (let! o := at_c p in ret (g o)) s Q.
Proof. intros Hok Hp HQ. apply wp_bind, wp_at_c; [done|done|]. intros o Ho. by apply HQ. Qed.

Lemma safe_lookup {B} (Q : B -> shared S -> Prop) (g : client -> option nat) p
  (f : option nat -> prog (shared S) B) s :
  client_at p s ->
  (forall o b, g o = Some b -> exists t, c_buckets o !! t = Some b) ->
  (forall (b : option nat) s2, grows s s2 -> maybe_bucket b s2 -> safe Q (f b) s2) ->
  safe Q (let* b := atomic (let! o := at_c p in ret (g o)) in f b) s.
Proof.
  intros Hp Hg Hf. apply (safe_step maybe_bucket); [|done]. intros s1 G1 Hok.
  apply wp_c_read; [done|by eapply client_at_stable|]. intros o Ho. split_and!; [done|done|].
  destruct (g o) as [b|] eqn:E; [|done]. destruct (Hg _ _ E) as [t Ht]. cbn. by eapply ok_tiers.
Qed.

Lemma getOrCreateClient_safe k now s : k <> "" ->
  safe client_at (getOrCreateClient opts k now) s.
Proof.
  intros Hk. unfold getOrCreateClient.
  apply (safe_read (fun cb s => from_option client_at (fun _ => True) cb s)).
  - intros s1 _ Hok. destruct (cmap s1 !! k) as [p|] eqn:E; [|done]. cbn.
    destruct (ok_clients _ Hok _ _ E) as (_ & o & ? & _). by exists o.
  - intros [p|] s2 _ Hp; cbn in Hp.
    + intros s3 G3. by eapply client_at_stable.
    + apply safe_atomic; [apply client_at_stable|]. intros s3 _ Hok. by apply createLocked_spec.
Qed.

Lemma getOrCreateIPBucket_safe ip now s : ip <> "" ->
  safe bucket_at (getOrCreateIPBucket opts ip now) s.
Proof.
  intros Hip. unfold getOrCreateIPBucket.
  apply (safe_read (fun b : option nat => maybe_bucket b)).
  - intros s1 _ Hok. destruct (ipmap s1 !! ip) as [b|] eqn:E; [|done]. by apply (ok_ips _ Hok ip).
  - intros [b|] s2 _ Hb.
    + intros s3 G3. by eapply bucket_at_stable.
    + apply safe_atomic; [apply bucket_at_stable|]. intros s3 _ Hok. by apply createIPLocked_spec.
Qed.

Lemma safe_done {A} (a : A) s : safe (fun _ _ => True) (Done (S := shared S) a) s.
Proof. by intros s' _. Qed.
#[local] Hint Resolve safe_done : core.

Lemma safe_lookup_Bucket {B} (Q : B -> shared S -> Prop) p t (f : option nat -> prog (shared S) B) s :
  client_at p s ->
  (forall (b : option nat) s2, grows s s2 -> maybe_bucket b s2 -> safe Q (f b) s2) ->
  safe Q (let* b := atomic (c_Bucket p t) in f b) s.
Proof.
  intros Hp. apply (safe_lookup Q (fun o => c_buckets o !! norm_tier t)); [done|]. eauto.
Qed.

Lemma schedule_tier_safe p tier id i s : client_at p s -> quietly (schedule_tier p tier id i) s.
Proof.
  intros Hp. unfold schedule_tier. destruct (0 <? i); [|done].
  apply safe_lookup_Bucket; [done|]. intros [b|] s1 G1 Hb; [|done].
  apply safe_on_b; [done|exact usable_NextRefillTime|]. intros t s2 G2.
  apply (safe_sched _ (do_Schedule id t) Done); [apply Schedule_ok|done].
Qed.

Lemma safe_Configure {B} (Q : B -> shared S -> Prop) p tier cfg now (f : unit -> prog (shared S) B) s :
  client_at p s -> (forall s', ok s' -> allocatable cfg = true) -> (forall s2, grows s s2 -> safe Q (f tt) s2) ->
  safe Q (let* u := atomic (c_Configure p tier cfg now) in f u) s.
Proof.
  intros Hp Ha Hf. apply (safe_step (fun _ _ => True)); [|by intros []; auto]. intros s1 G1 Hok.
  wp_use Configure_spec; [done|by eapply client_at_stable|by apply (Ha s1)|].
  intros _ s2 (Hok2 & G2 & Hm & _). split_and!; [done|by apply guarantee_maps|done].
Qed.

Lemma ensureTier_safe p tier now s : client_at p s -> quietly (ensureTier opts p tier now) s.
Proof.
  intros Hp. unfold ensureTier. case_bool_decide; [done|].
  apply safe_lookup_Bucket; [done|]. intros [b|] s1 G1 _; [done|].
  destruct (tierDefaults _ !! tier) as [cfg|] eqn:Ht; [|done].
  apply safe_Configure; [by eapply client_at_stable|intros s' Hok; exact (proj1 (proj1 (ok_fits _ Hok)) _ _ Ht)|]. intros s2 G2.
  apply (safe_step (fun _ _ => True)).
  - intros s3 G3 Hok. apply wp_at_c; [done| |done].
    eapply client_at_stable; [|exact Hp]. etrans; [exact G1|]. by etrans.
  - intros o s3 G3 _. apply schedule_tier_safe.
    eapply client_at_stable; [|exact Hp]. etrans; [exact G1|]. by etrans.
Qed.

Lemma remaining_safe p tier s : client_at p s -> quietly (remaining p tier) s.
Proof.
  intros Hp. unfold remaining.
  assert (Hread : forall b s, bucket_at b s -> quietly (atomic (on_b b (gets Bucket.TokensRemaining))) s).
  { intros b s' Hb. apply (safe_on_b _ b (gets Bucket.TokensRemaining) Done); [done|apply usable_gets|done]. }
  apply safe_lookup_Bucket; [done|]. intros [b|] s1 G1 Hb; [by apply Hread|].
  apply safe_lookup_Bucket; [by eapply client_at_stable|]. intros [b|] s2 G2 Hb2; [by apply Hread|done].
Qed.

Lemma c_Allow_safe p tier now s : client_at p s -> quietly (c_Allow p tier now) s.
Proof.
  intros Hp. unfold c_Allow.
  apply (safe_lookup _ (fun o => match c_buckets o !! norm_tier tier with
                                  | Some b => Some b
                                  | None => c_buckets o !! DefaultTier end)); [done| |].
  - intros o b. destruct (c_buckets o !! norm_tier tier) eqn:E; intros; simplify_eq; eauto.
  - intros [b|] s1 _ Hb; [|done].
    apply (safe_on_b _ b (Bucket.Allow now) Done); [done|apply usable_Allow|done].
Qed.

Lemma client_gate_safe k tier now s : k <> "" -> quietly (client_gate opts k tier now) s.
Proof.
  intros Hk. unfold client_gate. eapply safe_call; [by apply getOrCreateClient_safe|].
  intros p s1 _ Hp. apply (safe_step (fun _ s => client_at p s)).
  - intros s2 G2 Hok. pose proof (client_at_stable _ _ _ G2 Hp) as [o Ho].
    unfold c_IsBlocked, wp, resolve. rewrite Ho. cbn. split_and!; [done|done|by eexists].
  - intros [] s2 G2 Hp2; [done|]. eapply safe_call; [by apply ensureTier_safe|].
    intros _ s3 G3 _. eapply safe_call; [apply c_Allow_safe; by eapply client_at_stable|].
    intros [[] r] s4 G4 _; cbv beta iota delta [negb]; [|done].
    eapply safe_call; [apply remaining_safe|by intros].
    eapply client_at_stable; [|exact Hp2]. by etrans.
Qed.

Lemma maybe_gptr s : ok s -> maybe_bucket (gptr s) s.
Proof. intros Hok. destruct (gptr s) as [b|] eqn:E; [|done]. by apply (ok_global _ Hok). Qed.

Lemma maybe_ip s ip : ok s -> maybe_bucket (ipmap s !! ip) s.
Proof. intros Hok. destruct (ipmap s !! ip) as [b|] eqn:E; [|done]. by apply (ok_ips _ Hok ip). Qed.

Lemma Allow_safe req wall s : ClientKey req <> "" -> quietly (Allow opts req wall) s.
Proof.
  intros Hk. unfold Allow. cbv zeta. generalize (if Time.IsZero (Now req) then wall else Now req) as now; intros now.
  eapply (safe_call (fun (_ : option AllowResult) _ => True)).
  { unfold global_gate. apply (safe_read (fun b : option nat => maybe_bucket b)); [intros; by apply maybe_gptr|].
    intros [b|] s1 _ Hb; [|done]. apply safe_on_b; [done|apply usable_Allow|]. by intros []. }
  intros [res|] s1 _ _; [done|]. eapply (safe_call (fun (_ : option AllowResult) _ => True)).
  { unfold ip_gate. apply (safe_read (fun (_ : bool) _ => True)); [done|]. intros en s2 _ _.
    destruct (en && _) eqn:E; [|done]. apply andb_true_iff in E as [_ E%negb_true_iff].
    eapply safe_call; [apply getOrCreateIPBucket_safe; by case_bool_decide|].
    intros b s3 _ Hb. apply safe_on_b; [done|apply usable_Allow|]. by intros []. }
  intros [res|] s2 _ _; [done|]. by apply client_gate_safe.
Qed.

Lemma UpdateClientConfig_safe k tier cfg now s : k <> "" -> allocatable cfg = true ->
  quietly (UpdateClientConfig opts k tier cfg now) s.
Proof.
  intros Hk Ha. unfold UpdateClientConfig. cbv zeta. eapply safe_call; [by apply getOrCreateClient_safe|].
  intros p s1 _ Hp. apply safe_Configure; [done|done|]. intros s2 G2.
  apply safe_sched; [apply Remove_ok|]. intros s3 G3. apply schedule_tier_safe.
  eapply client_at_stable; [|exact Hp]. by etrans.
Qed.

Lemma safe_set_blocked v p s : client_at p s -> quietly (atomic (c_set_blocked v p)) s.
Proof.
  intros Hp. apply safe_atomic; [by intros|]. intros s1 G1 Hok.
  wp_use c_set_blocked_spec; [done|by eapply client_at_stable|]. by intros _ s2 [? ?].
Qed.

Lemma Block_safe k now s : k <> "" -> quietly (Block opts k now) s.
Proof.
  intros Hk. unfold Block. eapply safe_call; [by apply getOrCreateClient_safe|].
  intros p s1 _. apply safe_set_blocked.
Qed.

Lemma Unblock_safe k s : quietly (Unblock k) s.
Proof.
  unfold Unblock. apply (safe_read (fun p : option nat => from_option client_at (fun _ => True) p)).
  - intros s1 _ Hok. destruct (cmap s1 !! k) as [p|] eqn:E; [|done].
    destruct (ok_clients _ Hok _ _ E) as (_ & o & ? & _). by exists o.
  - intros [p|] s1 _ Hp; [|done]. by apply safe_set_blocked.
Qed.

Lemma safe_write {B} (Q : B -> shared S -> Prop) (g : shared S -> shared S)
  (f : unit -> prog (shared S) B) s :
  (forall s1, ok s1 -> ok (g s1) /\ guarantee s1 (g s1)) ->
  (forall s2, grows s s2 -> safe Q (f tt) s2) ->
  safe Q (let* u := atomic (modify g) in f u) s.
Proof.
  intros Hg Hf. apply (safe_step (fun _ _ => True)); [|by intros []; auto].
  intros s1 G1 Hok. wp_steps. by destruct (Hg _ Hok).
Qed.

Lemma SetGlobalConfig_safe cfg now s : allocatable cfg = true -> quietly (SetGlobalConfig cfg now) s.
Proof.
  intros Ha. unfold SetGlobalConfig. apply (safe_step bucket_at).
  - intros s1 _ Hok. wp_step. wp_use new_bucket_spec; [done|done|].
    intros b s2 (Hok2 & G2 & (Ec & Ei & _) & Hb & _). wp_steps.
    destruct Hok2 as [Hc Ht Hi Hg Hbk Hcap Hicap Hs Hfit].
    split_and!; [split; cbn; try done; intros ? [= <-]; exact Hb| |exact Hb].
    split_and!; [done|cbn; by rewrite Ec|cbn; by rewrite Ei].
  - intros b s2 _ Hb. apply safe_sched; [apply Remove_ok|]. intros s3 G3.
    destruct (0 <? _); [|done].
    apply safe_on_b; [by eapply bucket_at_stable|exact usable_NextRefillTime|]. intros t s4 _.
    apply (safe_sched _ (do_Schedule _ t) Done); [apply Schedule_ok|done].
Qed.

Lemma DisableGlobal_safe s : quietly DisableGlobal s.
Proof.
  unfold DisableGlobal. apply safe_write.
  - intros s1 [Hc Ht Hi Hg Hbk Hcap Hicap Hs Hfit]. split; [by split|]. exact (guarantee_refl s1).
  - intros s2 _. apply (safe_sched _ (do_Remove _) Done); [apply Remove_ok|done].
Qed.

Lemma SetIPLimit_safe enabled cfg s : allocatable cfg = true -> quietly (SetIPLimit enabled cfg) s.
Proof.
  intros Ha. unfold SetIPLimit. apply safe_write.
  { intros s1 [Hc Ht Hi Hg Hbk Hcap Hicap Hs Hfit]. split; [by split|]. exact (guarantee_refl s1). }
  intros s2 _. apply safe_write.
  { intros s1 [Hc Ht Hi Hg Hbk Hcap Hicap Hs [Hfit _]]. split; [|exact (guarantee_refl s1)].
    split; try done. split; [done|]. by intros cfg' [= <-]. }
  intros s3 _. destruct enabled; [done|].
  apply safe_atomic; [by intros|]. intros s4 _ Hok. wp_use clearIPsLocked_spec; [done|].
  by intros _ s5 [? ?].
Qed.

Lemma refill_and_next_safe b now s : bucket_at b s -> quietly (refill_and_next b now) s.
Proof.
  intros Hb. unfold refill_and_next. apply safe_on_b; [done|apply usable_ScheduledRefill|].
  intros _ s1 G1. apply safe_on_b; [by eapply bucket_at_stable|exact usable_NextRefillTime|]. done.
Qed.

Lemma OnDue_safe id now s : quietly (OnDue id now) s.
Proof.
  unfold OnDue. cbv zeta. case_bool_decide.
  { apply (safe_read (fun b : option nat => maybe_bucket b)); [intros; by apply maybe_gptr|].
    intros [b|] s1 _ Hb; [by apply refill_and_next_safe|done]. }
  destruct (HasPrefix id ipIDPrefix).
  { apply (safe_read (fun b : option nat => maybe_bucket b)); [intros; by apply maybe_ip|].
    intros [b|] s1 _ Hb; [by apply refill_and_next_safe|done]. }
  destruct (decodeID id) as [[k tier] []]; cbv beta iota delta [negb]; [|done].
  apply (safe_read (fun p : option nat => from_option client_at (fun _ => True) p)).
  - intros s1 _ Hok. destruct (cmap s1 !! k) as [p|] eqn:E; [|done].
    destruct (ok_clients _ Hok _ _ E) as (_ & o & ? & _). by exists o.
  - intros [p|] s1 _ Hp; [|done]. apply safe_lookup_Bucket; [done|].
    intros [b|] s2 _ Hb; [by apply refill_and_next_safe|done].
Qed.

Lemma fire_safe id now s : quietly (fire id now) s.
Proof.
  unfold fire. apply safe_sched; [apply Remove_ok|]. intros s1 _.
  eapply safe_call; [apply OnDue_safe|]. intros [next []] s2 _ _; [|done].
  apply (safe_sched _ (do_Schedule id next) Done); [apply Schedule_ok|done].
Qed.

(** The requests the servers let through have a non-empty key; the windows
    of the configurations that are set can be allocated. *)
Definition call_valid (c : call) : Prop :=
  match c with
  | CAllow req _ => ClientKey req <> ""
  | CUpdateClientConfig k _ cfg _ => k <> "" /\ allocatable cfg = true
  | CBlock k _ => k <> ""
  | CSetGlobalConfig cfg _ | CSetIPLimit _ cfg => allocatable cfg = true
  | _ => True
  end.

Definition action_valid (a : action) : Prop :=
  match a with Spawn c => call_valid c | Run _ => True end.

Lemma thread_safe c s : call_valid c -> quietly (thread_of opts c) s.
Proof.
  intros Hv. destruct c; cbn [thread_of]; unfold quiet; (eapply safe_call; [|by intros]).
  - by apply Allow_safe.
  - by apply UpdateClientConfig_safe; apply Hv.
  - by apply Block_safe.
  - apply Unblock_safe.
  - by apply SetGlobalConfig_safe.
  - apply DisableGlobal_safe.
  - by apply SetIPLimit_safe.
  - apply fire_safe.
Qed.

(** Every interleaving of well-formed threads can go on, and stays so. *)
Definition conf_ok (x : shared S * list thread) : Prop :=
  ok (fst x) /\ Forall (fun t => quietly t (fst x)) (snd x).

Lemma step_ok x a : action_valid a -> conf_ok x ->
  exists x', step opts x a = Some x' /\ conf_ok x' /\ guarantee (fst x) (fst x').
Proof.
  destruct x as [s ts]. intros Hv [Hok Hts]. cbn in Hok, Hts. destruct a as [c|i]; cbn [step].
  - eexists. split; [done|]. split; [|done]. split; [done|]. apply Forall_app. split; [done|].
    apply Forall_singleton. by apply thread_safe.
  - destruct (ts !! i) as [[r|T c k]|] eqn:Hi; [by eexists| |by eexists].
    pose proof (Forall_lookup_1 _ _ _ _ Hts Hi s (reflexivity _) Hok) as Hc. unfold wp in Hc.
    destruct (c s) as [[r| |] s']; [|done..]. destruct Hc as (Hok' & G & Hk).
    eexists. split; [done|]. split; [|done]. split; [done|]. cbn.
    apply Forall_insert; [|done]. eapply Forall_impl; [exact Hts|].
    intros t Ht. cbn. eapply safe_later; [apply G|done].
Qed.

Lemma interleaving_ok acts x : Forall action_valid acts -> conf_ok x ->
  exists x', run opts acts x = Some x' /\ conf_ok x'.
Proof.
  intros Hv. revert x. induction acts as [|a acts IH] using rev_ind; intros x Hx; [by exists x|].
  apply Forall_app in Hv as [Hv [Ha _]%Forall_cons]. destruct (IH Hv x Hx) as (x1 & E & Hx1).
  destruct (step_ok x1 a Ha Hx1) as (x2 & E2 & Hx2 & _). exists x2. split; [|done].
  unfold run in *. rewrite foldl_app, E. cbn. exact E2.
Qed.

Lemma start_ok sc : sched_ok sc -> fits (limits opts) -> conf_ok (start sc, []).
Proof.
  intros Hs Hfit. split; [|constructor]. cbn. split; cbn; try done.
  - intros Hpos. rewrite map_size_empty. lia.
  - intros Hpos. rewrite map_size_empty. lia.
Qed.

(** C6: the store under concurrency.  However the blocks of any number of
    requests, administrative calls and refills interleave, from the store
    [New] makes with windows that can be allocated: no block panics, so no pointer a thread holds is nil; the
    client table and the per-IP table stay within their capacities; an entry
    of the client table is the object made for that key, with its default
    tier; and the next block, whichever thread it belongs to, replaces no
    entry of either table by another object, so requests that create the same
    client at once all get one and the same. *)
Theorem conc_store_safe (sc : S) (acts : list action) (a : action)
  (Hs : sched_ok sc) (Hfit : fits (limits opts))
  (Hv : Forall action_valid acts) (Ha : action_valid a) :
  exists s ts x', run opts acts (start sc, []) = Some (s, ts) /\ step opts (s, ts) a = Some x' /\
    bounded (Z.of_nat (size (cmap s))) max /\
    bounded (Z.of_nat (size (ipmap s))) cap /\
    (forall k p, cmap s !! k = Some p -> exists o, cheap s !! p = Some o /\ c_key o = k /\
       is_Some (c_buckets o !! DefaultTier)) /\
    kept (cmap s) (cmap (fst x')) /\ kept (ipmap s) (ipmap (fst x')).
Proof.
  destruct (interleaving_ok acts _ Hv (start_ok sc Hs Hfit)) as ([s ts] & E & Hx).
  destruct (step_ok (s, ts) a Ha Hx) as (x' & E' & _ & _ & Kc & Ki). destruct Hx as [Hok _].
  exists s, ts, x'. split_and!; [done|done|apply Hok|apply Hok| |done|done].
  intros k p Hp. destruct (ok_clients _ Hok _ _ Hp) as (_ & o & Ho & Hk).
  exists o. split_and!; [done|done|]. by eapply ok_tiers.
Qed.

End Proofs.

(** ** Races, run to their end *)

#[local] Existing Instance map_to_list_range.

(** A premium tier of one token. *)
Definition race_opts : Options :=
  {| MaxClients := 1;
     TierDefaults := {["premium" := {| MaxTokens := 1; RefillRate := 1; RefillInterval := Second;
                                       TokensPerRequest := 1; CfgWindow := None |}]} |}.

Definition race_now : Time := 1700000000 * Second.

Definition race_req (key tier : string) : call :=
  CAllow {| ClientKey := key; SourceIP := "10.0.0.1"; Tier := tier; Now := race_now |} race_now.

Definition race_start : shared Scheduler.Scheduler * list (thread (S := Scheduler.Scheduler)) :=
  (start Scheduler.New, []).

Definition after (n i : nat) : list action := replicate n (Run i).

(** What the finished threads answered. *)
Definition verdict (t : thread (S := Scheduler.Scheduler)) : option bool :=
  match t with Done (Some r) => Some (Allowed r) | _ => None end.

(** Three first requests for the tier; the second and the third look the
    tier up before the first one has stored its bucket. *)
Definition tier_race : list action :=
  [Spawn (race_req "c" "premium"); Spawn (race_req "c" "premium"); Spawn (race_req "c" "premium")] ++
  after 6 0 ++ after 5 1 ++ after 5 2 ++ after 14 0 ++ after 14 1 ++ after 14 2.

(** C18: a burst on a tier the client has not used yet.  [ensureTier] looks the
    tier up in one critical section and stores the new bucket in another, and
    [Configure] replaces whatever is there: of three first requests at the same
    instant, all three are granted one token of a bucket that holds a single
    one.  One after the other, only the first is. *)
Theorem tier_creation_race :
  exists s ts, Forall action_valid tier_race /\
    run race_opts tier_race race_start = Some (s, ts) /\
    map verdict ts = [Some true; Some true; Some true] /\
    (exists cfg, Store.tierDefaults (limits race_opts) !! "premium" = Some cfg /\
       MaxTokens cfg = 1 /\ TokensPerRequest cfg = 1) /\
    (forall s' ts', run race_opts (take 3 tier_race ++ after 20 0 ++ after 20 1 ++ after 20 2) race_start
                    = Some (s', ts') ->
       map verdict ts' = [Some true; Some false; Some false]).
Proof.
  eexists _, _. split_and!.
  - repeat (apply Forall_cons; split; [cbn; done|]). apply Forall_nil_2.
  - vm_compute. reflexivity.
  - vm_compute. reflexivity.
  - eexists. split_and!; vm_compute; reflexivity.
  - intros s' ts' E. vm_compute in E. injection E as _ <-. vm_compute. reflexivity.
Qed.

(** The schedule can outlive its client: "c" is evicted by the request of
    another client between its tier's lookup and the tier's schedule. *)
Definition eviction_race : list action :=
  [Spawn (race_req "c" "premium"); Spawn (race_req "d" "default")] ++
  after 6 0 ++ after 20 1 ++ after 14 0.

Definition schedule_of (acts : list action) : option (list string * list string) :=
  (fun '(s, _) => ((map_to_list (Scheduler.schedule (sched s))).*1, (map_to_list (cmap s)).*1))
  <$> run race_opts acts race_start.

(** The scheduler's next callback drops the stale id. *)
Example stale_schedule :
  schedule_of eviction_race = Some (["c|premium"; "d|default"], ["d"]) /\
  schedule_of (eviction_race ++ [Spawn (CFire "c|premium" (race_now + Second))] ++ after 6 2)
  = Some (["d|default"], ["d"]).
Proof. split; vm_compute; reflexivity. Qed.

(** Disabling the per-IP limit clears its table, and a request that had read
    the flag before puts its address back, with a schedule of its own. *)
Definition ip_race : list action :=
  [Spawn (CSetIPLimit true fallback_ip_Config); Spawn (race_req "c" "")] ++
  after 3 0 ++ after 2 1 ++ [Spawn (CSetIPLimit false fallback_ip_Config)] ++ after 3 2 ++ after 20 1.

Example ip_limit_disabled_keeps_bucket :
  ((fun '(s, _) => (ipEnabled s, (map_to_list (ipmap s)).*1)) <$> run race_opts ip_race race_start)
  = Some (false, ["10.0.0.1"]) /\
  (fst <$> schedule_of ip_race) = Some ["__ip__|10.0.0.1"; "c|default"].
Proof. split; vm_compute; reflexivity. Qed.

Lemma race_valid : Forall action_valid tier_race.
Proof. repeat (apply Forall_cons; split; [cbn; done|]). apply Forall_nil_2. Qed.

Lemma race_fits : fits (limits race_opts).
Proof.
  split; [|done]. intros t cfg Ht. apply elem_of_map_to_list in Ht.
  assert (Hall : forallb (fun tc => allocatable (snd tc)) (map_to_list (tierDefaults (limits race_opts))) = true).
  { vm_compute. reflexivity. }
  rewrite forallb_forall in Hall. exact (Hall (t, cfg) (proj1 (list_elem_of_In _ _) Ht)).
Qed.

Lemma conc_store_safe_witness :
  exists s ts x', run race_opts tier_race race_start = Some (s, ts) /\
    step race_opts (s, ts) (Run 0) = Some x' /\
    bounded (Z.of_nat (size (cmap s))) (maxClients (limits race_opts)) /\
    bounded (Z.of_nat (size (ipmap s))) (ipBucketCap (limits race_opts)) /\
    (forall k p, cmap s !! k = Some p -> exists o, cheap s !! p = Some o /\ c_key o = k /\
       is_Some (c_buckets o !! DefaultTier)) /\
    kept (cmap s) (cmap (fst x')) /\ kept (ipmap s) (ipmap (fst x')).
Proof. exact (conc_store_safe race_opts Scheduler.New tier_race (Run 0) (proj1 scheduler_New_wf) race_fits race_valid I). Defined.
