(* ===== verification/StoreConcSim.v ===== *)
(** * internal/store: an uninterrupted thread is the sequential store

    [abs] follows the pointers of the shared heap and gives the state of
    [Store].  A request that runs from its first block to its last without
    another thread in between returns what [Store.Allow] returns and leaves
    the state [Store.Allow] leaves; so what [StoreSystem] proves of the
    sequential store holds of the concurrent one wherever requests do not
    overlap. *)

From stdpp Require Import base tactics gmap strings list.
From Stdlib Require Import ZArith Lia.
From S2P Require Import Prelude GoTime GoString Window Bucket MultiBucket Scheduler SchedulerIface Store StoreProofs StoreConc StoreConcProofs.

Local Open Scope Z_scope.
Local Open Scope go_scope.
Local Open Scope go_monad_scope.
Local Open Scope thread_scope.

Section Sim.
Context {S : Type} `{SchedulerLaws S} `{MapRange} (opts : Options).
Implicit Types (s : shared S) (key tier ip id k : string) (now : Time) (p b : nat).

#[local] Abbreviation ok := (StoreConcProofs.ok opts).

(** The sequential store a shared state stands for. *)
Definition abs s : BucketStore S :=
  {| reg :=
       {| Store.clients := clients_view s;
          Store.maxClients := Store.maxClients (limits opts);
          Store.tierDefaults := Store.tierDefaults (limits opts);
          Store.globalBucket := gptr s ≫= fun b => bheap s !! b;
          Store.evictions := evicts s;
          Store.ipBuckets := ips_view s;
          Store.ipBucketCap := Store.ipBucketCap (limits opts);
          Store.ipLimitEnabled := ipEnabled s;
          Store.ipConfigPtr := ipConfig s |};
     scheduler := Some (sched s) |}.

(** ** Separation: no bucket is reached in two ways *)

Inductive owner := OGlobal | OIP ip | OTier p tier.

Definition owns s (w : owner) b : Prop :=
  match w with
  | OGlobal => gptr s = Some b
  | OIP ip => ipmap s !! ip = Some b
  | OTier p t => exists o, cheap s !! p = Some o /\ c_buckets o !! t = Some b
  end.

Definition separated s : Prop := forall w w' b, owns s w b -> owns s w' b -> w = w'.

Definition good s : Prop := ok s /\ separated s.

Lemma owns_bucket_at s w b : ok s -> owns s w b -> bucket_at b s.
Proof.
  intros Hok Hw. destruct w as [|ip|p t]; cbn in Hw.
  - by apply (ok_global _ _ Hok).
  - by apply (ok_ips _ _ Hok ip).
  - destruct Hw as (o & Ho & Hb). by eapply (proj2 (ok_tiers _ _ Hok _ _ Ho)).
Qed.

(** Following the pointers of a table after one bucket has changed. *)
Lemma deref_in (h : list Bucket) (m : gmap string nat) k b v :
  m !! k = Some b -> (b < List.length h)%nat -> (forall k', m !! k' = Some b -> k' = k) ->
  omap (fun x => <[b := v]> h !! x) m = <[k := v]> (omap (fun x => h !! x) m).
Proof.
  intros Hk Hb Hinj. apply map_eq. intros k'. rewrite lookup_omap.
  destruct (decide (k = k')) as [<-|Hne].
  - rewrite lookup_insert_eq, Hk. cbn. by apply list_lookup_insert_eq.
  - rewrite lookup_insert_ne, lookup_omap by done. destruct (m !! k') as [b'|] eqn:Hk'; [|done].
    cbn. apply list_lookup_insert_ne. intros <-. by apply Hinj in Hk'.
Qed.

Lemma deref_out (h : list Bucket) (m : gmap string nat) b v :
  (forall k', m !! k' <> Some b) ->
  omap (fun x => <[b := v]> h !! x) m = omap (fun x => h !! x) m.
Proof.
  intros Hout. apply map_eq. intros k'. rewrite !lookup_omap.
  destruct (m !! k') as [b'|] eqn:Hk'; [|done]. cbn. apply list_lookup_insert_ne.
  intros <-. by apply (Hout k').
Qed.

Lemma deref_app (h l : list Bucket) (m : gmap string nat) :
  (forall k b, m !! k = Some b -> (b < List.length h)%nat) ->
  omap (fun x => (h ++ l) !! x) m = omap (fun x => h !! x) m.
Proof.
  intros Hm. apply map_eq. intros k. rewrite !lookup_omap.
  destruct (m !! k) as [b|] eqn:Hk; [|done]. cbn. apply lookup_app_l. eauto.
Qed.

Lemma omap_same {V W} (f g : V -> option W) (m : gmap string V) :
  (forall k v, m !! k = Some v -> f v = g v) -> omap f m = omap g m.
Proof.
  intros Hfg. apply map_eq. intros k. rewrite !lookup_omap. destruct (m !! k) as [v|] eqn:Hk; [|done].
  cbn. eauto.
Qed.

Lemma clients_view_lookup s k : clients_view s !! k = cmap s !! k ≫= resolve s.
Proof. apply lookup_omap. Qed.

Definition put b v s : shared S := set_bheap (<[b := v]> (bheap s)) s.

Lemma resolve_put_out s p b v :
  (forall t, ~ owns s (OTier p t) b) -> resolve (put b v s) p = resolve s p.
Proof.
  intros Hout. unfold resolve, put. cbn. destruct (cheap s !! p) as [o|] eqn:Ho; [|done]. cbn.
  f_equal. f_equal. apply deref_out. intros t Ht. apply (Hout t). by exists o.
Qed.

Lemma clients_view_put_out s b v :
  (forall p t, ~ owns s (OTier p t) b) -> clients_view (put b v s) = clients_view s.
Proof. intros Hout. apply omap_same. intros k p _. by apply resolve_put_out. Qed.

Lemma abs_put_global s b v : good s -> gptr s = Some b ->
  abs (put b v s) = set_reg (set_globalBucket (Some v) (reg (abs s))) (abs s).
Proof.
  intros [Hok Hsep] Hb. assert (Ho : owns s OGlobal b) by done.
  unfold abs, set_reg. cbn. f_equal. unfold set_globalBucket. cbn. f_equal.
  - apply clients_view_put_out. intros p t Hp. by pose proof (Hsep _ _ _ Ho Hp).
  - rewrite Hb. cbn. apply list_lookup_insert_eq. by apply (owns_bucket_at s OGlobal).
  - apply deref_out. intros ip Hip. by pose proof (Hsep _ (OIP ip) _ Ho Hip).
Qed.

Lemma abs_put_ip s ip b v : good s -> ipmap s !! ip = Some b ->
  abs (put b v s) = set_reg (set_ipBuckets (<[ip := v]> (ips_view s)) (reg (abs s))) (abs s).
Proof.
  intros [Hok Hsep] Hb. assert (Ho : owns s (OIP ip) b) by done.
  unfold abs, set_reg. cbn. f_equal. unfold set_ipBuckets. cbn. f_equal.
  - apply clients_view_put_out. intros p t Hp. by pose proof (Hsep _ _ _ Ho Hp).
  - destruct (gptr s) as [b'|] eqn:Hg; [|done]. cbn. apply list_lookup_insert_ne. intros <-.
    by pose proof (Hsep OGlobal _ _ Hg Ho).
  - apply deref_in; [done|by eapply (owns_bucket_at s (OIP ip))|]. intros ip' Hip'.
    by pose proof (Hsep (OIP ip') _ _ Hip' Ho) as [= ->].
Qed.

(** The client stored under [k]. *)
Record stored s k p (o : client) : Prop := {
  stored_key : cmap s !! k = Some p;
  stored_object : cheap s !! p = Some o
}.

Definition follow s (o : client) : ClientBuckets :=
  {| clientKey := c_key o; buckets := omap (fun b => bheap s !! b) (c_buckets o) |}.

Lemma stored_view s k p o : stored s k p o -> clients_view s !! k = Some (follow s o).
Proof. intros [Hk Ho]. rewrite clients_view_lookup, Hk. cbn. unfold resolve. by rewrite Ho. Qed.

Lemma cmap_inj s k k' p : ok s -> cmap s !! k = Some p -> cmap s !! k' = Some p -> k' = k.
Proof.
  intros Hok Hk Hk'. destruct (ok_clients _ _ Hok _ _ Hk) as (_ & o & Ho & <-).
  destruct (ok_clients _ _ Hok _ _ Hk') as (_ & o' & Ho' & <-). by simplify_eq.
Qed.

(** A change of one client object shows at its key only. *)
Lemma clients_view_change s s' k p o' :
  ok s -> cmap s !! k = Some p -> cmap s' = cmap s -> cheap s' !! p = Some o' ->
  (forall q, q <> p -> client_at q s -> resolve s' q = resolve s q) ->
  clients_view s' = <[k := follow s' o']> (clients_view s).
Proof.
  intros Hok Hk Ec Ho' Hrest. apply map_eq. intros k'. rewrite clients_view_lookup, Ec.
  destruct (decide (k = k')) as [<-|Hne].
  - rewrite lookup_insert_eq, Hk. cbn. unfold resolve. by rewrite Ho'.
  - rewrite lookup_insert_ne, clients_view_lookup by done. destruct (cmap s !! k') as [q|] eqn:Hq; [|done].
    cbn. apply Hrest.
    + intros ->. apply Hne. by eapply (cmap_inj s).
    + destruct (ok_clients _ _ Hok _ _ Hq) as (_ & o & Ho & _). by exists o.
Qed.

Lemma abs_put_tier s k p o t b v : good s -> stored s k p o -> c_buckets o !! t = Some b ->
  abs (put b v s) =
  set_reg (Store.set_clients
    (<[k := set_buckets (<[t := v]> (buckets (follow s o))) (follow s o)]> (clients_view s))
    (reg (abs s))) (abs s).
Proof.
  intros [Hok Hsep] [Hk Ho] Hb. assert (Hw : owns s (OTier p t) b) by (by exists o).
  unfold abs, set_reg. cbn. f_equal. unfold Store.set_clients. cbn. f_equal.
  - etrans; [apply (clients_view_change s (put b v s) k p o); [done..|]|].
    + intros q Hq _. apply resolve_put_out. intros t' Hw'. apply Hq. by pose proof (Hsep _ _ _ Hw' Hw) as [= ->].
    + f_equal. unfold follow, set_buckets. cbn. f_equal.
      apply deref_in; [done|by eapply owns_bucket_at|]. intros t' Ht'.
      assert (Hw' : owns s (OTier p t') b) by (by exists o). by pose proof (Hsep _ _ _ Hw' Hw) as [= ->].
  - destruct (gptr s) as [b'|] eqn:Hg; [|done]. cbn. apply list_lookup_insert_ne. intros <-.
    by pose proof (Hsep OGlobal _ _ Hg Hw).
  - apply deref_out. intros ip Hip. by pose proof (Hsep (OIP ip) _ _ Hip Hw).
Qed.

(** ** Simulation *)

(** [c] on the shared heap does what [d] does on the store it stands for. *)
Definition sim {A B} (R : A -> B -> shared S -> Prop)
  (c : M (shared S) A) (d : M (BucketStore S) B) s : Prop :=
  wp c s (fun a s' => good s' /\ exists r, d (abs s) = (Ok r, abs s') /\ R a r s').

Lemma sim_bind {A B A' B'} (R : A -> B -> shared S -> Prop) (R' : A' -> B' -> shared S -> Prop)
  c d (f : A -> M (shared S) A') (g : B -> M (BucketStore S) B') s :
  sim R c d s -> (forall a r s', good s' -> R a r s' -> sim R' (f a) (g r) s') ->
  sim R' (bind c f) (bind d g) s.
Proof.
  intros Hc Hf. unfold sim. wp_step. wp_use Hc. intros a s1 (Hg & r & Hd & HR).
  wp_use Hf; [done|done|]. intros a' s2 (Hg2 & r' & Hg' & HR'). split; [done|].
  exists r'. split; [|done]. unfold bind. by rewrite Hd.
Qed.

Lemma sim_weaken {A B} (R R' : A -> B -> shared S -> Prop) c d s :
  (forall a r s', R a r s' -> R' a r s') -> sim R c d s -> sim R' c d s.
Proof. intros HR Hc. wp_use Hc. intros a s' (? & r & ? & ?). eauto. Qed.

Lemma sim_ext {A B} (R : A -> B -> shared S -> Prop) c c' d s : c s = c' s -> sim R c' d s -> sim R c d s.
Proof. intros E. unfold sim, wp. by rewrite E. Qed.

Lemma sim_move {A B} (R : A -> B -> shared S -> Prop) c c' d d' s s' :
  c s = c' s' -> d (abs s) = d' (abs s') -> sim R c' d' s' -> sim R c d s.
Proof. intros E E'. unfold sim, wp. by rewrite E, E'. Qed.

Lemma sim_ret {A B} (R : A -> B -> shared S -> Prop) a r s : good s -> R a r s -> sim R (ret a) (ret r) s.
Proof. intros Hg HR. unfold sim. wp_steps. eauto. Qed.

Lemma solo_then {A B} (p : prog (shared S) A) (f : A -> prog (shared S) B) : forall s,
  solo (andThen p f) s = bind (solo p) (fun a => solo (f a)) s.
Proof.
  induction p as [a|T c k IH]; intros s; cbn [andThen solo]; [done|].
  unfold bind. destruct (c s) as [[r| |] s']; [|done..]. apply IH.
Qed.

Lemma sim_then {A B A' B'} (R : A -> B -> shared S -> Prop) (R' : A' -> B' -> shared S -> Prop)
  (p : prog (shared S) A) d (f : A -> prog (shared S) A') (g : B -> M (BucketStore S) B') s :
  sim R (solo p) d s -> (forall a r s', good s' -> R a r s' -> sim R' (solo (f a)) (g r) s') ->
  sim R' (solo (let* a := p in f a)) (bind d g) s.
Proof.
  intros Hp Hf. unfold sim, wp. rewrite solo_then. by apply (sim_bind R).
Qed.

Lemma sim_block {A B} (R : A -> B -> shared S -> Prop) c d s :
  sim R c d s -> sim R (solo (atomic c)) d s.
Proof.
  intros Hc. unfold sim, wp. cbn [atomic solo]. unfold bind, sim, wp in *.
  by destruct (c s) as [[r| |] s'].
Qed.

(** Reads on either side. *)
Lemma sim_read {A B T} (R : A -> B -> shared S -> Prop) (g : shared S -> T)
  (f : T -> prog (shared S) A) d s :
  sim R (solo (f (g s))) d s -> sim R (solo (let* x := atomic (gets g) in f x)) d s.
Proof. done. Qed.

Lemma sim_gets {A B T} (R : A -> B -> shared S -> Prop) (g : shared S -> T)
  (c : T -> M (shared S) A) d s :
  sim R (c (g s)) d s -> sim R (let! x := gets g in c x) d s.
Proof. done. Qed.

Lemma sim_reg {A B T} (R : A -> B -> shared S -> Prop) (g : Registry -> T) c
  (d : T -> M (BucketStore S) B) s :
  sim R c (d (g (reg (abs s)))) s -> sim R c (let! x := on_reg (gets g) in d x) s.
Proof. done. Qed.

Lemma sim_at {A B T} (R : A -> B -> shared S -> Prop) p o (g : client -> T)
  (f : T -> prog (shared S) A) d s :
  cheap s !! p = Some o -> sim R (solo (f (g o))) d s ->
  sim R (solo (let* x := atomic (let! o := at_c p in ret (g o)) in f x)) d s.
Proof.
  intros Ho Hf. unfold sim, wp in *. cbn [atomic andThen solo]. unfold bind, at_c. by rewrite Ho.
Qed.

Lemma sim_object {A B} (R : A -> B -> shared S -> Prop) p o (f : client -> prog (shared S) A) d s :
  cheap s !! p = Some o -> sim R (solo (f o)) d s -> sim R (solo (let* o := atomic (at_c p) in f o)) d s.
Proof.
  intros Ho Hf. unfold sim, wp in *. cbn [atomic andThen solo]. unfold bind, at_c. by rewrite Ho.
Qed.

Lemma read_client {T} s k p o (g : ClientBuckets -> T) : stored s k p o ->
  on_reg (on_client k (gets g)) (abs s) = (Ok (g (follow s o)), abs s).
Proof.
  intros Hst. pose proof (stored_view _ _ _ _ Hst) as Hv.
  unfold on_reg, zoom, on_client. cbn [reg abs Store.clients]. rewrite Hv. cbn.
  unfold set_reg, Store.set_clients. cbn. by rewrite insert_id.
Qed.

Lemma sim_client {A B T} (R : A -> B -> shared S -> Prop) k p o (g : ClientBuckets -> T) c
  (d : T -> M (BucketStore S) B) s :
  stored s k p o -> sim R c (d (g (follow s o))) s ->
  sim R c (let! x := on_reg (on_client k (gets g)) in d x) s.
Proof.
  intros Hst Hd. wp_use Hd. intros a s' (? & r & E & ?). split; [done|]. exists r. split; [|done].
  unfold bind. by rewrite (read_client _ _ _ _ _ Hst).
Qed.

(** Operations of one bucket. *)
Definition same {A} s : A -> A -> shared S -> Prop := fun a r s' => a = r /\ same_tables s s'.

Lemma good_put s b v : good s -> bucket_at b s -> usable v ->
  good (put b v s) /\ same_tables s (put b v s).
Proof.
  intros [Hok Hsep] Hb Hv.
  assert (Ht : same_tables s (put b v s)) by (unfold same_tables; cbn; by rewrite length_insert).
  split; [split|done]; [|done]. eapply same_tables_ok; [done| |apply Hok|done].
  apply Forall_insert; [apply Hok|done].
Qed.

Lemma sim_on_b {A} w b (c : M Bucket A) (d : M (BucketStore S) A) s :
  good s -> owns s w b -> (forall v, usable v -> wp c v (fun _ => usable)) ->
  (forall v a v', bheap s !! b = Some v -> c v = (Ok a, v') -> d (abs s) = (Ok a, abs (put b v' s))) ->
  sim (same s) (on_b b c) d s.
Proof.
  intros Hg Hw Hc Hd. pose proof (owns_bucket_at _ _ _ (proj1 Hg) Hw) as Hb.
  destruct (lookup_lt_is_Some_2 _ _ Hb) as [v Hv].
  pose proof (Hc v (Forall_lookup_1 _ _ _ _ (ok_buckets _ _ (proj1 Hg)) Hv)) as Hu.
  unfold sim, wp, on_b in *. rewrite Hv. destruct (c v) as [[a| |] v'] eqn:E; [|done..].
  destruct (good_put s b v' Hg Hb Hu) as [Hg' Ht]. split; [done|]. exists a. split; [by eapply Hd|done].
Qed.

Lemma sim_global {A} b (c : M Bucket A) s :
  good s -> gptr s = Some b -> (forall v, usable v -> wp c v (fun _ => usable)) ->
  sim (same s) (on_b b c) (on_reg (on_global c)) s.
Proof.
  intros Hg Hb Hc. apply (sim_on_b OGlobal); [done|done|done|]. intros v a v' Hv E.
  rewrite (abs_put_global s b v') by done. unfold on_reg, zoom, on_global. cbn. rewrite Hb. cbn.
  by rewrite Hv, E.
Qed.

Lemma sim_ip {A} ip b (c : M Bucket A) s :
  good s -> ipmap s !! ip = Some b -> (forall v, usable v -> wp c v (fun _ => usable)) ->
  sim (same s) (on_b b c) (on_reg (on_ip ip c)) s.
Proof.
  intros Hg Hb Hc. apply (sim_on_b (OIP ip)); [done|done|done|]. intros v a v' Hv E.
  rewrite (abs_put_ip s ip b v') by done. unfold on_reg, zoom, on_ip. cbn. unfold ips_view at 1.
  rewrite lookup_omap, Hb. cbn. by rewrite Hv, E.
Qed.

Lemma sim_tier {A} k p o t b (c : M Bucket A) s :
  good s -> stored s k p o -> c_buckets o !! t = Some b ->
  (forall v, usable v -> wp c v (fun _ => usable)) ->
  sim (same s) (on_b b c) (on_reg (on_client k (at_tier t c))) s.
Proof.
  intros Hg Hst Hb Hc. apply (sim_on_b (OTier p t)); [done|by exists o; destruct Hst|done|].
  intros v a v' Hv E. rewrite (abs_put_tier s k p o t b v') by done.
  unfold on_reg, zoom, on_client. cbn. rewrite (stored_view _ _ _ _ Hst).
  unfold at_tier. cbn. rewrite lookup_omap, Hb. cbn. by rewrite Hv, E.
Qed.

Lemma stored_same s s' k p o : same_tables s s' -> stored s k p o -> stored s' k p o.
Proof. intros (Ec & _ & Em & _) [Hk Ho]. split; congruence. Qed.

(** Calls of the scheduler. *)
Lemma sim_sched (c : M S unit) s :
  good s -> (forall sc, sched_ok sc -> wp c sc (fun _ => sched_ok)) ->
  sim (same s) (on_sched c) (with_scheduler c) s.
Proof.
  intros [Hok Hsep] Hc. pose proof (Hc _ (ok_sched _ _ Hok)) as Hs.
  unfold sim, wp, on_sched, zoom, with_scheduler in *. cbn.
  destruct (c (sched s)) as [[[]| |] sc'] eqn:E; [|done..].
  assert (Ht : same_tables s (set_sched sc' s)) by done.
  split; [split; [|done]|by exists tt]. eapply same_tables_ok; [done|apply Hok|done|done].
Qed.

Lemma sim_removes (f : string -> string) l : forall s, good s ->
  sim (same s) (for_each l (fun i => on_sched (do_Remove (f i))))
    (for_each l (fun i => with_scheduler (do_Remove (f i)))) s.
Proof.
  induction l as [|i l IH]; intros s Hg; cbn [for_each]; [by apply sim_ret|].
  eapply sim_bind; [apply sim_sched; [done|apply Remove_ok]|]. intros [] [] s1 Hg1 [_ Ht].
  eapply sim_weaken; [|by apply IH]. intros [] [] s2 [_ Ht2]. split; [done|by etrans].
Qed.

(** ** The gates *)

Lemma sim_and {A B} (R : A -> B -> shared S -> Prop) (Q : A -> shared S -> Prop) c d s :
  sim R c d s -> wp c s Q -> sim (fun a r s' => R a r s' /\ Q a s') c d s.
Proof.
  unfold sim, wp. destruct (c s) as [[a| |] s']; [|done..]. intros (? & r & ? & ?) ?. eauto.
Qed.

Lemma gptr_bucket s b : good s -> gptr s = Some b -> is_Some (bheap s !! b).
Proof. intros [Hok _] Hb. apply lookup_lt_is_Some_2. by apply (ok_global _ _ Hok). Qed.

Lemma ip_bucket s ip b : good s -> ipmap s !! ip = Some b -> is_Some (bheap s !! b).
Proof. intros [Hok _] Hb. apply lookup_lt_is_Some_2. by apply (ok_ips _ _ Hok ip). Qed.

Lemma tier_bucket s p o t b : good s -> cheap s !! p = Some o -> c_buckets o !! t = Some b ->
  is_Some (bheap s !! b).
Proof.
  intros [Hok _] Ho Hb. apply lookup_lt_is_Some_2. by apply (proj2 (ok_tiers _ _ Hok _ _ Ho) t).
Qed.

Lemma global_gate_sim now s : good s ->
  sim (fun a r _ => a = r) (solo (global_gate now)) (Store.global_gate now) s.
Proof.
  intros Hg. unfold global_gate, Store.global_gate. apply sim_read, sim_reg. cbn [reg abs Store.globalBucket].
  destruct (gptr s) as [b|] eqn:Hb; [|by apply sim_ret].
  destruct (gptr_bucket _ _ Hg Hb) as [v Hv]. cbn [mbind option_bind]. rewrite Hv.
  eapply sim_then; [apply sim_block, sim_global; [done|done|apply usable_Allow]|].
  intros [al r] ? s' Hg' [<- _]. by apply sim_ret.
Qed.

Lemma size_omap_total {V W} (f : V -> option W) (m : gmap string V) :
  (forall k v, m !! k = Some v -> is_Some (f v)) -> size (omap f m) = size m.
Proof.
  intros Hf. rewrite <- !size_dom. f_equal. apply set_eq. intros k.
  rewrite !elem_of_dom, lookup_omap. destruct (m !! k) as [v|] eqn:Hk; cbn; [|done].
  split; [eauto|]. intros _. by eapply Hf.
Qed.

Lemma size_ips s : good s -> size (ips_view s) = size (ipmap s).
Proof. intros Hg. apply size_omap_total. intros ip b. by apply ip_bucket. Qed.

Lemma size_clients s : good s -> size (clients_view s) = size (cmap s).
Proof.
  intros Hg. apply size_omap_total. intros k p Hk.
  destruct (ok_clients _ _ (proj1 Hg) _ _ Hk) as (_ & o & Ho & _). unfold resolve. rewrite Ho. by eexists.
Qed.

Lemma separated_shrink s s' : (forall w b, owns s' w b -> owns s w b) -> separated s -> separated s'.
Proof. intros Hw Hsep w w' b ? ?. by eapply Hsep; apply Hw. Qed.

(** A table entry for a new bucket. *)
Lemma separated_fresh s s' w0 b0 :
  (forall w b, owns s w b -> (b < b0)%nat) ->
  (forall w b, owns s' w b -> owns s w b \/ (w = w0 /\ b = b0)) -> separated s -> separated s'.
Proof.
  intros Hlt Hw Hsep w w' b Ha Hb. destruct (Hw _ _ Ha) as [Ha'|[-> ->]], (Hw _ _ Hb) as [Hb'|[-> E]].
  - by eapply Hsep.
  - subst. apply Hlt in Ha'. lia.
  - apply Hlt in Hb'. lia.
  - done.
Qed.

Lemma evictIP_sim s : good s ->
  sim (fun _ _ s' => ipConfig s' = ipConfig s) evictOldestIPLocked Store.evictOldestIPLocked s.
Proof.
  intros Hg. unfold Store.evictOldestIPLocked. apply sim_reg. cbn [reg abs Store.ipBuckets].
  rewrite size_ips by done.
  eapply sim_ext; [unfold evictOldestIPLocked; reflexivity|].
  case_bool_decide; [by apply sim_ret|].
  destruct (oldest Bucket.LastAccess (range (ips_view s))) as [[ip t] fst].
  case_bool_decide; [by apply sim_ret|].
  eapply (sim_bind (fun _ _ s1 => ipConfig s1 = ipConfig s)).
  - unfold sim. wp_steps. destruct Hg as [Hok Hsep]. split; [|exists tt; split; [|done]].
    + split; [by apply ok_delete_ip|]. eapply separated_shrink; [|exact Hsep].
      intros [|ip'|p t'] b; cbn; try done. by intros [_ ?]%lookup_delete_Some.
    + unfold on_reg, zoom, modify, set_reg, set_ipBuckets, abs. cbn. unfold ips_view. cbn. by rewrite omap_delete.
  - intros [] [] s1 Hg1 E1. eapply sim_weaken; [|apply sim_sched; [done|apply Remove_ok]].
    intros [] [] s2 [_ (_ & _ & _ & _ & _ & ->)]. done.
Qed.

(** The bucket at the end of the heap. *)
Definition push v s : shared S := set_bheap (bheap s ++ [v]) s.

Lemma ips_view_push v s : good s -> ips_view (push v s) = ips_view s.
Proof. intros [Hok _]. apply deref_app. intros ip b Hb. by apply (ok_ips _ _ Hok ip). Qed.

Lemma resolve_push v s p : good s -> resolve (push v s) p = resolve s p.
Proof.
  intros [Hok _]. unfold resolve, push. cbn. destruct (cheap s !! p) as [o|] eqn:Ho; [|done]. cbn.
  do 2 f_equal. apply deref_app. intros t b. by apply (ok_tiers _ _ Hok _ _ Ho).
Qed.

Lemma gptr_push v s : good s ->
  (gptr s ≫= fun b => bheap (push v s) !! b) = (gptr s ≫= fun b => bheap s !! b).
Proof.
  intros Hg. destruct (gptr s) as [b|] eqn:Hb; [|done]. cbn. apply lookup_app_l.
  by apply (ok_global _ _ (proj1 Hg)).
Qed.

Lemma good_push v s : good s -> usable v -> good (push v s).
Proof. intros [Hok Hsep] Hv. split; [by apply ok_new_bucket|done]. Qed.

Lemma fresh_bucket s w b : good s -> owns s w b -> (b < List.length (bheap s))%nat.
Proof. intros [Hok _]. apply owns_bucket_at, Hok. Qed.

Lemma bheap_push v s : bheap (push v s) !! List.length (bheap s) = Some v.
Proof. cbn. by rewrite lookup_app_r, Nat.sub_diag. Qed.

Lemma add_ip s ip cfg now : good s -> allocatable cfg = true -> ip <> "" -> bounded (Z.of_nat (size (ipmap s)) + 1) (ipBucketCap (limits opts)) ->
  let s' := set_ipmap (<[ip := List.length (bheap s)]> (ipmap s)) (push (Bucket.fresh cfg now) s) in
  good s' /\ abs s' = set_reg (set_ipBuckets (<[ip := Bucket.fresh cfg now]> (ips_view s)) (reg (abs s))) (abs s).
Proof.
  intros Hg Ha Hip Hroom s'. pose proof (good_push (Bucket.fresh cfg now) s Hg (fresh_usable cfg now Ha)) as [Hok1 Hsep1].
  split; [split|].
  - apply (ok_insert_ip opts (push _ s) ip); [done| |done|done].
    unfold bucket_at. cbn. rewrite length_app. cbn. lia.
  - apply (separated_fresh s s' (OIP ip) (List.length (bheap s))); [|clear Hok1 Hsep1|apply Hg].
    + intros w b. by apply fresh_bucket.
    + intros [|ip'|p t] b; cbn; try by left. intros [[<- <-]|[_ ?]]%lookup_insert_Some; auto.
  - unfold abs, set_reg. cbn. f_equal. unfold set_ipBuckets. cbn. f_equal.
    + apply omap_same. intros. by apply (resolve_push (Bucket.fresh cfg now)).
    + by apply (gptr_push (Bucket.fresh cfg now)).
    + unfold ips_view. cbn. rewrite (omap_insert_Some _ _ _ _ (Bucket.fresh cfg now)).
      * f_equal. by apply (ips_view_push (Bucket.fresh cfg now)).
      * apply (bheap_push (Bucket.fresh cfg now)).
Qed.

Lemma createIP_sim ip now s : good s -> ip <> "" -> ipmap s !! ip = None ->
  sim (fun b _ s' => ipmap s' !! ip = Some b) (createIPLocked opts ip now) (Store.getOrCreateIPBucket ip now) s.
Proof.
  intros Hg Hip Hnone. unfold createIPLocked, Store.getOrCreateIPBucket.
  apply sim_gets, sim_reg. cbn [reg abs Store.ipBuckets]. unfold ips_view at 1.
  rewrite lookup_omap, Hnone. cbn [mbind option_bind]. apply sim_gets, sim_reg, sim_reg.
  cbn [reg abs Store.ipConfigPtr Store.ipBucketCap]. rewrite size_ips by done.
  set (cfg := default fallback_ip_Config (ipConfig s)).
  eapply (sim_bind (fun _ _ s1 => ipmap s1 !! ip = None /\
    bounded (Z.of_nat (size (ipmap s1)) + 1) (ipBucketCap (limits opts)))).
  { eapply sim_weaken; [|apply (sim_and (fun _ _ _ => True) (fun _ s1 => ipmap s1 ⊆ ipmap s /\
      bounded (Z.of_nat (size (ipmap s1)) + 1) (ipBucketCap (limits opts))))].
    - intros _ _ s1 [_ [Hsub ?]]. split; [|done]. by eapply lookup_weaken_None.
    - destruct (_ <=? _); [|by apply sim_ret]. eapply sim_weaken; [|by apply evictIP_sim]. done.
    - wp_use (make_ip_room_spec opts); [apply Hg|]. by intros _ s1 (_ & _ & _ & ? & ?). }
  intros [] [] s1 Hg1 [Hn1 Hroom].
  assert (Ha : allocatable cfg = true) by (apply (ip_window_fits opts s), Hg).
  destruct (add_ip s1 ip cfg now Hg1 Ha Hip Hroom) as [Hg2 Habs]. set (s2 := set_ipmap _ _) in *.
  assert (H2 : ipmap s2 !! ip = Some (List.length (bheap s1))) by apply lookup_insert_eq.
  eapply (sim_move _ _ _ _ _ s1 s2).
  { assert (Hrun : forall T (k : nat -> M (shared S) T),
      (let! b := new_bucket cfg now in modify (fun s => set_ipmap (<[ip := b]> (ipmap s)) s) ;;; k b) s1
      = k (List.length (bheap s1)) s2).
    { intros. unfold new_bucket, bind. by rewrite (New_run cfg now s1), Ha. }
    apply Hrun. }
  { assert (Hrun : forall T (k : unit -> M (BucketStore S) T),
      (let! b := Bucket.New cfg now in
       let! u := on_reg (modify (fun r => set_ipBuckets (<[ip := b]> (Store.ipBuckets r)) r)) in k u)
        (abs s1) = k tt (abs s2)).
    { intros. unfold bind. by rewrite (New_run cfg now (abs s1)), Ha, Habs. }
    apply Hrun. }
  eapply sim_weaken with (R := fun b (_ : unit) s' => b = List.length (bheap s1) /\ same_tables s2 s').
  { intros b _ s3 [-> (_ & _ & _ & -> & _)]. done. }
  cbv beta. destruct (0 <? RefillInterval cfg).
  2:{ apply (sim_move _ _ (ret (List.length (bheap s1))) _ (ret tt) s2 s2); [done|done|]. by apply sim_ret. }
  assert (Hd : forall d : M (BucketStore S) unit, forall st, d st = bind d (fun _ => ret tt) st).
  { intros d st. unfold bind, ret. by destruct (d st) as [[[]| |] ?]. }
  eapply sim_move; [reflexivity|apply Hd|].
  eapply (sim_bind (same s2)).
  - unfold schedule_new. eapply (sim_bind (same s2)); [apply sim_ip; [done|done|exact usable_NextRefillTime]|].
    intros t ? s3 Hg3 [<- Ht]. eapply sim_weaken; [|apply sim_sched; [done|apply Schedule_ok]].
    intros [] [] s4 [_ ?]. split; [done|by etrans].
  - intros [] [] s3 Hg3 [_ Ht]. by apply sim_ret.
Qed.

Lemma getOrCreateIP_sim ip now s : good s -> ip <> "" ->
  sim (fun b _ s' => ipmap s' !! ip = Some b) (solo (getOrCreateIPBucket opts ip now))
    (Store.getOrCreateIPBucket ip now) s.
Proof.
  intros Hg Hip. apply sim_read. destruct (ipmap s !! ip) as [b|] eqn:Hb.
  - unfold Store.getOrCreateIPBucket. apply sim_reg. cbn [reg abs Store.ipBuckets]. unfold ips_view.
    rewrite lookup_omap, Hb. cbn [mbind option_bind]. destruct (ip_bucket _ _ _ Hg Hb) as [v Hv].
    rewrite Hv. by apply sim_ret.
  - by apply sim_block, createIP_sim.
Qed.

Lemma ip_gate_sim ip now s : good s ->
  sim (fun a r _ => a = r) (solo (ip_gate opts ip now)) (Store.ip_gate ip now) s.
Proof.
  intros Hg. unfold ip_gate, Store.ip_gate. apply sim_read, sim_reg. cbn [reg abs Store.ipLimitEnabled].
  destruct (ipEnabled s && _) eqn:E; [|by apply sim_ret].
  apply andb_true_iff in E as [_ E%negb_true_iff].
  eapply sim_then; [apply getOrCreateIP_sim; [done|by case_bool_decide]|].
  intros b [] s1 Hg1 Hb. eapply sim_then; [apply sim_block, sim_ip; [done|done|apply usable_Allow]|].
  intros [al r] ? s2 Hg2 [<- _]. by apply sim_ret.
Qed.

(** ** Clients *)

Lemma evictLRU_sim s : good s ->
  sim (fun _ _ _ => True) evictLRULocked Store.evictLRULocked s.
Proof.
  intros Hg. unfold Store.evictLRULocked. apply sim_reg. cbn [reg abs Store.clients].
  rewrite size_clients by done. eapply sim_ext; [unfold evictLRULocked; reflexivity|].
  case_bool_decide as Hsz; [by apply sim_ret|].
  destruct (oldest_entry MultiBucket.LastAccess (resolve s) (cmap s) Hsz) as (k & p & cb & t & E & Hk & Hcb).
  { intros k p Hk. destruct (ok_clients _ _ (proj1 Hg) _ _ Hk) as (_ & o & Ho & _).
    unfold resolve. rewrite Ho. by eexists. }
  fold (clients_view s) in E, Hcb. rewrite E. destruct (ok_clients _ _ (proj1 Hg) _ _ Hk) as [Hne _].
  rewrite (bool_decide_false (k = "")) by done. rewrite Hcb.
  eapply (sim_bind (fun _ _ s1 => cheap s1 = cheap s /\ bheap s1 = bheap s)).
  - unfold sim. wp_steps. destruct Hg as [Hok Hsep]. split; [|by exists tt; split; [|done];
      unfold on_reg, zoom, modify, set_reg, Store.set_clients, abs, clients_view; cbn; rewrite omap_delete].
    split; [by apply (ok_delete_client opts s k (evicts s))|done].
  - intros [] [] s1 Hg1 _. eapply (sim_bind (fun _ _ _ => True)).
    + unfold sim. wp_steps. split; [|by exists tt]. destruct Hg1 as [Hok1 Hsep1].
      split; [|done]. destruct Hok1. by split.
    + intros [] [] s2 Hg2 _. eapply sim_weaken; [|by apply sim_removes]. done.
Qed.

(** A new client under a key that has none. *)
Definition with_new_client k cfg now s : shared S :=
  let b := List.length (bheap s) in
  let p := List.length (cheap s) in
  set_cmap (<[k := p]> (cmap s))
    (set_cheap (cheap s ++ [{| c_key := k; c_buckets := <[DefaultTier := b]> ∅ |}])
      (push (Bucket.fresh cfg now) s)).

Definition built_client k cfg now : ClientBuckets :=
  set_buckets (<[DefaultTier := Bucket.fresh cfg now]> ∅) (MultiBucket.New k).

Lemma new_client_run k cfg now s {T} (f : nat -> M (shared S) T) : allocatable cfg = true ->
  (let! p := new_client k cfg now in modify (fun s => set_cmap (<[k := p]> (cmap s)) s) ;;; f p) s
  = f (List.length (cheap s)) (with_new_client k cfg now s).
Proof.
  intros Ha. unfold new_client, c_Configure, new_bucket, at_c, bind, gets, modify, ret. cbn.
  rewrite lookup_app_r, Nat.sub_diag by done. cbn. rewrite New_run, Ha. cbn. rewrite insert_app_r_alt, Nat.sub_diag by done. done.
Qed.

Lemma add_client_good k cfg now s : good s -> allocatable cfg = true -> k <> "" -> cmap s !! k = None ->
  bounded (Z.of_nat (size (cmap s)) + 1) (Store.maxClients (limits opts)) -> good (with_new_client k cfg now s).
Proof.
  intros [Hok Hsep] Ha Hk Hnone Hroom. split.
  - pose proof (new_client_spec opts k cfg now s Hok Ha) as (p & s1 & E & Hok1 & _ & (Em & _) & o & Ho & Hko)%wp_value.
    pose proof (new_client_run k cfg now s ret Ha) as Hrun. unfold bind at 1 in Hrun. rewrite E in Hrun.
    assert (Es : with_new_client k cfg now s = set_cmap (<[k := p]> (cmap s1)) s1).
    { apply (f_equal snd) in Hrun. by symmetry. }
    rewrite Es. apply ok_insert_client; [done|eauto|by rewrite Em|done].
  - apply (separated_fresh s _ (OTier (List.length (cheap s)) DefaultTier) (List.length (bheap s))); [| |done].
    + intros w b. by apply fresh_bucket.
    + intros [|ip|p t] b; cbn; try by left.
      intros (o & [Ho|[Hlt Ho]]%lookup_app_Some & Hb); [left; by exists o|right].
      apply list_lookup_singleton_Some in Ho as [Hz <-]. cbn in Hb.
      apply lookup_insert_Some in Hb as [[<- <-]|[_ Hb]]; [|by rewrite lookup_empty in Hb].
      split; [f_equal; lia|done].
Qed.

Lemma resolve_new_client k cfg now s q : good s -> client_at q s ->
  resolve (with_new_client k cfg now s) q = resolve s q.
Proof.
  intros Hg [o Ho]. rewrite <- (resolve_push (Bucket.fresh cfg now) s q Hg). unfold resolve. cbn.
  by rewrite lookup_app_l by (by eapply lookup_lt_Some).
Qed.

Lemma add_client_abs k cfg now s : good s -> cmap s !! k = None ->
  abs (with_new_client k cfg now s)
  = set_reg (Store.set_clients (<[k := built_client k cfg now]> (clients_view s)) (reg (abs s))) (abs s).
Proof.
  intros Hg Hnone. unfold abs, set_reg. cbn. f_equal. unfold Store.set_clients. cbn. f_equal.
  - apply map_eq. intros k'. unfold clients_view. cbn. rewrite lookup_omap.
    destruct (decide (k = k')) as [<-|Hne].
    + rewrite !lookup_insert_eq. cbn. unfold resolve. cbn. rewrite lookup_app_r, Nat.sub_diag by done. cbn.
      unfold built_client, set_buckets. cbn. do 2 f_equal.
      rewrite (omap_insert_Some _ _ _ _ (Bucket.fresh cfg now)); [by rewrite omap_empty|].
      apply (bheap_push (Bucket.fresh cfg now)).
    + rewrite !lookup_insert_ne, lookup_omap by done.
      destruct (cmap s !! k') as [q|] eqn:Hq; [|done]. cbn. apply resolve_new_client; [done|].
      destruct (ok_clients _ _ (proj1 Hg) _ _ Hq) as (_ & o & Ho & _). by exists o.
  - by apply (gptr_push (Bucket.fresh cfg now)).
  - by apply (ips_view_push (Bucket.fresh cfg now)).
Qed.

Lemma bind_ret {T A} (c : M T A) st : c st = bind c ret st.
Proof. unfold bind, ret. by destruct (c st) as [[a| |] ?]. Qed.

Lemma c_Bucket_stored s k p o t : stored s k p o -> c_Bucket p t s = (Ok (c_buckets o !! norm_tier t), s).
Proof. intros [_ Ho]. unfold c_Bucket, bind, at_c. by rewrite Ho. Qed.

Lemma next_sim s k p o t b : good s -> stored s k p o -> c_buckets o !! norm_tier t = Some b ->
  sim (fun a r s' => r = Some a /\ same_tables s s') (on_b b Bucket.NextRefillTime)
    (on_reg (on_client k (on_bucket t Bucket.NextRefillTime))) s.
Proof.
  intros Hg Hst Hb. destruct (tier_bucket _ _ _ _ _ Hg (stored_object _ _ _ _ Hst) Hb) as [v Hv].
  eapply (sim_move _ _ _ _ (let! a := on_reg (on_client k (at_tier (norm_tier t) Bucket.NextRefillTime))
                            in ret (Some a)) s s); [apply bind_ret| |].
  - unfold on_reg, zoom, on_client, bind, on_bucket. cbn [reg abs Store.clients].
    rewrite (stored_view _ _ _ _ Hst). unfold lookup_bucket. cbn [follow buckets].
    rewrite lookup_omap, Hb. cbn [mbind option_bind]. rewrite Hv. unfold bind.
    by destruct (at_tier (norm_tier t) Bucket.NextRefillTime (follow s o)) as [[a| |] cb'].
  - eapply sim_bind; [apply (sim_tier k p o); [done|done|done|exact usable_NextRefillTime]|].
    intros a ? s1 Hg1 [<- Ht]. by apply sim_ret.
Qed.

(** The conditional scheduling at the end of an operation. *)
Lemma schedule_sim s k p o t b : good s -> stored s k p o -> c_buckets o !! norm_tier t = Some b ->
  sim (same s) (let! next := on_b b Bucket.NextRefillTime in on_sched (do_Schedule (encodeID k t) next))
    (let! next := on_reg (on_client k (on_bucket t Bucket.NextRefillTime)) in
     match next with
     | Some t' => with_scheduler (do_Schedule (encodeID k t) t')
     | None => ret tt
     end) s.
Proof.
  intros Hg Hst Hb. eapply sim_bind; [by eapply next_sim|]. intros t' r s1 Hg1 [-> Ht].
  eapply sim_weaken; [|apply sim_sched; [done|apply Schedule_ok]].
  intros [] [] s2 [_ ?]. split; [done|by etrans].
Qed.

Lemma createLocked_sim k now s : good s -> k <> "" -> cmap s !! k = None ->
  sim (fun p _ s' => exists o, stored s' k p o) (createLocked opts k now) (Store.getOrCreateClient k now) s.
Proof.
  intros Hg Hk Hnone. unfold createLocked, Store.getOrCreateClient.
  apply sim_gets, sim_reg. cbn [reg abs Store.clients]. rewrite clients_view_lookup, Hnone.
  cbn [mbind option_bind]. apply sim_reg. cbn [reg abs Store.maxClients]. rewrite size_clients by done.
  eapply (sim_bind (fun _ _ s1 => cmap s1 !! k = None /\
    bounded (Z.of_nat (size (cmap s1)) + 1) (Store.maxClients (limits opts)))).
  { eapply sim_weaken; [|apply (sim_and (fun _ _ _ => True) (fun _ s1 => cmap s1 ⊆ cmap s /\
      bounded (Z.of_nat (size (cmap s1)) + 1) (Store.maxClients (limits opts))))].
    - intros _ _ s1 [_ [Hsub ?]]. split; [|done]. by eapply lookup_weaken_None.
    - destruct (_ && _); [|by apply sim_ret]. by apply evictLRU_sim.
    - wp_use (make_room_spec opts); [apply Hg|]. by intros _ s1 (_ & _ & _ & ? & ?). }
  intros [] [] s1 Hg1 [Hn1 Hroom]. apply sim_reg. cbn [reg abs Store.tierDefaults].
  set (cfg := default_tier_cfg (Store.tierDefaults (limits opts))).
  assert (Ha : allocatable cfg = true) by (apply fits_default, (ok_fits _ _ (proj1 Hg))).
  pose proof (add_client_good k cfg now s1 Hg1 Ha Hk Hn1 Hroom) as Hg2.
  pose proof (add_client_abs k cfg now s1 Hg1 Hn1) as Habs.
  set (p := List.length (cheap s1)). set (b := List.length (bheap s1)).
  assert (Hst : stored (with_new_client k cfg now s1) k p
                  {| c_key := k; c_buckets := <[DefaultTier := b]> ∅ |}).
  { split; cbn; [apply lookup_insert_eq|]. by rewrite lookup_app_r, Nat.sub_diag. }
  eapply (sim_move _ _ _ _ _ s1 (with_new_client k cfg now s1)); [by apply new_client_run| |].
  { assert (Hrun : forall T (f : unit -> M (BucketStore S) T),
      (let! cb := run_fresh (MultiBucket.Configure DefaultTier cfg now) (MultiBucket.New k) in
       let! u := on_reg (modify (fun r => Store.set_clients (<[k := cb]> (Store.clients r)) r)) in f u)
        (abs s1) = f tt (abs (with_new_client k cfg now s1))).
    { intros. unfold bind, run_fresh, MultiBucket.Configure, bind. by rewrite New_run, Ha, Habs. }
    apply Hrun. }
  cbv beta. eapply (sim_bind (same (with_new_client k cfg now s1))).
  - unfold Store.schedule_tier. destruct (0 <? RefillInterval cfg); [|by apply sim_ret].
    eapply sim_ext; [|eapply (schedule_sim _ k p _ DefaultTier b); [done|exact Hst|apply lookup_insert_eq]].
    unfold bind at 1. fold p. rewrite (c_Bucket_stored _ _ _ _ DefaultTier Hst). cbn [c_buckets].
    change (norm_tier DefaultTier) with DefaultTier. by rewrite lookup_insert_eq.
  - intros [] [] s3 Hg3 [_ Ht]. apply sim_ret; [done|]. eexists. by eapply stored_same.
Qed.

Lemma getOrCreateClient_sim k now s : good s -> k <> "" ->
  sim (fun p _ s' => exists o, stored s' k p o) (solo (getOrCreateClient opts k now))
    (Store.getOrCreateClient k now) s.
Proof.
  intros Hg Hk. apply sim_read. destruct (cmap s !! k) as [p|] eqn:Hp.
  - unfold Store.getOrCreateClient. apply sim_reg. cbn [reg abs Store.clients].
    destruct (ok_clients _ _ (proj1 Hg) _ _ Hp) as (_ & o & Ho & _).
    assert (Hst : stored s k p o) by done.
    rewrite (stored_view _ _ _ _ Hst). apply sim_ret; [done|]. by exists o.
  - by apply sim_block, createLocked_sim.
Qed.

(** [Configure] on a stored client. *)
Definition configured s p o tier cfg now : shared S :=
  let b := List.length (bheap s) in
  set_cheap (<[p := {| c_key := c_key o; c_buckets := <[norm_tier tier := b]> (c_buckets o) |}]> (cheap s))
    (push (Bucket.fresh cfg now) s).

Lemma configured_good s p o tier cfg now : good s -> allocatable cfg = true -> cheap s !! p = Some o ->
  good (configured s p o tier cfg now).
Proof.
  intros Hg Ha Ho. pose proof (good_push (Bucket.fresh cfg now) s Hg (fresh_usable cfg now Ha)) as [Hok1 _]. split.
  - apply (ok_set_client opts (push (Bucket.fresh cfg now) s) p o (c_key o)); [done|done| |done].
    unfold bucket_at. cbn. rewrite length_app. cbn. lia.
  - apply (separated_fresh s _ (OTier p (norm_tier tier)) (List.length (bheap s))); [| |apply Hg].
    + intros w b. by apply fresh_bucket.
    + intros [|ip|q t] b; cbn; try by left.
      intros (o' & [(<- & <- & _)|[_ Hq]]%list_lookup_insert_Some & Hb); [|by left; exists o'].
      cbn in Hb. apply lookup_insert_Some in Hb as [[<- <-]|[_ Hb]]; [by right|]. left. by exists o.
Qed.

Lemma configured_abs s k p o tier cfg now : good s -> stored s k p o ->
  abs (configured s p o tier cfg now)
  = set_reg (Store.set_clients (<[k := set_buckets (<[norm_tier tier := Bucket.fresh cfg now]>
                                          (buckets (follow s o))) (follow s o)]> (clients_view s))
      (reg (abs s))) (abs s).
Proof.
  intros Hg [Hk Ho]. pose proof (lookup_lt_Some _ _ _ Ho) as Hlt.
  unfold abs, set_reg. cbn. f_equal. unfold Store.set_clients. cbn. f_equal.
  - etrans; [apply (clients_view_change s (configured s p o tier cfg now) k p); [apply Hg|done|done| |]|].
    + cbn. by apply list_lookup_insert_eq.
    + intros q Hq _. rewrite <- (resolve_push (Bucket.fresh cfg now) s q Hg). unfold resolve. cbn.
      by rewrite list_lookup_insert_ne.
    + f_equal. unfold follow, set_buckets. cbn. f_equal.
      rewrite (omap_insert_Some _ _ _ _ (Bucket.fresh cfg now)); [|apply (bheap_push (Bucket.fresh cfg now))].
      f_equal. apply deref_app. intros t b. by apply (ok_tiers _ _ (proj1 Hg) _ _ Ho).
  - by apply (gptr_push (Bucket.fresh cfg now)).
  - by apply (ips_view_push (Bucket.fresh cfg now)).
Qed.

Lemma Configure_sim s k p o tier cfg now : good s -> allocatable cfg = true -> stored s k p o ->
  sim (fun _ _ s' => stored s' k p {| c_key := c_key o;
         c_buckets := <[norm_tier tier := List.length (bheap s)]> (c_buckets o) |})
    (c_Configure p tier cfg now) (on_reg (on_client k (MultiBucket.Configure tier cfg now))) s.
Proof.
  intros Hg Ha Hst. pose proof Hst as [Hk Ho].
  assert (E : on_reg (on_client k (MultiBucket.Configure tier cfg now)) (abs s)
              = (Ok tt, abs (configured s p o tier cfg now))).
  { rewrite (configured_abs s k p o tier cfg now) by done.
    unfold on_reg, zoom, on_client. cbn. rewrite (stored_view _ _ _ _ Hst). cbn.
    unfold MultiBucket.Configure, bind. by rewrite New_run, Ha. }
  unfold sim, wp, c_Configure, new_bucket, bind, at_c. rewrite Ho. cbn. rewrite New_run, Ha. cbn.
  split; [by apply configured_good|]. exists tt. split; [exact E|].
  - split; [done|]. cbn. apply list_lookup_insert_eq. by eapply lookup_lt_Some.
Qed.

Lemma ensureTier_sim s k p o tier now : good s -> stored s k p o ->
  sim (fun _ _ s' => exists o', stored s' k p o') (solo (ensureTier opts p tier now))
    (Store.ensureTier k tier now) s.
Proof.
  intros Hg Hst. pose proof (stored_object _ _ _ _ Hst) as Ho.
  assert (Hkey : c_key o = k).
  { destruct (ok_clients _ _ (proj1 Hg) _ _ (stored_key _ _ _ _ Hst)) as (_ & o' & Ho' & <-). by simplify_eq. }
  unfold ensureTier, Store.ensureTier. case_bool_decide as Hdef; [apply sim_ret; [done|by exists o]|].
  apply (sim_at _ p o _ _ _ s Ho), (sim_client _ k p o); [done|].
  unfold lookup_bucket. cbn [follow buckets]. rewrite lookup_omap.
  destruct (c_buckets o !! norm_tier tier) as [b|] eqn:Hb; cbn [mbind option_bind].
  { destruct (tier_bucket _ _ _ _ _ Hg Ho Hb) as [v ->]. apply sim_ret; [done|by exists o]. }
  apply sim_reg. cbn [reg abs Store.tierDefaults].
  destruct (Store.tierDefaults (limits opts) !! tier) as [cfg|] eqn:Hcfg; [|apply sim_ret; [done|by exists o]].
  assert (Ha : allocatable cfg = true) by exact (proj1 (proj1 (ok_fits _ _ (proj1 Hg))) _ _ Hcfg).
  eapply sim_then; [apply sim_block; by apply Configure_sim|]. intros [] [] s1 Hg1 Hst1.
  set (o1 := {| c_key := _; c_buckets := _ |}) in Hst1.
  apply (sim_object _ p o1 _ _ s1 (stored_object _ _ _ _ Hst1)), (sim_client _ k p o1); [done|].
  unfold MultiBucket.Key, schedule_tier. cbn [follow clientKey o1 c_key]. rewrite Hkey.
  destruct (0 <? RefillInterval cfg); [|apply sim_ret; [done|by exists o1]].
  eapply sim_ext.
  { cbn [atomic andThen solo]. unfold bind at 1. rewrite (c_Bucket_stored _ _ _ _ tier Hst1).
    cbn [o1 c_buckets]. rewrite lookup_insert_eq. reflexivity. }
  eapply sim_weaken; [|eapply sim_ext; [|apply (schedule_sim s1 k p o1 tier (List.length (bheap s))); [done|done|apply lookup_insert_eq]]].
  { intros [] [] s2 [_ Ht]. exists o1. by eapply stored_same. }
  cbn [atomic andThen solo]. unfold bind. destruct (on_b _ _ s1) as [[t| |] s2]; [|done..].
  unfold ret. by destruct (on_sched _ s2) as [[[]| |] s3].
Qed.

Lemma c_Allow_sim s k p o tier now : good s -> stored s k p o ->
  sim (fun a r s' => a = r /\ stored s' k p o) (solo (c_Allow p tier now))
    (on_reg (on_client k (MultiBucket.Allow tier now))) s.
Proof.
  intros Hg Hst. pose proof (stored_object _ _ _ _ Hst) as Ho.
  assert (Heff : exists t b, (match c_buckets o !! norm_tier tier with
    | Some b => Some b | None => c_buckets o !! DefaultTier end) = Some b /\ c_buckets o !! t = Some b /\
    on_reg (on_client k (MultiBucket.Allow tier now)) (abs s)
    = on_reg (on_client k (at_tier t (Bucket.Allow now))) (abs s)).
  { unfold on_reg, zoom, on_client. cbn [reg abs Store.clients]. rewrite (stored_view _ _ _ _ Hst).
    unfold MultiBucket.Allow. cbv zeta. unfold bind, gets. cbn [follow buckets]. rewrite !lookup_omap.
    destruct (c_buckets o !! norm_tier tier) as [b|] eqn:Hb; cbn [mbind option_bind].
    - destruct (tier_bucket _ _ _ _ _ Hg Ho Hb) as [v ->]. by exists (norm_tier tier), b.
    - destruct (proj1 (ok_tiers _ _ (proj1 Hg) _ _ Ho)) as [b Hd]. rewrite Hd. cbn [mbind option_bind].
      destruct (tier_bucket _ _ _ _ _ Hg Ho Hd) as [v ->]. by exists DefaultTier, b. }
  destruct Heff as (t & b & Hc & Ht & Ed). unfold c_Allow.
  apply (sim_at _ p o (fun o => match c_buckets o !! norm_tier tier with
    | Some b => Some b | None => c_buckets o !! DefaultTier end) _ _ s Ho). rewrite Hc.
  eapply (sim_move _ _ _ _ _ s s); [reflexivity|exact Ed|]. apply sim_block.
  eapply sim_weaken; [|apply (sim_tier k p o t b); [done|done|done|apply usable_Allow]].
  intros a r s' [-> Hs]. split; [done|]. by eapply stored_same.
Qed.

Lemma remaining_sim s k p o tier : good s -> stored s k p o ->
  sim (fun a r _ => a = r) (solo (remaining p tier)) (on_reg (on_client k (gets (Store.remaining tier)))) s.
Proof.
  intros Hg Hst. pose proof (stored_object _ _ _ _ Hst) as Ho.
  eapply (sim_move _ _ _ _ (ret (Store.remaining tier (follow s o))) s s); [reflexivity|by apply (read_client s k p o)|].
  unfold remaining, Store.remaining, lookup_bucket. cbn [follow buckets]. rewrite !lookup_omap.
  assert (Hread : forall t b v, c_buckets o !! t = Some b -> bheap s !! b = Some v ->
    sim (fun a r _ => a = r) (solo (atomic (on_b b (gets Bucket.TokensRemaining))))
      (ret (Bucket.TokensRemaining v)) s).
  { intros t b v Hb Hv. apply sim_block. unfold sim, wp, on_b. rewrite Hv. cbn.
    assert (E : set_bheap (<[b := v]> (bheap s)) s = s) by (rewrite list_insert_id by done; by destruct s).
    rewrite E. eauto. }
  apply (sim_at _ p o (fun o => c_buckets o !! norm_tier tier) _ _ s Ho).
  destruct (c_buckets o !! norm_tier tier) as [b|] eqn:Hb; cbn [mbind option_bind].
  - destruct (tier_bucket _ _ _ _ _ Hg Ho Hb) as [v Hv]. rewrite Hv. by eapply Hread.
  - apply (sim_at _ p o (fun o => c_buckets o !! norm_tier DefaultTier) _ _ s Ho).
    destruct (proj1 (ok_tiers _ _ (proj1 Hg) _ _ Ho)) as [b Hd].
    change (norm_tier DefaultTier) with DefaultTier. rewrite Hd. cbn [mbind option_bind].
    destruct (tier_bucket _ _ _ _ _ Hg Ho Hd) as [v Hv]. rewrite Hv. by eapply Hread.
Qed.

Lemma sim_blocked {A B} (R : A -> B -> shared S -> Prop) k p o (f : bool -> prog (shared S) A) d s :
  stored s k p o -> sim R (solo (f (MultiBucket.IsBlocked (follow s o)))) d s ->
  sim R (solo (let* x := atomic (c_IsBlocked p) in f x)) d s.
Proof.
  intros Hst Hf. unfold sim, wp in *. cbn [atomic andThen solo]. unfold bind, c_IsBlocked, resolve.
  by rewrite (stored_object _ _ _ _ Hst).
Qed.

Lemma client_gate_sim k tier now s : good s -> k <> "" ->
  sim (fun a r _ => a = r) (solo (client_gate opts k tier now)) (Store.client_gate k tier now) s.
Proof.
  intros Hg Hk. unfold client_gate, Store.client_gate.
  eapply sim_then; [by apply getOrCreateClient_sim|]. intros p _c s1 Hg1 [o Hst].
  apply (sim_client _ k p o); [done|].
  apply (sim_blocked _ k p o); [done|].
  destruct (MultiBucket.IsBlocked (follow s1 o)); [by apply sim_ret|].
  eapply sim_then; [by apply (ensureTier_sim s1 k p o)|]. intros [] [] s2 Hg2 [o2 Hst2].
  eapply sim_then; [by apply (c_Allow_sim s2 k p o2)|]. intros [al r] ? s3 Hg3 [<- Hst3].
  destruct al; cbv beta iota delta [negb]; [|by apply sim_ret].
  eapply sim_then; [by apply (remaining_sim s3 k p o2)|]. intros n ? s4 Hg4 <-. by apply sim_ret.
Qed.

Lemma Allow_sim req wall s : good s -> ClientKey req <> "" ->
  sim (fun a r _ => a = r) (solo (Allow opts req wall)) (Store.Allow req wall) s.
Proof.
  intros Hg Hk. unfold Allow, Store.Allow. cbv zeta.
  generalize (if Time.IsZero (Now req) then wall else Now req) as now; intros now.
  eapply sim_then; [by apply global_gate_sim|]. intros g ? s1 Hg1 <-.
  destruct g as [res|]; [by apply sim_ret|].
  eapply sim_then; [by apply ip_gate_sim|]. intros i ? s2 Hg2 <-.
  destruct i as [res|]; [by apply sim_ret|]. by apply client_gate_sim.
Qed.

(** C7: the concurrent store refines the sequential one.  From every
    well-formed shared state ([good]: the invariant of the interleavings, with
    windows that can be allocated, and no bucket that two owners share), a request that runs its blocks without another
    thread in between answers what [Store.Allow] answers on the store the
    state stands for, and leaves a well-formed state that stands for the store
    [Store.Allow] leaves: the pointers, the second lookup under the lock and
    the blocks of [ensureTier] make no difference. *)
Theorem conc_store_solo_is_sequential (s : shared S) (req : AllowRequest) (wall : Time)
  (Hs : good s) (Hk : ClientKey req <> "") :
  exists res s', solo (Allow opts req wall) s = (Ok res, s') /\
    Store.Allow req wall (abs s) = (Ok res, abs s') /\ good s'.
Proof.
  pose proof (Allow_sim req wall s Hs Hk) as (res & s' & E & Hg & r & Ed & <-)%wp_value. by exists res, s'.
Qed.

Lemma start_good sc : sched_ok sc -> fits (limits opts) -> good (start sc).
Proof.
  intros Hsc Hfit. split; [apply (start_ok opts sc Hsc Hfit)|].
  intros [|ip|p t] w b; cbn; try done. all: try by rewrite ?lookup_empty. by intros (o & Ho & _).
Qed.
End Sim.

#[local] Existing Instance map_to_list_range.

(** The start of the store, and a first request. *)
Example start_is_New :
  abs race_opts (start Scheduler.New) = {| reg := Store.New race_opts; scheduler := Some Scheduler.New |}.
Proof. reflexivity. Qed.

Definition race_request : AllowRequest :=
  {| ClientKey := "c"; SourceIP := "10.0.0.1"; Tier := "premium"; Now := race_now |}.

Lemma conc_store_solo_is_sequential_witness :
  exists res s', solo (Allow race_opts race_request race_now) (start Scheduler.New) = (Ok res, s') /\
    Store.Allow race_request race_now (abs race_opts (start Scheduler.New)) = (Ok res, abs race_opts s') /\
    good race_opts s'.
Proof.
  refine (conc_store_solo_is_sequential race_opts (start Scheduler.New) race_request race_now _ _).
  - apply start_good; [exact (proj1 scheduler_New_wf)|exact race_fits].
  - discriminate.
Defined.
