(* ===== verification/SHA256.v ===== *)
(** * SHA-256 and hexadecimal encoding

    The functions of crypto/sha256, encoding/hex and crypto/subtle that
    internal/security calls, executable, on bytes as integers in [0, 256). *)

From Stdlib Require Import ZArith Lia Ascii String.
From stdpp Require Import base tactics strings numbers list.
From S2P Require Import Prelude GoString.

Local Open Scope Z_scope.

(** ** Bytes *)

Definition byte_of (c : ascii) : Z := Z.of_N (N_of_ascii c).
Definition ascii_of (b : Z) : ascii := ascii_of_N (Z.to_N b).

(** [[]byte(s)] and [string(bs)] *)
Fixpoint bytes_of (s : string) : list Z :=
  match s with
  | EmptyString => []
  | String c s => byte_of c :: bytes_of s
  end.

Fixpoint string_of (bs : list Z) : string :=
  match bs with
  | [] => ""
  | b :: bs => String (ascii_of b) (string_of bs)
  end.

Lemma byte_of_range c : 0 <= byte_of c < 256.
Proof. unfold byte_of. pose proof (N_ascii_bounded c). lia. Qed.

Lemma ascii_of_byte_of c : ascii_of (byte_of c) = c.
Proof. unfold ascii_of, byte_of. by rewrite N2Z.id, ascii_N_embedding. Qed.

Lemma byte_of_ascii_of b : 0 <= b < 256 -> byte_of (ascii_of b) = b.
Proof. intros H. unfold ascii_of, byte_of. rewrite N_ascii_embedding by lia. lia. Qed.

Lemma string_of_bytes_of s : string_of (bytes_of s) = s.
Proof. induction s as [|c s IH]; cbn; [done|]. by rewrite ascii_of_byte_of, IH. Qed.

Lemma bytes_of_string_of bs : Forall (fun b => 0 <= b < 256) bs -> bytes_of (string_of bs) = bs.
Proof. induction 1 as [|b bs Hb _ IH]; cbn; [done|]. by rewrite byte_of_ascii_of, IH. Qed.

Lemma bytes_of_range s : Forall (fun b => 0 <= b < 256) (bytes_of s).
Proof. induction s; constructor; [apply byte_of_range|done]. Qed.

Lemma length_string_of bs : String.length (string_of bs) = List.length bs.
Proof. induction bs; cbn; congruence. Qed.

Lemma length_bytes_of s : List.length (bytes_of s) = String.length s.
Proof. induction s; cbn; congruence. Qed.

(** ** SHA-256 (FIPS 180-4) *)

Definition w32 (z : Z) : Z := z mod 2 ^ 32.
Definition rotr (n x : Z) : Z := Z.lor (Z.shiftr x n) (w32 (Z.shiftl x (32 - n))).

(** The constants are, by definition, the first 32 bits of the fractional parts
    of the roots of the first primes: cube roots for the rounds, square roots
    for the initial hash value. *)
Definition is_prime (n : Z) : bool :=
  (2 <=? n) && forallb (fun d => negb (n mod d =? 0)) (seqZ 2 (n - 2)).

Definition primes (count : nat) : list Z :=
  take count (filter (fun n => is_prime n = true) (seqZ 2 400)).

(** The largest [r] with [r ^ 3 <= n], one bit at a time. *)
Fixpoint cube_root (bits : nat) (n : Z) : Z :=
  match bits with
  | O => 0
  | S bits =>
      let r := 2 * cube_root bits (n / 8) in
      if (r + 1) ^ 3 <=? n then r + 1 else r
  end.

Definition round_constants : list Z :=
  Eval vm_compute in map (fun p => w32 (cube_root 40 (p * 2 ^ 96))) (primes 64).

Definition initial_hash : list Z :=
  Eval vm_compute in map (fun p => w32 (Z.sqrt (p * 2 ^ 64))) (primes 8).

Definition be_bytes (n : nat) (z : Z) : list Z :=
  map (fun i => Z.shiftr z (8 * Z.of_nat i) mod 256) (rev (seq 0 n)).

(** The padded message: a one bit, zeros, and the length in bits. *)
Definition pad (msg : list Z) : list Z :=
  let n := List.length msg in
  let zeros := ((119 - n mod 64) mod 64)%nat in
  msg ++ [128] ++ replicate zeros 0 ++ be_bytes 8 (8 * Z.of_nat n mod 2 ^ 64).

Fixpoint words (bs : list Z) : list Z :=
  match bs with
  | a :: b :: c :: d :: bs => ((a * 256 + b) * 256 + c) * 256 + d :: words bs
  | _ => []
  end.

(** The message schedule, newest word first. *)
Fixpoint extend (n : nat) (ws : list Z) : list Z :=
  match n with
  | O => ws
  | S n =>
      let w i := nth i ws 0 in
      let s0 := Z.lxor (Z.lxor (rotr 7 (w 14%nat)) (rotr 18 (w 14%nat))) (Z.shiftr (w 14%nat) 3) in
      let s1 := Z.lxor (Z.lxor (rotr 17 (w 1%nat)) (rotr 19 (w 1%nat))) (Z.shiftr (w 1%nat) 10) in
      extend n (w32 (w 15%nat + s0 + w 6%nat + s1) :: ws)
  end.

Definition compress_round (st : list Z) (kw : Z * Z) : list Z :=
  match st with
  | [a; b; c; d; e; f; g; h] =>
      let S1 := Z.lxor (Z.lxor (rotr 6 e) (rotr 11 e)) (rotr 25 e) in
      let ch := Z.lxor (Z.land e f) (Z.land (2 ^ 32 - 1 - e) g) in
      let t1 := w32 (h + S1 + ch + fst kw + snd kw) in
      let S0 := Z.lxor (Z.lxor (rotr 2 a) (rotr 13 a)) (rotr 22 a) in
      let maj := Z.lxor (Z.lxor (Z.land a b) (Z.land a c)) (Z.land b c) in
      [w32 (t1 + w32 (S0 + maj)); a; b; c; w32 (d + t1); e; f; g]
  | _ => st
  end.

Definition compress (hash block : list Z) : list Z :=
  let ws := rev (extend 48 (rev (words block))) in
  let out := foldl compress_round hash (zip round_constants ws) in
  zip_with (fun x y => w32 (x + y)) hash out.

Fixpoint blocks (fuel : nat) (hash bs : list Z) : list Z :=
  match fuel, bs with
  | S fuel, _ :: _ => blocks fuel (compress hash (take 64 bs)) (drop 64 bs)
  | _, _ => hash
  end.

Definition Sum256 (msg : list Z) : list Z :=
  let bs := pad msg in
  List.concat (map (be_bytes 4) (blocks (List.length bs) initial_hash bs)).

(** ** encoding/hex *)

Definition hex_digit (d : Z) : ascii :=
  ascii_of (if d <? 10 then 48 + d else 87 + d).

Fixpoint EncodeToString (bs : list Z) : string :=
  match bs with
  | [] => ""
  | b :: bs => String (hex_digit (b / 16)) (String (hex_digit (b mod 16)) (EncodeToString bs))
  end.

Example sha256_abc :
  EncodeToString (Sum256 (bytes_of "abc"))
  = "ba7816bf8f01cfea414140de5dae2223b00361a396177a9cb410ff61f20015ad"%string.
Proof. vm_compute. reflexivity. Qed.

Example sha256_two_blocks :
  EncodeToString (Sum256 (bytes_of "abcdbcdecdefdefgefghfghighijhijkijkljklmklmnlmnomnopnopq"))
  = "248d6a61d20638b8e5c026930c3e6039a33ce45964ff2167f6ecedd419db06c1"%string.
Proof. vm_compute. reflexivity. Qed.
