(* ===== verification/Security.v ===== *)
(** * internal/security: validation and credential helpers *)

From Stdlib Require Import ZArith Lia Ascii String.
From stdpp Require Import base tactics strings numbers list.
From S2P Require Import Prelude GoTime GoString Window Bucket SHA256.

Local Open Scope Z_scope.

(** An [error] value, by what its message reports; [nil] is [None]. *)
Inductive Error :=
| ErrInvalidAPIKey
| ErrInvalidTier
| ErrMaxTokens (v : Z)
| ErrRefillRate (v : Z)
| ErrRefillInterval (v : Duration).

(** ** Charsets *)

(** The class [[a-zA-Z0-9_-]]. *)
Definition key_char (c : ascii) : bool :=
  let b := byte_of c in
  ((97 <=? b) && (b <=? 122)) || ((65 <=? b) && (b <=? 90)) || ((48 <=? b) && (b <=? 57)) ||
  (b =? 95) || (b =? 45).

(** [^[a-zA-Z0-9_-]{1,max}$] *)
Definition pattern (max : Z) (s : string) : bool :=
  let n := Z.of_nat (String.length s) in
  (1 <=? n) && (n <=? max) && str_forall key_char s.

Definition apiKeyPattern : string -> bool := pattern 128.
Definition tierPattern : string -> bool := pattern 64.

Definition ValidateAPIKey (key : string) : option Error :=
  if negb (apiKeyPattern key) then Some ErrInvalidAPIKey else None.

Definition ValidateTier (tier : string) : option Error :=
  if bool_decide (tier = ""%string) then None
  else if negb (tierPattern tier) then Some ErrInvalidTier
  else None.

(** ** Runes (unicode/utf8) *)

Definition RuneError : Z := 0xFFFD.

Definition in_range (lo hi b : Z) : bool := (lo <=? b) && (b <=? hi).
Definition cont : Z -> bool := in_range 0x80 0xBF.

(** The first rune of a byte sequence and its width, as ranging over a string
    decodes it: an invalid byte is [RuneError] of width one. *)
Definition decode_rune (bs : list Z) : Z * nat :=
  let bad := (RuneError, 1%nat) in
  match bs with
  | [] => (RuneError, 0%nat)
  | b0 :: rest =>
      if b0 <? 0x80 then (b0, 1%nat)
      else if in_range 0xC2 0xDF b0 then
        match rest with
        | b1 :: _ => if cont b1 then ((b0 - 0xC0) * 64 + (b1 - 0x80), 2%nat) else bad
        | _ => bad
        end
      else if in_range 0xE0 0xEF b0 then
        match rest with
        | b1 :: b2 :: _ =>
            let lo := if b0 =? 0xE0 then 0xA0 else 0x80 in
            let hi := if b0 =? 0xED then 0x9F else 0xBF in
            if in_range lo hi b1 && cont b2
            then (((b0 - 0xE0) * 64 + (b1 - 0x80)) * 64 + (b2 - 0x80), 3%nat) else bad
        | _ => bad
        end
      else if in_range 0xF0 0xF4 b0 then
        match rest with
        | b1 :: b2 :: b3 :: _ =>
            let lo := if b0 =? 0xF0 then 0x90 else 0x80 in
            let hi := if b0 =? 0xF4 then 0x8F else 0xBF in
            if in_range lo hi b1 && cont b2 && cont b3
            then ((((b0 - 0xF0) * 64 + (b1 - 0x80)) * 64 + (b2 - 0x80)) * 64 + (b3 - 0x80), 4%nat)
            else bad
        | _ => bad
        end
      else bad
  end.

(** [strings.Builder.WriteRune] *)
Definition encode_rune (r : Z) : list Z :=
  if r <? 0x80 then [r]
  else if r <? 0x800 then [0xC0 + r / 64; 0x80 + r mod 64]
  else if r <? 0x10000 then [0xE0 + r / 4096; 0x80 + r / 64 mod 64; 0x80 + r mod 64]
  else [0xF0 + r / 262144; 0x80 + r / 4096 mod 64; 0x80 + r / 64 mod 64; 0x80 + r mod 64].

(** The loop of [SanitizeForLog]; [out] is the builder. *)
Fixpoint sanitize_loop (fuel : nat) (bs out : list Z) : list Z :=
  match fuel, bs with
  | S fuel, _ :: _ =>
      let '(r, width) := decode_rune bs in
      let bs' := drop width bs in
      if (r =? 10) || (r =? 13) || (r <? 0x20) then sanitize_loop fuel bs' out
      else
        let out := out ++ encode_rune r in
        if 256 <=? zlen out then out else sanitize_loop fuel bs' out
  | _, _ => out
  end.

Definition SanitizeForLog (s : string) : string :=
  let bs := bytes_of s in
  let out := sanitize_loop (List.length bs) bs [] in
  string_of (if 256 <? zlen out then take 256 out else out).

(** ** Credentials *)

Definition HashToken (token salt : string) : string :=
  EncodeToString (Sum256 (bytes_of (salt ++ ":" ++ token)%string)).

(** [subtle.ConstantTimeCompare]: the differences of all bytes are collected
    before the single test. *)
Definition ConstantTimeCompare (x y : list Z) : Z :=
  if negb (zlen x =? zlen y) then 0
  else
    let v := foldl (fun v '(a, b) => Z.lor v (Z.lxor a b)) 0 (zip x y) in
    Z.shiftr ((v - 1) mod 2 ^ 32) 31.

Definition ConstantTimeEqual (a b : string) : bool :=
  ConstantTimeCompare (bytes_of a) (bytes_of b) =? 1.

(** ** Bucket parameters *)

Definition ValidateBucketConfig (maxTokens refillRate : Z) (refillInterval : Duration) : option Error :=
  if (maxTokens <? 1) || (1000000 <? maxTokens) then Some (ErrMaxTokens maxTokens)
  else if (refillRate <? 0) || (100000 <? refillRate) then Some (ErrRefillRate refillRate)
  else if 0 <? refillRate then
    if (refillInterval <? 10 * Millisecond) || (Hour <? refillInterval)
    then Some (ErrRefillInterval refillInterval) else None
  else None.

(** ** Lemmas *)

Lemma str_forall_bytes f s :
  str_forall f s = true <-> Forall (fun b => f (ascii_of b) = true) (bytes_of s).
Proof.
  induction s as [|c s IH]; cbn; [by split; [constructor|]|].
  rewrite andb_true_iff, Forall_cons_iff, ascii_of_byte_of. by rewrite IH.
Qed.

Lemma decode_rune_spec b bs :
  Forall (fun b => 0 <= b < 256) (b :: bs) ->
  let '(r, width) := decode_rune (b :: bs) in
  0 <= r <= 0x10FFFF /\ (1 <= width)%nat.
Proof.
  intros Hb. unfold decode_rune, cont, in_range.
  repeat match goal with
  | H : Forall _ (_ :: _) |- _ => apply Forall_cons in H as [? H]
  | |- context [match ?l with [] => _ | _ :: _ => _ end] => destruct l
  | |- context [if ?c then _ else _] => no_if c; let E := fresh "E" in destruct c eqn:E
  end; unfold RuneError; lia.
Qed.

Lemma encode_rune_spec r :
  0x20 <= r <= 0x10FFFF ->
  Forall (fun b => 0x20 <= b < 256) (encode_rune r) /\ (1 <= List.length (encode_rune r) <= 4)%nat.
Proof.
  intros Hr. unfold encode_rune. bcase; cbn; (split; [|lia]);
    repeat (apply Forall_cons; split); try apply Forall_nil; zlia.
Qed.

Lemma sanitize_loop_spec fuel : forall bs out,
  Forall (fun b => 0 <= b < 256) bs -> Forall (fun b => 0x20 <= b < 256) out -> zlen out < 256 ->
  Forall (fun b => 0x20 <= b < 256) (sanitize_loop fuel bs out) /\
  zlen (sanitize_loop fuel bs out) < 260.
Proof.
  induction fuel as [|fuel IH]; intros bs out Hbs Hout Hlen; cbn [sanitize_loop];
    [split; [done|lia]|]. destruct bs as [|b bs]; [split; [done|lia]|].
  pose proof (decode_rune_spec b bs Hbs) as Hd. destruct (decode_rune (b :: bs)) as [r width].
  destruct Hd as [Hr Hw]. assert (Hdrop : Forall (fun b => 0 <= b < 256) (drop width (b :: bs)))
    by by apply Forall_drop.
  destruct ((r =? 10) || (r =? 13) || (r <? 32)) eqn:Ec; [by apply IH|].
  destruct (encode_rune_spec r ltac:(lia)) as [He Hl].
  assert (Hout' : Forall (fun b => 0x20 <= b < 256) (out ++ encode_rune r)) by by apply Forall_app.
  assert (Hlen' : zlen (out ++ encode_rune r) = zlen out + Z.of_nat (List.length (encode_rune r)))
    by apply zlen_app.
  destruct (Z.leb_spec 256 (zlen (out ++ encode_rune r))); [split; [done|lia]|by apply IH].
Qed.

(** Printable ASCII passes unchanged. *)
Lemma sanitize_loop_ascii fuel : forall bs out,
  Forall (fun b => 0x20 <= b < 0x80) bs -> (List.length bs <= fuel)%nat ->
  zlen out + zlen bs <= 256 -> sanitize_loop fuel bs out = out ++ bs.
Proof.
  induction fuel as [|fuel IH]; intros bs out Hbs Hf Hlen;
    destruct bs as [|b bs]; cbn [sanitize_loop List.length] in *; rewrite ?app_nil_r; try done; [lia|].
  apply Forall_cons in Hbs as [Hb Hbs]. unfold decode_rune.
  rewrite (proj2 (Z.ltb_lt b 0x80)) by lia.
  replace ((b =? 10) || (b =? 13) || (b <? 32)) with false by lia.
  unfold encode_rune. rewrite (proj2 (Z.ltb_lt b 0x80)) by lia. cbn [drop].
  change (b :: bs) with ([b] ++ bs). rewrite app_assoc, zlen_cons in *.
  assert (Hl : zlen (out ++ [b]) = zlen out + 1) by (rewrite zlen_app; done).
  rewrite Hl. destruct (Z.leb_spec 256 (zlen out + 1)).
  - pose proof (zlen_nonneg bs). assert (zlen bs = 0) by lia. destruct bs; [by rewrite app_nil_r|].
    rewrite zlen_cons in *. pose proof (zlen_nonneg bs). lia.
  - apply IH; [done|lia|lia].
Qed.

Lemma byte_lxor a b : 0 <= a < 256 -> 0 <= b < 256 -> 0 <= Z.lxor a b < 256.
Proof.
  intros Ha Hb. assert (Hn : 0 <= Z.lxor a b) by (apply Z.lxor_nonneg; lia). split; [done|].
  destruct (Z.eqb_spec (Z.lxor a b) 0) as [->|]; [lia|].
  apply (Z.log2_lt_pow2 _ 8); [lia|]. eapply Z.le_lt_trans; [apply Z.log2_lxor; lia|].
  pose proof (Z.log2_le_mono a 255 ltac:(lia)). pose proof (Z.log2_le_mono b 255 ltac:(lia)).
  change (Z.log2 255) with 7 in *. lia.
Qed.

Lemma byte_lor a b : 0 <= a < 256 -> 0 <= b < 256 -> 0 <= Z.lor a b < 256.
Proof.
  intros Ha Hb. assert (Hn : 0 <= Z.lor a b) by (apply Z.lor_nonneg; lia). split; [done|].
  destruct (Z.eqb_spec (Z.lor a b) 0) as [->|]; [lia|].
  apply (Z.log2_lt_pow2 _ 8); [lia|]. rewrite Z.log2_lor by lia.
  pose proof (Z.log2_le_mono a 255 ltac:(lia)). pose proof (Z.log2_le_mono b 255 ltac:(lia)).
  change (Z.log2 255) with 7 in *. lia.
Qed.

Lemma diff_fold x : forall y v,
  List.length x = List.length y -> 0 <= v < 256 ->
  Forall (fun b => 0 <= b < 256) x -> Forall (fun b => 0 <= b < 256) y ->
  let d := foldl (fun v '(a, b) => Z.lor v (Z.lxor a b)) v (zip x y) in
  0 <= d < 256 /\ (d = 0 <-> v = 0 /\ x = y).
Proof.
  induction x as [|a x IH]; intros [|b y] v Hl Hv Hx Hy; cbn in *; try done; [tauto|].
  apply Forall_cons in Hx as [Ha Hx], Hy as [Hb Hy].
  destruct (IH y (Z.lor v (Z.lxor a b))) as [H1 H2]; [lia|by apply byte_lor, byte_lxor|done|done|].
  split; [done|]. rewrite H2, Z.lor_eq_0_iff, Z.lxor_eq_0_iff. split.
  - intros [[-> ->] ->]. done.
  - intros [-> [= -> ->]]. done.
Qed.

Lemma diff_top v : 0 <= v < 256 -> Z.shiftr ((v - 1) mod 2 ^ 32) 31 = if v =? 0 then 1 else 0.
Proof.
  intros Hv. rewrite Z.shiftr_div_pow2 by lia. destruct (Z.eqb_spec v 0) as [->|]; [done|].
  rewrite Z.mod_small by lia. apply Z.div_small. lia.
Qed.

Lemma bytes_of_inj a b : bytes_of a = bytes_of b -> a = b.
Proof. intros E. by rewrite <- (string_of_bytes_of a), E, string_of_bytes_of. Qed.

Lemma ConstantTimeEqual_iff a b : ConstantTimeEqual a b = true <-> a = b.
Proof.
  unfold ConstantTimeEqual, ConstantTimeCompare.
  destruct (Z.eqb_spec (zlen (bytes_of a)) (zlen (bytes_of b))) as [E|E]; cbn [negb].
  - destruct (diff_fold (bytes_of a) (bytes_of b) 0) as [Hd Hiff];
      [unfold zlen in E; lia|lia|apply bytes_of_range..|].
    rewrite diff_top by done. rewrite Z.eqb_eq. split.
    + case_match eqn:Ez; [|done]. intros _. apply bytes_of_inj. apply Hiff. lia.
    + intros ->. rewrite (proj2 (Z.eqb_eq _ 0)); [done|]. apply Hiff. done.
  - split; [done|]. intros ->. done.
Qed.

Lemma length_EncodeToString bs : String.length (EncodeToString bs) = (2 * List.length bs)%nat.
Proof. induction bs as [|b bs IH]; cbn; [done|]. rewrite IH. lia. Qed.

(** Accepted keys and tiers hold no separator. *)
Lemma pattern_no_bar max s : pattern max s = true -> contains s "|"%char = false.
Proof.
  unfold pattern. intros [_ Hf]%andb_true_iff. induction s as [|c s IH]; cbn in *; [done|].
  apply andb_true_iff in Hf as [Hc Hf]. rewrite IH by done. rewrite orb_false_r.
  apply Ascii.eqb_neq. intros ->. done.
Qed.

Lemma pattern_nonempty max s : pattern max s = true -> s <> ""%string.
Proof. intros H ->. done. Qed.

Lemma accepted_safe mt rr ri tpr :
  ValidateBucketConfig mt rr ri = None -> in64 ri -> 1 <= tpr <= 2000000 ->
  (0 < rr \/ 0 < ri -> 10 * Millisecond <= ri <= Hour) ->
  safe {| MaxTokens := mt; RefillRate := rr; RefillInterval := ri; TokensPerRequest := tpr;
          CfgWindow := None |}.
Proof.
  unfold ValidateBucketConfig. intros Hv Hri Htpr Hb.
  destruct ((mt <? 1) || (1000000 <? mt)) eqn:Em; [done|].
  destruct ((rr <? 0) || (100000 <? rr)) eqn:Er; [done|]. clear Hv.
  assert (Hm : 10 * Millisecond = 10000000) by done. assert (Hh : Hour = 3600000000000) by done.
  split; cbn; try lia64.
  - intros Hpos. destruct (Hb ltac:(lia)) as [H1 H2].
    assert (Hq : 0 <= int64_max / ri <= int64_max / 10000000).
    { split; [apply Z.div_pos; lia64|]. apply Z.div_le_compat_l; lia64. }
    change (int64_max / 10000000) with 922337203685 in Hq.
    set (q := int64_max / ri) in *. clearbody q.
    assert (q * rr <= 922337203685 * 100000) by (apply Z.mul_le_mono_nonneg; lia). lia64.
  - intros Hpos. destruct (Hb ltac:(lia)) as [H1 H2].
    assert ((tpr + rr) * ri <= 2100000 * 3600000000000) by (apply Z.mul_le_mono_nonneg; lia).
    unfold int64_max. lia.
Qed.

(** ** Properties *)

(** C35: what reaches a log line.  [SanitizeForLog] returns at most 256 bytes,
    none of them a control character below 0x20 (so no CR or LF: one value
    cannot forge a second line), whatever bytes come in, valid UTF-8 or not;
    short printable ASCII is returned unchanged. *)
Theorem sanitize_for_log_safe (s : string) :
  (String.length (SanitizeForLog s) <= 256)%nat /\
  Forall (fun b => 0x20 <= b) (bytes_of (SanitizeForLog s)) /\
  (Forall (fun b => 0x20 <= b < 0x7F) (bytes_of s) -> (String.length s <= 256)%nat ->
     SanitizeForLog s = s).
Proof.
  unfold SanitizeForLog. set (out := sanitize_loop _ _ _).
  destruct (sanitize_loop_spec (List.length (bytes_of s)) (bytes_of s) []) as [Hb Hl];
    [apply bytes_of_range|constructor|done|]. fold out in Hb, Hl.
  assert (Hb' : Forall (fun b => 0x20 <= b < 256) (if 256 <? zlen out then take 256 out else out)).
  { destruct (256 <? zlen out); [by apply Forall_take|done]. }
  split_and!.
  - rewrite length_string_of. unfold zlen in *.
    destruct (Z.ltb_spec 256 (Z.of_nat (List.length out))); [rewrite length_take|]; lia.
  - rewrite bytes_of_string_of; [eapply Forall_impl; [exact Hb'|]; cbn; lia|].
    eapply Forall_impl; [exact Hb'|]. cbn. lia.
  - intros Hp Hs. subst out. rewrite sanitize_loop_ascii; cbn [app].
    + unfold zlen. rewrite length_bytes_of.
      rewrite (proj2 (Z.ltb_ge _ _)) by lia. apply string_of_bytes_of.
    + eapply Forall_impl; [exact Hp|]. cbn. lia.
    + done.
    + unfold zlen. rewrite length_bytes_of. cbn. lia.
Qed.
