(* ===== verification/Float64.v ===== *)
(** * Go's [float64]

    IEEE 754 binary64 with rounding to nearest even, by the executable
    specification of the Standard Library ([SpecFloat]). *)

From Stdlib Require Import ZArith Lia SpecFloat.
From stdpp Require Import base tactics list.
From S2P Require Import Prelude GoTime.

Local Open Scope Z_scope.

Abbreviation float64 := spec_float.

Definition fzero : float64 := S754_zero false.

(** [float64(z)] *)
Definition of_int (z : Z) : float64 := binary_normalize 53 1024 z 0 false.

Definition fadd : float64 -> float64 -> float64 := SFadd 53 1024.
Definition fmul : float64 -> float64 -> float64 := SFmul 53 1024.
Definition fdiv : float64 -> float64 -> float64 := SFdiv 53 1024.
Definition fle : float64 -> float64 -> bool := SFleb.
Definition flt : float64 -> float64 -> bool := SFltb.

(** A decimal constant [n / 10^k]: both numbers are exact, so the correctly
    rounded quotient is the constant's value. *)
Definition decimal (n k : Z) : float64 := fdiv (of_int n) (of_int (10 ^ k)).

(** [time.Duration.Seconds] *)
Definition Seconds (d : Duration) : float64 :=
  fadd (of_int (Z.quot d Second)) (fdiv (of_int (Z.rem d Second)) (of_int 1000000000)).

(** [int(f)]: truncation towards zero (of a value in range). *)
Definition trunc (f : float64) : Z :=
  match f with
  | S754_finite s m e =>
      let v := if 0 <=? e then Z.pos m * 2 ^ e else Z.pos m / 2 ^ (- e) in
      if s then - v else v
  | _ => 0
  end.

(** Being below a finite positive bound is inherited by larger bounds. *)
Lemma fle_mono x m e m' e' :
  (e < e' \/ (e = e' /\ (m <= m')%positive)) ->
  fle x (S754_finite false m e) = true -> fle x (S754_finite false m' e') = true.
Proof.
  intros Hle. unfold fle, SFleb. destruct x as [[]|[]| |[] mx ex]; cbn; try done.
  destruct (Z.compare_spec ex e), (Z.compare_spec ex e'); try done; subst; try lia.
  intros Hm. destruct (Pos.compare_cont Eq mx m') eqn:E2; try done.
  change (Pos.compare mx m' = Gt) in E2. apply Pos.compare_gt_iff in E2.
  destruct (Pos.compare_cont Eq mx m) eqn:E1; try done.
  - change (Pos.compare mx m = Eq) in E1. apply Pos.compare_eq_iff in E1. exfalso. lia.
  - change (Pos.compare mx m = Lt) in E1. apply Pos.compare_lt_iff in E1. exfalso.
    pose proof (Pos.lt_trans _ _ _ E2 E1). lia.
Qed.

Example ex_half : of_int 1 = S754_finite false 4503599627370496 (-52) /\
  decimal 5 1 = S754_finite false 4503599627370496 (-53).
Proof. vm_compute. done. Qed.

Example ex_seconds : Seconds (1500 * Millisecond) = decimal 15 1.
Proof. vm_compute. done. Qed.
