(* ===== verification/Fairness.v ===== *)
(** * internal/fairness: the advisory weighted-fair-queuing tracker

    A nil [*Tracker] is [None].  Floating-point values are binary64. *)

From Stdlib Require Import ZArith Lia SpecFloat.
From stdpp Require Import base tactics gmap strings list.
From S2P Require Import Prelude Float64.

Local Open Scope Z_scope.
Local Open Scope go_scope.
Local Open Scope go_monad_scope.

Record Tracker := {
  enabled : bool;
  consumption : gmap string Z;
  weights : gmap string float64;
  defaultWeight : float64;
  virtualTime : float64
}.

Definition set_consumption v t : Tracker :=
  {| enabled := enabled t; consumption := v; weights := weights t;
     defaultWeight := defaultWeight t; virtualTime := virtualTime t |}.
Definition set_weights v t : Tracker :=
  {| enabled := enabled t; consumption := consumption t; weights := v;
     defaultWeight := defaultWeight t; virtualTime := virtualTime t |}.
Definition set_virtualTime v t : Tracker :=
  {| enabled := enabled t; consumption := consumption t; weights := weights t;
     defaultWeight := defaultWeight t; virtualTime := v |}.

Definition New (enabled : bool) (defaultWeight : float64) : Tracker :=
  {| enabled := enabled; consumption := ∅; weights := ∅;
     defaultWeight := if fle defaultWeight fzero then of_int 1 else defaultWeight;
     virtualTime := fzero |}.

(** [t == nil || !t.enabled], negated. *)
Definition Enabled (t : option Tracker) : bool :=
  match t with None => false | Some t => enabled t end.

(** The weight of a client: its own if positive (a missing entry reads 0). *)
Definition weight_of (clientKey : string) (t : Tracker) : float64 :=
  let weight := default fzero (weights t !! clientKey) in
  if fle weight fzero then defaultWeight t else weight.

Definition consumed (clientKey : string) (t : Tracker) : Z :=
  default 0 (consumption t !! clientKey).

Definition SetWeight (clientKey : string) (weight : float64) : M (option Tracker) unit :=
  fun t => match t with
           | Some tr =>
               if negb (enabled tr) || fle weight fzero then (Ok tt, t)
               else (Ok tt, Some (set_weights (<[clientKey := weight]> (weights tr)) tr))
           | None => (Ok tt, t)
           end.

Definition RecordConsumption (clientKey : string) (tokens : Z) : M (option Tracker) float64 :=
  fun t => match t with
           | Some tr =>
               if negb (enabled tr) then (Ok fzero, t)
               else
                 let weight := weight_of clientKey tr in
                 let total := consumed clientKey tr +! tokens in
                 let tr := set_consumption (<[clientKey := total]> (consumption tr)) tr in
                 let tr := set_virtualTime (fadd (virtualTime tr) (fdiv (of_int tokens) weight)) tr in
                 (Ok (fadd (virtualTime tr) (fdiv (of_int total) weight)), Some tr)
           | None => (Ok fzero, t)
           end.

Definition Priority (clientKey : string) (t : option Tracker) : float64 :=
  match t with
  | Some tr =>
      if negb (enabled tr) then fzero
      else fadd (virtualTime tr) (fdiv (of_int (consumed clientKey tr)) (weight_of clientKey tr))
  | None => fzero
  end.

Definition Snapshot (t : option Tracker) : gmap string Z :=
  match t with
  | Some tr => if negb (enabled tr) then ∅ else consumption tr
  | None => ∅
  end.

(** ** Lemmas *)

Lemma RecordConsumption_snapshot key n t :
  exists v t', RecordConsumption key n t = (Ok v, t') /\
    Enabled t' = Enabled t /\
    (Enabled t = true -> v = Priority key t' /\
       Snapshot t' = <[key := default 0 (Snapshot t !! key) +! n]> (Snapshot t)) /\
    (Enabled t = false -> t' = t).
Proof.
  destruct t as [tr|]; [|by eexists _, _]. cbn. destruct (enabled tr) eqn:E; cbn.
  - eexists _, _. split; [reflexivity|]. cbn. rewrite E. split_and!; [done| |done]. intros _.
    unfold consumed, weight_of. cbn. by rewrite lookup_insert_eq.
  - eexists _, _. split; [reflexivity|]. cbn. rewrite E. done.
Qed.
