(* ===== verification/AuditLog.v ===== *)
(** * internal/audit: the audit logging policy

    A nil logger is [None]; the records written to the underlying structured
    logger are a list, newest last.  [draw] is the value of [rand.Float64()]. *)

From Stdlib Require Import ZArith Lia SpecFloat.
From stdpp Require Import base tactics gmap strings list.
From S2P Require Import Prelude GoTime Float64.

Local Open Scope Z_scope.

Inductive Level := Debug | Info | Warn.

(** The snapshot of a bucket configuration in an admin record. *)
Record configSnapshot := {
  sn_MaxTokens : Z;
  sn_RefillRate : Z;
  sn_RefillIntervalMs : Z
}.

Inductive Event :=
| request_decision (allowed : bool) (client_key source_ip : string)
    (tokens_remaining latency_us : Z)
| admin_change (admin client_key action : string) (before after : option configSnapshot)
    (source_ip : string)
| anomaly (kind detail source_ip : string).

Record Logger := { sampleRate : float64; records : list (Level * Event) }.

Definition New (rate : float64) : Logger :=
  let rate := if flt rate fzero then fzero else rate in
  let rate := if flt (of_int 1) rate then of_int 1 else rate in
  {| sampleRate := rate; records := [] |}.

Definition write (level : Level) (e : Event) (l : Logger) : Logger :=
  {| sampleRate := sampleRate l; records := records l ++ [(level, e)] |}.

Definition RequestDecision (allowed : bool) (clientKey sourceIP : string) (remaining : Z)
  (latency : Duration) (draw : float64) : M (option Logger) unit :=
  modify (fmap (fun l =>
    let e := request_decision allowed clientKey sourceIP remaining (Microseconds latency) in
    if negb allowed then write Warn e l
    else if fle (sampleRate l) fzero then l
    else if flt (sampleRate l) (of_int 1) && fle (sampleRate l) draw then l
    else write Debug e l)).

Definition AdminChange (admin clientKey action : string) (before after : option configSnapshot)
  (sourceIP : string) : M (option Logger) unit :=
  modify (fmap (write Info (admin_change admin clientKey action before after sourceIP))).

Definition Anomaly (kind detail sourceIP : string) : M (option Logger) unit :=
  modify (fmap (write Warn (anomaly kind detail sourceIP))).
