(* ===== verification/Metrics.v ===== *)
(** * internal/metrics: the metrics registry

    Counters, gauges and the latency histogram; the exposition is modelled as
    the list of lines written, before number formatting and quoting. *)

From Stdlib Require Import ZArith Lia SpecFloat Ascii String.
From stdpp Require Import base tactics gmap strings sorting list.
From S2P Require Import Prelude GoTime Float64.

Local Open Scope Z_scope.
Local Open Scope go_scope.
Local Open Scope go_monad_scope.

(** A line of the text format. *)
Inductive line :=
| L_help (name help : string)
| L_type (name kind : string)
| L_int (name : string) (label : option (string * string)) (v : Z)
| L_bucket (name : string) (le : option float64) (v : Z)   (* [None] is +Inf *)
| L_float (name : string) (v : float64).

(** ** Counters *)

Record Counter := { c_name : string; c_help : string; vals : gmap string Z }.

Definition newCounter (name help : string) : Counter :=
  {| c_name := name; c_help := help; vals := ∅ |}.

Definition set_vals v c : Counter := {| c_name := c_name c; c_help := c_help c; vals := v |}.

Definition Inc (label : string) : M Counter unit :=
  let! vs := gets vals in
  match vs !! label with
  | Some v => modify (set_vals (<[label := v +! 1]> vs))
  | None => modify (set_vals (<[label := 1]> vs))
  end.

(** [sort.Strings] orders by bytes. *)
Definition string_le (a b : string) : Prop := String.leb a b = true.
#[export] Instance string_le_dec : RelDecision string_le.
Proof. intros a b. unfold string_le. apply _. Defined.

Section Exposition.
Context `{MapRange}.

Definition write_counter (labelName : string) (c : Counter) : list line :=
  let labels := merge_sort string_le (range (vals c)).*1 in
  [L_help (c_name c) (c_help c); L_type (c_name c) "counter"] ++
  map (fun l =>
         let v := default 0 (vals c !! l) in
         if bool_decide (l = "" \/ labelName = "") then L_int (c_name c) None v
         else L_int (c_name c) (Some (labelName, l)) v) labels.
End Exposition.

(** ** Gauges *)

Record Gauge := { g_name : string; g_help : string; g_v : Z }.

Definition newGauge (name help : string) : Gauge := {| g_name := name; g_help := help; g_v := 0 |}.

Definition set_g_v v g : Gauge := {| g_name := g_name g; g_help := g_help g; g_v := v |}.

Definition Set_ (v : Z) : M Gauge unit := modify (set_g_v v).
Definition Add (delta : Z) : M Gauge unit := modify (fun g => set_g_v (g_v g +! delta) g).

Definition write_gauge (g : Gauge) : list line :=
  [L_help (g_name g) (g_help g); L_type (g_name g) "gauge"; L_int (g_name g) None (g_v g)].

(** ** The histogram *)

(** The upper bounds, in seconds. *)
Definition histogramBuckets : list float64 :=
  [decimal 5 5; decimal 1 4; decimal 5 4; decimal 1 3; decimal 5 3; decimal 1 2;
   decimal 5 2; decimal 1 1; decimal 5 1; of_int 1].

Record Histogram := {
  h_name : string;
  h_help : string;
  h_buckets : list Z;
  h_sum : float64;
  h_count : Z
}.

Definition newHistogram (name help : string) : Histogram :=
  {| h_name := name; h_help := help; h_buckets := replicate (List.length histogramBuckets) 0;
     h_sum := fzero; h_count := 0 |}.

(** [h.buckets[i]++] for every bound not below the sample. *)
Definition Observe (seconds : float64) : M Histogram unit :=
  modify (fun h =>
    {| h_name := h_name h; h_help := h_help h;
       h_buckets := zip_with (fun upper n => if fle seconds upper then n +! 1 else n)
                      histogramBuckets (h_buckets h);
       h_sum := fadd (h_sum h) seconds;
       h_count := h_count h +! 1 |}).

Definition write_histogram (h : Histogram) : list line :=
  [L_help (h_name h) (h_help h); L_type (h_name h) "histogram"] ++
  zip_with (fun upper n => L_bucket (h_name h) (Some upper) n) histogramBuckets (h_buckets h) ++
  [L_bucket (h_name h) None (h_count h); L_float (h_name h) (h_sum h);
   L_int (h_name h) None (h_count h)].

(** ** The registry *)

Record Registry := {
  RequestsTotal : Counter;
  RequestLatency : Histogram;
  ActiveClients : Gauge;
  SchedulerRefills : Gauge;
  SchedulerHeapSize : Gauge;
  EvictionsTotal : Gauge;
  AdminChangesTotal : Counter;
  decisionLabel : string;
  actionLabel : string
}.

Definition NewRegistry : Registry :=
  {| RequestsTotal := newCounter "sentinel_requests_total" "Total rate-limit decisions made.";
     RequestLatency := newHistogram "sentinel_request_latency_seconds" "Decision latency in seconds.";
     ActiveClients := newGauge "sentinel_active_clients" "Number of currently tracked clients.";
     SchedulerRefills :=
       newGauge "sentinel_scheduler_refills_total" "Cumulative scheduled refills processed.";
     SchedulerHeapSize :=
       newGauge "sentinel_scheduler_heap_size" "Current number of scheduled refill entries.";
     EvictionsTotal := newGauge "sentinel_evictions_total" "Cumulative LRU client evictions.";
     AdminChangesTotal := newCounter "sentinel_admin_changes_total" "Total admin API mutations.";
     decisionLabel := "decision"; actionLabel := "action" |}.

Definition set_RequestsTotal v r : Registry :=
  {| RequestsTotal := v; RequestLatency := RequestLatency r; ActiveClients := ActiveClients r;
     SchedulerRefills := SchedulerRefills r; SchedulerHeapSize := SchedulerHeapSize r;
     EvictionsTotal := EvictionsTotal r; AdminChangesTotal := AdminChangesTotal r;
     decisionLabel := decisionLabel r; actionLabel := actionLabel r |}.
Definition set_RequestLatency v r : Registry :=
  {| RequestsTotal := RequestsTotal r; RequestLatency := v; ActiveClients := ActiveClients r;
     SchedulerRefills := SchedulerRefills r; SchedulerHeapSize := SchedulerHeapSize r;
     EvictionsTotal := EvictionsTotal r; AdminChangesTotal := AdminChangesTotal r;
     decisionLabel := decisionLabel r; actionLabel := actionLabel r |}.
Definition set_AdminChangesTotal v r : Registry :=
  {| RequestsTotal := RequestsTotal r; RequestLatency := RequestLatency r;
     ActiveClients := ActiveClients r; SchedulerRefills := SchedulerRefills r;
     SchedulerHeapSize := SchedulerHeapSize r; EvictionsTotal := EvictionsTotal r;
     AdminChangesTotal := v; decisionLabel := decisionLabel r; actionLabel := actionLabel r |}.
Definition set_gauges clients heapSize refills evictions r : Registry :=
  {| RequestsTotal := RequestsTotal r; RequestLatency := RequestLatency r;
     ActiveClients := set_g_v clients (ActiveClients r);
     SchedulerRefills := set_g_v refills (SchedulerRefills r);
     SchedulerHeapSize := set_g_v heapSize (SchedulerHeapSize r);
     EvictionsTotal := set_g_v evictions (EvictionsTotal r);
     AdminChangesTotal := AdminChangesTotal r;
     decisionLabel := decisionLabel r; actionLabel := actionLabel r |}.

(** What [Handler] answers: the status and, for a GET, the exposition. *)
Definition Handler `{MapRange} (method : string) (r : Registry) : Z * list line :=
  if negb (bool_decide (method = "GET")) then (405, [])
  else (200, write_counter (decisionLabel r) (RequestsTotal r) ++
             write_histogram (RequestLatency r) ++ write_gauge (ActiveClients r) ++
             write_gauge (SchedulerRefills r) ++ write_gauge (SchedulerHeapSize r) ++
             write_gauge (EvictionsTotal r) ++
             write_counter (actionLabel r) (AdminChangesTotal r)).

(** ** Lemmas *)

(** The number of samples a bound covers. *)
Definition covered (xs : list float64) (upper : float64) : Z :=
  zlen (filter (fun x => fle x upper = true) xs).

Lemma covered_app xs ys u : covered (xs ++ ys) u = covered xs u + covered ys u.
Proof. unfold covered. rewrite filter_app. apply zlen_app. Qed.

Lemma covered_le xs u : 0 <= covered xs u <= zlen xs.
Proof.
  unfold covered, zlen. pose proof (length_filter (fun x => fle x u = true) xs). lia.
Qed.

Lemma covered_mono xs u v :
  (forall x, fle x u = true -> fle x v = true) -> covered xs u <= covered xs v.
Proof. intros H. apply filter_length_mono. apply Forall_forall. auto. Qed.

Lemma bounds_sorted i u v :
  histogramBuckets !! i = Some u -> histogramBuckets !! S i = Some v ->
  forall x, fle x u = true -> fle x v = true.
Proof.
  intros Hu Hv. do 10 (destruct i as [|i]; [vm_compute in Hu, Hv; simplify_eq;
    intros x; apply fle_mono; vm_compute; (by left) || (right; split; [done|discriminate])|]).
  vm_compute in Hv. done.
Qed.

(** One sample adds one to the count of every bound that covers it. *)
Lemma observe_buckets x pre l :
  (forall u, u ∈ l -> covered pre u + 1 <= int64_max) ->
  zip_with (fun upper n => if fle x upper then wrap64 (n + 1) else n) l (map (covered pre) l)
  = map (covered (pre ++ [x])) l.
Proof.
  induction l as [|u l IH]; intros Hb; cbn; [done|]. f_equal.
  - rewrite covered_app. unfold covered at 4, zlen. rewrite filter_cons.
    pose proof (covered_le pre u). pose proof (Hb u (list_elem_of_here _ _)).
    destruct (fle x u) eqn:E; [rewrite decide_True by done|rewrite decide_False by done];
      cbn; [rewrite wrap64_id by lia64|]; lia.
  - apply IH. intros v Hv. apply Hb. by apply list_elem_of_further.
Qed.

Lemma observe_all xs : forall pre h,
  h_buckets h = map (covered pre) histogramBuckets -> h_count h = zlen pre ->
  zlen (pre ++ xs) <= int64_max ->
  exists h', for_each xs Observe h = (Ok tt, h') /\
    h_buckets h' = map (covered (pre ++ xs)) histogramBuckets /\ h_count h' = zlen (pre ++ xs).
Proof.
  induction xs as [|x xs IH]; intros pre h Hb Hc Hn; cbn [for_each].
  { exists h. by rewrite app_nil_r. }
  rewrite (cons_middle x), app_assoc in *. unfold bind, Observe at 1, modify.
  pose proof (zlen_nonneg xs). rewrite !zlen_app in Hn. change (zlen [x]) with 1 in Hn.
  apply IH; cbn [h_buckets h_count].
  - rewrite Hb. apply observe_buckets. intros u _. pose proof (covered_le pre u). lia.
  - rewrite Hc, zlen_app. change (zlen [x]) with 1. pose proof (zlen_nonneg pre).
    apply wrap64_id. lia64.
  - rewrite !zlen_app. change (zlen [x]) with 1. lia.
Qed.

(** ** Properties *)

(** C40: the latency histogram is a Prometheus histogram.  After any samples
    (fewer than 2^63), whatever they are (NaN and infinities included), the
    entry of each bound counts exactly the samples not above it, the entries
    are non-decreasing, and none exceeds the total count. *)
Theorem histogram_cumulative (name help : string) (xs : list float64) (Hn : zlen xs <= int64_max) :
  exists h, for_each xs Observe (newHistogram name help) = (Ok tt, h) /\
    h_buckets h = map (covered xs) histogramBuckets /\ h_count h = zlen xs /\
    (forall i m n, h_buckets h !! i = Some m -> h_buckets h !! S i = Some n -> m <= n) /\
    Forall (fun n => 0 <= n <= h_count h) (h_buckets h).
Proof.
  destruct (observe_all xs [] (newHistogram name help)) as (h & E & Hb & Hc); [done|done|done|].
  exists h. cbn [app] in *. rewrite Hb, Hc. split_and!; [done..| |].
  - intros i m n. rewrite !list_lookup_fmap. intros Hm Hn'.
    destruct (histogramBuckets !! i) as [u|] eqn:Hu; [|done].
    destruct (histogramBuckets !! S i) as [v|] eqn:Hv; [|done]. cbn in Hm, Hn'. simplify_eq.
    apply covered_mono. by eapply bounds_sorted.
  - apply Forall_fmap, Forall_forall. intros u _. apply covered_le.
Qed.

Definition ex_samples : list float64 := [decimal 1 4; decimal 2 0; S754_nan; decimal 3 3].

Example ex_observe :
  h_buckets (snd (for_each ex_samples Observe (newHistogram "h" "")))
  = [0; 1; 1; 1; 2; 2; 2; 2; 2; 2].
Proof. vm_compute. done. Qed.

Lemma histogram_cumulative_witness :
  exists h, for_each ex_samples Observe (newHistogram "h" "") = (Ok tt, h) /\
    h_buckets h = map (covered ex_samples) histogramBuckets /\ h_count h = zlen ex_samples /\
    (forall i m n, h_buckets h !! i = Some m -> h_buckets h !! S i = Some n -> m <= n) /\
    Forall (fun n => 0 <= n <= h_count h) (h_buckets h).
Proof. apply histogram_cumulative. vm_compute. discriminate. Defined.
