(* ===== verification/GoParse.v ===== *)
(** * Parsing numbers and durations

    The functions of strconv and time that internal/config calls, transcribed
    from the standard library: [ParseInt] (base 10, 64 bits), [ParseBool],
    [ParseFloat] and [ParseDuration].  [None] is any non-nil error: the callers
    fall back to their default without looking at it. *)

From Stdlib Require Import ZArith Lia SpecFloat Ascii String.
From stdpp Require Import base tactics strings numbers gmap list.
From S2P Require Import Prelude GoTime GoString SHA256 Float64.

Local Open Scope Z_scope.

Definition is_digit (c : ascii) : bool := let b := byte_of c in (48 <=? b) && (b <=? 57).
Definition digit (c : ascii) : Z := byte_of c - 48.

(** ** Integers and booleans *)

Fixpoint digits_value (s : string) (acc : Z) : option Z :=
  match s with
  | EmptyString => Some acc
  | String c s => if is_digit c then digits_value s (acc * 10 + digit c) else None
  end.

(** The optional sign; [true] is negative. *)
Definition take_sign (s : string) : bool * string :=
  match s with
  | String c s' =>
      if byte_of c =? 43 then (false, s')
      else if byte_of c =? 45 then (true, s')
      else (false, s)
  | EmptyString => (false, s)
  end.

Definition ParseInt (s : string) : option Z :=
  let '(neg, ds) := take_sign s in
  match ds with
  | EmptyString => None
  | _ =>
      match digits_value ds 0 with
      | Some v => let v := if neg then - v else v in
                  if (int64_min <=? v) && (v <=? int64_max) then Some v else None
      | None => None
      end
  end.

Definition ParseBool (s : string) : option bool :=
  if bool_decide (s ∈ ["1"; "t"; "T"; "true"; "TRUE"; "True"]) then Some true
  else if bool_decide (s ∈ ["0"; "f"; "F"; "false"; "FALSE"; "False"]) then Some false
  else None.

(** ** Floating-point numbers *)

Definition lower (c : ascii) : ascii :=
  let b := byte_of c in if (65 <=? b) && (b <=? 90) then ascii_of (b + 32) else c.
Fixpoint str_lower (s : string) : string :=
  match s with EmptyString => EmptyString | String c s => String (lower c) (str_lower s) end.

(** [underscoreOK]: an underscore only between digits (a base prefix counts as
    a digit).  [saw] is the kind of the last character: a digit, an underscore
    or anything else. *)
Inductive seen := SawDigit | SawUnderscore | SawOther.

Fixpoint underscore_loop (hex : bool) (s : string) (saw : seen) : bool :=
  match s with
  | EmptyString => match saw with SawUnderscore => false | _ => true end
  | String c s =>
      let b := byte_of (lower c) in
      if is_digit c || (hex && (97 <=? b) && (b <=? 102)) then underscore_loop hex s SawDigit
      else if b =? 95 then
        match saw with SawDigit => underscore_loop hex s SawUnderscore | _ => false end
      else match saw with SawUnderscore => false | _ => underscore_loop hex s SawOther end
  end.

Definition underscoreOK (s : string) : bool :=
  let '(_, s) := take_sign s in
  match s with
  | String z (String p rest) =>
      let b := byte_of (lower p) in
      if (byte_of z =? 48) && ((b =? 98) || (b =? 111) || (b =? 120))
      then underscore_loop (b =? 120) rest SawDigit
      else underscore_loop false s SawOther
  | _ => underscore_loop false s SawOther
  end.

(** The mantissa: value, digits after the point, whether digits, a point or an
    underscore were seen, and the rest of the input. *)
Record mantissa := {
  m_value : Z; m_frac : Z; m_digits : bool; m_dot : bool; m_under : bool; m_rest : string
}.

Fixpoint read_mantissa (base : Z) (s : string) (v frac : Z) (sawdigits sawdot under : bool) : mantissa :=
  let stop := {| m_value := v; m_frac := frac; m_digits := sawdigits; m_dot := sawdot;
                 m_under := under; m_rest := s |} in
  match s with
  | EmptyString => stop
  | String c s' =>
      let b := byte_of (lower c) in
      let frac' := if sawdot then frac + 1 else frac in
      if b =? 95 then read_mantissa base s' v frac sawdigits sawdot true
      else if b =? 46 then
        if sawdot then stop else read_mantissa base s' v frac sawdigits true under
      else if is_digit c then read_mantissa base s' (v * base + digit c) frac' true sawdot under
      else if (base =? 16) && (97 <=? b) && (b <=? 102)
      then read_mantissa base s' (v * base + (b - 87)) frac' true sawdot under
      else stop
  end.

(** The digits of an exponent, saturating as the code does. *)
Fixpoint read_exponent (s : string) (e : Z) (under : bool) : Z * bool * string :=
  match s with
  | String c s' =>
      if is_digit c then read_exponent s' (if e <? 10000 then e * 10 + digit c else e) under
      else if byte_of c =? 95 then read_exponent s' e true
      else (e, under, s)
  | EmptyString => (e, under, s)
  end.

(** The correctly rounded value of [m / d], for positive [d]. *)
Definition ratio (sign : bool) (m d : Z) : float64 :=
  match m, d with
  | Zpos pm, Zpos pd =>
      let '(mz, ez, lz) := SFdiv_core_binary 53 1024 (Zpos pm) 0 (Zpos pd) 0 in
      binary_round_aux 53 1024 sign mz ez lz
  | _, _ => S754_zero sign
  end.

Definition scaled (sign : bool) (m base e : Z) : float64 :=
  if 0 <=? e then ratio sign (m * base ^ e) 1 else ratio sign m (base ^ (- e)).

Definition finite_or_error (f : float64) : option float64 :=
  match f with S754_infinity _ => None | _ => Some f end.

Definition read_float (s : string) : option float64 :=
  let '(neg, s1) := take_sign s in
  let hex := match s1 with
             | String z (String x (String _ _)) =>
                 (byte_of z =? 48) && (byte_of (lower x) =? 120)
             | _ => false
             end in
  let base := if hex then 16 else 10 in
  let m := read_mantissa base (if hex then str_drop 2 s1 else s1) 0 0 false false false in
  if negb (m_digits m) then None
  else
    let value e := finite_or_error
      (if hex then scaled neg (m_value m) 2 (e - 4 * m_frac m) else scaled neg (m_value m) 10 (e - m_frac m)) in
    match m_rest m with
    | EmptyString =>
        if hex then None
        else if m_under m && negb (underscoreOK s) then None else value 0
    | String c rest =>
        if byte_of (lower c) =? (if hex then 112 else 101) then
          let '(eneg, es) := take_sign rest in
          match es with
          | String d _ =>
              if is_digit d then
                let '(e, under, tail) := read_exponent es 0 (m_under m) in
                if negb (bool_decide (tail = "")) then None
                else if under && negb (underscoreOK s) then None
                else value (if eneg then - e else e)
              else None
          | EmptyString => None
          end
        else None
    end.

Definition ParseFloat (s : string) : option float64 :=
  let '(neg, s1) := take_sign s in
  let l := str_lower s1 in
  if bool_decide (l = "inf" \/ l = "infinity") then Some (S754_infinity neg)
  else if bool_decide (str_lower s = "nan") then Some S754_nan
  else read_float s.

(** ** Durations *)

Definition two63 : Z := 2 ^ 63.

(** [leadingInt]: [None] on overflow. *)
Fixpoint leadingInt (s : string) (x : Z) : option (Z * string) :=
  match s with
  | String c s' =>
      if is_digit c then
        if two63 / 10 <? x then None
        else
          let x := x * 10 + digit c in
          if two63 <? x then None else leadingInt s' x
      else Some (x, s)
  | EmptyString => Some (x, s)
  end.

(** [leadingFraction]: digits that would overflow are skipped. *)
Fixpoint leadingFraction (s : string) (x : Z) (scale : float64) (overflow : bool) : Z * float64 * string :=
  match s with
  | String c s' =>
      if is_digit c then
        if overflow then leadingFraction s' x scale overflow
        else if (two63 - 1) / 10 <? x then leadingFraction s' x scale true
        else
          let y := x * 10 + digit c in
          if two63 <? y then leadingFraction s' x scale true
          else leadingFraction s' y (fmul scale (of_int 10)) false
      else (x, scale, s)
  | EmptyString => (x, scale, s)
  end.

(** The unit: the longest prefix without a digit or a point. *)
Fixpoint take_unit (s : string) : string * string :=
  match s with
  | String c s' =>
      if is_digit c || (byte_of c =? 46) then ("", s)
      else let '(u, rest) := take_unit s' in (String c u, rest)
  | EmptyString => ("", s)
  end.

(** "us" is also written with U+00B5 or U+03BC. *)
Definition unitMap : list (string * Z) :=
  [("ns", 1); ("us", 1000); (bytes_string [194; 181; 115]%nat, 1000);
   (bytes_string [206; 188; 115]%nat, 1000); ("ms", Millisecond); ("s", Second);
   ("m", Minute); ("h", Hour)].

Definition unit_value (u : string) : option Z :=
  snd <$> (snd <$> list_find (fun kv => fst kv = u) unitMap).

(** One [number unit] group: its value and the rest of the input. *)
Definition read_group (s : string) : option (Z * string) :=
  match s with
  | EmptyString => None
  | String c _ =>
      if negb ((byte_of c =? 46) || is_digit c) then None
      else
        '(v, s1) ← leadingInt s 0;
        let pre := negb (Nat.eqb (String.length s) (String.length s1)) in
        let '(f, scale, s2, post) :=
          match s1 with
          | String d s1' =>
              if byte_of d =? 46 then
                let '(f, scale, s2) := leadingFraction s1' 0 (of_int 1) false in
                (f, scale, s2, negb (Nat.eqb (String.length s1') (String.length s2)))
              else (0, of_int 1, s1, false)
          | EmptyString => (0, of_int 1, s1, false)
          end in
        if negb pre && negb post then None
        else
          let '(u, rest) := take_unit s2 in
          unit ← unit_value u;
          if two63 / unit <? v then None
          else
            let v := v * unit in
            let v := if 0 <? f then v + trunc (fmul (of_int f) (fdiv (of_int unit) scale)) else v in
            if two63 <? v then None else Some (v, rest)
  end.

Fixpoint read_groups (fuel : nat) (s : string) (d : Z) : option Z :=
  match s with
  | EmptyString => Some d
  | _ =>
      match fuel with
      | O => None
      | S fuel =>
          '(v, rest) ← read_group s;
          let d := (d + v) mod 2 ^ 64 in
          if two63 <? d then None else read_groups fuel rest d
      end
  end.

(** Every group consumes at least its unit, so the length of the input is
    enough fuel. *)
Definition ParseDuration (s : string) : option Duration :=
  let '(neg, s1) := take_sign s in
  if bool_decide (s1 = "0") then Some 0
  else if bool_decide (s1 = "") then None
  else
    d ← read_groups (String.length s1) s1 0;
    if neg then Some (wrap64 (- d))
    else if int64_max <? d then None else Some d.

Example ex_durations :
  map ParseDuration ["1s"; "10ms"; "1h30m"; "-1.5h"; "0"; "5"; ".5s"; "1d"; "9223372036854775808ns"; "1us2ns"]
  = [Some Second; Some (10 * Millisecond); Some (90 * Minute); Some (- 90 * Minute); Some 0; None;
     Some (500 * Millisecond); None; None; Some 1002].
Proof. vm_compute. done. Qed.

Example ex_floats :
  map ParseFloat ["0.01"; "1"; "-2.5e-1"; "1_0.0"; "0x1p-2"; "1e400"; ""; "1_"; "."; "5e"]
  = [Some (decimal 1 2); Some (of_int 1); Some (fdiv (of_int (-1)) (of_int 4)); Some (of_int 10);
     Some (fdiv (of_int 1) (of_int 4)); None; None; None; None; None].
Proof. vm_compute. done. Qed.

Example ex_ints :
  map ParseInt ["0"; "-12"; "+7"; "9223372036854775807"; "9223372036854775808"; "1_0"; ""; "-"]
  = [Some 0; Some (-12); Some 7; Some int64_max; None; None; None; None].
Proof. vm_compute. done. Qed.
