(* ===== verification/Config.v ===== *)
(** * internal/config: the configuration file

    The parser of the indentation-based YAML subset, the layering of a parsed
    tree over the built-in defaults, and the validation.  A tree node is a Go
    map, shared between its parent and the parser's stack, so nodes live in a
    store and are referred to by index. *)

From Stdlib Require Import ZArith Lia SpecFloat Ascii String.
From stdpp Require Import base tactics gmap strings numbers list.
From S2P Require Import Prelude GoTime GoString SHA256 Float64 GoParse.

Local Open Scope Z_scope.
Local Open Scope go_scope.

(** ** The schema *)

Record TLSConfig := { CertFile : string; KeyFile : string; ClientCAFile : string }.

Record ServerConfig := {
  ClientPort : Z; AdminPort : Z; TLS : TLSConfig; AdminTLS : TLSConfig
}.

Record SlidingWindowDefaults := {
  sw_Enabled : bool; sw_WindowDuration : Duration; sw_MaxRequests : Z; sw_BufferSize : Z
}.

Record BucketDefaults := {
  bd_MaxTokens : Z; bd_RefillRate : Z; bd_RefillInterval : Duration; bd_TokensPerRequest : Z;
  bd_SlidingWindow : option SlidingWindowDefaults
}.

Record Limits := {
  MaxClients : Z; MaxAPIKeyLength : Z; MinRefillInterval : Duration; MaxRefillInterval : Duration
}.

Record Security := {
  AdminTokenHash : string; AdminTokenSalt : string; IdentityMode : string;
  TrustProxyHeaders : bool; EnableIPSecondaryLimit : bool;
  IPMaxTokens : Z; IPRefillRate : Z; IPRefillInterval : Duration
}.

Record Logging := { Level : string; AuditFile : string; RequestSampleRate : float64 }.

Record MetricsConfig := { m_Enabled : bool; m_Port : Z }.

Record Fairness := { f_Enabled : bool; f_DefaultWeight : float64 }.

Record Global := {
  g_Enabled : bool; g_MaxTokens : Z; g_RefillRate : Z; g_RefillInterval : Duration
}.

Record Config := {
  c_Server : ServerConfig;
  c_Defaults : BucketDefaults;
  c_Limits : Limits;
  c_Security : Security;
  c_Logging : Logging;
  c_Metrics : MetricsConfig;
  c_Fairness : Fairness;
  c_Global : Global;
  c_Tiers : gmap string BucketDefaults
}.

Definition no_TLS : TLSConfig := {| CertFile := ""; KeyFile := ""; ClientCAFile := "" |}.

Definition Default : Config :=
  {| c_Server := {| ClientPort := 8080; AdminPort := 9090; TLS := no_TLS; AdminTLS := no_TLS |};
     c_Defaults := {| bd_MaxTokens := 100; bd_RefillRate := 10; bd_RefillInterval := Second;
                      bd_TokensPerRequest := 1; bd_SlidingWindow := None |};
     c_Limits := {| MaxClients := 100000; MaxAPIKeyLength := 128;
                    MinRefillInterval := 10 * Millisecond; MaxRefillInterval := Hour |};
     c_Security := {| AdminTokenHash := ""; AdminTokenSalt := "";
                      IdentityMode := "api_key_with_ip_fallback";
                      TrustProxyHeaders := false; EnableIPSecondaryLimit := false;
                      IPMaxTokens := 1000; IPRefillRate := 1000; IPRefillInterval := Second |};
     c_Logging := {| Level := "info"; AuditFile := ""; RequestSampleRate := decimal 1 2 |};
     c_Metrics := {| m_Enabled := true; m_Port := 9100 |};
     c_Fairness := {| f_Enabled := false; f_DefaultWeight := of_int 1 |};
     c_Global := {| g_Enabled := false; g_MaxTokens := 0; g_RefillRate := 0;
                    g_RefillInterval := 0 |};
     c_Tiers := ∅ |}.

(** ** Trees *)

(** A value is a scalar or a section (the index of its node). *)
Inductive value :=
| Scalar (s : string)
| Section_ (n : nat).

Abbreviation node := (gmap string value) (only parsing).
Abbreviation tree := (list node) (only parsing).

Definition child (t : tree) (n : node) (key : string) : option node :=
  match n !! key with
  | Some (Section_ c) => t !! c
  | _ => None
  end.

Definition scalar (n : node) (key : string) : option string :=
  match n !! key with Some (Scalar s) => Some s | _ => None end.

Definition str (n : node) (key def : string) : string := default def (scalar n key).
Definition i64 (n : node) (key : string) (def : Z) : Z :=
  default def (scalar n key ≫= ParseInt).
(** [int] has 64 bits. *)
Definition i (n : node) (key : string) (def : Z) : Z := i64 n key def.
Definition f64 (n : node) (key : string) (def : float64) : float64 :=
  default def (scalar n key ≫= ParseFloat).
Definition b (n : node) (key : string) (def : bool) : bool :=
  default def (scalar n key ≫= ParseBool).
Definition dur (n : node) (key : string) (def : Duration) : Duration :=
  default def (scalar n key ≫= ParseDuration).

(** ** Lines *)

Definition quote_char (c : ascii) : bool := (byte_of c =? 34) || (byte_of c =? 39).

(** [inQuote] is the character that opened the current quotation. *)
Fixpoint strip_comment_loop (s : string) (inQuote : option ascii) : string :=
  match s with
  | EmptyString => ""
  | String c s' =>
      match inQuote with
      | Some q => String c (strip_comment_loop s' (if Ascii.eqb c q then None else inQuote))
      | None =>
          if quote_char c then String c (strip_comment_loop s' (Some c))
          else if byte_of c =? 35 then ""
          else String c (strip_comment_loop s' None)
      end
  end.

Definition stripComment (s : string) : string := strip_comment_loop s None.

Fixpoint leadingSpaces (s : string) : Z :=
  match s with
  | String c s => if byte_of c =? 32 then leadingSpaces s + 1 else 0
  | EmptyString => 0
  end.

Definition last_byte (s : string) : option ascii := String.get (String.length s - 1) s.

Definition unquote (s : string) : string :=
  match s with
  | String c (String _ _ as rest) =>
      if quote_char c && bool_decide (last_byte s = Some c)
      then str_take (String.length s - 2) rest else s
  | _ => s
  end.

(** [bufio.ScanLines]: lines end with a newline, a final carriage return is
    dropped, an unterminated last line counts unless it is empty. *)
Definition newline : ascii := "010"%char.

Definition drop_cr (s : string) : string :=
  if bool_decide (last_byte s = Some "013"%char) then str_take (String.length s - 1) s else s.

Definition raw_lines (contents : string) : list string :=
  let ls := Split contents newline in
  if bool_decide (last ls = Some "") then removelast ls else ls.

(** [bufio.MaxScanTokenSize]: a longer line stops the scanner. *)
Definition max_line : nat := (64 * 1024 - 1)%nat.

(** ** The parser *)

Inductive Error :=
| ErrSyntax (line : Z)
| ErrTooLong
| ErrStat.

Record frame := { indent : Z; fnode : nat }.

Record parser := { nodes : tree; stack : list frame }.   (* top of the stack first *)

Definition start_parser : parser := {| nodes := [∅]; stack := [{| indent := -1; fnode := 0 |}] |}.

(** [for len(stack) > 1 && stack[len(stack)-1].indent >= indent { pop }] *)
Fixpoint pop_frames (n : Z) (st : list frame) : list frame :=
  match st with
  | f :: (_ :: _) as rest => if n <=? indent f then pop_frames n rest else st
  | _ => st
  end.

Definition set_key (k : string) (v : value) (p : nat) (t : tree) : tree :=
  alter (insert k v) p t.

(** One line after its comment was removed; [lineNo] for the error. *)
Definition parse_line (lineNo : Z) (line : string) (p : parser) : Error + parser :=
  if bool_decide (TrimSpace line = "") then inr p
  else
    let n := leadingSpaces line in
    let trimmed := TrimSpace line in
    match Cut trimmed ":"%char with
    | (_, _, false) => inl (ErrSyntax lineNo)
    | (before, after, true) =>
        let key := TrimSpace before in
        let val := unquote (TrimSpace after) in
        let st := pop_frames n (stack p) in
        match st with
        | [] => inr p                       (* the root frame is never popped *)
        | top :: _ =>
            if bool_decide (val = "") then
              let c := List.length (nodes p) in
              inr {| nodes := set_key key (Section_ c) (fnode top) (nodes p) ++ [∅];
                     stack := {| indent := n; fnode := c |} :: st |}
            else inr {| nodes := set_key key (Scalar val) (fnode top) (nodes p); stack := st |}
        end
    end.

Fixpoint parse_lines (lineNo : Z) (ls : list string) (p : parser) : Error + tree :=
  match ls with
  | [] => inr (nodes p)
  | raw :: ls =>
      if Nat.ltb max_line (String.length raw) then inl ErrTooLong
      else match parse_line lineNo (stripComment (drop_cr raw)) p with
           | inl e => inl e
           | inr p => parse_lines (lineNo + 1) ls p
           end
  end.

(** [parseTree]; the root is node 0. *)
Definition parseTree (contents : string) : Error + tree :=
  parse_lines 1 (raw_lines contents) start_parser.

(** ** Layering a tree over the defaults *)

Definition zero_sw : SlidingWindowDefaults :=
  {| sw_Enabled := false; sw_WindowDuration := 0; sw_MaxRequests := 0; sw_BufferSize := 0 |}.

Definition parseBucketDefaults (t : tree) (n : node) (base : BucketDefaults) : BucketDefaults :=
  let tpr := i64 n "tokens_per_request" (bd_TokensPerRequest base) in
  {| bd_MaxTokens := i64 n "max_tokens" (bd_MaxTokens base);
     bd_RefillRate := i64 n "refill_rate" (bd_RefillRate base);
     bd_RefillInterval := dur n "refill_interval" (bd_RefillInterval base);
     bd_TokensPerRequest := if tpr <=? 0 then 1 else tpr;
     bd_SlidingWindow :=
       match child t n "sliding_window" with
       | Some swNode =>
           let swBase := default zero_sw (bd_SlidingWindow base) in
           Some {| sw_Enabled := b swNode "enabled" (sw_Enabled swBase);
                   sw_WindowDuration := dur swNode "window_duration" (sw_WindowDuration swBase);
                   sw_MaxRequests := i64 swNode "max_requests" (sw_MaxRequests swBase);
                   sw_BufferSize := i swNode "buffer_size" (sw_BufferSize swBase) |}
       | None => bd_SlidingWindow base
       end |}.

(** [if n, ok := root.child(key); ok { ... }] on one section of the result. *)
Definition section {A} (t : tree) (n : node) (key : string) (f : node -> A -> A) (old : A) : A :=
  match child t n key with Some c => f c old | None => old end.

Definition load_server (t : tree) (n : node) (s : ServerConfig) : ServerConfig :=
  {| ClientPort := i n "client_port" (ClientPort s);
     AdminPort := i n "admin_port" (AdminPort s);
     TLS := section t n "tls" (fun c _ =>
              {| CertFile := str c "cert_file" ""; KeyFile := str c "key_file" "";
                 ClientCAFile := "" |}) (TLS s);
     AdminTLS := section t n "admin_tls" (fun c _ =>
              {| CertFile := str c "cert_file" ""; KeyFile := str c "key_file" "";
                 ClientCAFile := str c "client_ca_file" "" |}) (AdminTLS s) |}.

Definition load_limits (n : node) (l : Limits) : Limits :=
  {| MaxClients := i n "max_clients" (MaxClients l);
     MaxAPIKeyLength := i n "max_api_key_length" (MaxAPIKeyLength l);
     MinRefillInterval := dur n "min_refill_interval" (MinRefillInterval l);
     MaxRefillInterval := dur n "max_refill_interval" (MaxRefillInterval l) |}.

Definition load_security (n : node) (s : Security) : Security :=
  {| AdminTokenHash := str n "admin_token_hash" (AdminTokenHash s);
     AdminTokenSalt := str n "admin_token_salt" (AdminTokenSalt s);
     IdentityMode := str n "identity_mode" (IdentityMode s);
     TrustProxyHeaders := b n "trust_proxy_headers" (TrustProxyHeaders s);
     EnableIPSecondaryLimit := b n "enable_ip_secondary_limit" (EnableIPSecondaryLimit s);
     IPMaxTokens := i64 n "ip_max_tokens" (IPMaxTokens s);
     IPRefillRate := i64 n "ip_refill_rate" (IPRefillRate s);
     IPRefillInterval := dur n "ip_refill_interval" (IPRefillInterval s) |}.

Definition load_logging (n : node) (l : Logging) : Logging :=
  {| Level := str n "level" (Level l);
     AuditFile := str n "audit_file" (AuditFile l);
     RequestSampleRate := f64 n "request_sample_rate" (RequestSampleRate l) |}.

Definition load_metrics (n : node) (m : MetricsConfig) : MetricsConfig :=
  {| m_Enabled := b n "enabled" (m_Enabled m); m_Port := i n "port" (m_Port m) |}.

Definition load_fairness (n : node) (f : Fairness) : Fairness :=
  {| f_Enabled := b n "enabled" (f_Enabled f);
     f_DefaultWeight := f64 n "default_weight" (f_DefaultWeight f) |}.

Definition load_global (n : node) (g : Global) : Global :=
  {| g_Enabled := b n "enabled" (g_Enabled g);
     g_MaxTokens := i64 n "max_tokens" (g_MaxTokens g);
     g_RefillRate := i64 n "refill_rate" (g_RefillRate g);
     g_RefillInterval := dur n "refill_interval" (g_RefillInterval g) |}.

(** The tiers inherit from the defaults of the same file; the names are map
    keys, so the order of the iteration does not matter. *)
Definition load_tiers (t : tree) (defs : BucketDefaults) (n : node)
  (tiers : gmap string BucketDefaults) : gmap string BucketDefaults :=
  omap (fun v => match v with
                 | Section_ c => (fun tn => parseBucketDefaults t tn defs) <$> t !! c
                 | Scalar _ => None
                 end) n ∪ tiers.

Definition load_tree (t : tree) (root : node) (cfg : Config) : Config :=
  let defs := section t root "defaults" (parseBucketDefaults t) (c_Defaults cfg) in
  {| c_Server := section t root "server" (load_server t) (c_Server cfg);
     c_Defaults := defs;
     c_Limits := section t root "limits" load_limits (c_Limits cfg);
     c_Security := section t root "security" load_security (c_Security cfg);
     c_Logging := section t root "logging" load_logging (c_Logging cfg);
     c_Metrics := section t root "metrics" load_metrics (c_Metrics cfg);
     c_Fairness := section t root "fairness" load_fairness (c_Fairness cfg);
     c_Global := section t root "global" load_global (c_Global cfg);
     c_Tiers := section t root "tiers" (load_tiers t defs) (c_Tiers cfg) |}.

(** What the file system answers for a path. *)
Inductive file :=
| NotExist
| StatError
| Contents (s : string).

Definition Load (fs : string -> file) (path : string) : Error + Config :=
  if bool_decide (path = "") then inr Default
  else
    match fs path with
    | NotExist => inr Default
    | StatError => inl ErrStat
    | Contents s =>
        match parseTree s with
        | inl e => inl e
        | inr t => inr (load_tree t (default ∅ (t !! 0%nat)) Default)
        end
    end.

(** ** Validation *)

Inductive invalid :=
| ClientPortRange | AdminPortRange | PortsEqual | MetricsPortRange | MetricsPortTaken
| MaxTokensNotPositive | RefillRateNegative | MaxClientsNotPositive | SampleRateRange
| IdentityModeUnknown | WeightNotPositive | GlobalMaxTokensNotPositive.

Definition identity_modes : list string := ["ip"; "api_key"; "api_key_with_ip_fallback"].

Definition port_out_of_range (p : Z) : bool := (p <=? 0) || (65535 <? p).

Definition Validate (c : Config) : option invalid :=
  let client := ClientPort (c_Server c) in
  let admin := AdminPort (c_Server c) in
  let port := m_Port (c_Metrics c) in
  let rate := RequestSampleRate (c_Logging c) in
  if port_out_of_range client then Some ClientPortRange
  else if port_out_of_range admin then Some AdminPortRange
  else if client =? admin then Some PortsEqual
  else if m_Enabled (c_Metrics c) && port_out_of_range port then Some MetricsPortRange
  else if m_Enabled (c_Metrics c) && ((port =? client) || (port =? admin))
  then Some MetricsPortTaken
  else if bd_MaxTokens (c_Defaults c) <=? 0 then Some MaxTokensNotPositive
  else if bd_RefillRate (c_Defaults c) <? 0 then Some RefillRateNegative
  else if MaxClients (c_Limits c) <=? 0 then Some MaxClientsNotPositive
  else if flt rate fzero || flt (of_int 1) rate then Some SampleRateRange
  else if negb (bool_decide (IdentityMode (c_Security c) ∈ identity_modes))
  then Some IdentityModeUnknown
  else if f_Enabled (c_Fairness c) && fle (f_DefaultWeight (c_Fairness c)) fzero
  then Some WeightNotPositive
  else if g_Enabled (c_Global c) && (g_MaxTokens (c_Global c) <=? 0)
  then Some GlobalMaxTokensNotPositive
  else None.

Example ex_default_valid : Validate Default = None.
Proof. vm_compute. done. Qed.

Definition lines_of (ls : list string) : string :=
  foldr (fun l acc => l +:+ String newline acc) "" ls.

Definition ex_file : string := lines_of
  ["# Sentinel"; "server:"; "  client_port: 8443   # TLS"; "  tls:"; "    cert_file: 'a#b.pem'";
   ""; "defaults:"; "  max_tokens: 50"; "  refill_interval: 1m30s"; "tiers:"; "  premium:";
   "    refill_rate: 20"; "    sliding_window:"; "      enabled: true";
   "      window_duration: 500ms"; "  basic: 3"].

Definition ex_cfg : Config :=
  match Load (fun _ => Contents ex_file) "sentinel.yaml" with inr c => c | inl _ => Default end.

Example ex_load :
  ClientPort (c_Server ex_cfg) = 8443 /\ CertFile (TLS (c_Server ex_cfg)) = "a#b.pem" /\
  bd_MaxTokens (c_Defaults ex_cfg) = 50 /\
  c_Tiers ex_cfg = {["premium" := {| bd_MaxTokens := 50; bd_RefillRate := 20;
     bd_RefillInterval := 90 * Second; bd_TokensPerRequest := 1;
     bd_SlidingWindow := Some {| sw_Enabled := true; sw_WindowDuration := 500 * Millisecond;
        sw_MaxRequests := 0; sw_BufferSize := 0 |} |} ]} /\
  Validate ex_cfg = None.
Proof. vm_compute. done. Qed.

Example ex_syntax : parseTree (lines_of ["a:"; "  b"]) = inl (ErrSyntax 2).
Proof. vm_compute. done. Qed.

(** ** Written documents

    [doc] is a document as one would write it: an entry is a scalar, quoted or
    not, or a section with entries of its own, followed by the next entries of
    the same section. *)

Inductive doc :=
| DNil
| DLeaf (k : string) (quoted : bool) (v : string) (rest : doc)
| DSection (k : string) (body rest : doc).

Definition dquote : ascii := "034"%char.

Definition value_text (quoted : bool) (v : string) : string :=
  if quoted then String dquote (v +:+ String dquote "") else v.

Fixpoint spaces (n : nat) : string :=
  match n with O => "" | S n => String " " (spaces n) end.

Fixpoint render (depth : nat) (d : doc) : list string :=
  match d with
  | DNil => []
  | DLeaf k q v rest =>
      (spaces depth +:+ (k +:+ String ":" (String " " (value_text q v)))) :: render depth rest
  | DSection k body rest =>
      (spaces depth +:+ (k +:+ ":")) :: render (depth + 2) body ++ render depth rest
  end.

Fixpoint keys (d : doc) : list string :=
  match d with
  | DNil => []
  | DLeaf k _ _ rest | DSection k _ rest => k :: keys rest
  end.

(** The tree [t] holds exactly the entries of [d] at the node [n]; the nodes of
    its sections have an index of at least [lo]. *)
Fixpoint holds (lo : nat) (t : tree) (n : node) (d : doc) : Prop :=
  match d with
  | DNil => True
  | DLeaf k _ v rest => n !! k = Some (Scalar v) /\ holds lo t n rest
  | DSection k body rest =>
      (exists c m, n !! k = Some (Section_ c) /\ (lo <= c)%nat /\ t !! c = Some m /\
         dom m = list_to_set (C := gset string) (keys body) /\ holds lo t m body) /\
      holds lo t n rest
  end.

(** A visible ASCII character. *)
Definition graphic (c : ascii) : bool := (33 <=? byte_of c) && (byte_of c <=? 126).

Definition first_byte (s : string) : option ascii :=
  match s with String c _ => Some c | EmptyString => None end.

Definition visible_ends (s : string) : bool :=
  match first_byte s, first_byte (str_rev s) with
  | Some c, Some d => graphic c && graphic d
  | _, _ => false
  end.

Definition excludes (bad s : string) : bool := str_forall (fun c => negb (contains bad c)) s.

(** A quotation mark or a hash in a plain text would start a quotation or a
    comment. *)
Definition special : string := String newline (String dquote "'#").

Definition key_ok (k : string) : bool := visible_ends k && excludes (String ":" special) k.

Definition value_ok (quoted : bool) (v : string) : bool :=
  if quoted then negb (bool_decide (v = "")) && excludes (String newline (String dquote "")) v
  else visible_ends v && excludes special v.

Definition line_ok (l : string) : bool := Nat.leb (String.length l) max_line.

Fixpoint entries_ok (d : doc) : bool :=
  match d with
  | DNil => true
  | DLeaf k q v rest =>
      key_ok k && value_ok q v && negb (bool_decide (k ∈ keys rest)) && entries_ok rest
  | DSection k body rest =>
      key_ok k && negb (bool_decide (k ∈ keys rest)) && entries_ok body && entries_ok rest
  end.

Definition doc_ok (d : doc) : bool := entries_ok d && forallb line_ok (render 0 d).

(** ** Text lemmas *)

Lemma str_rev_app_spec s acc : str_rev_app s acc = str_rev s +:+ acc.
Proof.
  unfold str_rev. revert acc. induction s as [|c s IH]; intros acc; [done|]. cbn.
  rewrite (IH (String c acc)), (IH (String c "")), append_assoc. done.
Qed.

Lemma str_rev_cons c s : str_rev (String c s) = str_rev s +:+ String c "".
Proof. exact (str_rev_app_spec s (String c "")). Qed.

Lemma append_nil_r (s : string) : s +:+ "" = s.
Proof. induction s as [|c s IH]; [done|]. rewrite append_cons. by rewrite IH. Qed.

Lemma str_rev_append a b : str_rev (a +:+ b) = str_rev b +:+ str_rev a.
Proof.
  induction a as [|c a IH]; [by rewrite append_nil_r|].
  by rewrite append_cons, !str_rev_cons, IH, append_assoc.
Qed.

Lemma str_rev_involutive s : str_rev (str_rev s) = s.
Proof. induction s as [|c s IH]; [done|]. rewrite str_rev_cons, str_rev_append, IH. done. Qed.

Lemma first_byte_append s t : s <> "" -> first_byte (s +:+ t) = first_byte s.
Proof. by destruct s. Qed.

Lemma length_append (s t : string) : String.length (s +:+ t) = (String.length s + String.length t)%nat.
Proof. induction s as [|c s IH]; [done|]. rewrite append_cons. cbn. by rewrite IH. Qed.

Lemma length_spaces n : String.length (spaces n) = n.
Proof. induction n as [|n IH]; cbn; [done|by rewrite IH]. Qed.

(** Encodings of white space: a space, or no visible first byte. *)
Definition no_graphic (encs : list string) : bool :=
  forallb (fun e => match e with String d _ => negb (graphic d) | EmptyString => false end) encs.

Lemma strip_graphic encs fuel c s :
  no_graphic encs = true -> graphic c = true -> strip encs fuel (String c s) = String c s.
Proof.
  intros He Hc. destruct fuel as [|fuel]; [done|]. cbn [strip].
  replace (list_find _ encs) with (@None (nat * string)); [done|]. symmetry.
  apply list_find_None, Forall_forall. intros e Hin Hp.
  unfold no_graphic in He. rewrite forallb_forall in He.
  specialize (He e ltac:(by apply list_elem_of_In)). destruct e as [|d e]; [done|].
  apply HasPrefix_inv in Hp as [r Hr]. rewrite append_cons in Hr. injection Hr as <- _.
  by rewrite Hc in He.
Qed.

Lemma strip_space fuel s :
  strip space_encodings (S fuel) (String " " s) = strip space_encodings fuel s.
Proof. by destruct s. Qed.

Lemma strip_spaces n fuel c s :
  graphic c = true -> (n <= fuel)%nat ->
  strip space_encodings fuel (spaces n +:+ String c s) = String c s.
Proof.
  intros Hc. revert fuel. induction n as [|n IH]; intros fuel Hf.
  { by apply strip_graphic. }
  destruct fuel as [|fuel]; [lia|]. cbn [spaces]. rewrite append_cons, strip_space. apply IH. lia.
Qed.

Lemma visible_ends_cons s :
  visible_ends s = true ->
  exists c s' d s'', s = String c s' /\ graphic c = true /\ str_rev s = String d s'' /\ graphic d = true.
Proof.
  unfold visible_ends. destruct s as [|c s']; [done|]. cbn [first_byte].
  destruct (str_rev (String c s')) as [|d s'']; [done|]. cbn [first_byte].
  intros [Hc Hd]%andb_true_iff. eauto 10.
Qed.

Lemma TrimSpace_spaces n t : visible_ends t = true -> TrimSpace (spaces n +:+ t) = t.
Proof.
  intros (c & s & d & s' & -> & Hc & Hr & Hd)%visible_ends_cons. unfold TrimSpace.
  rewrite strip_spaces by (done || rewrite length_append, length_spaces; lia).
  rewrite Hr, strip_graphic, <- Hr by (done || vm_compute; done). apply str_rev_involutive.
Qed.

Lemma TrimSpace_visible t : visible_ends t = true -> TrimSpace t = t.
Proof. apply (TrimSpace_spaces 0). Qed.

Lemma visible_ends_append a m z :
  visible_ends a = true -> visible_ends z = true -> visible_ends (a +:+ (m +:+ z)) = true.
Proof.
  intros (c & a' & ? & ? & -> & Hc & _)%visible_ends_cons
         (? & ? & d & z' & _ & _ & Hr & Hd)%visible_ends_cons.
  unfold visible_ends. rewrite !str_rev_append, Hr, !append_cons. cbn [first_byte].
  by rewrite Hc, Hd.
Qed.

Lemma leadingSpaces_spaces n c s :
  graphic c = true -> leadingSpaces (spaces n +:+ String c s) = Z.of_nat n.
Proof.
  intros Hc. induction n as [|n IH].
  - cbn [spaces]. rewrite append_nil. cbn [leadingSpaces]. unfold graphic in Hc.
    by rewrite (proj2 (Z.eqb_neq _ _)) by lia.
  - cbn [spaces]. rewrite append_cons. cbn [leadingSpaces]. rewrite IH.
    change (byte_of " " =? 32) with true. cbv iota. lia.
Qed.

Lemma excludes_append bad a b : excludes bad (a +:+ b) = excludes bad a && excludes bad b.
Proof.
  unfold excludes. induction a as [|c a IH]; [done|]. rewrite append_cons. cbn.
  by rewrite IH, andb_assoc.
Qed.

Lemma excludes_spaces n bad : contains bad " " = false -> excludes bad (spaces n) = true.
Proof. intros H. induction n as [|n IH]; [done|]. cbn. by rewrite H. Qed.

Lemma excludes_weaken bad bad' s :
  (forall c, contains bad' c = true -> contains bad c = true) ->
  excludes bad s = true -> excludes bad' s = true.
Proof.
  intros H. unfold excludes. induction s as [|c s IH]; cbn; [done|].
  intros [Hc Hs]%andb_true_iff. rewrite (IH Hs), andb_true_r.
  destruct (contains bad' c) eqn:E; [|done]. by rewrite (H _ E) in Hc.
Qed.

Lemma excludes_contains bad s c : contains bad c = true -> excludes bad s = true -> contains s c = false.
Proof.
  intros Hc. unfold excludes. induction s as [|d s IH]; cbn; [done|].
  intros [Hd Hs]%andb_true_iff. rewrite (IH Hs), orb_false_r. apply Ascii.eqb_neq. intros ->.
  by rewrite Hc in Hd.
Qed.

Lemma last_byte_rev s d s' : str_rev s = String d s' -> last_byte s = Some d.
Proof.
  intros Hr. rewrite <- (str_rev_involutive s), Hr, str_rev_cons.
  generalize (str_rev s') as a. intros a. unfold last_byte.
  rewrite length_append. cbn [String.length].
  replace (String.length a + 1 - 1)%nat with (String.length a) by lia.
  induction a as [|c a IH]; [done|]. rewrite append_cons. cbn. exact IH.
Qed.

Lemma str_take_append a b : str_take (String.length a) (a +:+ b) = a.
Proof. induction a as [|c a IH]; [by destruct b|]. rewrite append_cons. cbn. by rewrite IH. Qed.

Lemma drop_cr_visible s d s' : str_rev s = String d s' -> graphic d = true -> drop_cr s = s.
Proof.
  intros Hr Hd. unfold drop_cr. rewrite (last_byte_rev _ _ _ Hr).
  rewrite bool_decide_false; [done|]. by intros [= ->].
Qed.

Lemma strip_comment_plain a z :
  excludes special a = true ->
  strip_comment_loop (a +:+ z) None = a +:+ strip_comment_loop z None.
Proof.
  unfold excludes. induction a as [|c a IH]; [done|]. rewrite !append_cons. cbn [str_forall].
  intros [Hc Ha]%andb_true_iff. cbn [strip_comment_loop]. rewrite IH by done.
  assert (Hq : forall d, contains special d = true -> c <> d) by (intros d Hd ->; by rewrite Hd in Hc).
  assert (Hn : forall k, contains special (ascii_of k) = true -> byte_of c <> byte_of (ascii_of k)).
  { intros k Hk E. apply (Hq _ Hk). rewrite <- (ascii_of_byte_of c), E. apply ascii_of_byte_of. }
  pose proof (Hn 34 eq_refl) as H1. pose proof (Hn 39 eq_refl) as H2. pose proof (Hn 35 eq_refl) as H3.
  change (byte_of (ascii_of 34)) with 34 in H1. change (byte_of (ascii_of 39)) with 39 in H2.
  change (byte_of (ascii_of 35)) with 35 in H3. unfold quote_char.
  by rewrite !(proj2 (Z.eqb_neq _ _)) by done.
Qed.

Lemma strip_comment_quoted v z :
  excludes (String newline (String dquote "")) v = true ->
  strip_comment_loop (v +:+ String dquote z) (Some dquote)
  = v +:+ String dquote (strip_comment_loop z None).
Proof.
  unfold excludes. induction v as [|c v IH]; [done|]. rewrite !append_cons. cbn [str_forall].
  intros [Hc Hv]%andb_true_iff. cbn [strip_comment_loop].
  destruct (Ascii.eqb_spec c dquote) as [->|]; [done|]. by rewrite IH.
Qed.

Lemma strip_comment_value q v :
  value_ok q v = true -> strip_comment_loop (value_text q v) None = value_text q v.
Proof.
  destruct q; cbn [value_ok value_text].
  - intros [_ Hv]%andb_true_iff. cbn [strip_comment_loop].
    change (quote_char dquote) with true. cbv iota. by rewrite strip_comment_quoted.
  - intros [_ Hv]%andb_true_iff. rewrite <- (append_nil_r v) at 1.
    rewrite strip_comment_plain by done. apply append_nil_r.
Qed.

Lemma visible_value q v : value_ok q v = true -> visible_ends (value_text q v) = true.
Proof.
  destruct q; cbn [value_ok value_text]; intros [Hv _]%andb_true_iff; [|done].
  unfold visible_ends. rewrite str_rev_cons, str_rev_append. done.
Qed.

Lemma unquote_value q v : value_ok q v = true -> unquote (value_text q v) = v.
Proof.
  intros Hok. destruct q; cbn [value_ok value_text] in *.
  - apply andb_true_iff in Hok as [Hne _]. destruct v as [|c v]; [done|].
    unfold unquote. rewrite append_cons. cbn [String.length].
    rewrite (last_byte_rev _ dquote (str_rev (String dquote (String c v)))).
    2:{ exact (str_rev_append (String dquote (String c v)) (String dquote "")). }
    rewrite bool_decide_true by done. change (quote_char dquote) with true. cbv iota.
    cbn [andb]. rewrite length_append. cbn [String.length].
    replace (S (S (String.length v + 1)) - 2)%nat with (String.length (String c v)) by (cbn; lia).
    apply (str_take_append (String c v)).
  - apply andb_true_iff in Hok as [_ Hv]. destruct v as [|c [|c' v]]; [done..|].
    cbn [unquote]. destruct (quote_char c) eqn:Eq; [|done]. exfalso.
    unfold excludes in Hv. cbn [str_forall] in Hv. apply andb_true_iff in Hv as [Hv _].
    unfold quote_char in Eq. apply orb_true_iff in Eq as [E|E]; apply Z.eqb_eq in E;
      rewrite <- (ascii_of_byte_of c), E in Hv; done.
Qed.

(** ** One line *)

Lemma key_ok_visible k : key_ok k = true -> visible_ends k = true.
Proof. by intros [? _]%andb_true_iff. Qed.

Lemma key_ok_excludes k bad :
  key_ok k = true -> (forall c, contains bad c = true -> contains (String ":" special) c = true) ->
  excludes bad k = true.
Proof. intros [_ H]%andb_true_iff Hb. by eapply excludes_weaken. Qed.

Lemma pop_frames_cons n f g st :
  pop_frames n (f :: g :: st) = if n <=? indent f then pop_frames n (g :: st) else f :: g :: st.
Proof. reflexivity. Qed.

Lemma pop_frames_le m n st :
  m <= n -> pop_frames m (pop_frames n st) = pop_frames m st.
Proof.
  intros Hmn. induction st as [|f [|g st] IH]; [done..|].
  rewrite (pop_frames_cons n). destruct (Z.leb_spec n (indent f)); [|done].
  rewrite IH, (pop_frames_cons m).
  by rewrite (proj2 (Z.leb_le _ _)) by lia.
Qed.

Lemma parse_line_entry ln depth k after p f st :
  key_ok k = true -> visible_ends (k +:+ String ":" after) = true ->
  pop_frames (Z.of_nat depth) (stack p) = f :: st ->
  parse_line ln (spaces depth +:+ (k +:+ String ":" after)) p =
  let val := unquote (TrimSpace after) in
  if bool_decide (val = "") then
    inr {| nodes := set_key k (Section_ (List.length (nodes p))) (fnode f) (nodes p) ++ [∅];
           stack := {| indent := Z.of_nat depth; fnode := List.length (nodes p) |} :: f :: st |}
  else inr {| nodes := set_key k (Scalar val) (fnode f) (nodes p); stack := f :: st |}.
Proof.
  intros Hk Hv Hpop. unfold parse_line. rewrite TrimSpace_spaces by done.
  destruct (visible_ends_cons _ Hv) as (c & s' & _ & _ & E & Hc & _).
  rewrite bool_decide_false by (by rewrite E).
  rewrite Cut_append by (apply (excludes_contains ":"); [done|]; apply key_ok_excludes; [done|];
    intros d; cbn; by intros [->|?]%orb_true_iff).
  rewrite E, leadingSpaces_spaces by done. rewrite (TrimSpace_visible k) by by apply key_ok_visible.
  rewrite Hpop. done.
Qed.

(** Reading one rendered line, whatever follows the colon. *)
Lemma parse_lines_entry ln depth k after p f st rest :
  key_ok k = true -> visible_ends (k +:+ String ":" after) = true ->
  strip_comment_loop after None = after ->
  line_ok (spaces depth +:+ (k +:+ String ":" after)) = true ->
  pop_frames (Z.of_nat depth) (stack p) = f :: st ->
  parse_lines ln ((spaces depth +:+ (k +:+ String ":" after)) :: rest) p =
  parse_lines (ln + 1) rest
    (let val := unquote (TrimSpace after) in
     if bool_decide (val = "") then
       {| nodes := set_key k (Section_ (List.length (nodes p))) (fnode f) (nodes p) ++ [∅];
          stack := {| indent := Z.of_nat depth; fnode := List.length (nodes p) |} :: f :: st |}
     else {| nodes := set_key k (Scalar val) (fnode f) (nodes p); stack := f :: st |}).
Proof.
  intros Hk Hv Hs Hl Hpop. cbn [parse_lines].
  replace (Nat.ltb max_line _) with false by
    (symmetry; apply Nat.ltb_ge; by apply Nat.leb_le).
  destruct (visible_ends_cons _ Hv) as (_ & _ & d & s' & _ & _ & Hr & Hd).
  rewrite (drop_cr_visible _ d (s' +:+ str_rev (spaces depth)))
    by (done || by rewrite str_rev_append, Hr).
  unfold stripComment. rewrite strip_comment_plain by by apply excludes_spaces.
  rewrite strip_comment_plain by (apply key_ok_excludes; [done|]; intros c Hc; cbn in Hc |- *;
    by rewrite Hc, orb_true_r).
  change (strip_comment_loop (String ":" after) None) with (String ":" (strip_comment_loop after None)).
  rewrite Hs, (parse_line_entry _ _ _ _ _ f st) by done.
  cbv zeta. by case_bool_decide.
Qed.

(** ** A whole document *)

Lemma holds_frame lo lo' t t' n d :
  (lo' <= lo)%nat -> (forall j m, (lo <= j)%nat -> t !! j = Some m -> t' !! j = Some m) ->
  holds lo t n d -> holds lo' t' n d.
Proof.
  intros Hlo Ht. revert n. induction d as [|k q v rest IH|k body IHb rest IHr]; intros n; cbn; [done|..].
  - intros [? ?]. auto.
  - intros [(c & m & Hc & Hl & Hm & Hd & Hb) Hr]. split; [|auto].
    exists c, m. split_and!; [done|lia|by apply Ht|done|auto].
Qed.

(** What reading the lines of [d] does to a parser: below the node on top of
    the (popped) stack, the entries of [d] are added. *)
Record added (t : tree) (p : nat) (m : node) (d : doc) (t' : tree) (m' : node) : Prop := {
  added_length : (List.length t <= List.length t')%nat;
  added_others : forall j, (j < List.length t)%nat -> j <> p -> t' !! j = t !! j;
  added_node : t' !! p = Some m';
  added_dom : dom m' = dom m ∪ list_to_set (keys d);
  added_rest : forall k, k ∉ keys d -> m' !! k = m !! k;
  added_holds : holds (List.length t) t' m' d
}.

Lemma added_leaf t p m k q v rest t' m' :
  k ∉ keys rest -> added (set_key k (Scalar v) p t) p (<[k := Scalar v]> m) rest t' m' ->
  added t p m (DLeaf k q v rest) t' m'.
Proof.
  intros Hk [Hl Ho Hn Hd Hr Hh]. unfold set_key in *. rewrite length_alter in Hl, Ho, Hh.
  split; cbn [keys holds]; [done| |done| | |].
  - intros j Hj Hjp. rewrite Ho by done. by apply list_lookup_alter_ne.
  - rewrite Hd, dom_insert_L, list_to_set_cons. by rewrite (comm_L _ {[k]}), assoc_L by apply _.
  - intros k' [? ?]%not_elem_of_cons. rewrite Hr by done. by apply lookup_insert_ne.
  - split; [|done]. rewrite Hr by done. apply lookup_insert_eq.
Qed.

Lemma added_section t p m k body rest t2 m2 t3 m3 :
  t !! p = Some m -> k ∉ keys rest ->
  let c := List.length t in
  added (set_key k (Section_ c) p t ++ [∅]) c ∅ body t2 m2 ->
  added t2 p (<[k := Section_ c]> m) rest t3 m3 ->
  added t p m (DSection k body rest) t3 m3.
Proof.
  intros Hp Hk c [Hl2 Ho2 Hn2 Hd2 _ Hh2] [Hl3 Ho3 Hn3 Hd3 Hr3 Hh3].
  pose proof (lookup_lt_Some _ _ _ Hp) as Hpc. unfold set_key in *.
  rewrite length_app, length_alter in Hl2, Ho2, Hh2. cbn [List.length] in Hl2, Ho2, Hh2.
  fold c in Hl2, Ho2, Hh2, Hpc.
  split; cbn [keys holds]; [lia| |done| | |].
  - intros j Hj Hjp. rewrite Ho3, Ho2 by lia.
    rewrite lookup_app_l by by rewrite length_alter. by apply list_lookup_alter_ne.
  - rewrite Hd3, dom_insert_L. set_solver.
  - intros k' [? ?]%not_elem_of_cons. rewrite Hr3 by done. by apply lookup_insert_ne.
  - split; [|by eapply holds_frame; [| |exact Hh3]; [lia|]].
    exists c, m2. split_and!.
    + rewrite Hr3 by done. apply lookup_insert_eq.
    + done.
    + rewrite Ho3 by lia. done.
    + rewrite Hd2. set_solver.
    + eapply holds_frame; [| |exact Hh2]; [lia|].
      intros j mj Hj Hm. rewrite Ho3; [done|by eapply lookup_lt_Some|lia].
Qed.

Lemma visible_entry_leaf k q v :
  key_ok k = true -> value_ok q v = true ->
  visible_ends (k +:+ String ":" (String " " (value_text q v))) = true.
Proof.
  intros Hk Hv. apply (visible_ends_append k ": ");
    [by apply key_ok_visible|by apply visible_value].
Qed.

Lemma visible_entry_section k : key_ok k = true -> visible_ends (k +:+ ":") = true.
Proof. intros Hk. apply (visible_ends_append k ""); [by apply key_ok_visible|done]. Qed.

Lemma parse_render d : forall ln depth t st rest f F m,
  entries_ok d = true -> forallb line_ok (render depth d) = true ->
  pop_frames (Z.of_nat depth) st = f :: F -> t !! fnode f = Some m ->
  exists st' t' m',
    parse_lines ln (render depth d ++ rest) {| nodes := t; stack := st |}
    = parse_lines (ln + zlen (render depth d)) rest {| nodes := t'; stack := st' |} /\
    pop_frames (Z.of_nat depth) st' = f :: F /\ added t (fnode f) m d t' m'.
Proof.
  induction d as [|k q v dr IH|k body IHb dr IHr]; intros ln depth t st rest f F m Hok Hl Hpop Hm.
  - exists st, t, m. cbn. rewrite Z.add_0_r. split_and!; [done..|].
    split; cbn; [done..|set_solver|done|done].
  - cbn in Hok, Hl. rewrite !andb_true_iff, negb_true_iff, bool_decide_eq_false in Hok.
    destruct Hok as (((Hk & Hv) & Hnd) & Hr). apply andb_true_iff in Hl as [Hl1 Hl].
    cbn [render]. rewrite <- app_comm_cons, (parse_lines_entry _ _ _ _ _ f F);
      [|done|by apply visible_entry_leaf| |done|done].
    2:{ cbn. f_equal. by apply strip_comment_value. }
    cbv zeta. change (String " " (value_text q v)) with (spaces 1 +:+ value_text q v).
    rewrite TrimSpace_spaces by by apply visible_value.
    rewrite unquote_value by done. rewrite bool_decide_false by (intros ->; by destruct q).
    destruct (IH (ln + 1) depth (set_key k (Scalar v) (fnode f) t) (f :: F) rest f F
      (<[k := Scalar v]> m)) as (st' & t' & m' & E & Hpop' & Hadd); [done|done| | |].
    + rewrite <- Hpop. apply pop_frames_le. lia.
    + unfold set_key. by rewrite list_lookup_alter_eq, Hm.
    + exists st', t', m'. cbn [nodes]. rewrite E, zlen_cons. split_and!; [f_equal; lia|done|].
      by apply added_leaf.
  - cbn in Hok, Hl. rewrite !andb_true_iff, negb_true_iff, bool_decide_eq_false in Hok.
    destruct Hok as (((Hk & Hnd) & Hb) & Hr). apply andb_true_iff in Hl as [Hl1 Hl].
    rewrite forallb_app in Hl. apply andb_true_iff in Hl as [Hlb Hlr].
    cbn [render]. rewrite <- app_comm_cons, (parse_lines_entry _ _ _ _ _ f F);
      [|done|by apply visible_entry_section|done|done|done].
    cbv zeta. change (unquote (TrimSpace "")) with "". rewrite bool_decide_true by done. cbn [nodes].
    set (c := List.length t). set (fr := {| indent := Z.of_nat depth; fnode := c |}).
    assert (Hpc : (fnode f < c)%nat) by by eapply lookup_lt_Some.
    assert (Hc : List.length (set_key k (Section_ c) (fnode f) t) = c) by apply length_alter.
    destruct (IHb (ln + 1) (depth + 2)%nat (set_key k (Section_ c) (fnode f) t ++ [∅])
      (fr :: f :: F) (render depth dr ++ rest) fr (f :: F) ∅) as (st2 & t2 & m2 & E2 & Hpop2 & A2);
      [done|done| | |].
    { rewrite pop_frames_cons, (proj2 (Z.leb_gt _ _)); [done|]. cbn. lia. }
    { cbn. rewrite lookup_app_r by lia. by rewrite Hc, Nat.sub_diag. }
    destruct (IHr (ln + 1 + zlen (render (depth + 2) body)) depth t2 st2 rest f F
      (<[k := Section_ c]> m)) as (st3 & t3 & m3 & E3 & Hpop3 & A3); [done|done| | |].
    { rewrite <- (pop_frames_le _ (Z.of_nat (depth + 2))), Hpop2 by lia.
      rewrite pop_frames_cons, (proj2 (Z.leb_le _ _)) by (cbn; lia).
      rewrite <- Hpop. apply pop_frames_le. lia. }
    { rewrite (added_others _ _ _ _ _ _ A2) by (rewrite ?length_app, ?Hc; cbn; lia).
      rewrite lookup_app_l by lia. unfold set_key. by rewrite list_lookup_alter_eq, Hm. }
    exists st3, t3, m3. rewrite <- app_assoc, E2, E3, zlen_cons, zlen_app.
    split_and!; [f_equal; lia|done|]. by eapply added_section.
Qed.

(** The scanner gives the lines back. *)
Lemma Split_line l s sep : contains l sep = false -> Split (l +:+ String sep s) sep = l :: Split s sep.
Proof.
  induction l as [|c l IH].
  { intros _. rewrite append_nil. cbn [Split]. by rewrite Ascii.eqb_refl. }
  rewrite append_cons. cbn [contains Split]. intros [Hc Hl]%orb_false_iff. by rewrite Hc, IH.
Qed.

Lemma raw_lines_of ls :
  Forall (fun l => contains l newline = false) ls -> raw_lines (lines_of ls) = ls.
Proof.
  intros Hls. unfold raw_lines.
  assert (E : Split (lines_of ls) newline = ls ++ [""]).
  { induction Hls as [|l ls Hl _ IH]; [done|]. cbn [lines_of foldr].
    rewrite Split_line by done. unfold lines_of in IH. by rewrite IH. }
  rewrite E, last_snoc, bool_decide_true by done. apply removelast_last.
Qed.

Lemma excludes_one c s : excludes (String c "") s = true -> contains s c = false.
Proof. apply excludes_contains. cbn [contains]. by rewrite Ascii.eqb_refl. Qed.

Lemma key_no_newline k : key_ok k = true -> excludes (String newline "") k = true.
Proof.
  intros Hk. apply key_ok_excludes; [done|]. intros c. cbn. by intros [->|?]%orb_true_iff; rewrite ?orb_true_r.
Qed.

Lemma value_no_newline q v : value_ok q v = true -> excludes (String newline "") (value_text q v) = true.
Proof.
  destruct q; cbn [value_ok value_text]; intros [_ Hv]%andb_true_iff.
  - change (String dquote (v +:+ String dquote "")) with (String dquote "" +:+ (v +:+ String dquote "")).
    rewrite !excludes_append. cbn. rewrite andb_true_r. eapply excludes_weaken; [|exact Hv].
    intros c. cbn. by intros [->|?]%orb_true_iff.
  - eapply excludes_weaken; [|exact Hv]. intros c. cbn. by intros [->|?]%orb_true_iff.
Qed.

Lemma render_no_newline d : forall depth,
  entries_ok d = true -> Forall (fun l => contains l newline = false) (render depth d).
Proof.
  induction d as [|k q v rest IH|k body IHb rest IHr]; intros depth Hok; cbn [render]; [constructor|..].
  - cbn in Hok. rewrite !andb_true_iff in Hok. destruct Hok as (((Hk & Hv) & _) & Hr).
    apply Forall_cons. split; [|by apply IH]. apply excludes_one.
    change (String ":" (String " " (value_text q v))) with (": " +:+ value_text q v).
    by rewrite !excludes_append, excludes_spaces, key_no_newline, value_no_newline.
  - cbn in Hok. rewrite !andb_true_iff in Hok. destruct Hok as (((Hk & _) & Hb) & Hr).
    apply Forall_cons. split; [|apply Forall_app; split; [by apply IHb|by apply IHr]].
    apply excludes_one. by rewrite !excludes_append, excludes_spaces, key_no_newline.
Qed.

(** ** Properties *)

(** C21: reading a configuration file gives back what was written.  For every
    document of sections and scalars nested to any depth (keys unique in their
    section; plain texts without comment and quotation characters, quoted
    texts without a quotation mark; lines within the scanner's limit), the
    parser accepts its rendering and the tree has, section by section, exactly
    the document's keys and values. *)
Theorem config_file_roundtrip (d : doc) (Hd : doc_ok d = true) :
  exists t root, parseTree (lines_of (render 0 d)) = inr t /\ t !! 0%nat = Some root /\
    dom root = list_to_set (keys d) /\ holds 1 t root d.
Proof.
  unfold doc_ok in Hd. apply andb_true_iff in Hd as [Hok Hl].
  destruct (parse_render d 1 0 [∅] (stack start_parser) [] {| indent := -1; fnode := 0 |} [] ∅)
    as (st & t & m & E & _ & A); [done..|].
  exists t, m. unfold parseTree. rewrite raw_lines_of by by apply render_no_newline.
  rewrite app_nil_r in E. split_and!.
  - exact E.
  - apply (added_node _ _ _ _ _ _ A).
  - rewrite (added_dom _ _ _ _ _ _ A). set_solver.
  - apply (added_holds _ _ _ _ _ _ A).
Qed.

Definition ex_doc : doc :=
  DSection "server" (DLeaf "client_port" false "8443"
     (DSection "tls" (DLeaf "cert_file" true "a#b: c.pem" DNil) DNil))
  (DSection "defaults" (DLeaf "refill_interval" false "1m30s" DNil)
  (DLeaf "x" true " " DNil)).

Lemma config_file_roundtrip_witness :
  exists t root, parseTree (lines_of (render 0 ex_doc)) = inr t /\ t !! 0%nat = Some root /\
    dom root = list_to_set (keys ex_doc) /\ holds 1 t root ex_doc.
Proof. apply config_file_roundtrip. vm_compute. reflexivity. Defined.
