(* ===== verification/GoJSON.v ===== *)
(** * encoding/json, as far as request bodies need it

    A decoder for one JSON value, as [json.Decoder] reads it from a string:
    what follows the first value is not looked at.  Strings are unescaped, and
    invalid UTF-8 is replaced, as in Go. *)

From Stdlib Require Import ZArith Lia Ascii String.
From stdpp Require Import base tactics strings numbers list.
From S2P Require Import Prelude GoString SHA256 GoParse Security.

Local Open Scope Z_scope.

Local Set Warnings "-register-all".

Inductive json :=
| JNull
| JBool (b : bool)
| JNum (literal : string)
| JStr (s : string)
| JArr (l : list json)
| JObj (l : list (string * json)).

Definition json_space (c : ascii) : bool :=
  let b := byte_of c in (b =? 32) || (b =? 9) || (b =? 13) || (b =? 10).

Fixpoint skip_ws (s : string) : string :=
  match s with
  | String c s' => if json_space c then skip_ws s' else s
  | EmptyString => s
  end.

(** ** Strings *)

(** Up to the closing quotation mark: the raw bytes, escapes included. *)
Fixpoint lex_string (s : string) : option (string * string) :=
  match s with
  | EmptyString => None
  | String c s' =>
      let b := byte_of c in
      if b =? 34 then Some (""%string, s')
      else if b <? 32 then None
      else if b =? 92 then
        match s' with
        | EmptyString => None
        | String e s'' =>
            '(r, rest) ← lex_string s''; Some (String c (String e r), rest)
        end
      else '(r, rest) ← lex_string s'; Some (String c r, rest)
  end.

Definition hex_val (b : Z) : option Z :=
  if (48 <=? b) && (b <=? 57) then Some (b - 48)
  else if (97 <=? b) && (b <=? 102) then Some (b - 87)
  else if (65 <=? b) && (b <=? 70) then Some (b - 55)
  else None.

Definition hex4 (bs : list Z) : option (Z * list Z) :=
  match bs with
  | a :: b :: c :: d :: rest =>
      a ← hex_val a; b ← hex_val b; c ← hex_val c; d ← hex_val d;
      Some (((a * 16 + b) * 16 + c) * 16 + d, rest)
  | _ => None
  end.

Definition simple_escape (b : Z) : option Z :=
  if (b =? 34) || (b =? 92) || (b =? 47) then Some b
  else if b =? 98 then Some 8
  else if b =? 102 then Some 12
  else if b =? 110 then Some 10
  else if b =? 114 then Some 13
  else if b =? 116 then Some 9
  else None.

Definition is_high (r : Z) : bool := (0xD800 <=? r) && (r <? 0xDC00).
Definition is_low (r : Z) : bool := (0xDC00 <=? r) && (r <? 0xE000).

(** The escapes of a raw string undone; a lone surrogate becomes U+FFFD. *)
Fixpoint unescape (fuel : nat) (bs : list Z) : option (list Z) :=
  match fuel, bs with
  | _, [] => Some []
  | O, _ => None
  | S fuel, b :: rest =>
      if b =? 92 then
        match rest with
        | 117 :: rest =>
            '(r, rest) ← hex4 rest;
            if is_high r then
              match rest with
              | 92 :: 117 :: rest' =>
                  match hex4 rest' with
                  | Some (r2, rest'') =>
                      if is_low r2 then
                        app (encode_rune (0x10000 + (r - 0xD800) * 1024 + (r2 - 0xDC00)))
                          <$> unescape fuel rest''
                      else app (encode_rune RuneError) <$> unescape fuel rest
                  | None => None
                  end
              | _ => app (encode_rune RuneError) <$> unescape fuel rest
              end
            else app (encode_rune (if is_low r then RuneError else r)) <$> unescape fuel rest
        | e :: rest => c ← simple_escape e; cons c <$> unescape fuel rest
        | [] => None
        end
      else
        let '(r, width) := decode_rune bs in
        app (encode_rune r) <$> unescape fuel (drop (width - 1) rest)
  end.

Definition read_string (s : string) : option (string * string) :=
  '(raw, rest) ← lex_string s;
  bs ← unescape (S (String.length raw)) (bytes_of raw);
  Some (string_of bs, rest).

(** ** Numbers *)

Fixpoint span (f : ascii -> bool) (s : string) : string * string :=
  match s with
  | String c s' => if f c then let '(a, r) := span f s' in (String c a, r) else (""%string, s)
  | EmptyString => (""%string, s)
  end.

Definition one_of (cs : string) (s : string) : string * string :=
  match s with
  | String c s' => if contains cs c then (String c "", s') else (""%string, s)
  | EmptyString => (""%string, s)
  end.

Definition read_number (s : string) : option (string * string) :=
  let '(sign, s) := one_of "-" s in
  let '(int, s) := match s with
                   | String "0" s' => ("0"%string, s')
                   | _ => span is_digit s
                   end in
  if bool_decide (int = ""%string) then None
  else
    let '(dot, s1) := one_of "." s in
    let '(frac, s1) := if bool_decide (dot = ""%string) then (""%string, s) else span is_digit s1 in
    if bool_decide (dot <> ""%string /\ frac = ""%string) then None
    else
      let '(e, s2) := one_of "eE" s1 in
      if bool_decide (e = ""%string) then Some ((sign ++ int ++ dot ++ frac)%string, s1)
      else
        let '(esign, s2) := one_of "+-" s2 in
        let '(exp, s2) := span is_digit s2 in
        if bool_decide (exp = ""%string) then None
        else Some ((sign ++ int ++ dot ++ frac ++ e ++ esign ++ exp)%string, s2).

(** ** Values *)

Definition literal (lit : string) (v : json) (s : string) : option (json * string) :=
  if HasPrefix s lit then Some (v, str_drop (String.length lit) s) else None.

(** A punctuation mark after white space. *)
Definition expect (c : ascii) (s : string) : option string :=
  match skip_ws s with
  | String d rest => if Ascii.eqb d c then Some rest else None
  | EmptyString => None
  end.

Fixpoint read_value (fuel : nat) (s : string) : option (json * string) :=
  match fuel with
  | O => None
  | S fuel =>
      match skip_ws s with
      | EmptyString => None
      | String c s' as s =>
          let b := byte_of c in
          if b =? 123 then
            match expect "}" s' with
            | Some rest => Some (JObj [], rest)
            | None => '(l, rest) ← read_members fuel s'; Some (JObj l, rest)
            end
          else if b =? 91 then
            match expect "]" s' with
            | Some rest => Some (JArr [], rest)
            | None => '(l, rest) ← read_elements fuel s'; Some (JArr l, rest)
            end
          else if b =? 34 then '(x, rest) ← read_string s'; Some (JStr x, rest)
          else if b =? 116 then literal "true" (JBool true) s
          else if b =? 102 then literal "false" (JBool false) s
          else if b =? 110 then literal "null" JNull s
          else '(n, rest) ← read_number s; Some (JNum n, rest)
      end
  end
with read_members (fuel : nat) (s : string) : option (list (string * json) * string) :=
  match fuel with
  | O => None
  | S fuel =>
      s0 ← expect "034" s;
      '(k, s1) ← read_string s0;
      s2 ← expect ":" s1;
      '(v, s3) ← read_value fuel s2;
      match expect "}" s3 with
      | Some rest => Some ([(k, v)], rest)
      | None =>
          s4 ← expect "," s3;
          '(l, rest) ← read_members fuel s4;
          Some ((k, v) :: l, rest)
      end
  end
with read_elements (fuel : nat) (s : string) : option (list json * string) :=
  match fuel with
  | O => None
  | S fuel =>
      '(v, s1) ← read_value fuel s;
      match expect "]" s1 with
      | Some rest => Some ([v], rest)
      | None =>
          s2 ← expect "," s1;
          '(l, rest) ← read_elements fuel s2;
          Some (v :: l, rest)
      end
  end.

(** Enough ([read_value_fuel] below): more fuel changes nothing. *)
Definition json_fuel (s : string) : nat := 2 * String.length s + 2.

Definition decode_first (s : string) : option json := fst <$> read_value (json_fuel s) s.

(** ** Fields *)

(** Field names match up to case; the Kelvin sign and the long s fold to
    ASCII letters. *)
Fixpoint fold_name (fuel : nat) (bs : list Z) : list Z :=
  match fuel, bs with
  | S fuel, _ :: _ =>
      let '(r, width) := decode_rune bs in
      let r := if (97 <=? r) && (r <=? 122) then r - 32
               else if r =? 0x212A then 75 else if r =? 0x17F then 83 else r in
      r :: fold_name fuel (drop width bs)
  | _, _ => []
  end.

Definition same_field (k name : string) : bool :=
  bool_decide (fold_name (String.length k) (bytes_of k)
               = fold_name (String.length name) (bytes_of name)).

(** Storing a value in a field of each type the requests have; [null] leaves a
    field alone and empties a pointer. *)
Definition put_string (v : json) (old : string) : option string :=
  match v with JStr s => Some s | JNull => Some old | _ => None end.

Definition put_bool (v : json) (old : bool) : option bool :=
  match v with JBool b => Some b | JNull => Some old | _ => None end.

Definition put_int64 (v : json) (old : Z) : option Z :=
  match v with JNum n => ParseInt n | JNull => Some old | _ => None end.

Definition put_int64_ptr (v : json) : option (option Z) :=
  match v with JNum n => Some <$> ParseInt n | JNull => Some None | _ => None end.

(** [Decode] into a struct: [put k v r] stores one member.  A member that
    cannot be stored makes [Decode] fail. *)
Definition decode_struct {A} (put : string -> json -> A -> option A) (zero : A) (s : string) : option A :=
  match decode_first s with
  | Some JNull => Some zero
  | Some (JObj l) => foldl (fun acc '(k, v) => acc ≫= put k v) (Some zero) l
  | _ => None
  end.

(** A quotation mark, to write JSON texts with [']. *)
Fixpoint quotes (s : string) : string :=
  match s with
  | String c s => String (if Ascii.eqb c "'" then "034"%char else c) (quotes s)
  | EmptyString => EmptyString
  end.

Example ex_decode :
  decode_first (quotes " { 'a' : [1, -2.5e+3, '\u0041\n\ud83d\ude00'], 'b':{'c':null} } trailing")
  = Some (JObj [("a"%string, JArr [JNum "1"; JNum "-2.5e+3";
                  JStr (string_of [65; 10; 240; 159; 152; 128])]);
                ("b"%string, JObj [("c"%string, JNull)])]).
Proof. vm_compute. done. Qed.

Example ex_errors :
  map decode_first [""; "{"; "01x"; "{,}"; "[1,]"; "tru"; "-"; "1."; "1e"]%string
  = [None; None; Some (JNum "0"); None; None; None; None; None; None].
Proof. vm_compute. done. Qed.

(** ** The fuel is enough *)

Lemma skip_ws_le s : (String.length (skip_ws s) <= String.length s)%nat.
Proof. induction s as [|c s IH]; cbn; [lia|]. destruct (json_space c); cbn; lia. Qed.

Lemma expect_lt c s r : expect c s = Some r -> (String.length r < String.length s)%nat.
Proof.
  unfold expect. pose proof (skip_ws_le s) as Hs. destruct (skip_ws s) as [|d s']; [done|].
  destruct (Ascii.eqb d c); [|done]. intros [= <-]. cbn in Hs. lia.
Qed.

Lemma lex_string_lt s : forall raw r,
  lex_string s = Some (raw, r) -> (String.length r < String.length s)%nat.
Proof.
  enough (H : forall n s raw r, (String.length s <= n)%nat -> lex_string s = Some (raw, r) ->
            (String.length r < String.length s)%nat) by (intros raw r E; by apply (H (String.length s) s raw r)).
  clear s. induction n as [|n IH]; intros [|c s] raw r Hn; cbn in Hn |- *; try done; [lia|].
  destruct (byte_of c =? 34); [intros [= <- <-]; lia|]. destruct (byte_of c <? 32); [done|].
  destruct (byte_of c =? 92).
  - destruct s as [|e s]; [done|]. destruct (lex_string s) as [[x y]|] eqn:E; [|done].
    intros [= <- <-]. apply IH in E; cbn in *; lia.
  - destruct (lex_string s) as [[x y]|] eqn:E; [|done].
    intros [= <- <-]. apply IH in E; lia.
Qed.

Lemma read_string_lt s x r : read_string s = Some (x, r) -> (String.length r < String.length s)%nat.
Proof.
  unfold read_string. destruct (lex_string s) as [[raw rest]|] eqn:E; [|done].
  cbn [mbind option_bind]. destruct (unescape (S (String.length raw)) (bytes_of raw)); [|done].
  cbn [mbind option_bind]. intros [= _ <-]. by eapply lex_string_lt.
Qed.

Lemma span_le f s : (String.length (span f s).2 <= String.length s)%nat.
Proof.
  induction s as [|c s IH]; cbn; [lia|]. destruct (f c); [|cbn; lia].
  destruct (span f s). cbn in *. lia.
Qed.

Lemma one_of_le cs s : (String.length (one_of cs s).2 <= String.length s)%nat.
Proof. destruct s as [|c s]; cbn; [lia|]. destruct (contains cs c); cbn; lia. Qed.

Lemma str_drop_le n s : (String.length (str_drop n s) <= String.length s)%nat.
Proof. revert s. induction n as [|n IH]; intros [|c s]; cbn; try lia. specialize (IH s). lia. Qed.

Lemma read_number_le s x r : read_number s = Some (x, r) -> (String.length r <= String.length s)%nat.
Proof.
  unfold read_number. pose proof (one_of_le "-" s) as L1. destruct (one_of "-" s) as [sign s1]. cbn in L1.
  set (int := match s1 with String "0" s' => ("0"%string, s') | _ => span is_digit s1 end).
  assert (L2 : (String.length int.2 <= String.length s1)%nat).
  { pose proof (span_le is_digit s1). unfold int. destruct s1 as [|[[] [] [] [] [] [] [] []] s1]; cbn in *; lia. }
  destruct int as [i s2]. cbn in L2. case_bool_decide; [done|].
  pose proof (one_of_le "." s2) as L3. destruct (one_of "." s2) as [dot s3]. cbn in L3.
  set (frac := if bool_decide (dot = ""%string) then (""%string, s2) else span is_digit s3).
  assert (L4 : (String.length frac.2 <= String.length s2)%nat).
  { pose proof (span_le is_digit s3). unfold frac. case_bool_decide; cbn; lia. }
  destruct frac as [fr s4]. cbn in L4. case_bool_decide; [done|].
  pose proof (one_of_le "eE" s4) as L5. destruct (one_of "eE" s4) as [e s5]. cbn in L5.
  case_bool_decide; [intros [= _ <-]; lia|].
  pose proof (one_of_le "+-" s5) as L6. destruct (one_of "+-" s5) as [es s6]. cbn in L6.
  pose proof (span_le is_digit s6) as L7. destruct (span is_digit s6) as [ex s7]. cbn in L7.
  case_bool_decide; [done|]. intros [= _ <-]. lia.
Qed.

Lemma literal_le lit v s x r : literal lit v s = Some (x, r) -> (String.length r <= String.length s)%nat.
Proof. unfold literal. destruct (HasPrefix s lit); [|done]. intros [= _ <-]. apply str_drop_le. Qed.

(** Nothing reads past the end. *)
Lemma read_le f :
  (forall s v r, read_value f s = Some (v, r) -> (String.length r <= String.length s)%nat) /\
  (forall s v r, read_members f s = Some (v, r) -> (String.length r <= String.length s)%nat) /\
  (forall s v r, read_elements f s = Some (v, r) -> (String.length r <= String.length s)%nat).
Proof.
  induction f as [|f (IHv & IHm & IHe)]; [by split_and!|].
  split_and!; intros s v r; cbn [read_value read_members read_elements].
  - pose proof (skip_ws_le s) as Hs. destruct (skip_ws s) as [|c s'] eqn:Es; [done|]. cbn in Hs.
    destruct (byte_of c =? 123).
    { destruct (expect "}" s') eqn:E; [intros [= _ <-]; apply expect_lt in E; lia|].
      destruct (read_members f s') as [[l r']|] eqn:E'; [|done]. intros [= _ <-]. apply IHm in E'. lia. }
    destruct (byte_of c =? 91).
    { destruct (expect "]" s') eqn:E; [intros [= _ <-]; apply expect_lt in E; lia|].
      destruct (read_elements f s') as [[l r']|] eqn:E'; [|done]. intros [= _ <-]. apply IHe in E'. lia. }
    destruct (byte_of c =? 34).
    { destruct (read_string s') as [[x r']|] eqn:E; [|done]. intros [= _ <-].
      apply read_string_lt in E. lia. }
    do 3 (destruct (_ =? _); [intros E; apply literal_le in E; cbn in E; lia|]).
    destruct (read_number _) as [[x r']|] eqn:E; [|done]. intros [= _ <-].
    apply read_number_le in E. cbn in E. lia.
  - destruct (expect "034" s) as [s0|] eqn:E0; [|done]. apply expect_lt in E0. cbn [mbind option_bind].
    destruct (read_string s0) as [[k s1]|] eqn:E1; [|done]. apply read_string_lt in E1. cbn [mbind option_bind].
    destruct (expect ":" s1) as [s2|] eqn:E2; [|done]. apply expect_lt in E2. cbn [mbind option_bind].
    destruct (read_value f s2) as [[x s3]|] eqn:E3; [|done]. apply IHv in E3. cbn [mbind option_bind].
    destruct (expect "}" s3) eqn:E4; [intros [= _ <-]; apply expect_lt in E4; lia|].
    destruct (expect "," s3) as [s4|] eqn:E5; [|done]. apply expect_lt in E5. cbn [mbind option_bind].
    destruct (read_members f s4) as [[l r']|] eqn:E6; [|done]. intros [= _ <-]. apply IHm in E6. lia.
  - destruct (read_value f s) as [[x s3]|] eqn:E3; [|done]. apply IHv in E3. cbn [mbind option_bind].
    destruct (expect "]" s3) eqn:E4; [intros [= _ <-]; apply expect_lt in E4; lia|].
    destruct (expect "," s3) as [s4|] eqn:E5; [|done]. apply expect_lt in E5. cbn [mbind option_bind].
    destruct (read_elements f s4) as [[l r']|] eqn:E6; [|done]. intros [= _ <-]. apply IHe in E6. lia.
Qed.

Lemma read_enough k : forall f g, (k <= f)%nat -> (k <= g)%nat ->
  (forall s, (2 * String.length s + 1 <= k)%nat -> read_value f s = read_value g s) /\
  (forall s, (2 * String.length s + 1 <= k)%nat -> read_members f s = read_members g s) /\
  (forall s, (2 * String.length s + 2 <= k)%nat -> read_elements f s = read_elements g s).
Proof.
  induction k as [|k IH]; intros f g Hf Hg; [split_and!; intros; lia|].
  destruct f as [|f]; [lia|]. destruct g as [|g]; [lia|].
  destruct (IH f g ltac:(lia) ltac:(lia)) as (IHv & IHm & IHe). clear IH.
  split_and!; intros s Hs; cbn [read_value read_members read_elements].
  - pose proof (skip_ws_le s) as Hw. destruct (skip_ws s) as [|c s']; [done|]. cbn in Hw.
    by rewrite (IHm s'), (IHe s') by lia.
  - destruct (expect "034" s) as [s0|] eqn:E0; [|done]. apply expect_lt in E0. cbn [mbind option_bind].
    destruct (read_string s0) as [[kk s1]|] eqn:E1; [|done]. apply read_string_lt in E1. cbn [mbind option_bind].
    destruct (expect ":" s1) as [s2|] eqn:E2; [|done]. apply expect_lt in E2. cbn [mbind option_bind].
    rewrite (IHv s2) by lia.
    destruct (read_value g s2) as [[x s3]|] eqn:E3; [|done]. apply read_le in E3. cbn [mbind option_bind].
    destruct (expect "}" s3); [done|]. destruct (expect "," s3) as [s4|] eqn:E5; [|done].
    apply expect_lt in E5. cbn [mbind option_bind]. by rewrite (IHm s4) by lia.
  - rewrite (IHv s) by lia.
    destruct (read_value g s) as [[x s3]|] eqn:E3; [|done]. apply read_le in E3. cbn [mbind option_bind].
    destruct (expect "]" s3); [done|]. destruct (expect "," s3) as [s4|] eqn:E5; [|done].
    apply expect_lt in E5. cbn [mbind option_bind]. by rewrite (IHe s4) by lia.
Qed.

Lemma read_value_fuel f s :
  (json_fuel s <= f)%nat -> read_value f s = read_value (json_fuel s) s.
Proof. intros Hf. apply (read_enough (json_fuel s)); unfold json_fuel in *; lia. Qed.
