(* ===== verification/GoHTTP.v ===== *)
(** * net and net/http, as far as the servers use them

    Requests, header lookup, [net.SplitHostPort], and [http.ServeMux] as it is
    since Go 1.22: the cleaning of paths, which redirects the request of any
    other path, the decoding of segments, and the patterns. *)

From Stdlib Require Import ZArith Lia Ascii String.
From stdpp Require Import base tactics gmap strings numbers list.
From S2P Require Import Prelude GoString SHA256.

Local Open Scope string_scope.
Local Open Scope Z_scope.

(** ** Headers *)

Definition to_upper (c : ascii) : ascii :=
  let b := byte_of c in if (97 <=? b) && (b <=? 122) then ascii_of (b - 32) else c.
Definition to_lower (c : ascii) : ascii :=
  let b := byte_of c in if (65 <=? b) && (b <=? 90) then ascii_of (b + 32) else c.

(** [textproto.CanonicalMIMEHeaderKey] on a valid header name: letters after
    the start and after a hyphen are capitals. *)
Fixpoint canonical_from (up : bool) (s : string) : string :=
  match s with
  | EmptyString => ""
  | String c s => String ((if up then to_upper else to_lower) c) (canonical_from (byte_of c =? 45) s)
  end.
Definition CanonicalHeaderKey (s : string) : string := canonical_from true s.

Abbreviation Header := (gmap string (list string)) (only parsing).

(** [h.Get(key)]: the first value, or the empty string. *)
Definition header_get (h : gmap string (list string)) (key : string) : string :=
  default "" (h !! CanonicalHeaderKey key ≫= head).

(** ** Requests *)

(** What reading the body gives; [Broken] is a read that fails. *)
Inductive body := NoBody | Data (s : string) | Broken.

Record Request := {
  Method : string;
  RequestURI : string;
  EscapedPath : string;                (* r.URL.EscapedPath() *)
  Headers : gmap string (list string);
  RemoteAddr : string;
  ContentLength : Z;
  Body : body;
  PathValues : gmap string string;
  PeerNames : option (list string)     (* the common names of r.TLS's peer certificates *)
}.

Definition PathValue (r : Request) (name : string) : string := default "" (PathValues r !! name).

Definition set_PathValues v (r : Request) : Request :=
  {| Method := Method r; RequestURI := RequestURI r; EscapedPath := EscapedPath r; Headers := Headers r; RemoteAddr := RemoteAddr r;
     ContentLength := ContentLength r; Body := Body r; PathValues := v; PeerNames := PeerNames r |}.

(** ** Addresses *)

(** The text before and after the last occurrence of a byte. *)
Fixpoint cut_last (s : string) (sep : ascii) : option (string * string) :=
  match s with
  | EmptyString => None
  | String c s' =>
      match cut_last s' sep with
      | Some (a, b) => Some (String c a, b)
      | None => if Ascii.eqb c sep then Some ("", s') else None
      end
  end.

(** [net.SplitHostPort]; [None] is an error. *)
Definition SplitHostPort (hostport : string) : option (string * string) :=
  match cut_last hostport ":" with
  | None => None
  | Some (before, port) =>
      match before with
      | String "[" inner =>
          (* the first ']' must be the last character before the colon *)
          match Cut inner "]" with
          | (host, "", true) =>
              if contains host "[" || contains port "[" || contains port "]" then None
              else Some (host, port)
          | _ => None
          end
      | _ =>
          if contains before ":" || contains hostport "[" || contains hostport "]" then None
          else Some (before, port)
      end
  end.

Example ex_split :
  map SplitHostPort ["10.0.0.1:80"; "[::1]:8080"; "::1"; "host"; "[::1]"; "[a]b:1"; ":80"]
  = [Some ("10.0.0.1", "80"); Some ("::1", "8080"); None; None; None; None; Some ("", "80")].
Proof. vm_compute. done. Qed.

(** ** Paths *)

(** [url.PathUnescape]; the mux keeps a segment it cannot decode. *)
Definition hex_digit (c : ascii) : option Z :=
  let b := byte_of c in
  if (48 <=? b) && (b <=? 57) then Some (b - 48)
  else if (65 <=? b) && (b <=? 70) then Some (b - 55)
  else if (97 <=? b) && (b <=? 102) then Some (b - 87)
  else None.

Fixpoint PathUnescape (s : string) : option string :=
  match s with
  | EmptyString => Some ""
  | String "%" (String h (String l s)) =>
      h ← hex_digit h; l ← hex_digit l; String (ascii_of (16 * h + l)) <$> PathUnescape s
  | String "%" _ => None
  | String c s => String c <$> PathUnescape s
  end.

Definition pathUnescape (s : string) : string := default s (PathUnescape s).

Fixpoint last_byte (s : string) : option ascii :=
  match s with
  | EmptyString => None
  | String c EmptyString => Some c
  | String _ s => last_byte s
  end.

(** [path.Clean] of a path that starts with a slash: the elements without the
    empty ones and ".", and ".." removes the one before it. *)
Definition clean_elements (l : list string) : list string :=
  foldl (fun out e =>
    if bool_decide (e = "") || bool_decide (e = ".") then out
    else if bool_decide (e = "..") then removelast out
    else app out [e]) [] l.

Definition path_Clean (p : string) : string := "/" +:+ String.concat "/" (clean_elements (Split p "/")).

(** [cleanPath]: a trailing slash stays. *)
Definition cleanPath (p : string) : string :=
  if bool_decide (p = "") then "/"
  else
    let p := if HasPrefix p "/" then p else "/" +:+ p in
    let np := path_Clean p in
    if bool_decide (last_byte p = Some "/"%char) && negb (bool_decide (np = "/")) then np +:+ "/" else np.

(** The segments as [firstSegment] takes them off a path; the slash at the end
    of a path is a segment of its own. *)
Fixpoint decode_segments (l : list string) : list string :=
  match l with
  | [] => []
  | [s] => [if bool_decide (s = "") then "/" else pathUnescape s]
  | s :: l => pathUnescape s :: decode_segments l
  end.

Definition segments (path : string) : list string :=
  match path with
  | EmptyString => []
  | String _ rest => decode_segments (Split rest "/")
  end.

Example ex_clean :
  map cleanPath [""; "/"; "a"; "/a/b/"; "//a"; "/a/./b/../c"; "/../a/"; "/a/.."; "/a//"]
  = ["/"; "/"; "/a"; "/a/b/"; "/a"; "/a/c"; "/a/"; "/"; "/a/"].
Proof. vm_compute. done. Qed.

Example ex_segments :
  map segments ["/"; "/a/b"; "/a/b/"; "/a%2Fb/%zz/%2f"]
  = [["/"]; ["a"; "b"]; ["a"; "b"; "/"]; ["a/b"; "%zz"; "/"]].
Proof. vm_compute. done. Qed.

(** ** The mux *)

Inductive segment := Lit (s : string) | Wild (name : string).

(** The wildcards' values when the path has the pattern's shape.  An empty
    segment occurs only in the path of a CONNECT request, which is not cleaned
    and has no handler. *)
Fixpoint match_path (pat : list segment) (path : list string) : option (gmap string string) :=
  match pat, path with
  | [], [] => Some ∅
  | Lit s :: pat, p :: path => if bool_decide (s = p) then match_path pat path else None
  | Wild n :: pat, p :: path =>
      if bool_decide (p = "/") then None else <[n := p]> <$> match_path pat path
  | _, _ => None
  end.

(** GET patterns also serve HEAD. *)
Definition method_matches (m : string) (r : Request) : bool :=
  bool_decide (m = Method r) || (bool_decide (m = "GET") && bool_decide (Method r = "HEAD")).

(** Patterns that never overlap, so their order does not matter. *)
Record route {H : Type} := { rt_method : string; rt_path : list segment; rt_handler : H }.
Arguments route H : clear implicits.

Inductive dispatch {H : Type} :=
| Serve (h : H) (vals : gmap string string)
| BadRequest
| MovedPermanently
| MethodNotAllowed
| NotFound.
Arguments dispatch H : clear implicits.

Fixpoint find_route {H} (rs : list (route H)) (r : Request) (path : list string) : dispatch H :=
  match rs with
  | [] => NotFound
  | rt :: rs =>
      match match_path (rt_path rt) path with
      | Some vals =>
          if method_matches (rt_method rt) r then Serve (rt_handler rt) vals
          else match find_route rs r path with Serve h v => Serve h v | _ => MethodNotAllowed end
      | None => find_route rs r path
      end
  end.

(** [mux.ServeHTTP] and [mux.findHandler], for patterns without a host and
    without a trailing slash. *)
Definition mux_find {H} (rs : list (route H)) (r : Request) : dispatch H :=
  if bool_decide (RequestURI r = "*") then BadRequest
  else
    let path := if bool_decide (Method r = "CONNECT") then EscapedPath r else cleanPath (EscapedPath r) in
    if bool_decide (path = EscapedPath r) then find_route rs r (segments path)
    else MovedPermanently.
