(* ===== verification/Server.v ===== *)
(** * internal/server: the client and admin APIs

    Handlers run on the shared [World] (the store, the fairness tracker, the
    audit log and the metrics, all of which both servers hold pointers to) and
    on the response being written.  A response is what the handler wrote before
    encoding: header values and bodies are kept as data.  The clock readings
    and the random draw of a request are its [Env]. *)

From Stdlib Require Import ZArith Lia SpecFloat Ascii String.
From stdpp Require Import base tactics gmap strings numbers list.
From S2P Require Import Prelude GoTime GoString SHA256 Float64 GoJSON GoHTTP Window Bucket MultiBucket SchedulerIface Config Security Store AuditLog Fairness Metrics.

Local Open Scope string_scope.
Local Open Scope Z_scope.
Local Open Scope go_scope.
Local Open Scope go_monad_scope.

(** ** Identity *)

(** [strings.TrimSpace(strings.Split(xff, ",")[0])] *)
Definition first_hop (xff : string) : string :=
  match Split xff ","%char with p :: _ => TrimSpace p | [] => "" end.

Definition sourceIP (r : Request) (trustProxy : bool) : string :=
  let remote := match SplitHostPort (RemoteAddr r) with
                | Some (host, _) => host
                | None => RemoteAddr r
                end in
  if trustProxy then
    let xff := header_get (Headers r) "X-Forwarded-For" in
    let ip := first_hop xff in
    if negb (bool_decide (xff = "")) && negb (bool_decide (ip = "")) then ip
    else
      let xrip := header_get (Headers r) "X-Real-IP" in
      if negb (bool_decide (xrip = "")) then xrip else remote
  else remote.

Definition clientIdentity (r : Request) (ip mode : string) : string * bool :=
  let apiKey := TrimSpace (header_get (Headers r) "X-API-Key") in
  if bool_decide (mode = "ip") then (ip, true)
  else if bool_decide (mode = "api_key") then (apiKey, false)
  else if negb (bool_decide (apiKey = "")) then (apiKey, false)
  else (ip, true).

(** ** Responses *)

Record allowResponse := {
  ar_Allowed : bool;
  ar_RemainingTokens : Z;
  ar_RetryAfterMs : Z;
  ar_ResetAt : option Time
}.

(** An error body: a fixed text, or the text of a validation error. *)
Inductive message := Text (s : string) | Invalid (e : Security.Error).

Inductive payload :=
| P_error (m : message)
| P_allow (a : allowResponse)
| P_snapshot (s : configSnapshot)
| P_status (s : ClientStatus)
| P_clients (l : list ClientStatus)
| P_fairness (enabled : bool) (consumption : gmap string Z).

Inductive header_value := ContentJSON | RetryAfterSeconds (s : float64).

Record Response := {
  rs_header : gmap string header_value;
  rs_status : option Z;
  rs_body : list payload
}.

Definition no_response : Response := {| rs_header := ∅; rs_status := None; rs_body := [] |}.

Definition header_set (k : string) (v : header_value) (w : Response) : Response :=
  {| rs_header := <[k := v]> (rs_header w); rs_status := rs_status w; rs_body := rs_body w |}.

(** Only the first status counts. *)
Definition write_header (code : Z) (w : Response) : Response :=
  match rs_status w with
  | Some _ => w
  | None => {| rs_header := rs_header w; rs_status := Some code; rs_body := rs_body w |}
  end.

Definition write_body (v : payload) (w : Response) : Response :=
  let w := write_header 200 w in
  {| rs_header := rs_header w; rs_status := rs_status w; rs_body := rs_body w ++ [v] |}.

(** The status the client sees. *)
Definition status_of (w : Response) : Z := default 200 (rs_status w).

(** ** The shared state *)

Section World.
Context {S : Type}.

Record World := {
  w_store : BucketStore S;
  w_fairness : option Tracker;
  w_audit : option Logger;
  w_metrics : option Metrics.Registry
}.

Record Ctx := { world : World; resp : Response }.

Definition set_store v (c : Ctx) : Ctx :=
  {| world := {| w_store := v; w_fairness := w_fairness (world c); w_audit := w_audit (world c);
                 w_metrics := w_metrics (world c) |}; resp := resp c |}.
Definition set_fairness v (c : Ctx) : Ctx :=
  {| world := {| w_store := w_store (world c); w_fairness := v; w_audit := w_audit (world c);
                 w_metrics := w_metrics (world c) |}; resp := resp c |}.
Definition set_audit v (c : Ctx) : Ctx :=
  {| world := {| w_store := w_store (world c); w_fairness := w_fairness (world c); w_audit := v;
                 w_metrics := w_metrics (world c) |}; resp := resp c |}.
Definition set_metrics v (c : Ctx) : Ctx :=
  {| world := {| w_store := w_store (world c); w_fairness := w_fairness (world c);
                 w_audit := w_audit (world c); w_metrics := v |}; resp := resp c |}.
Definition set_resp v (c : Ctx) : Ctx := {| world := world c; resp := v |}.

Definition on_store {A} : M (BucketStore S) A -> M Ctx A := zoom (fun c => w_store (world c)) set_store.
Definition on_fairness {A} : M (option Tracker) A -> M Ctx A :=
  zoom (fun c => w_fairness (world c)) set_fairness.
Definition on_audit {A} : M (option Logger) A -> M Ctx A :=
  zoom (fun c => w_audit (world c)) set_audit.
Definition on_response (f : Response -> Response) : M Ctx unit :=
  modify (fun c => set_resp (f (resp c)) c).

(** [if s.metrics != nil { ... }] *)
Definition with_metrics (f : M Metrics.Registry unit) : M Ctx unit :=
  fun c => match w_metrics (world c) with
           | None => (Ok tt, c)
           | Some m => let '(res, m') := f m in (res, set_metrics (Some m') c)
           end.

Definition count_request (decision : string) (latency : Duration) : M Metrics.Registry unit :=
  zoom RequestsTotal set_RequestsTotal (Inc decision) ;;;
  zoom RequestLatency set_RequestLatency (Observe (Seconds latency)).

Definition count_admin (action : string) : M Metrics.Registry unit :=
  zoom AdminChangesTotal set_AdminChangesTotal (Inc action).

Definition WriteHeader (code : Z) : M Ctx unit := on_response (write_header code).

Definition writeJSON (status : Z) (v : payload) : M Ctx unit :=
  on_response (header_set "Content-Type" ContentJSON) ;;;
  WriteHeader status ;;;
  on_response (write_body v).

Definition writeError (status : Z) (msg : message) : M Ctx unit := writeJSON status (P_error msg).

(** ** Middleware *)

Abbreviation Handler := (Request -> M Ctx unit) (only parsing).

(** A panic of the handler becomes a 500, unless it had already answered. *)
Definition RecoverMiddleware (next : Request -> M Ctx unit) : Request -> M Ctx unit := fun r c =>
  match next r c with
  | (Panic, c') => WriteHeader 500 c'
  | res => res
  end.
End World.
Arguments World S : clear implicits.
Arguments Ctx S : clear implicits.

(** ** The client API *)

(** What a request reads from outside: three clock readings and the draw of
    the audit sampler. *)
Record Env := { e_start : Time; e_now : Time; e_end : Time; e_draw : float64 }.

Section Client.
Context {S : Type} `{SchedulerOps S} `{MapRange} (cfg : Config.Config).

Definition trust : bool := TrustProxyHeaders (c_Security cfg).

Definition decision_label (res : AllowResult) : string :=
  if Allowed res then "allow" else if bool_decide (Reason res = "blocked") then "blocked" else "reject".

Definition handleRequest (env : Env) (r : Request) : M (Ctx S) unit :=
  if 0 <? ContentLength r then writeError 400 (Text "request body not expected")
  else
    let ip := sourceIP r trust in
    let '(key, _) := clientIdentity r ip (IdentityMode (c_Security cfg)) in
    if bool_decide (key = "") then writeError 400 (Text "missing client identity")
    else
      match ValidateAPIKey key with
      | Some _ =>
          on_audit (Anomaly "invalid_client_identity" (SanitizeForLog key) ip) ;;;
          writeError 400 (Text "invalid client identity")
      | None =>
          let tier := header_get (Headers r) "X-Resource-Tier" in
          match ValidateTier tier with
          | Some _ => writeError 400 (Text "invalid resource tier")
          | None =>
              let now := e_now env in
              let! result := on_store (Store.Allow {| ClientKey := key; SourceIP := ip;
                                                      Tier := tier; Now := now |} now) in
              let latency := Time.Sub (e_end env) (e_start env) in
              on_audit (RequestDecision (Allowed result) key ip (RemainingTokens result) latency
                          (e_draw env)) ;;;
              with_metrics (count_request (decision_label result) latency) ;;;
              if Allowed result then
                let! enabled := gets (fun c => Enabled (w_fairness (world c))) in
                (if enabled : bool
                 then let! _priority := on_fairness (RecordConsumption key 1) in ret tt
                 else ret tt) ;;;
                writeJSON 200 (P_allow {| ar_Allowed := true;
                                          ar_RemainingTokens := RemainingTokens result;
                                          ar_RetryAfterMs := 0; ar_ResetAt := None |})
              else
                on_response (header_set "Retry-After" (RetryAfterSeconds (Seconds (RetryAfter result)))) ;;;
                writeJSON 429 (P_allow {| ar_Allowed := false; ar_RemainingTokens := 0;
                                          ar_RetryAfterMs := Milliseconds (RetryAfter result);
                                          ar_ResetAt := Some (Time.Add now (RetryAfter result)) |})
          end
      end.

Definition handleHealthz (r : Request) : M (Ctx S) unit := WriteHeader 200.

Definition client_routes (env : Env) : list (route (Request -> M (Ctx S) unit)) :=
  [{| rt_method := "POST"; rt_path := [Lit "api"; Lit "v1"; Lit "request"];
      rt_handler := handleRequest env |};
   {| rt_method := "GET"; rt_path := [Lit "healthz"]; rt_handler := handleHealthz |}].
End Client.

(** [mux.ServeHTTP], without the headers and the short texts it adds to the
    answers of its own. *)
Definition serve_mux {S} (rs : list (route (Request -> M (Ctx S) unit))) (r : Request) : M (Ctx S) unit :=
  match mux_find rs r with
  | Serve h vals => h (set_PathValues vals r)
  | BadRequest => WriteHeader 400
  | MovedPermanently => WriteHeader 301
  | MethodNotAllowed => WriteHeader 405
  | NotFound => WriteHeader 404
  end.

Definition client_handler {S} `{SchedulerOps S} `{MapRange} (cfg : Config.Config) (env : Env)
  : Request -> M (Ctx S) unit :=
  RecoverMiddleware (serve_mux (client_routes cfg env)).

(** ** Admin request bodies *)

Record updateConfigRequest := {
  uc_Tier : string;
  uc_MaxTokens : option Z;
  uc_RefillRate : option Z;
  uc_RefillIntervalMs : option Z
}.

Record globalConfigRequest := {
  gc_Enabled : bool;
  gc_MaxTokens : Z;
  gc_RefillRate : Z;
  gc_RefillIntervalMs : Z
}.

Definition zero_updateConfigRequest : updateConfigRequest :=
  {| uc_Tier := ""; uc_MaxTokens := None; uc_RefillRate := None; uc_RefillIntervalMs := None |}.

Definition zero_globalConfigRequest : globalConfigRequest :=
  {| gc_Enabled := false; gc_MaxTokens := 0; gc_RefillRate := 0; gc_RefillIntervalMs := 0 |}.

(** Unknown fields are refused. *)
Definition put_update (k : string) (v : json) (r : updateConfigRequest) : option updateConfigRequest :=
  let '{| uc_Tier := tier; uc_MaxTokens := mt; uc_RefillRate := rr; uc_RefillIntervalMs := ri |} := r in
  if same_field k "tier" then
    x ← put_string v tier;
    Some {| uc_Tier := x; uc_MaxTokens := mt; uc_RefillRate := rr; uc_RefillIntervalMs := ri |}
  else if same_field k "max_tokens" then
    x ← put_int64_ptr v;
    Some {| uc_Tier := tier; uc_MaxTokens := x; uc_RefillRate := rr; uc_RefillIntervalMs := ri |}
  else if same_field k "refill_rate" then
    x ← put_int64_ptr v;
    Some {| uc_Tier := tier; uc_MaxTokens := mt; uc_RefillRate := x; uc_RefillIntervalMs := ri |}
  else if same_field k "refill_interval_ms" then
    x ← put_int64_ptr v;
    Some {| uc_Tier := tier; uc_MaxTokens := mt; uc_RefillRate := rr; uc_RefillIntervalMs := x |}
  else None.

Definition put_global (k : string) (v : json) (r : globalConfigRequest) : option globalConfigRequest :=
  let '{| gc_Enabled := en; gc_MaxTokens := mt; gc_RefillRate := rr; gc_RefillIntervalMs := ri |} := r in
  if same_field k "enabled" then
    x ← put_bool v en;
    Some {| gc_Enabled := x; gc_MaxTokens := mt; gc_RefillRate := rr; gc_RefillIntervalMs := ri |}
  else if same_field k "max_tokens" then
    x ← put_int64 v mt;
    Some {| gc_Enabled := en; gc_MaxTokens := x; gc_RefillRate := rr; gc_RefillIntervalMs := ri |}
  else if same_field k "refill_rate" then
    x ← put_int64 v rr;
    Some {| gc_Enabled := en; gc_MaxTokens := mt; gc_RefillRate := x; gc_RefillIntervalMs := ri |}
  else if same_field k "refill_interval_ms" then
    x ← put_int64 v ri;
    Some {| gc_Enabled := en; gc_MaxTokens := mt; gc_RefillRate := rr; gc_RefillIntervalMs := x |}
  else None.

Definition maxAdminBodyBytes : Z := 1024.

(** [io.ReadAll] of at most one byte more than the cap, then the decoder;
    [None] is any error. *)
Definition readAdminBody {A} (put : string -> json -> A -> option A) (zero : A) (r : Request) : option A :=
  match Body r with
  | NoBody | Broken => None
  | Data s =>
      let data := str_take (Z.to_nat (maxAdminBodyBytes + 1)) s in
      if maxAdminBodyBytes <? Z.of_nat (String.length data) then None
      else decode_struct put zero data
  end.

Definition snapshot (cfg : Bucket.Config) : configSnapshot :=
  {| sn_MaxTokens := MaxTokens cfg; sn_RefillRate := RefillRate cfg;
     sn_RefillIntervalMs := Milliseconds (RefillInterval cfg) |}.

Definition adminIdentity (r : Request) : string :=
  match PeerNames r with
  | Some (cn :: _) => "mtls:" +:+ cn
  | _ => "bearer-token"
  end.

(** ** The admin API *)

Section Admin.
Context {S : Type} `{SchedulerOps S} `{MapRange} (cfg : Config.Config) (now : Time).

Definition admin_ip (r : Request) : string := sourceIP r (TrustProxyHeaders (c_Security cfg)).

(** The requested changes over the current configuration. *)
Definition merge_config (req : updateConfigRequest) (before : Bucket.Config) : Bucket.Config :=
  {| MaxTokens := default (MaxTokens before) (uc_MaxTokens req);
     RefillRate := default (RefillRate before) (uc_RefillRate req);
     RefillInterval := match uc_RefillIntervalMs req with
                       | Some ms => ms *! Millisecond
                       | None => RefillInterval before
                       end;
     TokensPerRequest := if TokensPerRequest before <=? 0 then 1 else TokensPerRequest before;
     CfgWindow := CfgWindow before |}.

Definition audit_admin (r : Request) (key action : string) (before after : option configSnapshot)
  : M (Ctx S) unit :=
  on_audit (AdminChange (adminIdentity r) key action before after (admin_ip r)) ;;;
  with_metrics (count_admin action).

Definition handleUpdateConfig (r : Request) : M (Ctx S) unit :=
  let key := PathValue r "key" in
  match ValidateAPIKey key with
  | Some _ => writeError 400 (Text "invalid client key")
  | None =>
      match readAdminBody put_update zero_updateConfigRequest r with
      | None => writeError 400 (Text "invalid request body")
      | Some req =>
          match ValidateTier (uc_Tier req) with
          | Some _ => writeError 400 (Text "invalid tier")
          | None =>
              let! before := on_store (fun st => (TierConfig key (uc_Tier req) (reg st), st)) in
              let after := merge_config req before in
              match ValidateBucketConfig (MaxTokens after) (RefillRate after) (RefillInterval after) with
              | Some e => writeError 400 (Invalid e)
              | None =>
                  if (RefillInterval after <? MinRefillInterval (c_Limits cfg)) ||
                     (MaxRefillInterval (c_Limits cfg) <? RefillInterval after)
                  then writeError 400 (Text "refill_interval out of configured bounds")
                  else
                    on_store (UpdateClientConfig key (uc_Tier req) after now) ;;;
                    audit_admin r key "update_config" (Some (snapshot before)) (Some (snapshot after)) ;;;
                    writeJSON 200 (P_snapshot (snapshot after))
              end
          end
      end
  end.

Definition handleBlock (r : Request) : M (Ctx S) unit :=
  let key := PathValue r "key" in
  match ValidateAPIKey key with
  | Some _ => writeError 400 (Text "invalid client key")
  | None =>
      on_store (Store.Block key now) ;;;
      audit_admin r key "block" None None ;;;
      WriteHeader 200
  end.

Definition handleUnblock (r : Request) : M (Ctx S) unit :=
  let key := PathValue r "key" in
  match ValidateAPIKey key with
  | Some _ => writeError 400 (Text "invalid client key")
  | None =>
      on_store (Store.Unblock key) ;;;
      audit_admin r key "unblock" None None ;;;
      WriteHeader 200
  end.

Definition handleStatus (r : Request) : M (Ctx S) unit :=
  let! status := on_store (gets (fun st => Store.Status (PathValue r "key") (reg st))) in
  match status with
  | None => writeError 404 (Text "client not found")
  | Some st => writeJSON 200 (P_status st)
  end.

Definition handleListClients (r : Request) : M (Ctx S) unit :=
  let! l := on_store (gets (fun st => Store.ListClients (reg st))) in
  writeJSON 200 (P_clients l).

Definition handleGlobalConfig (r : Request) : M (Ctx S) unit :=
  match readAdminBody put_global zero_globalConfigRequest r with
  | None => writeError 400 (Text "invalid request body")
  | Some req =>
      if negb (gc_Enabled req) then
        on_store DisableGlobal ;;;
        audit_admin r "__global__" "disable_global" None None ;;;
        WriteHeader 200
      else
        let interval := gc_RefillIntervalMs req *! Millisecond in
        match ValidateBucketConfig (gc_MaxTokens req) (gc_RefillRate req) interval with
        | Some e => writeError 400 (Invalid e)
        | None =>
            let bcfg := {| MaxTokens := gc_MaxTokens req; RefillRate := gc_RefillRate req;
                           RefillInterval := interval; TokensPerRequest := 1; CfgWindow := None |} in
            on_store (SetGlobalConfig bcfg now) ;;;
            audit_admin r "__global__" "set_global_config" None (Some (snapshot bcfg)) ;;;
            writeJSON 200 (P_snapshot (snapshot bcfg))
        end
  end.

Definition handleFairness (r : Request) : M (Ctx S) unit :=
  let! t := on_fairness (gets id) in
  writeJSON 200 (P_fairness (Enabled t) (Snapshot t)).

Definition bearer : string := "Bearer ".

Definition authMiddleware (next : Request -> M (Ctx S) unit) (r : Request) : M (Ctx S) unit :=
  let hash := AdminTokenHash (c_Security cfg) in
  if bool_decide (hash = "") then next r
  else
    let authz := header_get (Headers r) "Authorization" in
    if negb (HasPrefix authz bearer) then
      on_audit (Anomaly "admin_auth_missing" "" (admin_ip r)) ;;;
      WriteHeader 401
    else
      let token := TrimPrefix authz bearer in
      if negb (ConstantTimeEqual (HashToken token (AdminTokenSalt (c_Security cfg))) hash) then
        on_audit (Anomaly "admin_auth_failed" "" (admin_ip r)) ;;;
        WriteHeader 401
      else next r.

Definition clients_path : list segment := [Lit "admin"; Lit "v1"; Lit "clients"].

Definition admin_routes : list (route (Request -> M (Ctx S) unit)) :=
  [{| rt_method := "PUT"; rt_path := clients_path ++ [Wild "key"; Lit "config"];
      rt_handler := handleUpdateConfig |};
   {| rt_method := "PUT"; rt_path := clients_path ++ [Wild "key"; Lit "block"];
      rt_handler := handleBlock |};
   {| rt_method := "PUT"; rt_path := clients_path ++ [Wild "key"; Lit "unblock"];
      rt_handler := handleUnblock |};
   {| rt_method := "GET"; rt_path := clients_path ++ [Wild "key"; Lit "status"];
      rt_handler := handleStatus |};
   {| rt_method := "GET"; rt_path := clients_path; rt_handler := handleListClients |};
   {| rt_method := "PUT"; rt_path := [Lit "admin"; Lit "v1"; Lit "global"; Lit "config"];
      rt_handler := handleGlobalConfig |};
   {| rt_method := "GET"; rt_path := [Lit "admin"; Lit "v1"; Lit "fairness"];
      rt_handler := handleFairness |}].

Definition admin_handler : Request -> M (Ctx S) unit :=
  RecoverMiddleware (authMiddleware (serve_mux admin_routes)).
End Admin.
