(* ===== verification/ServerProofs.v ===== *)
(** * internal/server: theorems

    What each API promises to its callers, for every store state that satisfies
    the store's invariant, every scheduler implementation and every map
    iteration order.  In mode [AnyKey] the request may name any client key, in
    mode [Strict] any but "__ip__" ([plain_key]).  A handler panics only when
    it needs a bucket whose configured window cannot be allocated, that is when
    the store's configurations do not [fit]; [RecoverMiddleware] answers 500
    then. *)

From Stdlib Require Import ZArith Lia SpecFloat Ascii String.
From stdpp Require Import base tactics gmap strings numbers list.
From S2P Require Import Prelude GoTime GoString SHA256 Float64 GoJSON GoHTTP Window Bucket MultiBucket Heap Scheduler SchedulerIface Config Security Store StoreProofs StoreSystem AuditLog Fairness Metrics Server.

Local Open Scope string_scope.
Local Open Scope Z_scope.
Local Open Scope go_scope.
Local Open Scope go_monad_scope.

(** ** Running handlers *)

Section Run.
Context {S : Type}.
Implicit Types c : Ctx S.

Lemma wp_on_store {A} (m : M (BucketStore S) A) c (Q : A -> Ctx S -> Prop) :
  wp m (w_store (world c)) (fun a st => Q a (set_store st c)) -> wp (on_store m) c Q.
Proof. exact (wp_zoom (fun c => w_store (world c)) set_store m c Q). Qed.

Lemma mp_on_store {A} P (m : M (BucketStore S) A) c (Q : A -> Ctx S -> Prop) :
  may_panic (fun st => P (set_store st c)) m (w_store (world c)) (fun a st => Q a (set_store st c)) ->
  may_panic P (on_store m) c Q.
Proof. exact (mp_zoom P (fun c => w_store (world c)) set_store m c Q). Qed.

Lemma wp_on_audit (f : Logger -> Logger) c (Q : unit -> Ctx S -> Prop) :
  Q tt (set_audit (f <$> w_audit (world c)) c) -> wp (on_audit (modify (fmap f))) c Q.
Proof. done. Qed.

Lemma wp_with_metrics (f : M Metrics.Registry unit) c (Q : unit -> Ctx S -> Prop) :
  (forall m, fst (f m) = Ok tt) ->
  Q tt (set_metrics ((fun m => snd (f m)) <$> w_metrics (world c)) c) -> wp (with_metrics f) c Q.
Proof.
  intros Hf. unfold wp, with_metrics. destruct c as [[st ft al mr] rs]. cbn.
  destruct mr as [m|]; [|done]. cbn. specialize (Hf m). destruct (f m) as [res m']. cbn in *. by subst.
Qed.

Lemma wp_on_response f c (Q : unit -> Ctx S -> Prop) :
  Q tt (set_resp (f (resp c)) c) -> wp (on_response f) c Q.
Proof. done. Qed.

(** A fresh response written by [writeJSON]. *)
Definition json_response (h : gmap string header_value) (status : Z) (v : payload) : Response :=
  {| rs_header := <["Content-Type" := ContentJSON]> h; rs_status := Some status; rs_body := [v] |}.

Lemma wp_writeJSON status v c h (Q : unit -> Ctx S -> Prop) :
  resp c = {| rs_header := h; rs_status := None; rs_body := [] |} ->
  Q tt (set_resp (json_response h status v) c) -> wp (writeJSON status v) c Q.
Proof. destruct c as [w rs]. cbn. intros ->. done. Qed.

Lemma Inc_ok label m : fst (Inc label m) = Ok tt.
Proof. unfold Inc, bind, gets. by destruct (vals m !! label). Qed.

Lemma Inc_vals label m : vals (snd (Inc label m)) = <[label := default 0 (vals m !! label) +! 1]> (vals m).
Proof. unfold Inc, bind, gets. by destruct (vals m !! label). Qed.

Lemma count_admin_ok action m : fst (count_admin action m) = Ok tt.
Proof.
  unfold count_admin, zoom. pose proof (Inc_ok action (AdminChangesTotal m)).
  by destruct (Inc action (AdminChangesTotal m)).
Qed.

Lemma count_request_ok d l m : fst (count_request d l m) = Ok tt.
Proof.
  unfold count_request, bind, zoom. pose proof (Inc_ok d (RequestsTotal m)) as E.
  destruct (Inc d (RequestsTotal m)). cbn in E. by subst.
Qed.

(** A request adds one to the counter of its decision. *)
Lemma count_request_vals d l m :
  vals (RequestsTotal (snd (count_request d l m))) =
    <[d := default 0 (vals (RequestsTotal m) !! d) +! 1]> (vals (RequestsTotal m)).
Proof.
  unfold count_request, bind, zoom. pose proof (Inc_ok d (RequestsTotal m)) as E.
  pose proof (Inc_vals d (RequestsTotal m)) as V. destruct (Inc d (RequestsTotal m)).
  cbn in E, V. subst. done.
Qed.
End Run.

(** ** Accepted keys *)

(** In mode [Strict], not the one key whose ids look like those of addresses. *)
Definition plain_key `{Mode} (key : string) : Prop := strict = true -> key <> "__ip__".

Lemma ValidateAPIKey_valid `{Mode} key : ValidateAPIKey key = None -> plain_key key -> valid_key key.
Proof.
  unfold ValidateAPIKey, apiKeyPattern. intros Hv Hne.
  destruct (pattern 128 key) eqn:Hp; [|done].
  split_and!; [by eapply pattern_nonempty|by eapply pattern_no_bar|done].
Qed.

Section Client.
Context {S : Type} `{SchedulerLaws S} `{MapRange} `{Mode} (cfg : Config.Config).
Implicit Types c : Ctx S.

(** The decision request a client request amounts to, when it is admitted. *)
Definition admitted (env : Env) (r : Request) : option AllowRequest :=
  let ip := sourceIP r (trust cfg) in
  let key := fst (clientIdentity r ip (IdentityMode (c_Security cfg))) in
  let tier := header_get (Headers r) "X-Resource-Tier" in
  if bool_decide (ContentLength r <= 0 /\ ValidateAPIKey key = None /\ ValidateTier tier = None)
  then Some {| ClientKey := key; SourceIP := ip; Tier := tier; Now := e_now env |}
  else None.

(** What a decision does to the shared state and to the response. *)
Definition decision_response (now : Time) (res : AllowResult) : Response :=
  if Allowed res then
    json_response ∅ 200 (P_allow {| ar_Allowed := true; ar_RemainingTokens := RemainingTokens res;
                                    ar_RetryAfterMs := 0; ar_ResetAt := None |})
  else
    json_response {["Retry-After" := RetryAfterSeconds (Seconds (RetryAfter res))]} 429
      (P_allow {| ar_Allowed := false; ar_RemainingTokens := 0;
                  ar_RetryAfterMs := Milliseconds (RetryAfter res);
                  ar_ResetAt := Some (Time.Add now (RetryAfter res)) |}).

Definition accounted (key : string) (res : AllowResult) (t : option Tracker) : gmap string Z :=
  if Allowed res && Enabled t then <[key := default 0 (Snapshot t !! key) +! 1]> (Snapshot t)
  else Snapshot t.

(** A handler's post-condition when it turned the request away. *)
Definition turned_away (c : Ctx S) (c' : Ctx S) : Prop :=
  w_store (world c') = w_store (world c) /\ w_fairness (world c') = w_fairness (world c) /\
  w_metrics (world c') = w_metrics (world c).

(** What a panic leaves: the invariant, and no answer yet. *)
Definition panicked (c : Ctx S) (c' : Ctx S) : Prop :=
  inv (w_store (world c')) /\ ~ fits (reg (w_store (world c))) /\ resp c' = no_response.

Lemma refused c c' msg :
  inv (w_store (world c)) -> turned_away c c' -> resp c' = json_response ∅ 400 (P_error msg) ->
  inv (w_store (world c')) /\ turned_away c c' /\ exists msg, resp c' = json_response ∅ 400 (P_error msg).
Proof. intros HI Ht Hr. rewrite (proj1 Ht). eauto. Qed.

Lemma wp_error status msg c (Q : unit -> Ctx S -> Prop) :
  resp c = no_response -> Q tt (set_resp (json_response ∅ status (P_error msg)) c) ->
  wp (writeError status msg) c Q.
Proof. intros Hr. by apply wp_writeJSON. Qed.

Lemma handleRequest_spec env r c :
  inv (w_store (world c)) -> resp c = no_response ->
  (forall req, admitted env r = Some req -> plain_key (ClientKey req)) ->
  may_panic (fun c' => panicked c c' /\ is_Some (admitted env r)) (handleRequest cfg env r) c
   (fun _ c' => inv (w_store (world c')) /\
    match admitted env r with
    | None => turned_away c c' /\ exists msg, resp c' = json_response ∅ 400 (P_error msg)
    | Some req =>
        let st := w_store (world c) in
        let res := Spec_Allow (reg st) req (e_now env) in
        Store.Allow req (e_now env) st = (Ok res, w_store (world c')) /\
        same_defaults (reg st) (reg (w_store (world c'))) /\
        resp c' = decision_response (e_now env) res /\
        Snapshot (w_fairness (world c')) = accounted (ClientKey req) res (w_fairness (world c)) /\
        w_metrics (world c') =
          (fun m => snd (count_request (decision_label res)
                           (Time.Sub (e_end env) (e_start env)) m)) <$> w_metrics (world c)
    end).
Proof.
  intros HI Hr Hip. unfold handleRequest, admitted in *. set (ip := sourceIP r (trust cfg)) in *.
  set (tier := header_get (Headers r) "X-Resource-Tier") in *.
  destruct (clientIdentity r ip (IdentityMode (c_Security cfg))) as [key fb]. cbn [fst] in *.
  destruct (Z.ltb_spec 0 (ContentLength r)) as [Hcl|Hcl].
  { rewrite bool_decide_false by lia. apply mp_wp, wp_error; [done|]. by eapply refused. }
  destruct (bool_decide (key = "")) eqn:Hke.
  { apply bool_decide_eq_true in Hke as ->. rewrite bool_decide_false by by intros (_ & ? & _).
    apply mp_wp, wp_error; [done|]. by eapply refused. }
  destruct (ValidateAPIKey key) as [e|] eqn:Hk.
  { rewrite bool_decide_false by (by intros (_ & ? & _)). apply mp_wp, wp_bind, wp_on_audit, wp_error; [done|].
    by eapply refused. }
  destruct (ValidateTier tier) as [e|] eqn:Ht.
  { rewrite bool_decide_false by (by intros (_ & _ & ?)). apply mp_wp, wp_error; [done|]. by eapply refused. }
  rewrite bool_decide_true in * by done. specialize (Hip _ eq_refl). cbn [ClientKey] in Hip.
  set (req := {| ClientKey := key; SourceIP := ip; Tier := tier; Now := e_now env |}).
  pose proof (Allow_spec (w_store (world c)) req (e_now env) HI
    (ValidateAPIKey_valid _ Hk Hip)) as Ha. cbv zeta in Ha.
  replace (if Time.IsZero (Now req) then e_now env else Now req) with (e_now env) in Ha
    by by destruct (Time.IsZero _).
  apply mp_value in Ha as [(res & st' & Ea & HI' & Hd & -> & _)|(st' & Ea & HI' & Hn)].
  2:{ apply mp_bind, mp_on_store. unfold may_panic at 1. rewrite Ea. by split_and!. }
  set (res := Spec_Allow _ _ _) in *. apply mp_bind, mp_on_store. unfold may_panic at 1. rewrite Ea.
  apply mp_wp. cbv zeta.
  apply wp_bind, wp_on_audit, wp_bind, wp_with_metrics; [intros; apply count_request_ok|].
  unfold decision_response, accounted. destruct (Allowed res) eqn:Eal.
  - apply wp_bind, wp_gets, wp_bind. cbn [world w_fairness set_metrics set_audit set_store andb].
    destruct (RecordConsumption_snapshot key 1 (w_fairness (world c))) as (v & t' & Er & _ & Hen & _).
    destruct (Enabled (w_fairness (world c))).
    + destruct (Hen eq_refl) as [_ Hsnap]. apply wp_bind, wp_zoom. cbn [world w_fairness set_metrics set_audit set_store].
      unfold wp at 1. rewrite Er. cbn beta iota. apply wp_ret, wp_writeJSON with (h := ∅); [exact Hr|].
      cbn. eauto 10.
    + apply wp_ret, wp_writeJSON with (h := ∅); [exact Hr|]. cbn. eauto 10.
  - apply wp_bind, wp_on_response. eapply wp_writeJSON; [cbn; rewrite Hr; done|]. cbn. eauto 10.
Qed.
End Client.

(** ** The admin API *)

Lemma ValidateBucketConfig_iff mt rr ri :
  ValidateBucketConfig mt rr ri = None <->
  1 <= mt <= 1000000 /\ 0 <= rr <= 100000 /\ (0 < rr -> 10 * Millisecond <= ri <= Hour).
Proof.
  unfold ValidateBucketConfig.
  destruct ((mt <? 1) || (1000000 <? mt)) eqn:Em; [split; [done|lia]|].
  destruct ((rr <? 0) || (100000 <? rr)) eqn:Er; [split; [done|lia]|].
  destruct (Z.ltb_spec 0 rr); [|split; [lia|done]].
  destruct ((ri <? 10 * Millisecond) || (Hour <? ri)) eqn:Ei; split; (done || lia).
Qed.

Section Admin.
Context {S : Type} `{SchedulerLaws S} `{MapRange} `{Mode} (cfg : Config.Config) (now : Time).
Implicit Types c : Ctx S.

(** The request bears the configured token. *)
Definition authorized (r : Request) : Prop :=
  exists token, header_get (Headers r) "Authorization" = bearer +:+ token /\
    HashToken token (AdminTokenSalt (c_Security cfg)) = AdminTokenHash (c_Security cfg).

(** An audit record of the given kind was written, if there is a log. *)
Definition anomaly_logged (kind : string) (r : Request) (c c' : Ctx S) : Prop :=
  w_audit (world c') =
    AuditLog.write Warn (anomaly kind "" (admin_ip cfg r)) <$> w_audit (world c).

Lemma authMiddleware_spec next r c :
  AdminTokenHash (c_Security cfg) <> "" ->
  (authorized r -> authMiddleware cfg next r c = next r c) /\
  (~ authorized r -> exists kind c', authMiddleware cfg next r c = (Ok tt, c') /\
     turned_away c c' /\ anomaly_logged kind r c c' /\ resp c' = write_header 401 (resp c)).
Proof.
  intros Hh. unfold authMiddleware. rewrite bool_decide_false by done.
  destruct (HasPrefix (header_get (Headers r) "Authorization") bearer) eqn:Hp; cbn [negb].
  - apply HasPrefix_inv in Hp as [token Et]. rewrite Et, TrimPrefix_append.
    destruct (ConstantTimeEqual _ _) eqn:Ec; cbn [negb].
    + split; [done|]. intros []. exists token. split; [done|]. by apply ConstantTimeEqual_iff.
    + split.
      * intros (token' & Et' & E). rewrite Et in Et'.
        assert (token = token') as <-.
        { by rewrite <- (TrimPrefix_append bearer token), Et', TrimPrefix_append. }
        apply ConstantTimeEqual_iff in E. congruence.
      * intros _. exists "admin_auth_failed". by eexists.
  - split.
    + intros (token & E & _). by rewrite E, HasPrefix_append in Hp.
    + intros _. exists "admin_auth_missing". by eexists.
Qed.

(** A configuration update the API accepts. *)
Definition update_acceptable (r : Request) (c : Ctx S) (req : updateConfigRequest)
  (before : Bucket.Config) : Prop :=
  ValidateAPIKey (PathValue r "key") = None /\
  readAdminBody put_update zero_updateConfigRequest r = Some req /\
  ValidateTier (uc_Tier req) = None /\
  TierConfig (PathValue r "key") (uc_Tier req) (reg (w_store (world c))) = Ok before /\
  let after := merge_config req before in
  1 <= MaxTokens after <= 1000000 /\ 0 <= RefillRate after <= 100000 /\
  (0 < RefillRate after -> 10 * Millisecond <= RefillInterval after <= Hour) /\
  MinRefillInterval (c_Limits cfg) <= RefillInterval after <= MaxRefillInterval (c_Limits cfg).

Lemma TierConfig_ok st key tier :
  inv st -> exists before, TierConfig key tier (reg st) = Ok before.
Proof.
  intros [Rok _]. unfold TierConfig. destruct (clients (reg st) !! key) as [cb|] eqn:Hk; cbn; [|eauto].
  destruct (lookup_bucket (norm_tier tier) cb) as [b|] eqn:Hb; [|eauto].
  destruct (reg_clients _ Rok _ _ Hk) as (_ & _ & _ & _ & Hu).
  destruct (proj1 (Hu _ _ Hb)) as (bc & Hc & _). unfold Bucket.GetConfig, load_config. exists bc.
  unfold bind, gets. by rewrite Hc.
Qed.

(** The configuration an update starts from. *)
Lemma TierConfig_fits st key tier before :
  inv st -> fits (reg st) -> TierConfig key tier (reg st) = Ok before -> allocatable before = true.
Proof.
  intros [Rok _] Hf. pose proof Hf as [Ht _]. unfold TierConfig.
  assert (Hd : forall cfg, Ok (default (default_tier_cfg (tierDefaults (reg st)))
    (tierDefaults (reg st) !! norm_tier tier)) = Ok cfg -> allocatable cfg = true).
  { intros c [= <-]. destruct (tierDefaults (reg st) !! norm_tier tier) as [c'|] eqn:E;
      [by apply (Ht _ _ E)|by apply fits_default]. }
  destruct (clients (reg st) !! key ≫= lookup_bucket (norm_tier tier)) as [b|] eqn:Hb; [|exact (Hd before)].
  destruct (clients (reg st) !! key) as [cb|] eqn:Hk; [|done]. cbn in Hb.
  destruct (reg_clients _ Rok _ _ Hk) as (_ & _ & _ & _ & Hu).
  destruct (proj1 (Hu _ _ Hb)) as (bc & Hc & Ha). unfold Bucket.GetConfig, load_config, bind, gets.
  rewrite Hc. by intros [= <-].
Qed.

Lemma merge_allocatable req before : allocatable (merge_config req before) = allocatable before.
Proof. done. Qed.

Lemma merge_normalized req before : normalize (merge_config req before) = merge_config req before.
Proof.
  unfold normalize. cbn. destruct (Z.leb_spec (TokensPerRequest before) 0); [done|].
  by rewrite (proj2 (Z.leb_gt _ _)).
Qed.

(** The update was refused: nothing happened. *)
Definition update_refused (r : Request) (c c' : Ctx S) : Prop :=
  world c' = world c /\ (exists msg, resp c' = json_response ∅ 400 (P_error msg)) /\
  forall req before, ~ update_acceptable r c req before.

(** The update was applied: to the store, the audit log and the metrics. *)
Definition update_applied (r : Request) (c c' : Ctx S) (req : updateConfigRequest)
  (before : Bucket.Config) : Prop :=
  let key := PathValue r "key" in
  let after := merge_config req before in
  UpdateClientConfig key (uc_Tier req) after now (w_store (world c)) = (Ok tt, w_store (world c')) /\
  same_defaults (reg (w_store (world c))) (reg (w_store (world c'))) /\
  resp c' = json_response ∅ 200 (P_snapshot (snapshot after)) /\
  w_audit (world c') = AuditLog.write Info
    (admin_change (adminIdentity r) key "update_config" (Some (snapshot before))
       (Some (snapshot after)) (admin_ip cfg r)) <$> w_audit (world c) /\
  w_metrics (world c') = (fun m => snd (count_admin "update_config" m)) <$> w_metrics (world c).

Lemma mp_update_refused r c msg (P P' : Ctx S -> Prop) :
  inv (w_store (world c)) -> resp c = no_response ->
  (forall req before, ~ update_acceptable r c req before) ->
  may_panic P' (writeError 400 msg) c
    (fun _ c' => inv (w_store (world c')) /\ (update_refused r c c' \/ P c')).
Proof. intros HI Hr Hn. apply mp_wp, wp_error; [done|]. split; [done|]. left. split_and!; eauto. Qed.

Lemma handleUpdateConfig_spec r c :
  inv (w_store (world c)) -> resp c = no_response -> plain_key (PathValue r "key") ->
  may_panic (fun c' => panicked c c' /\ exists req before, update_acceptable r c req before)
   (handleUpdateConfig cfg now r) c (fun _ c' => inv (w_store (world c')) /\
    (update_refused r c c' \/
     exists req before, update_acceptable r c req before /\ update_applied r c c' req before)).
Proof.
  intros HI Hr Hip. unfold handleUpdateConfig. set (key := PathValue r "key") in *.
  destruct (ValidateAPIKey key) as [e|] eqn:Hk.
  { apply mp_update_refused; [done..|]. intros req before (E & _). fold key in E. congruence. }
  destruct (readAdminBody _ _ r) as [req|] eqn:Hb.
  2:{ apply mp_update_refused; [done..|]. intros req before (_ & E & _). congruence. }
  destruct (ValidateTier (uc_Tier req)) as [e|] eqn:Ht.
  { apply mp_update_refused; [done..|]. intros req' before (_ & E & E' & _). congruence. }
  destruct (TierConfig_ok _ key (uc_Tier req) HI) as [before Eb].
  apply mp_bind_wp, wp_on_store. unfold wp at 1. rewrite Eb. cbv zeta. set (after := merge_config req before).
  assert (Hacc : forall req' before', update_acceptable r c req' before' ->
            req' = req /\ before' = before).
  { intros req' before' (_ & E & _ & E' & _). rewrite Hb in E. injection E as <-.
    fold key in E'. rewrite Eb in E'. by injection E' as <-. }
  replace (set_store (w_store (world c)) c) with c by by destruct c as [[] ?].
  destruct (ValidateBucketConfig (MaxTokens after) (RefillRate after) (RefillInterval after)) as [e|] eqn:Hv.
  { apply mp_update_refused; [done..|]. intros req' before' Ha. destruct (Hacc _ _ Ha) as [-> ->].
    destruct Ha as (_ & _ & _ & _ & ? & ? & ? & _).
    by rewrite (proj2 (ValidateBucketConfig_iff _ _ _)) in Hv. }
  apply ValidateBucketConfig_iff in Hv.
  destruct ((RefillInterval after <? _) || _) eqn:Hlim.
  { apply mp_update_refused; [done..|]. intros req' before' Ha. destruct (Hacc _ _ Ha) as [-> ->].
    destruct Ha as (_ & _ & _ & _ & _ & _ & _ & Hl). fold after in Hl. lia. }
  assert (Hup : update_acceptable r c req before).
  { destruct Hv as (? & ? & ?). unfold update_acceptable. fold after. split_and!; (done || lia). }
  destruct (mp_value _ _ _ _ (UpdateClientConfig_spec _ key (uc_Tier req) after now HI (ValidateAPIKey_valid _ Hk Hip)))
    as [([] & st' & Eu & HI' & Hd & _)|(st' & Eu & HI' & Hno)].
  2:{ apply mp_bind, mp_on_store. unfold may_panic at 1. rewrite Eu. split; [|by eauto].
      split_and!; [done| |exact Hr]. intros Hf. destruct Hno as [[Hn _]|Ha]; [done|].
      unfold after in Ha. rewrite merge_allocatable in Ha. by rewrite (TierConfig_fits _ _ _ _ HI Hf Eb) in Ha. }
  apply mp_bind, mp_on_store. unfold may_panic at 1. rewrite Eu.
  apply mp_wp, wp_bind. unfold audit_admin. apply wp_bind, wp_on_audit, wp_with_metrics;
    [intros; apply count_admin_ok|].
  apply wp_writeJSON with (h := ∅); [exact Hr|]. split; [exact HI'|]. right.
  exists req, before. by split.
Qed.

(** *** Every handler answers and keeps the store's invariant *)

Definition statuses : list Z := [200; 301; 400; 401; 404; 405; 429].

(** The handler returned, with one of the statuses. *)
Definition answered (c c' : Ctx S) : Prop :=
  inv (w_store (world c')) /\ same_defaults (reg (w_store (world c))) (reg (w_store (world c'))) /\
  status_of (resp c') ∈ statuses.

(** The server answered: with a 500 only if some window cannot be allocated. *)
Definition served (c c' : Ctx S) : Prop :=
  inv (w_store (world c')) /\ status_of (resp c') ∈ 500 :: statuses /\
  (fits (reg (w_store (world c))) -> fits (reg (w_store (world c'))) /\ status_of (resp c') ∈ statuses).

Definition good_handler (h : Request -> M (Ctx S) unit) : Prop :=
  forall r c, inv (w_store (world c)) -> resp c = no_response -> plain_key (PathValue r "key") ->
    may_panic (panicked c) (h r) c (fun _ => answered c).

Lemma wp_json_answer status v c0 c :
  inv (w_store (world c)) -> same_defaults (reg (w_store (world c0))) (reg (w_store (world c))) ->
  resp c = no_response -> status ∈ statuses -> wp (writeJSON status v) c (fun _ => answered c0).
Proof. intros HI Hd Hr Hs. apply wp_writeJSON with (h := ∅); [done|]. by split_and!. Qed.

Lemma wp_status_answer status c0 c :
  inv (w_store (world c)) -> same_defaults (reg (w_store (world c0))) (reg (w_store (world c))) ->
  resp c = no_response -> status ∈ statuses -> wp (WriteHeader status) c (fun _ => answered c0).
Proof.
  intros HI Hd Hr Hs. apply wp_on_response. split_and!; [done|done|]. cbn. by rewrite Hr.
Qed.

(** An administrative change: a store operation, the audit record, the answer. *)
Lemma mp_change (op : M (BucketStore S) unit) r key action before after (k : M (Ctx S) unit) c :
  resp c = no_response ->
  may_panic (stuck (w_store (world c))) op (w_store (world c))
    (fun _ st' => inv st' /\ same_defaults (reg (w_store (world c))) (reg st')) ->
  (forall c', inv (w_store (world c')) ->
     same_defaults (reg (w_store (world c))) (reg (w_store (world c'))) -> resp c' = resp c ->
     wp k c' (fun _ => answered c)) ->
  may_panic (panicked c)
    (bind (on_store op) (fun _ => bind (audit_admin cfg r key action before after) (fun _ => k))) c
    (fun _ => answered c).
Proof.
  intros Hr Hop Hk. apply mp_bind, mp_on_store. mp_use Hop; [by intros st' [? ?]|].
  intros _ st' [HI' Hd]. apply mp_wp, wp_bind, wp_bind, wp_on_audit, wp_with_metrics;
    [intros; apply count_admin_ok|]. by apply Hk.
Qed.

Ltac answer :=
  try apply mp_wp; first [apply wp_json_answer|apply wp_status_answer];
    [done|done|first [congruence|cbn; congruence]|set_solver].

Lemma update_good : good_handler (handleUpdateConfig cfg now).
Proof.
  intros r c HI Hr Hk. mp_use handleUpdateConfig_spec; [done..|by intros c' [? _]|].
  intros _ c' [HI' [(Ew & [msg Er] & _)|(req & before & _ & _ & Hd & Er & _)]]; split_and!;
    [done|by rewrite Ew| |done|done|]; rewrite Er; cbn; set_solver.
Qed.

Lemma block_good : good_handler (handleBlock cfg now).
Proof.
  intros r c HI Hr Hk. unfold handleBlock. destruct (ValidateAPIKey _) eqn:Ev; [by answer|].
  apply mp_change; [done| |intros; by answer].
  mp_use Block_spec; [done|by apply ValidateAPIKey_valid|by intros st' [? _]|]. by intros _ st' (? & ? & _).
Qed.

Lemma unblock_good : good_handler (handleUnblock cfg).
Proof.
  intros r c HI Hr Hk. unfold handleUnblock. destruct (ValidateAPIKey _) eqn:Ev; [by answer|].
  apply mp_change; [done| |intros; by answer]. apply mp_wp. wp_use Unblock_spec; [done|].
  by intros _ st' (? & ? & _).
Qed.

Lemma same_ctx c : set_store (w_store (world c)) c = c.
Proof. by destruct c as [[] ?]. Qed.

Lemma status_good : good_handler handleStatus.
Proof.
  intros r c HI Hr Hk. unfold handleStatus. apply mp_bind_wp, wp_on_store, wp_gets. rewrite same_ctx.
  destruct (Store.Status _ _); by answer.
Qed.

Lemma list_good : good_handler handleListClients.
Proof.
  intros r c HI Hr Hk. unfold handleListClients. apply mp_bind_wp, wp_on_store, wp_gets.
  rewrite same_ctx. by answer.
Qed.

Lemma global_good : good_handler (handleGlobalConfig cfg now).
Proof.
  intros r c HI Hr Hk. unfold handleGlobalConfig. destruct (readAdminBody _ _ r) as [req|]; [|by answer].
  destruct (gc_Enabled req); cbn [negb].
  - destruct (ValidateBucketConfig _ _ _); [by answer|]. apply mp_change; [done| |intros; by answer].
    mp_use SetGlobalConfig_spec; [done|by intros st' [_ ?]|]. intros _ st' [? E]. by rewrite E.
  - apply mp_change; [done| |intros; by answer]. apply mp_wp. wp_use DisableGlobal_spec; [done|].
    intros _ st' [? E]. by rewrite E.
Qed.

Lemma fairness_good : good_handler handleFairness.
Proof.
  intros r c HI Hr Hk. unfold handleFairness. apply mp_bind_wp, wp_zoom, wp_gets.
  apply mp_wp, wp_json_answer; [done|done|done|set_solver].
Qed.

Lemma match_path_elem pat : forall path vals n v,
  match_path pat path = Some vals -> vals !! n = Some v -> v ∈ path.
Proof.
  induction pat as [|[s|m] pat IH]; intros [|p path] vals n v; cbn; try done.
  - intros [= <-]. by rewrite lookup_empty.
  - case_bool_decide; [|done]. intros Hm Hv. right. by eapply IH.
  - case_bool_decide; [done|]. destruct (match_path pat path) as [vals'|] eqn:E; [|done].
    intros [= <-]. rewrite lookup_insert_Some. intros [[_ <-]|[_ Hv]]; [by left|].
    right. by eapply IH.
Qed.

Lemma find_route_serve {Hd : Type} (rs : list (route Hd)) r path h vals :
  find_route rs r path = Serve h vals ->
  exists rt, rt ∈ rs /\ h = rt_handler rt /\ match_path (rt_path rt) path = Some vals.
Proof.
  induction rs as [|rt rs IH]; cbn; [done|].
  assert (Hrest : find_route rs r path = Serve h vals -> exists rt0, rt0 ∈ rt :: rs /\ h = rt_handler rt0 /\
    match_path (rt_path rt0) path = Some vals).
  { intros E. destruct (IH E) as (rt' & ? & ? & ?). exists rt'. split_and!; [by right|done|done]. }
  destruct (match_path (rt_path rt) path) as [v|] eqn:Em; [|done].
  destruct (method_matches _ _).
  - intros [= <- <-]. exists rt. split_and!; [left|done|done].
  - destruct (find_route rs r path); [|done..]. intros E. by apply Hrest.
Qed.

Lemma mux_find_serve {Hd : Type} (rs : list (route Hd)) r h vals :
  mux_find rs r = Serve h vals ->
  exists rt, rt ∈ rs /\ h = rt_handler rt /\ match_path (rt_path rt) (segments (EscapedPath r)) = Some vals.
Proof.
  unfold mux_find. case_bool_decide; [done|]. cbv zeta.
  destruct (bool_decide (Method r = _)); case_bool_decide as Hp; try done; [|rewrite Hp];
    apply find_route_serve.
Qed.

(** No segment of the path is "__ip__" (in mode [Strict]). *)
Definition plain_path (r : Request) : Prop := strict = true -> "__ip__" ∉ segments (EscapedPath r).

(** A mux of good handlers. *)
Lemma serve_mux_good (rs : list (route (Request -> M (Ctx S) unit))) r c :
  Forall (fun rt => good_handler (rt_handler rt)) rs ->
  inv (w_store (world c)) -> resp c = no_response -> plain_path r ->
  may_panic (panicked c) (serve_mux rs r) c (fun _ => answered c).
Proof.
  intros Hrs HI Hr Hp. unfold serve_mux. destruct (mux_find rs r) as [h vals| | | |] eqn:E; [|by answer..].
  apply mux_find_serve in E as (rt & Hin & -> & Hm). rewrite Forall_forall in Hrs.
  apply (Hrs _ Hin); [done|done|]. intros Hs. specialize (Hp Hs). unfold PathValue. cbn.
  destruct (vals !! "key") as [v|] eqn:Hv; cbn; [|done]. intros ->.
  apply Hp. by eapply match_path_elem.
Qed.

Lemma RecoverMiddleware_serves next r c :
  may_panic (panicked c) (next r) c (fun _ => answered c) ->
  wp (RecoverMiddleware next r) c (fun _ => served c).
Proof.
  unfold may_panic, wp, RecoverMiddleware. destruct (next r c) as [[[]| |] c']; [| |done].
  - intros (HI & Hd & Hs). split_and!; [done|by right|]. intros Hf. by rewrite (fits_same _ _ Hd).
  - intros (HI & Hn & Hr). unfold WriteHeader, on_response, modify. split_and!; [done| |done].
    cbn. rewrite Hr. left.
Qed.

Lemma admin_handler_answers r c :
  inv (w_store (world c)) -> resp c = no_response -> plain_path r ->
  wp (admin_handler cfg now r) c (fun _ => served c).
Proof.
  intros HI Hr Hp. apply RecoverMiddleware_serves.
  assert (Hmux : may_panic (panicked c) (serve_mux (admin_routes cfg now) r) c (fun _ => answered c)).
  { apply serve_mux_good; [|done..]. repeat (apply Forall_cons; split); [..|by apply Forall_nil]; cbn.
    - apply update_good.
    - apply block_good.
    - apply unblock_good.
    - apply status_good.
    - apply list_good.
    - apply global_good.
    - apply fairness_good. }
  unfold authMiddleware. destruct (bool_decide _); [done|].
  destruct (HasPrefix _ _); cbn [negb]; [destruct (ConstantTimeEqual _ _); cbn [negb]; [done|]|];
    apply mp_wp, wp_bind, wp_on_audit; by answer.
Qed.
End Admin.

Lemma client_handler_answers {S} `{SchedulerLaws S} `{MapRange} `{Mode} cfg env r (c : Ctx S) :
  inv (w_store (world c)) -> resp c = no_response ->
  (forall req, admitted cfg env r = Some req -> plain_key (ClientKey req)) ->
  wp (client_handler cfg env r) c (fun _ => served c).
Proof.
  intros HI Hr Hip. apply RecoverMiddleware_serves. unfold serve_mux.
  destruct (mux_find _ r) as [h vals| | | |] eqn:E;
    [|apply mp_wp, wp_status_answer; [done|done|done|set_solver]..].
  apply mux_find_serve in E as (rt & Hin & -> & _). unfold client_routes in Hin.
  rewrite !elem_of_cons in Hin. destruct Hin as [->|[->|[]%not_elem_of_nil]]; cbn [rt_handler].
  - mp_use handleRequest_spec; [done|done|exact Hip|by intros c' [? _]|]. intros _ c' [HI' Hc].
    change (admitted cfg env (set_PathValues vals r)) with (admitted cfg env r) in Hc.
    destruct (admitted cfg env r) as [req|]; split_and!; [done| | |done| |].
    + apply Hc.
    + destruct Hc as (_ & _ & -> & _). unfold decision_response. destruct (Allowed _); cbn; set_solver.
    + by rewrite (proj1 (proj1 Hc)).
    + destruct Hc as (_ & msg & ->). cbn. set_solver.
  - apply mp_wp, wp_status_answer; [done|done|done|set_solver].
Qed.

(** Keys are made of letters, digits, underscores and hyphens. *)
Lemma pattern_chars max s ch : pattern max s = true -> contains s ch = true -> key_char ch = true.
Proof.
  unfold pattern. intros [_ Hf]%andb_true_iff. induction s as [|d s IH]; cbn in *; [done|].
  apply andb_true_iff in Hf as [Hd Hf]. intros [->%Ascii.eqb_eq|]%orb_true_iff; auto.
Qed.

(** Safety does not depend on the sliding window. *)
Lemma safe_fields a b :
  safe a -> MaxTokens b = MaxTokens a -> RefillRate b = RefillRate a ->
  RefillInterval b = RefillInterval a -> TokensPerRequest b = TokensPerRequest a -> safe b.
Proof. intros [] E1 E2 E3 E4. split; by rewrite ?E1, ?E2, ?E3, ?E4. Qed.

(** ** Properties *)

(** C10: a client request.  It is turned away with a 400 exactly when it has a
    body, an unusable identity or an invalid tier, and then the store, the
    fairness tracker and the metrics are untouched.  Otherwise it is the
    store's decision [Spec_Allow] for its key, source address and tier: a 200
    with the remaining tokens or a 429 whose Retry-After and body carry the
    store's delay; exactly an allowed request is charged to the fairness
    tracker, and the decision is counted once.  The one exception: the store
    panics when it has to make a bucket whose configured window cannot be
    allocated; nothing has been answered then, and the store stays well formed. *)
Theorem client_request_correct {S : Type} `{SchedulerLaws S} `{MapRange} `{Mode} (cfg : Config.Config)
  (env : Env) (r : Request) (c : Ctx S)
  (HI : inv (w_store (world c))) (Hr : resp c = no_response)
  (Hk : forall req, admitted cfg env r = Some req -> plain_key (ClientKey req)) :
  (exists c', handleRequest cfg env r c = (Ok tt, c') /\ inv (w_store (world c')) /\
  match admitted cfg env r with
  | None => turned_away c c' /\ status_of (resp c') = 400
  | Some req =>
      let st := w_store (world c) in
      let res := Spec_Allow (reg st) req (e_now env) in
      Store.Allow req (e_now env) st = (Ok res, w_store (world c')) /\
      resp c' = decision_response (e_now env) res /\
      Snapshot (w_fairness (world c')) = accounted (ClientKey req) res (w_fairness (world c)) /\
      (forall m, w_metrics (world c) = Some m -> exists m', w_metrics (world c') = Some m' /\
         let counts := vals (RequestsTotal m) in
         let l := decision_label res in
         vals (RequestsTotal m') = <[l := default 0 (counts !! l) +! 1]> counts)
  end) \/
  (is_Some (admitted cfg env r) /\ exists c', handleRequest cfg env r c = (Panic, c') /\ panicked c c').
Proof.
  destruct (mp_value _ _ _ _ (handleRequest_spec cfg env r c HI Hr Hk))
    as [([] & c' & E & HI' & Hc)|(c' & E & Hp & Ha)]; [left|right; eauto].
  exists c'. split_and!; [done|done|]. destruct (admitted cfg env r) as [req|].
  - destruct Hc as (Ea & _ & Er & Es & Em). split_and!; [done..|].
    intros m Hm. rewrite Em, Hm. eexists. split; [done|]. apply count_request_vals.
  - destruct Hc as (Ht & msg & ->). done.
Qed.

(** C11: admin authentication.  With a token configured, a request is served
    exactly as without the middleware if it bears a token whose salted hash is
    the configured one; any other request, whatever its method and path, gets
    a 401, changes nothing in the store, the tracker and the metrics, and
    leaves exactly one audit record. *)
Theorem admin_auth_required {S : Type} `{SchedulerLaws S} `{MapRange} (cfg : Config.Config)
  (now : Time) (r : Request) (c : Ctx S)
  (Hh : AdminTokenHash (c_Security cfg) <> "") (Hr : resp c = no_response) :
  (authorized cfg r ->
     admin_handler cfg now r c = RecoverMiddleware (serve_mux (admin_routes cfg now)) r c) /\
  (~ authorized cfg r ->
     exists kind c', admin_handler cfg now r c = (Ok tt, c') /\ turned_away c c' /\
       anomaly_logged cfg kind r c c' /\ status_of (resp c') = 401 /\ rs_body (resp c') = []).
Proof.
  destruct (authMiddleware_spec cfg (serve_mux (admin_routes cfg now)) r c Hh) as [Hyes Hno].
  unfold admin_handler, RecoverMiddleware. split.
  - intros Ha. by rewrite Hyes.
  - intros Ha. destruct (Hno Ha) as (kind & c' & E & Ht & Hl & Er). exists kind, c'.
    rewrite E, Er, Hr. by split_and!.
Qed.

(** C12: a configuration update.  It is refused with a 400 and no effect at all
    exactly when the key, the body, the tier or the merged configuration is
    not acceptable.  Otherwise the requested fields over the current
    configuration, its sliding window kept, become the tier's configuration,
    with a full and unblocked bucket, and the answer and the audit record show
    the change.  What is acceptable bounds the maximum, the rate (zero is
    accepted: the bucket then never refills) and the interval, not the tokens
    per request, which are the current ones: under the hypothesis that those
    are at most 2,000,000, which nothing in the program checks, and with
    configured limits that are not laxer than the built-in ones, no bucket
    arithmetic overflows on the new configuration.  The one exception: an
    acceptable update panics when the tier's own window, or the one of a client
    that has to be created, cannot be allocated. *)
Theorem admin_update_correct {S : Type} `{SchedulerLaws S} `{MapRange} `{Mode} (cfg : Config.Config)
  (now : Time) (r : Request) (c : Ctx S)
  (HI : inv (w_store (world c))) (Hr : resp c = no_response) (Hk : plain_key (PathValue r "key")) :
  (exists c', handleUpdateConfig cfg now r c = (Ok tt, c') /\ inv (w_store (world c')) /\
  (update_refused cfg r c c' \/
   exists req before, update_acceptable cfg r c req before /\
     let key := PathValue r "key" in
     let after := merge_config req before in
     (MaxTokens after = default (MaxTokens before) (uc_MaxTokens req) /\
      RefillRate after = default (RefillRate before) (uc_RefillRate req) /\
      CfgWindow after = CfgWindow before) /\
     resp c' = json_response ∅ 200 (P_snapshot (snapshot after)) /\
     TierConfig key (uc_Tier req) (reg (w_store (world c'))) = Ok after /\
     (exists b, clients (reg (w_store (world c'))) !! key ≫= lookup_bucket (uc_Tier req) = Some b /\
        tokens b = MaxTokens after /\ blocked b = false) /\
     w_audit (world c') = AuditLog.write Info
       (admin_change (adminIdentity r) key "update_config" (Some (snapshot before))
          (Some (snapshot after)) (admin_ip cfg r)) <$> w_audit (world c) /\
     (10 * Millisecond <= MinRefillInterval (c_Limits cfg) ->
      MaxRefillInterval (c_Limits cfg) <= Hour -> TokensPerRequest before <= 2000000 ->
      safe after))) \/
  (exists c', handleUpdateConfig cfg now r c = (Panic, c') /\ panicked c c' /\
     exists req before, update_acceptable cfg r c req before).
Proof.
  destruct (mp_value _ _ _ _ (handleUpdateConfig_spec cfg now r c HI Hr Hk))
    as [([] & c' & E & HI' & Hc)|(c' & E & Hp & Ha)]; [left|right; eauto].
  exists c'. split_and!; [done|done|]. destruct Hc as [Hc|(req & before & Hacc & Hap)]; [by left|right].
  exists req, before. split; [done|]. intros key after. destruct Hap as (Eu & _ & Er & Ea & _).
  fold key after in Eu, Er, Ea. destruct Hacc as (Hv & _ & _ & _ & Hacc). fold key in Hv.
  destruct (mp_value _ _ _ _ (UpdateClientConfig_spec (w_store (world c)) key (uc_Tier req) after now HI
    (ValidateAPIKey_valid _ Hv Hk))) as [([] & st' & Eu' & _ & _ & Hcl)|(st' & Eu' & _)]; [|congruence].
  rewrite Eu in Eu'. injection Eu' as <-.
  assert (Hb : clients (reg (w_store (world c'))) !! key ≫= lookup_bucket (uc_Tier req)
               = Some (Bucket.fresh after now)).
  { rewrite Hcl. unfold lookup_bucket. cbn. by rewrite lookup_insert_eq. }
  split; [done|]. split_and!; [done| | |done|].
  - rewrite <- (merge_normalized req before : normalize after = after). unfold TierConfig, lookup_bucket in *.
    rewrite norm_tier_idemp. by rewrite Hb.
  - exists (Bucket.fresh after now). split_and!; [done| |done]. cbn. apply normalize_fields.
  - intros Hmin Hmax Htpr. cbv zeta in Hacc. fold after in Hacc.
    destruct Hacc as (Hmt & Hrr & Hri & Hlim).
    eapply (safe_fields {| MaxTokens := MaxTokens after; RefillRate := RefillRate after;
      RefillInterval := RefillInterval after; TokensPerRequest := TokensPerRequest after;
      CfgWindow := None |}); [|done..].
    apply accepted_safe.
    + by apply ValidateBucketConfig_iff.
    + assert (Hour = 3600000000000) by done. assert (10 * Millisecond = 10000000) by done. lia64.
    + unfold after. cbn. destruct (Z.leb_spec (TokensPerRequest before) 0); lia.
    + lia.
Qed.

(** C37: identities taken from addresses.  The textual form of an IP address
    holds a dot or a colon, which no accepted key does: whenever the identity
    of a request falls back to its address (mode "ip" always, the default mode
    without an API key), the request is answered 400 and never reaches the
    store. *)
Theorem ip_identity_rejected {S : Type} `{SchedulerLaws S} `{MapRange} (cfg : Config.Config)
  (env : Env) (r : Request) (c : Ctx S) (Hr : resp c = no_response)
  (Hfall : snd (clientIdentity r (sourceIP r (trust cfg)) (IdentityMode (c_Security cfg))) = true)
  (Haddr : contains (sourceIP r (trust cfg)) "."%char || contains (sourceIP r (trust cfg)) ":"%char = true) :
  exists c', handleRequest cfg env r c = (Ok tt, c') /\ turned_away c c' /\
    status_of (resp c') = 400.
Proof.
  assert (Hid : fst (clientIdentity r (sourceIP r (trust cfg)) (IdentityMode (c_Security cfg)))
                = sourceIP r (trust cfg)).
  { revert Hfall. unfold clientIdentity. repeat case_bool_decide; done. }
  unfold handleRequest. set (ip := sourceIP r (trust cfg)) in *.
  destruct (clientIdentity r ip _) as [key fb]. cbn in Hid. subst key.
  assert (Hv : ValidateAPIKey ip = Some ErrInvalidAPIKey).
  { unfold ValidateAPIKey, apiKeyPattern. destruct (pattern 128 ip) eqn:Ep; [|done].
    apply orb_true_iff in Haddr as [Hd|Hd];
      apply (pattern_chars _ _ _ Ep) in Hd; vm_compute in Hd; done. }
  assert (Hne : ip <> "") by (intros E; by rewrite E in Haddr).
  assert (Hw : wp (if 0 <? ContentLength r then writeError 400 (Text "request body not expected")
    else on_audit (Anomaly "invalid_client_identity" (SanitizeForLog ip) ip) ;;;
         writeError 400 (Text "invalid client identity")) c
    (fun _ c' => turned_away c c' /\ status_of (resp c') = 400)).
  { destruct (0 <? ContentLength r); [by apply wp_error|].
    apply wp_bind, wp_on_audit, wp_error; [exact Hr|]. done. }
  apply wp_value in Hw as ([] & c' & E & ? & ?). exists c'. split; [|done].
  rewrite bool_decide_false by done. rewrite Hv. exact E.
Qed.

(** ** Examples *)

#[local] Existing Instance map_to_list_range.

(** A server with a bearer token, the defaults otherwise. *)
Definition ex_salt : string := "na".
Definition ex_token : string := "s3cret".

Definition ex_config : Config.Config :=
  {| c_Server := c_Server Default; c_Defaults := c_Defaults Default; c_Limits := c_Limits Default;
     c_Security :=
       {| AdminTokenHash := HashToken ex_token ex_salt; AdminTokenSalt := ex_salt;
          IdentityMode := IdentityMode (c_Security Default);
          TrustProxyHeaders := false; EnableIPSecondaryLimit := false;
          IPMaxTokens := 1000; IPRefillRate := 1000; IPRefillInterval := Second |};
     c_Logging := c_Logging Default; c_Metrics := c_Metrics Default;
     c_Fairness := c_Fairness Default; c_Global := c_Global Default; c_Tiers := c_Tiers Default |}.

Definition ex_world : World Scheduler :=
  {| w_store := ex_store; w_fairness := Some (Fairness.New true (of_int 1));
     w_audit := Some (AuditLog.New (of_int 1)); w_metrics := Some NewRegistry |}.

Definition ex_ctx : Ctx Scheduler := {| world := ex_world; resp := no_response |}.

Definition ex_env : Env :=
  {| e_start := ex_now; e_now := ex_now; e_end := ex_now + 250 * Microsecond; e_draw := fzero |}.

Definition ex_request (method path : string) (hs : list (string * string)) (b : body)
  (vals : gmap string string) : Request :=
  {| Method := method; RequestURI := path; EscapedPath := path; Headers := list_to_map ((fun '(k, v) => (k, [v])) <$> hs);
     RemoteAddr := "10.0.0.7:51000"; ContentLength := 0; Body := b; PathValues := vals;
     PeerNames := None |}.

Definition ex_client (hs : list (string * string)) : Request :=
  ex_request "POST" "/api/v1/request" hs NoBody ∅.

Definition ex_key : list (string * string) := [("X-Api-Key", " c "); ("X-Resource-Tier", "premium")].

(** The first request of "c" for its premium tier is allowed; without a key
    the address is used, and refused. *)
Example ex_client_request :
  (let '(_, c') := handleRequest ex_config ex_env (ex_client ex_key) ex_ctx in
   rs_status (resp c') = Some 200 /\ Snapshot (w_fairness (world c')) = {["c" := 1]} /\
   option_map (fun l => List.length (records l)) (w_audit (world c')) = Some 1%nat) /\
  rs_status (resp (snd (handleRequest ex_config ex_env (ex_client []) ex_ctx))) = Some 400.
Proof. vm_compute. repeat split. Qed.

Lemma ex_admitted_key req :
  admitted ex_config ex_env (ex_client ex_key) = Some req -> @plain_key Strict (ClientKey req).
Proof. intros E _ Hk. vm_compute in E. injection E as <-. discriminate Hk. Qed.

Lemma client_request_correct_witness :
  (exists c', handleRequest ex_config ex_env (ex_client ex_key) ex_ctx = (Ok tt, c') /\
    @inv _ _ _ Strict (w_store (world c')) /\
    match admitted ex_config ex_env (ex_client ex_key) with
    | None => turned_away ex_ctx c' /\ status_of (resp c') = 400
    | Some req =>
        let st := w_store (world ex_ctx) in
        let res := Spec_Allow (reg st) req (e_now ex_env) in
        Store.Allow req (e_now ex_env) st = (Ok res, w_store (world c')) /\
        resp c' = decision_response (e_now ex_env) res /\
        Snapshot (w_fairness (world c')) =
          accounted (ClientKey req) res (w_fairness (world ex_ctx)) /\
        (forall m, w_metrics (world ex_ctx) = Some m -> exists m', w_metrics (world c') = Some m' /\
           let counts := vals (RequestsTotal m) in
           let l := decision_label res in
           vals (RequestsTotal m') = <[l := default 0 (counts !! l) +! 1]> counts)
    end) \/
  (is_Some (admitted ex_config ex_env (ex_client ex_key)) /\
   exists c', handleRequest ex_config ex_env (ex_client ex_key) ex_ctx = (Panic, c') /\
     @panicked _ _ _ Strict ex_ctx c').
Proof.
  exact (client_request_correct ex_config ex_env (ex_client ex_key) ex_ctx ex_store_inv eq_refl
           ex_admitted_key).
Defined.

Definition ex_admin (token : string) : Request :=
  ex_request "PUT" "/admin/v1/clients/c/block" [("Authorization", "Bearer " +:+ token)]
    NoBody ∅.

Lemma admin_auth_required_witness :
  let r := ex_admin "guess" in
  (authorized ex_config r ->
     admin_handler ex_config ex_now r ex_ctx
     = RecoverMiddleware (serve_mux (admin_routes ex_config ex_now)) r ex_ctx) /\
  (~ authorized ex_config r ->
     exists kind c', admin_handler ex_config ex_now r ex_ctx = (Ok tt, c') /\ turned_away ex_ctx c' /\
       anomaly_logged ex_config kind r ex_ctx c' /\ status_of (resp c') = 401 /\
       rs_body (resp c') = []).
Proof.
  refine (admin_auth_required ex_config ex_now (ex_admin "guess") ex_ctx _ eq_refl).
  vm_compute. discriminate.
Defined.

(** Both cases happen. *)
Example ex_auth :
  map (fun t => rs_status (resp (snd (admin_handler ex_config ex_now (ex_admin t) ex_ctx))))
    ["guess"; "s3cret"] = [Some 401; Some 200].
Proof. vm_compute. done. Qed.

Definition ex_update : Request :=
  ex_request "PUT" "/admin/v1/clients/c/config" []
    (Data (quotes "{'tier': 'premium', 'max_tokens': 7, 'refill_interval_ms': 500}"))
    {["key" := "c"]}.

Example ex_update_answer :
  rs_body (resp (snd (handleUpdateConfig ex_config ex_now ex_update ex_ctx)))
  = [P_snapshot {| sn_MaxTokens := 7; sn_RefillRate := RefillRate Bucket.ex_cfg;
                   sn_RefillIntervalMs := 500 |}].
Proof. vm_compute. done. Qed.

Lemma admin_update_correct_witness :
  (exists c', handleUpdateConfig ex_config ex_now ex_update ex_ctx = (Ok tt, c') /\
  @inv _ _ _ Strict (w_store (world c')) /\
  (update_refused ex_config ex_update ex_ctx c' \/
   exists req before, update_acceptable ex_config ex_update ex_ctx req before /\
     let key := PathValue ex_update "key" in
     let after := merge_config req before in
     (MaxTokens after = default (MaxTokens before) (uc_MaxTokens req) /\
      RefillRate after = default (RefillRate before) (uc_RefillRate req) /\
      CfgWindow after = CfgWindow before) /\
     resp c' = json_response ∅ 200 (P_snapshot (snapshot after)) /\
     TierConfig key (uc_Tier req) (reg (w_store (world c'))) = Ok after /\
     (exists b, clients (reg (w_store (world c'))) !! key ≫= lookup_bucket (uc_Tier req) = Some b /\
        tokens b = MaxTokens after /\ blocked b = false) /\
     w_audit (world c') = AuditLog.write Info
       (admin_change (adminIdentity ex_update) key "update_config" (Some (snapshot before))
          (Some (snapshot after)) (admin_ip ex_config ex_update)) <$> w_audit (world ex_ctx) /\
     (10 * Millisecond <= MinRefillInterval (c_Limits ex_config) ->
      MaxRefillInterval (c_Limits ex_config) <= Hour -> TokensPerRequest before <= 2000000 ->
      safe after))) \/
  (exists c', handleUpdateConfig ex_config ex_now ex_update ex_ctx = (Panic, c') /\
     @panicked _ _ _ Strict ex_ctx c' /\
     exists req before, update_acceptable ex_config ex_update ex_ctx req before).
Proof.
  refine (admin_update_correct ex_config ex_now ex_update ex_ctx ex_store_inv eq_refl _).
  intros _. vm_compute. discriminate.
Defined.

Lemma ip_identity_rejected_witness :
  exists c', handleRequest ex_config ex_env (ex_client []) ex_ctx = (Ok tt, c') /\
    turned_away ex_ctx c' /\ status_of (resp c') = 400.
Proof. refine (ip_identity_rejected ex_config ex_env (ex_client []) ex_ctx eq_refl _ _); vm_compute; reflexivity. Defined.

(** The mux sends the request of an unclean path elsewhere, whatever is there;
    an encoded slash is no client key. *)
Example ex_paths :
  map (fun '(m, p) => status_of (resp (snd (serve_mux (admin_routes ex_config ex_now) (ex_request m p [] NoBody ∅) ex_ctx))))
    [("GET", "/admin/v1/clients/c/status"); ("GET", "//admin/v1/clients"); ("GET", "/admin/v1/../x");
     ("GET", "/admin/v1/clients/"); ("GET", "/admin/v1/clients/c/block"); ("GET", "*");
     ("GET", "/admin/v1/clients/%63/status"); ("GET", "/admin/v1/clients/%2F/status")]
  = [200; 301; 301; 404; 405; 400; 200; 404].
Proof. vm_compute. done. Qed.

(** An interval whose nanoseconds overflow wraps around, here to 640 ms, and
    passes the validation. *)
Definition ex_wrap : Request :=
  ex_request "PUT" "/admin/v1/global/config" []
    (Data (quotes "{'enabled': true, 'max_tokens': 5, 'refill_rate': 1, 'refill_interval_ms': 288230376151712384}"))
    ∅.

Example interval_ms_wraps :
  rs_body (resp (snd (handleGlobalConfig ex_config ex_now ex_wrap ex_ctx)))
  = [P_snapshot {| sn_MaxTokens := 5; sn_RefillRate := 1; sn_RefillIntervalMs := 640 |}].
Proof. vm_compute. done. Qed.
