(* ===== verification/Listener.v ===== *)
(** * internal/server/middleware.go: the connection-limiting listener

    The semaphore is a buffered channel: a send waits while it is full, a
    receive while it is empty.  An event is one atomic step of an [Accept] or
    [Close] call; [None] is a step that cannot happen now (it waits).  The
    wrapped listener is an environment that may accept or fail at any time. *)

From stdpp Require Import base tactics gmap list.
From Stdlib Require Import ZArith Lia.
From S2P Require Import Prelude.

Local Open Scope Z_scope.

(** A connection: [true] once its [releaseOnce] has run. *)
Record limitListener := {
  max_conns : Z;                 (* cap(sem) *)
  sem : Z;                       (* len(sem) *)
  accepting : Z;                 (* Accept calls past the send *)
  conns : gmap nat bool
}.

Definition set_state (sem accepting : Z) (conns : gmap nat bool) (l : limitListener) : limitListener :=
  {| max_conns := max_conns l; sem := sem; accepting := accepting; conns := conns |}.

(** [None] when the listener is returned unmodified. *)
Definition LimitListener (max : Z) : option limitListener :=
  if max <=? 0 then None
  else Some {| max_conns := max; sem := 0; accepting := 0; conns := ∅ |}.

Inductive event :=
| AcceptSend                     (* ll.sem <- struct{}{} *)
| AcceptOk (id : nat)            (* the wrapped listener returned connection [id] *)
| AcceptErr                      (* it failed: <-ll.sem *)
| Close (id : nat).              (* lc.Conn.Close(); lc.releaseOnce.Do(lc.release) *)

Definition send (l : limitListener) : option limitListener :=
  if sem l <? max_conns l then Some (set_state (sem l + 1) (accepting l) (conns l) l) else None.

(** [ll.release()]: [<-ll.sem] *)
Definition release (l : limitListener) : option limitListener :=
  if 0 <? sem l then Some (set_state (sem l - 1) (accepting l) (conns l) l) else None.

(** [releaseOnce.Do(release)] *)
Definition release_once (id : nat) (released : bool) (l : limitListener) : option limitListener :=
  if released then Some l
  else release (set_state (sem l) (accepting l) (<[id := true]> (conns l)) l).

Definition step (e : event) (l : limitListener) : option limitListener :=
  match e with
  | AcceptSend => (fun l => set_state (sem l) (accepting l + 1) (conns l) l) <$> send l
  | AcceptOk id =>
      if 0 <? accepting l then
        match conns l !! id with
        | Some _ => None
        | None => Some (set_state (sem l) (accepting l - 1) (<[id := false]> (conns l)) l)
        end
      else None
  | AcceptErr =>
      if 0 <? accepting l then release (set_state (sem l) (accepting l - 1) (conns l) l) else None
  | Close id => match conns l !! id with
                | Some released => release_once id released l
                | None => None
                end
  end.

Definition steps (es : list event) (l : limitListener) : option limitListener :=
  foldl (fun acc e => acc ≫= step e) (Some l) es.

(** The connections that hold a slot: accepted, and never closed. *)
Definition open (l : limitListener) : Z := Z.of_nat (size (filter (fun kv => kv.2 = false) (conns l))).

(** ** Invariant *)

Record wf (l : limitListener) : Prop := {
  wf_sem : sem l = accepting l + open l;
  wf_accepting : 0 <= accepting l;
  wf_max : sem l <= max_conns l
}.

Lemma open_insert_fresh l s a id :
  conns l !! id = None -> open (set_state s a (<[id := false]> (conns l)) l) = open l + 1.
Proof.
  intros E. unfold open. cbn. rewrite map_filter_insert_True by done.
  rewrite map_size_insert_None; [lia|]. rewrite map_lookup_filter_None. by left.
Qed.

Lemma open_release l s a id :
  conns l !! id = Some false -> open (set_state s a (<[id := true]> (conns l)) l) = open l - 1 /\ 0 < open l.
Proof.
  intros E. unfold open. cbn. rewrite map_filter_insert_False by done.
  rewrite map_filter_delete.
  assert (Hin : filter (fun kv => kv.2 = false) (conns l) !! id = Some false)
    by by apply map_lookup_filter_Some.
  rewrite map_size_delete, Hin. cbn.
  assert (size (filter (fun kv : nat * bool => kv.2 = false) (conns l)) <> O).
  { apply map_size_non_empty_iff. intros E'. by rewrite E', lookup_empty in Hin. }
  lia.
Qed.

Lemma step_wf e l l' : wf l -> step e l = Some l' -> wf l' /\ max_conns l' = max_conns l.
Proof.
  intros [Hs Ha Hm]. destruct e as [|id| |id]; cbn.
  - unfold send. destruct (Z.ltb_spec (sem l) (max_conns l)); [|done]. intros [= <-].
    split; [|done]. split; cbn; unfold open in *; cbn; lia.
  - destruct (Z.ltb_spec 0 (accepting l)); [|done]. destruct (conns l !! id) eqn:E; [done|].
    intros [= <-]. split; [|done].
    split; rewrite ?open_insert_fresh by done; cbn; lia.
  - destruct (Z.ltb_spec 0 (accepting l)); [|done]. unfold release. cbn.
    destruct (Z.ltb_spec 0 (sem l)); [|done]. intros [= <-]. split; [|done].
    split; cbn; unfold open in *; cbn; lia.
  - destruct (conns l !! id) as [[]|] eqn:E; [| |done]; cbn.
    + intros [= <-]. by split.
    + unfold release. cbn. destruct (Z.ltb_spec 0 (sem l)); [|done]. intros [= <-].
      split; [|done]. cbn. destruct (open_release l (sem l - 1) (accepting l) id E) as [Eo Hp].
      unfold set_state in *. cbn in *. split; rewrite ?Eo; cbn; lia.
Qed.

Lemma steps_wf es : forall l l', wf l -> steps es l = Some l' -> wf l' /\ max_conns l' = max_conns l.
Proof.
  unfold steps. induction es as [|e es IH]; intros l l' Hw; cbn; [by intros [= <-]|].
  destruct (step e l) as [l1|] eqn:E.
  - intros Hs. destruct (step_wf e l l1 Hw E) as [Hw1 <-]. by apply IH.
  - intros Hs. exfalso. clear -Hs. induction es as [|e es IH]; cbn in Hs; [done|auto].
Qed.

Lemma New_wf max : 0 < max -> wf {| max_conns := max; sem := 0; accepting := 0; conns := ∅ |}.
Proof.
  intros Hmax. split; [|done|cbn; lia]. unfold open. cbn. by rewrite map_filter_empty, map_size_empty.
Qed.

(** ** Properties *)

(** C24: the connection limit.  After any interleaving of [Accept] and [Close]
    steps on a listener of capacity [max], at most [max] accepted connections
    are open, whatever was closed more than once; the slots held are exactly
    those of open connections and pending accepts, so a failed accept and a
    first close never wait for the semaphore and give one slot back each, a
    second close gives none, and an accept waits only when every slot is
    taken. *)
Theorem conn_limit (max : Z) (l0 l : limitListener) (es : list event)
  (H0 : LimitListener max = Some l0) (Hrun : steps es l0 = Some l) :
  open l <= max /\ sem l = accepting l + open l /\
  (accepting l + open l < max -> is_Some (step AcceptSend l)) /\
  (0 < accepting l -> exists l', step AcceptErr l = Some l' /\ sem l' = sem l - 1) /\
  (forall id, conns l !! id = Some false ->
     exists l', step (Close id) l = Some l' /\ sem l' = sem l - 1 /\ open l' = open l - 1 /\
       step (Close id) l' = Some l').
Proof.
  unfold LimitListener in H0. destruct (Z.leb_spec max 0); [done|]. injection H0 as <-.
  destruct (steps_wf _ _ _ (New_wf max ltac:(lia)) Hrun) as [[Hs Ha Hm] Em]. cbn in Em.
  assert (Ho : 0 <= open l) by (unfold open; lia). split_and!; [lia|done|..].
  - intros Hlt. cbn. unfold send. rewrite (proj2 (Z.ltb_lt _ _)) by lia. by eexists.
  - intros Hacc. cbn. unfold release. rewrite (proj2 (Z.ltb_lt _ _)) by lia. cbn.
    rewrite (proj2 (Z.ltb_lt _ _)) by lia. by eexists.
  - intros id E. destruct (open_release l (sem l - 1) (accepting l) id E) as [Eo Hp].
    cbn. rewrite E. cbn. unfold release. cbn. rewrite (proj2 (Z.ltb_lt _ _)) by lia.
    eexists. split_and!; [done|done|exact Eo|]. cbn. by rewrite lookup_insert_eq.
Qed.

Definition ex_events : list event :=
  [AcceptSend; AcceptOk 1; AcceptSend; AcceptErr; AcceptSend; AcceptOk 2; Close 1; Close 1; AcceptSend].

Definition ex_l0 : limitListener := {| max_conns := 2; sem := 0; accepting := 0; conns := ∅ |}.
Definition ex_l : limitListener := default ex_l0 (steps ex_events ex_l0).

Lemma ex_listener_run : steps ex_events ex_l0 = Some ex_l.
Proof. vm_compute. reflexivity. Qed.

Lemma conn_limit_witness :
  open ex_l <= 2 /\ sem ex_l = accepting ex_l + open ex_l /\
  (accepting ex_l + open ex_l < 2 -> is_Some (step AcceptSend ex_l)) /\
  (0 < accepting ex_l -> exists l', step AcceptErr ex_l = Some l' /\ sem l' = sem ex_l - 1) /\
  (forall id, conns ex_l !! id = Some false ->
     exists l', step (Close id) ex_l = Some l' /\ sem l' = sem ex_l - 1 /\ open l' = open ex_l - 1 /\
       step (Close id) l' = Some l').
Proof. exact (conn_limit 2 ex_l0 ex_l ex_events eq_refl ex_listener_run). Defined.
