(* ===== verification/Main.v ===== *)
(** * cmd/sentinel: the wiring

    From a configuration to the running program: the translation of bucket
    configurations, the store and scheduler as main connects them, the shared
    state of both servers, and the metrics sampling.  An [event] is one thing
    that happens to the running program: a request to either server, a firing
    of the scheduler, or a sample of the metrics loop. *)

From Stdlib Require Import ZArith Lia SpecFloat Ascii String.
From stdpp Require Import base tactics gmap strings numbers list.
From S2P Require Import Prelude GoTime GoString SHA256 Float64 GoJSON GoHTTP Window Bucket MultiBucket Heap Scheduler SchedulerIface Config Security Store StoreProofs StoreSystem AuditLog Fairness Metrics Server ServerProofs.

Local Open Scope string_scope.
Local Open Scope Z_scope.
Local Open Scope go_monad_scope.

Definition toBucketConfig (bd : BucketDefaults) : Bucket.Config :=
  {| MaxTokens := bd_MaxTokens bd;
     RefillRate := bd_RefillRate bd;
     RefillInterval := bd_RefillInterval bd;
     TokensPerRequest := bd_TokensPerRequest bd;
     CfgWindow :=
       match bd_SlidingWindow bd with
       | Some sw =>
           if sw_Enabled sw then
             Some {| Window.Enabled := true; WindowDuration := sw_WindowDuration sw;
                     MaxRequests := sw_MaxRequests sw; BufferSize := sw_BufferSize sw |}
           else None
       | None => None
       end |}.

Inductive slog_level := LevelDebug | LevelInfo | LevelWarn | LevelError.

Definition levelFromString (s : string) : slog_level :=
  if bool_decide (s = "debug") then LevelDebug
  else if bool_decide (s = "warn") then LevelWarn
  else if bool_decide (s = "error") then LevelError
  else LevelInfo.

(** A configured tier called "default" takes the place of the defaults. *)
Definition tier_defaults (cfg : Config.Config) : gmap string Bucket.Config :=
  (toBucketConfig <$> c_Tiers cfg) ∪ {["default" := toBucketConfig (c_Defaults cfg)]}.

Definition store_options (cfg : Config.Config) : Options :=
  {| Store.MaxClients := Config.MaxClients (c_Limits cfg); TierDefaults := tier_defaults cfg |}.

Section Startup.
Context `{MapRange} (cfg : Config.Config) (now : Time).

(** The optional global and per-IP limits. *)
Definition configure_limits : M (BucketStore Scheduler) unit :=
  (if g_Enabled (c_Global cfg) then
     SetGlobalConfig {| MaxTokens := g_MaxTokens (c_Global cfg);
                        RefillRate := g_RefillRate (c_Global cfg);
                        RefillInterval := g_RefillInterval (c_Global cfg);
                        TokensPerRequest := 1; CfgWindow := None |} now
   else ret tt) ;;;
  if EnableIPSecondaryLimit (c_Security cfg) then
    SetIPLimit true {| MaxTokens := IPMaxTokens (c_Security cfg);
                       RefillRate := IPRefillRate (c_Security cfg);
                       RefillInterval := IPRefillInterval (c_Security cfg);
                       TokensPerRequest := 1; CfgWindow := None |}
  else ret tt.

Definition wire : M (BucketStore Scheduler) unit :=
  AttachScheduler Scheduler.New ;;; configure_limits.

Definition fresh_store : BucketStore Scheduler :=
  {| reg := Store.New (store_options cfg); scheduler := None |}.

Definition startup : World Scheduler :=
  {| w_store := snd (wire fresh_store);
     w_fairness := Some (Fairness.New (f_Enabled (c_Fairness cfg)) (f_DefaultWeight (c_Fairness cfg)));
     w_audit := Some (AuditLog.New (RequestSampleRate (c_Logging cfg)));
     w_metrics := Some NewRegistry |}.
End Startup.

(** One tick of [reportMetricsLoop]. *)
Definition report (w : World Scheduler) : outcome unit * World Scheduler :=
  match w_metrics w, scheduler (w_store w) with
  | Some m, Some sc =>
      match HeapSize sc with
      | (Ok n, _) =>
          (Ok tt, {| w_store := w_store w; w_fairness := w_fairness w; w_audit := w_audit w;
                     w_metrics := Some (set_gauges (Store.ActiveClients (reg (w_store w))) n
                       (RefillsTotal sc) (Evictions (reg (w_store w))) m) |})
      | _ => (Panic, w)
      end
  | _, _ => (Panic, w)
  end.

(** ** The running program *)

Inductive event :=
| ClientRequest (env : Env) (r : Request)
| AdminRequest (now : Time) (r : Request)
| SchedulerDue (now : Time)
| MetricsSample.

Section Running.
Context `{MapRange} (cfg : Config.Config).

(** Each request gets a fresh response. *)
Definition answer_with (h : Request -> M (Ctx Scheduler) unit) (r : Request)
  : M (World Scheduler) (list Response) := fun w =>
  match h r {| world := w; resp := no_response |} with
  | (Ok _, c) => (Ok [resp c], world c)
  | (Panic, c) => (Panic, world c)
  | (OutOfFuel, c) => (OutOfFuel, world c)
  end.

Definition on_event (e : event) : M (World Scheduler) (list Response) :=
  match e with
  | ClientRequest env r => answer_with (client_handler cfg env) r
  | AdminRequest now r => answer_with (admin_handler cfg now) r
  | SchedulerDue now => fun w =>
      let '(res, c) := on_store (tick now) {| world := w; resp := no_response |} in
      (match res with Ok _ => Ok [] | Panic => Panic | OutOfFuel => OutOfFuel end, world c)
  | MetricsSample => fun w =>
      let '(res, w') := report w in
      (match res with Ok _ => Ok [] | Panic => Panic | OutOfFuel => OutOfFuel end, w')
  end.

(** The responses of a history, in order. *)
Fixpoint run (es : list event) : M (World Scheduler) (list Response) :=
  match es with
  | [] => ret []
  | e :: es => let! rs := on_event e in let! rs' := run es in ret (app rs rs')
  end.

Definition is_request (e : event) : bool :=
  match e with ClientRequest _ _ | AdminRequest _ _ => true | _ => false end.

(** How many requests of a history are to be answered. *)
Definition requests (es : list event) : nat := List.length (List.filter is_request es).

(** In mode [Strict], the event does not name the client key whose ids the
    store cannot tell from those of addresses. *)
Definition plain_event `{Mode} (e : event) : Prop :=
  match e with
  | ClientRequest env r => forall req, admitted cfg env r = Some req -> plain_key (ClientKey req)
  | AdminRequest _ r => plain_path r
  | SchedulerDue _ | MetricsSample => True
  end.

Lemma any_event e : @plain_event AnyKey e.
Proof. destruct e; cbn; unfold plain_path, plain_key; try done; by intros. Qed.

(** The windows of all configured tiers can be allocated. *)
Definition windows_fit : Prop :=
  forall t bc, tier_defaults cfg !! t = Some bc -> allocatable bc = true.
End Running.

(** ** What stays attached *)

Definition kept (c c' : Ctx Scheduler) : Prop :=
  sched_kept (w_store (world c)) (w_store (world c')) /\
  (is_Some (w_metrics (world c)) -> is_Some (w_metrics (world c'))).

#[local] Instance kept_preorder : PreOrder kept.
Proof.
  split; unfold kept, sched_kept; [done|]. intros ? ? ? [H1 H2] [H3 H4]. split; auto.
Qed.

Lemma exec_run_kept {A} (m : M (BucketStore Scheduler) A) :
  (exists o (k : A -> M (BucketStore Scheduler) unit) `(MapRange),
     (forall a st, snd (k a st) = st) /\ forall st, exec o st = bind m k st) -> preserves sched_kept m.
Proof.
  intros (o & k & H & Hk & E) st. pose proof (exec_kept o st) as He. rewrite E in He.
  unfold bind in He. destruct (m st) as [[a| |] st']; [|done..]. by rewrite Hk in He.
Qed.

Section Kept.
Context `{MapRange}.

Lemma Allow_kept req wall : preserves (@sched_kept Scheduler) (Store.Allow req wall).
Proof. apply exec_run_kept. by exists (OpAllow req wall), (fun _ => ret tt), H. Qed.

Lemma unit_kept o (m : M (BucketStore Scheduler) unit) :
  (forall st, exec o st = m st) -> preserves sched_kept m.
Proof. intros E st. rewrite <- E. apply exec_kept. Qed.

Lemma same_kept c c' :
  w_store (world c') = w_store (world c) -> w_metrics (world c') = w_metrics (world c) -> kept c c'.
Proof. unfold kept, sched_kept. intros -> ->. done. Qed.

Lemma on_store_kept {A} (m : M (BucketStore Scheduler) A) :
  preserves sched_kept m -> preserves kept (on_store m).
Proof.
  intros Hm c. specialize (Hm (w_store (world c))). unfold on_store, zoom. destruct (m _). by split.
Qed.

Lemma on_audit_kept {A} (m : M (option Logger) A) : preserves kept (on_audit m).
Proof. intros c. unfold on_audit, zoom. destruct (m _). by apply same_kept. Qed.

Lemma on_fairness_kept {A} (m : M (option Tracker) A) : preserves kept (on_fairness m).
Proof. intros c. unfold on_fairness, zoom. destruct (m _). by apply same_kept. Qed.

Lemma on_response_kept f : preserves kept (on_response f).
Proof. intros c. by apply same_kept. Qed.

Lemma with_metrics_kept m : preserves kept (with_metrics m).
Proof.
  intros c. unfold with_metrics. destruct (w_metrics (world c)) as [mr|]; [|reflexivity]. destruct (m mr).
  split; [by intros ?|]. intros _. by eexists.
Qed.

Hint Resolve on_audit_kept on_fairness_kept on_response_kept with_metrics_kept : frame.

Lemma status_kept code : preserves kept (@WriteHeader Scheduler code).
Proof. apply on_response_kept. Qed.

Lemma json_kept code v : preserves kept (@writeJSON Scheduler code v).
Proof. unfold writeJSON, WriteHeader. frame. Qed.

Lemma error_kept code msg : preserves kept (@writeError Scheduler code msg).
Proof. apply json_kept. Qed.

Hint Resolve status_kept json_kept error_kept : frame.

Lemma read_kept {A} (f : BucketStore Scheduler -> outcome A) :
  preserves kept (on_store (fun st => (f st, st))).
Proof. apply on_store_kept. intros st. by intros ?. Qed.

Lemma gets_kept {A} (f : BucketStore Scheduler -> A) : preserves kept (on_store (gets f)).
Proof. apply on_store_kept. intros st. by intros ?. Qed.

Hint Resolve @read_kept @gets_kept : frame.

Lemma admin_kept cfg r key action before after :
  preserves kept (@audit_admin Scheduler cfg r key action before after).
Proof. unfold audit_admin. frame. Qed.

Hint Resolve admin_kept : frame.

Lemma client_request_kept cfg env r : preserves kept (handleRequest (S := Scheduler) cfg env r).
Proof. unfold handleRequest. frame. apply on_store_kept, Allow_kept. Qed.

Lemma admin_route_kept cfg now rt r :
  rt ∈ admin_routes cfg now -> preserves kept (rt_handler rt r).
Proof.
  unfold admin_routes. rewrite !elem_of_cons.
  intros [->|[->|[->|[->|[->|[->|[->|[]%not_elem_of_nil]]]]]]]; cbn;
    unfold handleUpdateConfig, handleBlock, handleUnblock, handleStatus, handleListClients,
      handleGlobalConfig, handleFairness; frame; apply on_store_kept.
  - by eapply (unit_kept (OpUpdateClientConfig _ _ _ _)).
  - by eapply (unit_kept (OpBlock _ _)).
  - by eapply (unit_kept (OpUnblock _)).
  - by eapply (unit_kept OpDisableGlobal).
  - by eapply (unit_kept (OpSetGlobalConfig _ _)).
Qed.

Lemma mux_kept rs r :
  (forall rt r, rt ∈ rs -> preserves kept (rt_handler rt r)) -> preserves kept (serve_mux (S := Scheduler) rs r).
Proof.
  intros Hrs. unfold serve_mux. destruct (mux_find rs r) as [h vals| | | |] eqn:E; [|apply status_kept..].
  apply mux_find_serve in E as (rt & Hin & -> & _). by apply Hrs.
Qed.

Lemma recover_kept h r : preserves kept (h r) -> preserves kept (@RecoverMiddleware Scheduler h r).
Proof.
  intros Hh c. specialize (Hh c). unfold RecoverMiddleware. destruct (h r c) as [[] c']; [done| |done].
  etrans; [exact Hh|apply status_kept].
Qed.

Lemma client_handler_kept cfg env r : preserves kept (client_handler (S := Scheduler) cfg env r).
Proof.
  apply recover_kept, mux_kept. intros rt r'. unfold client_routes. rewrite !elem_of_cons.
  intros [->|[->|[]%not_elem_of_nil]]; [apply client_request_kept|apply status_kept].
Qed.

Lemma admin_handler_kept cfg now r : preserves kept (admin_handler (S := Scheduler) cfg now r).
Proof.
  apply recover_kept.
  assert (Hm : preserves kept (serve_mux (S := Scheduler) (admin_routes cfg now) r)).
  { apply mux_kept. intros rt r'. apply admin_route_kept. }
  unfold authMiddleware. frame.
Qed.
End Kept.

(** ** Invariant *)

Definition world_ok `{Mode} (w : World Scheduler) : Prop :=
  inv (w_store w) /\ is_Some (scheduler (w_store w)) /\ is_Some (w_metrics w).

(** What an event leaves, with the responses it caused. *)
Definition responded (n : nat) (w : World Scheduler) (rs : list Response) (w' : World Scheduler) : Prop :=
  List.length rs = n /\ Forall (fun x => status_of x ∈ 500 :: statuses) rs /\
  (fits (reg (w_store w)) -> fits (reg (w_store w')) /\ Forall (fun x => status_of x ∈ statuses) rs).

Section Invariant.
Context `{MapRange} `{Mode} (cfg : Config.Config).

(** What startup attaches stays attached, and the store is well formed. *)
Lemma configure_limits_kept now : preserves sched_kept (configure_limits cfg now).
Proof.
  unfold configure_limits.
  frame; first [by eapply (unit_kept (OpSetGlobalConfig _ _))|by eapply (unit_kept (OpSetIPLimit _ _))].
Qed.

(** The limits of main have no window, so nothing panics, and they touch
    neither the tier table nor the clients. *)
Lemma configure_limits_spec now st :
  inv st -> (forall c, ipConfigPtr (reg st) = Some c -> allocatable c = true) ->
  wp (configure_limits cfg now) st (fun _ st' => inv st' /\
    tierDefaults (reg st') = tierDefaults (reg st) /\ clients (reg st') = clients (reg st) /\
    (forall c, ipConfigPtr (reg st') = Some c -> allocatable c = true)).
Proof.
  intros HI Hip. unfold configure_limits.
  assert (Hl : forall st1 b c, CfgWindow c = None -> inv st1 ->
    tierDefaults (reg st1) = tierDefaults (reg st) -> clients (reg st1) = clients (reg st) ->
    (forall c, ipConfigPtr (reg st1) = Some c -> allocatable c = true) ->
    wp (if b : bool then SetIPLimit true c else ret tt) st1 (fun _ st' => inv st' /\
      tierDefaults (reg st') = tierDefaults (reg st) /\ clients (reg st') = clients (reg st) /\
      (forall c, ipConfigPtr (reg st') = Some c -> allocatable c = true))).
  { intros st1 b c Hw HI1 E1 E2 Hp. destruct b; [|by wp_step]. wp_use SetIPLimit_spec; [done|].
    intros _ st2 (? & E3 & E4 & _ & E5). rewrite E3, E4, E5. split_and!; [done..|].
    intros c' [= <-]. unfold allocatable. by rewrite Hw. }
  apply wp_bind. destruct (g_Enabled _); [|apply wp_ret; by apply Hl].
  apply mp_total with (P := fun _ => False); [|by intros ? []].
  mp_use SetGlobalConfig_spec; [done|by intros st' [_ ?]|].
  intros _ st' [HI' E]. apply Hl; rewrite ?E; done.
Qed.

Lemma wire_run now : wire cfg now (fresh_store cfg) = configure_limits cfg now (start (store_options cfg)).
Proof. reflexivity. Qed.

Lemma startup_spec now :
  world_ok (startup cfg now) /\
  tierDefaults (reg (w_store (startup cfg now))) = tierDefaults (Store.New (store_options cfg)) /\
  clients (reg (w_store (startup cfg now))) = ∅ /\
  (windows_fit cfg -> fits (reg (w_store (startup cfg now)))).
Proof.
  assert (Hno : forall c, ipConfigPtr (reg (start (store_options cfg))) = Some c -> allocatable c = true) by done.
  pose proof (configure_limits_spec now _ (start_inv (store_options cfg)) Hno)
    as ([] & st & E & HI & Et & Ec & Hip)%wp_value.
  pose proof (configure_limits_kept now (start (store_options cfg))) as Hk. rewrite E in Hk.
  assert (Ew : w_store (startup cfg now) = st) by (unfold startup; by rewrite wire_run, E).
  unfold world_ok. rewrite Ew. split_and!; [done|apply Hk; by eexists|by eexists|done|done|].
  intros Hf. split; [|exact Hip]. rewrite Et. intros t bc Ht. apply (Hf t).
  change (tierDefaults _) with (match tier_defaults cfg !! DefaultTier with
    | Some _ => tier_defaults cfg
    | None => <[DefaultTier := builtin_Config]> (tier_defaults cfg) end) in Ht.
  destruct (tier_defaults cfg !! DefaultTier) eqn:Ed; [done|]. exfalso. revert Ed.
  unfold tier_defaults. rewrite lookup_union, lookup_fmap. change DefaultTier with "default".
  rewrite lookup_singleton_eq. by destruct (_ <$> _).
Qed.

Lemma report_ok w : world_ok w ->
  exists w', report w = (Ok tt, w') /\ world_ok w' /\ w_store w' = w_store w.
Proof.
  intros (HI & [sc Hs] & [m Hm]). unfold report. rewrite Hs, Hm. cbn.
  eexists. split; [done|]. split; [|done]. split_and!; cbn; [done|by eexists|by eexists].
Qed.

Lemma answer_with_ok h r w :
  world_ok w -> preserves kept (h r) ->
  wp (h r) {| world := w; resp := no_response |} (fun _ => served {| world := w; resp := no_response |}) ->
  exists rs w', answer_with h r w = (Ok rs, w') /\ world_ok w' /\ responded 1 w rs w'.
Proof.
  intros (_ & Hs & Hm) Hk (u & c & E & HI & Hst & Hf)%wp_value.
  specialize (Hk {| world := w; resp := no_response |}). rewrite E in Hk. destruct Hk as [Hk1 Hk2].
  unfold answer_with. rewrite E. eexists _, _. split; [reflexivity|].
  split; [split_and!; [done|by apply Hk1|by apply Hk2]|].
  split_and!; [done|by apply Forall_singleton|]. intros Hw. destruct (Hf Hw). split; [done|].
  by apply Forall_singleton.
Qed.

Lemma quiet_responded w w' :
  same_defaults (reg (w_store w)) (reg (w_store w')) -> responded 0 w [] w'.
Proof. intros Hd. split_and!; [done|constructor|]. intros Hf. by rewrite (fits_same _ _ Hd). Qed.

Lemma on_event_ok e w : plain_event cfg e -> world_ok w ->
  exists rs w', on_event cfg e w = (Ok rs, w') /\ world_ok w' /\ responded (requests [e]) w rs w'.
Proof.
  intros Hv Hw. pose proof Hw as (HI & Hs & Hm). destruct e as [env r|now r|now|]; cbn [on_event].
  - apply answer_with_ok; [done|apply client_handler_kept|]. by apply client_handler_answers.
  - apply answer_with_ok; [done|apply admin_handler_kept|]. by apply admin_handler_answers.
  - pose proof (tick_spec (w_store w) now HI) as ([] & st' & E & HI' & Hd & _)%wp_value.
    pose proof (tick_kept now (w_store w)) as Hk. rewrite E in Hk.
    unfold on_store, zoom. cbn. rewrite E. eexists _, _. split; [reflexivity|].
    split; [split_and!; [done|by apply Hk|done]|by apply quiet_responded].
  - destruct (report_ok w Hw) as (w' & E & Hw' & Es). rewrite E. eexists _, _. split; [reflexivity|].
    split; [done|]. apply quiet_responded. by rewrite Es.
Qed.

Lemma run_ok es : forall w, Forall (plain_event cfg) es -> world_ok w ->
  exists rs w', run cfg es w = (Ok rs, w') /\ world_ok w' /\ responded (requests es) w rs w'.
Proof.
  induction es as [|e es IH]; intros w Hes Hw; cbn [run].
  { eexists _, _. split; [done|]. split; [done|]. by apply quiet_responded. }
  apply Forall_cons in Hes as [He Hes].
  destruct (on_event_ok e w He Hw) as (rs & w1 & E1 & Hw1 & Hl1 & Hr1 & Hf1).
  destruct (IH w1 Hes Hw1) as (rs2 & w2 & E2 & Hw2 & Hl2 & Hr2 & Hf2).
  eexists _, _. unfold bind at 1. rewrite E1. unfold bind at 1. rewrite E2. split; [reflexivity|].
  split; [done|]. split_and!; [|by apply Forall_app|].
  - rewrite length_app, Hl1, Hl2. unfold requests. cbn. by destruct (is_request e).
  - intros Hf. destruct (Hf1 Hf) as [Hg ?]. destruct (Hf2 Hg). split; [done|]. by apply Forall_app.
Qed.
End Invariant.

(** ** Properties *)

(** C4: the whole program keeps running.  From the startup of any
    configuration, after any history of client requests, admin requests,
    scheduler firings and metrics samples, in any order, nothing has got stuck
    or stopped: every request was answered, with one of the documented statuses
    (200, 400, 401, 404, 405, 429, and the 301 of the mux for a path that is
    not clean), or with the 500 of a recovered panic, which no request gets
    when the windows of the configured tiers can be allocated; the client and
    per-IP tables respect their capacities; and the scheduler holds exactly
    the ids of the buckets that refill, among the ids without the prefix of
    the per-IP ids, and among all ids when no request named the client
    "__ip__". *)
Theorem servers_never_fail `{MapRange} (cfg : Config.Config) (now : Time) (es : list event) :
  exists rs w sc, run cfg es (startup cfg now) = (Ok rs, w) /\
    List.length rs = requests es /\
    Forall (fun x => status_of x ∈ 500 :: statuses) rs /\
    (windows_fit cfg -> Forall (fun x => status_of x ∈ statuses) rs) /\
    bounded (Store.ActiveClients (reg (w_store w))) (maxClients (reg (w_store w))) /\
    bounded (Z.of_nat (size (ipBuckets (reg (w_store w))))) (ipBucketCap (reg (w_store w))) /\
    scheduler (w_store w) = Some sc /\ Scheduler.wf sc /\
    let exact id := is_Some (schedule sc !! id) <-> live_id (reg (w_store w)) id in
    (forall id, HasPrefix id ipIDPrefix = false -> exact id) /\
    (Forall (@plain_event cfg Strict) es -> forall id, exact id).
Proof.
  destruct (startup_spec (H0 := AnyKey) cfg now) as (Hw0 & _ & _ & Hfit).
  destruct (run_ok (H0 := AnyKey) cfg es _ (Forall_true _ _ (any_event cfg)) Hw0)
    as (rs & w & E & ([Rok T] & [sc Hs] & _) & Hl & Hr & Hf).
  unfold tracks in T. rewrite Hs in T. destruct T as [W Hd].
  exists rs, w, sc.
  split_and!; [done..|intros Hwf; by apply Hf, Hfit|apply (reg_capacity _ Rok)|apply (reg_ip_capacity _ Rok)|done|done|].
  intros exact. split.
  - intros id Hp. apply Hd. by apply tracked_plain.
  - intros Hes id. destruct (run_ok (H0 := Strict) cfg es _ Hes (proj1 (startup_spec cfg now)))
      as (rs' & w' & E' & ([_ T'] & _) & _). rewrite E in E'. injection E' as <- <-.
    unfold tracks in T'. rewrite Hs in T'. by apply T'.
Qed.

(** C34: the configuration takes effect.  After startup, a client that has
    made no request has, for every tier it names, the bucket configuration the
    file gives that tier; an unknown or empty tier gets the one of a tier
    called "default" if there is one, else the defaults. *)
Theorem startup_tiers `{MapRange} (cfg : Config.Config) (now : Time) (key tier : string) :
  TierConfig key tier (reg (w_store (startup cfg now))) =
    Ok (toBucketConfig
          match c_Tiers cfg !! norm_tier tier, c_Tiers cfg !! "default" with
          | Some bd, _ | None, Some bd => bd
          | None, None => c_Defaults cfg
          end).
Proof.
  destruct (startup_spec (H0 := AnyKey) cfg now) as (_ & Etd & Ecl & _).
  unfold TierConfig. rewrite Ecl, Etd.
  rewrite lookup_empty. cbn [mbind option_bind]. f_equal.
  change (tierDefaults (Store.New (store_options cfg))) with
    (match tier_defaults cfg !! DefaultTier with
     | Some _ => tier_defaults cfg
     | None => <[DefaultTier := builtin_Config]> (tier_defaults cfg)
     end).
  assert (Hd : tier_defaults cfg !! DefaultTier =
    Some (toBucketConfig (default (c_Defaults cfg) (c_Tiers cfg !! "default")))).
  { unfold tier_defaults. rewrite lookup_union, lookup_fmap. change DefaultTier with "default".
    destruct (c_Tiers cfg !! "default"); [done|]. cbn. by rewrite lookup_singleton_eq. }
  rewrite Hd. unfold default_tier_cfg. rewrite Hd. cbn [default from_option].
  unfold tier_defaults. rewrite lookup_union, lookup_fmap.
  destruct (c_Tiers cfg !! norm_tier tier) as [bd|] eqn:Et.
  { by destruct ({["default" := toBucketConfig (c_Defaults cfg)]} !! norm_tier tier). }
  destruct (decide (norm_tier tier = "default")) as [Ed|Ed].
  - rewrite Ed, lookup_singleton_eq. rewrite Ed in Et. by rewrite Et.
  - rewrite lookup_singleton_ne by done. by destruct (c_Tiers cfg !! "default").
Qed.

(** C38: validation does not bound the defaults.  There is a configuration
    file that loads and validates, and whose default bucket, full with its
    maximum of tokens, is emptied by its first refill: the token counter
    overflows, and the next request is refused. *)
Theorem validated_config_overflows :
  exists contents cfg, Load (fun _ => Contents contents) "sentinel.yaml" = inr cfg /\
    Validate cfg = None /\
    exists b, Bucket.New (toBucketConfig (c_Defaults cfg)) ex_now tt = (Ok b, tt) /\
    tokens b = MaxTokens (toBucketConfig (c_Defaults cfg)) /\
    exists retry b', Bucket.Allow (ex_now + Second) b = (Ok (false, retry), b') /\ tokens b' < 0.
Proof.
  exists (lines_of ["defaults:"; "  max_tokens: 9223372036854775807"]).
  eexists. split; [vm_compute; reflexivity|]. split; [vm_compute; reflexivity|].
  eexists. split; [vm_compute; reflexivity|]. split; [vm_compute; reflexivity|].
  eexists _, _. split; vm_compute; reflexivity.
Qed.

(** A first request, when the window of the default tier cannot be allocated. *)
Lemma first_request_panics `{MapRange} opts req wall :
  allocatable (default_tier_cfg (tierDefaults (Store.New opts))) = false ->
  exists st', Store.Allow req wall (start opts) = (Panic, st').
Proof.
  intros Ha. unfold Store.Allow. generalize (if Time.IsZero (Now req) then wall else Now req) as now; intros now.
  change (start opts) with {| reg := Store.New opts; scheduler := Some Scheduler.New |}.
  unfold global_gate, ip_gate, client_gate, getOrCreateClient, bind, gets, ret, on_reg, zoom. cbn.
  rewrite lookup_empty. cbn. rewrite map_size_empty.
  assert (Hg : (0 <? MaxClients opts) && (MaxClients opts <=? Z.of_nat 0) = false).
  { destruct (Z.ltb_spec 0 (MaxClients opts)); [apply Z.leb_gt; lia|done]. }
  rewrite Hg. cbn. cbn in Ha.
  unfold run_fresh, MultiBucket.Configure, bind. cbn. rewrite New_run. rewrite Ha. by eexists.
Qed.

(** C39: validation does not bound the sliding window.  There is a configuration
    file that loads and validates, and with which the program starts; but no
    bucket can be made: the first request of any client panics in [make], and
    is answered 500. *)
Theorem validated_window_panics `{MapRange} :
  exists contents cfg, Load (fun _ => Contents contents) "sentinel.yaml" = inr cfg /\
    Validate cfg = None /\
    forall now env r, is_Some (admitted cfg env r) ->
      exists c', RecoverMiddleware (handleRequest cfg env) r
                   {| world := startup cfg now; resp := no_response |} = (Ok tt, c') /\
        status_of (resp c') = 500.
Proof.
  exists (lines_of ["defaults:"; "  sliding_window:"; "    enabled: true"; "    window_duration: 60s";
                    "    max_requests: 100000000000000"]).
  eexists. split; [vm_compute; reflexivity|]. split; [vm_compute; reflexivity|].
  intros now env r [req Hadm]. match type of Hadm with admitted ?c _ _ = _ => set (cfg := c) in * end.
  pose proof (startup_spec (H0 := AnyKey) cfg now) as ((HI & _) & _).
  destruct (mp_value _ _ _ _ (handleRequest_spec (H2 := AnyKey) cfg env r
    {| world := startup cfg now; resp := no_response |} HI eq_refl ltac:(by intros ? _ ?)))
    as [(u & c' & _ & _ & Hc)|(c' & E & (_ & _ & Hr) & _)].
  - exfalso. rewrite Hadm in Hc. destruct Hc as [Hc _].
    destruct (first_request_panics (store_options cfg) req (e_now env)) as [st' E]; [vm_compute; reflexivity|].
    assert (Ew : w_store (startup cfg now) = start (store_options cfg)) by reflexivity.
    cbn [world] in Hc. rewrite Ew, E in Hc. discriminate Hc.
  - unfold RecoverMiddleware. rewrite E. eexists. split; [reflexivity|]. cbn. by rewrite Hr.
Qed.

(** ** Examples *)

#[local] Existing Instance map_to_list_range.

Definition ex_history : list event :=
  [ClientRequest ex_env (ex_client ex_key); AdminRequest ex_now (ex_admin "s3cret");
   ClientRequest ex_env (ex_client ex_key); SchedulerDue (ex_now + Minute);
   AdminRequest ex_now (ex_admin "guess"); ClientRequest ex_env (ex_client []); MetricsSample].

Example ex_statuses :
  (fun rs => map status_of rs) <$>
    (match fst (run ex_config ex_history (startup ex_config ex_now)) with
     | Ok rs => Some rs
     | _ => None
     end) = Some [200; 200; 429; 401; 400].
Proof. vm_compute. reflexivity. Qed.
