(* ===== verification/Boot.v ===== *)
(** * cmd/sentinel and internal/server: boot, listeners and shutdown

    The part of the program around [Main]: what main makes of the files it is
    given ([main_boot]) and where its log records go ([emits]), what the two
    [ListenAndServe] methods set up from the configuration and the host's
    answers ([listen_client], [listen_admin]), and the shutdown protocol
    between main and the goroutines that serve ([shutdown_step]).  The host
    (file system, TCP ports, certificates) is a parameter. *)

From Stdlib Require Import ZArith Lia String.
From stdpp Require Import base tactics gmap strings numbers list relations.
From S2P Require Import Prelude GoTime GoString Float64 Config Security SchedulerIface Scheduler Store AuditLog Fairness Metrics Server Main.

Local Open Scope string_scope.
Local Open Scope list_scope.
Local Open Scope Z_scope.

(** ** The host *)

Record Host := {
  host_file : string -> file;                  (* os.Stat and os.Open of config.Load *)
  host_append : string -> bool;                (* os.OpenFile(..., O_APPEND) succeeds *)
  host_listen : Z -> bool;                     (* net.Listen("tcp", ":port") succeeds *)
  host_key_pair : string -> string -> bool;    (* tls.LoadX509KeyPair(cert, key) *)
  host_read : string -> option string;         (* os.ReadFile *)
  host_pem : string -> bool                    (* pool.AppendCertsFromPEM *)
}.

(** ** The listeners *)

Inductive listen_error := ListenFailed | KeyPairFailed | CAUnreadable | CAEmpty.

Record tls_setup := {
  t_cert : string;
  t_key : string;
  t_client_ca : option string    (* ClientCAs with RequireAndVerifyClientCert *)
}.

Inductive notice := ListeningTLS | ListeningMTLS | ListeningPlain | Unauthenticated.

Record listening := {
  l_port : Z;
  l_limit : Z;                   (* LimitListener *)
  l_header_bytes : Z;            (* MaxHeaderBytes *)
  l_tls : option tls_setup;
  l_notices : list notice
}.

(** What [ListenAndServe] does before [Serve]: it returns an error, perhaps
    with the TCP listener still open, or serves. *)
Inductive listen_result :=
| Refused (e : listen_error) (left_open : option Z)
| Serves (l : listening).

Section Listen.
Context (cfg : Config.Config) (h : Host).

Definition listen_client : listen_result :=
  let port := ClientPort (c_Server cfg) in
  if negb (host_listen h port) then Refused ListenFailed None
  else
    let serve tls notice :=
      Serves {| l_port := port; l_limit := 10000; l_header_bytes := 4096; l_tls := tls;
                l_notices := [notice] |} in
    let cert := CertFile (TLS (c_Server cfg)) in
    let key := KeyFile (TLS (c_Server cfg)) in
    if bool_decide (cert <> "") && bool_decide (key <> "") then
      if negb (host_key_pair h cert key) then Refused KeyPairFailed (Some port)
      else serve (Some {| t_cert := cert; t_key := key; t_client_ca := None |}) ListeningTLS
    else serve None ListeningPlain.

Definition admin_warnings : list notice :=
  if bool_decide (ClientCAFile (AdminTLS (c_Server cfg)) = "") &&
     bool_decide (AdminTokenHash (c_Security cfg) = "")
  then [Unauthenticated] else [].

Definition listen_admin : listen_result :=
  let port := AdminPort (c_Server cfg) in
  if negb (host_listen h port) then Refused ListenFailed None
  else
    let tls := AdminTLS (c_Server cfg) in
    let serve setup notice :=
      Serves {| l_port := port; l_limit := 1000; l_header_bytes := 4096; l_tls := setup;
                l_notices := notice :: admin_warnings |} in
    if bool_decide (CertFile tls <> "") && bool_decide (KeyFile tls <> "") then
      if negb (host_key_pair h (CertFile tls) (KeyFile tls)) then Refused KeyPairFailed (Some port)
      else if bool_decide (ClientCAFile tls <> "") then
        match host_read h (ClientCAFile tls) with
        | None => Refused CAUnreadable (Some port)
        | Some pem =>
            if negb (host_pem h pem) then Refused CAEmpty (Some port)
            else serve (Some {| t_cert := CertFile tls; t_key := KeyFile tls; t_client_ca := Some pem |})
                   ListeningMTLS
        end
      else serve (Some {| t_cert := CertFile tls; t_key := KeyFile tls; t_client_ca := None |}) ListeningTLS
    else serve None ListeningPlain.
End Listen.

(** ** main, up to the running program *)

Inductive sink := ToStdout | ToFile (path : string).

Inductive exit := LoadFailed (e : Config.Error) | InvalidConfig (e : Config.invalid).

Record booted := {
  bt_config : Config.Config;
  bt_level : slog_level;         (* of the default logger, on stdout *)
  bt_audit : sink;
  bt_world : World Scheduler;
  bt_metrics : option Z          (* the port of the metrics server *)
}.

Definition audit_sink (cfg : Config.Config) (h : Host) : sink :=
  let path := AuditFile (c_Logging cfg) in
  if bool_decide (path <> "") && host_append h path then ToFile path else ToStdout.

Definition main_boot `{MapRange} (h : Host) (configPath : string) (now : Time) : exit + booted :=
  match Config.Load (host_file h) configPath with
  | inl e => inl (LoadFailed e)
  | inr cfg =>
      match Validate cfg with
      | Some e => inl (InvalidConfig e)
      | None =>
          inr {| bt_config := cfg; bt_level := levelFromString (Config.Level (c_Logging cfg));
                 bt_audit := audit_sink cfg h; bt_world := startup cfg now;
                 bt_metrics := if m_Enabled (c_Metrics cfg) then Some (m_Port (c_Metrics cfg)) else None |}
      end
  end.

(** ** Where the records go

    A handler built with nil options writes records from level Info on. *)

Definition severity (l : AuditLog.Level) : Z :=
  match l with Debug => -4 | Info => 0 | Warn => 4 end.

Definition threshold (level : slog_level) : Z :=
  match level with LevelDebug => -4 | LevelInfo => 0 | LevelWarn => 4 | LevelError => 8 end.

Definition emits (level : slog_level) (s : sink) (l : AuditLog.Level) : bool :=
  match s with
  | ToStdout => threshold level <=? severity l
  | ToFile _ => 0 <=? severity l
  end.

(** The audit records that reach their destination. *)
Definition trail (level : slog_level) (s : sink) (l : Logger) : list (AuditLog.Level * Event) :=
  filter (fun r => emits level s (fst r) = true) (records l).

Definition trail_of level s (l : option Logger) : list (AuditLog.Level * Event) :=
  default [] (trail level s <$> l).

Lemma trail_write level s lv e l :
  trail level s (write lv e l) = trail level s l ++ (if emits level s lv then [(lv, e)] else []).
Proof.
  unfold trail. cbn. rewrite filter_app, filter_cons, filter_nil. cbn. f_equal.
  destruct (emits level s lv); by case_decide.
Qed.

(** A decision record, and what the design promises of the trail. *)
Definition decision allowed key ip remaining latency : Event :=
  request_decision allowed key ip remaining (Microseconds latency).

(** C36: the audit trail.  With an audit file every rejection and every
    administrative change reaches it, and no allowed decision ever does,
    whatever the configured sampling rate: they are written at Debug to a
    handler that starts at Info.  Without a file the trail goes to the
    program's own logger: allowed decisions reach it only at level debug, and
    administrative changes are lost when the log level is warn or error. *)
Theorem audit_trail (level : slog_level) (path key ip admin action : string)
  (before after : option configSnapshot) (remaining : Z) (latency : Duration) (draw : float64) (l : Logger) :
  let logged c s := trail_of level s (snd (c (Some l))) in
  let allow := RequestDecision true key ip remaining latency draw in
  let reject := RequestDecision false key ip remaining latency draw in
  let change := AdminChange admin key action before after ip in
  logged allow (ToFile path) = trail level (ToFile path) l /\
  logged reject (ToFile path) = trail level (ToFile path) l ++ [(Warn, decision false key ip remaining latency)] /\
  logged change (ToFile path) = trail level (ToFile path) l ++ [(Info, admin_change admin key action before after ip)] /\
  (level <> LevelDebug -> logged allow ToStdout = trail level ToStdout l) /\
  (logged change ToStdout = trail level ToStdout l <-> level = LevelWarn \/ level = LevelError) /\
  (logged reject ToStdout = trail level ToStdout l <-> level = LevelError).
Proof.
  intros logged allow reject change.
  assert (Happ : forall (x : list (AuditLog.Level * Event)) y, x ++ [y] = x <-> False).
  { intros x y. split; [|done]. intros E. apply (f_equal List.length) in E. rewrite length_app in E. cbn in E. lia. }
  assert (Hrej : forall s, logged reject s = trail level s (write Warn (decision false key ip remaining latency) l)) by done.
  assert (Hchg : forall s, logged change s = trail level s (write Info (admin_change admin key action before after ip) l)) by done.
  assert (Hall : forall s, emits level s Debug = false -> logged allow s = trail level s l).
  { intros s Hs. unfold logged, allow, RequestDecision. cbn. destruct (fle _ _); [done|].
    destruct (_ && _); [done|].
    etrans; [exact (trail_write level s Debug (decision true key ip remaining latency) l)|].
    by rewrite Hs, app_nil_r. }
  rewrite !Hrej, !Hchg, !trail_write. cbn [emits severity]. rewrite !Hall by done.
  split_and!; [done|done|done| | |].
  - intros Hl. apply Hall. by destruct level.
  - destruct level; cbn; rewrite ?app_nil_r, ?Happ; split; intros; by intuition (congruence || eauto).
  - destruct level; cbn; rewrite ?app_nil_r, ?Happ; split; intros; by intuition (congruence || eauto).
Qed.

(** ** Authentication of the admin listener *)

(** Whether the handshake of the admin listener asks for a client
    certificate. *)
Definition requires_certificate (l : listening) : bool :=
  match l_tls l with Some t => bool_decide (is_Some (t_client_ca t)) | None => false end.

Definition admin_tls (cfg : Config.Config) : TLSConfig := AdminTLS (c_Server cfg).

(** C23: how the admin listener comes up.  It serves on its port behind at most
    1000 connections unless the port, the key pair or the client CA fails, and
    every failure but the first leaves the port bound with nobody accepting.
    Client certificates are required exactly when all three files are
    configured; a client CA without a key pair is silently ignored, so the
    listener then serves plain HTTP, unauthenticated if there is no token
    either, and without the warning that says so. *)
Theorem admin_listener (cfg : Config.Config) (h : Host) :
  let tls := admin_tls cfg in
  let keyed := CertFile tls <> "" /\ KeyFile tls <> "" in
  match listen_admin cfg h with
  | Serves l =>
      host_listen h (AdminPort (c_Server cfg)) = true /\ l_port l = AdminPort (c_Server cfg) /\
      l_limit l = 1000 /\
      (l_tls l = None <-> ~ keyed) /\
      (requires_certificate l = true <-> keyed /\ ClientCAFile tls <> "") /\
      (forall ca t, l_tls l = Some t -> t_client_ca t = Some ca -> host_pem h ca = true) /\
      (Unauthenticated ∈ l_notices l <-> ClientCAFile tls = "" /\ AdminTokenHash (c_Security cfg) = "") /\
      (ClientCAFile tls <> "" -> ~ keyed -> AdminTokenHash (c_Security cfg) = "" ->
       requires_certificate l = false /\ l_notices l = [ListeningPlain])
  | Refused e open =>
      open = (if bool_decide (host_listen h (AdminPort (c_Server cfg)) = true)
              then Some (AdminPort (c_Server cfg)) else None)
  end.
Proof.
  cbv zeta. unfold listen_admin, admin_tls. destruct (host_listen h _); cbn [negb]; [|done].
  cbv zeta. set (tls := AdminTLS (c_Server cfg)). set (hash := AdminTokenHash (c_Security cfg)).
  assert (Hw : Unauthenticated ∈ admin_warnings cfg <-> ClientCAFile tls = "" /\ hash = "").
  { unfold admin_warnings. fold tls hash. repeat case_bool_decide; cbn [andb]; set_solver. }
  assert (Hws : ClientCAFile tls <> "" -> admin_warnings cfg = []).
  { intros Hca. unfold admin_warnings. fold tls. by rewrite (bool_decide_false (ClientCAFile tls = "")). }
  assert (Hw' : forall n, n <> Unauthenticated -> Unauthenticated ∈ n :: admin_warnings cfg <->
    ClientCAFile tls = "" /\ hash = "").
  { intros n Hn. rewrite elem_of_cons, Hw. naive_solver. }
  destruct (bool_decide (CertFile tls <> "")) eqn:Hc, (bool_decide (KeyFile tls <> "")) eqn:Hk; cbn [andb];
    rewrite ?bool_decide_eq_true, ?bool_decide_eq_false in *.
  2-4: cbn; rewrite Hw' by done; do 6 (split; [naive_solver|]); split; [tauto|];
    intros Hca _ _; split; [done|by rewrite (Hws Hca)].
  destruct (host_key_pair h _ _); cbn [negb]; [|done].
  destruct (bool_decide (ClientCAFile tls <> "")) eqn:Hca; rewrite ?bool_decide_eq_true, ?bool_decide_eq_false in *.
  - destruct (host_read h _) as [pem|]; [|done].
    destruct (host_pem h pem) eqn:Hpem; cbn [negb]; [|done]. cbn. rewrite Hw' by done.
    unfold requires_certificate. cbn.
    do 6 (split; [naive_solver|]). split; [done|tauto].
  - cbn. rewrite Hw' by done. do 6 (split; [naive_solver|]). split; [done|tauto].
Qed.

(** ** Shutdown

    Each server has a goroutine: [ListenAndServe] assigns [s.httpServer],
    binds its port and serves until [Shutdown] has been called on that
    [http.Server].  The methods [Shutdown] of the two API servers return at once
    when [s.httpServer] is still nil; the metrics server is assigned before its
    goroutine starts.  An [http.Server] that was shut down refuses to serve. *)

Inductive phase := Starting | Assigned | Serving | Exited.

Record srv := { at_ : phase; down : bool }.

Definition goto p (s : srv) : srv := {| at_ := p; down := down s |}.

Definition Shutdown (s : srv) : srv :=
  match at_ s with
  | Starting => s                                  (* s.httpServer == nil *)
  | p => {| at_ := p; down := true |}
  end.

(** The goroutine of one server. *)
Inductive serve_step : srv -> srv -> Prop :=
| V_assign s : at_ s = Starting -> serve_step s (goto Assigned s)
| V_fail s : at_ s = Assigned -> serve_step s (goto Exited s)        (* listen or TLS error *)
| V_serve s : at_ s = Assigned -> down s = false -> serve_step s (goto Serving s)
| V_refuse s : at_ s = Assigned -> down s = true -> serve_step s (goto Exited s)
| V_return s : at_ s = Serving -> down s = true -> serve_step s (goto Exited s).

Inductive main_phase := Waiting | ShutClient | ShutAdmin | ShutMetrics | Joining | Stopped.

Record proc := { pmain : main_phase; pclient : srv; padmin : srv; pmetrics : srv }.

Inductive shutdown_step : proc -> proc -> Prop :=
| D_client m c a t c' : serve_step c c' -> shutdown_step
    {| pmain := m; pclient := c; padmin := a; pmetrics := t |}
    {| pmain := m; pclient := c'; padmin := a; pmetrics := t |}
| D_admin m c a t a' : serve_step a a' -> shutdown_step
    {| pmain := m; pclient := c; padmin := a; pmetrics := t |}
    {| pmain := m; pclient := c; padmin := a'; pmetrics := t |}
| D_metrics m c a t t' : serve_step t t' -> shutdown_step
    {| pmain := m; pclient := c; padmin := a; pmetrics := t |}
    {| pmain := m; pclient := c; padmin := a; pmetrics := t' |}
| D_signal c a t : shutdown_step                                     (* <-ctx.Done() *)
    {| pmain := Waiting; pclient := c; padmin := a; pmetrics := t |}
    {| pmain := ShutClient; pclient := c; padmin := a; pmetrics := t |}
| D_shut_client c a t : shutdown_step
    {| pmain := ShutClient; pclient := c; padmin := a; pmetrics := t |}
    {| pmain := ShutAdmin; pclient := Shutdown c; padmin := a; pmetrics := t |}
| D_shut_admin c a t : shutdown_step
    {| pmain := ShutAdmin; pclient := c; padmin := a; pmetrics := t |}
    {| pmain := ShutMetrics; pclient := c; padmin := Shutdown a; pmetrics := t |}
| D_shut_metrics c a t : shutdown_step
    {| pmain := ShutMetrics; pclient := c; padmin := a; pmetrics := t |}
    {| pmain := Joining; pclient := c; padmin := a; pmetrics := Shutdown t |}
| D_join c a t : at_ c = Exited -> at_ a = Exited -> at_ t = Exited ->   (* wg.Wait() *)
    shutdown_step
    {| pmain := Joining; pclient := c; padmin := a; pmetrics := t |}
    {| pmain := Stopped; pclient := c; padmin := a; pmetrics := t |}.

(** The program once main has started its goroutines; without a metrics server
    there is nothing to wait for. *)
Definition launched (metrics : bool) : proc :=
  {| pmain := Waiting; pclient := {| at_ := Starting; down := false |};
     padmin := {| at_ := Starting; down := false |};
     pmetrics := {| at_ := if metrics then Assigned else Exited; down := false |} |}.

(** Enough steps for every goroutine. *)
Definition phase_left (p : phase) : nat :=
  match p with Starting => 3 | Assigned => 2 | Serving => 1 | Exited => 0 end.
Definition main_left (m : main_phase) : nat :=
  match m with Waiting => 5 | ShutClient => 4 | ShutAdmin => 3 | ShutMetrics => 2 | Joining => 1 | Stopped => 0 end.
Definition steps_left (x : proc) : nat :=
  main_left (pmain x) + phase_left (at_ (pclient x)) + phase_left (at_ (padmin x)) +
  phase_left (at_ (pmetrics x)).

Lemma serve_step_left s s' : serve_step s s' -> (phase_left (at_ s') < phase_left (at_ s))%nat.
Proof. destruct 1 as [s E|s E|s E ?|s E ?|s E ?]; rewrite E; cbn; lia. Qed.

Lemma phase_Shutdown s : at_ (Shutdown s) = at_ s.
Proof. unfold Shutdown. destruct (at_ s) eqn:E; cbn; by rewrite ?E. Qed.

Lemma shutdown_step_left x y : shutdown_step x y -> (steps_left y < steps_left x)%nat.
Proof.
  unfold steps_left. destruct 1; cbn [pmain pclient padmin pmetrics main_left]; rewrite ?phase_Shutdown;
    try lia; match goal with H : serve_step _ _ |- _ => apply serve_step_left in H end; lia.
Qed.

(** A server is settled when it can only end: shut down, or gone. *)
Definition settled (s : srv) : Prop := at_ s <> Starting /\ (at_ s = Exited \/ down s = true).

Lemma settled_Shutdown s : at_ s <> Starting -> settled (Shutdown s).
Proof. unfold settled, Shutdown. destruct (at_ s) eqn:E; cbn; rewrite ?E; auto. Qed.

Lemma settled_step s s' : serve_step s s' -> settled s -> settled s'.
Proof. destruct 1; intros [? [?|?]]; split; cbn; auto; congruence. Qed.

Lemma started_step s s' : serve_step s s' -> at_ s <> Starting -> at_ s' <> Starting.
Proof. destruct 1; cbn; congruence. Qed.

Lemma settled_goes_on s : settled s -> at_ s <> Exited -> exists s', serve_step s s'.
Proof.
  intros [Hs [He|Hd]] Hne; [done|]. destruct (at_ s) eqn:E; try done; eexists;
    [by apply V_refuse|by apply V_return].
Qed.

(** What main has done so far, when both servers were up at the signal. *)
Definition past (m : main_phase) (n : nat) : Prop := (main_left m < n)%nat.

Definition in_order (x : proc) : Prop :=
  (at_ (pclient x) <> Starting /\ at_ (padmin x) <> Starting /\ at_ (pmetrics x) <> Starting) /\
  (past (pmain x) 4 -> settled (pclient x)) /\
  (past (pmain x) 3 -> settled (padmin x)) /\
  (past (pmain x) 2 -> settled (pmetrics x)).

Lemma in_order_step x y : shutdown_step x y -> in_order x -> in_order y.
Proof.
  destruct 1; intros ((Sc & Sa & St) & Pc & Pa & Pt); unfold in_order, past in *; cbn in *;
    rewrite ?phase_Shutdown; split_and!; auto; intros; try lia;
    eauto using settled_step, started_step, settled_Shutdown with lia.
Qed.

Lemma in_order_final y : in_order y -> (forall z, ~ shutdown_step y z) -> pmain y = Stopped.
Proof.
  destruct y as [m c a t]. intros ((Sc & Sa & St) & Pc & Pa & Pt) Hno. unfold past in *. cbn in *.
  destruct m; cbn in *; try (exfalso; eapply Hno; by constructor); [|done].
  assert (Hex : forall s, settled s -> (forall s', ~ serve_step s s') -> at_ s = Exited).
  { intros s Hs Hn. destruct (at_ s) eqn:E; try done;
      destruct (settled_goes_on s Hs) as [s' ?]; try congruence; by destruct (Hn s'). }
  exfalso. eapply Hno. apply D_join; (apply Hex; [auto with lia|]); intros s' Hs'; eapply Hno;
    [eapply D_client|eapply D_admin|eapply D_metrics]; exact Hs'.
Qed.

Lemma metrics_started metrics x : rtc shutdown_step (launched metrics) x -> at_ (pmetrics x) <> Starting.
Proof.
  intros Hr. remember (launched metrics) as x0 eqn:E0.
  assert (H0 : at_ (pmetrics x0) <> Starting) by (subst; by destruct metrics).
  clear E0. induction Hr as [|x y z Hs _ IH]; [done|]. apply IH.
  destruct Hs; cbn in *; rewrite ?phase_Shutdown; eauto using started_step.
Qed.

Lemma in_order_run x y : rtc shutdown_step x y -> in_order x -> in_order y.
Proof. induction 1; eauto using in_order_step. Qed.

(** The run in which the signal arrives before the goroutines. *)
Lemma early_reachable (metrics : bool) : exists d, rtc shutdown_step (launched metrics)
  {| pmain := Joining; pclient := {| at_ := Serving; down := false |};
     padmin := {| at_ := Serving; down := false |}; pmetrics := {| at_ := Exited; down := d |} |}.
Proof.
  exists true. unfold launched.
  eapply rtc_l; [apply D_signal|]. eapply rtc_l; [apply D_shut_client|].
  eapply rtc_l; [apply D_shut_admin|]. eapply rtc_l; [apply D_shut_metrics|]. unfold Shutdown. cbn.
  eapply rtc_l; [apply D_client; by apply V_assign|]. eapply rtc_l; [apply D_client; by apply V_serve|].
  eapply rtc_l; [apply D_admin; by apply V_assign|]. eapply rtc_l; [apply D_admin; by apply V_serve|].
  destruct metrics; cbn; [|apply rtc_refl].
  eapply rtc_l; [apply D_metrics; by apply V_refuse|]. apply rtc_refl.
Qed.

(** C22: shutdown.  No run of the protocol is longer than thirteen steps.  When
    both API servers have been assigned by the time the signal arrives, every
    run that can go no further has stopped cleanly.  A signal that arrives
    earlier is lost on them: there is a run after which main waits for ever
    for two servers that serve and that nothing will shut down. *)
Theorem graceful_shutdown (metrics : bool) :
  (forall n x, nsteps shutdown_step n (launched metrics) x -> (n <= 13)%nat) /\
  (forall x y, rtc shutdown_step (launched metrics) x -> pmain x = Waiting ->
     at_ (pclient x) <> Starting -> at_ (padmin x) <> Starting ->
     rtc shutdown_step x y -> (forall z, ~ shutdown_step y z) -> pmain y = Stopped) /\
  (exists y, rtc shutdown_step (launched metrics) y /\ (forall z, ~ shutdown_step y z) /\
     pmain y = Joining /\ at_ (pclient y) = Serving /\ at_ (padmin y) = Serving).
Proof.
  split_and!.
  - assert (Hlen : forall n x y, nsteps shutdown_step n x y -> (n + steps_left y <= steps_left x)%nat).
    { induction 1 as [|n x y z Hs _ IH]; [done|]. apply shutdown_step_left in Hs. lia. }
    intros n x Hn. apply Hlen in Hn. assert (steps_left (launched metrics) <= 13)%nat by (by destruct metrics; cbn; lia).
    lia.
  - intros x y Hx Hw Hc Ha Hy Hno. apply in_order_final; [|done]. eapply in_order_run; [done|].
    pose proof (metrics_started _ _ Hx). split; [done|]. unfold past. rewrite Hw. cbn. split_and!; intros; lia.
  - destruct (early_reachable metrics) as [d Hr]. eexists. split; [exact Hr|]. split_and!; [|done..].
    intros z Hz. inversion Hz as [? ? ? ? ? Hs|? ? ? ? ? Hs|? ? ? ? ? Hs| | | | |]; subst; try done;
      inversion Hs; subst; done.
Qed.

(** ** Examples *)

#[local] Existing Instance map_to_list_range.

(** A client CA without a key pair, and no token: the file validates and the
    admin API comes up open without the warning. *)
Definition open_config : Config.Config :=
  {| c_Server := {| ClientPort := 8080; AdminPort := 8081; TLS := TLS (c_Server Default);
       AdminTLS := {| CertFile := ""; KeyFile := ""; ClientCAFile := "ca.pem" |} |};
     c_Defaults := c_Defaults Default; c_Limits := c_Limits Default; c_Security := c_Security Default;
     c_Logging := c_Logging Default; c_Metrics := c_Metrics Default; c_Fairness := c_Fairness Default;
     c_Global := c_Global Default; c_Tiers := c_Tiers Default |}.

Definition any_host : Host :=
  {| host_file := fun _ => NotExist; host_append := fun _ => true; host_listen := fun _ => true;
     host_key_pair := fun _ _ => true; host_read := fun _ => Some ""; host_pem := fun _ => true |}.

Example open_admin :
  Validate open_config = None /\ AdminTokenHash (c_Security open_config) = "" /\
  listen_admin open_config any_host =
    Serves {| l_port := 8081; l_limit := 1000; l_header_bytes := 4096; l_tls := None;
              l_notices := [ListeningPlain] |}.
Proof. vm_compute. done. Qed.

(** Without a configuration file main runs on the defaults. *)
Example boot_default :
  match main_boot any_host "configs/sentinel.yaml" 0 with
  | inr b => bt_level b = LevelInfo /\ bt_audit b = ToStdout
  | inl _ => False
  end.
Proof. vm_compute. done. Qed.
