(* ===== verification/Simulator.v ===== *)
(** * cmd/simulator: the load generator

    One simulated client, the statistics and the report.  What the network and
    the clock answer is a script: the outcome of each request, and for each
    turn of the main loop the clock reading, whether the context was cancelled,
    and the random draw of the jitter.  Requests sent without waiting (the
    initial burst) come first. *)

From Stdlib Require Import ZArith Lia SpecFloat Ascii String.
From stdpp Require Import base tactics sorting strings numbers list pretty.
From S2P Require Import Prelude GoTime Float64.

Local Open Scope Z_scope.
Local Open Scope go_scope.

Record ClientProfile := {
  APIKey : string;
  RPS : float64;
  BurstSize : Z;
  RunDuration : Duration;
  Jitter : Duration
}.

Record clientResult := {
  r_APIKey : string;
  r_Allowed : Z;
  r_Rejected : Z;
  r_Errors : Z;
  r_Latencies : list Duration
}.

(** How one request ended: it could not be built, sending it failed, or the
    server answered. *)
Inductive reply :=
| BuildError
| SendError (latency : Duration)
| Answer (latency : Duration) (status : Z).

Definition doRequest (x : reply) (r : clientResult) : clientResult :=
  let add_latency l := r_Latencies r ++ [l] in
  match x with
  | BuildError =>
      {| r_APIKey := r_APIKey r; r_Allowed := r_Allowed r; r_Rejected := r_Rejected r;
         r_Errors := r_Errors r +! 1; r_Latencies := r_Latencies r |}
  | SendError l =>
      {| r_APIKey := r_APIKey r; r_Allowed := r_Allowed r; r_Rejected := r_Rejected r;
         r_Errors := r_Errors r +! 1; r_Latencies := add_latency l |}
  | Answer l status =>
      if status =? 200 then
        {| r_APIKey := r_APIKey r; r_Allowed := r_Allowed r +! 1; r_Rejected := r_Rejected r;
           r_Errors := r_Errors r; r_Latencies := add_latency l |}
      else
        {| r_APIKey := r_APIKey r; r_Allowed := r_Allowed r; r_Rejected := r_Rejected r +! 1;
           r_Errors := r_Errors r; r_Latencies := add_latency l |}
  end.

(** A turn of the initial burst: [None] is a cancelled context. *)
Fixpoint burst (n : nat) (turns : list (option reply)) (r : clientResult)
  : option (bool * clientResult) :=
  match n, turns with
  | O, _ => Some (true, r)                       (* go on with the main loop *)
  | S n, None :: _ => Some (false, r)            (* out <- res; return *)
  | S n, Some x :: turns => burst n turns (doRequest x r)
  | S n, [] => None                              (* the script is too short *)
  end.

(** [interval]: [time.Duration(float64(time.Second) / profile.RPS)]. *)
Definition interval_of (p : ClientProfile) : Duration :=
  if flt fzero (RPS p) then trunc (fdiv (of_int Second) (RPS p)) else Second.

(** The pause after a request; [draw] is [rand.Int63n(2*jitter+1)], and
    [rand.Int63n] panics on an argument that is not positive ([None]). *)
Definition sleep_of (interval jitter draw : Z) : option Duration :=
  if 0 <? jitter then
    let n := jitter *! 2 +! 1 in
    if n <=? 0 then None
    else
      let sleep := interval +! (draw -! jitter) in
      Some (if sleep <? 0 then 0 else sleep)
  else Some interval.

(** One turn of the main loop. *)
Record turn := { t_now : Time; t_reply : option reply; t_draw : Z }.

Fixpoint main_loop (p : ClientProfile) (deadline : Time) (turns : list turn) (r : clientResult)
  : option (list Duration * clientResult) :=
  match turns with
  | [] => None
  | t :: turns =>
      if negb (Time.Before (t_now t) deadline) then Some ([], r)
      else match t_reply t with
           | None => Some ([], r)
           | Some x =>
               match sleep_of (interval_of p) (Jitter p) (t_draw t),
                     main_loop p deadline turns (doRequest x r) with
               | Some s, Some (ss, r') => Some (s :: ss, r')
               | _, _ => None
               end
           end
  end.

Definition runClient (p : ClientProfile) (start : Time) (bursts : list (option reply))
  (turns : list turn) : option clientResult :=
  let r := {| r_APIKey := APIKey p; r_Allowed := 0; r_Rejected := 0; r_Errors := 0;
              r_Latencies := [] |} in
  match burst (Z.to_nat (BurstSize p)) bursts r with
  | Some (true, r) => snd <$> main_loop p (Time.Add start (RunDuration p)) turns r
  | Some (false, r) => Some r
  | None => None
  end.

(** ** Statistics *)

Definition percentile (sorted : list Duration) (p : float64) : Duration :=
  match sorted with
  | [] => 0
  | _ =>
      let n := zlen sorted in
      let idx := trunc (fmul p (of_int (n - 1))) in
      let idx := if idx <? 0 then 0 else idx in
      let idx := if n <=? idx then n - 1 else idx in
      default 0 (zlookup sorted idx)
  end.

Record report := {
  rep_rows : list (clientResult * Duration * Duration);
  rep_total : Z; rep_allowed : Z; rep_rejected : Z; rep_errors : Z;
  rep_rate : option float64;                       (* the percentage, before rounding *)
  rep_p50 : Duration; rep_p99 : Duration;
  rep_exit : bool                                  (* os.Exit(1) *)
}.

Definition sort_durations : list Duration -> list Duration := merge_sort Z.le.

Definition sum (f : clientResult -> Z) (rs : list clientResult) : Z :=
  foldl (fun acc r => acc +! f r) 0 rs.

Definition printReport (results : list clientResult) : report :=
  let shown sorted p := Round (percentile sorted p) Microsecond in
  let row r :=
    let sorted := sort_durations (r_Latencies r) in
    (r, shown sorted (decimal 50 2), shown sorted (decimal 99 2)) in
  let all := sort_durations (concat (map r_Latencies results)) in
  let allowed := sum r_Allowed results in
  let rejected := sum r_Rejected results in
  let errors := sum r_Errors results in
  let total := allowed +! rejected +! errors in
  {| rep_rows := map row results;
     rep_total := total;
     rep_allowed := allowed; rep_rejected := rejected; rep_errors := errors;
     rep_rate := if 0 <? total
                 then Some (fdiv (fmul (of_int 100) (of_int allowed)) (of_int total)) else None;
     rep_p50 := shown all (decimal 50 2); rep_p99 := shown all (decimal 99 2);
     rep_exit := 0 <? errors |}.

(** ** main

    Each profile runs in a goroutine of its own and sends its result on a
    channel with room for all of them, so no send blocks; [arrived] is the
    order in which the results came in. *)

(** [fmt.Sprintf("%03d", i)] *)
Definition Sprintf_03d (i : nat) : string :=
  let s := pretty (N.of_nat i) in
  match String.length s with
  | 1%nat => "00" +:+ s
  | 2%nat => "0" +:+ s
  | _ => s
  end.

Record flags := {
  numClients : Z; keyPrefix : string; rps : float64; burst_flag : Z;
  duration_flag : Duration; jitter_flag : Duration
}.

Definition profile (fl : flags) (i : nat) : ClientProfile :=
  {| APIKey := keyPrefix fl +:+ "-" +:+ Sprintf_03d i; RPS := rps fl; BurstSize := burst_flag fl;
     RunDuration := duration_flag fl; Jitter := jitter_flag fl |}.

(** [make] panics on a negative length. *)
Definition profiles (fl : flags) : option (list ClientProfile) :=
  if numClients fl <? 0 then None else Some (profile fl <$> seq 0 (Z.to_nat (numClients fl))).

Definition by_key (a b : clientResult) : Prop := String.le (r_APIKey a) (r_APIKey b).
#[local] Instance by_key_dec a b : Decision (by_key a b).
Proof. unfold by_key. apply _. Defined.

(** [sort.Slice] and the report. *)
Definition summarize (arrived : list clientResult) : report := printReport (merge_sort by_key arrived).

(** ** What a run should count *)

(** One client with its script. *)
Record clientRun := {
  cr_profile : ClientProfile;
  cr_start : Time;
  cr_bursts : list (option reply);
  cr_turns : list turn
}.

Definition outcome_of (c : clientRun) : option clientResult :=
  runClient (cr_profile c) (cr_start c) (cr_bursts c) (cr_turns c).

Fixpoint until_none {A} (l : list (option A)) : list A :=
  match l with Some x :: l => x :: until_none l | _ => [] end.

(** The replies to the requests a client sends: those of its initial burst, and
    unless that was cancelled, those of the turns before the deadline. *)
Definition replies (c : clientRun) : list reply :=
  let n := Z.to_nat (BurstSize (cr_profile c)) in
  let deadline := Time.Add (cr_start c) (RunDuration (cr_profile c)) in
  let b := until_none (take n (cr_bursts c)) in
  if (List.length b <? n)%nat then b
  else b ++ until_none (map (fun t => if Time.Before (t_now t) deadline then t_reply t else None) (cr_turns c)).

Definition is_allowed (x : reply) : bool := match x with Answer _ status => status =? 200 | _ => false end.
Definition is_rejected (x : reply) : bool := match x with Answer _ status => negb (status =? 200) | _ => false end.
Definition is_error (x : reply) : bool := match x with Answer _ _ => false | _ => true end.
Definition latency (x : reply) : option Duration :=
  match x with BuildError => None | SendError l | Answer l _ => Some l end.

Definition count (f : reply -> bool) (xs : list reply) : Z := zlen (List.filter f xs).

(** ** Lemmas *)

Lemma count_nonneg f xs : 0 <= count f xs.
Proof. apply zlen_nonneg. Qed.

Lemma count_cons f x xs : count f (x :: xs) = (if f x then 1 else 0) + count f xs.
Proof. unfold count. cbn. destruct (f x); [rewrite zlen_cons|]; lia. Qed.

Lemma count_app f xs ys : count f (xs ++ ys) = count f xs + count f ys.
Proof. unfold count. by rewrite List.filter_app, zlen_app. Qed.

Lemma count_all xs : count is_allowed xs + count is_rejected xs + count is_error xs = zlen xs.
Proof.
  induction xs as [|x xs IH]; [done|]. rewrite !count_cons, zlen_cons.
  destruct x as [| |l status]; cbn; [lia|lia|]. destruct (status =? 200); cbn; lia.
Qed.

Lemma count_exists f xs : 0 < count f xs <-> Exists (fun x => f x = true) xs.
Proof.
  induction xs as [|x xs IH]; [split; [done|by intros ?%Exists_nil]|].
  rewrite count_cons, Exists_cons, <- IH. pose proof (count_nonneg f xs). destruct (f x); lia || (split; auto; by intros [|]).
Qed.

(** The counters after a list of replies. *)
Lemma doRequests xs : forall r,
  0 <= r_Allowed r -> 0 <= r_Rejected r -> 0 <= r_Errors r ->
  r_Allowed r + r_Rejected r + r_Errors r + zlen xs <= int64_max ->
  foldl (fun r x => doRequest x r) r xs =
    {| r_APIKey := r_APIKey r;
       r_Allowed := r_Allowed r + count is_allowed xs;
       r_Rejected := r_Rejected r + count is_rejected xs;
       r_Errors := r_Errors r + count is_error xs;
       r_Latencies := r_Latencies r ++ omap latency xs |}.
Proof.
  induction xs as [|x xs IH]; intros r Ha Hr He Hm.
  { destruct r. unfold count. cbn. rewrite !zlen_nil, !Z.add_0_r, app_nil_r. done. }
  rewrite zlen_cons in Hm. pose proof (zlen_nonneg xs). cbn [foldl].
  destruct x as [|l|l status]; [| |cbn [doRequest]; destruct (status =? 200) eqn:Es];
    rewrite IH; cbn [doRequest r_Allowed r_Rejected r_Errors r_APIKey r_Latencies];
    rewrite ?wrap64_id by lia64; try lia;
    rewrite !count_cons; cbn [is_allowed is_rejected is_error omap list_omap latency]; rewrite ?Es; cbn [negb];
    rewrite <- ?app_assoc; cbn [app]; f_equal; lia.
Qed.

Lemma burst_replies n : forall turns r go r',
  burst n turns r = Some (go, r') ->
  r' = foldl (fun r x => doRequest x r) r (until_none (take n turns)) /\
  go = negb (List.length (until_none (take n turns)) <? n)%nat.
Proof.
  induction n as [|n IH]; intros turns r go r'; cbn.
  { by intros [= <- <-]. }
  destruct turns as [|[x|] turns]; [done| |by intros [= <- <-]].
  intros E. by apply IH in E as [-> ->].
Qed.

Lemma main_loop_replies p deadline turns : forall r ss r',
  main_loop p deadline turns r = Some (ss, r') ->
  r' = foldl (fun r x => doRequest x r) r
         (until_none (map (fun t => if Time.Before (t_now t) deadline then t_reply t else None) turns)).
Proof.
  induction turns as [|t turns IH]; intros r ss r'; cbn; [done|].
  destruct (Time.Before _ _); cbn [negb]; [|by intros [= _ <-]].
  destruct (t_reply t) as [x|]; [|by intros [= _ <-]]. cbn.
  destruct (sleep_of _ _ _) as [z|]; [|done].
  destruct (main_loop p deadline turns (doRequest x r)) as [[ss' r'']|] eqn:E; [|done].
  intros [= _ <-]. by eapply IH.
Qed.

(** A client's result is the tally of its replies. *)
Definition tally (c : clientRun) : clientResult :=
  {| r_APIKey := APIKey (cr_profile c);
     r_Allowed := count is_allowed (replies c);
     r_Rejected := count is_rejected (replies c);
     r_Errors := count is_error (replies c);
     r_Latencies := omap latency (replies c) |}.

Lemma runClient_tally c r : zlen (replies c) <= int64_max -> outcome_of c = Some r -> r = tally c.
Proof.
  intros Hm. unfold outcome_of, runClient. set (r0 := {| r_APIKey := _; r_Allowed := 0 |}).
  assert (Hr : forall r, r = foldl (fun r x => doRequest x r) r0 (replies c) -> r = tally c).
  { intros r' ->. rewrite doRequests; [done..|cbn; lia]. }
  destruct (burst _ (cr_bursts c) r0) as [[go r1]|] eqn:E; [|done].
  apply burst_replies in E as [-> ->]. unfold replies in Hr. destruct (_ <? _)%nat; cbn [negb].
  - intros [= <-]. by apply Hr.
  - destruct (main_loop _ _ _ _) as [[ss r2]|] eqn:E2; [|done]. intros [= <-].
    apply main_loop_replies in E2. apply Hr. by rewrite foldl_app.
Qed.

Lemma sum_spec (f : clientResult -> Z) (rs : list clientResult) : forall acc,
  Forall (fun r => 0 <= f r) rs -> 0 <= acc -> foldr (fun r s => f r + s) acc rs <= int64_max ->
  foldl (fun acc r => acc +! f r) acc rs = foldr (fun r s => f r + s) acc rs.
Proof.
  assert (Hshift : forall rs acc d, foldr (fun r s => f r + s) (acc + d) rs
            = foldr (fun r s => f r + s) acc rs + d).
  { clear. induction rs as [|r rs IH]; intros acc d; cbn; [done|]. rewrite IH. lia. }
  assert (Hge : forall rs acc, Forall (fun r => 0 <= f r) rs ->
            acc <= foldr (fun r s => f r + s) acc rs).
  { clear. intros rs acc. induction 1; cbn in *; lia. }
  induction rs as [|r rs IH]; intros acc Hf Hacc Hm; [done|]. cbn in *.
  apply Forall_cons in Hf as [Hr Hf]. specialize (Hge rs acc Hf).
  rewrite wrap64_id by lia64. rewrite IH; [|done|lia|]; rewrite Hshift; lia.
Qed.

(** *** The order of arrival *)

Lemma pretty_go_head x : forall s, (0 < x)%N ->
  exists c s', pretty_N_go x s = String c s' /\ c <> "0"%char.
Proof.
  induction (N.lt_wf_0 x) as [x _ IH]. intros s Hx. rewrite pretty_N_go_step by done.
  destruct (N.eq_dec (N.div x 10) 0%N) as [E|E].
  - rewrite E, pretty_N_go_0. eexists _, _. split; [done|].
    apply N.div_small_iff in E; [|done]. rewrite N.mod_small by done.
    assert (x = 1 \/ x = 2 \/ x = 3 \/ x = 4 \/ x = 5 \/ x = 6 \/ x = 7 \/ x = 8 \/ x = 9)%N as Hc by lia.
    repeat destruct Hc as [->|Hc]; try done. by subst.
  - apply IH; [by apply N.div_lt|by apply N.neq_0_lt_0].
Qed.

(** No leading zero but that of zero itself. *)
Lemma pretty_head i s : pretty (N.of_nat i) = String "0" s -> s = "".
Proof.
  unfold pretty, pretty_N. destruct (decide (N.of_nat i = 0)%N); [by intros [= <-]|].
  destruct (pretty_go_head (N.of_nat i) "" ltac:(lia)) as (c & s' & -> & Hc). congruence.
Qed.

#[local] Instance Sprintf_03d_inj : Inj (=) (=) Sprintf_03d.
Proof.
  intros i j E. apply Nat2N.inj, (inj pretty). unfold Sprintf_03d in E.
  pose proof (pretty_head i) as Hi. pose proof (pretty_head j) as Hj.
  destruct (pretty (N.of_nat i)) as [|a1 [|a2 [|a3 s]]], (pretty (N.of_nat j)) as [|b1 [|b2 [|b3 t]]];
    cbn in E; simplify_eq; try done; try (unfold String.append in E; simplify_eq);
    first [by specialize (Hi _ eq_refl)|by specialize (Hj _ eq_refl)].
Qed.

Lemma append_inj s t1 t2 : s +:+ t1 = s +:+ t2 -> t1 = t2.
Proof. apply (inj (String.append s)). Qed.

Lemma profiles_distinct fl ps : profiles fl = Some ps -> NoDup (map APIKey ps).
Proof.
  unfold profiles. destruct (_ <? _); [done|]. intros [= <-].
  change (map APIKey) with (fmap (M := list) APIKey). rewrite <- list_fmap_compose.
  apply NoDup_fmap_2; [|apply NoDup_seq].
  intros i j E. cbn in E. by apply append_inj, append_inj, Sprintf_03d_inj in E.
Qed.

#[local] Instance by_key_trans : Transitive by_key.
Proof. intros a b c. apply (transitivity (R := String.le)). Qed.
#[local] Instance by_key_total : Total by_key.
Proof. intros a b. apply (total String.le). Qed.

(** The report does not depend on which client finished first. *)
Theorem report_order_independent (fl : flags) (ps : list ClientProfile) (rs arrived : list clientResult)
  (Hps : profiles fl = Some ps) (Hrs : map r_APIKey rs = map APIKey ps) (Harr : Permutation rs arrived) :
  summarize arrived = summarize rs.
Proof.
  unfold summarize. f_equal. apply (StronglySorted_unique_strong by_key).
  - intros a b Ha Hb Hab Hba. rewrite merge_sort_Permutation in Ha, Hb. rewrite <- Harr in Ha.
    assert (Ek : r_APIKey a = r_APIKey b) by (by apply (anti_symm String.le)).
    pose proof (profiles_distinct _ _ Hps) as Hnd. rewrite <- Hrs in Hnd.
    apply list_elem_of_lookup in Ha as [i Hi], Hb as [j Hj].
    assert (i = j) as ->; [|congruence].
    eapply (NoDup_lookup (map r_APIKey rs)); [done| |];
      change (map r_APIKey) with (fmap (M := list) r_APIKey); rewrite list_lookup_fmap.
    + by rewrite Hi.
    + rewrite Hj. cbn. by rewrite Ek.
  - apply (StronglySorted_merge_sort by_key).
  - apply (StronglySorted_merge_sort by_key).
  - by rewrite !merge_sort_Permutation, Harr.
Qed.

(** The shown percentiles of a sorted list of up to 10,000 latencies: the
    elements at [(n-1)/2] and [99(n-1)/100], to the nearest microsecond. *)
Definition percentiles_shown (sorted : list Duration) (p50 p99 : Duration) : Prop :=
  let n := zlen sorted in
  0 < n <= 10000 ->
  exists x50 x99, zlookup sorted ((n - 1) / 2) = Some x50 /\ zlookup sorted (99 * (n - 1) / 100) = Some x99 /\
    p50 = Round x50 Microsecond /\ p99 = Round x99 Microsecond.

(** The floating-point index is the exact one. *)
Definition index (n : Z) (p : float64) : Z := trunc (fmul p (of_int (n - 1))).

Lemma index_exact n :
  0 < n <= 10000 -> index n (decimal 50 2) = (n - 1) / 2 /\ index n (decimal 99 2) = 99 * (n - 1) / 100.
Proof.
  intros Hn.
  assert (Hall : forallb (fun i => let n := Z.of_nat i in
    (index n (decimal 50 2) =? (n - 1) / 2) && (index n (decimal 99 2) =? 99 * (n - 1) / 100))
    (seq 1 (Z.to_nat 10000)) = true) by (vm_compute; reflexivity).
  rewrite forallb_forall in Hall. specialize (Hall (Z.to_nat n)).
  rewrite Z2Nat.id in Hall by lia. cbv zeta in Hall.
  rewrite andb_true_iff, !Z.eqb_eq in Hall. apply Hall, in_seq. lia.
Qed.

Lemma percentile_index l p :
  0 <= index (zlen l) p < zlen l -> zlookup l (index (zlen l) p) = Some (percentile l p).
Proof.
  intros Hi. destruct (zlookup_is_Some l _ Hi) as [v Hv]. rewrite Hv. f_equal. symmetry.
  destruct l as [|x l]; [change (zlen (@nil Duration)) with 0 in Hi; lia|]. unfold percentile. fold (index (zlen (x :: l)) p).
  cbv zeta. rewrite (proj2 (Z.ltb_ge _ _)) by lia. rewrite (proj2 (Z.leb_gt _ _)) by lia. by rewrite Hv.
Qed.

Lemma percentiles_correct l :
  percentiles_shown l (Round (percentile l (decimal 50 2)) Microsecond)
    (Round (percentile l (decimal 99 2)) Microsecond).
Proof.
  unfold percentiles_shown. set (n := zlen l). intros Hn. destruct (index_exact n Hn) as [E50 E99].
  pose proof (Z.div_lt_upper_bound (n - 1) 2 n). pose proof (Z.div_lt_upper_bound (99 * (n - 1)) 100 n).
  pose proof (Z.div_pos (n - 1) 2). pose proof (Z.div_pos (99 * (n - 1)) 100).
  exists (percentile l (decimal 50 2)), (percentile l (decimal 99 2)).
  rewrite <- E50, <- E99. split_and!; [apply percentile_index|apply percentile_index|done|done]; fold n; lia.
Qed.

Lemma sum_tally (f : clientResult -> Z) (g : reply -> bool) (runs : list clientRun) :
  (forall c, f (tally c) = count g (replies c)) -> zlen (concat (map replies runs)) <= int64_max ->
  sum f (map tally runs) = count g (concat (map replies runs)).
Proof.
  intros Hf Hm.
  assert (E : foldr (fun r s => f r + s) 0 (map tally runs) = count g (concat (map replies runs))).
  { clear Hm. induction runs as [|c runs IH]; [done|]. cbn [map concat foldr]. by rewrite IH, Hf, count_app. }
  rewrite <- E. apply sum_spec; [|done|].
  - apply Forall_fmap, Forall_true. intros c. cbn. rewrite Hf. apply count_nonneg.
  - rewrite E. unfold count, zlen in *. pose proof (List.filter_length_le g (concat (map replies runs))). lia.
Qed.

(** C33: the simulator's report.  For clients that run to their end on any
    replies, fewer than 2^63 in all: the total counts every reply, the allowed,
    rejected and failed requests are the replies with status 200, with another
    status, and without an answer; the process fails exactly when some request
    failed; each client's row shows its own counts, and the median and the 99th
    percentile of its own latencies, and the last line those of all latencies
    together, each of them rounded to a microsecond.  The index of a
    percentile, computed in floating point, is exact for up to 10,000
    latencies. *)
Theorem simulator_report (runs : list clientRun) (results : list clientResult)
  (Hrun : Forall2 (fun c r => outcome_of c = Some r) runs results)
  (Hm : zlen (concat (map replies runs)) <= int64_max) :
  let all := concat (map replies runs) in
  let rep := printReport results in
  (rep_total rep = zlen all /\ rep_allowed rep = count is_allowed all /\
   rep_rejected rep = count is_rejected all /\ rep_errors rep = count is_error all) /\
  (rep_exit rep = true <-> Exists (fun x => is_error x = true) all) /\
  Forall2 (fun c '(r, p50, p99) => r = tally c /\
             percentiles_shown (merge_sort Z.le (omap latency (replies c))) p50 p99) runs (rep_rows rep) /\
  percentiles_shown (merge_sort Z.le (omap latency all)) (rep_p50 rep) (rep_p99 rep).
Proof.
  intros all rep.
  assert (E : results = map tally runs).
  { clear -Hrun Hm. induction Hrun as [|c r runs results Hc _ IH]; [done|]. cbn in Hm |- *.
    rewrite zlen_app in Hm. pose proof (zlen_nonneg (replies c)). pose proof (zlen_nonneg (concat (map replies runs))).
    f_equal; [apply runClient_tally; [lia|done]|apply IH; lia]. }
  assert (Ea : rep_allowed rep = count is_allowed all) by (unfold rep; rewrite E; by apply sum_tally).
  assert (Er : rep_rejected rep = count is_rejected all) by (unfold rep; rewrite E; by apply sum_tally).
  assert (Ee : rep_errors rep = count is_error all) by (unfold rep; rewrite E; by apply sum_tally).
  pose proof (count_all all) as Hall. fold all in Hm.
  pose proof (count_nonneg is_allowed all). pose proof (count_nonneg is_rejected all). pose proof (count_nonneg is_error all).
  split; [split; [|done]|split; [|split]].
  - change (rep_total rep) with (rep_allowed rep +! rep_rejected rep +! rep_errors rep).
    rewrite Ea, Er, Ee, (wrap64_id (count is_allowed all + _)) by lia64. rewrite wrap64_id by lia64. lia.
  - change (rep_exit rep) with (0 <? rep_errors rep). rewrite Ee, Z.ltb_lt. by apply count_exists.
  - change (rep_rows rep) with (map (fun r =>
      let sorted := sort_durations (r_Latencies r) in
      (r, Round (percentile sorted (decimal 50 2)) Microsecond, Round (percentile sorted (decimal 99 2)) Microsecond)) results).
    rewrite E. apply Forall2_fmap_r. clear. induction runs as [|c runs IH]; constructor; [|done].
    split; [done|]. apply percentiles_correct.
  - assert (El : omap latency all = concat (map r_Latencies results)).
    { rewrite E. unfold all. clear. induction runs as [|c runs IH]; [done|]. cbn. by rewrite omap_app, IH. }
    rewrite El. apply percentiles_correct.
Qed.

Definition ex_profile : ClientProfile :=
  {| APIKey := "sim-client-000"; RPS := of_int 10; BurstSize := 2; RunDuration := Second; Jitter := 10 |}.

Definition ex_run : clientRun :=
  {| cr_profile := ex_profile; cr_start := 0;
     cr_bursts := [Some (Answer 5400 200); Some (Answer 3600 429)];
     cr_turns :=
       [{| t_now := 10; t_reply := Some (Answer 9500 200); t_draw := 20 |};
        {| t_now := 20; t_reply := Some (SendError 1100); t_draw := 0 |};
        {| t_now := Second; t_reply := None; t_draw := 0 |}] |}.

Definition ex_result : clientResult :=
  {| r_APIKey := "sim-client-000"; r_Allowed := 2; r_Rejected := 1; r_Errors := 1;
     r_Latencies := [5400; 3600; 9500; 1100] |}.

Example ex_run_result : outcome_of ex_run = Some ex_result /\ interval_of ex_profile = 100000000.
Proof. vm_compute. done. Qed.

Example ex_report :
  rep_rows (printReport [ex_result]) = [(ex_result, 4000, 5000)] /\
  rep_rate (printReport [ex_result]) = Some (of_int 50).
Proof. vm_compute. done. Qed.

Lemma ex_runs : Forall2 (fun c r => outcome_of c = Some r) [ex_run] [ex_result].
Proof. apply Forall2_cons. split; [apply ex_run_result|by apply Forall2_nil]. Qed.

Lemma simulator_report_witness :
  let all := concat (map replies [ex_run]) in
  let rep := printReport [ex_result] in
  (rep_total rep = zlen all /\ rep_allowed rep = count is_allowed all /\
   rep_rejected rep = count is_rejected all /\ rep_errors rep = count is_error all) /\
  (rep_exit rep = true <-> Exists (fun x => is_error x = true) all) /\
  Forall2 (fun c '(r, p50, p99) => r = tally c /\
             percentiles_shown (merge_sort Z.le (omap latency (replies c))) p50 p99) [ex_run] (rep_rows rep) /\
  percentiles_shown (merge_sort Z.le (omap latency all)) (rep_p50 rep) (rep_p99 rep).
Proof. refine (simulator_report [ex_run] [ex_result] ex_runs _). vm_compute. discriminate. Defined.
